(* ===== verification/_CoqProject ===== *)
-Q . S2P
Prelude.v
Words.v
LinkedList.v
Schedulers.v
Allocators.v
Interleave.v
Rng.v
BinarySearch.v
Manual.v
CoroInfra.v
HashMap.v
HashMapWf.v
HashMapSpec.v
HashMapProps.v
MultiLookup.v
LookupTask.v
ManualResetEvent.v
AsyncLatch.v
AsyncLock.v
Task.v
EagerTask.v
TaskVoid.v
WhenAll.v
TaskScheduler.v
SyncQueue.v
ThreadPool.v
PoolDriver.v
Composition.v
Keywords.v
Generator.v
UniqueResource.v
TimerService.v
TimerPost.v
TimerDriver.v
TimerLoop.v
NixTimer.v
KqueueTimer.v
PoolTimer.v
PoolRace.v
NixPipe.v
WinPipe.v
Lazy.v
LockGuard.v
PrimitiveDrivers.v
MapPrograms.v
Benches.v
