(* ===== verification/Prelude.v ===== *)
(** * Coroutines: a verification library of the repository

    The repository collects C++20 coroutine types ([libcoro/], [primitives/],
    [algorithms/]) and programs built on them ([applications/]). This library
    models them as executable functions and step relations and proves what makes
    each of them correct; where the code does not do what it means to, the
    theorem says what it does instead. All paths below are under [src/].

    ** Conventions

    A C++ expression is an [outcome]: a value, an exception, undefined behaviour
    (a [fault]) or not finished within the fuel given. Pointers are optional
    addresses into finite maps that stand for the heap, so a null or dangling
    dereference, a double destruction and the resumption of a finished coroutine
    are faults and not silent. Machine integers are [Z] with the wrap-around
    written out ([u64], [u32]); arrays are lists with bounds-checked access. A
    coroutine is a transition function on its frame, from one suspension to the
    next. Concurrent components are step relations: each thread has a program
    counter, each atomic access or system call is one step, a
    [compare_exchange_weak] takes a flag for its spurious failure, and
    [reachable] is the closure from the initial state; the memory model is
    sequential consistency. Names follow the source.

    ** The parts

    - Prelude: outcomes and their monad, addresses, integers, arrays, sums over
      lists, automation. Words: the bit tricks of the code ([next_power_of_2],
      masks, the closed flag in a counter word). LinkedList: chains in a heap.
    - HashMap: [applications/map/map.hpp], operation by operation. HashMapWf:
      the well-formedness of a table and the loops over chains. HashMapSpec: the
      abstraction to a finite map ([represents]) and what each operation does to
      it. HashMapProps: the theorems. Lookup, insert, update and resize refine
      the finite map; remove does so for the first entry of a bucket only.
    - Schedulers: the two ring-buffer queues ([applications/map/scheduler.hpp],
      [applications/binary-search/coro_infra.hpp]) behind the class [Scheduler],
      which promises a queue as long as the ring is not full. Allocators: the
      two recycling allocators ([recycling_allocator.hpp], [tcalloc]) behind the
      class [FrameAlloc], which promises blocks for one size; [malloc] is a
      parameter, assumed to return fresh blocks of the size asked for.
    - Interleave: the throttler, the prefetch awaitable with its symmetric
      transfer and the promise's allocation functions, which the map and the
      binary search share in text; its theorem is proved against the two classes
      only. MultiLookup and the module Coro of BinarySearch are its instances;
      LookupTask is MultiLookup with the task objects of [map.hpp].
    - BinarySearch: [vanilla.hpp], [state_machine.hpp], [coroutine.hpp]; all
      three searches count the same lookups. Manual: the driver [manual.cpp],
      from its arguments to its output. Rng: [rng.hpp].
      CoroInfra: [coro_infra.hpp] with its task objects, the owners in the
      promises and the throttlers; it refines Interleave.
    - ManualResetEvent, AsyncLatch, AsyncLock: [primitives/]. The event loses no
      wake-up; the latch loses one in a race; the lock excludes, but its release
      goes wrong as soon as there is a waiter. LockGuard: the lock's guard.
      PrimitiveDrivers: the three [driver.cpp], with what they print.
    - Task: [libcoro/include/libcoro/task.hpp] for tasks with a value, and
      EagerTask: [eager_task.hpp] for tasks without one; the two other instances
      repeat their text, but for the promise of eager tasks with a value, which
      EagerTask has down to the objects in its union. TaskVoid: tasks without a
      value run in lockstep with tasks over the unit. WhenAll: [algorithms/when-all/when_all.hpp], by the
      atomic accesses of its counter. TaskScheduler: [task_scheduler.hpp] and
      [example.cpp], an interpreter of coroutine bodies on one thread in which
      tasks, [when_all] and the scheduler run together.
    - SyncQueue: the two [queue.hpp] ([applications/threadpool/] and
      [applications/timers/win-iocp/]) by the actions of their threads on mutex,
      condition variable or event, and buffer, against one abstract queue.
      ThreadPool: [thread_pool.hpp]; PoolDriver: its [driver.cpp].
      TimerService: [timer_service.hpp], with the part of the system it relies
      on (timers, procedure calls queued to a thread, a completion port);
      TimerPost: its posting functions and its awaitable for one caller; and
      TimerDriver: its [driver_vanilla.cpp] and [driver_awaitable.cpp], the
      latter up to the resumption of the coroutine that its [main] has
      destroyed. The pool takes the operations of its queue for single steps;
      the service has its queue at the grain of the mutex, and of the single
      accesses to the buffer where the worker has lost it.
    - TimerLoop: the program [awaitable.cpp] of the other timers, against the
      class [TimerBackend]; NixTimer (timerfd and epoll), KqueueTimer (kevent)
      and PoolTimer (Windows thread pool) are its instances, each with the
      program [vanilla.cpp] that does without coroutines. PoolRace: the two
      programs of the thread pool by the interleaved steps of [main] and of the
      pool's thread, on PoolTimer's operations.
    - NixPipe and WinPipe: the contexts, pipe ends and awaitables of
      [applications/pipes/], and [win-pipe/test.cpp].
    - Generator: [libcoro/include/libcoro/generator.hpp], its driver and its
      unit tests. Lazy: [primitives/lazy/lazy.hpp].
    - UniqueResource: [libcoro/nix/unique_fd.hpp] and
      [libcoro/win/unique_handle.hpp] behind the class [HandleLaws].
    - MapPrograms: the stress tests, unit tests and statistics of
      [applications/map/]. Benches: the benchmarks of the map and of the binary
      searches.
    - Composition: [basics/composition/], both task types behind one class and
      the three examples. Keywords: [basics/keywords/].

    Calls between the parts: MultiLookup runs HashMap's lookup as a coroutine on
    Interleave, which uses a Scheduler and an allocator; BinarySearch does the
    same with its own scheduler, allocator and search; MapPrograms and Benches
    run both on top, MapPrograms with the keys that a Generator yields.
    PoolDriver, TimerDriver, PoolRace and PrimitiveDrivers take the steps of
    ThreadPool, TimerService, PoolTimer and the primitives for those of their
    threads. The three timer types discharge the laws that TimerLoop's theorems
    assume. SyncQueue justifies the single
    steps of ThreadPool, and has the race that TimerService takes over.

    System calls, [malloc], hash functions and random engines are not code of
    the repository: they are classes of operations, with their documented
    behaviour as classes of laws (waits that fail, such as an [epoll_wait] that a
    signal interrupts, are among it). Every theorem that assumes laws has a witness
    with a concrete instance that satisfies them.

    ** What the theorems show

    Refinement and equivalence: the map against finite maps, the interleaved
    multi-lookups against the sequential ones (same results up to order) and so
    for the programs that use either, the three binary searches against
    membership, the generator's loop against a fold, the pool's queue against an
    abstract queue (linearizability), the composed tasks against a recursive
    trace. Safety: no reachable state of the event, the latch (for positive
    counts) or the thread pool can make a step that is undefined, and the only
    one of the timer service is the race for its queue's buffer; the lock is held by at most one coroutine; no handle, descriptor,
    timer request, frame block or acquisition is given back twice or lost.
    Liveness: [set] resumes every awaiter, an expired latch every awaiter that
    was linked in time, [when_all] its awaiting coroutine exactly once and after
    all subtasks, a shut-down pool every queued coroutine; the pool's program
    cannot get stuck, no wake-up of its queue is lost, every run of the thread
    pool's timer programs ends (a measure decreases with every step), and a run of
    the timer service's program but for the turns in which its worker finds the
    queue empty, which may go on for ever. Output: what the
    programs print, and that they end. Errors: the theorems whose names end in
    [_loses_entries], [_dangles], [_overflow], [_faults], [_lost], [_hangs],
    [_asserts], [_races], [_spins], [_never_resumed], [_never_returns],
    [_never_handled] and the like give the states in which the code fails, and
    that nothing recovers from them.

    ** Fuel

    Loops over chains of entries run with the size of the heap plus one, which
    bounds every chain without a cycle. The binary searches use the length of
    the range, which shrinks at each turn. [multilookup_fuel] allows every key a
    resumption per entry of the map; [coro_multi_lookup_correct],
    [state_machine_multi_lookup_correct] and [benches_agree] state the bound
    they need; [Manual.main] runs with [test_fuel]. A generator's loop needs one step
    per value and one more; a timer program one turn of its reactor per
    repetition; the interpreters of Task, EagerTask, Composition and
    TaskScheduler one unit per resumption and per action of a body, and their
    theorems quantify over all fuel above a bound they give. The step relations
    need none. The theorems say that the code returns, not only what it returns;
    those that say it does not return hold for every amount of fuel.

    ** What is not modelled

    Formatted output but for what the programs' theorems mention, measured
    times, destructors of keys and values, weak memory, exceptions out of
    [malloc] and of system calls in the concurrent parts. Whether an
    alertable wait that is satisfied at once runs the APCs that are queued is
    left open in TimerService: both are steps. The template instances that repeat another's text ([task<void>],
    [eager_task<T>]) are modelled once; [post_awaitable_with_handle] does not
    compile when it is instantiated.

    Left out as code that does not compile: [primitives/maybe/],
    [internals/] (it includes headers that the directory does not have), and the
    drivers and [future.hpp] of [applications/pipes/nix-pipe/] (a promise type
    with both [return_void] and [return_value]). Left out because what its system
    calls do is not documented: [win-pipe/driver.cpp], which passes an OVERLAPPED
    object that nothing has initialised, and none for a handle that needs one.
    Left out as plain data: error classes that hold a code, and the [stdcoro]
    alias header. *)

From stdpp Require Export base gmap list strings sorting relations.
From Stdlib Require Export ZArith Lia.

#[global] Set Default Goal Selector "!".

(** ** Outcomes

    A C++ expression either yields a value, throws, runs into undefined
    behaviour (or ends the program: a failed assertion, an exception out of a
    destructor), or (for a loop run with fuel) has not finished yet. *)

Inductive exn :=
| RuntimeError (msg : string)
| BadAlloc
| SystemError (code : Z)
| UserException (id : Z).

Inductive fault :=
| NullDeref
| WildPointer
| Dangling
| OutOfBounds
| BadResume
| DoubleDestroy
| BadDestroy
| Overflow
| DivisionByZero
| Uninitialised
| AssertionFailed
| Terminated
| DataRace.

Inductive outcome (A : Type) :=
| Ret (a : A)
| Raise (e : exn)
| Fault (f : fault)
| Diverged.
Arguments Ret {A} a.
Arguments Raise {A} e.
Arguments Fault {A} f.
Arguments Diverged {A}.

#[export] Instance exn_eq_dec : EqDecision exn.
Proof. solve_decision. Defined.
#[export] Instance fault_eq_dec : EqDecision fault.
Proof. solve_decision. Defined.
#[export] Instance outcome_eq_dec `{EqDecision A} : EqDecision (outcome A).
Proof. solve_decision. Defined.

#[export] Instance outcome_ret : MRet outcome := fun A => @Ret A.
#[export] Instance outcome_bind : MBind outcome := fun A B k m =>
  match m with
  | Ret a => k a
  | Raise e => Raise e
  | Fault f => Fault f
  | Diverged => Diverged
  end.
#[export] Instance outcome_fmap : FMap outcome := fun A B f m =>
  match m with
  | Ret a => Ret (f a)
  | Raise e => Raise e
  | Fault f => Fault f
  | Diverged => Diverged
  end.

Lemma bind_ret {A B} (a : A) (k : A -> outcome B) : (x ← Ret a; k x) = k a.
Proof. reflexivity. Qed.

Lemma bind_Ret_inv {A B} (m : outcome A) (k : A -> outcome B) b :
  (x ← m; k x) = Ret b -> exists a, m = Ret a /\ k a = Ret b.
Proof. destruct m; cbn; try discriminate. eauto. Qed.

Lemma bind_assoc {A B C} (m : outcome A) (f : A -> outcome B) (g : B -> outcome C) :
  (y ← (x ← m; f x); g y) = (x ← m; y ← f x; g y).
Proof. by destruct m. Qed.

(** Two continuations that agree on every value *)
Lemma bind_ext {A B} (m : outcome A) (k k' : A -> outcome B) : (forall a, k a = k' a) -> (x ← m; k x) = (x ← m; k' x).
Proof. intros E. by destruct m; cbn. Qed.

(** Dereference of an optional result: [None] is the given fault. *)
Definition or_fault {A} (f : fault) (o : option A) : outcome A :=
  match o with Some a => Ret a | None => Fault f end.

Lemma or_fault_Some {A} f (a : A) : or_fault f (Some a) = Ret a.
Proof. reflexivity. Qed.

(** ** Addresses

    A pointer is an address or null; heaps are finite maps from addresses. *)

Abbreviation addr := positive.
Abbreviation ptr := (option addr).
Abbreviation null := (@None addr).

(** Dereference of a pointer into a heap of objects. *)
Definition deref {V} (h : gmap addr V) (p : ptr) : outcome V :=
  match p with
  | None => Fault NullDeref
  | Some a => or_fault Dangling (h !! a)
  end.

Lemma deref_Some {V} (h : gmap addr V) a v :
  h !! a = Some v -> deref h (Some a) = Ret v.
Proof. intros E. cbn. by rewrite E. Qed.

(** ** Fixed-width integers: the wrap-around written out *)

Definition u64 (z : Z) : Z := z mod 2 ^ 64.
Definition u32 (z : Z) : Z := z mod 2 ^ 32.

Definition size_max : Z := 2 ^ 64 - 1.

Lemma u64_small z : (0 <= z < 2 ^ 64)%Z -> u64 z = z.
Proof. apply Z.mod_small. Qed.
Lemma u64_range z : (0 <= u64 z < 2 ^ 64)%Z.
Proof. apply Z.mod_pos_bound. lia. Qed.
Lemma u32_small z : (0 <= z < 2 ^ 32)%Z -> u32 z = z.
Proof. apply Z.mod_small. Qed.
Lemma u32_range z : (0 <= u32 z < 2 ^ 32)%Z.
Proof. apply Z.mod_pos_bound. lia. Qed.

(** ** Arrays: bounds-checked access with a machine index *)

Definition array_get {A} (l : list A) (i : Z) : outcome A :=
  if decide (0 <= i)%Z then or_fault OutOfBounds (l !! Z.to_nat i) else Fault OutOfBounds.

Definition array_set {A} (l : list A) (i : Z) (a : A) : outcome (list A) :=
  if decide (0 <= i < Z.of_nat (length l))%Z then Ret (<[Z.to_nat i := a]> l)
  else Fault OutOfBounds.

Lemma array_get_nat {A} (l : list A) (n : nat) a :
  l !! n = Some a -> array_get l (Z.of_nat n) = Ret a.
Proof.
  intros E. unfold array_get. rewrite decide_True by lia.
  by rewrite Nat2Z.id, E.
Qed.

Lemma array_get_Some {A} (l : list A) (i : Z) a :
  (0 <= i)%Z -> l !! Z.to_nat i = Some a -> array_get l i = Ret a.
Proof. intros Hi E. unfold array_get. by rewrite decide_True, E by lia. Qed.

Lemma array_get_lt {A} (l : list A) (i : Z) :
  (0 <= i < Z.of_nat (length l))%Z ->
  exists a, l !! Z.to_nat i = Some a /\ array_get l i = Ret a.
Proof.
  intros Hi. destruct (lookup_lt_is_Some_2 l (Z.to_nat i)) as [a E]; [lia|].
  exists a. split; [done|]. apply array_get_Some; [lia|done].
Qed.

Lemma array_get_ge {A} (l : list A) (i : Z) :
  (Z.of_nat (length l) <= i)%Z -> array_get l i = Fault OutOfBounds.
Proof.
  intros Hi. unfold array_get. case_decide; [|done].
  by rewrite lookup_ge_None_2 by lia.
Qed.

Lemma array_set_lt {A} (l : list A) (i : Z) a :
  (0 <= i < Z.of_nat (length l))%Z -> array_set l i a = Ret (<[Z.to_nat i := a]> l).
Proof. intros Hi. unfold array_set. by rewrite decide_True. Qed.

(** ** Automation *)

Create HintDb coro discriminated.
#[export] Hint Resolve u64_range u32_range deref_Some array_get_nat lookup_lt_Some list_elem_of_lookup_2 : coro.

(** Run the head of a bind whose outcome is known. *)
Ltac run_bind :=
  repeat first
    [ rewrite bind_ret
    | match goal with
      | H : ?m = Ret _ |- context [mbind _ ?m] => rewrite H
      end ];
  cbn beta.

(** Split [(x ← m; k x) = Ret b] hypotheses into the intermediate results. *)
Ltac inv_bind :=
  repeat match goal with
    | H : mbind _ ?m = Ret _ |- _ =>
        let a := fresh "r" in let E := fresh "E" in
        apply bind_Ret_inv in H as [a [E H]]
    | H : (let '_ := ?p in _) = Ret _ |- _ => destruct p; cbn in H
    | H : Ret _ = Ret _ |- _ => injection H as H; subst
    | H : Fault _ = Ret _ |- _ => discriminate H
    | H : Raise _ = Ret _ |- _ => discriminate H
    | H : Diverged = Ret _ |- _ => discriminate H
    end.

(** Arithmetic on wrapped integers that are in range. *)
Ltac wrap_lia :=
  repeat match goal with
    | |- context [u64 ?z] => rewrite (u64_small z) by lia
    | |- context [u32 ?z] => rewrite (u32_small z) by lia
    end; try lia.

(** A lookup in updates of a map, by cases on the keys. *)
Ltac lookup_cases := repeat (rewrite lookup_delete || rewrite lookup_insert); repeat case_decide; congruence.

(** ** Runs of a step relation *)

(** Steps that keep an invariant and make a measure smaller end. *)
Lemma sn_measure {A} (R : relation A) (I : A -> Prop) (m : A -> nat) :
  (forall x y, I x -> R x y -> I y /\ m y < m x) -> forall x, I x -> sn R x.
Proof.
  intros HR x. remember (m x) as k eqn:Ek. revert x Ek. induction k as [k IH] using lt_wf_ind. intros x -> Hx.
  constructor. intros y Hy. destruct (HR x y Hx Hy) as [Hy' Hlt]. by eapply IH.
Qed.

Lemma rtc_invariant {A} (R : relation A) (I : A -> Prop) :
  (forall x y, I x -> R x y -> I y) -> forall x y, I x -> rtc R x y -> I y.
Proof. intros HR x y Hx Hr. induction Hr; eauto. Qed.

(** The steps of the agents in a given order; one that has no step is passed
    over. *)
Fixpoint exec {A S} (step : A -> S -> option (outcome S)) (l : list A) (s : S) : S :=
  match l with
  | [] => s
  | a :: l => exec step l (match step a s with Some (Ret s') => s' | _ => s end)
  end.

Lemma exec_rtc {A S} (step : A -> S -> option (outcome S)) (R : relation S) l s :
  (forall a s s', step a s = Some (Ret s') -> R s s') -> rtc R s (exec step l s).
Proof.
  intros HR. revert s. induction l as [|a l IH]; intros s; [apply rtc_refl|]. cbn [exec].
  destruct (step a s) as [[s'| | |]|] eqn:E; try apply IH. apply (rtc_l _ _ s'); [by eapply HR|apply IH].
Qed.

(** ** Sums and permutations of lists *)

Lemma sum_list_with_app {A} (f : A -> nat) l k :
  sum_list_with f (l ++ k) = sum_list_with f l + sum_list_with f k.
Proof. induction l; cbn; lia. Qed.

Lemma sum_list_with_perm {A} (f : A -> nat) l k :
  l ≡ₚ k -> sum_list_with f l = sum_list_with f k.
Proof. induction 1; cbn; lia. Qed.

#[export] Instance sum_list_with_Proper {A} (f : A -> nat) :
  Proper ((≡ₚ) ==> (=)) (sum_list_with f).
Proof. intros l k. apply sum_list_with_perm. Qed.

Lemma sum_list_with_insert {A} (f : A -> nat) (l : list A) i x y :
  l !! i = Some x -> sum_list_with f (<[i := y]> l) + f x = sum_list_with f l + f y.
Proof.
  revert i. induction l as [|a l IH]; intros [|i] E; simplify_eq/=; [lia|].
  specialize (IH i E). lia.
Qed.

Lemma sum_list_with_zero {A} (f : A -> nat) (l : list A) :
  sum_list_with f l = 0 <-> forall x, x ∈ l -> f x = 0.
Proof.
  induction l as [|a l IH]; cbn; [split; [intros _ x ?%elem_of_nil; done|done]|].
  setoid_rewrite elem_of_cons. split.
  - intros H x [->|Hx]; [lia|apply IH; [lia|done]].
  - intros H. rewrite (H a) by by left. apply IH. auto.
Qed.

Lemma sum_list_with_delete {A} (f : A -> nat) (l : list A) i x :
  l !! i = Some x -> sum_list_with f (delete i l) + f x = sum_list_with f l.
Proof.
  revert i. induction l as [|a l IH]; intros [|i] E; simplify_eq/=; [lia|].
  specialize (IH i E). lia.
Qed.

Lemma sum_list_with_lookup_le {A} (f : A -> nat) (l : list A) i x :
  l !! i = Some x -> f x <= sum_list_with f l.
Proof.
  revert i. induction l as [|a l IH]; intros [|i] E; cbn in *; simplify_eq; [lia|].
  specialize (IH i E). lia.
Qed.

(** The two halves of a list that a predicate splits. *)
Lemma filter_split_perm {A} (P : A -> Prop) `{!forall x, Decision (P x)} (l : list A) :
  filter P l ++ filter (fun x => ~ P x) l ≡ₚ l.
Proof.
  induction l as [|x l IH]; [done|]. rewrite !filter_cons. destruct (decide (P x)) as [Hx|Hx].
  - rewrite decide_False by tauto. cbn. by rewrite IH.
  - rewrite decide_True by done. by rewrite <- Permutation_middle, IH.
Qed.

(** ** Sorted arrays by index *)

Lemma sorted_lookup_le (l : list Z) i j x y :
  Sorted Z.le l -> i <= j -> l !! i = Some x -> l !! j = Some y -> (x <= y)%Z.
Proof.
  intros S%Sorted_StronglySorted; [|intros ???; lia].
  revert i j. induction S as [|a l S IH Ha]; intros i j Hij Hi Hj; [done|].
  destruct i as [|i], j as [|j]; cbn in *; simplify_eq; [lia| |lia|].
  - rewrite Forall_forall in Ha. apply Ha. by eapply list_elem_of_lookup_2.
  - eapply IH; [|done|done]. lia.
Qed.

(** Number of elements satisfying a boolean predicate. *)
Definition count_if {A} (P : A -> bool) (l : list A) : nat := length (List.filter P l).

Lemma count_if_cons {A} (P : A -> bool) x l :
  count_if P (x :: l) = (if P x then 1 else 0) + count_if P l.
Proof. unfold count_if. cbn. by destruct (P x). Qed.

Lemma count_if_app {A} (P : A -> bool) l k : count_if P (l ++ k) = count_if P l + count_if P k.
Proof. unfold count_if. by rewrite List.filter_app, length_app. Qed.

Lemma count_if_perm {A} (P : A -> bool) l k : l ≡ₚ k -> count_if P l = count_if P k.
Proof.
  induction 1 as [|x l k _ IH|x y l|l1 l2 l3 _ IH1 _ IH2]; rewrite ?count_if_cons.
  - done.
  - by rewrite IH.
  - destruct (P x), (P y); done.
  - by rewrite IH1.
Qed.

Lemma count_if_le {A} (P : A -> bool) l : count_if P l <= length l.
Proof. induction l as [|x l IH]; [done|]. rewrite count_if_cons. cbn [length]. destruct (P x); lia. Qed.
