(* ===== verification/Words.v ===== *)
(** * Words: the integer arithmetic of the hash map

    [next_power_of_2] and the bucket mask of applications/map/map.hpp, and the
    conversion [static_cast<double>] its load factor goes through, with the
    lemmas that relate the bit operations to powers of two and to [mod]. *)

From S2P Require Import Prelude.
Local Open Scope Z_scope.

(** ** Rounding up to a power of two *)

(** [n |= n >> k] on a 64-bit word. *)
Definition or_shift (n k : Z) : Z := Z.lor n (Z.shiftr n k).

(** [static std::size_t next_power_of_2(std::size_t n)] with an 8-byte size_t. *)
Definition next_power_of_2 (n : Z) : Z :=
  let n := u64 (n - 1) in
  let n := or_shift n 1 in
  let n := or_shift n 2 in
  let n := or_shift n 4 in
  let n := or_shift n 8 in
  let n := or_shift n 16 in
  let n := or_shift n 32 in
  u64 (n + 1).

(** [smeared n x k]: bit [i] of [x] is set iff one of the bits [i .. i+k-1] of [n] is. *)
Definition smeared (n x k : Z) : Prop :=
  0 <= x /\
  forall i, 0 <= i -> Z.testbit x i = true <-> exists d, 0 <= d < k /\ Z.testbit n (i + d) = true.

Lemma smeared_self n : 0 <= n -> smeared n n 1.
Proof.
  intros Hn. split; [done|]. intros i Hi. split.
  - intros H. exists 0. split; [lia|]. by rewrite Z.add_0_r.
  - intros (d & Hd & H). assert (d = 0) as -> by lia. by rewrite Z.add_0_r in H.
Qed.

Lemma smeared_or_shift n x k :
  0 < k -> smeared n x k -> smeared n (or_shift x k) (2 * k).
Proof.
  intros Hk [Hx H]. unfold or_shift. split.
  { apply Z.lor_nonneg. split; [done|]. by apply Z.shiftr_nonneg. }
  intros i Hi. rewrite Z.lor_spec, Z.shiftr_spec, orb_true_iff by done.
  rewrite (H i), (H (i + k)) by lia. split.
  - intros [(d & Hd & E) | (d & Hd & E)].
    + exists d. split; [lia|done].
    + exists (k + d). split; [lia|]. by rewrite Z.add_assoc.
  - intros (d & Hd & E). destruct (Z.lt_ge_cases d k) as [Hlt|Hge].
    + left. exists d. split; [lia|done].
    + right. exists (d - k). split; [lia|]. by replace (i + k + (d - k)) with (i + d) by lia.
Qed.

(** Smearing over the full word gives the all-ones word of the same length. *)
Lemma smeared_ones n x :
  0 < n < 2 ^ 64 -> smeared n x 64 -> x = Z.ones (Z.log2 n + 1).
Proof.
  intros Hn [Hx H]. apply Z.bits_inj'. intros i Hi.
  pose proof (Z.log2_nonneg n) as Hl.
  assert (Z.log2 n < 64) as Hl' by (apply Z.log2_lt_pow2; lia).
  destruct (Z.le_gt_cases i (Z.log2 n)) as [Hle|Hgt].
  - rewrite Z.ones_spec_low by lia. apply H; [done|].
    exists (Z.log2 n - i). split; [lia|].
    replace (i + (Z.log2 n - i)) with (Z.log2 n) by lia.
    apply Z.bit_log2. lia.
  - rewrite Z.ones_spec_high by lia.
    destruct (Z.testbit x i) eqn:E; [|done].
    apply H in E as (d & Hd & E); [|done].
    rewrite Z.bits_above_log2 in E; lia || done.
Qed.

Lemma u64_pred_size n : 1 <= n <= 2 ^ 64 -> u64 (n - 1) = n - 1.
Proof. intros. apply u64_small. lia. Qed.

(** The six shifts of the source smear a non-zero word over its 64 bits. *)
Lemma or_shifts_ones n :
  0 < n < 2 ^ 64 ->
  or_shift (or_shift (or_shift (or_shift (or_shift (or_shift n 1) 2) 4) 8) 16) 32
  = Z.ones (Z.log2 n + 1).
Proof.
  intros Hn. apply smeared_ones; [done|].
  do 6 (match goal with |- smeared _ (or_shift _ ?k) _ =>
          apply (smeared_or_shift _ _ k); [lia|] end).
  apply smeared_self. lia.
Qed.

Lemma next_power_of_2_log2_up n :
  1 <= n <= 2 ^ 63 -> next_power_of_2 n = 2 ^ Z.log2_up n.
Proof.
  intros Hn. unfold next_power_of_2. rewrite u64_pred_size by lia.
  destruct (decide (n = 1)) as [->|Hne]; [reflexivity|].
  rewrite or_shifts_ones by lia.
  rewrite Z.log2_up_eqn, Z.ones_equiv by lia.
  replace (Z.pred (2 ^ (Z.log2 (n - 1) + 1)) + 1) with (2 ^ Z.succ (Z.log2 (Z.pred n))) by
    (replace (Z.succ (Z.log2 (Z.pred n))) with (Z.log2 (n - 1) + 1) by
       (unfold Z.succ, Z.pred; f_equal; f_equal; lia); lia).
  assert (Z.log2 (Z.pred n) < 63) by (apply Z.log2_lt_pow2; lia).
  pose proof (Z.log2_nonneg (Z.pred n)).
  apply u64_small. split; [lia|]. apply Z.pow_lt_mono_r; lia.
Qed.

(** Above 2^63, and at 0, the result wraps around to 0. *)
Lemma next_power_of_2_wraps n :
  n = 0 \/ 2 ^ 63 < n < 2 ^ 64 -> next_power_of_2 n = 0.
Proof.
  intros [->|Hn]; [reflexivity|].
  unfold next_power_of_2. rewrite u64_pred_size by lia.
  rewrite or_shifts_ones by lia.
  assert (Z.log2 (n - 1) = 63) as ->; [|reflexivity].
  apply Z.log2_unique; lia.
Qed.

(** ** The bucket mask *)

(** [hash & (capacity - 1)] on 64-bit words. *)
Definition mask_index (hash capacity : Z) : Z := Z.land hash (u64 (capacity - 1)).

Lemma mask_index_pow2 hash k :
  0 <= k < 64 -> mask_index hash (2 ^ k) = hash mod 2 ^ k.
Proof.
  intros Hk. unfold mask_index.
  assert (0 < 2 ^ k < 2 ^ 64) by (split; [lia|apply Z.pow_lt_mono_r; lia]).
  rewrite u64_pred_size by lia.
  rewrite <- Z.land_ones, Z.ones_equiv, Z.sub_1_r by lia. done.
Qed.

Lemma mask_index_range hash k :
  0 <= k < 64 -> 0 <= mask_index hash (2 ^ k) < 2 ^ k.
Proof. intros Hk. rewrite mask_index_pow2 by done. apply Z.mod_pos_bound. lia. Qed.

(** With capacity 0 the mask is all ones and the index is the hash itself. *)
Lemma mask_index_0 hash : 0 <= hash < 2 ^ 64 -> mask_index hash 0 = hash.
Proof.
  intros Hh. unfold mask_index. replace (u64 (0 - 1)) with (Z.ones 64) by reflexivity.
  rewrite Z.land_ones by lia. by apply Z.mod_small.
Qed.

(** ** size_t to double

    [static_cast<double>] of a 64-bit integer: exact up to 53 significant bits,
    otherwise rounded to the nearest multiple of the unit in the last place,
    ties to even. The results are integers, so the model stays in [Z]. *)
Definition to_double (z : Z) : Z :=
  let e := Z.log2 z - 52 in
  if e <=? 0 then z
  else
    let ulp := 2 ^ e in
    let q := z / ulp in
    let r := z mod ulp in
    let up := if 2 * r <? ulp then 0
              else if ulp <? 2 * r then 1
              else if Z.even q then 0 else 1 in
    (q + up) * ulp.

Lemma to_double_exact z : 0 <= z < 2 ^ 53 -> to_double z = z.
Proof.
  intros Hz. unfold to_double.
  assert ((Z.log2 z - 52 <=? 0) = true) as ->; [|done].
  apply Z.leb_le. destruct (decide (z = 0)) as [->|]; [cbn; lia|].
  assert (Z.log2 z < 53) by (apply Z.log2_lt_pow2; lia). lia.
Qed.

Lemma to_double_pow2 k : 0 <= k -> to_double (2 ^ k) = 2 ^ k.
Proof.
  intros Hk. unfold to_double. rewrite Z.log2_pow2 by done.
  destruct (Z.leb_spec (k - 52) 0); [done|].
  replace (2 ^ k) with (2 ^ 52 * 2 ^ (k - 52)) by (rewrite <- Z.pow_add_r; [f_equal; lia|lia|lia]).
  assert (0 < 2 ^ (k - 52)) by (apply Z.pow_pos_nonneg; lia).
  rewrite Z.div_mul, Z.mod_mul by lia.
  destruct (Z.ltb_spec (2 * 0) (2 ^ (k - 52))); lia.
Qed.

(** [static_cast<double>(n) / static_cast<double>(c) > 0.5]. The quotient of
    two doubles rounds to a value above 0.5 exactly when the first is more than
    half of the second; for [c = 0] the quotient is infinite, or NaN when [n = 0]. *)
Definition load_factor_exceeds_half (n c : Z) : bool :=
  to_double c <? 2 * to_double n.

Lemma load_factor_exceeds_half_exact n c :
  0 <= n < 2 ^ 53 -> 0 <= c < 2 ^ 53 ->
  load_factor_exceeds_half n c = (c <? 2 * n).
Proof. intros. unfold load_factor_exceeds_half. by rewrite !to_double_exact. Qed.

(** Rounding does not cross a power of two. *)
Lemma to_double_le_pow2 n k : 0 <= k -> 0 <= n <= 2 ^ k -> to_double n <= 2 ^ k.
Proof.
  intros Hk Hn. destruct (decide (n = 2 ^ k)) as [->|Hne]; [by rewrite to_double_pow2|].
  unfold to_double. destruct (Z.leb_spec (Z.log2 n - 52) 0); [lia|].
  set (e := Z.log2 n - 52) in *.
  assert (Z.log2 n < k) by (apply Z.log2_lt_pow2; [|lia]; destruct (decide (n = 0)) as [->|]; cbn in *; lia).
  assert (0 < n) by (destruct (decide (n = 0)) as [->|]; cbn in *; lia).
  destruct (Z.log2_spec n) as [_ Hlog]; [done|].
  assert (0 < 2 ^ e) by lia.
  assert (2 ^ Z.succ (Z.log2 n) = 2 ^ 53 * 2 ^ e) as Epow
    by (rewrite <- Z.pow_add_r by lia; f_equal; lia).
  assert (n / 2 ^ e < 2 ^ 53) by (apply Z.div_lt_upper_bound; lia).
  assert (2 ^ Z.succ (Z.log2 n) <= 2 ^ k) by (apply Z.pow_le_mono_r; lia).
  assert (forall up, up <= 1 -> (n / 2 ^ e + up) * 2 ^ e <= 2 ^ 53 * 2 ^ e) as Hup.
  { intros up Hup. apply Z.mul_le_mono_nonneg_r; lia. }
  specialize (Hup (if 2 * (n mod 2 ^ e) <? 2 ^ e then 0
                   else if 2 ^ e <? 2 * (n mod 2 ^ e) then 1
                   else if Z.even (n / 2 ^ e) then 0 else 1)).
  assert (forall b1 b2 b3 : bool, (if b1 then 0 else if b2 then 1 else if b3 then 0 else 1) <= 1)
    as Hbit by (intros [] [] []; lia).
  specialize (Hup (Hbit _ _ _)). lia.
Qed.

(** The load factor of a table of 2^k buckets with at most 2^(k-1) items. *)
Lemma load_factor_half n k :
  1 <= k -> 0 <= n <= 2 ^ (k - 1) -> load_factor_exceeds_half n (2 ^ k) = false.
Proof.
  intros Hk Hn. unfold load_factor_exceeds_half. rewrite to_double_pow2 by lia.
  apply Z.ltb_ge. pose proof (to_double_le_pow2 n (k - 1)).
  assert (2 ^ k = 2 * 2 ^ (k - 1)) by (rewrite <- Z.pow_succ_r by lia; f_equal; lia). lia.
Qed.

(** ** A flag in the lowest bit of a counter word *)

Lemma land_1_odd z : negb (bool_decide (Z.land z 1 = 0)) = Z.odd z.
Proof.
  assert (Z.land z 1 = z mod 2) as -> by exact (Z.land_ones z 1 ltac:(lia)).
  rewrite Zmod_odd. by destruct (Z.odd z).
Qed.

Lemma u32_odd z : Z.odd (u32 z) = Z.odd z.
Proof. unfold u32. rewrite <- !Z.bit0_odd. by rewrite Z.mod_pow2_bits_low by lia. Qed.

Lemma u32_add_2_odd z : Z.odd (u32 (z + 2)) = Z.odd z.
Proof. rewrite u32_odd, Z.odd_add. by destruct (Z.odd z). Qed.

Lemma u32_sub_2_odd z : Z.odd (u32 (z - 2)) = Z.odd z.
Proof. rewrite u32_odd, Z.odd_sub. by destruct (Z.odd z). Qed.

Lemma lor_1_odd z : Z.odd (Z.lor z 1) = true.
Proof. rewrite <- Z.bit0_odd, Z.lor_spec. by rewrite orb_true_r. Qed.
