(* ===== verification/LinkedList.v ===== *)
(** * Linked lists in a heap

    Every intrusive list of the program (bucket chains, free lists, stacks of
    awaiters) is a heap of nodes with a [next] pointer. [lseg h p l q] says that
    following [next] from [p] visits the addresses [l] and arrives at [q];
    [chain] is the null-terminated case. *)

From S2P Require Import Prelude.

Section LinkedList.
Context {V : Type} (next : V -> ptr).

Fixpoint lseg (h : gmap addr V) (p : ptr) (l : list addr) (q : ptr) : Prop :=
  match l with
  | [] => p = q
  | a :: l' => p = Some a /\ exists v, h !! a = Some v /\ lseg h (next v) l' q
  end.

Definition chain (h : gmap addr V) (p : ptr) (l : list addr) : Prop := lseg h p l null.

Lemma lseg_app h p l1 l2 q :
  lseg h p (l1 ++ l2) q <-> exists m, lseg h p l1 m /\ lseg h m l2 q.
Proof.
  revert p. induction l1 as [|a l1 IH]; intros p; cbn.
  - split; [eauto|]. by intros (m & -> & H).
  - split.
    + intros (-> & v & Hv & H). apply IH in H as (m & H1 & H2). eauto 6.
    + intros (m & (-> & v & Hv & H1) & H2). split; [done|].
      exists v. split; [done|]. apply IH. eauto.
Qed.

Lemma lseg_frame h h' p l q :
  (forall a, a ∈ l -> h !! a = h' !! a) -> lseg h p l q -> lseg h' p l q.
Proof.
  revert p. induction l as [|a l IH]; intros p Hf; cbn; [done|].
  intros (-> & v & Hv & H). split; [done|]. exists v. split.
  - rewrite <- Hf; [done|]. by left.
  - apply IH; [|done]. intros b Hb. apply Hf. by right.
Qed.

Lemma lseg_insert_notin h a v p l q :
  a ∉ l -> lseg h p l q -> lseg (<[a := v]> h) p l q.
Proof.
  intros Ha. apply lseg_frame. intros b Hb.
  rewrite lookup_insert_ne; [done|]. by intros ->.
Qed.

Lemma lseg_delete_notin h a p l q :
  a ∉ l -> lseg h p l q -> lseg (delete a h) p l q.
Proof.
  intros Ha. apply lseg_frame. intros b Hb.
  rewrite lookup_delete_ne; [done|]. by intros ->.
Qed.

Lemma lseg_dom h p l q a : lseg h p l q -> a ∈ l -> is_Some (h !! a).
Proof.
  revert p. induction l as [|b l IH]; intros p; [by rewrite elem_of_nil|].
  intros (-> & v & Hv & H) [->|Hin]%elem_of_cons; eauto.
Qed.

Lemma chain_func h p l1 l2 : chain h p l1 -> chain h p l2 -> l1 = l2.
Proof.
  unfold chain. revert p l2. induction l1 as [|a l1 IH]; intros p [|b l2]; cbn.
  - done.
  - intros -> [? _]. done.
  - intros [-> _] ?. done.
  - intros (-> & v & Hv & H1) (E & w & Hw & H2). simplify_eq. f_equal. eauto.
Qed.

(** A null-terminated list cannot visit an address twice. *)
Lemma chain_NoDup h p l : chain h p l -> NoDup l.
Proof.
  unfold chain. revert p. induction l as [|a l IH]; intros p; [by constructor|].
  intros (-> & v & Hv & H). constructor; [|by eapply IH].
  intros (l1 & l2 & ->)%list_elem_of_split.
  apply lseg_app in H as (m & H1 & H2). cbn in H2. destruct H2 as (-> & w & Hw & H2).
  simplify_eq.
  assert (chain h (next v) (l1 ++ a :: l2)) as C1.
  { unfold chain. apply lseg_app. exists (Some a). split; [done|]. cbn. eauto. }
  pose proof (chain_func _ _ _ _ C1 H2) as E%(f_equal length).
  rewrite length_app in E. cbn in E. lia.
Qed.

Lemma chain_length_size h p l : chain h p l -> (length l <= size h)%nat.
Proof.
  intros C. pose proof (chain_NoDup _ _ _ C) as ND.
  rewrite <- (size_dom h), <- (size_list_to_set (C := gset addr) l) by done.
  apply subseteq_size. intros a Ha. apply elem_of_list_to_set in Ha.
  apply elem_of_dom. by eapply lseg_dom.
Qed.

Lemma chain_cons_inv h a l p :
  chain h p (a :: l) -> p = Some a /\ exists v, h !! a = Some v /\ chain h (next v) l.
Proof. done. Qed.

Lemma chain_null h l : chain h null l -> l = [].
Proof. destruct l; [done|]. intros [? _]. done. Qed.

Lemma chain_Some_inv h a l :
  chain h (Some a) l ->
  exists l' v, l = a :: l' /\ h !! a = Some v /\ chain h (next v) l'.
Proof.
  destruct l as [|b l]; [done|]. intros (E & v & Hv & H). simplify_eq. eauto 6.
Qed.

(** Appending a node by writing the last node's [next] field. *)
Lemma chain_snoc h p l a b v w :
  lseg h p l (Some a) -> h !! a = Some v -> next w = Some b ->
  forall x, next x = null -> a ∉ l -> b ∉ l -> a <> b ->
  chain (<[b := x]> (<[a := w]> h)) p (l ++ [a; b]).
Proof.
  intros H Hv Hw x Hx Ha Hb Hab. unfold chain. apply lseg_app. exists (Some a). split.
  - by do 2 (apply lseg_insert_notin; [done|]).
  - cbn. split; [done|]. exists w. rewrite lookup_insert_ne, lookup_insert_eq by done.
    repeat (split; [done|]). exists x. by rewrite lookup_insert_eq.
Qed.
End LinkedList.

#[export] Hint Resolve lseg_insert_notin lseg_delete_notin chain_NoDup : coro.
