(* ===== verification/Schedulers.v ===== *)
(** * Schedulers: the two ring-buffer queues of coroutine handles

    [StaticQueueScheduler] (applications/map/scheduler.hpp) and
    [scheduler_queue] (applications/binary-search/coro_infra.hpp), and the
    interface [Scheduler] both implement for the interleaved runtime: a FIFO of
    live handles with a bounded capacity. Neither source checks for overflow;
    the interface promises nothing beyond [sq_capacity] handles. *)

From S2P Require Import Prelude.
Local Open Scope Z_scope.

(** A [coroutine_handle<>]: the address of a frame, or null. *)
Abbreviation handle := ptr.

(** ** The interface *)

Class SchedulerOps (Q : Type) := {
  sq_schedule : handle -> Q -> outcome Q;
  sq_remove_next : Q -> outcome (handle * Q);
  sq_try_remove_next : Q -> outcome (handle * Q);
}.

Class Scheduler (Q : Type) `{SchedulerOps Q} := {
  sq_capacity : nat;
  sq_repr : Q -> list addr -> Prop;
  sq_schedule_spec q l p :
    sq_repr q l -> (length l < sq_capacity)%nat ->
    exists q', sq_schedule (Some p) q = Ret q' /\ sq_repr q' (l ++ [p]);
  sq_remove_next_spec q p l :
    sq_repr q (p :: l) ->
    exists q', sq_remove_next q = Ret (Some p, q') /\ sq_repr q' l;
  sq_try_remove_next_cons q p l :
    sq_repr q (p :: l) ->
    exists q', sq_try_remove_next q = Ret (Some p, q') /\ sq_repr q' l;
  sq_try_remove_next_nil q :
    sq_repr q [] -> sq_try_remove_next q = Ret (null, q);
}.

(** ** Ring buffers *)

(** [ring_repr depth head tail buf l]: reading [buf] from [tail] on, with
    indices modulo [depth], yields the handles [l] up to [head]. *)
Definition ring_repr (depth head tail : Z) (buf : list handle) (l : list addr) : Prop :=
  0 < depth < 2 ^ 64 /\
  Z.of_nat (length buf) = depth /\
  Z.of_nat (length l) < depth /\
  0 <= tail < depth /\
  head = (tail + Z.of_nat (length l)) mod depth /\
  forall i p, l !! i = Some p ->
    buf !! Z.to_nat ((tail + Z.of_nat i) mod depth) = Some (Some p).

Definition ring_next (depth i : Z) : Z := u64 (i + 1) mod depth.

Lemma ring_next_mod depth i :
  0 < depth < 2 ^ 64 -> 0 <= i < depth -> ring_next depth i = (i + 1) mod depth.
Proof. intros. unfold ring_next. by rewrite u64_small by lia. Qed.

Lemma ring_next_range depth i : 0 < depth -> 0 <= ring_next depth i < depth.
Proof. intros. apply Z.mod_pos_bound. lia. Qed.

Lemma ring_empty depth i buf :
  0 < depth < 2 ^ 64 -> Z.of_nat (length buf) = depth -> 0 <= i < depth ->
  ring_repr depth i i buf [].
Proof.
  intros Hd Hb Hi. unfold ring_repr. cbn [length]. repeat split; try lia.
  - rewrite Z.add_0_r, Z.mod_small; lia.
  - intros j p Hj. by rewrite lookup_nil in Hj.
Qed.

Lemma ring_head_range depth head tail buf l :
  ring_repr depth head tail buf l -> 0 <= head < depth.
Proof. intros (Hd & _ & _ & _ & -> & _). apply Z.mod_pos_bound. lia. Qed.

(** Two offsets below [depth] that meet modulo [depth] are equal. *)
Lemma mod_offset_inj depth t a b :
  0 <= a < depth -> 0 <= b < depth ->
  (t + a) mod depth = (t + b) mod depth -> a = b.
Proof.
  intros Ha Hb E.
  assert ((t + a - (t + b)) mod depth = 0) as E'.
  { rewrite Zminus_mod, E, Z.sub_diag. by apply Z.mod_0_l; lia. }
  apply Z.mod_divide in E' as [q Hq]; [|lia].
  assert (q = 0) by nia. lia.
Qed.

Lemma ring_push depth head tail buf l p :
  ring_repr depth head tail buf l ->
  Z.of_nat (length l) + 1 < depth ->
  ring_repr depth (ring_next depth head) tail (<[Z.to_nat head := Some p]> buf) (l ++ [p]).
Proof.
  intros R Hroom. pose proof (ring_head_range _ _ _ _ _ R) as Hh.
  destruct R as (Hd & Hb & Hl & Ht & Hhead & Hbuf).
  unfold ring_repr. rewrite length_app, length_insert. cbn [length].
  repeat split; try lia.
  - rewrite ring_next_mod, Hhead, Zplus_mod_idemp_l by lia. f_equal. lia.
  - intros i x Hi. apply lookup_app_Some in Hi as [Hi | [Hge Hi]].
    + pose proof (lookup_lt_Some _ _ _ Hi) as Hlt.
      rewrite list_lookup_insert_ne; [by apply Hbuf|].
      intros E. apply Z2Nat.inj in E; [|lia|apply Z.mod_pos_bound; lia].
      rewrite Hhead in E. apply mod_offset_inj in E; lia.
    + apply list_lookup_singleton_Some in Hi as [Hi <-].
      assert (i = length l) as -> by lia. rewrite <- Hhead.
      apply list_lookup_insert_eq. lia.
Qed.

Lemma ring_pop depth head tail buf p l :
  ring_repr depth head tail buf (p :: l) ->
  array_get buf tail = Ret (Some p) /\
  head <> tail /\
  ring_repr depth head (ring_next depth tail) buf l.
Proof.
  intros (Hd & Hb & Hl & Ht & Hhead & Hbuf). cbn [length] in *.
  split; [|split].
  - apply array_get_Some; [lia|]. specialize (Hbuf 0%nat p eq_refl).
    by rewrite Z.add_0_r, Z.mod_small in Hbuf by lia.
  - intros E. assert (Z.of_nat (S (length l)) = 0); [|lia].
    apply (mod_offset_inj depth tail); [lia|lia|].
    rewrite Z.add_0_r, <- Hhead, E. by rewrite Z.mod_small by lia.
  - unfold ring_repr. repeat split; try lia.
    + apply ring_next_range. lia.
    + apply ring_next_range. lia.
    + rewrite ring_next_mod, Zplus_mod_idemp_l, Hhead by lia. f_equal. lia.
    + intros i x Hi. rewrite ring_next_mod, Zplus_mod_idemp_l by lia.
      specialize (Hbuf (S i) x Hi).
      by replace (tail + 1 + Z.of_nat i) with (tail + Z.of_nat (S i)) by lia.
Qed.

(** A ring holding [depth] handles is indistinguishable from an empty one. *)
Lemma ring_full_head depth tail n :
  0 < depth -> 0 <= tail < depth -> n = depth -> (tail + n) mod depth = tail.
Proof. intros Hd Ht ->. rewrite <- (Z.mul_1_l depth) at 1. by rewrite Z.mod_add, Z.mod_small by lia. Qed.

(** Pushing onto a ring that already holds [depth - 1] handles closes it. *)
Lemma ring_push_full depth head tail buf l :
  ring_repr depth head tail buf l -> Z.of_nat (length l) + 1 = depth -> ring_next depth head = tail.
Proof.
  intros R Hl. pose proof (ring_head_range _ _ _ _ _ R) as Hh.
  destruct R as (Hd & _ & _ & Ht & Hhead & _).
  rewrite ring_next_mod, Hhead, Zplus_mod_idemp_l, <- Z.add_assoc by done.
  apply ring_full_head; lia.
Qed.

(** ** applications/map/scheduler.hpp *)

Module StaticQueueScheduler.
Section Depth.
Context (QueueDepth : Z).

Record StaticQueueScheduler := Make { head : Z; tail : Z; buffer : list handle }.

(** The constructor; the handles of the buffer are null. *)
Definition init : StaticQueueScheduler :=
  Make 0 0 (replicate (Z.to_nat QueueDepth) null).

(** schedule a coroutine for later resumption *)
Definition schedule (h : handle) (s : StaticQueueScheduler) : outcome StaticQueueScheduler :=
  buf ← array_set s.(buffer) s.(head) h;
  Ret (Make (u64 (s.(head) + 1) mod QueueDepth) s.(tail) buf).

Definition get_next_task (s : StaticQueueScheduler) : outcome handle :=
  array_get s.(buffer) s.(tail).

Definition remove_next_task (s : StaticQueueScheduler) : outcome (handle * StaticQueueScheduler) :=
  result ← array_get s.(buffer) s.(tail);
  Ret (result, Make s.(head) (u64 (s.(tail) + 1) mod QueueDepth) s.(buffer)).

Definition try_remove_next_task (s : StaticQueueScheduler) : outcome (handle * StaticQueueScheduler) :=
  if decide (s.(head) = s.(tail)) then Ret (null, s) else remove_next_task s.

#[global] Instance ops : SchedulerOps StaticQueueScheduler := {
  sq_schedule := schedule;
  sq_remove_next := remove_next_task;
  sq_try_remove_next := try_remove_next_task;
}.

Definition repr (s : StaticQueueScheduler) (l : list addr) : Prop :=
  ring_repr QueueDepth s.(head) s.(tail) s.(buffer) l.

Lemma static_init_repr : 0 < QueueDepth < 2 ^ 64 -> repr init [].
Proof.
  intros. unfold repr, init. cbn [head tail buffer].
  apply ring_empty; [done| |lia]. rewrite length_replicate. lia.
Qed.

Lemma schedule_repr s l p :
  repr s l -> Z.of_nat (length l) + 1 < QueueDepth ->
  exists s', schedule (Some p) s = Ret s' /\ repr s' (l ++ [p]).
Proof.
  intros R Hroom. pose proof (ring_head_range _ _ _ _ _ R) as Hh.
  pose proof (proj1 (proj2 R)) as Hlen.
  unfold schedule. rewrite array_set_lt by (rewrite Hlen; exact Hh). run_bind.
  eexists. split; [done|]. by apply ring_push.
Qed.

Lemma remove_next_repr s p l :
  repr s (p :: l) -> exists s', remove_next_task s = Ret (Some p, s') /\ repr s' l.
Proof.
  intros R. apply ring_pop in R as (E & _ & R).
  unfold remove_next_task. run_bind. eexists. split; [done|]. exact R.
Qed.

Lemma try_remove_next_cons s p l :
  repr s (p :: l) -> exists s', try_remove_next_task s = Ret (Some p, s') /\ repr s' l.
Proof.
  intros R. unfold try_remove_next_task.
  pose proof (ring_pop _ _ _ _ _ _ R) as (_ & Hne & _).
  rewrite decide_False by done. by apply remove_next_repr.
Qed.

Lemma try_remove_next_nil s : repr s [] -> try_remove_next_task s = Ret (null, s).
Proof.
  intros (Hd & _ & _ & Ht & Hh & _). unfold try_remove_next_task.
  rewrite decide_True; [done|]. cbn [length] in Hh.
  by rewrite Z.add_0_r, Z.mod_small in Hh.
Qed.

#[global] Program Instance laws : Scheduler StaticQueueScheduler := {
  sq_capacity := Z.to_nat (QueueDepth - 1);
  sq_repr := repr;
}.
Next Obligation. intros. apply schedule_repr; [done|lia]. Qed.
Next Obligation. apply remove_next_repr. Qed.
Next Obligation. apply try_remove_next_cons. Qed.
Next Obligation. apply try_remove_next_nil. Qed.
End Depth.
End StaticQueueScheduler.

(** ** applications/binary-search/coro_infra.hpp *)

Module SchedulerQueue.

(** [constexpr static int const N = 256] *)
Definition N : Z := 256.

Record scheduler_queue := Make { head : Z; tail : Z; arr : list handle }.

Definition init : scheduler_queue := Make 0 0 (replicate (Z.to_nat N) null).

Definition push_back (h : handle) (s : scheduler_queue) : outcome scheduler_queue :=
  a ← array_set s.(arr) s.(head) h;
  Ret (Make (u64 (s.(head) + 1) mod N) s.(tail) a).

Definition pop_front (s : scheduler_queue) : outcome (handle * scheduler_queue) :=
  result ← array_get s.(arr) s.(tail);
  Ret (result, Make s.(head) (u64 (s.(tail) + 1) mod N) s.(arr)).

Definition try_pop_front (s : scheduler_queue) : outcome (handle * scheduler_queue) :=
  if decide (s.(head) = s.(tail)) then Ret (null, s) else pop_front s.

#[global] Instance ops : SchedulerOps scheduler_queue := {
  sq_schedule := push_back;
  sq_remove_next := pop_front;
  sq_try_remove_next := try_pop_front;
}.

Definition repr (s : scheduler_queue) (l : list addr) : Prop :=
  ring_repr N s.(head) s.(tail) s.(arr) l.

Lemma queue_init_repr : repr init [].
Proof. by apply ring_empty. Qed.

Lemma push_back_repr s l p :
  repr s l -> Z.of_nat (length l) + 1 < N ->
  exists s', push_back (Some p) s = Ret s' /\ repr s' (l ++ [p]).
Proof.
  intros R Hroom. pose proof (ring_head_range _ _ _ _ _ R) as Hh.
  pose proof (proj1 (proj2 R)) as Hlen.
  unfold push_back. rewrite array_set_lt by (rewrite Hlen; exact Hh). run_bind.
  eexists. split; [done|]. by apply ring_push.
Qed.

Lemma pop_front_repr s p l :
  repr s (p :: l) -> exists s', pop_front s = Ret (Some p, s') /\ repr s' l.
Proof.
  intros R. apply ring_pop in R as (E & _ & R).
  unfold pop_front. run_bind. eexists. split; [done|]. exact R.
Qed.

Lemma try_pop_front_cons s p l :
  repr s (p :: l) -> exists s', try_pop_front s = Ret (Some p, s') /\ repr s' l.
Proof.
  intros R. unfold try_pop_front.
  pose proof (ring_pop _ _ _ _ _ _ R) as (_ & Hne & _).
  rewrite decide_False by done. by apply pop_front_repr.
Qed.

Lemma try_pop_front_nil s : repr s [] -> try_pop_front s = Ret (null, s).
Proof.
  intros (Hd & _ & _ & Ht & Hh & _). unfold try_pop_front.
  rewrite decide_True; [done|]. cbn [length] in Hh.
  by rewrite Z.add_0_r, Z.mod_small in Hh.
Qed.

#[global] Program Instance laws : Scheduler scheduler_queue := {
  sq_capacity := Z.to_nat (N - 1);
  sq_repr := repr;
}.
Next Obligation. intros. apply push_back_repr; [done|lia]. Qed.
Next Obligation. apply pop_front_repr. Qed.
Next Obligation. apply try_pop_front_cons. Qed.
Next Obligation. apply try_pop_front_nil. Qed.

End SchedulerQueue.
