(* ===== verification/Allocators.v ===== *)
(** * Allocators: the recycling allocators of coroutine frames

    [RecyclingAllocator] (applications/map/recycling_allocator.hpp) and
    [tcalloc] (applications/binary-search/coro_infra.hpp) keep freed blocks on
    an intrusive free list. The interface [FrameAlloc] states what the
    interleaved runtime needs of an allocator of frames of one size: a fresh
    address for each live frame. Both allocators meet it for frames of a single
    size; across sizes they hand out blocks that are too small. *)

From S2P Require Import Prelude LinkedList.
Local Open Scope Z_scope.

(** ** malloc

    [::malloc] and [::free] of the C library on a map from live blocks to their
    sizes: a successful call returns a block that is not live. *)

Abbreviation blocks := (gmap addr Z).

Class Malloc := {
  malloc : blocks -> Z -> ptr;
  malloc_fresh b n p : malloc b n = Some p -> b !! p = None;
}.

(** Memory is not exhausted. *)
Class MallocTotal `{Malloc} := malloc_total b n : malloc b n <> null.

(** A malloc that always succeeds. *)
#[local] Program Instance bump_malloc : Malloc := {
  malloc b _ := Some (fresh (dom b));
}.
Next Obligation.
  intros b n p E. injection E as <-. apply not_elem_of_dom, is_fresh.
Qed.

Lemma bump_malloc_total : MallocTotal.
Proof. intros b n. discriminate. Qed.

(** ** The interface *)

Class FrameAllocOps (A : Type) := {
  fa_alloc : Z -> A -> outcome (addr * A);
  fa_free : addr -> Z -> A -> outcome A;
}.

(** [fa_inv a live]: the frames at [live] are allocated, and nothing else is. *)
Class FrameAlloc (A : Type) `{FrameAllocOps A} (n : Z) := {
  fa_inv : A -> gset addr -> Prop;
  fa_alloc_spec a live :
    fa_inv a live ->
    exists p a', fa_alloc n a = Ret (p, a') /\ p ∉ live /\ fa_inv a' ({[p]} ∪ live);
  fa_free_spec a live p :
    fa_inv a live -> p ∈ live ->
    exists a', fa_free p n a = Ret a' /\ fa_inv a' (live ∖ {[p]});
}.

(** ** Free lists *)

Record header := Header { h_next : ptr; h_size : Z }.

(** [sizeof(Header)]: a pointer and a size_t *)
Definition sizeof_header : Z := 16.

(** [free_list n root headers blocks live]: the blocks all have [n] bytes and are
    either live or on the list from [root], whose headers record that size. *)
Definition free_list (n : Z) (root : ptr) (headers : gmap addr header) (b : blocks)
    (live : gset addr) : Prop :=
  sizeof_header <= n /\
  (forall p m, b !! p = Some m -> m = n) /\
  exists fl,
    chain h_next headers root fl /\
    (forall p hd, headers !! p = Some hd -> h_size hd = n) /\
    dom b = list_to_set fl ∪ live /\
    (list_to_set fl : gset addr) ## live.

Lemma free_list_pop n r hs b live :
  free_list n (Some r) hs b live ->
  exists hd, hs !! r = Some hd /\ h_size hd = n /\ r ∉ live /\
    free_list n (h_next hd) (delete r hs) b ({[r]} ∪ live).
Proof.
  intros (Hn & Hb & fl & C & Hsz & Hdom & Hdisj).
  apply chain_Some_inv in C as (fl' & hd & -> & Hhd & C). cbn in Hdom, Hdisj.
  pose proof (chain_NoDup _ _ _ _ C) as ND.
  assert (r ∉ fl') as Hr.
  { intros Hin. assert (chain h_next hs (Some r) (r :: fl')) as C' by (split; eauto).
    apply chain_NoDup in C'. by apply NoDup_cons in C' as [? _]. }
  exists hd. repeat split; [done|eauto|set_solver|done|done|].
  exists fl'. repeat split.
  - by apply lseg_delete_notin.
  - intros p h' H. apply lookup_delete_Some in H as [_ H]. eauto.
  - set_solver.
  - set_solver.
Qed.

Lemma free_list_push n root hs b live p :
  free_list n root hs b live -> p ∈ live ->
  free_list n (Some p) (<[p := Header root n]> hs) b (live ∖ {[p]}).
Proof.
  intros (Hn & Hb & fl & C & Hsz & Hdom & Hdisj) Hp.
  assert (p ∉ fl) by (intros Hin; set_solver).
  repeat split; [done|done|]. exists (p :: fl). repeat split.
  - exists (Header root n). rewrite lookup_insert_eq. split; [done|].
    by apply lseg_insert_notin.
  - intros q h' H'. apply lookup_insert_Some in H' as [[_ <-]|[_ H']]; eauto.
  - cbn. rewrite Hdom. apply set_eq. intros x.
    destruct (decide (x = p)); set_solver.
  - cbn. set_solver.
Qed.

Lemma free_list_malloc n root hs b live p :
  free_list n root hs b live -> b !! p = None ->
  p ∉ live /\ free_list n root hs (<[p := n]> b) ({[p]} ∪ live).
Proof.
  intros (Hn & Hb & fl & C & Hsz & Hdom & Hdisj) Hp.
  apply not_elem_of_dom in Hp. rewrite Hdom in Hp.
  split; [set_solver|]. repeat split; [done| |].
  - intros q m Hq. apply lookup_insert_Some in Hq as [[_ <-]|[_ Hq]]; eauto.
  - exists fl. repeat split; [done|done| |set_solver].
    rewrite dom_insert_L, Hdom. set_solver.
Qed.

Lemma free_list_live_size n root hs b live p :
  free_list n root hs b live -> p ∈ live -> b !! p = Some n.
Proof.
  intros (Hn & Hb & fl & C & Hsz & Hdom & Hdisj) Hp.
  assert (p ∈ dom b) as [m Hm]%elem_of_dom by (rewrite Hdom; set_solver).
  by rewrite Hm, (Hb _ _ Hm).
Qed.

Lemma free_list_empty n : sizeof_header <= n -> free_list n null ∅ ∅ ∅.
Proof.
  intros Hn. split; [done|]. split.
  - intros p m Hp. by rewrite lookup_empty in Hp.
  - exists []. split; [done|]. split.
    + intros p m Hp. by rewrite lookup_empty in Hp.
    + set_solver.
Qed.

(** Writing a header into a block the caller gives back. *)
Definition write_header (b : blocks) (p : addr) : outcome unit :=
  m ← or_fault Dangling (b !! p);
  if decide (sizeof_header <= m) then Ret tt else Fault OutOfBounds.

Lemma write_header_ok n root hs b live p :
  free_list n root hs b live -> p ∈ live -> write_header b p = Ret tt.
Proof.
  intros R Hp. unfold write_header. rewrite (free_list_live_size _ _ _ _ _ _ R Hp).
  cbn. rewrite decide_True; [done|]. apply R.
Qed.

(** Release of every block on the list ([while (current != nullptr)]). *)
Fixpoint free_all (fuel : nat) (current : ptr) (hs : gmap addr header) (b : blocks)
    : outcome blocks :=
  match fuel with
  | O => Diverged
  | S fuel =>
    match current with
    | None => Ret b
    | Some c =>
      hd ← deref hs current;
      _ ← or_fault DoubleDestroy (b !! c);
      free_all fuel (h_next hd) hs (delete c b)
    end
  end.

Lemma free_all_chain hs current fl b fuel :
  chain h_next hs current fl -> (forall p, p ∈ fl -> is_Some (b !! p)) ->
  (length fl < fuel)%nat ->
  exists b', free_all fuel current hs b = Ret b' /\ dom b' = dom b ∖ list_to_set fl.
Proof.
  revert current b fuel. induction fl as [|p fl IH]; intros current b fuel C Hb Hf.
  - destruct fuel; [cbn in Hf; lia|]. unfold chain in C. cbn in C. subst. cbn.
    eexists. split; [done|]. set_solver.
  - destruct fuel; [cbn in Hf; lia|].
    pose proof (chain_NoDup _ _ _ _ C) as [Hp ND]%NoDup_cons.
    destruct C as (-> & hd & Hhd & C). cbn [free_all].
    rewrite (deref_Some _ _ _ Hhd). run_bind.
    destruct (Hb p) as [m Hm]; [by left|]. rewrite Hm. cbn.
    destruct (IH (h_next hd) (delete p b) fuel) as (b' & -> & Hd).
    + done.
    + intros q Hq. rewrite lookup_delete_ne by (intros ->; done). apply Hb. by right.
    + cbn in Hf. lia.
    + exists b'. split; [done|]. rewrite Hd, dom_delete_L. set_solver.
Qed.

(** ** applications/map/recycling_allocator.hpp *)

Module RecyclingAllocator.
Section Ops.
Context `{Malloc}.

(** [root] as in the class; [headers] are the [Header] structures written into
    freed blocks, [heap] the blocks obtained from malloc with their sizes. *)
Record RecyclingAllocator := Make {
  root : ptr;
  headers : gmap addr header;
  heap : blocks;
}.

Definition init : RecyclingAllocator := Make null ∅ ∅.

Definition alloc (n : Z) (s : RecyclingAllocator) : outcome (addr * RecyclingAllocator) :=
  reuse ← match s.(root) with
          | Some r => hd ← deref s.(headers) s.(root); Ret (h_size hd <=? n)
          | None => Ret false
          end;
  match s.(root), reuse with
  | Some r, true =>
    hd ← deref s.(headers) s.(root);
    Ret (r, Make (h_next hd) (delete r s.(headers)) s.(heap))
  | _, _ =>
    match malloc s.(heap) n with
    | None => Raise BadAlloc
    | Some p => Ret (p, Make s.(root) s.(headers) (<[p := n]> s.(heap)))
    end
  end.

Definition free (p : addr) (n : Z) (s : RecyclingAllocator) : outcome RecyclingAllocator :=
  _ ← write_header s.(heap) p;
  Ret (Make (Some p) (<[p := Header s.(root) n]> s.(headers)) s.(heap)).

(** [~RecyclingAllocator()]: returns the blocks that remain allocated. *)
Definition destroy (s : RecyclingAllocator) : outcome blocks :=
  free_all (S (size s.(headers))) s.(root) s.(headers) s.(heap).

#[global] Instance ops : FrameAllocOps RecyclingAllocator := {
  fa_alloc := alloc;
  fa_free := free;
}.

Definition inv (n : Z) (s : RecyclingAllocator) (live : gset addr) : Prop :=
  free_list n s.(root) s.(headers) s.(heap) live.

Lemma recycling_init_inv n : sizeof_header <= n -> inv n init ∅.
Proof. apply free_list_empty. Qed.

Lemma alloc_inv `{!MallocTotal} n s live :
  inv n s live ->
  exists p s', alloc n s = Ret (p, s') /\ p ∉ live /\ inv n s' ({[p]} ∪ live).
Proof.
  unfold inv, alloc. destruct s as [[r|] hs b]; cbn [root headers heap]; intros R.
  - apply free_list_pop in R as (hd & Hhd & Hsz & Hr & R).
    rewrite (deref_Some _ _ _ Hhd). run_bind. rewrite Hsz, Z.leb_refl.
    run_bind. eauto 6.
  - run_bind. destruct (malloc b n) as [p|] eqn:E; [|by apply malloc_total in E].
    apply malloc_fresh in E. destruct (free_list_malloc _ _ _ _ _ _ R E) as [Hp R'].
    eauto 6.
Qed.

Lemma recycling_free_inv n s live p :
  inv n s live -> p ∈ live -> exists s', free p n s = Ret s' /\ inv n s' (live ∖ {[p]}).
Proof.
  intros R Hp. unfold free. rewrite (write_header_ok _ _ _ _ _ _ R Hp). run_bind.
  eexists. split; [done|]. by apply free_list_push.
Qed.

#[global] Program Instance laws `{!MallocTotal} n : FrameAlloc RecyclingAllocator n := {
  fa_inv := inv n;
}.
Next Obligation. intros. by apply alloc_inv. Qed.
Next Obligation. intros. by apply recycling_free_inv. Qed.

(** The states reached by a client that allocates and frees blocks of [n]
    bytes, with the blocks it holds. *)
Inductive reach (n : Z) : RecyclingAllocator -> gset addr -> Prop :=
| reach_init : reach n init ∅
| reach_alloc s live p s' :
    reach n s live -> alloc n s = Ret (p, s') -> reach n s' ({[p]} ∪ live)
| reach_free s live p s' :
    reach n s live -> p ∈ live -> free p n s = Ret s' -> reach n s' (live ∖ {[p]}).

Lemma reach_inv `{!MallocTotal} n s live : sizeof_header <= n -> reach n s live -> inv n s live.
Proof.
  intros Hn. induction 1 as [|s live p s' _ IH E|s live p s' _ IH Hp E]; [by apply recycling_init_inv| |].
  - destruct (alloc_inv n s live IH) as (p' & s'' & E' & _ & I). by rewrite E in E'; simplify_eq.
  - destruct (recycling_free_inv n s live p IH Hp) as (s'' & E' & I). by rewrite E in E'; simplify_eq.
Qed.

Lemma destroy_inv n s live :
  inv n s live -> exists b, destroy s = Ret b /\ dom b = live.
Proof.
  intros (Hn & Hb & fl & C & Hsz & Hdom & Hdisj). unfold destroy.
  pose proof (chain_length_size _ _ _ _ C).
  destruct (free_all_chain (headers s) (root s) fl (heap s) (S (size (headers s)))) as (b & E & Hd);
    [done| |lia|].
  - intros p Hp. apply elem_of_dom. rewrite Hdom. set_solver.
  - exists b. split; [done|]. rewrite Hd, Hdom. set_solver.
Qed.

(** A client that only asks for blocks of one size: every allocation
    succeeds with a block of that size that nobody holds, every block it holds
    can be given back, and the destructor releases exactly the blocks that are
    not held. *)
Theorem recycling_allocator_safe `{!MallocTotal} n s live :
  sizeof_header <= n -> reach n s live ->
  (exists p s', alloc n s = Ret (p, s') /\ p ∉ live /\ heap s' !! p = Some n) /\
  (forall p, p ∈ live -> exists s', free p n s = Ret s') /\
  (exists b, destroy s = Ret b /\ dom b = live).
Proof.
  intros Hn Hr. pose proof (reach_inv n s live Hn Hr) as I. split; [|split].
  - destruct (alloc_inv n s live I) as (p & s' & E & Hp & I'). exists p, s'. split; [done|].
    split; [done|]. eapply free_list_live_size; [exact I'|set_solver].
  - intros p Hp. destruct (recycling_free_inv n s live p I Hp) as (s' & E & _). eauto.
  - by eapply destroy_inv.
Qed.

(** Across sizes the test [root->size <= n] is the wrong way round: after a
    block of [n] bytes has been freed, a request for any larger size is given
    that same block, and a request for a smaller size never reuses it. *)
Theorem recycling_allocator_too_small `{!MallocTotal} n m :
  sizeof_header <= n ->
  exists p s1 s2, alloc n init = Ret (p, s1) /\ free p n s1 = Ret s2 /\
    (n < m -> exists s3, alloc m s2 = Ret (p, s3) /\ heap s3 !! p = Some n) /\
    (m < n -> exists p' s3, alloc m s2 = Ret (p', s3) /\ p' <> p).
Proof.
  intros Hn. unfold alloc at 1. cbn [root init heap headers]. run_bind.
  destruct (malloc ∅ n) as [p|] eqn:E; [|by apply malloc_total in E].
  eexists p, _, _. split; [done|]. unfold free, write_header. cbn [heap]. rewrite lookup_insert_eq.
  cbn. rewrite decide_True by done. run_bind. split; [done|]. unfold alloc. cbn [root headers heap].
  rewrite (deref_Some _ p (Header null n)) by (apply lookup_insert_eq). run_bind. cbn [h_size].
  split; intros Hm.
  - rewrite (proj2 (Z.leb_le n m)) by lia. cbn. eexists. split; [done|]. apply lookup_insert_eq.
  - rewrite (proj2 (Z.leb_gt n m)) by lia.
    destruct (malloc (<[p:=n]> ∅) m) as [p'|] eqn:E'; [|by apply malloc_total in E'].
    eexists p', _. split; [done|]. intros ->. apply malloc_fresh in E'.
    by rewrite lookup_insert_eq in E'.
Qed.
End Ops.

#[local] Existing Instance bump_malloc.

(** Two blocks allocated, the first given back. *)
Definition demo1 : RecyclingAllocator :=
  match alloc 32 init with Ret (_, s) => s | _ => init end.
Definition demo2 : RecyclingAllocator :=
  match alloc 32 demo1 with Ret (_, s) => s | _ => init end.
Definition demo : RecyclingAllocator :=
  match free 1%positive 32 demo2 with Ret s => s | _ => init end.

Lemma demo_reach : reach 32 demo {[2%positive]}.
Proof.
  assert (reach 32 demo (({[2%positive]} ∪ ({[1%positive]} ∪ ∅)) ∖ {[1%positive]})) as Hr.
  { apply (reach_free _ demo2 _ 1%positive); [|set_solver|vm_compute; reflexivity].
    apply (reach_alloc _ demo1 _ 2%positive); [|vm_compute; reflexivity].
    apply (reach_alloc _ init _ 1%positive); [apply reach_init|vm_compute; reflexivity]. }
  replace ({[2%positive]} : gset addr) with
    (({[2%positive]} ∪ ({[1%positive]} ∪ ∅)) ∖ {[1%positive]} : gset addr) by (vm_compute; reflexivity).
  exact Hr.
Qed.

Lemma recycling_allocator_safe_witness :
  reach 32 demo {[2%positive]} /\
  (exists p s', alloc 32 demo = Ret (p, s') /\ p ∉ ({[2%positive]} : gset addr) /\ heap s' !! p = Some 32) /\
  (forall p, p ∈ ({[2%positive]} : gset addr) -> exists s', free p 32 demo = Ret s') /\
  (exists b, destroy demo = Ret b /\ dom b = ({[2%positive]} : gset addr)).
Proof.
  split; [exact demo_reach|]. pose proof bump_malloc_total.
  apply (recycling_allocator_safe 32 demo {[2%positive]}); [vm_compute; discriminate|exact demo_reach].
Defined.

Lemma recycling_allocator_too_small_witness :
  exists p s1 s2, alloc 32 init = Ret (p, s1) /\ free p 32 s1 = Ret s2 /\
    (32 < 64 -> exists s3, alloc 64 s2 = Ret (p, s3) /\ heap s3 !! p = Some 32) /\
    (64 < 32 -> exists p' s3, alloc 64 s2 = Ret (p', s3) /\ p' <> p).
Proof.
  pose proof bump_malloc_total.
  apply (recycling_allocator_too_small 32 64). vm_compute; discriminate.
Defined.
End RecyclingAllocator.

(** ** applications/binary-search/coro_infra.hpp *)

Module TcAlloc.
Section Ops.
Context `{Malloc}.

Record tcalloc := Make {
  root : ptr;
  last_size_allocated : Z;
  total : Z;
  alloc_count : Z;
  headers : gmap addr header;
  heap : blocks;
}.

Definition init : tcalloc := Make null 0 0 0 ∅ ∅.

(** The result of malloc is returned unchecked: null when memory is exhausted,
    and [promise_type::operator new] constructs the frame there. *)
Definition alloc (sz : Z) (s : tcalloc) : outcome (ptr * tcalloc) :=
  reuse ← match s.(root) with
          | Some r => hd ← deref s.(headers) s.(root); Ret (h_size hd <=? sz)
          | None => Ret false
          end;
  match s.(root), reuse with
  | Some r, true =>
    hd ← deref s.(headers) s.(root);
    Ret (Some r, Make (h_next hd) s.(last_size_allocated) s.(total) s.(alloc_count)
                   (delete r s.(headers)) s.(heap))
  | _, _ =>
    let p := malloc s.(heap) sz in
    Ret (p, Make s.(root) sz (u64 (s.(total) + sz)) (u64 (s.(alloc_count) + 1)) s.(headers)
              (match p with Some a => <[a := sz]> s.(heap) | None => s.(heap) end))
  end.

Definition free (p : addr) (sz : Z) (s : tcalloc) : outcome tcalloc :=
  _ ← write_header s.(heap) p;
  Ret (Make (Some p) s.(last_size_allocated) s.(total) s.(alloc_count)
         (<[p := Header s.(root) sz]> s.(headers)) s.(heap)).

Definition stats (s : tcalloc) : Z * Z * Z :=
  (s.(alloc_count), s.(total), s.(last_size_allocated)).

(** [~tcalloc()] *)
Definition destroy (s : tcalloc) : outcome blocks :=
  free_all (S (size s.(headers))) s.(root) s.(headers) s.(heap).

(** [promise_type::operator new]: a null result is dereferenced. *)
Definition operator_new (sz : Z) (s : tcalloc) : outcome (addr * tcalloc) :=
  '(p, s') ← alloc sz s;
  a ← or_fault NullDeref p;
  Ret (a, s').

#[global] Instance ops : FrameAllocOps tcalloc := {
  fa_alloc := operator_new;
  fa_free := free;
}.

Definition inv (n : Z) (s : tcalloc) (live : gset addr) : Prop :=
  free_list n s.(root) s.(headers) s.(heap) live.

Lemma tcalloc_init_inv n : sizeof_header <= n -> inv n init ∅.
Proof. apply free_list_empty. Qed.

Lemma operator_new_inv `{!MallocTotal} n s live :
  inv n s live ->
  exists p s', operator_new n s = Ret (p, s') /\ p ∉ live /\ inv n s' ({[p]} ∪ live).
Proof.
  unfold inv, operator_new, alloc.
  destruct s as [[r|] ls tot cnt hs b]; cbn [root headers heap]; intros R.
  - apply free_list_pop in R as (hd & Hhd & Hsz & Hr & R).
    rewrite (deref_Some _ _ _ Hhd). run_bind. rewrite Hsz, Z.leb_refl.
    run_bind. eauto 6.
  - run_bind. cbn [heap]. destruct (malloc b n) as [p|] eqn:E; [|by apply malloc_total in E].
    apply malloc_fresh in E. destruct (free_list_malloc _ _ _ _ _ _ R E) as [Hp R'].
    cbn. eauto 6.
Qed.

Lemma tcalloc_free_inv n s live p :
  inv n s live -> p ∈ live -> exists s', free p n s = Ret s' /\ inv n s' (live ∖ {[p]}).
Proof.
  intros R Hp. unfold free. rewrite (write_header_ok _ _ _ _ _ _ R Hp). run_bind.
  eexists. split; [done|]. by apply free_list_push.
Qed.

#[global] Program Instance laws `{!MallocTotal} n : FrameAlloc tcalloc n := {
  fa_inv := inv n;
}.
Next Obligation. intros. by apply operator_new_inv. Qed.
Next Obligation. intros. by apply tcalloc_free_inv. Qed.
End Ops.
End TcAlloc.
