(* ===== verification/Interleave.v ===== *)
(** * Interleave: the throttled coroutine runtime

    The interplay shared by applications/map (prefetch.hpp, throttler.hpp, the
    [LookupKVTask] promise of map.hpp) and applications/binary-search
    (coro_infra.hpp): each task is a coroutine frame obtained from a recycling
    allocator; awaiting a prefetch enqueues the coroutine on the scheduler and
    transfers control to the next one; completing a task runs its callback,
    raises the throttler's limit and destroys the frame; [spawn] resumes queued
    coroutines while the limit is exhausted, and [run] drains the queue.

    The runtime is generic in the scheduler, the allocator, the coroutine body
    ([step]) and the effect of the completion callbacks ([emit]). *)

From S2P Require Import Prelude Schedulers Allocators.
Local Open Scope Z_scope.

Section Runtime.
Context {Q A F R W : Type} `{SchedulerOps Q} `{FrameAllocOps A}.

(** [step f] runs a suspended coroutine to its next suspension point ([inl])
    or to completion with the value given to its callback ([inr]). *)
Context (step : F -> outcome (F + R)) (emit : R -> W -> W) (frame_size : Z).

Record runtime := Runtime {
  rt_sched : Q;
  rt_alloc : A;
  rt_frames : gmap addr F;
  rt_limit : Z;
  rt_world : W;
}.

(** Call of the coroutine: the frame is allocated and suspends initially. *)
Definition create (f : F) (rt : runtime) : outcome (addr * runtime) :=
  '(p, a) ← fa_alloc frame_size rt.(rt_alloc);
  Ret (p, Runtime rt.(rt_sched) a (<[p := f]> rt.(rt_frames)) rt.(rt_limit) rt.(rt_world)).

(** [prefetch_awaitable::await_suspend]: schedule the awaiting coroutine and
    return the handle control is transferred to. *)
Definition await_suspend (h : handle) (rt : runtime) : outcome (handle * runtime) :=
  q ← sq_schedule h rt.(rt_sched);
  '(next, q) ← sq_remove_next q;
  Ret (next, Runtime q rt.(rt_alloc) rt.(rt_frames) rt.(rt_limit) rt.(rt_world)).

(** [return_void] through [Throttler::on_task_complete]. *)
Definition on_task_complete (rt : runtime) : runtime :=
  Runtime rt.(rt_sched) rt.(rt_alloc) rt.(rt_frames) (u64 (rt.(rt_limit) + 1)) rt.(rt_world).

Definition on_result (r : R) (rt : runtime) : runtime :=
  Runtime rt.(rt_sched) rt.(rt_alloc) rt.(rt_frames) rt.(rt_limit) (emit r rt.(rt_world)).

(** [final_suspend] never suspends: the frame is destroyed. *)
Definition destroy (p : addr) (rt : runtime) : outcome runtime :=
  a ← fa_free p frame_size rt.(rt_alloc);
  Ret (Runtime rt.(rt_sched) a (delete p rt.(rt_frames)) rt.(rt_limit) rt.(rt_world)).

(** [coroutine_handle<>::resume()] with symmetric transfer. *)
Fixpoint resume (fuel : nat) (h : handle) (rt : runtime) : outcome runtime :=
  match fuel with
  | O => Diverged
  | S fuel =>
    match h with
    | None => Fault NullDeref
    | Some p =>
      f ← or_fault BadResume (rt.(rt_frames) !! p);
      s ← step f;
      match s with
      | inl f' =>
        let rt := Runtime rt.(rt_sched) rt.(rt_alloc) (<[p := f']> rt.(rt_frames))
                    rt.(rt_limit) rt.(rt_world) in
        '(next, rt) ← await_suspend h rt;
        resume fuel next rt
      | inr r => destroy p (on_task_complete (on_result r rt))
      end
    end
  end.

(** [Throttler::spawn] *)
Definition spawn (fuel : nat) (task : addr) (rt : runtime) : outcome runtime :=
  rt ← (if decide (rt.(rt_limit) = 0)
        then '(h, q) ← sq_remove_next rt.(rt_sched);
             resume fuel h (Runtime q rt.(rt_alloc) rt.(rt_frames) rt.(rt_limit) rt.(rt_world))
        else Ret rt);
  q ← sq_schedule (Some task) rt.(rt_sched);
  Ret (Runtime q rt.(rt_alloc) rt.(rt_frames) (u64 (rt.(rt_limit) - 1)) rt.(rt_world)).

(** [Throttler::run] through [Scheduler::run]:
    [while (auto handle = try_remove_next_task()) handle.resume()] *)
Fixpoint run (fuel : nat) (rt : runtime) : outcome runtime :=
  match fuel with
  | O => Diverged
  | S fuel =>
    '(h, q) ← sq_try_remove_next rt.(rt_sched);
    let rt := Runtime q rt.(rt_alloc) rt.(rt_frames) rt.(rt_limit) rt.(rt_world) in
    match h with
    | None => Ret rt
    | Some _ => rt ← resume (S fuel) h rt; run fuel rt
    end
  end.

(** Spawn one coroutine per frame. *)
Fixpoint spawn_all (fuel : nat) (fs : list F) (rt : runtime) : outcome runtime :=
  match fs with
  | [] => Ret rt
  | f :: fs =>
    '(p, rt) ← create f rt;
    rt ← spawn fuel p rt;
    spawn_all fuel fs rt
  end.

(** The body of a multi-lookup: a throttler with [n_streams], one task per
    element, [run()], and the second [run()] of the throttler's destructor. *)
Definition multi (fuel : nat) (n_streams : Z) (fs : list F) (q : Q) (a : A) (w : W)
    : outcome runtime :=
  rt ← spawn_all fuel fs (Runtime q a ∅ n_streams w);
  rt ← run fuel rt;
  run fuel rt.

(** ** Correctness *)

(** [runs f n r]: stepping [f] completes with [r] after [n] steps. *)
Inductive runs : F -> nat -> R -> Prop :=
| runs_done f r : step f = Ret (inr r) -> runs f 1 r
| runs_step f f' n r : step f = Ret (inl f') -> runs f' n r -> runs f (S n) r.

Record task := Task { t_addr : addr; t_res : R; t_steps : nat }.

Definition task_ok (rt : runtime) (t : task) : Prop :=
  exists f, rt.(rt_frames) !! t.(t_addr) = Some f /\ runs f t.(t_steps) t.(t_res).

Definition addrs (ts : list task) : list addr := t_addr <$> ts.
Definition results (ts : list task) : list R := t_res <$> ts.
Definition steps (ts : list task) : nat := sum_list_with t_steps ts.

Context `{!Scheduler Q} `{!FrameAlloc A frame_size}.

Lemma addrs_snoc ts t : addrs (ts ++ [t]) = addrs ts ++ [t_addr t].
Proof. unfold addrs. by rewrite fmap_app. Qed.

Lemma steps_cons t ts : steps (t :: ts) = (t_steps t + steps ts)%nat.
Proof. done. Qed.

(** [rt_inv rt cur queue]: the frames of the runtime are exactly those of the
    tasks in [queue], which the scheduler holds in order, and of the tasks in
    [cur], which it does not hold. *)
Record rt_inv (rt : runtime) (cur queue : list task) : Prop := {
  inv_sched : sq_repr rt.(rt_sched) (addrs queue);
  inv_alloc : fa_inv rt.(rt_alloc) (dom rt.(rt_frames));
  inv_dom : dom rt.(rt_frames) = list_to_set (addrs (cur ++ queue));
  inv_nodup : NoDup (addrs (cur ++ queue));
  inv_tasks : Forall (task_ok rt) (cur ++ queue);
}.

(** The invariant mentions neither the limit nor the world. *)
Lemma rt_inv_ext rt rt' cur queue :
  rt_sched rt = rt_sched rt' -> rt_alloc rt = rt_alloc rt' -> rt_frames rt = rt_frames rt' ->
  rt_inv rt cur queue -> rt_inv rt' cur queue.
Proof.
  destruct rt, rt'. cbn. intros -> -> -> [I1 I2 I3 I4 I5]. split; cbn in *; try done.
Qed.

Lemma rt_inv_perm rt cur cur' queue :
  cur ≡ₚ cur' -> rt_inv rt cur queue -> rt_inv rt cur' queue.
Proof.
  intros P [I1 I2 I3 I4 I5]. split; [done|done| | |].
  - rewrite I3. unfold addrs. apply set_eq. intros x. rewrite !elem_of_list_to_set.
    by rewrite P.
  - unfold addrs in *. by rewrite <- P.
  - by rewrite <- P.
Qed.

(** Dequeuing moves the first queued task to the current ones. *)
Lemma rt_inv_dequeue rt cur t queue q :
  rt_inv rt cur (t :: queue) -> sq_repr q (addrs queue) ->
  rt_inv (Runtime q rt.(rt_alloc) rt.(rt_frames) rt.(rt_limit) rt.(rt_world)) (t :: cur) queue.
Proof.
  intros [I1 I2 I3 I4 I5] Hq.
  assert (cur ++ t :: queue ≡ₚ (t :: cur) ++ queue) as P by (cbn; symmetry; apply Permutation_middle).
  split; cbn [rt_sched rt_alloc rt_frames]; [done|done| | |].
  - rewrite I3. unfold addrs. apply set_eq. intros x. rewrite !elem_of_list_to_set. by rewrite P.
  - unfold addrs in *. by rewrite <- P.
  - rewrite <- P. exact I5.
Qed.

Lemma rt_inv_enqueue rt cur t queue q :
  rt_inv rt (t :: cur) queue -> sq_repr q (addrs (queue ++ [t])) ->
  rt_inv (Runtime q rt.(rt_alloc) rt.(rt_frames) rt.(rt_limit) rt.(rt_world)) cur (queue ++ [t]).
Proof.
  intros [I1 I2 I3 I4 I5] Hq.
  assert ((t :: cur) ++ queue ≡ₚ cur ++ queue ++ [t]) as P.
  { rewrite app_assoc. cbn. symmetry. apply Permutation_app_comm. }
  split; cbn [rt_sched rt_alloc rt_frames]; [done|done| | |].
  - rewrite I3. unfold addrs. apply set_eq. intros x. rewrite !elem_of_list_to_set. by rewrite P.
  - unfold addrs in *. by rewrite <- P.
  - rewrite <- P. exact I5.
Qed.

Lemma tasks_ok_ne rt rt' p ts :
  (forall a, a <> p -> rt_frames rt' !! a = rt_frames rt !! a) ->
  p ∉ addrs ts -> Forall (task_ok rt) ts -> Forall (task_ok rt') ts.
Proof.
  intros Hf Hp. rewrite !Forall_forall. intros Hok t Ht.
  destruct (Hok t Ht) as (f & E & Hr). exists f. rewrite Hf; [done|].
  intros E'. apply Hp. rewrite <- E'. unfold addrs. by apply list_elem_of_fmap_2.
Qed.

(** A step of the current task. *)
Lemma rt_inv_step rt t cur queue f' n :
  rt_inv rt (t :: cur) queue -> runs f' n (t_res t) ->
  rt_inv (Runtime rt.(rt_sched) rt.(rt_alloc) (<[t_addr t := f']> rt.(rt_frames))
            rt.(rt_limit) rt.(rt_world))
    (Task (t_addr t) (t_res t) n :: cur) queue.
Proof.
  intros [I1 I2 I3 I4 I5] Hr. cbn in I3, I4, I5.
  apply Forall_cons in I5 as [It I5]. apply NoDup_cons in I4 as [I4 ND].
  assert (dom (<[t_addr t := f']> (rt_frames rt)) = dom (rt_frames rt)) as Hdom.
  { rewrite dom_insert_L, I3. set_solver. }
  split; cbn [rt_sched rt_alloc rt_frames].
  - done.
  - by rewrite Hdom.
  - rewrite Hdom, I3. done.
  - cbn. by constructor.
  - cbn. constructor.
    + exists f'. cbn. by rewrite lookup_insert_eq.
    + apply (tasks_ok_ne rt _ (t_addr t)); [|done|done].
      intros a Ha. cbn. by rewrite lookup_insert_ne.
Qed.

(** Completion of the current task frees its frame. *)
Lemma rt_inv_destroy rt t cur queue r :
  rt_inv rt (t :: cur) queue ->
  exists rt', destroy (t_addr t) (on_task_complete (on_result r rt)) = Ret rt' /\
    rt_inv rt' cur queue /\ rt_limit rt' = u64 (rt_limit rt + 1) /\
    rt_world rt' = emit r (rt_world rt).
Proof.
  intros [I1 I2 I3 I4 I5]. cbn in I3, I4, I5.
  apply Forall_cons in I5 as [It I5]. apply NoDup_cons in I4 as [I4 ND].
  destruct (fa_free_spec (n := frame_size) (rt_alloc rt) _ (t_addr t) I2) as (a' & E & Ha).
  { rewrite I3. set_solver. }
  unfold destroy. cbn. rewrite E. run_bind.
  eexists. split; [done|]. split; [|done].
  split; cbn [rt_sched rt_alloc rt_frames].
  - done.
  - by rewrite dom_delete_L.
  - rewrite dom_delete_L, I3. set_solver.
  - done.
  - apply (tasks_ok_ne rt _ (t_addr t)); [|done|done].
    intros b Hb. cbn. by rewrite lookup_delete_ne.
Qed.

(** Resuming a task drives the queued coroutines round-robin until one of them
    completes. *)
Lemma resume_spec fuel rt t cur queue :
  rt_inv rt (t :: cur) queue ->
  (length queue < sq_capacity)%nat -> (steps (t :: queue) < fuel)%nat ->
  exists rt' t' queue',
    resume fuel (Some (t_addr t)) rt = Ret rt' /\
    rt_inv rt' cur queue' /\
    results (t' :: queue') ≡ₚ results (t :: queue) /\
    (steps queue' < steps (t :: queue))%nat /\
    rt_limit rt' = u64 (rt_limit rt + 1) /\
    rt_world rt' = emit (t_res t') (rt_world rt).
Proof.
  revert rt t queue. induction fuel as [|fuel IH]; intros rt t queue I Hc Hf; [lia|].
  pose proof (inv_tasks _ _ _ I) as [(f & Ef & Hruns) _]%Forall_cons.
  cbn [resume]. rewrite Ef. cbn [or_fault]. run_bind.
  inversion Hruns as [f0 r E|f0 f' n r E Hruns' Ef0 En]; subst; rewrite E; run_bind.
  - destruct (rt_inv_destroy rt t cur queue (t_res t) I) as (rt' & -> & I' & Hl & Hw).
    exists rt', t, queue. rewrite steps_cons. repeat (split; [done|]). split; [lia|done].
  - pose proof (rt_inv_step _ _ _ _ _ _ I Hruns') as I1.
    set (t1 := Task (t_addr t) (t_res t) n) in *.
    unfold await_suspend. cbn [rt_sched].
    destruct (sq_schedule_spec _ _ (t_addr t1) (inv_sched _ _ _ I1)) as (q1 & E1 & R1).
    { unfold addrs. by rewrite length_fmap. }
    cbn [rt_sched t_addr t1] in E1. rewrite E1. run_bind.
    rewrite <- addrs_snoc in R1.
    pose proof (rt_inv_enqueue _ _ _ _ q1 I1 R1) as I2.
    destruct (queue ++ [t1]) as [|x rest] eqn:Eq; [by destruct queue|].
    destruct (sq_remove_next_spec q1 (t_addr x) (addrs rest)) as (q2 & E2 & R2); [done|].
    rewrite E2. run_bind. cbn [rt_alloc rt_frames rt_limit rt_world].
    pose proof (rt_inv_dequeue _ _ _ _ q2 I2 R2) as I3. cbn in I3.
    assert (steps (x :: rest) = (n + steps queue)%nat) as Hsteps.
    { rewrite <- Eq. unfold steps. rewrite sum_list_with_app. cbn. lia. }
    assert (results (x :: rest) ≡ₚ results (t :: queue)) as Hres.
    { rewrite <- Eq. unfold results. rewrite fmap_app. cbn.
      symmetry. apply Permutation_cons_append. }
    assert (length rest = length queue) as Hlen.
    { apply (f_equal length) in Eq. rewrite length_app in Eq. cbn in Eq. lia. }
    destruct (IH _ x rest I3) as (rt' & t' & queue' & Er & I' & Hp & Hs & Hl & Hw).
    + lia.
    + rewrite Hsteps. rewrite steps_cons in Hf. lia.
    + exists rt', t', queue'. rewrite Er. split; [done|]. split; [done|].
      split; [by rewrite Hp|]. split; [|done].
      rewrite Hsteps in Hs. rewrite steps_cons. lia.
Qed.

(** The effect of completing tasks with the given results, in order. *)
Definition emits (w : W) (rs : list R) : W := foldl (fun w r => emit r w) w rs.

Lemma emits_app w rs1 rs2 : emits w (rs1 ++ rs2) = emits (emits w rs1) rs2.
Proof. apply foldl_app. Qed.

Lemma emits_cons w r rs : emits w (r :: rs) = emits (emit r w) rs.
Proof. done. Qed.

Lemma results_app ts1 ts2 : results (ts1 ++ ts2) = results ts1 ++ results ts2.
Proof. unfold results. by rewrite fmap_app. Qed.

Lemma results_length ts : length (results ts) = length ts.
Proof. unfold results. by rewrite length_fmap. Qed.

(** Pushing the new task and charging it to the limit. *)
Lemma spawn_push rt t queue (n : nat) :
  rt_inv rt [t] queue -> (length queue < n)%nat -> (n <= sq_capacity)%nat ->
  Z.of_nat n < 2 ^ 64 -> rt_limit rt = Z.of_nat n - Z.of_nat (length queue) ->
  exists rt',
    (q ← sq_schedule (Some (t_addr t)) rt.(rt_sched);
     Ret (Runtime q rt.(rt_alloc) rt.(rt_frames) (u64 (rt.(rt_limit) - 1)) rt.(rt_world))) = Ret rt' /\
    rt_inv rt' [] (queue ++ [t]) /\
    rt_limit rt' = Z.of_nat n - Z.of_nat (length (queue ++ [t])) /\
    rt_world rt' = rt_world rt.
Proof.
  intros I Hlt Hn Hmax Hl.
  destruct (sq_schedule_spec _ _ (t_addr t) (inv_sched _ _ _ I)) as (q & E & Rq).
  { unfold addrs. rewrite length_fmap. lia. }
  rewrite E. run_bind. rewrite <- addrs_snoc in Rq.
  eexists. split; [done|]. split; [|split; [|done]].
  - eapply rt_inv_ext; [| | |exact (rt_inv_enqueue _ _ _ _ _ I Rq)]; done.
  - cbn [rt_limit]. rewrite length_app. cbn [length]. rewrite Hl. wrap_lia.
Qed.

(** [spawn] first makes room when the limit is exhausted. *)
Lemma spawn_spec fuel rt t queue (n : nat) :
  rt_inv rt [t] queue -> (0 < n)%nat -> (length queue <= n)%nat -> (n <= sq_capacity)%nat ->
  Z.of_nat n < 2 ^ 64 -> rt_limit rt = Z.of_nat n - Z.of_nat (length queue) ->
  (steps queue < fuel)%nat ->
  exists rt' rs queue',
    spawn fuel (t_addr t) rt = Ret rt' /\ rt_inv rt' [] queue' /\
    rs ++ results queue' ≡ₚ results (t :: queue) /\
    (length queue' <= n)%nat /\ (steps queue' <= steps (t :: queue))%nat /\
    rt_limit rt' = Z.of_nat n - Z.of_nat (length queue') /\
    rt_world rt' = emits (rt_world rt) rs.
Proof.
  intros I H0n Hqn Hn Hmax Hl Hf. unfold spawn. case_decide as Hzero.
  - destruct queue as [|x rest]; [cbn in Hl; lia|]. cbn [length] in *.
    destruct (sq_remove_next_spec (rt_sched rt) (t_addr x) (addrs rest)) as (q & E & Rq).
    { apply (inv_sched _ _ _ I). }
    rewrite E. run_bind. pose proof (rt_inv_dequeue _ _ _ _ _ I Rq) as I1.
    destruct (resume_spec fuel _ x [t] rest I1) as (rt' & t' & queue' & E' & I' & Hp & Hs & Hl' & Hw).
    { lia. }
    { done. }
    rewrite E'. run_bind. cbn [rt_limit rt_world] in Hl', Hw.
    assert (length queue' = length rest) as Hlen.
    { apply Permutation_length in Hp. rewrite !results_length in Hp. cbn in Hp. lia. }
    destruct (spawn_push rt' t queue' n I') as (rt2 & E2 & I2 & Hl2 & Hw2); [lia|lia|done| |].
    { rewrite Hl', Hl, Hlen. wrap_lia. }
    rewrite E2. exists rt2, [t_res t'], (queue' ++ [t]). repeat (split; [done|]).
    split; [|split; [|split; [|split]]].
    + rewrite results_app. change (results (t :: x :: rest)) with (t_res t :: results (x :: rest)).
      rewrite <- Hp. cbn. symmetry. change (t_res t' :: results queue' ++ [t_res t])
        with ((t_res t' :: results queue') ++ [t_res t]). apply Permutation_cons_append.
    + rewrite length_app. cbn. lia.
    + unfold steps. rewrite sum_list_with_app. rewrite steps_cons in Hs. cbn.
      unfold steps in *. lia.
    + done.
    + by rewrite Hw2, Hw.
  - run_bind. destruct (spawn_push rt t queue n I) as (rt2 & E2 & I2 & Hl2 & Hw2); try done; [lia|].
    rewrite E2. exists rt2, [], (queue ++ [t]). repeat (split; [done|]).
    split; [|split; [|split; [|split]]].
    + rewrite results_app. cbn. symmetry. apply Permutation_cons_append.
    + rewrite length_app. cbn. lia.
    + unfold steps. rewrite sum_list_with_app. cbn. lia.
    + done.
    + done.
Qed.

(** Creating a frame for a coroutine that will complete with [r]. *)
Lemma create_spec rt queue f k r :
  rt_inv rt [] queue -> runs f k r ->
  exists rt' t, create f rt = Ret (t_addr t, rt') /\ rt_inv rt' [t] queue /\
    t_res t = r /\ t_steps t = k /\ rt_limit rt' = rt_limit rt /\ rt_world rt' = rt_world rt.
Proof.
  intros [I1 I2 I3 I4 I5] Hr. cbn in I3, I4, I5.
  destruct (fa_alloc_spec (n := frame_size) _ _ I2) as (p & a & E & Hp & Ha).
  unfold create. rewrite E. run_bind.
  assert (p ∉ addrs queue) as Hpq by (rewrite I3 in Hp; set_solver).
  eexists _, (Task p r k). split; [done|]. split; [|done].
  split; cbn [rt_sched rt_alloc rt_frames t_addr addrs app]; unfold addrs in *.
  - done.
  - by rewrite dom_insert_L.
  - rewrite dom_insert_L, I3. done.
  - by constructor.
  - constructor.
    + exists f. cbn. by rewrite lookup_insert_eq.
    + apply (tasks_ok_ne rt _ p); [|done|done].
      intros b Hb. cbn. by rewrite lookup_insert_ne.
Qed.

(** Bodies paired with the results they complete with and their step counts. *)
Definition run_all (fs : list F) (ks : list nat) (rs : list R) : Prop :=
  Forall3 runs fs ks rs.

Lemma spawn_all_spec fuel fs ks rs rt queue (n : nat) :
  run_all fs ks rs -> rt_inv rt [] queue ->
  (0 < n)%nat -> (length queue <= n)%nat -> (n <= sq_capacity)%nat -> Z.of_nat n < 2 ^ 64 ->
  rt_limit rt = Z.of_nat n - Z.of_nat (length queue) ->
  (steps queue + sum_list ks < fuel)%nat ->
  exists rt' rs' queue',
    spawn_all fuel fs rt = Ret rt' /\ rt_inv rt' [] queue' /\
    rs' ++ results queue' ≡ₚ results queue ++ rs /\
    (length queue' <= n)%nat /\ (steps queue' <= steps queue + sum_list ks)%nat /\
    rt_limit rt' = Z.of_nat n - Z.of_nat (length queue') /\
    rt_world rt' = emits (rt_world rt) rs'.
Proof.
  intros Hruns. revert rt queue.
  induction Hruns as [|f k r fs ks rs Hr Hruns IH]; intros rt queue I H0n Hqn Hn Hmax Hl Hf.
  - exists rt, [], queue. cbn. rewrite app_nil_r. repeat (split; [done || lia|]). done.
  - cbn in Hf. destruct (create_spec rt queue f k r I Hr) as (rt1 & t & E1 & I1 & <- & <- & Hl1 & Hw1).
    cbn [spawn_all]. rewrite E1. run_bind.
    destruct (spawn_spec fuel rt1 t queue n I1) as (rt2 & rs2 & queue2 & E2 & I2 & Hp2 & Hq2 & Hs2 & Hl2 & Hw2);
      try done; [by rewrite Hl1|lia|].
    rewrite E2. run_bind. rewrite steps_cons in Hs2.
    destruct (IH rt2 queue2) as (rt3 & rs3 & queue3 & E3 & I3 & Hp3 & Hq3 & Hs3 & Hl3 & Hw3);
      try done; [lia|].
    exists rt3, (rs2 ++ rs3), queue3. split; [done|]. split; [done|].
    split; [|split; [done|split; [cbn; lia|split; [done|]]]].
    + rewrite <- app_assoc, Hp3, app_assoc, Hp2. cbn. apply Permutation_middle.
    + by rewrite emits_app, Hw3, Hw2, Hw1.
Qed.

Lemma run_spec fuel rt queue (n : nat) :
  rt_inv rt [] queue -> (length queue <= n)%nat -> (n <= sq_capacity)%nat -> Z.of_nat n < 2 ^ 64 ->
  rt_limit rt = Z.of_nat n - Z.of_nat (length queue) ->
  (steps queue < fuel)%nat ->
  exists rt' rs', run fuel rt = Ret rt' /\ rt_inv rt' [] [] /\ rs' ≡ₚ results queue /\
    rt_limit rt' = Z.of_nat n /\ rt_world rt' = emits (rt_world rt) rs'.
Proof.
  revert rt queue. induction fuel as [|fuel IH]; intros rt queue I Hqn Hn Hmax Hl Hf; [lia|].
  cbn [run]. destruct queue as [|x rest].
  - rewrite sq_try_remove_next_nil by apply (inv_sched _ _ _ I). run_bind.
    eexists _, []. split; [done|]. split; [|cbn in *; split; [done|split; [lia|done]]].
    by apply (rt_inv_ext rt).
  - destruct (sq_try_remove_next_cons (rt_sched rt) (t_addr x) (addrs rest)) as (q & E & Rq).
    { apply (inv_sched _ _ _ I). }
    rewrite E. run_bind. pose proof (rt_inv_dequeue _ _ _ _ _ I Rq) as I1. cbn [length] in *.
    destruct (resume_spec (S fuel) _ x [] rest I1) as (rt1 & t1 & queue1 & E1 & I2 & Hp & Hs & Hl1 & Hw1).
    { lia. }
    { done. }
    rewrite E1. run_bind. cbn [rt_limit rt_world] in Hl1, Hw1.
    assert (length queue1 = length rest) as Hlen.
    { apply Permutation_length in Hp. rewrite !results_length in Hp. cbn in Hp. lia. }
    destruct (IH rt1 queue1 I2) as (rt2 & rs2 & E2 & I3 & Hp2 & Hl2 & Hw2); try done; [lia| |lia|].
    { rewrite Hl1, Hl, Hlen. wrap_lia. }
    exists rt2, (t_res t1 :: rs2). split; [done|]. split; [done|].
    split; [by rewrite Hp2|]. split; [done|]. rewrite Hw2, Hw1. done.
Qed.

(** A multi-lookup completes, each task's callback having run exactly once, and
    leaves the scheduler empty, no frame allocated and the limit restored. *)
Lemma multi_spec fuel (n : nat) fs ks rs q a w :
  run_all fs ks rs -> sq_repr q [] -> fa_inv a ∅ ->
  (0 < n)%nat -> (n <= sq_capacity)%nat -> Z.of_nat n < 2 ^ 64 ->
  (sum_list ks < fuel)%nat ->
  exists rt rs',
    multi fuel (Z.of_nat n) fs q a w = Ret rt /\ rs' ≡ₚ rs /\
    rt_world rt = emits w rs' /\
    sq_repr (rt_sched rt) [] /\ fa_inv (rt_alloc rt) ∅ /\ rt_frames rt = ∅ /\
    rt_limit rt = Z.of_nat n.
Proof.
  intros Hruns Hq Ha H0n Hn Hmax Hf. unfold multi.
  assert (rt_inv (Runtime q a ∅ (Z.of_nat n) w) [] []) as I.
  { split; cbn [rt_sched rt_alloc rt_frames]; [done|by rewrite dom_empty_L|by rewrite dom_empty_L|by constructor|by constructor]. }
  destruct (spawn_all_spec fuel fs ks rs _ [] n Hruns I) as (rt1 & rs1 & q1 & E1 & I1 & Hp1 & Hq1 & Hs1 & Hl1 & Hw1);
    try done; [cbn; lia|cbn; lia|].
  rewrite E1. run_bind. cbn in Hs1.
  destruct (run_spec fuel rt1 q1 n I1) as (rt2 & rs2 & E2 & I2 & Hp2 & Hl2 & Hw2); try done; [lia|].
  rewrite E2. run_bind.
  destruct (run_spec fuel rt2 [] n I2) as (rt3 & rs3 & E3 & I3 & Hp3 & Hl3 & Hw3); try done;
    [cbn; lia|cbn; lia|cbn; lia|].
  apply Permutation_nil_r in Hp3. subst rs3.
  exists rt3, (rs1 ++ rs2). split; [done|]. cbn in Hp1.
  split; [by rewrite Hp2|]. split; [by rewrite emits_app, Hw3, Hw2, Hw1|].
  destruct I3 as [J1 J2 J3 _ _].
  assert (rt_frames rt3 = ∅) as Hfr by (apply dom_empty_inv_L; by rewrite J3).
  split; [done|]. split; [|done]. by rewrite Hfr, dom_empty_L in J2.
Qed.

Lemma spawn_all_app fuel fs1 fs2 rt :
  spawn_all fuel (fs1 ++ fs2) rt = (rt ← spawn_all fuel fs1 rt; spawn_all fuel fs2 rt).
Proof.
  revert rt. induction fs1 as [|f fs1 IH]; intros rt; [done|]. cbn [app spawn_all].
  destruct (create f rt) as [[p rt1]| | |]; try done. run_bind.
  destruct (spawn fuel p rt1); try done. run_bind. apply IH.
Qed.

(** While the limit lasts nothing is resumed: the new tasks are only queued. *)
Lemma spawn_all_fill fuel fs ks rs rt queue :
  run_all fs ks rs -> rt_inv rt [] queue ->
  (length queue + length fs <= sq_capacity)%nat ->
  Z.of_nat (length fs) <= rt_limit rt < 2 ^ 64 ->
  exists rt' queue',
    spawn_all fuel fs rt = Ret rt' /\ rt_inv rt' [] queue' /\
    length queue' = (length queue + length fs)%nat /\
    rt_limit rt' = rt_limit rt - Z.of_nat (length fs) /\ rt_world rt' = rt_world rt.
Proof.
  intros Hruns. revert rt queue.
  induction Hruns as [|f k r fs ks rs Hr Hruns IH]; intros rt queue I Hcap Hl.
  - exists rt, queue. cbn in *. split; [done|]. split; [done|]. split; [lia|]. split; [lia|done].
  - cbn [length] in *. destruct (create_spec rt queue f k r I Hr) as (rt1 & t & E1 & I1 & _ & _ & Hl1 & Hw1).
    cbn [spawn_all]. rewrite E1. run_bind. unfold spawn. rewrite decide_False by lia. run_bind.
    destruct (sq_schedule_spec _ _ (t_addr t) (inv_sched _ _ _ I1)) as (q & E & Rq).
    { unfold addrs. rewrite length_fmap. lia. }
    rewrite E. run_bind. rewrite <- addrs_snoc in Rq.
    destruct (IH (Runtime q rt1.(rt_alloc) rt1.(rt_frames) (u64 (rt1.(rt_limit) - 1)) rt1.(rt_world))
                (queue ++ [t])) as (rt' & queue' & -> & I' & Hlen & Hlim & Hw).
    + eapply rt_inv_ext; [| | |exact (rt_inv_enqueue _ _ _ _ _ I1 Rq)]; done.
    + rewrite length_app. cbn. lia.
    + cbn. rewrite Hl1. wrap_lia.
    + exists rt', queue'. split; [done|]. split; [done|]. rewrite length_app in Hlen. cbn in *.
      split; [lia|]. rewrite Hl1 in Hlim. rewrite u64_small in Hlim by lia. split; [lia|by rewrite Hw].
Qed.
End Runtime.
