(* ===== verification/Rng.v ===== *)
(** * Rng: applications/binary-search/rng.hpp

    The range of random numbers from which the driver and the benchmarks of the
    binary searches draw their lookups; the engine and the distribution of the
    standard library are a class. *)

From S2P Require Import Prelude.
Local Open Scope Z_scope.

Module Rng.

(** [std::mt19937_64] and [std::uniform_int_distribution<int>]: drawing a number
    changes the engine. *)
Class Engine (G : Type) := {
  seeded : Z -> G;
  distribution : Z -> Z -> G -> Z * G;
}.

Class EngineLaws (G : Type) `{Engine G} := {
  distribution_range from to g : from <= to -> from <= fst (distribution from to g) <= to;
}.

Section Rng.
Context `{Engine G}.

Record rng := MkRng { generator : G; from : Z; to : Z; count : Z }.

Definition rng_new (seed from to count_ : Z) : rng := MkRng (seeded seed) from to count_.

(** An iterator is its count; its owner is the [rng]. *)
Definition begin (r : rng) : Z := count r.
Definition end_ : Z := 0.
Definition ne (it rhs : Z) : bool := negb (rhs =? it).
Definition next (it : Z) : Z := u64 (it - 1).
Definition deref (r : rng) : Z * rng :=
  let '(x, g) := distribution (from r) (to r) (generator r) in (x, MkRng g (from r) (to r) (count r)).

(** [for (auto i : rng) v.push_back(i);] *)
Fixpoint draw (fuel : nat) (it : Z) (r : rng) (v : list Z) : outcome (list Z) :=
  match fuel with
  | O => Diverged
  | S fuel =>
    if ne it end_ then
      let '(i, r) := deref r in draw fuel (next it) r (v ++ [i])
    else Ret v
  end.
End Rng.

Lemma draw_S `{Engine G} fuel it (r : rng (G := G)) v :
  draw (S fuel) it r v =
  if ne it end_ then let '(i, r) := deref r in draw fuel (next it) r (v ++ [i]) else Ret v.
Proof. done. Qed.

(** The numbers that an engine gives, one call of the distribution after the
    other *)
Fixpoint numbers `{Engine G} (n : nat) (from to : Z) (g : G) : list Z :=
  match n with
  | O => []
  | S n => let '(x, g) := distribution from to g in x :: numbers n from to g
  end.

Lemma numbers_length `{Engine G} n from to (g : G) : length (numbers n from to g) = n.
Proof.
  revert g. induction n as [|n IH]; intros g; [done|]. cbn [numbers].
  destruct (distribution from to g) as [x g']. cbn [length]. by rewrite IH.
Qed.

Lemma numbers_range `{EngineLaws G} n from to (g : G) : from <= to -> Forall (fun x => from <= x <= to) (numbers n from to g).
Proof.
  intros Hr. revert g. induction n as [|n IH]; intros g; [done|]. cbn [numbers].
  pose proof (distribution_range from to g Hr) as Hx. destruct (distribution from to g) as [x g']. by constructor.
Qed.

(** The loop draws [count] numbers. *)
Lemma draw_spec `{Engine G} n : forall (r : rng (G := G)) v,
  Z.of_nat n < 2 ^ 64 -> draw (S n) (Z.of_nat n) r v = Ret (v ++ numbers n (from r) (to r) (generator r)).
Proof.
  induction n as [|n IH]; intros r v Hn; rewrite draw_S; unfold ne, end_.
  - by rewrite app_nil_r.
  - destruct (Z.eqb_spec 0 (Z.of_nat (S n))); [lia|]. cbn [negb numbers]. unfold deref.
    destruct (distribution (from r) (to r) (generator r)) as [x g]. unfold next. rewrite u64_small by lia.
    replace (Z.of_nat (S n) - 1) with (Z.of_nat n) by lia. rewrite IH by lia. by rewrite <- app_assoc.
Qed.
End Rng.
