(* ===== verification/BinarySearch.v ===== *)
(** * BinarySearch: applications/binary-search

    The three binary searches over a sorted vector of ints (vanilla.hpp,
    state_machine.hpp, coroutine.hpp) and the multi-lookups built from the last
    two. Iterators and element pointers are indices into the dataset; every
    access is bounds-checked. *)

From S2P Require Import Prelude Schedulers Allocators Interleave.
Local Open Scope Z_scope.

(** ** One probe of the search, shared by the three programs *)

(** [val] occurs in [data] at an index in [first, first + len). *)
Definition in_range (data : list Z) (val first len : Z) : Prop :=
  exists i, first <= i < first + len /\ data !! Z.to_nat i = Some val.

(** The part of [data] still searched: within bounds, and containing [val]
    exactly when the whole vector does. *)
Record searching (data : list Z) (val first len : Z) : Prop := {
  se_bounds : 0 <= first /\ 0 <= len /\ first + len <= Z.of_nat (length data);
  se_range : val ∈ data <-> in_range data val first len;
}.

Lemma searching_all data val : searching data val 0 (Z.of_nat (length data)).
Proof.
  split; [lia|]. rewrite list_elem_of_lookup. split.
  - intros [i Hi]. exists (Z.of_nat i). rewrite Nat2Z.id. split; [|done].
    apply lookup_lt_Some in Hi. lia.
  - intros (i & _ & Hi). eauto.
Qed.

Lemma searching_empty data val first : searching data val first 0 -> val ∉ data.
Proof. intros [_ H]. rewrite H. intros (i & Hi & _). lia. Qed.

(** A probe of the middle element. *)
Lemma searching_probe data val first len :
  Sorted Z.le data -> searching data val first len -> 0 < len ->
  exists x,
    array_get data (first + len / 2) = Ret x /\
    (x = val -> val ∈ data) /\
    (x < val -> searching data val (first + len / 2 + 1) (len - len / 2 - 1)) /\
    (val < x -> searching data val first (len / 2)).
Proof.
  intros S [B Hr] Hlen. set (m := first + len / 2).
  assert (0 <= len / 2 < len) as Hhalf.
  { split; [apply Z.div_pos; lia|apply Z.div_lt; lia]. }
  destruct (array_get_lt data m) as (x & Ex & Eg); [lia|].
  exists x. split; [done|]. split; [|split].
  - intros <-. eauto with coro.
  - intros Hx. split; [lia|]. rewrite Hr. split; intros (i & Hi & E); exists i; (split; [|done]); [|lia].
    destruct (Z.le_gt_cases i m) as [Hle|]; [|lia].
    assert (Z.to_nat i <= Z.to_nat m)%nat as Hn by lia.
    pose proof (sorted_lookup_le _ _ _ _ _ S Hn E Ex). lia.
  - intros Hx. split; [lia|]. rewrite Hr. split; intros (i & Hi & E); exists i; (split; [|done]); [|lia].
    destruct (Z.le_gt_cases m i) as [Hle|]; [|lia].
    assert (Z.to_nat m <= Z.to_nat i)%nat as Hn by lia.
    pose proof (sorted_lookup_le _ _ _ _ _ S Hn Ex E). lia.
Qed.

(** ** vanilla.hpp *)

Module Vanilla.

(** The [while (len > 0)] loop. *)
Fixpoint loop (fuel : nat) (data : list Z) (first len val : Z) : outcome bool :=
  match fuel with
  | O => Diverged
  | S fuel =>
    if 0 <? len then
      let half := len / 2 in
      let middle := first + half in
      middle_key ← array_get data middle;
      let '(first, len) :=
        if middle_key <? val then (middle + 1, len - half - 1) else (first, half) in
      if middle_key =? val then Ret true else loop fuel data first len val
    else Ret false
  end.

Definition vanilla_binary_search (data : list Z) (first last val : Z) : outcome bool :=
  let len := last - first in
  loop (S (Z.to_nat len)) data first len val.

(** [test_vanilla] of manual.cpp: the number of lookups that succeed. *)
Fixpoint test_vanilla (data lookups : list Z) (found : Z) : outcome Z :=
  match lookups with
  | [] => Ret found
  | key :: lookups =>
    b ← vanilla_binary_search data 0 (Z.of_nat (length data)) key;
    test_vanilla data lookups (if (b : bool) then u64 (found + 1) else found)
  end.

Lemma loop_spec data val : Sorted Z.le data -> forall fuel first len,
  searching data val first len -> len < Z.of_nat fuel ->
  loop fuel data first len val = Ret (bool_decide (val ∈ data)).
Proof.
  intros S fuel. induction fuel as [|fuel IH]; intros first len Hs Hf.
  { pose proof (se_bounds _ _ _ _ Hs). lia. }
  cbn [loop]. destruct (Z.ltb_spec 0 len) as [Hlen|Hlen].
  - destruct (searching_probe _ _ _ _ S Hs Hlen) as (x & Ex & Heq & Hlt & Hgt).
    rewrite Ex. run_bind.
    assert (0 <= len / 2 < len) by (split; [apply Z.div_pos; lia|apply Z.div_lt; lia]).
    destruct (Z.ltb_spec x val), (Z.eqb_spec x val); try lia.
    + apply IH; [by apply Hlt|lia].
    + rewrite bool_decide_eq_true_2; [done|]. by apply Heq.
    + apply IH; [apply Hgt; lia|lia].
  - pose proof (se_bounds _ _ _ _ Hs). assert (len = 0) as -> by lia.
    apply searching_empty in Hs. by rewrite bool_decide_eq_false_2.
Qed.

Lemma vanilla_spec data val :
  Sorted Z.le data ->
  vanilla_binary_search data 0 (Z.of_nat (length data)) val = Ret (bool_decide (val ∈ data)).
Proof.
  intros S. unfold vanilla_binary_search. rewrite Z.sub_0_r.
  apply loop_spec; [done|apply searching_all|lia].
Qed.

Lemma test_vanilla_spec data lookups (found : Z) :
  Sorted Z.le data -> 0 <= found -> found + Z.of_nat (length lookups) < 2 ^ 64 ->
  test_vanilla data lookups found =
  Ret (found + Z.of_nat (count_if (fun key => bool_decide (key ∈ data)) lookups)).
Proof.
  intros S. revert found. induction lookups as [|key lookups IH]; intros found H0 Hmax.
  { cbn. f_equal. lia. }
  cbn [test_vanilla]. rewrite vanilla_spec by done. run_bind. cbn [length] in Hmax.
  rewrite count_if_cons.
  case_bool_decide; rewrite IH; wrap_lia; f_equal; lia.
Qed.
End Vanilla.

(** ** state_machine.hpp *)

Module StateMachine.

Inductive State := KEEP_GOING | FOUND | NOT_FOUND | EMPTY.

#[export] Instance State_eq_dec : EqDecision State.
Proof. solve_decision. Defined.

Record Frame := MkFrame {
  first : Z;
  last : Z;
  middle : Z;
  len : Z;
  half : Z;
  val : Z;
  state : State;
}.

(** [Frame f{}]: zeroed, with the default member initialiser of [state]. *)
Definition zero_frame : Frame := MkFrame 0 0 0 0 0 0 EMPTY.

Definition init (first_ last_ key_ : Z) (f : Frame) : Frame :=
  let len := u64 (last_ - first_) in
  if len =? 0 then MkFrame first_ last_ f.(middle) len f.(half) key_ NOT_FOUND
  else
    let half := len / 2 in
    MkFrame first_ last_ (first_ + half) len half key_ KEEP_GOING.

Definition run (data : list Z) (f : Frame) : outcome (bool * Frame) :=
  x ← array_get data f.(middle);
  let '(first, len) :=
    if x <? f.(val) then (f.(middle) + 1, u64 (f.(len) - f.(half) - 1))
    else (f.(first), f.(half)) in
  if x =? f.(val) then
    Ret (true, MkFrame first f.(last) f.(middle) len f.(half) f.(val) FOUND)
  else if 0 <? len then
    let half := len / 2 in
    Ret (false, MkFrame first f.(last) (first + half) len half f.(val) f.(state))
  else
    Ret (true, MkFrame first f.(last) f.(middle) len f.(half) f.(val) NOT_FOUND).

(** [while (Frame::KEEP_GOING == f.state) f.run();] *)
Fixpoint run_loop (fuel : nat) (data : list Z) (f : Frame) : outcome Frame :=
  match fuel with
  | O => Diverged
  | S fuel =>
    if decide (KEEP_GOING = f.(state)) then
      '(_, f) ← run data f;
      run_loop fuel data f
    else Ret f
  end.

Definition state_machine_binary_search (data : list Z) (first last key : Z) : outcome bool :=
  let f := init first last key zero_frame in
  f ← run_loop (S (S (Z.to_nat (last - first)))) data f;
  Ret (bool_decide (FOUND = f.(state))).

(** [i = (0 == i) ? N : i - 1] *)
Definition next_stream (N i : Z) : Z := if i =? 0 then N else u64 (i - 1).

(** [if (Frame::State::FOUND == frame->state) ++result;] *)
Definition count_found (f : Frame) (result : Z) : Z :=
  if decide (FOUND = f.(state)) then u64 (result + 1) else result.

(** The inner [for (;;)]: switch between active frames until one completes,
    then start the next lookup on it. *)
Fixpoint switch (fuel : nat) (data : list Z) (beg end_ key N : Z)
    (frames : list Frame) (i result : Z) : outcome (list Frame * Z * Z) :=
  match fuel with
  | O => Diverged
  | S fuel =>
    frame ← array_get frames i;
    '(complete, frame) ← run data frame;
    if (complete : bool) then
      frames ← array_set frames i (init beg end_ key frame);
      Ret (frames, next_stream N i, count_found frame result)
    else
      frames ← array_set frames i frame;
      switch fuel data beg end_ key N frames (next_stream N i) result
  end.

(** The loop over the lookups. *)
Fixpoint feed (fuel : nat) (data : list Z) (beg end_ N : Z) (lookups : list Z)
    (frames : list Frame) (i result : Z) : outcome (list Frame * Z) :=
  match lookups with
  | [] => Ret (frames, result)
  | key :: lookups =>
    frame ← array_get frames i;
    if decide (KEEP_GOING <> frame.(state)) then
      frames ← array_set frames i (init beg end_ key frame);
      feed fuel data beg end_ N lookups frames (next_stream N i) result
    else
      '(frames, i, result) ← switch fuel data beg end_ key N frames i result;
      feed fuel data beg end_ N lookups frames i result
  end.

(** One round of the final loop over the frames: whether there was work left,
    the frames after the round and the updated count. *)
Fixpoint round (data : list Z) (frames : list Frame) (result : Z)
    : outcome (bool * list Frame * Z) :=
  match frames with
  | [] => Ret (false, [], result)
  | frame :: frames =>
    if decide (KEEP_GOING = frame.(state)) then
      '(complete, frame) ← run data frame;
      let result := if (complete : bool) then count_found frame result else result in
      '(_, frames, result) ← round data frames result;
      Ret (true, frame :: frames, result)
    else
      '(more_work, frames, result) ← round data frames result;
      Ret (more_work, frame :: frames, result)
  end.

(** [do ... while (more_work);] *)
Fixpoint finish (fuel : nat) (data : list Z) (frames : list Frame) (result : Z) : outcome Z :=
  match fuel with
  | O => Diverged
  | S fuel =>
    '(more_work, frames, result) ← round data frames result;
    if (more_work : bool) then finish fuel data frames result else Ret result
  end.

Definition state_machine_multi_lookup (fuel : nat) (dataset lookups : list Z) (n_streams : Z)
    : outcome Z :=
  let frames := replicate (Z.to_nat n_streams) zero_frame in
  let N := u64 (n_streams - 1) in
  _ ← array_get dataset 0; (* &dataset[0] *)
  let beg := 0 in
  let end_ := beg + Z.of_nat (length dataset) in
  '(frames, result) ← feed fuel dataset beg end_ N lookups frames N 0;
  finish fuel dataset frames result.

(** *** Correctness *)

Section Correct.
Context (data : list Z).
Context (S : Sorted Z.le data) (Hsize : Z.of_nat (length data) < 2 ^ 64).

Definition mem (key : Z) : bool := bool_decide (key ∈ data).

(** A frame with a query in progress. *)
Record active (f : Frame) : Prop := {
  ac_state : state f = KEEP_GOING;
  ac_searching : searching data (val f) (first f) (len f);
  ac_len : 0 < len f;
  ac_half : half f = len f / 2;
  ac_middle : middle f = first f + half f;
}.

Definition frame_ok (f : Frame) : Prop := state f = KEEP_GOING -> active f.

(** The successful lookups still pending on a frame. *)
Definition pending (f : Frame) : nat :=
  if decide (KEEP_GOING = state f) then (if mem (val f) then 1 else 0)%nat else 0%nat.

(** The number of [run] calls a frame can still need. *)
Definition weight (f : Frame) : nat :=
  if decide (KEEP_GOING = state f) then Datatypes.S (Z.to_nat (len f)) else 0%nat.

Lemma active_weight f : active f -> (0 < weight f <= Datatypes.S (length data))%nat.
Proof.
  intros [E Hs Hl _ _]. unfold weight. rewrite decide_True by done.
  pose proof (se_bounds _ _ _ _ Hs). lia.
Qed.

Lemma active_pending f : active f -> pending f = if mem (val f) then 1%nat else 0%nat.
Proof. intros [E _ _ _ _]. unfold pending. by rewrite decide_True. Qed.

Lemma idle_pending f : state f <> KEEP_GOING -> pending f = 0%nat.
Proof. intros E. unfold pending. by rewrite decide_False by congruence. Qed.

Lemma idle_weight f : state f <> KEEP_GOING -> weight f = 0%nat.
Proof. intros E. unfold weight. by rewrite decide_False by congruence. Qed.

Lemma init_active f key : data <> [] -> active (init 0 (Z.of_nat (length data)) key f).
Proof.
  intros Hne. apply (not_iff_compat (length_zero_iff_nil data)) in Hne.
  unfold init. rewrite Z.sub_0_r, u64_small by lia.
  destruct (Z.eqb_spec (Z.of_nat (length data)) 0); [lia|].
  split; cbn [state val first len half middle];
    [done|apply searching_all|lia|done|done].
Qed.

Lemma init_val f first_ last_ key : val (init first_ last_ key f) = key.
Proof. unfold init. by case_match. Qed.

Lemma run_active f :
  active f ->
  exists b f', run data f = Ret (b, f') /\ val f' = val f /\
    if b then state f' = (if mem (val f) then FOUND else NOT_FOUND)
    else active f' /\ (weight f' < weight f)%nat.
Proof.
  intros [Est Hs Hl Hh Hm]. unfold run.
  pose proof (se_bounds _ _ _ _ Hs) as HB.
  destruct (searching_probe _ _ _ _ S Hs Hl) as (x & Ex & Heq & Hlt & Hgt).
  rewrite Hm, Hh, Ex. run_bind.
  assert (0 <= len f / 2 < len f) by (split; [apply Z.div_pos; lia|apply Z.div_lt; lia]).
  assert (Hmem : forall l fi, searching data (val f) fi l -> l <= 0 -> mem (val f) = false).
  { intros l fi Hs' Hl'. pose proof (se_bounds _ _ _ _ Hs'). assert (l = 0) as -> by lia.
    apply searching_empty in Hs'. by apply bool_decide_eq_false_2. }
  destruct (Z.ltb_spec x (val f)) as [Hx|Hx], (Z.eqb_spec x (val f)) as [He|He]; try lia.
  - specialize (Hlt Hx). rewrite u64_small by lia.
    destruct (Z.ltb_spec 0 (len f - len f / 2 - 1)) as [Hp|Hp].
    + eexists false, _. split; [done|]. split; [done|]. split.
      * split; cbn; done.
      * unfold weight. cbn [state len]. rewrite !decide_True by done. lia.
    + eexists true, _. split; [done|]. split; [done|]. cbn [state].
      by rewrite (Hmem _ _ Hlt Hp).
  - eexists true, _. split; [done|]. split; [done|]. cbn [state].
    unfold mem. rewrite bool_decide_eq_true_2; [done|]. by apply Heq.
  - specialize (Hgt ltac:(lia)).
    destruct (Z.ltb_spec 0 (len f / 2)) as [Hp|Hp].
    + eexists false, _. split; [done|]. split; [done|]. split.
      * split; cbn; done.
      * unfold weight. cbn [state len]. rewrite !decide_True by done. lia.
    + eexists true, _. split; [done|]. split; [done|]. cbn [state].
      by rewrite (Hmem _ _ Hgt Hp).
Qed.

Lemma run_loop_spec fuel f :
  active f -> (weight f < fuel)%nat ->
  exists f', run_loop fuel data f = Ret f' /\ bool_decide (FOUND = state f') = mem (val f).
Proof.
  revert f. induction fuel as [|fuel IH]; intros f Ha Hw; [lia|].
  cbn [run_loop]. rewrite decide_True by (by rewrite (ac_state _ Ha)).
  destruct (run_active f Ha) as (b & f' & E & Ev & Hb). rewrite E. run_bind.
  destruct b.
  - destruct fuel; [pose proof (active_weight _ Ha); lia|]. cbn [run_loop].
    rewrite decide_False by (rewrite Hb; by destruct (mem _)).
    exists f'. split; [done|]. rewrite Hb. by destruct (mem _).
  - destruct Hb as [Ha' Hw']. rewrite <- Ev. apply IH; [done|lia].
Qed.
Definition tot (frames : list Frame) : nat := sum_list_with pending frames.
Definition wts (frames : list Frame) : nat := sum_list_with weight frames.
Definition memn (key : Z) : nat := if mem key then 1%nat else 0%nat.

Lemma count_found_spec f key result :
  state f = (if mem key then FOUND else NOT_FOUND) -> 0 <= result -> result + 1 < 2 ^ 64 ->
  count_found f result = result + Z.of_nat (memn key).
Proof.
  intros E H0 H1. unfold count_found, memn. rewrite E.
  destruct (mem key); case_decide; try congruence; wrap_lia.
Qed.

Lemma next_stream_range N i : 0 <= i <= N -> N < 2 ^ 64 -> 0 <= next_stream N i <= N.
Proof. intros. unfold next_stream. destruct (Z.eqb_spec i 0); wrap_lia. Qed.

(** Replacing the frame at [i]. *)
Lemma frame_update frames i f f' :
  0 <= i -> frames !! Z.to_nat i = Some f ->
  array_set frames i f' = Ret (<[Z.to_nat i := f']> frames) /\
  (tot (<[Z.to_nat i := f']> frames) + pending f = tot frames + pending f')%nat /\
  (wts (<[Z.to_nat i := f']> frames) + weight f = wts frames + weight f')%nat.
Proof.
  intros Hi E. pose proof (lookup_lt_Some _ _ _ E). split; [|split].
  - apply array_set_lt. lia.
  - by apply sum_list_with_insert.
  - by apply sum_list_with_insert.
Qed.

Lemma wts_active frames :
  Forall active frames -> (wts frames <= length frames * Datatypes.S (length data))%nat.
Proof.
  induction 1 as [|f frames Hf _ IH]; cbn; [lia|]. pose proof (active_weight _ Hf).
  unfold wts in IH. lia.
Qed.

Lemma switch_spec key N fuel : forall frames i result,
  data <> [] -> Forall active frames -> Z.of_nat (length frames) = N + 1 -> N < 2 ^ 64 ->
  0 <= i <= N -> 0 <= result -> result + Z.of_nat (tot frames) + 1 < 2 ^ 64 ->
  (wts frames < fuel)%nat ->
  exists frames' i' result',
    switch fuel data 0 (Z.of_nat (length data)) key N frames i result = Ret (frames', i', result') /\
    Forall active frames' /\ length frames' = length frames /\ 0 <= i' <= N /\ result <= result' /\
    result' + Z.of_nat (tot frames') = result + Z.of_nat (tot frames) + Z.of_nat (memn key).
Proof.
  induction fuel as [|fuel IH]; intros frames i result Hne Ha Hlen HN Hi H0 Hmax Hf; [lia|].
  cbn [switch]. destruct (array_get_lt frames i) as (f & Ef & Eg); [lia|].
  rewrite Eg. run_bind.
  assert (active f) as Hfa by (by eapply Forall_lookup_1).
  destruct (run_active f Hfa) as (b & f' & E & Ev & Hb). rewrite E. run_bind.
  pose proof (active_pending _ Hfa) as Hp. fold (memn (val f)) in Hp.
  pose proof (sum_list_with_lookup_le pending _ _ _ Ef) as Hple. fold (tot frames) in Hple.
  destruct b.
  - set (f1 := init 0 (Z.of_nat (length data)) key f').
    assert (active f1) as Hf1 by (by apply init_active).
    destruct (frame_update frames i f f1) as (Es & Et & _); [lia|done|].
    rewrite Es. run_bind. eexists _, _, _. split; [done|].
    pose proof (active_pending _ Hf1) as Hp1. fold (memn (val f1)) in Hp1.
    unfold f1 in Hp1 at 2. rewrite init_val in Hp1.
    assert (memn (val f) <= 1)%nat by (unfold memn; destruct (mem _); lia).
    rewrite (count_found_spec f' (val f)) by (done || lia).
    split; [by apply Forall_insert|]. split; [by rewrite length_insert|].
    split; [by apply next_stream_range|]. split; lia.
  - destruct Hb as [Hf' Hw].
    destruct (frame_update frames i f f') as (Es & Et & Ew); [lia|done|].
    pose proof (active_pending _ Hf') as Hp1. rewrite Ev in Hp1. fold (memn (val f)) in Hp1.
    rewrite Es. run_bind.
    destruct (IH (<[Z.to_nat i := f']> frames) (next_stream N i) result)
      as (frames' & i' & result' & E' & H1 & H2 & H3 & H4 & H5); try done.
    + by apply Forall_insert.
    + by rewrite length_insert.
    + by apply next_stream_range.
    + lia.
    + lia.
    + rewrite E'. eexists _, _, _. split; [done|]. split; [done|].
      split; [by rewrite H2, length_insert|]. split; [done|]. split; [done|]. lia.
Qed.

(** The frames while lookups are being fed: all busy, or the ones from [i]
    down still empty and the others busy. *)
Definition feeding (frames : list Frame) (i : Z) : Prop :=
  Forall active frames \/
  forall j f, frames !! j = Some f -> if decide (Z.of_nat j <= i) then state f = EMPTY else active f.

Lemma feeding_init N frames i f f' :
  feeding frames i -> 0 <= i <= N -> Z.of_nat (length frames) = N + 1 -> N < 2 ^ 64 ->
  frames !! Z.to_nat i = Some f -> state f <> KEEP_GOING -> active f' ->
  feeding (<[Z.to_nat i := f']> frames) (next_stream N i).
Proof.
  intros [Ha|Hph] Hi Hlen HN Ef Hst Hf'.
  - exfalso. apply Hst. pose proof (Forall_lookup_1 _ _ _ _ Ha Ef) as [E _ _ _ _]. done.
  - unfold next_stream. destruct (Z.eqb_spec i 0) as [->|Hne].
    + left. apply Forall_lookup_2. intros j g Hj.
      apply list_lookup_insert_Some in Hj as [(<- & <- & _)|[Hne Hj]]; [done|].
      specialize (Hph j g Hj). by rewrite decide_False in Hph by lia.
    + right. intros j g Hj. rewrite u64_small by lia.
      apply list_lookup_insert_Some in Hj as [(<- & <- & _)|[Hne' Hj]].
      * by rewrite decide_False by lia.
      * specialize (Hph j g Hj). repeat case_decide; [done|lia|lia|done].
Qed.

Lemma feeding_busy frames i f :
  feeding frames i -> 0 <= i -> frames !! Z.to_nat i = Some f -> state f = KEEP_GOING ->
  Forall active frames.
Proof.
  intros [Ha|Hph] Hi Ef Hst; [done|]. specialize (Hph _ _ Ef).
  rewrite decide_True in Hph by lia. congruence.
Qed.

Lemma feeding_ok frames i : feeding frames i -> Forall frame_ok frames.
Proof.
  intros [Ha|Hph].
  - eapply Forall_impl; [exact Ha|]. by intros f Hf _.
  - apply Forall_lookup_2. intros j f Hj Hst. specialize (Hph _ _ Hj).
    case_decide; [congruence|done].
Qed.

Lemma feed_spec N fuel lookups : forall frames i result,
  data <> [] -> feeding frames i -> Z.of_nat (length frames) = N + 1 -> N < 2 ^ 64 ->
  0 <= i <= N -> 0 <= result ->
  result + Z.of_nat (tot frames) + Z.of_nat (length lookups) < 2 ^ 64 ->
  (length frames * Datatypes.S (length data) < fuel)%nat ->
  exists frames' result',
    feed fuel data 0 (Z.of_nat (length data)) N lookups frames i result = Ret (frames', result') /\
    Forall frame_ok frames' /\ length frames' = length frames /\ 0 <= result' /\
    result' + Z.of_nat (tot frames') =
      result + Z.of_nat (tot frames) + Z.of_nat (count_if mem lookups).
Proof.
  induction lookups as [|key lookups IH]; intros frames i result Hne Hph Hlen HN Hi H0 Hmax Hf.
  { exists frames, result. split; [done|]. split; [by eapply feeding_ok|]. cbn. split; [done|lia]. }
  cbn [feed length] in *. destruct (array_get_lt frames i) as (f & Ef & Eg); [lia|].
  rewrite Eg, count_if_cons. run_bind. fold (memn key).
  assert (memn key <= 1)%nat by (unfold memn; destruct (mem _); lia).
  destruct (decide (KEEP_GOING ≠ state f)) as [Hst|Hst].
  - set (f1 := init 0 (Z.of_nat (length data)) key f).
    assert (active f1) as Hf1 by (by apply init_active).
    destruct (frame_update frames i f f1) as (Es & Et & _); [lia|done|].
    rewrite (idle_pending f), (active_pending f1) in Et by done.
    unfold f1 in Et at 2. rewrite init_val in Et. fold (memn key) in Et.
    rewrite Es. run_bind.
    destruct (IH (<[Z.to_nat i := f1]> frames) (next_stream N i) result)
      as (frames' & result' & E' & H1 & H2 & H3 & H4); try done.
    + by eapply feeding_init.
    + by rewrite length_insert.
    + by apply next_stream_range.
    + lia.
    + by rewrite length_insert.
    + rewrite E'. eexists _, _. split; [done|]. split; [done|].
      split; [by rewrite H2, length_insert|]. split; [done|]. lia.
  - apply dec_stable in Hst. pose proof (feeding_busy _ _ _ Hph (proj1 Hi) Ef (eq_sym Hst)) as Ha.
    destruct (switch_spec key N fuel frames i result)
      as (frames1 & i1 & r1 & E1 & Ha1 & Hl1 & Hi1 & Hr1 & Ht1); try done; [lia| |].
    { pose proof (wts_active _ Ha). lia. }
    rewrite E1. run_bind.
    destruct (IH frames1 i1 r1) as (frames' & result' & E' & H1 & H2 & H3 & H4); try done.
    + by left.
    + by rewrite Hl1.
    + lia.
    + lia.
    + by rewrite Hl1.
    + rewrite E'. eexists _, _. split; [done|]. split; [done|].
      split; [by rewrite H2, Hl1|]. split; [done|]. lia.
Qed.

Lemma round_spec frames : forall result,
  Forall frame_ok frames -> 0 <= result ->
  result + Z.of_nat (tot frames) + 1 < 2 ^ 64 ->
  exists more frames' result',
    round data frames result = Ret (more, frames', result') /\
    Forall frame_ok frames' /\ result <= result' /\
    result' + Z.of_nat (tot frames') = result + Z.of_nat (tot frames) /\
    (wts frames' <= wts frames)%nat /\
    (if more then (wts frames' < wts frames)%nat else tot frames' = 0%nat).
Proof.
  induction frames as [|f frames IH]; intros result Hok H0 Hmax.
  { exists false, [], result. split; [done|]. split; [done|]. cbn. split; [lia|]. auto. }
  apply Forall_cons in Hok as [Hf Hok]. cbn [round]. unfold tot, wts in *. cbn in Hmax |- *.
  destruct (decide (KEEP_GOING = state f)) as [Hst|Hst].
  - pose proof (Hf (eq_sym Hst)) as Ha.
    destruct (run_active f Ha) as (b & f' & E & Ev & Hb). rewrite E. run_bind.
    pose proof (active_pending _ Ha) as Hp. fold (memn (val f)) in Hp.
    pose proof (active_weight _ Ha) as Hw.
    assert (memn (val f) <= 1)%nat by (unfold memn; destruct (mem _); lia).
    assert (exists r1, (if b then count_found f' result else result) = r1 /\
              r1 + Z.of_nat (pending f') = result + Z.of_nat (pending f) /\ result <= r1 /\
              frame_ok f' /\ (weight f' < weight f)%nat) as (r1 & -> & Hr1 & Hle & Hok' & Hw').
    { destruct b; eexists; (split; [done|]).
      - rewrite (count_found_spec f' (val f)) by (done || lia).
        assert (state f' <> KEEP_GOING) as Hi by (rewrite Hb; by destruct (mem _)).
        rewrite (idle_pending f'), (idle_weight f') by done.
        split; [lia|]. split; [lia|]. split; [by intros ?|lia].
      - destruct Hb as [Ha' Hlt]. rewrite (active_pending f'), Ev by done. fold (memn (val f)).
        split; [lia|]. split; [lia|]. split; [by intros ?|lia]. }
    destruct (IH r1) as (more & frames' & r2 & E2 & H1 & H2 & H3 & H4 & _); [done|lia|lia|].
    rewrite E2. run_bind. eexists true, (f' :: frames'), r2. cbn.
    split; [done|]. split; [by constructor|]. lia.
  - rewrite (idle_pending f), (idle_weight f) in * by congruence.
    destruct (IH result) as (more & frames' & r2 & E2 & H1 & H2 & H3 & H4 & H5); [done|lia|lia|].
    rewrite E2. run_bind. eexists more, (f :: frames'), r2. cbn.
    rewrite (idle_pending f), (idle_weight f) by congruence.
    split; [done|]. split; [by constructor|]. destruct more; lia.
Qed.

Lemma finish_spec fuel : forall frames result,
  Forall frame_ok frames -> 0 <= result ->
  result + Z.of_nat (tot frames) + 1 < 2 ^ 64 -> (wts frames < fuel)%nat ->
  finish fuel data frames result = Ret (result + Z.of_nat (tot frames)).
Proof.
  induction fuel as [|fuel IH]; intros frames result Hok H0 Hmax Hf; [lia|].
  cbn [finish].
  destruct (round_spec frames result) as (more & frames' & r & E & H1 & H2 & H3 & H4 & H5); try done.
  rewrite E. run_bind. destruct more.
  - rewrite IH by (done || lia). f_equal. lia.
  - f_equal. lia.
Qed.

Lemma wts_ok frames :
  Forall frame_ok frames -> (wts frames <= length frames * Datatypes.S (length data))%nat.
Proof.
  induction 1 as [|f frames Hf _ IH]; cbn; [lia|]. unfold wts in IH.
  destruct (decide (KEEP_GOING = state f)) as [E|E].
  - pose proof (active_weight _ (Hf (eq_sym E))). lia.
  - rewrite idle_weight by congruence. lia.
Qed.

Lemma multi_lookup_spec fuel lookups n_streams :
  data <> [] -> 0 < n_streams < 2 ^ 64 -> Z.of_nat (length lookups) + 1 < 2 ^ 64 ->
  (Z.to_nat n_streams * Datatypes.S (length data) < fuel)%nat ->
  state_machine_multi_lookup fuel data lookups n_streams =
  Ret (Z.of_nat (count_if mem lookups)).
Proof.
  intros Hne Hn Hmax Hf. unfold state_machine_multi_lookup.
  set (frames := replicate (Z.to_nat n_streams) zero_frame).
  assert (length frames = Z.to_nat n_streams) as Hlen by apply length_replicate.
  destruct (array_get_lt data 0) as (d & _ & Ed).
  { assert (length data <> 0%nat) by (intros ?%nil_length_inv; done). lia. }
  rewrite Ed. run_bind. rewrite Z.add_0_l, (u64_small (n_streams - 1)) by lia.
  assert (tot frames = 0%nat) as Ht.
  { unfold tot, frames. clear. induction (Z.to_nat n_streams) as [|k IH]; [done|exact IH]. }
  destruct (feed_spec (n_streams - 1) fuel lookups frames (n_streams - 1) 0)
    as (frames' & r & E & H1 & H2 & H3 & H4); try done; try lia.
  { right. intros j f Hj. apply lookup_replicate in Hj as [-> Hj]. by rewrite decide_True by lia. }
  rewrite E. run_bind. pose proof (count_if_le mem lookups).
  rewrite finish_spec; [f_equal; lia|done|done|lia|].
  pose proof (wts_ok _ H1). lia.
Qed.
End Correct.
End StateMachine.

(** ** coroutine.hpp on top of coro_infra.hpp *)

Module Coro.
Import SchedulerQueue TcAlloc.

(** The frame of [coro_binary_search]: before its first resumption, or
    suspended at the [co_await] of the prefetch of the middle element. *)
Inductive frame :=
| Start (first last key : Z)
| Probe (first len half middle key : Z).

(** From the head of the [while (len > 0)] loop to the next suspension, or to
    [on_not_found()]. *)
Definition loop_head (first len key : Z) : frame + bool :=
  if 0 <? len then
    let half := len / 2 in
    let middle := first + half in
    inl (Probe first len half middle key)
  else inr false.

(** One resumption; completion with [true] calls [on_found]. *)
Definition coro_binary_search (data : list Z) (f : frame) : outcome (frame + bool) :=
  match f with
  | Start first last key => Ret (loop_head first (last - first) key)
  | Probe first len half middle key =>
    x ← array_get data middle;
    let '(first, len) :=
      if x <? key then (middle + 1, len - half - 1) else (first, half) in
    if x =? key then Ret (inr true) else Ret (loop_head first len key)
  end.

(** The counters [found_count] and [not_found_count]. *)
Abbreviation counters := (Z * Z)%type.

Definition on_found (c : counters) : counters := (u64 (c.1 + 1), c.2).
Definition on_not_found (c : counters) : counters := (c.1, u64 (c.2 + 1)).
Definition callback (found : bool) (c : counters) : counters :=
  if found then on_found c else on_not_found c.

(** The objects with static storage duration. *)
Record globals := Globals {
  scheduler : scheduler_queue;
  allocator : tcalloc;
  found_counts : counters;
}.

Definition init_globals : globals := Globals SchedulerQueue.init TcAlloc.init (0, 0).

Section Run.
Context `{Malloc} (frame_size : Z).

Definition coro_multi_lookup (fuel : nat) (dataset lookups : list Z) (n_streams : Z) (g : globals)
    : outcome (Z * globals) :=
  let tasks := (fun key => Start 0 (Z.of_nat (length dataset)) key) <$> lookups in
  rt ← multi (coro_binary_search dataset) callback frame_size fuel n_streams tasks
         g.(scheduler) g.(allocator) g.(found_counts);
  let '(found, not_found) := rt_world rt in
  if decide (u64 (found + not_found) = Z.of_nat (length lookups)) then
    Ret (found, Globals (rt_sched rt) (rt_alloc rt) (0, 0))
  else Fault AssertionFailed.

(** *** Correctness *)

Lemma loop_head_runs data first len key :
  Sorted Z.le data -> searching data key first len ->
  (exists f, loop_head first len key = inl f /\
     exists k, runs (coro_binary_search data) f k (bool_decide (key ∈ data)) /\ (k <= Z.to_nat len)%nat)
  \/ loop_head first len key = inr (bool_decide (key ∈ data)).
Proof.
  intros S. remember (Z.to_nat len) as n eqn:En. revert first len En.
  induction n as [n IH] using lt_wf_ind. intros first len -> Hs. unfold loop_head.
  destruct (Z.ltb_spec 0 len) as [Hlen|Hlen].
  2: { right. pose proof (se_bounds _ _ _ _ Hs). assert (len = 0) as -> by lia.
       apply searching_empty in Hs. by rewrite bool_decide_eq_false_2. }
  left. eexists. split; [done|].
  destruct (searching_probe _ _ _ _ S Hs Hlen) as (x & Ex & Heq & Hlt & Hgt).
  assert (0 <= len / 2 < len) by (split; [apply Z.div_pos; lia|apply Z.div_lt; lia]).
  destruct (decide (x = key)) as [->|Hne].
  { exists 1%nat. split; [|lia]. apply runs_done. cbn. rewrite Ex. run_bind.
    rewrite Z.eqb_refl, bool_decide_eq_true_2 by auto. by case_match. }
  assert (exists first' len', searching data key first' len' /\ (Z.to_nat len' < Z.to_nat len)%nat /\
            coro_binary_search data (Probe first len (len / 2) (first + len / 2) key)
            = Ret (loop_head first' len' key)) as (first' & len' & Hs' & Hl' & E).
  { cbn. rewrite Ex. run_bind. rewrite (proj2 (Z.eqb_neq x key)) by done.
    destruct (Z.ltb_spec x key).
    - eexists _, _. split; [by apply Hlt|]. split; [lia|done].
    - eexists _, _. split; [apply Hgt; lia|]. split; [lia|done]. }
  destruct (IH _ Hl' first' len' eq_refl Hs') as [(f' & Ef & k & Hk & Hle)|Er].
  - exists (Datatypes.S k). split; [|lia]. eapply runs_step; [|exact Hk]. by rewrite E, Ef.
  - exists 1%nat. split; [|lia]. apply runs_done. by rewrite E, Er.
Qed.

Lemma start_runs data key :
  Sorted Z.le data ->
  exists k, runs (coro_binary_search data) (Start 0 (Z.of_nat (length data)) key) k
              (bool_decide (key ∈ data)) /\ (k <= Datatypes.S (length data))%nat.
Proof.
  intros S. pose proof (loop_head_runs data 0 (Z.of_nat (length data)) key S (searching_all _ _)) as Hh.
  destruct Hh as [(f & Ef & k & Hk & Hle)|Er].
  - exists (Datatypes.S k). split; [|lia]. eapply runs_step; [|exact Hk].
    cbn [coro_binary_search]. by rewrite Z.sub_0_r, Ef.
  - exists 1%nat. split; [|lia]. apply runs_done. cbn [coro_binary_search]. by rewrite Z.sub_0_r, Er.
Qed.

Lemma tasks_run data lookups :
  Sorted Z.le data ->
  exists ks,
    run_all (coro_binary_search data)
      ((fun key => Start 0 (Z.of_nat (length data)) key) <$> lookups) ks
      ((fun key => bool_decide (key ∈ data)) <$> lookups) /\
    (sum_list ks <= length lookups * Datatypes.S (length data))%nat.
Proof.
  intros S. induction lookups as [|key lookups (ks & IH & Hle)].
  - exists []. split; [constructor|done].
  - destruct (start_runs data key S) as (k & Hk & Hkle).
    exists (k :: ks). split; [by constructor|]. cbn in *. lia.
Qed.

(** The callbacks count the results, whatever their order. *)
Lemma emits_count rs : forall found not_found,
  0 <= found -> 0 <= not_found -> found + not_found + Z.of_nat (length rs) < 2 ^ 64 ->
  emits callback (found, not_found) rs =
  (found + Z.of_nat (count_if id rs), not_found + Z.of_nat (length rs - count_if id rs)).
Proof.
  induction rs as [|r rs IH]; intros found not_found Hf Hn Hmax.
  { cbn. by rewrite !Z.add_0_r. }
  rewrite count_if_cons, emits_cons. cbn [length] in *. pose proof (count_if_le id rs).
  destruct r; cbn [callback id]; unfold on_found, on_not_found; cbn [fst snd];
    rewrite u64_small, IH by lia; f_equal; lia.
Qed.

Definition ready (g : globals) : Prop :=
  sq_repr g.(scheduler) [] /\ TcAlloc.inv frame_size g.(allocator) ∅ /\ g.(found_counts) = (0, 0).

Lemma init_ready : sizeof_header <= frame_size -> ready init_globals.
Proof. intros. split; [apply SchedulerQueue.queue_init_repr|]. split; [by apply TcAlloc.tcalloc_init_inv|done]. Qed.

Lemma count_if_fmap {X Y} (g : X -> Y) (P : Y -> bool) l : count_if P (g <$> l) = count_if (P ∘ g) l.
Proof. induction l as [|x l IH]; [done|]. rewrite fmap_cons, !count_if_cons, IH. done. Qed.

Lemma coro_multi_lookup_spec `{!MallocTotal} fuel data lookups (n : nat) g :
  Sorted Z.le data -> ready g -> (0 < n < 256)%nat -> Z.of_nat (length lookups) < 2 ^ 64 ->
  (length lookups * Datatypes.S (length data) < fuel)%nat ->
  exists g', coro_multi_lookup fuel data lookups (Z.of_nat n) g =
    Ret (Z.of_nat (count_if (fun key => bool_decide (key ∈ data)) lookups), g') /\ ready g'.
Proof.
  intros S (Hq & Ha & Hc) Hn Hmax Hf. destruct (tasks_run data lookups S) as (ks & Hks & Hle).
  unfold coro_multi_lookup.
  destruct (multi_spec (FrameAlloc0 := TcAlloc.laws frame_size) (coro_binary_search data) callback
              frame_size fuel n _ ks _ (scheduler g) (allocator g) (found_counts g) Hks Hq Ha) as (rt & rs & E & Hp & Hw & Hq' & Ha' & _); [lia| |lia|lia|].
  { change (n <= 255)%nat. lia. }
  rewrite E. run_bind. rewrite Hw, Hc.
  assert (length rs = length lookups) as Hlen by (rewrite Hp; apply length_fmap).
  assert (count_if id rs = count_if (fun key => bool_decide (key ∈ data)) lookups) as Hcount.
  { rewrite (count_if_perm _ _ _ Hp), count_if_fmap. done. }
  rewrite emits_count by lia. pose proof (count_if_le id rs). rewrite !Z.add_0_l.
  rewrite decide_True by (wrap_lia).
  rewrite Hcount. eexists. split; [done|]. by split.
Qed.
End Run.
End Coro.

(** ** Properties *)

(** C8. [vanilla_binary_search] on a sorted vector returns whether the value
    occurs in it; in particular it terminates and stays within bounds. *)
Theorem vanilla_binary_search_correct data val :
  Sorted Z.le data ->
  Vanilla.vanilla_binary_search data 0 (Z.of_nat (length data)) val
  = Ret (bool_decide (val ∈ data)).
Proof. apply Vanilla.vanilla_spec. Qed.

Lemma vanilla_binary_search_correct_witness :
  Vanilla.vanilla_binary_search [1; 3; 5; 8] 0 4 5 = Ret true.
Proof. apply (vanilla_binary_search_correct [1; 3; 5; 8] 5). repeat constructor; lia. Defined.

(** The hand-written state machine agrees with the vanilla search: running
    the frame until it leaves KEEP_GOING gives the same answer. *)
Theorem state_machine_binary_search_correct data key :
  Sorted Z.le data -> Z.of_nat (length data) < 2 ^ 64 ->
  StateMachine.state_machine_binary_search data 0 (Z.of_nat (length data)) key
  = Vanilla.vanilla_binary_search data 0 (Z.of_nat (length data)) key.
Proof.
  intros S Hd. rewrite Vanilla.vanilla_spec by done.
  unfold StateMachine.state_machine_binary_search.
  set (f := StateMachine.init _ _ _ _). rewrite Z.sub_0_r, Nat2Z.id.
  destruct (decide (data = [])) as [->|Hne]; [reflexivity|].
  assert (StateMachine.active data f) as Ha by by apply StateMachine.init_active.
  pose proof (StateMachine.active_weight _ _ Ha).
  destruct (StateMachine.run_loop_spec data S Hd (Datatypes.S (Datatypes.S (length data))) f Ha)
    as (f' & -> & E); [lia|].
  run_bind. rewrite E. unfold f. by rewrite StateMachine.init_val.
Qed.

Lemma state_machine_binary_search_correct_witness :
  StateMachine.state_machine_binary_search [1; 3; 5; 8] 0 4 6
  = Vanilla.vanilla_binary_search [1; 3; 5; 8] 0 4 6.
Proof.
  apply (state_machine_binary_search_correct [1; 3; 5; 8] 6); [repeat constructor; lia|done].
Defined.

(** C7. The interleaved state machine multi-lookup, for any number of streams,
    counts exactly the lookups that the one-at-a-time vanilla test finds: every
    lookup is run to completion on some frame and counted once. *)
Theorem state_machine_multi_lookup_correct fuel data lookups n_streams :
  Sorted Z.le data -> data <> [] -> Z.of_nat (length data) < 2 ^ 64 ->
  Z.of_nat (length lookups) + 1 < 2 ^ 64 -> 0 < n_streams < 2 ^ 64 ->
  (Z.to_nat n_streams * S (length data) < fuel)%nat ->
  StateMachine.state_machine_multi_lookup fuel data lookups n_streams
    = Vanilla.test_vanilla data lookups 0 /\
  StateMachine.state_machine_multi_lookup fuel data lookups n_streams
    = Ret (Z.of_nat (count_if (fun key => bool_decide (key ∈ data)) lookups)).
Proof.
  intros S Hne Hd Hl Hn Hf.
  rewrite (StateMachine.multi_lookup_spec data S Hd), Vanilla.test_vanilla_spec by (done || lia).
  done.
Qed.

Lemma state_machine_multi_lookup_correct_witness :
  StateMachine.state_machine_multi_lookup 20 [1; 3; 5; 8] [8; 2; 3; 3; 9] 3
    = Vanilla.test_vanilla [1; 3; 5; 8] [8; 2; 3; 3; 9] 0 /\
  StateMachine.state_machine_multi_lookup 20 [1; 3; 5; 8] [8; 2; 3; 3; 9] 3 = Ret 3.
Proof.
  apply (state_machine_multi_lookup_correct 20 [1; 3; 5; 8] [8; 2; 3; 3; 9] 3);
    try done; [repeat constructor; lia|cbn; lia].
Defined.

(** C6. With at least one and at most 255 streams the coroutine multi-lookup
    returns the vanilla count, never trips its assertion, and leaves the global
    scheduler empty, the counters reset and no frame allocated, so that it can
    be called again; frames come from the recycling allocator. *)
Theorem coro_multi_lookup_correct `{Malloc} `{!MallocTotal} frame_size fuel data lookups (n : nat) g :
  Sorted Z.le data -> Coro.ready frame_size g -> (0 < n < 256)%nat ->
  Z.of_nat (length lookups) < 2 ^ 64 -> (length lookups * S (length data) < fuel)%nat ->
  exists c g',
    Coro.coro_multi_lookup frame_size fuel data lookups (Z.of_nat n) g = Ret (c, g') /\
    Vanilla.test_vanilla data lookups 0 = Ret c /\ Coro.ready frame_size g'.
Proof.
  intros S Hg Hn Hl Hf.
  destruct (Coro.coro_multi_lookup_spec frame_size fuel data lookups n g) as (g' & E & Hg'); try done.
  eexists _, g'. split; [exact E|]. split; [|done]. by rewrite Vanilla.test_vanilla_spec by (done || lia).
Qed.

Lemma coro_multi_lookup_correct_witness :
  exists c g',
    Coro.coro_multi_lookup (H := bump_malloc) 64 30 [1; 3; 5; 8] [8; 2; 3; 3; 9] 2 Coro.init_globals
      = Ret (c, g') /\
    Vanilla.test_vanilla [1; 3; 5; 8] [8; 2; 3; 3; 9] 0 = Ret c /\ Coro.ready 64 g'.
Proof.
  apply (@coro_multi_lookup_correct bump_malloc bump_malloc_total 64 30
           [1; 3; 5; 8] [8; 2; 3; 3; 9] 2 Coro.init_globals).
  - repeat constructor; lia.
  - by apply Coro.init_ready.
  - lia.
  - done.
  - cbn. lia.
Defined.

(** With 256 streams the ring buffer of 256 slots wraps onto its tail once
    every stream is spawned: the queue looks empty, no search runs, and the
    assertion on the counters fails. *)
Theorem coro_multi_lookup_overflow :
  Coro.coro_multi_lookup (H := bump_malloc) 64 1000 [0] (replicate 256 0) 256 Coro.init_globals
  = Fault AssertionFailed.
Proof. vm_compute. reflexivity. Qed.
