(* ===== verification/Manual.v ===== *)
(** * Manual: applications/binary-search/manual.cpp

    The driver of the binary searches, from its arguments to its exit code: the
    test configuration or the usage text, the dataset and the lookups that
    [State] draws from rng.hpp, the repeated test, and the lines printed. The
    searches are BinarySearch's. The clock, and the text of the floating-point
    time per lookup, are parameters. *)

From S2P Require Import Prelude Allocators BinarySearch Rng.
From stdpp Require Import pretty.
Local Open Scope Z_scope.

Module Manual.

(** [high_resolution_clock::now()], and what printf makes of the nanoseconds per
    lookup and log2 of the size, given the elapsed time, the size of the dataset,
    the number of lookups and that of repetitions *)
Class Clock (K : Type) := {
  now : K -> Z * K;
  format_perop : Z -> nat -> nat -> Z -> string;
}.

Definition EXIT_SUCCESS : Z := 0.
Definition EXIT_FAILURE : Z := 1.

Definition nl : string := String (Ascii.ascii_of_nat 10) EmptyString.
Definition tab : string := String (Ascii.ascii_of_nat 9) EmptyString.

(** ** The configuration *)

(** [static_cast<int>] / implicit conversion to a 32-bit int (modular). *)
Definition to_int (z : Z) : Z := (z + 2 ^ 31) mod 2 ^ 32 - 2 ^ 31.

(** The dataset of [State::State]: [dataset.push_back(i + i)]. *)
Definition make_dataset (byte_count : Z) : list Z :=
  let count := byte_count / 4 in
  (fun i => to_int (u64 (Z.of_nat i + Z.of_nat i))) <$> seq 0 (Z.to_nat count).

Inductive algo := test_vanilla | test_state_machine | test_coro.

Record TestParams := MkParams { size_in_bytes : Z; n_lookups : Z; n_repeat : Z }.

(** A valid configuration; the other fields of an invalid [TestConfig] are not used. *)
Record TestConfig := MkConfig { params : TestParams; n_streams : Z; runner : algo }.

Definition is_space (c : Ascii.ascii) : bool :=
  let n := Ascii.nat_of_ascii c in bool_decide (n = 32 \/ (9 <= n <= 13))%nat.

Definition digit (c : Ascii.ascii) : option Z :=
  let n := Ascii.nat_of_ascii c in
  if bool_decide (48 <= n <= 57)%nat then Some (Z.of_nat n - 48) else None.

Fixpoint digits (s : string) (acc : Z) : Z :=
  match s with
  | EmptyString => acc
  | String c s => match digit c with Some d => digits s (10 * acc + d) | None => acc end
  end.

Fixpoint skip_spaces (s : string) : string :=
  match s with
  | EmptyString => EmptyString
  | String c s' => if is_space c then skip_spaces s' else s
  end.

(** [atoi] of the C library; a value that is not an int is undefined behaviour. *)
Definition atoi (s : string) : outcome Z :=
  let z :=
    match skip_spaces s with
    | String c s' =>
      if decide (Ascii.nat_of_ascii c = 45%nat) then - digits s' 0
      else if decide (Ascii.nat_of_ascii c = 43%nat) then digits s' 0
      else digits (String c s') 0
    | EmptyString => 0
    end in
  if decide (- 2 ^ 31 <= z < 2 ^ 31) then Ret z else Fault Overflow.

Definition parse_algo (s : string) : option algo :=
  if decide (s = "vanilla") then Some test_vanilla
  else if decide (s = "sm") then Some test_state_machine
  else if decide (s = "coro") then Some test_coro
  else None.

Definition parse_size (s : string) : option TestParams :=
  if decide (s = "quick") then Some (MkParams (16 * 1024) 1024 1)
  else if decide (s = "l1") then Some (MkParams (16 * 1024) 1024 10000)
  else if decide (s = "l2") then Some (MkParams (200 * 1024) (1024 * 1024) 50)
  else if decide (s = "l3") then Some (MkParams (6 * 1024 * 1024) (1024 * 1024) 50)
  else if decide (s = "big") then Some (MkParams (256 * 1024 * 1024) (1024 * 1024) 5)
  else None.

(** [config.algo_name], which goes with [config.runner] *)
Definition algo_name (r : algo) : string :=
  match r with test_vanilla => "vanilla" | test_state_machine => "state machine" | test_coro => "coroutine" end.

(** The lines of [usage] *)
Definition usage (msg : option string) : list string :=
  match msg with Some m => [("[-] " ++ m ++ nl)%string] | None => [] end ++
  [("[-] driver <ALGO> <SIZE> <N_STREAMS>" ++ nl ++
    tab ++ "<ALGO>:      vanilla sm coro" ++ nl ++
    tab ++ "<SIZE>:      quick l1 l2 l3 big" ++ nl ++
    tab ++ "<N_STREAMS>: 1 - n" ++ nl ++ nl)%string].

(** [parse_args], with what it prints; [None] is a configuration with
    [valid == false]. *)
Definition parse_args (argv : list string) : outcome (option TestConfig * list string) :=
  match argv with
  | [_; a1; a2; a3] =>
    match parse_algo a1 with
    | None => Ret (None, usage (Some "invalid algorithm name"))
    | Some r =>
      match parse_size a2 with
      | None => Ret (None, usage (Some "invalid size"))
      | Some p =>
        n ← atoi a3;
        Ret (if n <? 1 then (None, usage (Some "invalid stream count")) else (Some (MkConfig p n r), []))
      end
    end
  | _ => Ret (None, usage None)
  end.

Lemma parse_size_bounds s p :
  parse_size s = Some p ->
  0 < size_in_bytes p / 4 < 2 ^ 30 /\ 0 < n_lookups p <= 2 ^ 20 /\ 0 < n_repeat p <= 2 ^ 14.
Proof.
  unfold parse_size. intros E.
  repeat case_decide; simplify_eq; cbn; repeat split; vm_compute; congruence.
Qed.

Lemma make_dataset_lookup byte_count i :
  byte_count / 4 <= 2 ^ 30 -> (i < Z.to_nat (byte_count / 4))%nat ->
  make_dataset byte_count !! i = Some (2 * Z.of_nat i).
Proof.
  intros Hb Hi. unfold make_dataset.
  rewrite list_lookup_fmap, lookup_seq_lt by done. cbn [fmap option_fmap option_map Nat.add].
  f_equal. unfold to_int. rewrite u64_small by lia. rewrite Z.mod_small by lia. lia.
Qed.

Lemma make_dataset_sorted byte_count :
  byte_count / 4 <= 2 ^ 30 -> Sorted Z.le (make_dataset byte_count).
Proof.
  intros Hb. unfold make_dataset. set (n := Z.to_nat (byte_count / 4)).
  assert (forall k m, Z.of_nat (m + k) <= 2 ^ 30 ->
    Sorted Z.le ((fun i => to_int (u64 (Z.of_nat i + Z.of_nat i))) <$> seq m k)) as H.
  { assert (forall i, Z.of_nat i < 2 ^ 30 ->
      to_int (u64 (Z.of_nat i + Z.of_nat i)) = 2 * Z.of_nat i) as Hint.
    { intros i Hi. unfold to_int. rewrite u64_small, Z.mod_small by lia. lia. }
    intros k. induction k as [|k IH]; intros m Hm; cbn; constructor.
    - apply IH. lia.
    - destruct k; cbn; constructor. rewrite !Hint by lia. lia. }
  apply H. lia.
Qed.

Lemma make_dataset_length byte_count : length (make_dataset byte_count) = Z.to_nat (byte_count / 4).
Proof. unfold make_dataset. by rewrite length_fmap, length_seq. Qed.

(** The numbers of the dataset are the even ones below twice its size. *)
Lemma make_dataset_elem byte_count key :
  byte_count / 4 <= 2 ^ 30 -> 0 <= key ->
  key ∈ make_dataset byte_count <-> Z.even key && (key <? 2 * (byte_count / 4)) = true.
Proof.
  intros Hb Hk. rewrite andb_true_iff, Z.ltb_lt, Z.even_spec, list_elem_of_lookup. split.
  - intros [i Hi]. pose proof (lookup_lt_Some _ _ _ Hi) as Hlt. rewrite make_dataset_length in Hlt.
    rewrite make_dataset_lookup in Hi by done. simplify_eq. split; [by eexists|lia].
  - intros [[i ->] Hlt]. exists (Z.to_nat i). rewrite make_dataset_lookup by lia. f_equal. lia.
Qed.

(** A configuration accepted by [parse_args] comes from one of the named sizes
    and a positive stream count, and nothing is printed. *)
Lemma parse_args_Some argv c out :
  parse_args argv = Ret (Some c, out) ->
  out = [] /\ 0 < size_in_bytes (params c) / 4 < 2 ^ 30 /\ 0 < n_lookups (params c) <= 2 ^ 20 /\
  0 < n_repeat (params c) <= 2 ^ 14 /\ 1 <= n_streams c < 2 ^ 31.
Proof.
  intros E. unfold parse_args in E.
  destruct argv as [|a0 [|a1 [|a2 [|a3 [|a4 argv]]]]]; try discriminate.
  destruct (parse_algo a1) as [r|]; [|discriminate].
  destruct (parse_size a2) as [p|] eqn:Ep; [|discriminate].
  apply parse_size_bounds in Ep as (Hb & Hl & Hr).
  unfold atoi in E. case_decide as Hn; [|discriminate]. rewrite bind_ret in E.
  set (n := match skip_spaces a3 with EmptyString => 0 | String c s' => _ end) in *.
  destruct (Z.ltb_spec n 1); simplify_eq. cbn. repeat split; (done || lia).
Qed.

(** What [usage] documents: the names of the algorithms and of the sizes *)
Definition algorithms : list (string * algo) :=
  [("vanilla", test_vanilla); ("sm", test_state_machine); ("coro", test_coro)].
Definition sizes : list (string * TestParams) :=
  [("quick", MkParams 16384 1024 1); ("l1", MkParams 16384 1024 10000); ("l2", MkParams 204800 1048576 50);
   ("l3", MkParams 6291456 1048576 50); ("big", MkParams 268435456 1048576 5)].

Lemma parse_algo_spec s r : parse_algo s = Some r <-> (s, r) ∈ algorithms.
Proof.
  unfold parse_algo, algorithms. rewrite !elem_of_cons, elem_of_nil. repeat case_decide; simplify_eq; naive_solver.
Qed.

Lemma parse_size_spec s p : parse_size s = Some p <-> (s, p) ∈ sizes.
Proof.
  unfold parse_size, sizes. rewrite !elem_of_cons, elem_of_nil. repeat case_decide; simplify_eq; naive_solver.
Qed.

(** A name that no entry of the table has *)
Lemma not_named {A} (f : string -> option A) (l : list (string * A)) s :
  (forall a, f s = Some a <-> (s, a) ∈ l) -> s ∉ l.*1 -> f s = None.
Proof.
  intros Hf Hs. destruct (f s) as [a|]; [|done]. destruct Hs.
  apply list_elem_of_fmap. exists (s, a). split; [done|]. by apply Hf.
Qed.

(** ** State *)

Module State.
(** [n_streams] and [start_time] are set by [start]. *)
Record t := MkState {
  dataset : list Z;
  lookups : list Z;
  count : Z;
  n_repeat : Z;
  n_streams : option Z;
  algo_name : string;
  start_time : option Z;
}.

Definition init `{Rng.Engine G} (algo : string) (byte_count lookup_count n_repeat_ : Z) : outcome t :=
  let seed := 0 in
  let count := byte_count / 4 in
  let r := Rng.rng_new (G := G) seed 0 (to_int (u64 (count + count))) lookup_count in
  lookups ← Rng.draw (S (Z.to_nat lookup_count)) (Rng.begin r) r [];
  Ret (MkState (make_dataset byte_count) lookups count n_repeat_ None algo None).
#[global] Arguments init G {_} algo byte_count lookup_count n_repeat_.

Section Clocked.
Context `{Clock K}.

Definition start (streams_ : Z) (algo_name_ : string) (s : t) (k : K) : t * K :=
  let '(time, k) := now k in
  (MkState (dataset s) (lookups s) (count s) (n_repeat s) (Some streams_) algo_name_ (Some time), k).

(** [stop] prints one line. *)
Definition stop (s : t) (k : K) : outcome (string * K) :=
  let '(stop_time, k) := now k in
  start_time ← or_fault Uninitialised (start_time s);
  Ret (("[+] Test complete: " ++
        format_perop (stop_time - start_time) (length (dataset s)) (length (lookups s)) (n_repeat s) ++
        " ns per lookup/log2(size)" ++ nl)%string, k).
End Clocked.

Definition print_config (s : t) : string :=
  ("[+] Test configuration:" ++ nl ++ "[+]" ++ tab ++ "Algorithm: " ++ algo_name s ++
   " Count: " ++ pretty (count s) ++ " Lookups: " ++ pretty (Z.of_nat (length (lookups s))) ++
   " Repeat " ++ pretty (n_repeat s) ++ nl)%string.

(** The lookups are what the engine gives, from 0 to twice the size of the
    dataset. *)
Lemma init_spec `{Rng.Engine G} algo byte_count lookup_count n :
  0 < byte_count / 4 < 2 ^ 30 -> 0 <= lookup_count < 2 ^ 64 ->
  init G algo byte_count lookup_count n =
    Ret (MkState (make_dataset byte_count)
      (Rng.numbers (Z.to_nat lookup_count) 0 (2 * (byte_count / 4)) (Rng.seeded (G := G) 0))
      (byte_count / 4) n None algo None).
Proof.
  intros Hb Hl. unfold init. set (count := byte_count / 4) in *.
  assert (to_int (u64 (count + count)) = 2 * count) as ->.
  { unfold to_int. rewrite u64_small, Z.mod_small by lia. lia. }
  unfold Rng.begin. cbn [Rng.count Rng.rng_new].
  pose proof (Rng.draw_spec (Z.to_nat lookup_count) (Rng.rng_new (G := G) 0 0 (2 * count) lookup_count) []) as E.
  rewrite Z2Nat.id in E by lia. rewrite E by lia. by run_bind.
Qed.
End State.

(** ** The tests *)

Section Main.
Context `{Malloc} (frame_size : Z).

(** [( *config.runner)(state)] *)
Definition run_test (fuel : nat) (r : algo) (s : State.t) (g : Coro.globals) : outcome (Z * Coro.globals) :=
  match r with
  | test_vanilla => c ← Vanilla.test_vanilla (State.dataset s) (State.lookups s) 0; Ret (c, g)
  | test_state_machine =>
    n ← or_fault Uninitialised (State.n_streams s);
    c ← StateMachine.state_machine_multi_lookup fuel (State.dataset s) (State.lookups s) n; Ret (c, g)
  | test_coro =>
    n ← or_fault Uninitialised (State.n_streams s);
    Coro.coro_multi_lookup frame_size fuel (State.dataset s) (State.lookups s) n g
  end.

(** The measured loop of [main]: [successful_lookups += ...], [n_repeat] times. *)
Fixpoint repeat_test (k : nat) (fuel : nat) (r : algo) (s : State.t) (g : Coro.globals)
    (successful_lookups : Z) : outcome Z :=
  match k with
  | O => Ret successful_lookups
  | S k => '(c, g) ← run_test fuel r s g; repeat_test k fuel r s g (u64 (successful_lookups + c))
  end.

(** Enough for the probes of all the lookups and all the streams of one test *)
Definition test_fuel (c : TestConfig) : nat :=
  S ((Z.to_nat (n_streams c) + Z.to_nat (n_lookups (params c))) * S (Z.to_nat (size_in_bytes (params c) / 4))).

(** The exit code and the lines printed *)
Definition main `{Clock K} (G : Type) `{Rng.Engine G} (argv : list string) (k : K) : outcome (Z * list string) :=
  '(config, out) ← parse_args argv;
  match config with
  | None => Ret (EXIT_FAILURE, out)
  | Some c =>
    state ← State.init G (algo_name (runner c)) (size_in_bytes (params c)) (n_lookups (params c)) (n_repeat (params c));
    let out := (out ++ [State.print_config state])%list in
    let '(state, k) := State.start (n_streams c) (algo_name (runner c)) state k in
    successful_lookups ←
      repeat_test (Z.to_nat (State.n_repeat state)) (test_fuel c) (runner c) state Coro.init_globals 0;
    '(line, k) ← State.stop state k;
    Ret (EXIT_SUCCESS,
         out ++ [line; ("[+] Total successful lookups: " ++ pretty successful_lookups ++ nl)%string])%list
  end.

(** A state on which the tests can run *)
Record runnable (r : algo) (n : Z) (fuel : nat) (s : State.t) : Prop := {
  rn_sorted : Sorted Z.le (State.dataset s);
  rn_nonempty : State.dataset s <> [];
  rn_size : Z.of_nat (length (State.dataset s)) < 2 ^ 64;
  rn_lookups : Z.of_nat (length (State.lookups s)) + 1 < 2 ^ 64;
  rn_streams : State.n_streams s = Some n /\ 1 <= n < 2 ^ 64 /\ (r = test_coro -> n < 256);
  rn_fuel : ((Z.to_nat n + length (State.lookups s)) * S (length (State.dataset s)) < fuel)%nat;
}.

(** The lookups that are in the dataset *)
Definition present (s : State.t) : Z :=
  Z.of_nat (count_if (fun key => bool_decide (key ∈ State.dataset s)) (State.lookups s)).

(** Every algorithm counts the lookups that are in the dataset. *)
Lemma run_test_spec `{!MallocTotal} fuel r s n g :
  runnable r n fuel s -> Coro.ready frame_size g ->
  exists g', run_test fuel r s g = Ret (present s, g') /\ Coro.ready frame_size g'.
Proof.
  intros [S Hne Hd Hl (En & Hn & Hc) Hf] Hg. destruct r; cbn [run_test].
  - rewrite Vanilla.test_vanilla_spec by (done || lia). run_bind. eauto.
  - rewrite En. cbn [or_fault]. rewrite bind_ret.
    rewrite (StateMachine.multi_lookup_spec (State.dataset s) S Hd) by (done || lia). run_bind. eauto.
  - rewrite En. cbn [or_fault]. rewrite bind_ret. specialize (Hc eq_refl).
    destruct (Coro.coro_multi_lookup_spec frame_size fuel (State.dataset s) (State.lookups s) (Z.to_nat n) g)
      as (g' & E & Hg'); [done|done|lia|lia|lia|].
    rewrite Z2Nat.id in E by lia. eauto.
Qed.

Lemma repeat_test_spec `{!MallocTotal} k fuel r s n : forall g acc,
  runnable r n fuel s -> Coro.ready frame_size g ->
  repeat_test k fuel r s g (u64 acc) = Ret (u64 (acc + Z.of_nat k * present s)).
Proof.
  induction k as [|k IH]; intros g acc Hs Hg; cbn [repeat_test].
  - by rewrite Z.mul_0_l, Z.add_0_r.
  - destruct (run_test_spec fuel r s n g Hs Hg) as (g' & E & Hg').
    rewrite E. run_bind.
    assert (forall a b, u64 (u64 a + b) = u64 (a + b)) as Hu
      by (intros; unfold u64; by rewrite Zplus_mod_idemp_l).
    rewrite Hu, IH by done. do 2 f_equal. lia.
Qed.

(** The total of the loop, which does not wrap *)
Lemma repeat_test_total `{!MallocTotal} fuel r s n :
  runnable r n fuel s -> sizeof_header <= frame_size ->
  0 < State.n_repeat s <= 2 ^ 14 -> Z.of_nat (length (State.lookups s)) <= 2 ^ 20 ->
  repeat_test (Z.to_nat (State.n_repeat s)) fuel r s Coro.init_globals 0 = Ret (State.n_repeat s * present s).
Proof.
  intros Hs Hh Hr Hl. change 0 with (u64 0) at 1.
  erewrite repeat_test_spec by (done || by apply Coro.init_ready).
  assert (present s <= 2 ^ 20) as Hp.
  { unfold present. pose proof (count_if_le (fun key => bool_decide (key ∈ State.dataset s)) (State.lookups s)). lia. }
  assert (0 <= present s) by (unfold present; lia).
  rewrite Z2Nat.id, Z.add_0_l, u64_small by nia. done.
Qed.
End Main.

(** What [main] has once it has started the tests *)
Lemma started_runnable c argv lookups time :
  parse_args argv = Ret (Some c, []) -> (runner c = test_coro -> n_streams c < 256) ->
  length lookups = Z.to_nat (n_lookups (params c)) ->
  runnable (runner c) (n_streams c) (test_fuel c)
    (State.MkState (make_dataset (size_in_bytes (params c))) lookups (size_in_bytes (params c) / 4)
       (n_repeat (params c)) (Some (n_streams c)) (algo_name (runner c)) (Some time)).
Proof.
  intros (_ & Hb & Hl & Hr & Hn)%parse_args_Some Hc Hlen. split; cbn [State.dataset State.lookups State.n_streams].
  - apply make_dataset_sorted. lia.
  - intros E. apply (f_equal length) in E. rewrite make_dataset_length in E. cbn in E. lia.
  - rewrite make_dataset_length. lia.
  - lia.
  - repeat split; (done || lia).
  - rewrite make_dataset_length, Hlen. unfold test_fuel. lia.
Qed.

(** The lookups present are those that are even and small enough. *)
Lemma present_even s byte_count :
  State.dataset s = make_dataset byte_count -> byte_count / 4 <= 2 ^ 30 ->
  Forall (fun key => 0 <= key <= 2 * (byte_count / 4)) (State.lookups s) ->
  present s = Z.of_nat (count_if (fun key => Z.even key && (key <? 2 * (byte_count / 4))) (State.lookups s)).
Proof.
  intros E Hb Hf. unfold present. rewrite E. f_equal.
  induction Hf as [|x l [Hx _] _ IH]; [done|]. rewrite !count_if_cons, IH.
  assert (bool_decide (x ∈ make_dataset byte_count) = Z.even x && (x <? 2 * (byte_count / 4))) as ->; [|done].
  apply eq_true_iff_eq. by rewrite bool_decide_eq_true, make_dataset_elem.
Qed.

(** What [main] does with a configuration *)
Lemma main_accepted `{Clock K} `{Rng.EngineLaws G} `{Malloc} `{!MallocTotal} frame_size argv r p n k :
  sizeof_header <= frame_size -> parse_args argv = Ret (Some (MkConfig p n r), []) -> (r = test_coro -> n < 256) ->
  let count := size_in_bytes p / 4 in
  let lookups := Rng.numbers (Z.to_nat (n_lookups p)) 0 (2 * count) (Rng.seeded (G := G) 0) in
  let found := count_if (fun key => Z.even key && (key <? 2 * count)) lookups in
  let '(t, k1) := now k in
  (state ← State.init G (algo_name r) (size_in_bytes p) (n_lookups p) (n_repeat p);
   let '(state', k) := State.start n (algo_name r) state k in
   successful_lookups ← repeat_test frame_size (Z.to_nat (State.n_repeat state')) (test_fuel (MkConfig p n r)) r state'
     Coro.init_globals 0;
   '(line, k) ← State.stop state' k;
   Ret (EXIT_SUCCESS,
     [State.print_config state; line; ("[+] Total successful lookups: " ++ pretty successful_lookups ++ nl)%string])) =
  Ret (EXIT_SUCCESS,
    [("[+] Test configuration:" ++ nl ++ "[+]" ++ tab ++ "Algorithm: " ++ algo_name r ++ " Count: " ++ pretty count ++
      " Lookups: " ++ pretty (n_lookups p) ++ " Repeat " ++ pretty (n_repeat p) ++ nl)%string;
     ("[+] Test complete: " ++
      format_perop (fst (now k1) - t) (Z.to_nat count) (Z.to_nat (n_lookups p)) (n_repeat p) ++
      " ns per lookup/log2(size)" ++ nl)%string;
     ("[+] Total successful lookups: " ++
      pretty (n_repeat p * Z.of_nat found) ++ nl)%string]).
Proof.
  intros Hh E Hc count lookups found. pose proof (parse_args_Some _ _ _ E) as (_ & Hb & Hl & Hr & Hn).
  cbn [params n_streams] in *. fold count in Hb. destruct (now k) as [time k1] eqn:Ek.
  assert (length lookups = Z.to_nat (n_lookups p)) as Hlen by apply Rng.numbers_length.
  assert (Forall (fun key => 0 <= key <= 2 * count) lookups) as Hf by (apply (Rng.numbers_range _ 0 (2 * count)); lia).
  rewrite State.init_spec, bind_ret by (done || lia). fold count lookups. unfold State.start. rewrite Ek. cbn beta iota zeta.
  cbn [State.dataset State.lookups State.count State.n_repeat].
  pose proof (started_runnable (MkConfig p n r) argv lookups time E Hc Hlen) as Hrun.
  pose proof (repeat_test_total frame_size _ _ _ _ Hrun Hh) as Et.
  cbn [State.n_repeat State.lookups runner params n_streams] in Et. fold count in Et. rewrite Et, bind_ret by lia.
  rewrite (present_even _ (size_in_bytes p)) by (reflexivity || lia || exact Hf).
  unfold State.stop. destruct (now k1) as [time2 k2]. cbn [fst State.start_time or_fault]. rewrite !bind_ret.
  unfold State.print_config. cbn [State.dataset State.lookups State.n_repeat State.algo_name State.count].
  rewrite make_dataset_length, Hlen. by rewrite Z2Nat.id by lia.
Qed.
End Manual.

(** ** Properties *)

(** C9. The driver of the binary searches as a program. With the wrong number of
    arguments, an algorithm or a size that has no name in the table, or a stream
    count below one it prints its usage and fails; a stream count that is not an
    int is undefined. Otherwise (with fewer than 256 streams for the coroutines)
    it prints its configuration, the measured time and a total, and succeeds:
    the lookups are the first numbers that the engine, seeded with 0, gives
    between 0 and twice the number of elements, as many as the size asks for, and
    the total is, whichever algorithm is chosen, the number of them that are even
    and below twice the number of elements, once per repetition, without
    wrapping. *)
Theorem manual_main_correct `{Manual.Clock K} `{Rng.EngineLaws G} `{Malloc} `{!MallocTotal} frame_size argv k :
  sizeof_header <= frame_size ->
  let fails msg := Manual.main frame_size G argv k = Ret (Manual.EXIT_FAILURE, Manual.usage msg) in
  (length argv <> 4%nat -> fails None) /\
  forall a0 a1 a2 a3, argv = [a0; a1; a2; a3] ->
    (a1 ∉ Manual.algorithms.*1 -> fails (Some "invalid algorithm name"%string)) /\
    (a1 ∈ Manual.algorithms.*1 -> a2 ∉ Manual.sizes.*1 -> fails (Some "invalid size"%string)) /\
    forall r p, (a1, r) ∈ Manual.algorithms -> (a2, p) ∈ Manual.sizes ->
      (forall f, Manual.atoi a3 = Fault f -> Manual.main frame_size G argv k = Fault f) /\
      forall n, Manual.atoi a3 = Ret n ->
        (n < 1 -> fails (Some "invalid stream count"%string)) /\
        (1 <= n -> (r = Manual.test_coro -> n < 256) ->
          let count := Manual.size_in_bytes p / 4 in
          let lookups := Rng.numbers (Z.to_nat (Manual.n_lookups p)) 0 (2 * count) (Rng.seeded (G := G) 0) in
          let found := count_if (fun key => Z.even key && (key <? 2 * count)) lookups in
          let '(t, k1) := Manual.now k in
          Manual.main frame_size G argv k =
          Ret (Manual.EXIT_SUCCESS,
            [("[+] Test configuration:" ++ Manual.nl ++ "[+]" ++ Manual.tab ++ "Algorithm: " ++
              Manual.algo_name r ++ " Count: " ++ pretty count ++ " Lookups: " ++ pretty (Manual.n_lookups p) ++
              " Repeat " ++ pretty (Manual.n_repeat p) ++ Manual.nl)%string;
             ("[+] Test complete: " ++
              Manual.format_perop (fst (Manual.now k1) - t) (Z.to_nat count) (Z.to_nat (Manual.n_lookups p))
                (Manual.n_repeat p) ++ " ns per lookup/log2(size)" ++ Manual.nl)%string;
             ("[+] Total successful lookups: " ++ pretty (Manual.n_repeat p * Z.of_nat found) ++ Manual.nl)%string])).
Proof.
  intros Hh fails. split.
  { intros Hl. unfold fails, Manual.main. by destruct argv as [|? [|? [|? [|? [|? ?]]]]]. }
  intros a0 a1 a2 a3 ->. unfold fails, Manual.main. cbn [Manual.parse_args]. split; [|split].
  - intros Ha. by rewrite (Manual.not_named Manual.parse_algo _ _ (Manual.parse_algo_spec a1) Ha).
  - intros ([a r] & -> & Ha%Manual.parse_algo_spec)%list_elem_of_fmap Hs. cbn [fst]. rewrite Ha.
    by rewrite (Manual.not_named Manual.parse_size _ _ (Manual.parse_size_spec a2) Hs).
  - intros r p Ha%Manual.parse_algo_spec Hp%Manual.parse_size_spec. rewrite Ha, Hp. split; [by intros f ->|].
    intros n En. rewrite En, !bind_ret. split; intros Hn; [by rewrite (proj2 (Z.ltb_lt n 1) Hn)|].
    intros Hc. rewrite (proj2 (Z.ltb_ge n 1) Hn). apply (Manual.main_accepted frame_size [a0; a1; a2; a3]); [exact Hh| |exact Hc].
    cbn [Manual.parse_args]. rewrite Ha, Hp, En, bind_ret. by rewrite (proj2 (Z.ltb_ge n 1) Hn).
Qed.

(** A clock that ticks, and a generator that counts *)
#[local] Instance tick_clock : Manual.Clock Z :=
  {| Manual.now k := (k, k + 1); Manual.format_perop e _ _ _ := pretty e |}.
#[local] Instance count_engine : Rng.Engine Z :=
  {| Rng.seeded s := s; Rng.distribution from to g := (from + g mod (to - from + 1), g + 1) |}.

Lemma count_engine_laws : Rng.EngineLaws Z.
Proof. split. intros from to g Hr. cbn. pose proof (Z.mod_pos_bound g (to - from + 1)). lia. Qed.

Lemma manual_main_correct_witness :
  let lookups := Rng.numbers 1024 0 8192 (Rng.seeded (G := Z) 0) in
  let found := count_if (fun key => Z.even key && (key <? 8192)) lookups in
  Manual.main (H := bump_malloc) 64 Z ["driver"; "coro"; "quick"; " 8"]%string 7 =
  Ret (0,
    [("[+] Test configuration:" ++ Manual.nl ++ "[+]" ++ Manual.tab ++
      "Algorithm: coroutine Count: 4096 Lookups: 1024 Repeat 1" ++ Manual.nl)%string;
     ("[+] Test complete: 1 ns per lookup/log2(size)" ++ Manual.nl)%string;
     ("[+] Total successful lookups: " ++ pretty (1 * Z.of_nat found) ++ Manual.nl)%string]) /\
  Manual.main (H := bump_malloc) 64 Z ["driver"; "binary"; "quick"; "8"]%string 7 =
  Ret (1, Manual.usage (Some "invalid algorithm name"%string)).
Proof.
  split.
  - destruct (@manual_main_correct Z _ Z _ count_engine_laws bump_malloc bump_malloc_total 64
      ["driver"; "coro"; "quick"; " 8"]%string 7) as [_ H]; [discriminate|].
    destruct (H "driver"%string "coro"%string "quick"%string " 8"%string eq_refl) as (_ & _ & H1).
    destruct (H1 Manual.test_coro (Manual.MkParams 16384 1024 1)) as [_ H2].
    + right; right; left.
    + left.
    + destruct (H2 8 eq_refl) as [_ H3]. etransitivity; [apply H3; [discriminate|reflexivity]|]. reflexivity.
  - destruct (@manual_main_correct Z _ Z _ count_engine_laws bump_malloc bump_malloc_total 64
      ["driver"; "binary"; "quick"; "8"]%string 7) as [_ H]; [discriminate|].
    apply (H _ _ _ _ eq_refl). apply (bool_decide_unpack _). vm_compute. exact I.
Defined.
