(* ===== verification/CoroInfra.v ===== *)
(** * CoroInfra: who owns a coroutine frame in applications/binary-search/coro_infra.hpp

    Interleave speaks of frames only. Here the objects that hold them are in the
    model too: the [root_task] that a call returns, whose destructor destroys the
    frame unless a throttler has taken it over; the pointer to the throttler in
    the promise, by which a coroutine that returns raises its limit; and the
    throttlers themselves, which are objects with a lifetime. The theorems say
    that these programs do what Interleave's do, so that no task is completed
    without its throttler, and no frame is destroyed twice or lost. *)

From S2P Require Import Prelude Schedulers Allocators BinarySearch.
From S2P Require Interleave.
Local Open Scope Z_scope.

Module CoroInfra.
Section Infra.
Context {Q A F R W : Type} `{SchedulerOps Q} `{FrameAllocOps A}.

(** The body of the coroutine between suspensions, and what its callbacks do;
    see Interleave. *)
Context (step : F -> outcome (F + R)) (emit : R -> W -> W) (frame_size : Z).

Record promise_type := Promise { owner : ptr }.

Record root_task := RootTask { task_handle : ptr }.

(** The frames with their promises, and the throttlers with their [limit] *)
Record machine := Machine {
  scheduler : Q;
  allocator : A;
  frames : gmap addr (promise_type * F);
  throttlers : gmap addr Z;
  world : W;
}.

Definition set_scheduler (q : Q) (m : machine) : machine :=
  Machine q (allocator m) (frames m) (throttlers m) (world m).
Definition set_frames (fs : gmap addr (promise_type * F)) (m : machine) : machine :=
  Machine (scheduler m) (allocator m) fs (throttlers m) (world m).
Definition set_limit (t : addr) (l : Z) (m : machine) : machine :=
  Machine (scheduler m) (allocator m) (frames m) (<[t := l]> (throttlers m)) (world m).

(** ** root_task *)

(** The call of a coroutine: [operator new], the promise, [get_return_object]
    and the initial suspension. *)
Definition call (f : F) (m : machine) : outcome (root_task * machine) :=
  '(p, a) ← fa_alloc frame_size (allocator m);
  Ret (RootTask (Some p), Machine (scheduler m) a (<[p := (Promise null, f)]> (frames m)) (throttlers m) (world m)).

(** [coroutine_handle<>::destroy()], through [operator delete] *)
Definition destroy (p : addr) (m : machine) : outcome machine :=
  _ ← or_fault DoubleDestroy (frames m !! p);
  a ← fa_free p frame_size (allocator m);
  Ret (Machine (scheduler m) a (delete p (frames m)) (throttlers m) (world m)).

(** The handle, and what is left of the task *)
Definition set_owner (t : addr) (task : root_task) (m : machine) : outcome (ptr * root_task * machine) :=
  p ← or_fault NullDeref (task_handle task);
  '(_, f) ← or_fault Dangling (frames m !! p);
  Ret (Some p, RootTask null, set_frames (<[p := (Promise (Some t), f)]> (frames m)) m).

Definition destructor (task : root_task) (m : machine) : outcome machine :=
  match task_handle task with Some p => destroy p m | None => Ret m end.

(** [root_task(root_task&&)]: the new task and what is left of the source *)
Definition move (task : root_task) : root_task * root_task := (RootTask (task_handle task), RootTask null).

(** [throttler::on_task_done()] *)
Definition on_task_done (t : addr) (m : machine) : outcome machine :=
  l ← or_fault Dangling (throttlers m !! t);
  Ret (set_limit t (u64 (l + 1)) m).

(** [promise_type::return_void()] *)
Definition return_void (x : promise_type) (m : machine) : outcome machine :=
  t ← or_fault NullDeref (owner x); on_task_done t m.

(** ** Suspension and resumption *)

(** [prefetch_awaitable::await_suspend] *)
Definition await_suspend (h : ptr) (m : machine) : outcome (ptr * machine) :=
  q ← sq_schedule h (scheduler m);
  '(next, q) ← sq_remove_next q;
  Ret (next, set_scheduler q m).

(** [resume()]: the coroutine runs until it awaits a prefetch, which transfers
    control to the next one, or until it returns, which destroys its frame. *)
Fixpoint resume (fuel : nat) (h : ptr) (m : machine) : outcome machine :=
  match fuel with
  | O => Diverged
  | S fuel =>
    match h with
    | None => Fault NullDeref
    | Some p =>
      '(x, f) ← or_fault BadResume (frames m !! p);
      s ← step f;
      match s with
      | inl f' =>
        '(next, m) ← await_suspend h (set_frames (<[p := (x, f')]> (frames m)) m);
        resume fuel next m
      | inr r =>
        m ← return_void x (Machine (scheduler m) (allocator m) (frames m) (throttlers m) (emit r (world m)));
        destroy p m
      end
    end
  end.

(** [scheduler_queue::run()], which is [throttler::run()] *)
Fixpoint run (fuel : nat) (m : machine) : outcome machine :=
  match fuel with
  | O => Diverged
  | S fuel =>
    '(h, q) ← sq_try_remove_next (scheduler m);
    match h with
    | None => Ret (set_scheduler q m)
    | Some _ => m ← resume (S fuel) h (set_scheduler q m); run fuel m
    end
  end.

(** ** throttler *)

(** [spawn(root_task t)]: the parameter is destroyed when the call ends. *)
Definition spawn (fuel : nat) (t : addr) (task : root_task) (m : machine) : outcome machine :=
  l ← or_fault Dangling (throttlers m !! t);
  m ← (if decide (l = 0) then '(h, q) ← sq_remove_next (scheduler m); resume fuel h (set_scheduler q m) else Ret m);
  '(h, task, m) ← set_owner t task m;
  q ← sq_schedule h (scheduler m);
  l ← or_fault Dangling (throttlers m !! t);
  destructor task (set_limit t (u64 (l - 1)) (set_scheduler q m)).

(** [~throttler()] *)
Definition throttler_destructor (fuel : nat) (t : addr) (m : machine) : outcome machine :=
  m ← run fuel m;
  Ret (Machine (scheduler m) (allocator m) (frames m) (delete t (throttlers m)) (world m)).

(** [for (...) t.spawn(coroutine(...));] *)
Fixpoint spawn_all (fuel : nat) (t : addr) (fs : list F) (m : machine) : outcome machine :=
  match fs with
  | [] => Ret m
  | f :: fs => '(task, m) ← call f m; m ← spawn fuel t task m; spawn_all fuel t fs m
  end.

(** [throttler t{limit}], the loop, [t.run()], the end of the scope *)
Definition multi (fuel : nat) (t : addr) (limit : Z) (fs : list F) (m : machine) : outcome machine :=
  m ← spawn_all fuel t fs (set_limit t limit m);
  m ← run fuel m;
  throttler_destructor fuel t m.
End Infra.
Arguments machine : clear implicits.

(** ** Refinement *)

Section Refine.
Context {Q A F R W : Type} `{Scheduler Q}.
Context (step : F -> outcome (F + R)) (emit : R -> W -> W) (frame_size : Z) `{FrameAlloc A frame_size}.

(** The throttler of the program *)
Context (t : addr).

Abbreviation machine := (machine Q A F W).

(** What Interleave sees. *)
Definition erase (m : machine) : Interleave.runtime :=
  Interleave.Runtime (scheduler m) (allocator m) (snd <$> frames m) (default 0 (throttlers m !! t)) (world m).

(** The coroutines in [U] have been called but not spawned; the others belong
    to [t]. *)
Definition owners (U : gset addr) (m : machine) : Prop :=
  is_Some (throttlers m !! t) /\
  forall p x f, frames m !! p = Some (x, f) -> owner x = if decide (p ∈ U) then null else Some t.

Abbreviation rt_inv := (Interleave.rt_inv step frame_size).

(** The relation between the two programs: the same result, and the other
    throttlers untouched. *)
Definition refines (U : gset addr) (m : machine) (r : outcome machine) (rt' : Interleave.runtime) : Prop :=
  exists m', r = Ret m' /\ erase m' = rt' /\ owners U m' /\ delete t (throttlers m') = delete t (throttlers m).

Abbreviation resume := (resume step emit frame_size).
Abbreviation addrs := (Interleave.addrs (R := R)).

Lemma owners_insert U m p x f f' : owners U m -> frames m !! p = Some (x, f) -> owners U (set_frames (<[p := (x, f')]> (frames m)) m).
Proof.
  intros [Ht Ho] Ep. split; [done|]. intros p' x' f''. cbn. rewrite lookup_insert_Some.
  intros [[<- [= <- <-]]|[_ E]]; by eapply Ho.
Qed.

Lemma erase_insert m p x f' : erase (set_frames (<[p := (x, f')]> (frames m)) m) =
  Interleave.Runtime (scheduler m) (allocator m) (<[p := f']> (snd <$> frames m)) (default 0 (throttlers m !! t)) (world m).
Proof. unfold erase. cbn. by rewrite fmap_insert. Qed.

(** A coroutine that returns finds its throttler, which is told, and its frame
    is destroyed. *)
Lemma completes_refines U m p x f r rt' :
  owners U m -> frames m !! p = Some (x, f) -> p ∉ U ->
  Interleave.destroy frame_size p (Interleave.on_task_complete (Interleave.on_result emit r (erase m))) = Ret rt' ->
  refines U m (m ← return_void x (Machine (scheduler m) (allocator m) (frames m) (throttlers m) (emit r (world m)));
    destroy frame_size p m) rt'.
Proof.
  intros [[l El] Ho] Ep HU E. unfold return_void. rewrite (Ho _ _ _ Ep), decide_False by done. cbn [or_fault]. run_bind.
  unfold on_task_done. cbn [throttlers]. rewrite El. cbn [or_fault]. run_bind. unfold destroy, set_limit.
  cbn [frames scheduler allocator throttlers world]. rewrite Ep. cbn [or_fault]. run_bind. unfold Interleave.destroy in E. cbn in E.
  destruct (fa_free p frame_size (allocator m)) as [a| | |]; try done. revert E. run_bind. intros [= <-]. eexists.
  split; [done|]. split; [|split; [split|]].
  - unfold erase. cbn. by rewrite fmap_delete, El, lookup_insert_eq.
  - cbn. rewrite lookup_insert_eq. by eexists.
  - intros p' x' f'. cbn. rewrite lookup_delete_Some. intros [_ E]. by eapply Ho.
  - cbn. by rewrite delete_insert_eq.
Qed.

Lemma resume_refines fuel U m y cur queue rt' :
  owners U m -> rt_inv (erase m) (y :: cur) queue -> (forall p, p ∈ addrs (y :: queue) -> p ∉ U) ->
  (length queue < sq_capacity)%nat ->
  Interleave.resume step emit frame_size fuel (Some (Interleave.t_addr y)) (erase m) = Ret rt' ->
  refines U m (resume fuel (Some (Interleave.t_addr y)) m) rt'.
Proof.
  revert m y queue. induction fuel as [|fuel IH]; intros m y queue Ho I HU Hc E; [done|].
  pose proof (Interleave.inv_tasks _ _ _ _ _ I) as [(f & Ef & Hruns) _]%Forall_cons.
  assert (Interleave.t_addr y ∉ U) as Hy by (apply HU; left).
  cbn [CoroInfra.resume Interleave.resume] in *. rewrite Ef in E. cbn [erase Interleave.rt_frames] in Ef. rewrite lookup_fmap in Ef.
  destruct (frames m !! Interleave.t_addr y) as [[x f0]|] eqn:Ep; [|done]. injection Ef as ->. cbn [or_fault] in *.
  revert E. run_bind. inversion Hruns as [f0 r Es|f0 f' k r Es Hruns' Ef0 En]; subst; rewrite Es; run_bind; intros E.
  { by eapply completes_refines. }
  pose proof (Interleave.rt_inv_step _ _ _ _ _ _ _ _ I Hruns') as I1. rewrite <- (erase_insert m _ x) in E.
  cbn [erase Interleave.rt_frames Interleave.rt_sched Interleave.rt_alloc Interleave.rt_limit Interleave.rt_world] in I1.
  rewrite <- (erase_insert m _ x) in I1. pose proof (owners_insert U m _ _ _ f' Ho Ep) as Ho1.
  set (m1 := set_frames _ m) in *. set (y1 := Interleave.Task _ _ k) in *.
  destruct (sq_schedule_spec _ _ (Interleave.t_addr y1) (Interleave.inv_sched _ _ _ _ _ I1)) as (q1 & E1 & R1).
  { unfold Interleave.addrs. by rewrite length_fmap. }
  rewrite <- Interleave.addrs_snoc in R1. pose proof (Interleave.rt_inv_enqueue _ _ _ _ _ _ q1 I1 R1) as I2.
  destruct (queue ++ [y1]) as [|z rest] eqn:Eq; [by destruct queue|].
  destruct (sq_remove_next_spec q1 (Interleave.t_addr z) (addrs rest)) as (q2 & E2 & R2); [done|].
  pose proof (Interleave.rt_inv_dequeue _ _ _ _ _ _ q2 I2 R2) as I3.
  unfold await_suspend. unfold Interleave.await_suspend in E.
  cbn [erase Interleave.rt_sched] in E, E1. cbn [y1 Interleave.t_addr] in E1. rewrite E1 in E. rewrite E1.
  revert E. run_bind. intros E.
  destruct (IH (set_scheduler q2 m1) z rest) as (m' & Er & He & Hm & Ht); [done|done| | |exact E|by exists m'].
  - intros p Hp. apply HU. assert (addrs (z :: rest) ≡ₚ addrs (y :: queue)) as <-; [|done]. rewrite <- Eq, Interleave.addrs_snoc.
    cbn. symmetry. apply Permutation_cons_append.
  - apply (f_equal length) in Eq. rewrite length_app in Eq. cbn in Eq. lia.
Qed.

Lemma refines_trans U m m1 r rt' : delete t (throttlers m1) = delete t (throttlers m) -> refines U m1 r rt' -> refines U m r rt'.
Proof. intros Ht (m' & E & He & Ho & Ht'). exists m'. split_and!; [done..|congruence]. Qed.

(** The new task is handed over to the throttler: the parameter of [spawn] has
    nothing left to destroy. *)
Lemma push_refines m p rt' :
  owners {[p]} m -> is_Some (frames m !! p) ->
  (q ← sq_schedule (Some p) (scheduler m);
   Ret (Interleave.Runtime q (allocator m) (snd <$> frames m) (u64 (Interleave.rt_limit (erase m) - 1)) (world m))) = Ret rt' ->
  refines ∅ m
    ('(h, task, m) ← set_owner t (RootTask (Some p)) m;
     q ← sq_schedule h (scheduler m);
     l ← or_fault Dangling (throttlers m !! t);
     destructor frame_size task (set_limit t (u64 (l - 1)) (set_scheduler q m))) rt'.
Proof.
  intros [[l El] Ho] [[x f] Ep] E. unfold set_owner. cbn [task_handle or_fault]. run_bind. rewrite Ep. cbn [or_fault]. run_bind.
  cbn [scheduler set_frames]. destruct (sq_schedule (Some p) (scheduler m)) as [q| | |]; try done. revert E. run_bind. intros [= <-].
  cbn [throttlers set_scheduler set_frames]. rewrite El. cbn [or_fault]. run_bind. eexists. split; [reflexivity|].
  split; [|split; [split|]].
  - unfold erase. cbn. rewrite lookup_insert_eq, fmap_insert. cbn. by rewrite insert_id by by rewrite lookup_fmap, Ep.
  - cbn. rewrite lookup_insert_eq. by eexists.
  - intros p' x' f'. cbn. rewrite lookup_insert_Some. intros [[<- [= <- <-]]|[Hne Ex]]; [done|].
    rewrite (Ho _ _ _ Ex), decide_False by set_solver. done.
  - cbn. by rewrite delete_insert_eq.
Qed.

Lemma frame_of_task m y cur queue : rt_inv (erase m) (y :: cur) queue -> is_Some (frames m !! Interleave.t_addr y).
Proof.
  intros I. pose proof (Interleave.inv_tasks _ _ _ _ _ I) as [(f & Ef & _) _]%Forall_cons.
  cbn in Ef. rewrite lookup_fmap in Ef. destruct (frames m !! Interleave.t_addr y); [by eexists|done].
Qed.

(** The tasks that are not in the queue have not been spawned. *)
Lemma queued_spawned (m : machine) cur queue p : rt_inv (erase m) cur queue -> p ∈ addrs queue -> p ∉@{gset addr} list_to_set (addrs cur).
Proof.
  intros I Hp. pose proof (Interleave.inv_nodup _ _ _ _ _ I) as Hn. unfold Interleave.addrs in *. rewrite fmap_app in Hn.
  apply NoDup_app in Hn as (_ & Hd & _). rewrite elem_of_list_to_set. intros Hc. by apply (Hd p).
Qed.

Lemma spawn_refines fuel m y queue (n : nat) rt' :
  owners {[Interleave.t_addr y]} m -> rt_inv (erase m) [y] queue ->
  (0 < n)%nat -> (length queue <= n)%nat -> (n <= sq_capacity)%nat -> Z.of_nat n < 2 ^ 64 ->
  Interleave.rt_limit (erase m) = Z.of_nat n - Z.of_nat (length queue) -> (Interleave.steps queue < fuel)%nat ->
  Interleave.spawn step emit frame_size fuel (Interleave.t_addr y) (erase m) = Ret rt' ->
  refines ∅ m (spawn step emit frame_size fuel t (RootTask (Some (Interleave.t_addr y))) m) rt'.
Proof.
  intros Ho I H0n Hqn Hn Hmax Hl Hf E. pose proof Ho as [[l El] _]. unfold spawn, Interleave.spawn in *. rewrite El. cbn [or_fault].
  run_bind. assert (Interleave.rt_limit (erase m) = l) as Hlim by (cbn; by rewrite El). rewrite Hlim in E, Hl. case_decide as Hz.
  - destruct queue as [|x rest]; [cbn in Hl; lia|]. cbn [length] in *.
    destruct (sq_remove_next_spec (scheduler m) (Interleave.t_addr x) (addrs rest)) as (q & Eq & Rq).
    { apply (Interleave.inv_sched _ _ _ _ _ I). }
    pose proof (Interleave.rt_inv_dequeue _ _ _ _ _ _ _ I Rq) as I1. cbn [erase Interleave.rt_sched] in E.
    rewrite Eq in E |- *. revert E. run_bind. intros E.
    destruct (Interleave.resume_spec step emit frame_size fuel _ x [y] rest I1) as (rt1 & y1 & queue1 & E1 & I2 & _); [lia|done|].
    pose proof E1 as E1'. cbn [erase Interleave.rt_alloc Interleave.rt_frames Interleave.rt_limit Interleave.rt_world] in E, E1'.
    rewrite El in E1'. cbn [default id] in E1'. rewrite E1' in E. revert E. run_bind. intros E.
    destruct (resume_refines fuel {[Interleave.t_addr y]} (set_scheduler q m) x [y] rest rt1) as (m1 & Em1 & <- & Ho1 & Ht1);
      [done|done| |lia|done|].
    { intros p Hp. pose proof (queued_spawned _ _ _ p I Hp) as Hq. cbn in Hq. set_solver. }
    rewrite Em1. run_bind. apply (refines_trans _ _ m1); [done|]. apply push_refines; [done| |exact E].
    by eapply frame_of_task.
  - revert E. run_bind. intros E. apply push_refines; [done|by eapply frame_of_task|]. exact E.
Qed.

Lemma call_refines m f p rt1 :
  owners ∅ m -> Interleave.create frame_size f (erase m) = Ret (p, rt1) ->
  exists m1, call frame_size f m = Ret (RootTask (Some p), m1) /\ erase m1 = rt1 /\ owners {[p]} m1 /\ throttlers m1 = throttlers m.
Proof.
  intros [Ht Ho] E. unfold call. unfold Interleave.create in E. cbn [erase Interleave.rt_alloc] in E.
  destruct (fa_alloc frame_size (allocator m)) as [[p' a]| | |]; try done. revert E. run_bind. intros [= -> <-].
  eexists. split; [done|]. split; [|split; [split|]].
  - unfold erase. cbn. by rewrite fmap_insert.
  - done.
  - intros p' x' f'. cbn. rewrite lookup_insert_Some. intros [[<- [= <- <-]]|[Hne Ex]].
    + by rewrite decide_True by set_solver.
    + rewrite (Ho _ _ _ Ex), decide_False, decide_False by set_solver. done.
  - done.
Qed.

Lemma spawn_all_refines fuel fs ks rs m queue (n : nat) rt' :
  Interleave.run_all step fs ks rs -> owners ∅ m -> rt_inv (erase m) [] queue ->
  (0 < n)%nat -> (length queue <= n)%nat -> (n <= sq_capacity)%nat -> Z.of_nat n < 2 ^ 64 ->
  Interleave.rt_limit (erase m) = Z.of_nat n - Z.of_nat (length queue) ->
  (Interleave.steps queue + sum_list ks < fuel)%nat ->
  Interleave.spawn_all step emit frame_size fuel fs (erase m) = Ret rt' ->
  refines ∅ m (spawn_all step emit frame_size fuel t fs m) rt'.
Proof.
  intros Hruns. revert m queue. induction Hruns as [|f k r fs ks rs Hr Hruns IH]; intros m queue Ho I H0n Hqn Hn Hmax Hl Hf E.
  { injection E as <-. by exists m. }
  cbn [spawn_all]. cbn [Interleave.spawn_all] in E. cbn in Hf.
  destruct (Interleave.create_spec step frame_size (erase m) queue f k r I Hr) as (rt1 & y & E1 & I1 & <- & <- & Hl1 & _).
  rewrite E1 in E. revert E. run_bind. intros E.
  destruct (call_refines m f _ rt1 Ho E1) as (m1 & Em1 & <- & Ho1 & Ht1). rewrite Em1. run_bind.
  destruct (Interleave.spawn_spec step emit frame_size fuel (erase m1) y queue n I1) as (rt2 & rs2 & queue2 & E2 & I2 & _ & Hq2 & Hs2 & Hl2 & _);
    try done; [by rewrite Hl1|lia|].
  rewrite E2 in E. revert E. run_bind. intros E. rewrite Interleave.steps_cons in Hs2.
  destruct (spawn_refines fuel m1 y queue n rt2) as (m2 & Em2 & <- & Ho2 & Ht2); try done; [by rewrite Hl1|lia|].
  rewrite Em2. run_bind. apply (refines_trans _ _ m2); [congruence|]. apply (IH m2 queue2); try done. lia.
Qed.

Lemma run_refines fuel m queue (n : nat) rt' :
  owners ∅ m -> rt_inv (erase m) [] queue -> (length queue <= n)%nat -> (n <= sq_capacity)%nat -> Z.of_nat n < 2 ^ 64 ->
  Interleave.rt_limit (erase m) = Z.of_nat n - Z.of_nat (length queue) -> (Interleave.steps queue < fuel)%nat ->
  Interleave.run step emit frame_size fuel (erase m) = Ret rt' ->
  refines ∅ m (run step emit frame_size fuel m) rt'.
Proof.
  revert m queue. induction fuel as [|fuel IH]; intros m queue Ho I Hqn Hn Hmax Hl Hf E; [done|].
  cbn [run]. cbn [Interleave.run erase Interleave.rt_sched] in E. destruct queue as [|x rest].
  - rewrite sq_try_remove_next_nil in E |- * by apply (Interleave.inv_sched _ _ _ _ _ I). revert E. run_bind. intros [= <-].
    by eexists.
  - destruct (sq_try_remove_next_cons (scheduler m) (Interleave.t_addr x) (addrs rest)) as (q & Eq & Rq).
    { apply (Interleave.inv_sched _ _ _ _ _ I). }
    rewrite Eq in E |- *. revert E. run_bind. intros E.
    pose proof (Interleave.rt_inv_dequeue _ _ _ _ _ _ _ I Rq) as I1. cbn [length] in *.
    destruct (Interleave.resume_spec step emit frame_size (S fuel) _ x [] rest I1) as (rt1 & t1 & queue1 & E1 & I2 & Hp & Hs & Hl1 & _);
      [lia|done|].
    destruct (resume_refines (S fuel) ∅ (set_scheduler q m) x [] rest rt1) as (m1 & Em1 & <- & Ho1 & Ht1);
      [done|done|set_solver|lia|done|].
    rewrite Em1. run_bind. apply (refines_trans _ _ m1); [done|].
    assert (length queue1 = length rest) as Hlen.
    { apply Permutation_length in Hp. rewrite !Interleave.results_length in Hp. cbn in Hp. lia. }
    apply (IH m1 queue1); try done; [lia| |lia|].
    + rewrite Hl1. cbn [erase Interleave.rt_limit] in *. rewrite Hl, Hlen. wrap_lia.
    + change (Interleave.Runtime _ _ _ _ _) with (erase (set_scheduler q m)) in E. unfold set_scheduler in E1.
      cbn [erase Interleave.rt_alloc Interleave.rt_frames Interleave.rt_limit Interleave.rt_world] in E1.
      change (Interleave.Runtime _ _ _ _ _) with (erase (set_scheduler q m)) in E1. rewrite E1 in E. exact E.
Qed.

(** The whole program, from a state without coroutines: every call of
    Interleave's is refined by one with task objects and throttlers. The
    throttler ends with its scope, other throttlers are untouched, and no frame
    is left. *)
Lemma multi_refines fuel (n : nat) fs ks rs m :
  Interleave.run_all step fs ks rs -> sq_repr (scheduler m) [] -> fa_inv (allocator m) ∅ -> frames m = ∅ ->
  throttlers m !! t = None -> (0 < n)%nat -> (n <= sq_capacity)%nat -> Z.of_nat n < 2 ^ 64 -> (sum_list ks < fuel)%nat ->
  exists rt m', Interleave.multi step emit frame_size fuel (Z.of_nat n) fs (scheduler m) (allocator m) (world m) = Ret rt /\
    multi step emit frame_size fuel t (Z.of_nat n) fs m = Ret m' /\
    scheduler m' = Interleave.rt_sched rt /\ allocator m' = Interleave.rt_alloc rt /\ world m' = Interleave.rt_world rt /\
    frames m' = ∅ /\ throttlers m' = throttlers m.
Proof.
  intros Hruns Hq Ha Hfr Ht H0n Hn Hmax Hf. set (m0 := set_limit t (Z.of_nat n) m).
  assert (erase m0 = Interleave.Runtime (scheduler m) (allocator m) ∅ (Z.of_nat n) (world m)) as He0.
  { unfold erase, m0. cbn. by rewrite lookup_insert_eq, Hfr, fmap_empty. }
  assert (rt_inv (erase m0) [] []) as I.
  { rewrite He0. split; cbn; [done|by rewrite dom_empty_L|by rewrite dom_empty_L|by constructor|by constructor]. }
  assert (owners ∅ m0) as Ho.
  { split; cbn; [rewrite lookup_insert_eq; by eexists|]. intros p x f. by rewrite Hfr, lookup_empty. }
  unfold Interleave.multi, multi. rewrite <- He0. fold m0.
  destruct (Interleave.spawn_all_spec step emit frame_size fuel fs ks rs (erase m0) [] n Hruns I)
    as (rt1 & rs1 & q1 & E1 & I1 & _ & Hq1 & Hs1 & Hl1 & _); try done; [cbn; lia|by rewrite He0; cbn; lia|].
  destruct (spawn_all_refines fuel fs ks rs m0 [] n rt1) as (m1 & Em1 & <- & Ho1 & Ht1); try done; [cbn; lia|by rewrite He0; cbn; lia|].
  rewrite E1, Em1. run_bind. cbn [Interleave.steps sum_list_with] in Hs1.
  destruct (Interleave.run_spec step emit frame_size fuel (erase m1) q1 n I1) as (rt2 & rs2 & E2 & I2 & _ & Hl2 & _); try done; [cbn in Hs1; lia|].
  destruct (run_refines fuel m1 q1 n rt2) as (m2 & Em2 & <- & Ho2 & Ht2); try done; [cbn in Hs1; lia|].
  rewrite E2, Em2. run_bind.
  destruct (Interleave.run_spec step emit frame_size fuel (erase m2) [] n I2) as (rt3 & rs3 & E3 & I3 & _); try done; [cbn; lia|rewrite Hl2; cbn; lia|cbn; lia|].
  destruct (run_refines fuel m2 [] n rt3) as (m3 & Em3 & <- & Ho3 & Ht3); try done; [cbn; lia|rewrite Hl2; cbn; lia|cbn; lia|].
  unfold throttler_destructor. rewrite E3, Em3. run_bind. eexists _, _. do 5 (split; [done|]). cbn.
  destruct I3 as [_ _ J3 _ _]. cbn in J3. rewrite dom_fmap_L in J3. split; [by apply dom_empty_inv_L|].
  rewrite Ht3, Ht2, Ht1. cbn. by rewrite delete_insert_eq, delete_id.
Qed.
End Refine.

(** ** coroutine.hpp on task objects *)

Section Search.
Context `{Malloc} (frame_size : Z).

Abbreviation program := (machine SchedulerQueue.scheduler_queue TcAlloc.tcalloc Coro.frame Coro.counters).

(** [coro_multi_lookup], with its throttler at [t]; the world of the program are
    the counters [found_count] and [not_found_count]. *)
Definition coro_multi_lookup (fuel : nat) (t : addr) (dataset lookups : list Z) (n_streams : Z) (m : program)
    : outcome (Z * program) :=
  let tasks := (fun key => Coro.Start 0 (Z.of_nat (length dataset)) key) <$> lookups in
  m ← multi (Coro.coro_binary_search dataset) Coro.callback frame_size fuel t n_streams tasks m;
  let '(found, not_found) := world m in
  if decide (u64 (found + not_found) = Z.of_nat (length lookups)) then
    Ret (found, Machine (scheduler m) (allocator m) (frames m) (throttlers m) (0, 0))
  else Fault AssertionFailed.

Definition globals_of (m : program) : Coro.globals := Coro.Globals (scheduler m) (allocator m) (world m).

(** C31. The search with task objects, owners in the promises and a throttler that
    lives on the stack returns what the search over bare frames returns, with
    the same scheduler, allocator and counters: no coroutine completes without
    a throttler, none is resumed or destroyed after its frame is gone, none is
    left, and other throttlers are not told. *)
Theorem infra_multi_lookup_refines `{!MallocTotal} fuel t data lookups (n : nat) (m : program) :
  Sorted Z.le data -> Coro.ready frame_size (globals_of m) -> frames m = ∅ -> throttlers m !! t = None ->
  (0 < n < 256)%nat -> Z.of_nat (length lookups) < 2 ^ 64 -> (length lookups * S (length data) < fuel)%nat ->
  exists c m', coro_multi_lookup fuel t data lookups (Z.of_nat n) m = Ret (c, m') /\
    Coro.coro_multi_lookup frame_size fuel data lookups (Z.of_nat n) (globals_of m) = Ret (c, globals_of m') /\
    frames m' = ∅ /\ throttlers m' = throttlers m.
Proof.
  intros Hs Hg Hfr Ht Hn Hl Hf. pose proof Hg as (Hq & Ha & _). destruct (Coro.tasks_run data lookups Hs) as (ks & Hks & Hle).
  destruct (multi_refines (H2 := TcAlloc.laws frame_size) (Coro.coro_binary_search data) Coro.callback frame_size t
    fuel n _ ks _ m Hks Hq Ha Hfr Ht) as (rt & m' & Er & Em & Esch & Eal & Ew & Ef & Eth); [lia| |lia|lia|].
  { change (n <= 255)%nat. lia. }
  destruct (Coro.coro_multi_lookup_spec frame_size fuel data lookups n (globals_of m) Hs Hg Hn Hl Hf) as (g' & Eg & _).
  unfold Coro.coro_multi_lookup in *. unfold coro_multi_lookup. cbn [globals_of Coro.scheduler Coro.allocator Coro.found_counts] in *.
  rewrite Er in *. rewrite Em. revert Eg. run_bind. rewrite Ew. destruct (Interleave.rt_world rt) as [found not_found].
  case_decide; [|done]. intros [= -> <-]. eexists _, _. split; [done|]. cbn. by rewrite Esch, Eal.
Qed.
End Search.

(** ** Task objects outside of a throttler *)

(** A task that is never spawned is destroyed with its frame before its body has
    run; a task that has been moved from has no frame to spawn. *)
Theorem unspawned_task_destroyed {Q A F W} `{SchedulerOps Q} `{FrameAllocOps A} frame_size `{!FrameAlloc A frame_size}
    (f : F) (m : machine Q A F W) :
  fa_inv (allocator m) (dom (frames m)) ->
  exists task m1 m2, call frame_size f m = Ret (task, m1) /\ destructor frame_size task m1 = Ret m2 /\
    frames m2 = frames m /\ world m2 = world m /\ fa_inv (allocator m2) (dom (frames m)) /\
    destructor frame_size (snd (move task)) m2 = Ret m2 /\
    forall t, set_owner t (snd (move task)) m1 = Fault NullDeref.
Proof.
  intros Ha. destruct (fa_alloc_spec (n := frame_size) _ _ Ha) as (p & a & E & Hp & Ha').
  destruct (fa_free_spec (n := frame_size) a _ p Ha') as (a' & E' & Ha2); [set_solver|].
  assert (p ∉ dom (frames m)) as Hn by done. apply not_elem_of_dom in Hn.
  exists (RootTask (Some p)), (Machine (scheduler m) a (<[p := (Promise null, f)]> (frames m)) (throttlers m) (world m)),
    (Machine (scheduler m) a' (frames m) (throttlers m) (world m)).
  unfold call. rewrite E. run_bind. split; [done|]. unfold destructor, destroy. cbn [task_handle frames allocator].
  rewrite lookup_insert_eq. cbn [or_fault]. run_bind. rewrite delete_insert_id by done.
  repeat split; try done. cbn. by replace (dom (frames m)) with (({[p]} ∪ dom (frames m)) ∖ {[p]}) by set_solver.
Qed.

(** ** Witnesses *)

Definition demo_machine : machine SchedulerQueue.scheduler_queue TcAlloc.tcalloc Coro.frame Coro.counters :=
  Machine SchedulerQueue.init TcAlloc.init ∅ {[ 7%positive := 3 ]} (0, 0).

Lemma infra_multi_lookup_refines_witness :
  exists c m', coro_multi_lookup (H := bump_malloc) 64 30 8%positive [1; 3; 5; 8] [8; 2; 3; 3; 9] 2 demo_machine = Ret (c, m') /\
    Coro.coro_multi_lookup (H := bump_malloc) 64 30 [1; 3; 5; 8] [8; 2; 3; 3; 9] 2 Coro.init_globals = Ret (c, globals_of m') /\
    frames m' = ∅ /\ throttlers m' = {[ 7%positive := 3 ]}.
Proof.
  apply (@infra_multi_lookup_refines bump_malloc 64 bump_malloc_total 30 8%positive [1; 3; 5; 8] [8; 2; 3; 3; 9] 2 demo_machine).
  - repeat constructor; lia.
  - by apply Coro.init_ready.
  - done.
  - done.
  - lia.
  - done.
  - cbn. lia.
Defined.

Example infra_multi_lookup_runs :
  match coro_multi_lookup (H := bump_malloc) 64 30 8%positive [1; 3; 5; 8] [8; 2; 3; 3; 9] 2 demo_machine with
  | Ret (c, _) => c = 3 | _ => False end.
Proof. vm_compute. reflexivity. Qed.
End CoroInfra.
