(* ===== verification/HashMap.v ===== *)
(** * HashMap: applications/map/map.hpp

    [Map<KeyT, ValueT, Hasher>]: an array of buckets, each the head of a chain
    of heap-allocated entries. Chains are modelled in a heap with [next]
    pointers and the loops walk it as the source does; a null or dangling
    dereference is a fault. The abstract specification is a finite map:
    [represents] relates the two and every operation is proved against it.
    Allocation of an entry is assumed to succeed. *)

From S2P Require Import Prelude Words LinkedList.
Local Open Scope Z_scope.

Section Map.
Context {K V : Type} `{EqDecision K}.

(** [std::hash<KeyT>] or the user's hash functor. *)
Context (hasher : K -> Z).

(** ** Data *)

Record Entry := MkEntry { next : ptr; key : K; value : V }.

Record Bucket := MkBucket { first : ptr; bucket_items : Z }.

Record Map := MkMap {
  n_items : Z;
  capacity : Z;
  max_capacity : Z;
  buckets : list Bucket;
  heap : gmap addr Entry;
}.

Definition DEFAULT_INIT_CAPACITY : Z := 16.
Definition DEFAULT_MAX_CAPACITY : Z := size_max.

(** [LookupKVResult]: pointers to the key and to the value of an entry, or null. *)
Record LookupKVResult := MkLookup { lookup_key : ptr; lookup_value : ptr }.

Definition lookup_found (r : LookupKVResult) : bool := bool_decide (lookup_key r <> null).

(** What the references of an [InsertKVResult] are bound to: an entry, the
    caller's key argument, or the by-value parameter of the operation, which
    no longer exists once the operation has returned. *)
Inductive ref := RefEntry (a : addr) | RefCaller | RefParameter.

Record InsertKVResult := MkInsert { insert_key : ref; insert_value : ref; inserted : bool }.

Record RemoveKVResult := MkRemove { remove_key : option K; remove_value : option V }.

(** [explicit operator bool()]; [get_key()] and [get_value()], whose text
    [take_key()] and [take_value()] repeat: an absent value is not checked for. *)
Definition remove_found (r : RemoveKVResult) : bool := bool_decide (is_Some (remove_key r)).
Definition remove_get_key (r : RemoveKVResult) : outcome K := or_fault NullDeref (remove_key r).
Definition remove_get_value (r : RemoveKVResult) : outcome V := or_fault NullDeref (remove_value r).

Record StatsResult := MkStats {
  st_count : Z;
  st_capacity : Z;
  st_max_capacity : Z;
  (* the load factor, as the quotient of two doubles *)
  st_load_factor : Z * Z;
  st_min_bucket_depth : Z;
  st_max_bucket_depth : Z;
  st_avg_bucket_depth : Z;
}.

(** The accessors of the results, after the operation has returned. *)
Definition lookup_get_key (h : gmap addr Entry) (r : LookupKVResult) : outcome K :=
  e ← deref h (lookup_key r); Ret (key e).
Definition lookup_get_value (h : gmap addr Entry) (r : LookupKVResult) : outcome V :=
  e ← deref h (lookup_value r); Ret (value e).

Definition insert_get_key (h : gmap addr Entry) (caller : K) (r : InsertKVResult) : outcome K :=
  match insert_key r with
  | RefEntry a => e ← deref h (Some a); Ret (key e)
  | RefCaller => Ret caller
  | RefParameter => Fault Dangling
  end.
Definition insert_get_value (h : gmap addr Entry) (r : InsertKVResult) : outcome V :=
  match insert_value r with
  | RefEntry a => e ← deref h (Some a); Ret (value e)
  | RefCaller => Fault Dangling
  | RefParameter => Fault Dangling
  end.

(** ** Construction and destruction *)

(** [Map(std::size_t const max_capacity_)] *)
Definition Map_new (max_capacity_ : Z) : outcome Map :=
  if decide (0 = max_capacity_) then
    Raise (RuntimeError "maximum capacity must be nonzero")
  else
    let init_capacity :=
      Z.shiftr (next_power_of_2 (Z.min DEFAULT_INIT_CAPACITY max_capacity_)) 1 in
    Ret (MkMap 0 init_capacity max_capacity_
           (replicate (Z.to_nat init_capacity) (MkBucket null 0)) ∅).

(** [Map()] *)
Definition Map_default : outcome Map := Map_new DEFAULT_MAX_CAPACITY.

(** [~Map()]: [delete[] buckets]; the entries stay allocated. *)
Definition Map_destroy (m : Map) : gmap addr Entry := heap m.

(** ** Internal operations *)

Definition bucket_index_for_key (m : Map) (k : K) : Z := mask_index (hasher k) (capacity m).

Definition resize_required (m : Map) : bool :=
  let load_factor_exceeded := load_factor_exceeds_half (n_items m) (capacity m) in
  let capacity_available := u64 (Z.shiftl (capacity m) 1) <=? max_capacity m in
  load_factor_exceeded && capacity_available.

(** [for (; current->next != nullptr; current = current->next);] *)
Fixpoint chain_last (fuel : nat) (h : gmap addr Entry) (current : addr) : outcome addr :=
  match fuel with
  | O => Diverged
  | S fuel =>
    e ← deref h (Some current);
    match next e with
    | None => Ret current
    | Some n => chain_last fuel h n
    end
  end.

(** [p->next = q] *)
Definition set_next (h : gmap addr Entry) (p : addr) (q : ptr) : outcome (gmap addr Entry) :=
  e ← deref h (Some p);
  Ret (<[p := MkEntry q (key e) (value e)]> h).

Definition insert_into_bucket (bucket : Bucket) (entry : addr) (h : gmap addr Entry)
    : outcome (Bucket * gmap addr Entry) :=
  h ← set_next h entry null;
  match first bucket with
  | None => Ret (MkBucket (Some entry) (u64 (bucket_items bucket + 1)), h)
  | Some current =>
    last ← chain_last (S (size h)) h current;
    h ← set_next h last (Some entry);
    Ret (MkBucket (first bucket) (u64 (bucket_items bucket + 1)), h)
  end.

(** [while (entry != nullptr)] of [perform_resize_if_required]. *)
Fixpoint rehash_chain (fuel : nat) (new_capacity : Z) (entry : ptr)
    (new_buckets : list Bucket) (h : gmap addr Entry) : outcome (list Bucket * gmap addr Entry) :=
  match fuel with
  | O => Diverged
  | S fuel =>
    match entry with
    | None => Ret (new_buckets, h)
    | Some a =>
      e ← deref h entry;
      let new_index := mask_index (hasher (key e)) new_capacity in
      new_bucket ← array_get new_buckets new_index;
      let tmp_next := next e in
      '(new_bucket, h) ← insert_into_bucket new_bucket a h;
      new_buckets ← array_set new_buckets new_index new_bucket;
      rehash_chain fuel new_capacity tmp_next new_buckets h
    end
  end.

(** The loop over the buckets of the current table. *)
Fixpoint rehash (old : list Bucket) (new_capacity : Z) (new_buckets : list Bucket)
    (h : gmap addr Entry) : outcome (list Bucket * gmap addr Entry) :=
  match old with
  | [] => Ret (new_buckets, h)
  | bucket :: old =>
    '(new_buckets, h) ← rehash_chain (S (size h)) new_capacity (first bucket) new_buckets h;
    rehash old new_capacity new_buckets h
  end.

Definition perform_resize_if_required (m : Map) : outcome Map :=
  if negb (resize_required m) then Ret m
  else
    let new_capacity := u64 (Z.shiftl (capacity m) 1) in
    let new_buckets := replicate (Z.to_nat new_capacity) (MkBucket null 0) in
    '(new_buckets, h) ← rehash (buckets m) new_capacity new_buckets (heap m);
    Ret (MkMap (n_items m) new_capacity (max_capacity m) new_buckets h).

(** ** Operations *)

(** The [for (;;)] of lookup, insert and update: the entry with the key, or the
    last entry of the chain. *)
Fixpoint find_entry (fuel : nat) (h : gmap addr Entry) (entry : ptr) (k : K) : outcome (addr + addr) :=
  match fuel with
  | O => Diverged
  | S fuel =>
    match entry with
    | None => Fault NullDeref
    | Some a =>
      e ← deref h entry;
      if decide (k = key e) then Ret (inl a)
      else match next e with
           | None => Ret (inr a)
           | Some n => find_entry fuel h (Some n) k
           end
    end
  end.

Definition lookup (m : Map) (k : K) : outcome LookupKVResult :=
  let index := bucket_index_for_key m k in
  bucket ← array_get (buckets m) index;
  if decide (0 = bucket_items bucket) then Ret (MkLookup null null)
  else
    r ← find_entry (S (size (heap m))) (heap m) (first bucket) k;
    match r with
    | inl a => Ret (MkLookup (Some a) (Some a))
    | inr _ => Ret (MkLookup null null)
    end.

(** [new Entry{key, value}] *)
Definition new_entry (h : gmap addr Entry) (k : K) (v : V) : addr * gmap addr Entry :=
  let a := fresh (dom h) in
  (a, <[a := MkEntry null k v]> h).

(** The common part of insert and update: a new entry in an empty bucket, ... *)
Definition insert_empty (m : Map) (index : Z) (bucket : Bucket) (k : K) (v : V)
    : outcome (Map * InsertKVResult) :=
  let '(a, h) := new_entry (heap m) k v in
  bs ← array_set (buckets m) index (MkBucket (Some a) (u64 (bucket_items bucket + 1)));
  m ← perform_resize_if_required
        (MkMap (u64 (n_items m + 1)) (capacity m) (max_capacity m) bs h);
  Ret (m, MkInsert RefCaller RefParameter true).

(** ... or at the end of the chain whose last entry is [entry]. *)
Definition insert_at_end (m : Map) (index : Z) (bucket : Bucket) (entry : addr) (k : K) (v : V)
    : outcome (Map * InsertKVResult) :=
  let '(a, h) := new_entry (heap m) k v in
  h ← set_next h entry (Some a);
  bs ← array_set (buckets m) index (MkBucket (first bucket) (u64 (bucket_items bucket + 1)));
  m ← perform_resize_if_required
        (MkMap (u64 (n_items m + 1)) (capacity m) (max_capacity m) bs h);
  Ret (m, MkInsert RefCaller RefParameter true).

Definition insert (m : Map) (k : K) (v : V) : outcome (Map * InsertKVResult) :=
  let index := bucket_index_for_key m k in
  bucket ← array_get (buckets m) index;
  if decide (0 = bucket_items bucket) then insert_empty m index bucket k v
  else
    r ← find_entry (S (size (heap m))) (heap m) (first bucket) k;
    match r with
    | inl a => Ret (m, MkInsert (RefEntry a) (RefEntry a) false)
    | inr entry => insert_at_end m index bucket entry k v
    end.

Definition update (m : Map) (k : K) (v : V) : outcome (Map * InsertKVResult) :=
  let index := bucket_index_for_key m k in
  bucket ← array_get (buckets m) index;
  if decide (0 = bucket_items bucket) then insert_empty m index bucket k v
  else
    r ← find_entry (S (size (heap m))) (heap m) (first bucket) k;
    match r with
    | inl a =>
      e ← deref (heap m) (Some a);
      Ret (MkMap (n_items m) (capacity m) (max_capacity m) (buckets m)
             (<[a := MkEntry (next e) (key e) v]> (heap m)),
           MkInsert (RefEntry a) (RefEntry a) true)
    | inr entry => insert_at_end m index bucket entry k v
    end.

(** The [for (;;)] of remove: [prev] keeps its initial value throughout. *)
Fixpoint remove_find (fuel : nat) (h : gmap addr Entry) (prev entry : ptr) (k : K)
    : outcome (option (ptr * addr)) :=
  match fuel with
  | O => Diverged
  | S fuel =>
    match entry with
    | None => Fault NullDeref
    | Some a =>
      e ← deref h entry;
      if decide (k = key e) then Ret (Some (prev, a))
      else match next e with
           | None => Ret None
           | Some n => remove_find fuel h prev (Some n) k
           end
    end
  end.

Definition remove (m : Map) (k : K) : outcome (Map * RemoveKVResult) :=
  let index := bucket_index_for_key m k in
  bucket ← array_get (buckets m) index;
  if decide (0 = bucket_items bucket) then Ret (m, MkRemove None None)
  else
    r ← remove_find (S (size (heap m))) (heap m) null (first bucket) k;
    match r with
    | None => Ret (m, MkRemove None None)
    | Some (prev, a) =>
      e ← deref (heap m) (Some a);
      '(first', h) ← (match prev with
                      | Some p => h ← set_next (heap m) p (next e); Ret (first bucket, h)
                      | None => Ret (next e, heap m)
                      end);
      bs ← array_set (buckets m) index (MkBucket first' (u64 (bucket_items bucket - 1)));
      Ret (MkMap (u64 (n_items m - 1)) (capacity m) (max_capacity m) bs (delete a h),
           MkRemove (Some (key e)) (Some (value e)))
    end.

(** [sequential_multilookup] into an output range. *)
Fixpoint sequential_multilookup (m : Map) (keys : list K) (results : list LookupKVResult)
    : outcome (list LookupKVResult) :=
  match keys with
  | [] => Ret results
  | k :: keys => r ← lookup m k; sequential_multilookup m keys (results ++ [r])
  end.

Definition count (m : Map) : Z := n_items m.

(** The loop of [stats] over the buckets: minimum, maximum and sum of the lengths. *)
Fixpoint bucket_stats (bs : list Bucket) (min_length max_length sum_length : Z) : Z * Z * Z :=
  match bs with
  | [] => (min_length, max_length, sum_length)
  | b :: bs =>
    bucket_stats bs (Z.min (bucket_items b) min_length) (Z.max (bucket_items b) max_length)
      (u64 (sum_length + bucket_items b))
  end.

Definition stats (m : Map) : outcome StatsResult :=
  let '(min_length, max_length, sum_length) := bucket_stats (buckets m) size_max 0 0 in
  if decide (capacity m = 0) then Fault DivisionByZero
  else
    Ret (MkStats (n_items m) (capacity m) (max_capacity m)
           (to_double (n_items m), to_double (capacity m))
           min_length max_length (sum_length / capacity m)).
End Map.

Arguments Entry : clear implicits.
Arguments Map : clear implicits.
