(* ===== verification/HashMapWf.v ===== *)
(** * HashMapWf: the representation invariant of the hash map

    Chains of entries as lists of cells, the table of buckets as a list of
    chains, the well-formedness [wf] of a map, and the specifications of the
    internal operations: walking a chain, appending to it, rehashing. *)

From S2P Require Import Prelude Words LinkedList HashMap.
Local Open Scope Z_scope.

Section Wf.
Context {K V : Type} `{EqDecision K} (hasher : K -> Z).

(** ** Cells *)

Record cell := Cell { c_addr : addr; c_key : K; c_val : V }.

Abbreviation addrs := (fmap c_addr).
Abbreviation keys := (fmap c_key).

(** [cells h p l q]: from [p] the entries of [h] hold the cells [l], up to [q]. *)
Fixpoint cells (h : gmap addr (Entry K V)) (p : ptr) (l : list cell) (q : ptr) : Prop :=
  match l with
  | [] => p = q
  | x :: l =>
    p = Some (c_addr x) /\
    exists n, h !! c_addr x = Some (MkEntry n (c_key x) (c_val x)) /\ cells h n l q
  end.

Lemma cells_lseg h p l q : cells h p l q -> lseg next h p (addrs l) q.
Proof.
  revert p. induction l as [|x l IH]; intros p; cbn; [done|].
  intros (-> & n & E & H). split; [done|]. eauto.
Qed.

Lemma cells_NoDup h p l : cells h p l null -> NoDup (addrs l).
Proof. intros H%cells_lseg. by apply chain_NoDup in H. Qed.

Lemma cells_length_size h p l : cells h p l null -> (length l <= size h)%nat.
Proof. intros H%cells_lseg%chain_length_size. by rewrite length_fmap in H. Qed.

Lemma cells_app h p l1 l2 q :
  cells h p (l1 ++ l2) q <-> exists m, cells h p l1 m /\ cells h m l2 q.
Proof.
  revert p. induction l1 as [|x l1 IH]; intros p; cbn.
  - split; [eauto|]. by intros (m & -> & H).
  - split.
    + intros (-> & n & E & H). apply IH in H as (m & H1 & H2). eauto 6.
    + intros (m & (-> & n & E & H1) & H2). split; [done|].
      exists n. split; [done|]. apply IH. eauto.
Qed.

Lemma cells_frame h h' p l q :
  (forall a, a ∈ addrs l -> h' !! a = h !! a) -> cells h p l q -> cells h' p l q.
Proof.
  revert p. induction l as [|x l IH]; intros p Hf; cbn; [done|].
  intros (-> & n & E & H). split; [done|]. exists n. split.
  - rewrite Hf; [done|]. cbn. by left.
  - apply IH; [|done]. intros a Ha. apply Hf. cbn. by right.
Qed.

Lemma cells_insert_notin h a e p l q :
  a ∉ addrs l -> cells h p l q -> cells (<[a := e]> h) p l q.
Proof.
  intros Ha. apply cells_frame. intros b Hb.
  rewrite lookup_insert_ne; [done|]. by intros ->.
Qed.

Lemma cells_lookup h p l q x :
  cells h p l q -> x ∈ l -> exists n, h !! c_addr x = Some (MkEntry n (c_key x) (c_val x)).
Proof.
  revert p. induction l as [|y l IH]; intros p; [by rewrite elem_of_nil|].
  intros (-> & n & E & H) [->|Hx]%elem_of_cons; eauto.
Qed.

(** ** Walking a chain *)

Lemma find_entry_hit fuel h p l1 x l2 q :
  cells h p (l1 ++ x :: l2) q -> c_key x ∉ keys l1 -> (length l1 < fuel)%nat ->
  find_entry fuel h p (c_key x) = Ret (inl (c_addr x)).
Proof.
  revert fuel p. induction l1 as [|y l1 IH]; intros fuel p H Hk Hf; (destruct fuel; [cbn in Hf; lia|]).
  - destruct H as (-> & n & E & H). cbn. rewrite E. cbn. by rewrite decide_True.
  - cbn in H, Hk, Hf. destruct H as (-> & n & E & H). apply not_elem_of_cons in Hk as [Hk1 Hk2].
    cbn. rewrite E. cbn. rewrite decide_False by done.
    destruct n as [n|]; [|by destruct l1; cbn in H; destruct H].
    apply IH; [done|done|lia].
Qed.

Lemma find_entry_miss fuel h p l x k :
  cells h p (l ++ [x]) null -> k ∉ keys (l ++ [x]) -> (length l < fuel)%nat ->
  find_entry fuel h p k = Ret (inr (c_addr x)).
Proof.
  revert fuel p. induction l as [|y l IH]; intros fuel p H Hk Hf; (destruct fuel; [cbn in Hf; lia|]).
  - destruct H as (-> & n & E & H). cbn in Hk, H. subst n. cbn. rewrite E. cbn.
    rewrite decide_False; [done|]. intros ->. apply Hk. by left.
  - cbn in H, Hk, Hf. destruct H as (-> & n & E & H). apply not_elem_of_cons in Hk as [Hk1 Hk2].
    cbn. rewrite E. cbn. rewrite decide_False by done.
    destruct n as [n|]; [|by destruct l; cbn in H; destruct H].
    apply IH; [done|done|lia].
Qed.

Lemma remove_find_hit fuel h prev p l1 x l2 q :
  cells h p (l1 ++ x :: l2) q -> c_key x ∉ keys l1 -> (length l1 < fuel)%nat ->
  remove_find fuel h prev p (c_key x) = Ret (Some (prev, c_addr x)).
Proof.
  revert fuel p. induction l1 as [|y l1 IH]; intros fuel p H Hk Hf; (destruct fuel; [cbn in Hf; lia|]).
  - destruct H as (-> & n & E & H). cbn. rewrite E. cbn. by rewrite decide_True.
  - cbn in H, Hk, Hf. destruct H as (-> & n & E & H). apply not_elem_of_cons in Hk as [Hk1 Hk2].
    cbn. rewrite E. cbn. rewrite decide_False by done.
    destruct n as [n|]; [|by destruct l1; cbn in H; destruct H].
    apply IH; [done|done|lia].
Qed.

Lemma remove_find_miss fuel h prev p l k :
  cells h p l null -> l <> [] -> k ∉ keys l -> (length l <= fuel)%nat ->
  remove_find fuel h prev p k = Ret None.
Proof.
  revert fuel p. induction l as [|y l IH]; intros fuel p H Hne Hk Hf; [done|].
  destruct fuel; [cbn in Hf; lia|].
  cbn in H, Hk, Hf. destruct H as (-> & n & E & H). apply not_elem_of_cons in Hk as [Hk1 Hk2].
  cbn. rewrite E. cbn. rewrite decide_False by done.
  destruct n as [n|]; [|done].
  apply IH; [done| |done|lia]. intros ->. by cbn in H.
Qed.

Lemma chain_last_spec fuel h l x :
  cells h (Some (c_addr (hd x l))) (l ++ [x]) null -> (length l < fuel)%nat ->
  chain_last fuel h (c_addr (hd x l)) = Ret (c_addr x).
Proof.
  revert fuel. induction l as [|y l IH]; intros fuel H Hf; (destruct fuel; [cbn in Hf; lia|]).
  - destruct H as (_ & n & E & H). cbn in E, H. subst n. cbn. by rewrite E.
  - cbn in H, Hf. destruct H as (_ & n & E & H). cbn. rewrite E. cbn.
    assert (n = Some (c_addr (hd x l))) as -> by (destruct l; cbn in H; by destruct H).
    apply IH; [done|lia].
Qed.

(** ** Appending to a chain *)

Lemma set_next_spec (h : gmap addr (Entry K V)) a q n k v :
  h !! a = Some (MkEntry n k v) -> set_next h a q = Ret (<[a := MkEntry q k v]> h).
Proof. intros E. unfold set_next. by rewrite (deref_Some _ _ _ E). Qed.

(** Redirecting the last cell of a chain. *)
Lemma cells_set_last h p l x q q' :
  cells h p (l ++ [x]) q -> c_addr x ∉ addrs l ->
  cells (<[c_addr x := MkEntry q' (c_key x) (c_val x)]> h) p (l ++ [x]) q'.
Proof.
  intros (m & H1 & H2)%cells_app Hx. apply cells_app. exists m. split.
  - by apply cells_insert_notin.
  - destruct H2 as (-> & n & E & _). cbn. split; [done|]. exists q'.
    by rewrite lookup_insert_eq.
Qed.

Lemma cells_append h p c x :
  cells h p c null -> c_addr x ∉ addrs c -> h !! c_addr x = Some (MkEntry null (c_key x) (c_val x)) ->
  (c = [] -> cells h (Some (c_addr x)) [x] null) /\
  (forall l y, c = l ++ [y] ->
     cells (<[c_addr y := MkEntry (Some (c_addr x)) (c_key y) (c_val y)]> h) p (c ++ [x]) null).
Proof.
  intros H Hx E. split.
  - intros _. cbn. eauto.
  - intros l y ->. pose proof (cells_NoDup _ _ _ H) as ND.
    rewrite fmap_app, NoDup_app in ND. destruct ND as (_ & Hd & _).
    assert (c_addr y ∉ addrs l) as Hy by (intros Hin; apply (Hd _ Hin); cbn; by left).
    rewrite fmap_app, not_elem_of_app in Hx. destruct Hx as [_ Hxy%not_elem_of_cons].
    apply cells_app. exists (Some (c_addr x)). split; [by eapply cells_set_last|].
    cbn. split; [done|]. exists null. rewrite lookup_insert_ne; [done|]. intros ?. by destruct Hxy.
Qed.

(** ** The table of buckets *)

Definition bucket_ok (n : Z) (h : gmap addr (Entry K V)) (i : nat) (b : Bucket) (c : list cell) : Prop :=
  cells h (first b) c null /\ bucket_items b = Z.of_nat (length c) /\
  Forall (fun x => mask_index (hasher (c_key x)) n = Z.of_nat i) c.

Definition table (n : Z) (h : gmap addr (Entry K V)) (bs : list Bucket) (cs : list (list cell)) : Prop :=
  length bs = length cs /\
  forall i b c, bs !! i = Some b -> cs !! i = Some c -> bucket_ok n h i b c.

(** The cells of the other buckets. *)
Definition others (cs : list (list cell)) (i : nat) : list cell :=
  concat (take i cs) ++ concat (drop (S i) cs).

Lemma concat_others cs i c : cs !! i = Some c -> concat cs ≡ₚ c ++ others cs i.
Proof.
  intros E. rewrite <- (take_drop_middle cs i c E) at 1. unfold others.
  rewrite concat_app. cbn. rewrite !app_assoc.
  apply Permutation_app_tail, Permutation_app_comm.
Qed.

Lemma concat_update cs i c c' : cs !! i = Some c -> concat (<[i := c']> cs) ≡ₚ c' ++ others cs i.
Proof.
  intros E. pose proof (lookup_lt_Some _ _ _ E).
  rewrite (concat_others _ i c') by (by apply list_lookup_insert_eq).
  unfold others. by rewrite take_insert, drop_insert_lt, decide_False by lia.
Qed.

Lemma elem_of_others cs i j c x : cs !! j = Some c -> j <> i -> x ∈ c -> x ∈ others cs i.
Proof.
  intros E Hne Hx. unfold others. rewrite elem_of_app.
  destruct (decide (j < i)%nat).
  - left. apply list_elem_of_In, in_concat. exists c. rewrite <- !list_elem_of_In. split; [|done].
    apply list_elem_of_lookup. exists j. by rewrite lookup_take_lt.
  - right. apply list_elem_of_In, in_concat. exists c. rewrite <- !list_elem_of_In. split; [|done].
    apply list_elem_of_lookup. exists (j - S i)%nat. rewrite lookup_drop, <- E. f_equal. lia.
Qed.

Lemma table_update n h h' bs cs i b' c c' :
  table n h bs cs -> cs !! i = Some c ->
  (forall a, a ∈ addrs (others cs i) -> h' !! a = h !! a) ->
  bucket_ok n h' i b' c' ->
  table n h' (<[i := b']> bs) (<[i := c']> cs).
Proof.
  intros [Hlen Ht] Ec Hf Hb. split; [by rewrite !length_insert|].
  intros j b x Ej Ex. destruct (decide (j = i)) as [->|Hne].
  - pose proof (lookup_lt_Some _ _ _ Ec).
    rewrite list_lookup_insert_eq in Ej by lia. rewrite list_lookup_insert_eq in Ex by lia. by simplify_eq.
  - rewrite list_lookup_insert_ne in Ej by done. rewrite list_lookup_insert_ne in Ex by done.
    destruct (Ht _ _ _ Ej Ex) as (Hc & Hn & Hi). split; [|done].
    eapply cells_frame; [|exact Hc]. intros a (y & -> & Hy)%list_elem_of_fmap.
    apply Hf, list_elem_of_fmap_2. by eapply elem_of_others.
Qed.

(** Every bucket has its chain. *)
Lemma table_lookup n h bs cs i :
  table n h bs cs -> (i < length bs)%nat ->
  exists b c, bs !! i = Some b /\ cs !! i = Some c /\ bucket_ok n h i b c.
Proof.
  intros [Hlen Ht] Hi.
  destruct (lookup_lt_is_Some_2 bs i Hi) as [b Eb].
  destruct (lookup_lt_is_Some_2 cs i) as [c Ec]; [lia|]. eauto 6.
Qed.

Lemma table_empty n h k :
  table n h (replicate k (MkBucket null 0)) (replicate k []).
Proof.
  split; [by rewrite !length_replicate|].
  intros i b c [-> _]%lookup_replicate [-> _]%lookup_replicate. by repeat split.
Qed.

Lemma concat_replicate_nil {A} k : concat (replicate k (@nil A)) = [].
Proof. induction k; done. Qed.

Lemma elem_of_addrs_concat cs i c a :
  cs !! i = Some c -> a ∈ addrs c -> a ∈ addrs (concat cs).
Proof.
  intros E (y & -> & Hy)%list_elem_of_fmap. apply list_elem_of_fmap_2.
  rewrite (concat_others cs i c E). apply elem_of_app. by left.
Qed.

(** ** Moving an entry into a bucket *)

Lemma insert_into_bucket_spec b c h x n :
  cells h (first b) c null -> bucket_items b = Z.of_nat (length c) ->
  Z.of_nat (length c) + 1 < 2 ^ 64 ->
  c_addr x ∉ addrs c -> h !! c_addr x = Some (MkEntry n (c_key x) (c_val x)) ->
  exists b' h',
    insert_into_bucket b (c_addr x) h = Ret (b', h') /\
    cells h' (first b') (c ++ [x]) null /\ bucket_items b' = Z.of_nat (length (c ++ [x])) /\
    (forall a, a <> c_addr x -> a ∉ addrs c -> h' !! a = h !! a) /\ dom h' = dom h.
Proof.
  intros Hc Hn Hmax Hx E. unfold insert_into_bucket.
  rewrite (set_next_spec _ _ _ _ _ _ E). run_bind.
  set (h1 := <[c_addr x := MkEntry null (c_key x) (c_val x)]> h).
  assert (cells h1 (first b) c null) as Hc1 by by apply cells_insert_notin.
  assert (dom h1 = dom h) as Hd1.
  { unfold h1. rewrite dom_insert_L. apply elem_of_dom_2 in E. set_solver. }
  destruct (cells_append h1 (first b) c x) as [Hnil Hsnoc]; [done|done|by apply lookup_insert_eq|].
  rewrite Hn, length_app. cbn [length]. rewrite u64_small by lia.
  destruct c as [|y l] using rev_ind; [|clear IHl].
  - cbn in Hc. rewrite Hc. eexists _, h1. split; [done|]. split; [by apply Hnil|].
    split; [done|]. split; [|done]. intros a Ha _. by apply lookup_insert_ne.
  - assert (first b = Some (c_addr (hd y l))) as Hfirst by (destruct l; cbn in Hc; by destruct Hc).
    rewrite Hfirst in *. rewrite chain_last_spec; [|done|].
    2: { apply cells_length_size in Hc1. rewrite length_app in Hc1. cbn in Hc1. lia. }
    run_bind. destruct (cells_lookup _ _ _ _ y Hc1) as [m Ey]; [apply elem_of_app; right; by left|].
    rewrite (set_next_spec _ _ _ _ _ _ Ey). run_bind.
    eexists _, _. split; [done|]. cbn [first bucket_items]. split; [by apply (Hsnoc l y)|].
    split; [lia|]. split.
    + intros a Ha Hac. rewrite lookup_insert_ne; [by apply lookup_insert_ne|].
      intros <-. apply Hac, list_elem_of_fmap_2, elem_of_app. right. by left.
    + rewrite dom_insert_L, Hd1. apply elem_of_dom_2 in Ey. rewrite Hd1 in Ey. set_solver.
Qed.

(** ** Rehashing *)

(** Moving the head of what is left of the old chain to the end of a new one. *)
Lemma concat_snoc (ncs : list (list cell)) i c x l :
  ncs !! i = Some c -> concat (<[i := c ++ [x]]> ncs) ++ l ≡ₚ concat ncs ++ x :: l.
Proof.
  intros Ec. rewrite (concat_update _ _ _ (c ++ [x]) Ec), (concat_others _ _ _ Ec), <- !app_assoc. cbn.
  apply Permutation_app_head. rewrite (Permutation_app_comm (others _ _) (x :: l)). cbn.
  apply Permutation_skip, Permutation_app_comm.
Qed.

(** One turn of the loop: the entry [x] goes to the end of its new chain; the
    rest of the old chain is untouched. *)
Lemma rehash_cell k nb ncs h x n l :
  0 <= k < 64 -> Z.of_nat (length nb) = 2 ^ k -> table (2 ^ k) h nb ncs ->
  NoDup (addrs (concat ncs ++ x :: l)) -> Z.of_nat (length (concat ncs ++ x :: l)) + 1 < 2 ^ 64 ->
  h !! c_addr x = Some (MkEntry n (c_key x) (c_val x)) ->
  let i := mask_index (hasher (c_key x)) (2 ^ k) in
  exists b b' nb1 ncs1 h1,
    array_get nb i = Ret b /\ insert_into_bucket b (c_addr x) h = Ret (b', h1) /\ array_set nb i b' = Ret nb1 /\
    length nb1 = length nb /\ table (2 ^ k) h1 nb1 ncs1 /\ concat ncs1 ++ l ≡ₚ concat ncs ++ x :: l /\
    (forall a, a ∉ addrs (concat ncs ++ x :: l) -> h1 !! a = h !! a) /\
    (forall a, a ∈ addrs l -> h1 !! a = h !! a) /\ dom h1 = dom h.
Proof.
  intros Hk Hnb Ht ND Hmax E i.
  pose proof (mask_index_range (hasher (c_key x)) k Hk) as Hr. fold i in Hr.
  destruct (table_lookup _ _ _ _ (Z.to_nat i) Ht) as (b & c & Eb & Ec & Hbk & Hn & Hi); [lia|].
  pose proof (concat_others _ _ _ Ec) as Pc.
  assert (NoDup (addrs (x :: c ++ others ncs (Z.to_nat i) ++ l))) as ND'.
  { rewrite app_assoc, <- Pc. by rewrite Permutation_middle. }
  rewrite fmap_cons, NoDup_cons in ND'. destruct ND' as [Hx ND'].
  rewrite !fmap_app, !not_elem_of_app in Hx. destruct Hx as (Hxc & Hxo & Hxl).
  rewrite !fmap_app, NoDup_app in ND'. destruct ND' as (_ & Hco & _).
  assert (Z.of_nat (length c) + 1 < 2 ^ 64) as Hclen.
  { rewrite length_app, Pc, length_app in Hmax. lia. }
  destruct (insert_into_bucket_spec b c h x n Hbk Hn Hclen Hxc E) as (b' & h1 & Ei & Hbk' & Hn' & Hfr & Hd).
  exists b, b', (<[Z.to_nat i := b']> nb), (<[Z.to_nat i := c ++ [x]]> ncs), h1.
  split; [by apply array_get_Some; [lia|]|]. split; [done|]. split; [by rewrite array_set_lt by lia|].
  split; [by rewrite length_insert|]. split; [|split; [by apply concat_snoc|split; [|split; [|done]]]].
  - eapply table_update; [exact Ht|exact Ec| |].
    + intros a Ha. apply Hfr; [intros ->; done|]. intros Hac. apply (Hco a Hac). apply elem_of_app. by left.
    + split; [done|]. split; [done|]. apply Forall_app. split; [done|]. constructor; [|done]. fold i. lia.
  - intros a Ha. apply Hfr.
    + intros ->. apply Ha, list_elem_of_fmap_2, elem_of_app. right. by left.
    + intros Hac. apply Ha. rewrite fmap_app. apply elem_of_app. left. by eapply elem_of_addrs_concat.
  - intros a Ha. apply Hfr; [by intros ->|]. intros Hac. apply (Hco a Hac). apply elem_of_app. by right.
Qed.

Lemma rehash_chain_spec k l : forall fuel p nb ncs h,
  0 <= k < 64 -> Z.of_nat (length nb) = 2 ^ k ->
  table (2 ^ k) h nb ncs -> cells h p l null ->
  NoDup (addrs (concat ncs ++ l)) -> Z.of_nat (length (concat ncs ++ l)) + 1 < 2 ^ 64 ->
  (length l < fuel)%nat ->
  exists nb' ncs' h',
    rehash_chain hasher fuel (2 ^ k) p nb h = Ret (nb', h') /\
    table (2 ^ k) h' nb' ncs' /\ length nb' = length nb /\
    concat ncs' ≡ₚ concat ncs ++ l /\
    (forall a, a ∉ addrs (concat ncs ++ l) -> h' !! a = h !! a) /\ dom h' = dom h.
Proof.
  induction l as [|x l IH]; intros fuel p nb ncs h Hk Hnb Ht Hc ND Hmax Hf;
    (destruct fuel; [cbn in Hf; lia|]).
  - cbn in Hc. subst p. eexists nb, ncs, h. rewrite app_nil_r. by repeat (split; [done|]).
  - destruct Hc as (-> & n & E & Hc). cbn [rehash_chain]. rewrite (deref_Some _ _ _ E). run_bind. cbn [key next].
    destruct (rehash_cell k nb ncs h x n l) as (b & b' & nb1 & ncs1 & h1 & Eg & Ei & Es & Hl1 & Ht1 & P & Hfr & Hfl & Hd);
      try done.
    rewrite Eg, bind_ret, Ei, bind_ret, Es, bind_ret.
    destruct (IH fuel n nb1 ncs1 h1) as (nb' & ncs' & h' & E' & Ht' & Hl' & P' & Hfr' & Hd');
      [done|by rewrite Hl1|done|by eapply cells_frame|by rewrite P|by rewrite P|cbn in Hf; lia|].
    exists nb', ncs', h'. split; [done|]. split; [done|]. split; [by rewrite Hl'|]. split; [by rewrite P'|].
    split; [|by rewrite Hd']. intros a Ha. rewrite Hfr'; [by apply Hfr|]. by rewrite P.
Qed.

Definition old_chains (h : gmap addr (Entry K V)) (old : list Bucket) (ocs : list (list cell)) : Prop :=
  Forall2 (fun b c => cells h (first b) c null) old ocs.

Lemma old_chains_frame h h' old ocs :
  (forall a, a ∈ addrs (concat ocs) -> h' !! a = h !! a) ->
  old_chains h old ocs -> old_chains h' old ocs.
Proof.
  intros Hf Ho. induction Ho as [|b c old ocs Hc Ho IH]; constructor.
  - eapply cells_frame; [|exact Hc]. intros a Ha. apply Hf. cbn. rewrite fmap_app, elem_of_app. by left.
  - apply IH. intros a Ha. apply Hf. cbn. rewrite fmap_app, elem_of_app. by right.
Qed.

Lemma table_old_chains n h bs cs : table n h bs cs -> old_chains h bs cs.
Proof.
  intros [Hlen Ht]. apply Forall2_same_length_lookup_2; [done|].
  intros i b c Eb Ec. by destruct (Ht _ _ _ Eb Ec).
Qed.

Lemma rehash_spec k old : forall ocs nb ncs h,
  0 <= k < 64 -> Z.of_nat (length nb) = 2 ^ k ->
  table (2 ^ k) h nb ncs -> old_chains h old ocs ->
  NoDup (addrs (concat ncs ++ concat ocs)) ->
  Z.of_nat (length (concat ncs ++ concat ocs)) + 1 < 2 ^ 64 ->
  exists nb' ncs' h',
    rehash hasher old (2 ^ k) nb h = Ret (nb', h') /\
    table (2 ^ k) h' nb' ncs' /\ length nb' = length nb /\
    concat ncs' ≡ₚ concat ncs ++ concat ocs /\ dom h' = dom h.
Proof.
  induction old as [|b old IH]; intros ocs nb ncs h Hk Hnb Ht Ho ND Hmax.
  - apply Forall2_nil_inv_l in Ho as ->. exists nb, ncs, h. cbn. by rewrite app_nil_r.
  - apply Forall2_cons_inv_l in Ho as (c & ocs' & Hc & Ho & ->).
    cbn [concat] in *. cbn [rehash]. rewrite app_assoc in ND, Hmax.
    pose proof ND as ND1. rewrite fmap_app, NoDup_app in ND1. destruct ND1 as (ND1 & Hdis & _).
    destruct (rehash_chain_spec k c (S (size h)) (first b) nb ncs h)
      as (nb1 & ncs1 & h1 & E1 & Ht1 & Hl1 & P1 & Hfr1 & Hd1); try done.
    { rewrite length_app in Hmax. lia. }
    { apply cells_length_size in Hc. lia. }
    rewrite E1. run_bind.
    destruct (IH ocs' nb1 ncs1 h1) as (nb' & ncs' & h' & E' & Ht' & Hl' & P' & Hd').
    + done.
    + lia.
    + done.
    + eapply old_chains_frame; [|exact Ho]. intros a Ha. apply Hfr1. intros Hin. by apply (Hdis a).
    + by rewrite P1.
    + by rewrite P1.
    + exists nb', ncs', h'. split; [done|]. split; [done|]. split; [lia|].
      split; [|by rewrite Hd']. by rewrite P', P1, app_assoc.
Qed.

(** ** The invariant *)

(** A capacity is a power of two that fits a word. *)
Definition pow2_word (n : Z) : Prop := exists k, 0 <= k < 64 /\ n = 2 ^ k.

Record wf (m : Map K V) (cs : list (list cell)) : Prop := {
  wf_capacity : pow2_word (capacity m);
  wf_length : Z.of_nat (length (buckets m)) = capacity m;
  wf_table : table (capacity m) (heap m) (buckets m) cs;
  wf_addrs : NoDup (addrs (concat cs));
  wf_keys : NoDup (keys (concat cs));
  wf_items : n_items m = Z.of_nat (length (concat cs));
  wf_dom : dom (heap m) = list_to_set (addrs (concat cs));
}.

Lemma wf_items_range m cs : wf m cs -> 0 <= n_items m.
Proof. intros H. rewrite (wf_items _ _ H). lia. Qed.

(** The chain of a key holds the cell of that key, if there is one. *)
Lemma table_key n h bs cs x c :
  0 <= mask_index (hasher (c_key x)) n ->
  table n h bs cs -> x ∈ concat cs ->
  cs !! Z.to_nat (mask_index (hasher (c_key x)) n) = Some c -> x ∈ c.
Proof.
  intros Hr [Hlen Ht] Hx Ec.
  apply list_elem_of_In, in_concat in Hx as (c' & Hc'%list_elem_of_In & Hx%list_elem_of_In).
  apply list_elem_of_lookup in Hc' as [j Ej].
  destruct (lookup_lt_is_Some_2 bs j) as [b Eb].
  { rewrite Hlen. eauto with coro. }
  destruct (Ht _ _ _ Eb Ej) as (_ & _ & Hi). rewrite Forall_forall in Hi.
  specialize (Hi _ Hx). rewrite Hi, Nat2Z.id in Ec. by simplify_eq.
Qed.

(** What an operation finds in the bucket of its key. *)
Inductive located (m : Map K V) (cs : list (list cell)) (k : K) : Prop :=
| Located (i : nat) (b : Bucket) (c : list cell) :
    bucket_index_for_key hasher m k = Z.of_nat i ->
    buckets m !! i = Some b -> cs !! i = Some c -> bucket_ok (capacity m) (heap m) i b c ->
    (forall x, x ∈ concat cs -> c_key x = k -> x ∈ c) ->
    located m cs k.

Lemma wf_locate m cs k : wf m cs -> located m cs k.
Proof.
  intros H. destruct H as [(l & Hl & Hc) Hlen Ht _ _ _ _].
  pose proof (mask_index_range (hasher k) l Hl) as Hr. rewrite <- Hc in Hr.
  destruct (table_lookup _ _ _ _ (Z.to_nat (bucket_index_for_key hasher m k)) Ht)
    as (b & c & Eb & Ec & Hb); [unfold bucket_index_for_key; lia|].
  eapply Located; [|exact Eb|exact Ec|exact Hb|].
  - unfold bucket_index_for_key. lia.
  - intros x Hx <-. eapply table_key; [apply Hr|exact Ht|done|exact Ec].
Qed.

Lemma bucket_first n h i b c : bucket_ok n h i b c -> first b = null <-> c = [].
Proof.
  intros (Hc & _ & _). destruct c; cbn in Hc; [by rewrite Hc|].
  destruct Hc as [-> _]. done.
Qed.

(** The three outcomes of the search of a chain. *)
Inductive found (h : gmap addr (Entry K V)) (b : Bucket) (c : list cell) (k : K) : Prop :=
| FoundEmpty : c = [] -> bucket_items b = 0 -> found h b c k
| FoundHit l1 x l2 : c = l1 ++ x :: l2 -> c_key x = k -> k ∉ keys l1 -> bucket_items b <> 0 ->
    find_entry (S (size h)) h (first b) k = Ret (inl (c_addr x)) -> found h b c k
| FoundMiss l x : c = l ++ [x] -> k ∉ keys c -> bucket_items b <> 0 ->
    find_entry (S (size h)) h (first b) k = Ret (inr (c_addr x)) -> found h b c k.

Lemma keys_split c k : k ∈ keys c -> exists l1 x l2, c = l1 ++ x :: l2 /\ c_key x = k /\ k ∉ keys l1.
Proof.
  induction c as [|y c IH]; cbn; [by rewrite elem_of_nil|].
  destruct (decide (c_key y = k)) as [E|Hne].
  - intros _. exists [], y, c. split; [done|]. split; [done|]. apply not_elem_of_nil.
  - intros [->|Hin]%elem_of_cons; [done|]. destruct (IH Hin) as (l1 & x & l2 & -> & E & Hk).
    exists (y :: l1), x, l2. split; [done|]. split; [done|]. cbn. rewrite elem_of_cons.
    intros [->|]; [done|]. done.
Qed.

Lemma bucket_found n h i b c k : bucket_ok n h i b c -> found h b c k.
Proof.
  intros (Hc & Hn & _). pose proof (cells_length_size _ _ _ Hc) as Hs.
  destruct (decide (k ∈ keys c)) as [Hin|Hni].
  - destruct (keys_split _ _ Hin) as (l1 & x & l2 & -> & <- & Hk).
    rewrite length_app in Hn, Hs. cbn [length] in Hn, Hs.
    eapply FoundHit; [done|done|done|lia|]. eapply find_entry_hit; [exact Hc|done|lia].
  - destruct c as [|x c _] using rev_ind; [by apply FoundEmpty|].
    rewrite length_app in Hn, Hs. cbn [length] in Hn, Hs.
    apply (FoundMiss _ _ _ _ c x); [done|done|lia|]. apply (find_entry_miss _ _ _ c); [done|done|lia].
Qed.
End Wf.

Arguments cell : clear implicits.
Abbreviation addrs := (fmap c_addr).
Abbreviation keys := (fmap c_key).
