(* ===== verification/HashMapSpec.v ===== *)
(** * HashMapSpec: the hash map against a finite map

    [represents m M]: the table [m] is well formed and its entries are the
    bindings of the finite map [M]. Every public operation of Map is related to
    the operation of the finite map it implements; the operations that do not
    meet their contract are characterised exactly. *)

From S2P Require Import Prelude Words LinkedList HashMap HashMapWf.
Local Open Scope Z_scope.

Section Update.
Context {K V : Type} `{Countable K} (hasher : K -> Z).
Implicit Types (m : Map K V) (cs : list (list (cell K V))) (x : cell K V).

(** ** Replacing one bucket of a well-formed table *)

Lemma wf_update m cs i b c b' c' h' items :
  wf hasher m cs -> buckets m !! i = Some b -> cs !! i = Some c ->
  bucket_ok hasher (capacity m) h' i b' c' ->
  (forall a, a ∈ addrs (others cs i) -> h' !! a = heap m !! a) ->
  NoDup (addrs (c' ++ others cs i)) -> NoDup (keys (c' ++ others cs i)) ->
  items = Z.of_nat (length (c' ++ others cs i)) ->
  dom h' = list_to_set (addrs (c' ++ others cs i)) ->
  wf hasher (MkMap items (capacity m) (max_capacity m) (<[i := b']> (buckets m)) h') (<[i := c']> cs).
Proof.
  intros [Hcap Hlen Ht Ha Hk Hn Hd] Eb Ec Hb Hf NA NK Hi Hd'.
  pose proof (concat_update _ _ _ c' Ec) as P.
  constructor; cbn; [done| | | | | |].
  - by rewrite length_insert.
  - by eapply table_update.
  - by rewrite P.
  - by rewrite P.
  - by rewrite P.
  - rewrite Hd'. by rewrite P.
Qed.

(** ** Contents *)

Definition binding x : K * V := (c_key x, c_val x).

Definition contents (l : list (cell K V)) : gmap K V := list_to_map (binding <$> l).

Lemma binding_fst l : (binding <$> l).*1 = keys l.
Proof. rewrite <- list_fmap_compose. done. Qed.

Lemma contents_perm l l' : NoDup (keys l) -> l ≡ₚ l' -> contents l = contents l'.
Proof.
  intros ND P. apply list_to_map_proper; [by rewrite binding_fst|]. by rewrite P.
Qed.

Lemma contents_cons x l : contents (x :: l) = <[c_key x := c_val x]> (contents l).
Proof. done. Qed.

Lemma contents_Some l k v :
  NoDup (keys l) -> contents l !! k = Some v <-> exists x, x ∈ l /\ c_key x = k /\ c_val x = v.
Proof.
  intros ND. unfold contents. rewrite <- elem_of_list_to_map by (by rewrite binding_fst).
  rewrite list_elem_of_fmap. split.
  - intros (x & E & Hx). unfold binding in E. simplify_eq. eauto.
  - intros (x & Hx & <- & <-). eauto.
Qed.

Lemma contents_None l k : contents l !! k = None <-> k ∉ keys l.
Proof. unfold contents. rewrite <- not_elem_of_list_to_map, binding_fst. done. Qed.

Lemma contents_size l : NoDup (keys l) -> size (contents l) = length l.
Proof.
  intros ND. unfold contents. rewrite map_size_list_to_map by (by rewrite binding_fst).
  by rewrite length_fmap.
Qed.

Definition represents m (M : gmap K V) : Prop :=
  exists cs, wf hasher m cs /\ M = contents (concat cs).

Lemma wf_contents_size m cs : wf hasher m cs -> n_items m = Z.of_nat (size (contents (concat cs))).
Proof.
  intros [Hcap Hlen Ht Ha Hk Hn Hd]. by rewrite contents_size.
Qed.

(** ** Resizing *)

Lemma pow2_word_range n : pow2_word n -> 1 <= n <= 2 ^ 63.
Proof.
  intros (k & Hk & ->). split; [|by apply Z.pow_le_mono_r; lia].
  pose proof (Z.pow_pos_nonneg 2 k). lia.
Qed.

(** The capacity doubles only below the width of the word. *)
Lemma resize_pow2_word m cs :
  wf hasher m cs -> n_items m <= 2 ^ 62 -> resize_required m = true ->
  u64 (Z.shiftl (capacity m) 1) = 2 * capacity m /\ pow2_word (2 * capacity m).
Proof.
  intros Hwf Hn Hr. destruct (wf_capacity _ _ _ Hwf) as (k & Hk & E).
  pose proof (wf_items_range _ _ _ Hwf).
  assert (k < 63) as Hk'.
  { destruct (decide (k = 63)) as [->|]; [|lia]. unfold resize_required in Hr.
    rewrite E, load_factor_half in Hr; [done|lia|]. cbn. lia. }
  rewrite E, Z.shiftl_mul_pow2 by lia.
  assert (2 ^ k * 2 ^ 1 = 2 * 2 ^ k) as -> by lia.
  split; [|exists (k + 1); split; [lia|by rewrite Z.pow_add_r by lia; lia]].
  apply u64_small. assert (2 ^ k <= 2 ^ 62) by (apply Z.pow_le_mono_r; lia). lia.
Qed.

Lemma resize_spec m cs :
  wf hasher m cs -> n_items m <= 2 ^ 62 ->
  exists m' cs',
    perform_resize_if_required hasher m = Ret m' /\ wf hasher m' cs' /\
    concat cs' ≡ₚ concat cs /\ n_items m' = n_items m /\ max_capacity m' = max_capacity m /\
    capacity m' = if resize_required m then 2 * capacity m else capacity m.
Proof.
  intros Hwf Hn. unfold perform_resize_if_required.
  destruct (resize_required m) eqn:Hr; cbn [negb].
  2: { exists m, cs. repeat (split; [done|]). done. }
  destruct (resize_pow2_word _ _ Hwf Hn Hr) as [-> Hp]. pose proof Hp as (k & Hk & E).
  destruct Hwf as [Hcap Hlen Ht Ha Hkeys Hi Hd].
  assert (Z.of_nat (length (replicate (Z.to_nat (2 * capacity m)) (MkBucket null 0))) = 2 ^ k) as Hl2
    by (rewrite length_replicate, E; lia).
  destruct (rehash_spec hasher k (buckets m) cs _ (replicate (Z.to_nat (2 * capacity m)) []) (heap m) Hk Hl2)
    as (nb & ncs & h & Er & Ht' & Hl' & P & Hd').
  - rewrite E. apply table_empty.
  - by eapply table_old_chains.
  - by rewrite concat_replicate_nil.
  - rewrite concat_replicate_nil. cbn. lia.
  - rewrite concat_replicate_nil in P. cbn in P. rewrite E in *. rewrite Er. run_bind.
    eexists _, ncs. split; [done|]. split; [|by repeat (split; [done|])].
    constructor; cbn; [done|by rewrite Hl'|done| | | |].
    + by rewrite P.
    + by rewrite P.
    + by rewrite P.
    + rewrite Hd'. by rewrite P.
Qed.

(** ** Adding an entry *)

Lemma in_other_bucket cs i c a :
  NoDup (addrs (concat cs)) -> cs !! i = Some c -> a ∈ addrs (others cs i) -> a ∉ addrs c.
Proof.
  intros ND Ec Ha Hc. rewrite (concat_others _ _ _ Ec), fmap_app, NoDup_app in ND.
  destruct ND as (_ & Hd & _). by apply (Hd a).
Qed.

Lemma wf_bucket_items m cs i b c :
  wf hasher m cs -> buckets m !! i = Some b -> cs !! i = Some c ->
  0 <= bucket_items b <= n_items m.
Proof.
  intros [Hcap Hlen [_ Ht] Ha Hk Hn Hd] Eb Ec. destruct (Ht _ _ _ Eb Ec) as (_ & -> & _).
  rewrite Hn, (concat_others _ _ _ Ec), length_app. lia.
Qed.

Lemma wf_grow m cs i b c b' h' x :
  wf hasher m cs -> buckets m !! i = Some b -> cs !! i = Some c ->
  bucket_ok hasher (capacity m) (heap m) i b c ->
  mask_index (hasher (c_key x)) (capacity m) = Z.of_nat i ->
  c_key x ∉ keys (concat cs) -> c_addr x ∉ dom (heap m) -> n_items m + 1 < 2 ^ 64 ->
  cells h' (first b') (c ++ [x]) null -> bucket_items b' = u64 (bucket_items b + 1) ->
  (forall a, a ∈ addrs (others cs i) -> h' !! a = heap m !! a) ->
  dom h' = {[ c_addr x ]} ∪ dom (heap m) ->
  wf hasher (MkMap (u64 (n_items m + 1)) (capacity m) (max_capacity m) (<[i := b']> (buckets m)) h')
    (<[i := c ++ [x]]> cs) /\
  concat (<[i := c ++ [x]]> cs) ≡ₚ x :: concat cs.
Proof.
  intros Hwf Eb Ec (Hc & Hlen & Hi) Hidx Hk Hx Hmax Hc' Hb' Hf Hd.
  pose proof (wf_bucket_items _ _ _ _ _ Hwf Eb Ec) as Hbn.
  pose proof (wf_dom _ _ _ Hwf) as Hdom. pose proof (wf_addrs _ _ _ Hwf) as NA.
  pose proof (wf_keys _ _ _ Hwf) as NK. pose proof (wf_items _ _ _ Hwf) as Hn.
  rewrite Hdom, elem_of_list_to_set in Hx.
  assert ((c ++ [x]) ++ others cs i ≡ₚ x :: concat cs) as P.
  { rewrite (concat_others _ _ _ Ec), <- app_assoc. cbn. by rewrite <- Permutation_middle. }
  split; [|by rewrite (concat_update _ _ _ (c ++ [x]) Ec)].
  eapply wf_update; [done|done|done| |done| | | |].
  - split; [done|]. split; [rewrite length_app; cbn; rewrite Hb', u64_small by lia; lia|].
    apply Forall_app. by repeat constructor.
  - rewrite P. cbn. by apply NoDup_cons.
  - rewrite P. cbn. by apply NoDup_cons.
  - rewrite P. cbn. rewrite u64_small by lia. lia.
  - rewrite Hd, P, Hdom. done.
Qed.

(** The specification shared by the two ways of adding an entry. *)
Definition added m (M : gmap K V) (k : K) (v : V) (r : outcome (Map K V * InsertKVResult)) : Prop :=
  exists m', r = Ret (m', MkInsert RefCaller RefParameter true) /\ represents m' (<[k := v]> M) /\
    max_capacity m' = max_capacity m.

Lemma wf_added m cs m1 cs1 x r :
  wf hasher m cs -> c_key x ∉ keys (concat cs) ->
  wf hasher m1 cs1 -> concat cs1 ≡ₚ x :: concat cs -> n_items m1 <= 2 ^ 62 ->
  max_capacity m1 = max_capacity m ->
  r = (m' ← perform_resize_if_required hasher m1; Ret (m', MkInsert RefCaller RefParameter true)) ->
  added m (contents (concat cs)) (c_key x) (c_val x) r.
Proof.
  intros Hwf Hk Hwf1 P Hn Hmax ->.
  destruct (resize_spec m1 cs1 Hwf1 Hn) as (m' & cs' & -> & Hwf' & P' & _ & Hmax' & _). run_bind.
  exists m'. split; [done|]. split; [|by rewrite Hmax']. exists cs'. split; [done|].
  rewrite <- contents_cons. apply contents_perm; [|by rewrite P', P].
  rewrite fmap_cons. apply NoDup_cons. split; [done|apply Hwf].
Qed.

Section Add.
Context m cs (Hwf : wf hasher m cs) (Hroom : n_items m < 2 ^ 62).
Context (i : nat) (b : Bucket) (c : list (cell K V)).
Context (Eb : buckets m !! i = Some b) (Ec : cs !! i = Some c).
Context (Hb : bucket_ok hasher (capacity m) (heap m) i b c).
Context (k : K) (v : V) (Hidx : bucket_index_for_key hasher m k = Z.of_nat i).
Context (Hk : k ∉ keys (concat cs)).

Local Abbreviation a := (fresh (dom (heap m))).
Local Abbreviation x := (Cell a k v).

Lemma fresh_not_in_table : a ∉ addrs (concat cs).
Proof using Hwf.
  rewrite <- (elem_of_list_to_set (C := gset addr)), <- (wf_dom _ _ _ Hwf). apply is_fresh.
Qed.

Lemma index_in_range : 0 <= Z.of_nat i < Z.of_nat (length (buckets m)).
Proof using Eb. apply lookup_lt_Some in Eb. lia. Qed.

Lemma insert_empty_spec :
  c = [] -> added m (contents (concat cs)) k v (insert_empty hasher m (Z.of_nat i) b k v).
Proof using All.
  intros ->. pose proof fresh_not_in_table as Hf. pose proof (wf_items_range _ _ _ Hwf).
  destruct (wf_grow m cs i b [] (MkBucket (Some a) (u64 (bucket_items b + 1)))
              (<[a := MkEntry null k v]> (heap m)) x) as [Hwf1 P]; try done.
  - apply is_fresh.
  - lia.
  - cbn. split; [done|]. exists null. by rewrite lookup_insert_eq.
  - intros a' Ha'. apply lookup_insert_ne. intros <-. apply Hf.
    rewrite (concat_others _ _ _ Ec). done.
  - apply dom_insert_L.
  - eapply (wf_added m cs _ _ x); [done| |exact Hwf1|exact P| |done|].
    + done.
    + cbn. rewrite u64_small; lia.
    + unfold insert_empty, new_entry. rewrite array_set_lt by apply index_in_range.
      rewrite Nat2Z.id. done.
Qed.

Lemma insert_at_end_spec l y :
  c = l ++ [y] ->
  added m (contents (concat cs)) k v (insert_at_end hasher m (Z.of_nat i) b (c_addr y) k v).
Proof using All.
  intros Ey. pose proof fresh_not_in_table as Hf. pose proof (wf_items_range _ _ _ Hwf).
  destruct Hb as (Hc & _ & _).
  assert (a ∉ addrs c) as Hac by (intros Ha; apply Hf; by eapply elem_of_addrs_concat).
  assert (y ∈ c) as Hy by (rewrite Ey; apply elem_of_app; right; by left).
  assert (c_addr y ∈ addrs c) as Hyc by by apply list_elem_of_fmap_2.
  assert (cells (<[a := MkEntry null k v]> (heap m)) (first b) c null) as Hc1
    by by apply cells_insert_notin.
  destruct (cells_lookup _ _ _ _ y Hc1 Hy) as [n En].
  destruct (cells_append _ _ _ x Hc1 Hac) as [_ Happ]; [apply lookup_insert_eq|].
  specialize (Happ _ _ Ey).
  destruct (wf_grow m cs i b c (MkBucket (first b) (u64 (bucket_items b + 1)))
              (<[c_addr y := MkEntry (Some a) (c_key y) (c_val y)]>
                 (<[a := MkEntry null k v]> (heap m))) x) as [Hwf1 P]; try done.
  - apply is_fresh.
  - lia.
  - intros a' Ha'. rewrite lookup_insert_ne.
    + apply lookup_insert_ne. intros <-. apply Hf. rewrite (concat_others _ _ _ Ec), fmap_app.
      apply elem_of_app. by right.
    + intros <-. by eapply in_other_bucket; [apply (wf_addrs _ _ _ Hwf)|exact Ec|exact Ha'|].
  - rewrite !dom_insert_L. assert (c_addr y ∈ dom (heap m)); [|set_solver].
    rewrite (wf_dom _ _ _ Hwf). apply elem_of_list_to_set. by eapply elem_of_addrs_concat.
  - eapply (wf_added m cs _ _ x); [done| |exact Hwf1|exact P| |done|].
    + done.
    + cbn. rewrite u64_small; lia.
    + unfold insert_at_end, new_entry. rewrite (set_next_spec _ _ _ _ _ _ En). run_bind.
      rewrite array_set_lt by apply index_in_range. by rewrite Nat2Z.id.
Qed.
End Add.

(** ** Searching for a key *)

Lemma array_get_located m i b :
  buckets m !! i = Some b -> array_get (buckets m) (Z.of_nat i) = Ret b.
Proof. apply array_get_nat. Qed.

Lemma not_found_contents cs k c i :
  cs !! i = Some c -> (forall x, x ∈ concat cs -> c_key x = k -> x ∈ c) ->
  k ∉ keys c -> k ∉ keys (concat cs).
Proof.
  intros Ec Hloc Hk (x & -> & Hx)%list_elem_of_fmap. apply Hk, list_elem_of_fmap_2.
  by apply Hloc.
Qed.

Lemma found_contents cs c i l1 x l2 :
  NoDup (keys (concat cs)) -> cs !! i = Some c -> c = l1 ++ x :: l2 ->
  contents (concat cs) !! c_key x = Some (c_val x).
Proof.
  intros ND Ec ->. apply contents_Some; [done|]. exists x. split; [|done].
  rewrite (concat_others _ _ _ Ec). apply elem_of_app. left. apply elem_of_app. right. by left.
Qed.

Lemma hit_elem (l1 : list (cell K V)) x l2 : x ∈ l1 ++ x :: l2.
Proof. apply elem_of_app. right. by left. Qed.

Definition lookup_spec m (M : gmap K V) (k : K) (o : outcome LookupKVResult) : Prop :=
  exists r, o = Ret r /\
    match M !! k with
    | Some v => lookup_found r = true /\ lookup_get_key (heap m) r = Ret k /\
                lookup_get_value (heap m) r = Ret v
    | None => r = MkLookup null null
    end.

Lemma lookup_represents m M k : represents m M -> lookup_spec m M k (lookup hasher m k).
Proof.
  intros (cs & Hwf & ->). destruct (wf_locate _ _ _ k Hwf) as [i b c Hi Eb Ec Hb Hloc].
  unfold lookup_spec, lookup. rewrite Hi, (array_get_located _ _ _ Eb). run_bind.
  destruct (bucket_found hasher _ _ _ _ _ k Hb) as [-> E0|l1 x l2 Ex <- Hk Hne Ef|l x Ex Hk Hne Ef].
  - rewrite E0. eexists. split; [done|].
    assert (contents (concat cs) !! k = None) as ->; [|done].
    apply contents_None. eapply not_found_contents; [done..|]. by apply not_elem_of_nil.
  - rewrite decide_False by done. rewrite Ef. eexists. split; [done|].
    rewrite (found_contents _ _ _ _ _ _ (wf_keys _ _ _ Hwf) Ec Ex).
    destruct Hb as (Hc & _ & _). subst c.
    destruct (cells_lookup _ _ _ _ x Hc) as [n En]; [apply hit_elem|].
    unfold lookup_get_key, lookup_get_value. cbn. by rewrite En.
  - rewrite decide_False by done. rewrite Ef. eexists. split; [done|].
    assert (contents (concat cs) !! k = None) as ->; [|done].
    apply contents_None. by eapply not_found_contents.
Qed.

(** ** Insert and update *)

Definition insert_spec m (M : gmap K V) (k : K) (v : V) (o : outcome (Map K V * InsertKVResult)) : Prop :=
  match M !! k with
  | Some v0 => exists a, o = Ret (m, MkInsert (RefEntry a) (RefEntry a) false) /\
                 insert_get_key (heap m) k (MkInsert (RefEntry a) (RefEntry a) false) = Ret k /\
                 insert_get_value (heap m) (MkInsert (RefEntry a) (RefEntry a) false) = Ret v0
  | None => added m M k v o
  end.

Lemma insert_represents m M k v :
  represents m M -> n_items m < 2 ^ 62 -> insert_spec m M k v (insert hasher m k v).
Proof.
  intros (cs & Hwf & ->) Hroom. destruct (wf_locate _ _ _ k Hwf) as [i b c Hi Eb Ec Hb Hloc].
  unfold insert_spec, insert. rewrite Hi, (array_get_located _ _ _ Eb). run_bind.
  destruct (bucket_found hasher _ _ _ _ _ k Hb) as [-> E0|l1 x l2 Ex <- Hk Hne Ef|l x Ex Hk Hne Ef].
  - rewrite decide_True by done. assert (k ∉ keys (concat cs)) as Hnk
      by (eapply not_found_contents; [done..|]; by apply not_elem_of_nil).
    rewrite (proj2 (contents_None _ _) Hnk). by eapply insert_empty_spec.
  - rewrite decide_False by done. rewrite Ef. run_bind.
    rewrite (found_contents _ _ _ _ _ _ (wf_keys _ _ _ Hwf) Ec Ex).
    destruct Hb as (Hc & _ & _). subst c.
    destruct (cells_lookup _ _ _ _ x Hc) as [n En]; [apply hit_elem|].
    exists (c_addr x). split; [done|]. cbn. by rewrite En.
  - rewrite decide_False by done. rewrite Ef. run_bind.
    assert (k ∉ keys (concat cs)) as Hnk by by eapply not_found_contents.
    rewrite (proj2 (contents_None _ _) Hnk). by eapply insert_at_end_spec.
Qed.

(** Overwriting the value of one cell. *)
Lemma cells_set_value (h : gmap addr (Entry K V)) p l1 x l2 q n v :
  cells h p (l1 ++ x :: l2) q -> c_addr x ∉ addrs l1 -> c_addr x ∉ addrs l2 ->
  h !! c_addr x = Some (MkEntry n (c_key x) (c_val x)) ->
  cells (<[c_addr x := MkEntry n (c_key x) v]> h) p (l1 ++ Cell (c_addr x) (c_key x) v :: l2) q.
Proof.
  intros (m & H1 & H2)%cells_app Hx1 Hx2 E. apply cells_app. exists m.
  split; [by apply cells_insert_notin|]. destruct H2 as (-> & n' & E' & H2). simplify_eq.
  split; [done|]. exists n'. split; [by rewrite lookup_insert_eq|]. by apply cells_insert_notin.
Qed.

Lemma others_split cs i l1 x l2 :
  cs !! i = Some (l1 ++ x :: l2) -> concat cs ≡ₚ x :: l1 ++ l2 ++ others cs i.
Proof.
  intros Ec. rewrite (concat_others _ _ _ Ec), <- app_assoc. cbn.
  by rewrite <- Permutation_middle.
Qed.

(** Facts about a cell of a well-formed table. *)
Lemma wf_cell m cs i b l1 x l2 :
  wf hasher m cs -> buckets m !! i = Some b -> cs !! i = Some (l1 ++ x :: l2) ->
  NoDup (addrs (x :: l1 ++ l2 ++ others cs i)) /\ NoDup (keys (x :: l1 ++ l2 ++ others cs i)) /\
  n_items m = 1 + Z.of_nat (length (l1 ++ l2 ++ others cs i)) /\
  dom (heap m) = list_to_set (addrs (x :: l1 ++ l2 ++ others cs i)).
Proof.
  intros [Hcap Hlen Ht Ha Hk Hn Hd] Eb Ec. pose proof (others_split _ _ _ _ _ Ec) as P.
  rewrite Hn, Hd, <- P. split; [done|]. split; [done|]. split; [|done].
  rewrite P. cbn [length]. lia.
Qed.

Lemma wf_set_value m cs i b l1 x l2 n v :
  wf hasher m cs -> buckets m !! i = Some b -> cs !! i = Some (l1 ++ x :: l2) ->
  bucket_ok hasher (capacity m) (heap m) i b (l1 ++ x :: l2) ->
  heap m !! c_addr x = Some (MkEntry n (c_key x) (c_val x)) ->
  represents (MkMap (n_items m) (capacity m) (max_capacity m) (buckets m)
                (<[c_addr x := MkEntry n (c_key x) v]> (heap m)))
    (<[c_key x := v]> (contents (concat cs))).
Proof.
  intros Hwf Eb Ec (Hc & Hlen & Hi) En.
  destruct (wf_cell _ _ _ _ _ _ _ Hwf Eb Ec) as (NA & NK & Hn & Hd).
  set (x' := Cell (c_addr x) (c_key x) v).
  assert ((l1 ++ x' :: l2) ++ others cs i ≡ₚ x' :: l1 ++ l2 ++ others cs i) as P.
  { rewrite <- app_assoc. cbn. by rewrite <- Permutation_middle. }
  exists (<[i := l1 ++ x' :: l2]> cs). pose proof NA as NA'.
  rewrite fmap_cons, NoDup_cons, !fmap_app, !not_elem_of_app in NA'. destruct NA' as ((H1 & H2 & H3) & _).
  split.
  - rewrite <- (list_insert_id (buckets m) i b Eb).
    eapply wf_update; [done|done|done| | | | | |].
    + split; [by eapply cells_set_value|]. rewrite length_app in *. split; [done|].
      rewrite Forall_app, Forall_cons in *. done.
    + intros a Ha. apply lookup_insert_ne. intros <-. done.
    + rewrite P. done.
    + rewrite P. done.
    + rewrite P. cbn [length]. lia.
    + rewrite P, dom_insert_L, Hd. cbn. set_solver.
  - rewrite (contents_perm (concat cs) _ (wf_keys _ _ _ Hwf) (others_split _ _ _ _ _ Ec)).
    rewrite contents_cons, insert_insert_eq.
    change (<[c_key x := v]> ?M) with (<[c_key x' := c_val x']> M). rewrite <- contents_cons.
    apply contents_perm; [done|]. by rewrite (concat_update _ _ _ _ Ec), P.
Qed.

Definition update_spec m (M : gmap K V) (k : K) (v : V) (o : outcome (Map K V * InsertKVResult)) : Prop :=
  match M !! k with
  | Some v0 => exists a m', o = Ret (m', MkInsert (RefEntry a) (RefEntry a) true) /\
                 represents m' (<[k := v]> M) /\ max_capacity m' = max_capacity m /\
                 insert_get_key (heap m') k (MkInsert (RefEntry a) (RefEntry a) true) = Ret k /\
                 insert_get_value (heap m') (MkInsert (RefEntry a) (RefEntry a) true) = Ret v
  | None => added m M k v o
  end.

Lemma update_represents m M k v :
  represents m M -> n_items m < 2 ^ 62 -> update_spec m M k v (update hasher m k v).
Proof.
  intros (cs & Hwf & ->) Hroom. destruct (wf_locate _ _ _ k Hwf) as [i b c Hi Eb Ec Hb Hloc].
  unfold update_spec, update. rewrite Hi, (array_get_located _ _ _ Eb). run_bind.
  destruct (bucket_found hasher _ _ _ _ _ k Hb) as [-> E0|l1 x l2 Ex <- Hk Hne Ef|l x Ex Hk Hne Ef].
  - rewrite decide_True by done. assert (k ∉ keys (concat cs)) as Hnk
      by (eapply not_found_contents; [done..|]; by apply not_elem_of_nil).
    rewrite (proj2 (contents_None _ _) Hnk). by eapply insert_empty_spec.
  - rewrite decide_False by done. rewrite Ef. run_bind.
    rewrite (found_contents _ _ _ _ _ _ (wf_keys _ _ _ Hwf) Ec Ex).
    pose proof Hb as (Hc & _ & _). subst c.
    destruct (cells_lookup _ _ _ _ x Hc) as [n En]; [apply hit_elem|].
    rewrite (deref_Some _ _ _ En). run_bind. eexists (c_addr x), _. split; [done|].
    split; [by eapply wf_set_value|]. cbn. by rewrite lookup_insert_eq.
  - rewrite decide_False by done. rewrite Ef. run_bind.
    assert (k ∉ keys (concat cs)) as Hnk by by eapply not_found_contents.
    rewrite (proj2 (contents_None _ _) Hnk). by eapply insert_at_end_spec.
Qed.

(** ** Remove *)

Lemma cells_delete_notin (h : gmap addr (Entry K V)) a p l q :
  a ∉ addrs l -> cells h p l q -> cells (delete a h) p l q.
Proof.
  intros Ha. apply cells_frame. intros b Hb. apply lookup_delete_ne. by intros ->.
Qed.

(** The state after the removal of a cell that was found. *)
Definition removed m (i : nat) (b : Bucket) (x : cell K V) (n : ptr) : Map K V :=
  MkMap (u64 (n_items m - 1)) (capacity m) (max_capacity m)
    (<[i := MkBucket n (u64 (bucket_items b - 1))]> (buckets m)) (delete (c_addr x) (heap m)).

Lemma remove_hit m cs i b l1 x l2 :
  wf hasher m cs -> buckets m !! i = Some b -> cs !! i = Some (l1 ++ x :: l2) ->
  bucket_ok hasher (capacity m) (heap m) i b (l1 ++ x :: l2) ->
  bucket_index_for_key hasher m (c_key x) = Z.of_nat i -> c_key x ∉ keys l1 ->
  exists n, heap m !! c_addr x = Some (MkEntry n (c_key x) (c_val x)) /\
    cells (delete (c_addr x) (heap m)) n l2 null /\
    remove hasher m (c_key x) =
      Ret (removed m i b x n, MkRemove (Some (c_key x)) (Some (c_val x))).
Proof.
  intros Hwf Eb Ec (Hc & Hlen & _) Hi Hk.
  destruct (wf_cell _ _ _ _ _ _ _ Hwf Eb Ec) as (NA & _ & _ & _).
  rewrite fmap_cons, NoDup_cons, !fmap_app, !not_elem_of_app in NA. destruct NA as ((_ & H2 & _) & _).
  pose proof (cells_length_size _ _ _ Hc) as Hs. rewrite length_app in Hs, Hlen. cbn in Hs, Hlen.
  pose proof Hc as Hc'. apply cells_app in Hc' as (p & H1 & (-> & n & En & Hn)).
  exists n. split; [done|]. split; [by apply cells_delete_notin|].
  unfold remove. rewrite Hi, (array_get_located _ _ _ Eb). run_bind. rewrite decide_False by lia.
  rewrite (remove_find_hit _ _ _ _ _ _ _ _ Hc Hk) by lia. run_bind.
  rewrite (deref_Some _ _ _ En). run_bind. cbn [next key value].
  rewrite array_set_lt by (apply lookup_lt_Some in Eb; lia). by rewrite Nat2Z.id.
Qed.

(** Removal of the first entry of a bucket. *)
Lemma removed_first m cs i b x l2 n :
  wf hasher m cs -> buckets m !! i = Some b -> cs !! i = Some (x :: l2) ->
  bucket_ok hasher (capacity m) (heap m) i b (x :: l2) ->
  cells (delete (c_addr x) (heap m)) n l2 null -> n_items m < 2 ^ 64 ->
  represents (removed m i b x n) (delete (c_key x) (contents (concat cs))).
Proof.
  intros Hwf Eb Ec (Hc & Hlen & Hi) Hn Hmax.
  pose proof (wf_bucket_items _ _ _ _ _ Hwf Eb Ec) as Hbn.
  destruct (wf_cell _ _ _ _ [] _ _ Hwf Eb Ec) as (NA & NK & Hits & Hd). cbn [app] in *.
  rewrite fmap_cons, NoDup_cons in NA. rewrite fmap_cons, NoDup_cons in NK. destruct NA as [Hxa NA], NK as [Hxk NK].
  rewrite length_app in Hits. cbn [length] in Hlen.
  exists (<[i := l2]> cs). split.
  - eapply wf_update; [done|done|done| | |done|done| |].
    + split; [done|]. split; [cbn; rewrite u64_small by lia; lia|].
      rewrite Forall_cons in Hi. by destruct Hi.
    + intros a Ha. apply lookup_delete_ne. intros <-. apply Hxa. rewrite fmap_app.
      apply elem_of_app. by right.
    + rewrite length_app. rewrite u64_small by lia. lia.
    + rewrite dom_delete_L, Hd. set_solver.
  - rewrite (contents_perm (concat cs) _ (wf_keys _ _ _ Hwf) (others_split _ _ [] _ _ Ec)).
    rewrite contents_cons, delete_insert_id by (by apply contents_None).
    apply contents_perm; [done|]. cbn. by rewrite (concat_update _ _ _ l2 Ec).
Qed.

Definition first_in_bucket m (k : K) : Prop :=
  exists b a e, array_get (buckets m) (bucket_index_for_key hasher m k) = Ret b /\
    first b = Some a /\ heap m !! a = Some e /\ key e = k.

Lemma located_hit m cs k :
  wf hasher m cs -> is_Some (contents (concat cs) !! k) ->
  exists i b l1 x l2,
    bucket_index_for_key hasher m k = Z.of_nat i /\ buckets m !! i = Some b /\
    cs !! i = Some (l1 ++ x :: l2) /\ bucket_ok hasher (capacity m) (heap m) i b (l1 ++ x :: l2) /\
    c_key x = k /\ k ∉ keys l1 /\ contents (concat cs) !! k = Some (c_val x) /\
    (first_in_bucket m k <-> l1 = []).
Proof.
  intros Hwf [v Ev]. destruct (wf_locate _ _ _ k Hwf) as [i b c Hi Eb Ec Hb Hloc].
  pose proof Ev as (y & Hy & Ey & _)%contents_Some; [|by apply Hwf].
  apply Hloc in Hy; [|done].
  destruct (keys_split c k) as (l1 & x & l2 & -> & Ex & Hk); [rewrite <- Ey; by apply list_elem_of_fmap_2|].
  exists i, b, l1, x, l2. do 6 (split; [done|]). split.
  { rewrite <- Ex. eapply found_contents; [apply Hwf|exact Ec|done]. }
  pose proof Hb as (Hc & _ & _). unfold first_in_bucket.
  rewrite Hi, (array_get_located _ _ _ Eb). split.
  - intros (b' & a & e & [= <-] & Ef & Ea & Ek). destruct l1 as [|z l1]; [done|].
    cbn in Hc. destruct Hc as (Ef' & n & En & _). simplify_eq. cbn in Hk.
    exfalso. apply Hk. rewrite <- Ek. by left.
  - intros ->. cbn in Hc. destruct Hc as (Ef & n & En & _). eauto 8.
Qed.

Lemma remove_miss m cs k :
  wf hasher m cs -> contents (concat cs) !! k = None ->
  remove hasher m k = Ret (m, MkRemove None None).
Proof.
  intros Hwf Hn%contents_None. destruct (wf_locate _ _ _ k Hwf) as [i b c Hi Eb Ec Hb Hloc].
  pose proof Hb as (Hc & Hlen & _). pose proof (cells_length_size _ _ _ Hc).
  unfold remove. rewrite Hi, (array_get_located _ _ _ Eb). run_bind.
  case_decide; [done|].
  rewrite (remove_find_miss _ _ _ _ _ k Hc); [done| | |lia].
  - intros ->. cbn in Hlen. done.
  - intros Hk. apply Hn. rewrite (concat_others _ _ _ Ec), fmap_app. apply elem_of_app. by left.
Qed.
End Update.
