(* ===== verification/HashMapProps.v ===== *)
(** * HashMapProps: what Map promises and where it does not keep it

    Sequences of operations against a finite map, the operations one by one,
    resizing, construction, removal, statistics, and the concrete maps the
    witnesses evaluate. *)

From S2P Require Import Prelude Words LinkedList HashMap HashMapWf HashMapSpec.
Local Open Scope Z_scope.

Section Construct.
Context {K V : Type} `{Countable K} (hasher : K -> Z).

Lemma init_capacity_pow2 n :
  2 <= n -> exists k, 0 <= k <= 3 /\
    Z.shiftr (next_power_of_2 (Z.min DEFAULT_INIT_CAPACITY n)) 1 = 2 ^ k.
Proof.
  intros Hn. unfold DEFAULT_INIT_CAPACITY. set (c := Z.min 16 n).
  assert (2 <= c <= 16) as Hc by lia.
  rewrite next_power_of_2_log2_up, Z.shiftr_div_pow2 by lia.
  assert (Z.log2_up 2 <= Z.log2_up c <= Z.log2_up 16) as Hl
    by (split; apply Z.log2_up_le_mono; lia).
  change (Z.log2_up 2) with 1 in Hl. change (Z.log2_up 16) with 4 in Hl.
  exists (Z.log2_up c - 1). split; [lia|].
  replace (Z.log2_up c) with ((Z.log2_up c - 1) + 1) at 1 by lia.
  rewrite Z.pow_add_r, Z.pow_1_r by lia. by apply Z.div_mul.
Qed.

Lemma Map_new_represents n :
  2 <= n ->
  exists m : Map K V, Map_new n = Ret m /\ represents hasher m ∅ /\ max_capacity m = n.
Proof.
  intros Hn. destruct (init_capacity_pow2 n Hn) as (k & Hk & E).
  unfold Map_new. rewrite decide_False, E by lia. eexists. split; [done|]. split; [|done].
  exists (replicate (Z.to_nat (2 ^ k)) []). split; [|by rewrite concat_replicate_nil].
  constructor; cbn; rewrite ?concat_replicate_nil; try done.
  - exists k. split; [lia|done].
  - rewrite length_replicate. lia.
  - apply table_empty.
  - constructor.
  - constructor.
Qed.

(** ** Sequences of operations *)

Inductive op := OpLookup (k : K) | OpInsert (k : K) (v : V) | OpUpdate (k : K) (v : V).

(** What the caller sees: the value found, or [operator bool] of the result
    and [count()]. *)
Inductive obs := ObsLookup (v : option V) | ObsInsert (ok : bool) (items : Z).

Definition run_op (m : Map K V) (o : op) : outcome (Map K V * obs) :=
  match o with
  | OpLookup k =>
    r ← lookup hasher m k;
    if (lookup_found r : bool) then v ← lookup_get_value (heap m) r; Ret (m, ObsLookup (Some v))
    else Ret (m, ObsLookup None)
  | OpInsert k v => '(m, r) ← insert hasher m k v; Ret (m, ObsInsert (inserted r) (count m))
  | OpUpdate k v => '(m, r) ← update hasher m k v; Ret (m, ObsInsert (inserted r) (count m))
  end.

Fixpoint run_ops (m : Map K V) (ops : list op) : outcome (Map K V * list obs) :=
  match ops with
  | [] => Ret (m, [])
  | o :: ops =>
    '(m, x) ← run_op m o;
    '(m, xs) ← run_ops m ops;
    Ret (m, x :: xs)
  end.

(** The same on a finite map. *)
Definition spec_op (M : gmap K V) (o : op) : gmap K V * obs :=
  match o with
  | OpLookup k => (M, ObsLookup (M !! k))
  | OpInsert k v =>
    match M !! k with
    | Some _ => (M, ObsInsert false (Z.of_nat (size M)))
    | None => (<[k := v]> M, ObsInsert true (Z.of_nat (size (<[k := v]> M))))
    end
  | OpUpdate k v => (<[k := v]> M, ObsInsert true (Z.of_nat (size (<[k := v]> M))))
  end.

Fixpoint spec_ops (M : gmap K V) (ops : list op) : gmap K V * list obs :=
  match ops with
  | [] => (M, [])
  | o :: ops => let '(M, x) := spec_op M o in let '(M, xs) := spec_ops M ops in (M, x :: xs)
  end.

Lemma represents_count m (M : gmap K V) : represents hasher m M -> count m = Z.of_nat (size M).
Proof. intros (cs & Hwf & ->). by apply (wf_contents_size hasher). Qed.

Lemma spec_op_size M o : (size (spec_op M o).1 <= S (size M))%nat.
Proof.
  destruct o as [k|k v|k v]; cbn; [lia| |].
  - destruct (M !! k) eqn:E; cbn; [lia|]. by rewrite map_size_insert_None.
  - rewrite map_size_insert. destruct (M !! k); cbn; lia.
Qed.

Lemma run_op_represents m M o :
  represents hasher m M -> Z.of_nat (size M) < 2 ^ 62 ->
  exists m', run_op m o = Ret (m', (spec_op M o).2) /\ represents hasher m' (spec_op M o).1 /\
    max_capacity m' = max_capacity m.
Proof.
  intros Hm Hsz. pose proof (represents_count _ _ Hm) as Hc. unfold count in Hc.
  destruct o as [k|k v|k v]; cbn.
  - destruct (lookup_represents _ _ _ k Hm) as (r & -> & Hr). run_bind.
    destruct (M !! k) as [v|].
    + destruct Hr as (-> & _ & ->). exists m. done.
    + subst r. exists m. done.
  - pose proof (insert_represents _ _ _ k v Hm) as Hi. unfold insert_spec in Hi.
    destruct (M !! k) as [v0|].
    + destruct Hi as (a & -> & _); [lia|]. run_bind. exists m. cbn. unfold count. by rewrite Hc.
    + destruct Hi as (m' & -> & Hm' & Hmax); [lia|]. run_bind. exists m'. cbn.
      by rewrite (represents_count _ _ Hm').
  - pose proof (update_represents _ _ _ k v Hm) as Hi. unfold update_spec in Hi.
    destruct (M !! k) as [v0|].
    + destruct Hi as (a & m' & -> & Hm' & Hmax & _); [lia|]. run_bind. exists m'. cbn.
      by rewrite (represents_count _ _ Hm').
    + destruct Hi as (m' & -> & Hm' & Hmax); [lia|]. run_bind. exists m'. cbn.
      by rewrite (represents_count _ _ Hm').
Qed.

Lemma run_ops_represents ops : forall m M,
  represents hasher m M -> Z.of_nat (size M) + Z.of_nat (length ops) <= 2 ^ 62 ->
  exists m', run_ops m ops = Ret (m', (spec_ops M ops).2) /\ represents hasher m' (spec_ops M ops).1 /\
    max_capacity m' = max_capacity m.
Proof.
  induction ops as [|o ops IH]; intros m M Hm Hsz; [by exists m|]. cbn [run_ops spec_ops].
  cbn [length] in Hsz. destruct (run_op_represents m M o Hm) as (m1 & -> & Hm1 & Hmax1); [lia|]. run_bind.
  pose proof (spec_op_size M o). destruct (spec_op M o) as [M1 x]. cbn in *.
  destruct (IH m1 M1 Hm1) as (m2 & -> & Hm2 & Hmax2); [lia|]. run_bind.
  destruct (spec_ops M1 ops) as [M2 xs]. exists m2. cbn in *. by rewrite Hmax2.
Qed.
End Construct.
Arguments op : clear implicits.
Arguments obs : clear implicits.

(** ** Concrete maps for the witnesses: Z keys, the identity as hash *)

Definition demo_hasher (k : Z) : Z := u64 k.

Definition demo_ops : list (op Z Z) := [OpInsert 1 10; OpInsert 17 20; OpUpdate 1 11; OpLookup 17].

(** max_capacity 8: four buckets, keys 1 and 17 collide in bucket 1. *)
Definition demo_map : Map Z Z :=
  match (m ← Map_new 8; run_ops demo_hasher m demo_ops) with
  | Ret (m, _) => m
  | _ => MkMap 0 0 0 [] ∅
  end.

Definition demo_contents : gmap Z Z := {[ 1 := 11; 17 := 20 ]}.

Lemma demo_represents : represents demo_hasher demo_map demo_contents.
Proof.
  destruct (Map_new_represents (V := Z) demo_hasher 8) as (m0 & E0 & H0 & _); [lia|].
  destruct (run_ops_represents demo_hasher demo_ops m0 ∅ H0) as (m1 & E1 & H1 & _); [vm_compute; discriminate|].
  unfold demo_map. rewrite E0. run_bind. rewrite E1.
  replace demo_contents with (spec_ops ∅ demo_ops).1 by by vm_compute. done.
Qed.

Section Props.
Context {K V : Type} `{Countable K} (hasher : K -> Z).
Implicit Types (m : Map K V) (M : gmap K V).

(** C1. A map constructed with a maximum capacity of at least 2 behaves as a
    finite map under every sequence of lookup, insert and update: no operation
    faults or throws, each lookup finds exactly the current binding, insert
    refuses a key that is present and update overwrites it, [count] is the
    number of keys, across any number of resizes. *)
Theorem map_refines_finite_map n ops :
  2 <= n -> Z.of_nat (length ops) <= 2 ^ 62 ->
  exists m m', Map_new n = Ret m /\
    run_ops hasher m ops = Ret (m', snd (spec_ops ∅ ops)) /\
    represents hasher m' (fst (spec_ops ∅ ops)).
Proof.
  intros Hn Hops. destruct (Map_new_represents (V := V) hasher n Hn) as (m & Em & Hm & _).
  destruct (run_ops_represents hasher ops m ∅ Hm) as (m' & Er & Hm' & _).
  { rewrite map_size_empty. lia. }
  eauto.
Qed.

(** Construction. Maximum capacity 0 throws; from 2 on the map is empty,
    honours the bound it was given and starts with a power of two of at most 8
    buckets; maximum capacity 1 is accepted but gives a table without buckets,
    on which every operation indexes out of bounds. *)
Theorem map_construction n :
  0 <= n <= size_max ->
  (n = 0 -> @Map_new K V n = Raise (RuntimeError "maximum capacity must be nonzero")) /\
  (n = 1 -> exists m, Map_new n = Ret m /\ forall k v,
     lookup hasher m k = Fault OutOfBounds /\ insert hasher m k v = Fault OutOfBounds /\
     update hasher m k v = Fault OutOfBounds /\ remove hasher m k = Fault OutOfBounds) /\
  (2 <= n -> exists m, Map_new n = Ret m /\ represents hasher m ∅ /\
     count m = 0 /\ max_capacity m = n /\ capacity m <= Z.min n 8 /\ pow2_word (capacity m)).
Proof.
  intros Hn. split; [by intros ->|]. split.
  - intros ->. eexists. split; [reflexivity|]. intros k v.
    assert (forall i, @array_get Bucket [] i = Fault OutOfBounds) as E.
    { intros i. unfold array_get. case_decide; done. }
    unfold lookup, insert, update, remove. cbn [buckets]. change (Z.to_nat _) with 0%nat.
    cbn [replicate]. by rewrite !E.
  - intros H2. destruct (Map_new_represents (V := V) hasher n H2) as (m & Em & Hm & Hmax).
    exists m. split; [done|]. split; [done|].
    split; [by rewrite (represents_count _ _ _ Hm), map_size_empty|]. split; [done|].
    unfold Map_new in Em. rewrite decide_False in Em by lia. injection Em as <-. cbn [capacity].
    destruct (init_capacity_pow2 n H2) as (k & Hk & E). split.
    + unfold DEFAULT_INIT_CAPACITY in *. rewrite next_power_of_2_log2_up, Z.shiftr_div_pow2 in * by lia.
      rewrite E. apply Z.min_glb.
      * destruct (Z.log2_up_spec (Z.min 16 n)) as [Hlt _]; [lia|].
        replace (2 ^ k) with (2 ^ Z.pred (Z.log2_up (Z.min 16 n))); [lia|].
        rewrite <- E. replace (Z.log2_up (Z.min 16 n)) with (Z.pred (Z.log2_up (Z.min 16 n)) + 1) at 2 by lia.
        rewrite Z.pow_add_r by (try lia; apply Z.lt_le_pred, Z.log2_up_pos; lia).
        by rewrite Z.div_mul.
      * assert (2 ^ k <= 2 ^ 3); [|lia]. apply Z.pow_le_mono_r; lia.
    + rewrite E. exists k. split; [lia|done].
Qed.

(** [insert]. A key that is present is left alone and the result refers to its
    entry; otherwise the binding is added, at the end of its bucket's chain,
    and the result converts to true. *)
Theorem insert_correct m M k v :
  represents hasher m M -> Z.of_nat (size M) < 2 ^ 62 ->
  exists m' r, insert hasher m k v = Ret (m', r) /\ inserted r = bool_decide (M !! k = None) /\
    represents hasher m' (match M !! k with Some _ => M | None => <[k := v]> M end) /\
    insert_get_key (heap m') k r = Ret k /\
    (forall v0, M !! k = Some v0 -> m' = m /\ insert_get_value (heap m') r = Ret v0).
Proof.
  intros Hm Hsz. rewrite <- (represents_count _ _ _ Hm) in Hsz.
  pose proof (insert_represents _ _ _ k v Hm Hsz) as Hi. unfold insert_spec in Hi.
  destruct (M !! k) as [v0|].
  - destruct Hi as (a & -> & Hk & Hv). eexists m, _. split; [done|]. split; [done|]. split; [done|].
    split; [done|]. by intros ? [= <-].
  - destruct Hi as (m' & -> & Hm' & _). eexists m', _. by repeat (split; [done|]).
Qed.

(** [update]. The binding is set whether or not the key was present, the
    number of keys grows only if it was not, and the result always converts to
    true. *)
Theorem update_correct m M k v :
  represents hasher m M -> Z.of_nat (size M) < 2 ^ 62 ->
  exists m' r, update hasher m k v = Ret (m', r) /\ inserted r = true /\
    represents hasher m' (<[k := v]> M) /\ count m' = Z.of_nat (size (<[k := v]> M)) /\
    insert_get_key (heap m') k r = Ret k /\
    (is_Some (M !! k) -> insert_get_value (heap m') r = Ret v).
Proof.
  intros Hm Hsz. rewrite <- (represents_count _ _ _ Hm) in Hsz.
  pose proof (update_represents _ _ _ k v Hm Hsz) as Hi. unfold update_spec in Hi.
  destruct (M !! k) as [v0|].
  - destruct Hi as (a & m' & -> & Hm' & _ & Hk & Hv). eexists m', _.
    split; [done|]. split; [done|]. split; [done|]. split; [by eapply represents_count|]. done.
  - destruct Hi as (m' & -> & Hm' & _). eexists m', _.
    split; [done|]. split; [done|]. split; [done|]. split; [by eapply represents_count|].
    split; [done|]. by intros [? ?].
Qed.

(** When insert or update has added a new entry, the value reference of its
    result is bound to the by-value parameter, so reading it through
    [get_value()] after the call is an access to a dead object. *)
Theorem new_entry_result_dangles m M k v :
  represents hasher m M -> Z.of_nat (size M) < 2 ^ 62 -> M !! k = None ->
  exists m1 m2 r, insert hasher m k v = Ret (m1, r) /\ update hasher m k v = Ret (m2, r) /\
    insert_get_value (heap m1) r = Fault Dangling /\ insert_get_value (heap m2) r = Fault Dangling.
Proof.
  intros Hm Hsz Hk. rewrite <- (represents_count _ _ _ Hm) in Hsz.
  pose proof (insert_represents _ _ _ k v Hm Hsz) as Hi.
  pose proof (update_represents _ _ _ k v Hm Hsz) as Hu.
  unfold insert_spec in Hi. unfold update_spec in Hu. rewrite Hk in Hi, Hu.
  destruct Hi as (m1 & -> & _), Hu as (m2 & -> & _). by eexists m1, m2, _.
Qed.

(** C4. A resize preserves the contents and the counters, runs exactly when the
    load factor exceeds one half and the doubled capacity is allowed, doubles
    the capacity, and brings the load factor back to at most one half. *)
Theorem resize_correct m M :
  represents hasher m M -> Z.of_nat (size M) < 2 ^ 53 -> count m <= capacity m -> capacity m < 2 ^ 53 ->
  exists m', perform_resize_if_required hasher m = Ret m' /\ represents hasher m' M /\
    count m' = count m /\ max_capacity m' = max_capacity m /\
    capacity m' = (if bool_decide (capacity m < 2 * count m /\ 2 * capacity m <= max_capacity m)
                   then 2 * capacity m else capacity m) /\
    (2 * count m' <= capacity m' \/ max_capacity m < 2 * capacity m).
Proof.
  intros Hm Hsz Hload Hcap. pose proof (represents_count _ _ _ Hm) as Hc.
  destruct Hm as (cs & Hwf & ->). unfold count in *.
  destruct (pow2_word_range _ (wf_capacity _ _ _ Hwf)) as [Hcap1 _].
  destruct (resize_spec hasher m cs Hwf) as (m' & cs' & Er & Hwf' & P & Hn & Hmax & Hcap'); [lia|].
  exists m'. split; [done|]. split.
  { exists cs'. split; [done|]. apply contents_perm; [apply Hwf|done]. }
  rewrite Hn, Hmax, Hcap'. split; [done|]. split; [done|].
  unfold resize_required. rewrite load_factor_exceeds_half_exact, Z.shiftl_mul_pow2, u64_small by lia.
  case_bool_decide as Hd; destruct (Z.ltb_spec (capacity m) (2 * n_items m)),
    (Z.leb_spec (capacity m * 2 ^ 1) (max_capacity m)); cbn [andb]; lia.
Qed.

(** C5. Remove of an absent key, or of the first entry of its bucket, is removal
    from the finite map and returns the binding. *)
Theorem remove_first_correct m M k :
  represents hasher m M -> Z.of_nat (size M) < 2 ^ 64 ->
  M !! k = None \/ first_in_bucket hasher m k ->
  exists m', remove hasher m k = Ret (m', MkRemove ((fun _ => k) <$> M !! k) (M !! k)) /\
    represents hasher m' (delete k M) /\ count m' = Z.of_nat (size (delete k M)).
Proof.
  intros Hm Hsz Hor. pose proof (represents_count _ _ _ Hm) as Hc. destruct Hm as (cs & Hwf & ->).
  destruct (contents (concat cs) !! k) as [v|] eqn:Ek.
  - destruct (located_hit hasher m cs k Hwf) as (i & b & l1 & x & l2 & Hi & Eb & Ec & Hb & <- & Hk & Ev & Hfst);
      [by rewrite Ek|].
    destruct Hor as [Hno|Hf]; [by rewrite Hno in Ek|]. apply Hfst in Hf as ->.
    destruct (remove_hit hasher m cs i b [] x l2) as (n & _ & Hn & Er); try done.
    assert (represents hasher (removed m i b x n) (delete (c_key x) (contents (concat cs)))) as Hm'.
    { eapply removed_first; [done..|]. unfold count in Hc. lia. }
    rewrite Er. eexists. split; [rewrite Ek in Ev; by injection Ev as ->|].
    split; [done|]. by apply (represents_count hasher).
  - rewrite (remove_miss hasher _ _ _ Hwf Ek). exists m. split; [done|].
    rewrite delete_id by done. split; [by exists cs|done].
Qed.

(** C3. Remove of an entry that is not the first of its bucket ([prev] is never
    advanced) unlinks the entries before it as well: the count drops by one,
    but another key that was in the map is no longer found, or the lookup of
    it dereferences null. *)
Theorem remove_loses_entries m M k :
  represents hasher m M -> Z.of_nat (size M) < 2 ^ 64 ->
  is_Some (M !! k) -> ~ first_in_bucket hasher m k ->
  exists m' k', remove hasher m k = Ret (m', MkRemove (Some k) (M !! k)) /\
    count m' = count m - 1 /\ k' <> k /\ is_Some (M !! k') /\
    (lookup hasher m' k' = Ret (MkLookup null null) \/ lookup hasher m' k' = Fault NullDeref).
Proof.
  intros Hm Hsz Hk Hnf. pose proof (represents_count _ _ _ Hm) as Hc. destruct Hm as (cs & Hwf & ->).
  destruct (located_hit hasher m cs k Hwf Hk) as (i & b & l1 & x & l2 & Hi & Eb & Ec & Hb & <- & Hkl & Ev & Hfst).
  destruct (remove_hit hasher m cs i b l1 x l2) as (n & _ & Hn & Er); try done.
  destruct l1 as [|y l1]; [by destruct Hnf; apply Hfst|].
  pose proof (wf_bucket_items hasher _ _ _ _ _ Hwf Eb Ec) as Hbn. unfold count in Hc.
  destruct (wf_cell hasher _ _ _ _ _ _ _ Hwf Eb Ec) as (_ & NK & Hits & _).
  destruct Hb as (_ & Hlen & Hidx).
  rewrite length_app in Hlen. cbn [length] in Hlen. rewrite Hlen in Hbn.
  exists (removed m i b x n), (c_key y). rewrite Er, Ev. split; [done|].
  cbn. unfold count. cbn. split; [apply u64_small; lia|].
  split; [intros E; apply Hkl; rewrite <- E; by left|].
  assert (c_key y ∉ keys l2) as Hy2.
  { rewrite fmap_cons, NoDup_cons in NK. destruct NK as [_ NK].
    rewrite !fmap_app, NoDup_app in NK. destruct NK as (_ & Hd & _).
    intros Hin. apply (Hd (c_key y)); [by left|]. apply elem_of_app. by left. }
  split.
  { exists (c_val y). eapply (found_contents cs _ i []); [apply Hwf|exact Ec|done]. }
  assert (bucket_index_for_key hasher (removed m i b x n) (c_key y) = Z.of_nat i) as Hi'.
  { unfold bucket_index_for_key, removed. cbn. rewrite Forall_forall in Hidx. apply Hidx. by left. }
  unfold lookup. rewrite Hi'. cbn [buckets removed].
  rewrite (array_get_nat _ _ (MkBucket n (u64 (bucket_items b - 1))))
    by (apply list_lookup_insert_eq; eauto with coro). run_bind.
  cbn [bucket_items first]. rewrite u64_small, decide_False by lia.
  pose proof (cells_length_size _ _ _ Hn).
  destruct l2 as [|z l2 _] using rev_ind.
  - cbn in Hn. subst n. by right.
  - left. rewrite length_app in *. cbn [length] in *.
    by rewrite (find_entry_miss _ _ _ l2 z _ Hn Hy2) by (cbn; lia).
Qed.

(** ** Statistics *)

Definition items_sum (bs : list Bucket) : Z := foldr Z.add 0 (bucket_items <$> bs).

Lemma table_items_sum n h bs cs :
  table hasher n h bs cs -> items_sum bs = Z.of_nat (length (concat (A := cell K V) cs)) /\
    Forall (fun b => 0 <= bucket_items b) bs.
Proof.
  intros [Hlen Ht].
  assert (Forall2 (fun b c => bucket_items b = Z.of_nat (length (A := cell K V) c)) bs cs) as Hf.
  { apply Forall2_same_length_lookup_2; [done|]. intros i b c Eb Ec. by destruct (Ht _ _ _ Eb Ec) as (_ & ? & _). }
  clear Hlen Ht. unfold items_sum. induction Hf as [|b c bs cs E Hf [IH1 IH2]]; [done|].
  cbn. rewrite length_app, IH1, E. split; [lia|]. constructor; [lia|done].
Qed.

Lemma bucket_stats_spec bs : forall mn mx s,
  Forall (fun b => 0 <= bucket_items b) bs -> 0 <= s -> s + items_sum bs < 2 ^ 64 ->
  exists lo hi, bucket_stats bs mn mx s = (lo, hi, s + items_sum bs) /\
    lo <= mn /\ mx <= hi /\ Forall (fun b => lo <= bucket_items b <= hi) bs /\
    (lo = mn \/ exists b, b ∈ bs /\ bucket_items b = lo) /\
    (hi = mx \/ exists b, b ∈ bs /\ bucket_items b = hi).
Proof.
  induction bs as [|b bs IH]; intros mn mx s Hnn Hs Hlt.
  - exists mn, mx. unfold items_sum. cbn. rewrite Z.add_0_r. repeat split; auto; lia.
  - apply Forall_cons in Hnn as [Hb Hnn]. unfold items_sum in *. cbn in *.
    assert (0 <= foldr Z.add 0 (bucket_items <$> bs)) as Hpos.
    { clear -Hnn. induction Hnn; cbn; lia. }
    rewrite u64_small by lia.
    destruct (IH (Z.min (bucket_items b) mn) (Z.max (bucket_items b) mx) (s + bucket_items b))
      as (lo & hi & E & Hlo & Hhi & Hall & Hlo' & Hhi'); [done|lia|lia|].
    exists lo, hi. rewrite E. split; [f_equal; lia|]. split; [lia|]. split; [lia|].
    split; [constructor; [lia|done]|].
    assert (forall x y : Bucket, x ∈ bs -> x ∈ y :: bs) as Hin by (intros; by right).
    split.
    + destruct Hlo' as [->|(b' & Hb' & E')]; [|right; eauto].
      destruct (Z.min_spec (bucket_items b) mn) as [[_ ->]|[_ ->]]; [right|by left].
      exists b. split; [by left|done].
    + destruct Hhi' as [->|(b' & Hb' & E')]; [|right; eauto].
      destruct (Z.max_spec (bucket_items b) mx) as [[_ ->]|[_ ->]]; [by left|right].
      exists b. split; [by left|done].
Qed.

(** [stats] reports the number of keys, the capacities, and the minimum,
    maximum and average length of the bucket chains: the bounds are attained
    and the average is the number of keys divided by the number of buckets. *)
Theorem stats_correct m M :
  represents hasher m M -> Z.of_nat (size M) < 2 ^ 53 -> capacity m < 2 ^ 53 ->
  exists s, stats m = Ret s /\ st_count s = Z.of_nat (size M) /\
    st_capacity s = capacity m /\ st_max_capacity s = max_capacity m /\
    st_load_factor s = (Z.of_nat (size M), capacity m) /\
    st_avg_bucket_depth s = Z.of_nat (size M) / capacity m /\
    Forall (fun b => st_min_bucket_depth s <= bucket_items b <= st_max_bucket_depth s) (buckets m) /\
    (exists b, b ∈ buckets m /\ bucket_items b = st_min_bucket_depth s) /\
    (exists b, b ∈ buckets m /\ bucket_items b = st_max_bucket_depth s).
Proof.
  intros Hm Hsz Hcap. pose proof (represents_count _ _ _ Hm) as Hc. destruct Hm as (cs & Hwf & ->).
  unfold count in Hc. destruct (pow2_word_range _ (wf_capacity _ _ _ Hwf)) as [Hcap1 _].
  destruct (table_items_sum _ _ _ _ (wf_table _ _ _ Hwf)) as [Hsum Hnn].
  rewrite <- (wf_items _ _ _ Hwf) in Hsum.
  destruct (bucket_stats_spec (buckets m) size_max 0 0 Hnn) as (lo & hi & E & Hlo & Hhi & Hall & Hlo' & Hhi');
    [lia|lia|].
  unfold stats. rewrite E, decide_False by lia. eexists. split; [done|]. cbn.
  rewrite Z.add_0_l, Hsum, !to_double_exact, Hc by lia. repeat (split; [done|]).
  assert (exists b, b ∈ buckets m) as [b Hb].
  { destruct (buckets m) as [|b bs] eqn:Eb; [|exists b; by left].
    pose proof (wf_length _ _ _ Hwf) as Hl. rewrite Eb in Hl. cbn in Hl. lia. }
  rewrite Forall_forall in Hall. pose proof (Hall _ Hb).
  rewrite Forall_forall in Hnn. pose proof (Hnn _ Hb).
  assert (bucket_items b <= size_max).
  { apply list_elem_of_lookup in Hb as [i Eb]. pose proof (lookup_lt_Some _ _ _ Eb).
    destruct (table_lookup _ _ _ _ _ i (wf_table _ _ _ Hwf)) as (b' & c & Eb' & Ec & _); [done|].
    simplify_eq. pose proof (wf_bucket_items hasher _ _ _ _ _ Hwf Eb Ec). unfold size_max. lia. }
  split.
  - destruct Hlo' as [->|?]; [|done]. exists b. split; [done|lia].
  - destruct Hhi' as [->|?]; [|done]. exists b. split; [done|lia].
Qed.
End Props.

(** ** Witnesses *)

Lemma map_refines_finite_map_witness :
  exists m m', Map_new 8 = Ret m /\
    run_ops demo_hasher m demo_ops = Ret (m', [ObsInsert true 1; ObsInsert true 2; ObsInsert true 2; ObsLookup (Some 20)]) /\
    represents demo_hasher m' (fst (spec_ops ∅ demo_ops)).
Proof.
  replace [ObsInsert true 1; ObsInsert true 2; ObsInsert true 2; ObsLookup (Some 20)]
    with (snd (spec_ops ∅ demo_ops)) by (vm_compute; reflexivity).
  apply (map_refines_finite_map demo_hasher 8 demo_ops); vm_compute; discriminate.
Defined.

Lemma map_construction_witness :
  0 <= 8 <= size_max /\
  exists m : Map Z Z, Map_new 8 = Ret m /\ represents demo_hasher m ∅ /\
     count m = 0 /\ max_capacity m = 8 /\ capacity m <= Z.min 8 8 /\ pow2_word (capacity m).
Proof.
  split; [vm_compute; split; discriminate|].
  apply (map_construction demo_hasher 8); vm_compute; try split; discriminate.
Defined.

Lemma insert_correct_witness :
  represents demo_hasher demo_map demo_contents /\
  exists m' r, insert demo_hasher demo_map 5 50 = Ret (m', r) /\ inserted r = true /\
    represents demo_hasher m' (<[5 := 50]> demo_contents) /\
    insert_get_key (heap m') 5 r = Ret 5 /\
    (forall v0, demo_contents !! 5 = Some v0 -> m' = demo_map /\ insert_get_value (heap m') r = Ret v0).
Proof.
  split; [exact demo_represents|].
  apply (insert_correct demo_hasher demo_map demo_contents 5 50); [exact demo_represents|].
  vm_compute; reflexivity.
Defined.

Lemma update_correct_witness :
  represents demo_hasher demo_map demo_contents /\
  exists m' r, update demo_hasher demo_map 17 21 = Ret (m', r) /\ inserted r = true /\
    represents demo_hasher m' (<[17 := 21]> demo_contents) /\ count m' = 2 /\
    insert_get_key (heap m') 17 r = Ret 17 /\
    (is_Some (demo_contents !! 17) -> insert_get_value (heap m') r = Ret 21).
Proof.
  split; [exact demo_represents|].
  apply (update_correct demo_hasher demo_map demo_contents 17 21); [exact demo_represents|].
  vm_compute; reflexivity.
Defined.

Lemma new_entry_result_dangles_witness :
  demo_contents !! 5 = None /\
  exists m1 m2 r, insert demo_hasher demo_map 5 50 = Ret (m1, r) /\ update demo_hasher demo_map 5 50 = Ret (m2, r) /\
    insert_get_value (heap m1) r = Fault Dangling /\ insert_get_value (heap m2) r = Fault Dangling.
Proof.
  split; [reflexivity|].
  apply (new_entry_result_dangles demo_hasher demo_map demo_contents 5 50);
    [exact demo_represents|vm_compute; reflexivity|reflexivity].
Defined.

Lemma resize_correct_witness :
  represents demo_hasher demo_map demo_contents /\
  exists m', perform_resize_if_required demo_hasher demo_map = Ret m' /\
    represents demo_hasher m' demo_contents /\ count m' = count demo_map /\
    max_capacity m' = max_capacity demo_map /\
    capacity m' = (if bool_decide (capacity demo_map < 2 * count demo_map /\
                                   2 * capacity demo_map <= max_capacity demo_map)
                   then 2 * capacity demo_map else capacity demo_map) /\
    (2 * count m' <= capacity m' \/ max_capacity demo_map < 2 * capacity demo_map).
Proof.
  split; [exact demo_represents|].
  apply (resize_correct demo_hasher demo_map demo_contents);
    [exact demo_represents|vm_compute; reflexivity|vm_compute; discriminate|vm_compute; reflexivity].
Defined.

Lemma demo_first : first_in_bucket demo_hasher demo_map 1.
Proof. eexists _, _, _. by vm_compute. Qed.

Lemma demo_not_first : ~ first_in_bucket demo_hasher demo_map 17.
Proof.
  intros (b & a & e & Eb & Ef & Ee & Ek). vm_compute in Eb. injection Eb as <-.
  cbn in Ef. injection Ef as <-. vm_compute in Ee. injection Ee as <-. discriminate Ek.
Qed.

Lemma remove_first_correct_witness :
  first_in_bucket demo_hasher demo_map 1 /\
  exists m', remove demo_hasher demo_map 1 = Ret (m', MkRemove (Some 1) (Some 11)) /\
    represents demo_hasher m' (delete 1 demo_contents) /\ count m' = 1.
Proof.
  split; [exact demo_first|].
  apply (remove_first_correct demo_hasher demo_map demo_contents 1);
    [exact demo_represents|vm_compute; reflexivity|right; exact demo_first].
Defined.

Lemma remove_loses_entries_witness :
  ~ first_in_bucket demo_hasher demo_map 17 /\
  exists m' k', remove demo_hasher demo_map 17 = Ret (m', MkRemove (Some 17) (Some 20)) /\
    count m' = count demo_map - 1 /\ k' <> 17 /\ is_Some (demo_contents !! k') /\
    (lookup demo_hasher m' k' = Ret (MkLookup null null) \/ lookup demo_hasher m' k' = Fault NullDeref).
Proof.
  split; [exact demo_not_first|].
  apply (remove_loses_entries demo_hasher demo_map demo_contents 17);
    [exact demo_represents|vm_compute; reflexivity|by exists 20|exact demo_not_first].
Defined.

Lemma stats_correct_witness :
  exists s, stats demo_map = Ret s /\ st_count s = 2 /\ st_capacity s = 4 /\ st_max_capacity s = 8 /\
    st_load_factor s = (2, 4) /\ st_avg_bucket_depth s = 0 /\
    Forall (fun b => st_min_bucket_depth s <= bucket_items b <= st_max_bucket_depth s) (buckets demo_map) /\
    (exists b, b ∈ buckets demo_map /\ bucket_items b = st_min_bucket_depth s) /\
    (exists b, b ∈ buckets demo_map /\ bucket_items b = st_max_bucket_depth s).
Proof.
  apply (stats_correct demo_hasher demo_map demo_contents);
    [exact demo_represents|vm_compute; reflexivity|vm_compute; reflexivity].
Defined.
