(* ===== verification/MultiLookup.v ===== *)
(** * MultiLookup: Map::interleaved_multilookup

    [lookup_task] of applications/map/map.hpp as a coroutine body on the runtime
    of Interleave.v, with the scheduler of scheduler.hpp, the throttler of
    throttler.hpp, the awaitable of prefetch.hpp and the allocator of
    recycling_allocator.hpp. The interleaved lookup produces the results of the
    sequential one, in the order in which the tasks complete. *)

From S2P Require Import Prelude Words LinkedList Schedulers Allocators Interleave.
From S2P Require Import HashMap HashMapWf HashMapSpec HashMapProps.
Local Open Scope Z_scope.

Section Task.
Context {K V : Type} `{Countable K} (hasher : K -> Z).
Implicit Types (m : Map K V).

(** The frame of [lookup_task]: before its first resumption, or suspended at
    the [co_await] of the prefetch of an entry. *)
Inductive lookup_frame :=
| Start (k : K)
| Await (entry : ptr) (k : K).

(** One resumption. Completion calls [on_found] or [on_not_found], which build
    the result. *)
Definition lookup_task m (f : lookup_frame) : outcome (lookup_frame + LookupKVResult) :=
  match f with
  | Start k =>
    let index := bucket_index_for_key hasher m k in
    bucket ← array_get (buckets m) index;
    if decide (0 = bucket_items bucket) then Ret (inr (MkLookup null null))
    else Ret (inl (Await (first bucket) k))
  | Await entry k =>
    e ← deref (heap m) entry;
    if decide (k = key e) then Ret (inr (MkLookup entry entry))
    else match next e with
         | None => Ret (inr (MkLookup null null))
         | Some n => Ret (inl (Await (Some n) k))
         end
  end.

(** [*begin_results = r; ++begin_results] *)
Definition emit_result (r : LookupKVResult) (results : list LookupKVResult) := results ++ [r].

Lemma emits_results w rs : emits emit_result w rs = w ++ rs.
Proof.
  revert w. induction rs as [|r rs IH]; intros w; [by rewrite app_nil_r|].
  rewrite emits_cons, IH. unfold emit_result. by rewrite <- app_assoc.
Qed.

(** ** The task computes what lookup computes *)

Lemma find_entry_runs m fuel k : forall p r,
  find_entry fuel (heap m) p k = Ret r ->
  exists n, runs (lookup_task m) (Await p k) n
    (match r with inl a => MkLookup (Some a) (Some a) | inr _ => MkLookup null null end) /\
    (n <= fuel)%nat.
Proof.
  induction fuel as [|fuel IH]; intros p r E; [done|]. cbn [find_entry] in E.
  destruct p as [a|]; [|done]. apply bind_Ret_inv in E as (e & Ee & E).
  destruct (decide (k = HashMap.key e)) as [Hk|Hk].
  - injection E as <-. exists 1%nat. split; [|lia]. apply runs_done.
    cbn [lookup_task]. rewrite Ee. run_bind. by rewrite decide_True.
  - destruct (next e) as [n|] eqn:En.
    + destruct (IH _ _ E) as (j & Hr & Hj). exists (S j). split; [|lia].
      eapply runs_step; [|exact Hr]. cbn [lookup_task]. rewrite Ee. run_bind.
      by rewrite decide_False, En.
    + injection E as <-. exists 1%nat. split; [|lia]. apply runs_done.
      cbn [lookup_task]. rewrite Ee. run_bind. by rewrite decide_False, En.
Qed.

Lemma lookup_runs m k r :
  lookup hasher m k = Ret r ->
  exists n, runs (lookup_task m) (Start k) n r /\ (n <= S (S (size (heap m))))%nat.
Proof.
  unfold lookup. intros E. apply bind_Ret_inv in E as (b & Eb & E).
  destruct (decide (0 = bucket_items b)) as [Hb|Hb].
  - injection E as <-. exists 1%nat. split; [|lia]. apply runs_done.
    cbn [lookup_task]. rewrite Eb. run_bind. by rewrite decide_True.
  - apply bind_Ret_inv in E as (x & Ex & E).
    destruct (find_entry_runs _ _ _ _ _ Ex) as (n & Hn & Hle).
    exists (S n). split; [|lia]. eapply runs_step.
    + cbn [lookup_task]. rewrite Eb. run_bind. by rewrite decide_False.
    + destruct x; injection E as <-; done.
Qed.

(** ** The sequential multi-lookup *)

Lemma sequential_multilookup_Ret m keys : forall acc rs,
  Forall2 (fun k r => lookup hasher m k = Ret r) keys rs ->
  sequential_multilookup hasher m keys acc = Ret (acc ++ rs).
Proof.
  induction keys as [|k keys IH]; intros acc rs Hf.
  - apply Forall2_nil_inv_l in Hf as ->. by rewrite app_nil_r.
  - apply Forall2_cons_inv_l in Hf as (r & rs' & Hr & Hf & ->). cbn.
    rewrite Hr. run_bind. by rewrite (IH _ _ Hf), <- app_assoc.
Qed.

Lemma represents_lookups m M keys :
  represents hasher m M -> exists rs, Forall2 (fun k r => lookup hasher m k = Ret r) keys rs.
Proof.
  intros Hm. induction keys as [|k keys (rs & IH)]; [by exists []|].
  destruct (lookup_represents _ _ _ k Hm) as (r & E & _). exists (r :: rs). by constructor.
Qed.

Lemma lookups_run_all m keys rs :
  Forall2 (fun k r => lookup hasher m k = Ret r) keys rs ->
  exists ks, run_all (lookup_task m) (Start <$> keys) ks rs /\
    (sum_list ks <= length keys * S (S (size (heap m))))%nat.
Proof.
  induction 1 as [|k r keys rs Hr Hf (ks & IH & Hle)]; [exists []; split; [constructor|done]|].
  destruct (lookup_runs _ _ _ Hr) as (n & Hn & Hnle). exists (n :: ks).
  split; [by constructor|]. cbn in *. lia.
Qed.

(** ** The interleaved multi-lookup *)

Section Interleaved.
Context `{Malloc} (frame_size QueueDepth : Z).
#[local] Instance sq_ops : SchedulerOps StaticQueueScheduler.StaticQueueScheduler :=
  StaticQueueScheduler.ops QueueDepth.
#[local] Instance sq_laws : Scheduler StaticQueueScheduler.StaticQueueScheduler :=
  StaticQueueScheduler.laws QueueDepth.

Abbreviation lookup_runtime := (@runtime StaticQueueScheduler.StaticQueueScheduler
  RecyclingAllocator.RecyclingAllocator lookup_frame (list LookupKVResult)).

(** The caller's scheduler and the inline allocator with static storage are
    returned with the results. *)
Definition interleaved_multilookup (fuel : nat) m (keys : list K) (begin_results : list LookupKVResult)
    (scheduler : StaticQueueScheduler.StaticQueueScheduler) (n_streams : Z)
    (inline_recycling_allocator : RecyclingAllocator.RecyclingAllocator) : outcome lookup_runtime :=
  multi (lookup_task m) emit_result frame_size fuel n_streams (Start <$> keys)
    scheduler inline_recycling_allocator begin_results.

(** Fuel for every resumption of every task. *)
Definition multilookup_fuel m (keys : list K) : nat := S (length keys * S (S (size (heap m)))).

Lemma interleaved_multilookup_spec `{!MallocTotal} m M keys w q a (n : nat) fuel :
  represents hasher m M -> StaticQueueScheduler.repr QueueDepth q [] ->
  RecyclingAllocator.inv frame_size a ∅ ->
  (0 < n)%nat -> Z.of_nat n < QueueDepth < 2 ^ 64 -> (multilookup_fuel m keys <= fuel)%nat ->
  exists rt rs rs', interleaved_multilookup fuel m keys w q (Z.of_nat n) a = Ret rt /\
    sequential_multilookup hasher m keys w = Ret (w ++ rs) /\
    rt_world rt = w ++ rs' /\ rs' ≡ₚ rs /\
    StaticQueueScheduler.repr QueueDepth (rt_sched rt) [] /\
    RecyclingAllocator.inv frame_size (rt_alloc rt) ∅ /\ rt_frames rt = ∅.
Proof.
  intros Hm Hq Ha Hn Hdepth Hfuel. destruct (represents_lookups m M keys Hm) as (rs & Hrs).
  destruct (lookups_run_all m keys rs Hrs) as (ks & Hks & Hle). unfold interleaved_multilookup.
  destruct (multi_spec (Scheduler0 := sq_laws) (FrameAlloc0 := RecyclingAllocator.laws frame_size) (lookup_task m) emit_result
              frame_size fuel n _ ks _ q a w Hks Hq Ha) as (rt & rs' & E & Hp & Hw & Hq' & Ha' & Hfr & _).
  - lia.
  - change (n <= Z.to_nat (QueueDepth - 1))%nat. lia.
  - lia.
  - unfold multilookup_fuel in Hfuel. lia.
  - exists rt, rs, rs'. rewrite E. split; [done|].
    split; [by apply sequential_multilookup_Ret|]. by rewrite Hw, emits_results.
Qed.

(** Interleaved multi-lookup, with fewer streams than the scheduler has
    slots: it terminates, writes one result per key, and the results are a
    permutation of those of the sequential multi-lookup; each key's result is
    its binding in the map. Afterwards the scheduler is empty and every
    coroutine frame has been returned to the allocator. *)
Theorem interleaved_multilookup_correct `{!MallocTotal} m M keys w q a (n : nat) :
  represents hasher m M -> StaticQueueScheduler.repr QueueDepth q [] ->
  RecyclingAllocator.inv frame_size a ∅ ->
  (0 < n)%nat -> Z.of_nat n < QueueDepth < 2 ^ 64 ->
  exists rt rs rs',
    interleaved_multilookup (multilookup_fuel m keys) m keys w q (Z.of_nat n) a = Ret rt /\
    rt_world rt = w ++ rs' /\
    sequential_multilookup hasher m keys w = Ret (w ++ rs) /\ rs' ≡ₚ rs /\
    Forall2 (fun k r => lookup_spec m M k (Ret r)) keys rs /\
    StaticQueueScheduler.repr QueueDepth (rt_sched rt) [] /\
    RecyclingAllocator.inv frame_size (rt_alloc rt) ∅ /\ rt_frames rt = ∅.
Proof.
  intros Hm Hq Ha Hn Hdepth.
  destruct (interleaved_multilookup_spec m M keys w q a n _ Hm Hq Ha Hn Hdepth (le_n _))
    as (rt & rs & rs' & E & Es & Hw & Hp & Hq' & Ha' & Hfr).
  exists rt, rs, rs'. do 4 (split; [done|]). split; [|done].
  destruct (represents_lookups m M keys Hm) as (rs0 & Hrs0).
  rewrite (sequential_multilookup_Ret _ _ w _ Hrs0) in Es. injection Es as Es.
  apply app_inv_head in Es as <-. eapply Forall2_impl; [exact Hrs0|].
  intros k r Hkr. pose proof (lookup_represents _ _ _ k Hm) as Hs. by rewrite Hkr in Hs.
Qed.

(** Filling the ring of the scheduler: the state is that of an empty queue. *)
Lemma spawn_all_closes `{!MallocTotal} m M keys k w n_streams fuel :
  represents hasher m M -> sizeof_header <= frame_size ->
  Z.of_nat (length (keys ++ [k])) = QueueDepth -> QueueDepth <= n_streams < 2 ^ 64 ->
  exists rt, spawn_all (lookup_task m) emit_result frame_size fuel (Start <$> keys ++ [k])
      (Runtime (StaticQueueScheduler.init QueueDepth) RecyclingAllocator.init ∅ n_streams w) = Ret rt /\
    StaticQueueScheduler.head (rt_sched rt) = StaticQueueScheduler.tail (rt_sched rt) /\
    rt_world rt = w /\ size (rt_frames rt) = length (keys ++ [k]).
Proof.
  intros Hm Hfs Hlen Hns. rewrite length_app in Hlen. cbn [length] in Hlen.
  destruct (represents_lookups m M keys Hm) as (rs & Hrs).
  destruct (lookups_run_all m keys rs Hrs) as (ks & Hks & _).
  destruct (lookup_represents _ _ _ k Hm) as (r & Hr & _). apply lookup_runs in Hr as (j & Hj & _).
  rewrite fmap_app, spawn_all_app.
  destruct (spawn_all_fill (Scheduler0 := sq_laws) (FrameAlloc0 := RecyclingAllocator.laws frame_size)
              (lookup_task m) emit_result frame_size fuel _ ks rs
              (Runtime (StaticQueueScheduler.init QueueDepth) RecyclingAllocator.init ∅ n_streams w) [] Hks)
    as (rt1 & queue & E1 & I1 & Hq1 & Hl1 & Hw1).
  - split; cbn [rt_sched rt_alloc rt_frames]; [|by rewrite dom_empty_L; apply RecyclingAllocator.recycling_init_inv
      |by rewrite dom_empty_L|by constructor|by constructor].
    apply StaticQueueScheduler.static_init_repr. lia.
  - rewrite length_fmap. change (0 + length keys <= Z.to_nat (QueueDepth - 1))%nat. lia.
  - cbn. rewrite length_fmap. lia.
  - rewrite E1. run_bind. cbn [fmap list_fmap spawn_all].
    destruct (create_spec (FrameAlloc0 := RecyclingAllocator.laws frame_size) (Scheduler0 := sq_laws)
                (lookup_task m) frame_size rt1 queue (Start k) j r I1 Hj)
      as (rt2 & t & E2 & I2 & _ & _ & Hl2 & Hw2).
    rewrite E2. run_bind. rewrite length_fmap in Hq1, Hl1. cbn in Hq1, Hl1.
    unfold spawn. rewrite decide_False by lia. run_bind.
    pose proof (inv_sched _ _ _ _ _ I2) as Hrepr.
    assert (length (Interleave.addrs queue) = length keys) as Hqa by (unfold Interleave.addrs; by rewrite length_fmap).
    pose proof (ring_head_range _ _ _ _ _ Hrepr) as Hh. pose proof (proj1 (proj2 Hrepr)) as Hb.
    cbn [sq_schedule sq_ops StaticQueueScheduler.ops]. unfold StaticQueueScheduler.schedule.
    rewrite array_set_lt by (rewrite Hb; exact Hh). run_bind.
    eexists. split; [done|]. cbn [rt_sched rt_world rt_frames StaticQueueScheduler.head StaticQueueScheduler.tail].
    split; [|split].
    + eapply ring_push_full; [exact Hrepr|]. rewrite Hqa. lia.
    + by rewrite Hw2, Hw1.
    + rewrite <- size_dom, (inv_dom _ _ _ _ _ I2), size_list_to_set by apply (inv_nodup _ _ _ _ _ I2).
      unfold Interleave.addrs. rewrite length_fmap, !length_app. cbn. lia.
Qed.

(** With at least as many streams as the scheduler has slots, the queue
    overflows silently: spawning exactly [QueueDepth] lookups makes the ring
    look empty, [run] returns at once, no result is written and no frame is
    released. *)
Theorem interleaved_multilookup_overflow `{!MallocTotal} m M keys w n_streams fuel :
  represents hasher m M -> sizeof_header <= frame_size ->
  0 < QueueDepth <= n_streams -> n_streams < 2 ^ 64 -> Z.of_nat (length keys) = QueueDepth ->
  exists rt, interleaved_multilookup (S fuel) m keys w (StaticQueueScheduler.init QueueDepth) n_streams
               RecyclingAllocator.init = Ret rt /\
    rt_world rt = w /\ size (rt_frames rt) = length keys.
Proof.
  intros Hm Hfs Hd Hns Hlen. destruct keys as [|k keys _] using rev_ind; [cbn in Hlen; lia|].
  destruct (spawn_all_closes m M keys k w n_streams (S fuel) Hm Hfs Hlen) as (rt & E & Eht & Hw & Hsz); [lia|].
  unfold interleaved_multilookup, multi. rewrite E. run_bind.
  assert (forall rt' : lookup_runtime, StaticQueueScheduler.head (rt_sched rt') = StaticQueueScheduler.tail (rt_sched rt') ->
    run (lookup_task m) emit_result frame_size (S fuel) rt' =
    Ret (Runtime (rt_sched rt') (rt_alloc rt') (rt_frames rt') (rt_limit rt') (rt_world rt'))) as Hrun.
  { intros rt' Ht. cbn [run sq_try_remove_next sq_ops StaticQueueScheduler.ops].
    unfold StaticQueueScheduler.try_remove_next_task. rewrite decide_True by done. by run_bind. }
  rewrite (Hrun _ Eht). run_bind. rewrite Hrun by done. eexists. split; [done|]. done.
Qed.
End Interleaved.
End Task.
Arguments lookup_frame : clear implicits.

(** ** Witnesses *)

#[local] Existing Instance bump_malloc.

Lemma interleaved_multilookup_correct_witness :
  represents demo_hasher demo_map demo_contents /\
  exists rt rs rs',
    interleaved_multilookup demo_hasher 32 4 (multilookup_fuel demo_map [17; 5; 1]) demo_map [17; 5; 1] []
      (StaticQueueScheduler.init 4) 2 RecyclingAllocator.init = Ret rt /\
    rt_world rt = rs' /\
    sequential_multilookup demo_hasher demo_map [17; 5; 1] [] = Ret rs /\ rs' ≡ₚ rs /\
    Forall2 (fun k r => lookup_spec demo_map demo_contents k (Ret r)) [17; 5; 1] rs /\
    StaticQueueScheduler.repr 4 (rt_sched rt) [] /\
    RecyclingAllocator.inv 32 (rt_alloc rt) ∅ /\ rt_frames rt = ∅.
Proof.
  split; [exact demo_represents|].
  pose proof bump_malloc_total.
  apply (interleaved_multilookup_correct demo_hasher 32 4 demo_map demo_contents [17; 5; 1] []
           (StaticQueueScheduler.init 4) RecyclingAllocator.init 2).
  - exact demo_represents.
  - apply StaticQueueScheduler.static_init_repr. lia.
  - apply RecyclingAllocator.recycling_init_inv. vm_compute. discriminate.
  - lia.
  - lia.
Defined.

Lemma interleaved_multilookup_overflow_witness :
  represents demo_hasher demo_map demo_contents /\
  exists rt, interleaved_multilookup demo_hasher 32 2 10 demo_map [17; 1] []
               (StaticQueueScheduler.init 2) 2 RecyclingAllocator.init = Ret rt /\
    rt_world rt = [] /\ size (rt_frames rt) = 2%nat.
Proof.
  split; [exact demo_represents|].
  pose proof bump_malloc_total.
  apply (interleaved_multilookup_overflow demo_hasher 32 2 demo_map demo_contents [17; 1] [] 2 9);
    [exact demo_represents|vm_compute; discriminate|lia|lia|reflexivity].
Defined.
