(* ===== verification/LookupTask.v ===== *)
(** * LookupTask: who owns a coroutine frame in applications/map/map.hpp

    [LookupKVTask] holds a coroutine like the [root_task] of CoroInfra, and its
    promise points to the throttler in the same way, but its destructor does not
    destroy the frame: the throttler is to take it over at once. The theorems say
    that [interleaved_multilookup] does so for every task, with the results of
    MultiLookup, and that a task which is dropped instead leaks its frame. *)

From S2P Require Import Prelude Schedulers Allocators HashMap HashMapSpec HashMapProps MultiLookup.
From S2P Require Interleave CoroInfra.
Local Open Scope Z_scope.

Module LookupTask.
Import CoroInfra.CoroInfra.

Section Objects.
Context {Q A F R W : Type} `{SchedulerOps Q} `{FrameAllocOps A}.

(** The coroutine's body and callbacks; see Interleave. *)
Context (step : F -> outcome (F + R)) (emit : R -> W -> W) (frame_size : Z).

Abbreviation machine := (machine Q A F W).

(** ** LookupKVTask *)

Record LookupKVTask := Task { handle : ptr }.

(** The call of [lookup_task]: [operator new], a promise without a throttler,
    [get_return_object] and the initial suspension *)
Definition lookup_task (f : F) (m : machine) : outcome (LookupKVTask * machine) :=
  '(p, a) ← fa_alloc frame_size (allocator m);
  Ret (Task (Some p),
       Machine (scheduler m) a (<[p := (Promise null, f)]> (frames m)) (throttlers m) (world m)).

(** [LookupKVTask(LookupKVTask&&)]: the new task and what is left of the source *)
Definition move (task : LookupKVTask) : LookupKVTask * LookupKVTask := (Task (handle task), Task null).

(** [~LookupKVTask() = default] *)
Definition destructor (task : LookupKVTask) (m : machine) : machine := m.

(** The handle, and what is left of the task *)
Definition set_owner (owner : addr) (task : LookupKVTask) (m : machine) : outcome (ptr * LookupKVTask * machine) :=
  let result := handle task in
  p ← or_fault NullDeref result;
  '(_, f) ← or_fault Dangling (frames m !! p);
  let m := set_frames (<[p := (Promise (Some owner), f)]> (frames m)) m in
  Ret (result, Task null, m).

(** ** Throttler *)

(** [spawn(TaskType task)]: the parameter is destroyed when the call ends. *)
Definition spawn (fuel : nat) (this : addr) (task : LookupKVTask) (m : machine) : outcome machine :=
  limit ← or_fault Dangling (throttlers m !! this);
  m ← (if decide (0 = limit) then
         '(h, q) ← sq_remove_next (scheduler m); resume step emit frame_size fuel h (set_scheduler q m)
       else Ret m);
  '(h, task, m) ← set_owner this task m;
  q ← sq_schedule h (scheduler m);
  limit ← or_fault Dangling (throttlers m !! this);
  Ret (destructor task (set_limit this (u64 (limit - 1)) (set_scheduler q m))).

(** [Throttler(scheduler, n_streams)] at [this] *)
Definition Throttler_new (this : addr) (max_concurrent_tasks : Z) (m : machine) : machine :=
  set_limit this max_concurrent_tasks m.

(** [run()] of the scheduler *)
Definition run (fuel : nat) (m : machine) : outcome machine := CoroInfra.CoroInfra.run step emit frame_size fuel m.

(** [~Throttler()] *)
Definition Throttler_destructor (fuel : nat) (this : addr) (m : machine) : outcome machine :=
  m ← run fuel m;
  Ret (Machine (scheduler m) (allocator m) (frames m) (delete this (throttlers m)) (world m)).

(** [throttler.spawn(lookup_task( *key_iter, ...))] for every key *)
Fixpoint spawn_all (fuel : nat) (this : addr) (fs : list F) (m : machine) : outcome machine :=
  match fs with
  | [] => Ret m
  | f :: fs => '(task, m) ← lookup_task f m; m ← spawn fuel this task m; spawn_all fuel this fs m
  end.

Definition multilookup (fuel : nat) (this : addr) (n_streams : Z) (fs : list F) (m : machine) : outcome machine :=
  m ← spawn_all fuel this fs (Throttler_new this n_streams m);
  m ← run fuel m;
  Throttler_destructor fuel this m.

(** ** The tasks of a throttler *)

(** A task that is spawned has nothing left to destroy, so that it does not
    matter what its destructor does. *)
Lemma spawn_eq fuel this h (m : machine) :
  spawn fuel this (Task h) m = CoroInfra.CoroInfra.spawn step emit frame_size fuel this (RootTask h) m.
Proof.
  unfold spawn, CoroInfra.CoroInfra.spawn. destruct (throttlers m !! this) as [l|]; [|done]. cbn [or_fault]. run_bind.
  assert ((if decide (0 = l) then '(h0, q) ← sq_remove_next (scheduler m); resume step emit frame_size fuel h0 (set_scheduler q m)
           else Ret m) =
          (if decide (l = 0) then '(h0, q) ← sq_remove_next (scheduler m); resume step emit frame_size fuel h0 (set_scheduler q m)
           else Ret m)) as -> by (repeat case_decide; done).
  apply bind_ext. intros m1.
  unfold set_owner, CoroInfra.CoroInfra.set_owner. cbn [handle task_handle].
  destruct h as [p|]; [|done]. cbn [or_fault]. run_bind.
  by destruct (frames m1 !! p) as [[x f]|].
Qed.

Lemma spawn_all_eq fuel this fs : forall m : machine,
  spawn_all fuel this fs m = CoroInfra.CoroInfra.spawn_all step emit frame_size fuel this fs m.
Proof.
  induction fs as [|f fs IH]; intros m; [done|]. cbn [spawn_all CoroInfra.CoroInfra.spawn_all].
  unfold lookup_task, call. destruct (fa_alloc frame_size (allocator m)) as [[p a]| | |]; try done. run_bind.
  rewrite spawn_eq. by apply bind_ext.
Qed.

Lemma multilookup_eq fuel this n fs (m : machine) :
  multilookup fuel this n fs m = multi step emit frame_size fuel this n fs m.
Proof. unfold multilookup, multi. by rewrite spawn_all_eq. Qed.

(** A task that is dropped leaves its frame behind, allocated, with a coroutine
    that nothing refers to; the moved-from task cannot be spawned. *)
Lemma dropped_task_leaks `{!FrameAlloc A frame_size} f (m : machine) :
  fa_inv (allocator m) (dom (frames m)) ->
  exists p m1, lookup_task f m = Ret (Task (Some p), m1) /\ p ∉ dom (frames m) /\
    frames (destructor (Task (Some p)) m1) = <[p := (Promise null, f)]> (frames m) /\
    fa_inv (allocator (destructor (Task (Some p)) m1)) ({[p]} ∪ dom (frames m)) /\
    forall fuel this, throttlers m !! this <> Some 0 -> spawn fuel this (snd (move (Task (Some p)))) m1 <> Diverged /\
      forall m2, spawn fuel this (snd (move (Task (Some p)))) m1 <> Ret m2.
Proof.
  intros Ha. destruct (fa_alloc_spec (n := frame_size) _ _ Ha) as (p & a & E & Hp & Ha').
  exists p. unfold lookup_task. rewrite E. run_bind. eexists. split; [done|]. split; [done|]. split; [done|].
  split; [done|]. intros fuel this Hl. unfold spawn. cbn [throttlers move snd handle].
  destruct (throttlers m !! this) as [l|]; [|done]. cbn [or_fault]. run_bind.
  rewrite decide_False by congruence. by run_bind.
Qed.
End Objects.

(** ** interleaved_multilookup *)

Section Lookup.
Context {K V : Type} `{Countable K} (hasher : K -> Z).
Context `{Malloc} (frame_size QueueDepth : Z).

Abbreviation program := (machine StaticQueueScheduler.StaticQueueScheduler
  RecyclingAllocator.RecyclingAllocator (lookup_frame K) (list LookupKVResult)).

(** The world is what [begin_results] has been given; [this] is the throttler. *)
Definition interleaved_multilookup (fuel : nat) (this : addr) (map : Map K V) (keys : list K) (n_streams : Z)
    (m : program) : outcome program :=
  multilookup (H := StaticQueueScheduler.ops QueueDepth) (MultiLookup.lookup_task hasher map) emit_result frame_size fuel this
    n_streams (Start <$> keys) m.

(** C2. [interleaved_multilookup] with its task objects, the promises' pointers
    to the throttler and the throttler on the stack, and with fewer streams than
    the scheduler has slots. It terminates and writes one result per key; the
    results are a permutation of those of the sequential multi-lookup, which are
    the keys' bindings in the map. No coroutine completes without its throttler
    or is resumed or destroyed twice; afterwards the scheduler is empty, no frame
    is left or leaked although the tasks do not destroy theirs, and other
    throttlers have not been told. *)
Theorem multilookup_tasks_correct `{!MallocTotal} this map M keys (n : nat) (m : program) :
  represents hasher map M -> StaticQueueScheduler.repr QueueDepth (scheduler m) [] ->
  RecyclingAllocator.inv frame_size (allocator m) ∅ -> frames m = ∅ -> throttlers m !! this = None ->
  (0 < n)%nat -> Z.of_nat n < QueueDepth < 2 ^ 64 ->
  exists m' rs rs',
    interleaved_multilookup (multilookup_fuel map keys) this map keys (Z.of_nat n) m = Ret m' /\
    world m' = world m ++ rs' /\
    sequential_multilookup hasher map keys (world m) = Ret (world m ++ rs) /\ rs' ≡ₚ rs /\
    Forall2 (fun k r => lookup_spec map M k (Ret r)) keys rs /\
    StaticQueueScheduler.repr QueueDepth (scheduler m') [] /\
    RecyclingAllocator.inv frame_size (allocator m') ∅ /\ frames m' = ∅ /\ throttlers m' = throttlers m.
Proof.
  intros Hm Hq Ha Hfr Ht Hn Hd.
  destruct (interleaved_multilookup_correct hasher frame_size QueueDepth map M keys (world m) (scheduler m)
    (allocator m) n Hm Hq Ha Hn Hd) as (rt & rs & rs' & E & Hw & Hs & Hp & Hf & Hq' & Ha' & _).
  destruct (represents_lookups hasher map M keys Hm) as (rs0 & Hrs0).
  destruct (lookups_run_all hasher map keys rs0 Hrs0) as (ks & Hks & Hle).
  destruct (multi_refines (H0 := sq_laws QueueDepth) (H2 := RecyclingAllocator.laws frame_size)
    (MultiLookup.lookup_task hasher map) emit_result frame_size this (multilookup_fuel map keys) n _ ks rs0 m
    Hks Hq Ha Hfr Ht) as (rt1 & m' & E1 & Em & Esch & Eal & Ew & Ef & Eth); [done| |lia|unfold multilookup_fuel; lia|].
  { change (n <= Z.to_nat (QueueDepth - 1))%nat. lia. }
  assert (Ret rt1 = Ret rt) as [= ->] by (etransitivity; [symmetry; exact E1|exact E]).
  exists m', rs, rs'. split.
  - unfold interleaved_multilookup. unfold sq_ops in Em. rewrite multilookup_eq. exact Em.
  - by rewrite Esch, Eal, Ew.
Qed.
End Lookup.

(** ** Witnesses *)

#[local] Existing Instance bump_malloc.

Definition demo_machine : machine StaticQueueScheduler.StaticQueueScheduler
    RecyclingAllocator.RecyclingAllocator (lookup_frame Z) (list LookupKVResult) :=
  Machine (StaticQueueScheduler.init 4) RecyclingAllocator.init ∅ {[ 7%positive := 3 ]} [].

Lemma multilookup_tasks_correct_witness :
  exists m' rs rs',
    interleaved_multilookup demo_hasher 32 4 (multilookup_fuel demo_map [17; 5; 1]) 8%positive
      demo_map [17; 5; 1] 2 demo_machine = Ret m' /\
    world m' = rs' /\ sequential_multilookup demo_hasher demo_map [17; 5; 1] [] = Ret rs /\ rs' ≡ₚ rs /\
    Forall2 (fun k r => lookup_spec demo_map demo_contents k (Ret r)) [17; 5; 1] rs /\
    StaticQueueScheduler.repr 4 (scheduler m') [] /\
    RecyclingAllocator.inv 32 (allocator m') ∅ /\ frames m' = ∅ /\
    throttlers m' = {[ 7%positive := 3 ]}.
Proof.
  apply (@multilookup_tasks_correct Z Z _ _ demo_hasher bump_malloc 32 4 bump_malloc_total 8%positive demo_map
           demo_contents [17; 5; 1] 2 demo_machine).
  - exact demo_represents.
  - apply StaticQueueScheduler.static_init_repr. lia.
  - apply RecyclingAllocator.recycling_init_inv. vm_compute. discriminate.
  - done.
  - done.
  - lia.
  - lia.
Defined.
End LookupTask.
