(* ===== verification/ManualResetEvent.v ===== *)
(** * ManualResetEvent: primitives/manual-reset-event/manual_reset_event.hpp

    The event is one atomic word: the address of the event itself when it is
    set, otherwise the head of a lock-free stack of awaiters, which live in the
    frames of the coroutines that wait. Threads run [co_await event], [set()]
    and [reset()] concurrently; each atomic access is one step, so the steps of
    different threads interleave in every way. Failures of the weak
    compare-exchange may be spurious. *)

From S2P Require Import Prelude LinkedList.

Module ManualResetEvent.

(** ** State *)

(** The values of [std::atomic<void*> state]: [this], or an awaiter list. *)
Inductive word := IsSet | Waiters (head : ptr).

#[export] Instance word_eq_dec : EqDecision word.
Proof. solve_decision. Defined.

Record awaiter := Awaiter { awaiting_coro : addr; next_awaiter : ptr }.

(** Where a thread is in the operation it executes. A coroutine is identified
    with the address of its frame, and of the awaiter in it. *)
Inductive pc :=
| AwaitReady                     (* before [await_ready] *)
| SuspendLoad                    (* before the load of [await_suspend] *)
| SuspendTest (old_val : word)   (* head of the do-while loop *)
| SuspendCas (old_val : word)    (* before the compare-exchange *)
| Suspended
| Resumed                        (* past [await_resume] *)
| SetExchange                    (* before the exchange of [set] *)
| SetWalk (waiter : ptr)         (* head of its while loop *)
| SetDone
| ResetCas
| ResetDone.

#[export] Instance pc_eq_dec : EqDecision pc.
Proof. solve_decision. Defined.

Record sys := Sys {
  state : word;
  heap : gmap addr awaiter;
  threads : gmap addr pc;
}.

(** The constructor. *)
Definition manual_reset_event (init : bool) : sys :=
  Sys (if init then IsSet else Waiters null) ∅ ∅.

Definition is_set (s : sys) : bool := bool_decide (state s = IsSet).

Definition goto (t : addr) (p : pc) (s : sys) : sys := Sys (state s) (heap s) (<[t := p]> (threads s)).

(** ** The operations, one atomic step at a time *)

(** [operator co_await]: a new awaiter in the frame of coroutine [t]. *)
Definition co_await (t : addr) (s : sys) : sys :=
  Sys (state s) (<[t := Awaiter t null]> (heap s)) (<[t := AwaitReady]> (threads s)).

(** The awaiter is destroyed when the coroutine goes on. *)
Definition await_resume (t : addr) (s : sys) : sys :=
  Sys (state s) (delete t (heap s)) (<[t := Resumed]> (threads s)).

Definition await_ready (t : addr) (s : sys) : sys :=
  if is_set s then await_resume t s else goto t SuspendLoad s.

Definition suspend_load (t : addr) (s : sys) : sys := goto t (SuspendTest (state s)) s.

Definition suspend_test (t : addr) (old_val : word) (s : sys) : outcome sys :=
  match old_val with
  | IsSet => Ret (await_resume t s)
  | Waiters p =>
    a ← deref (heap s) (Some t);
    Ret (Sys (state s) (<[t := Awaiter (awaiting_coro a) p]> (heap s))
           (<[t := SuspendCas old_val]> (threads s)))
  end.

(** [compare_exchange_weak(old_val, this)] *)
Definition suspend_cas (t : addr) (old_val : word) (spurious : bool) (s : sys) : sys :=
  if decide (state s = old_val /\ spurious = false)
  then Sys (Waiters (Some t)) (heap s) (<[t := Suspended]> (threads s))
  else goto t (SuspendTest (state s)) s.

Definition set_exchange (t : addr) (s : sys) : sys :=
  match state s with
  | IsSet => goto t SetDone s
  | Waiters p => Sys IsSet (heap s) (<[t := SetWalk p]> (threads s))
  end.

(** [awaiting_coro.resume()] *)
Definition resume (c : addr) (s : sys) : outcome sys :=
  if decide (threads s !! c = Some Suspended) then Ret (await_resume c s) else Fault BadResume.

Definition set_walk (t : addr) (waiter : ptr) (s : sys) : outcome sys :=
  match waiter with
  | None => Ret (goto t SetDone s)
  | Some _ =>
    a ← deref (heap s) waiter;
    s ← resume (awaiting_coro a) s;
    Ret (goto t (SetWalk (next_awaiter a)) s)
  end.

Definition reset_cas (t : addr) (s : sys) : sys :=
  match state s with
  | IsSet => Sys (Waiters null) (heap s) (<[t := ResetDone]> (threads s))
  | Waiters _ => goto t ResetDone s
  end.

(** One step of thread [t]; [None] if it has none to make. *)
Definition step (t : addr) (spurious : bool) (s : sys) : option (outcome sys) :=
  match threads s !! t with
  | Some AwaitReady => Some (Ret (await_ready t s))
  | Some SuspendLoad => Some (Ret (suspend_load t s))
  | Some (SuspendTest old) => Some (suspend_test t old s)
  | Some (SuspendCas old) => Some (Ret (suspend_cas t old spurious s))
  | Some SetExchange => Some (Ret (set_exchange t s))
  | Some (SetWalk w) => Some (set_walk t w s)
  | Some ResetCas => Some (Ret (reset_cas t s))
  | Some (Suspended | Resumed | SetDone | ResetDone) | None => None
  end.

(** New threads start at any time. *)
Inductive event_step : sys -> sys -> Prop :=
| Run s s' t spurious : step t spurious s = Some (Ret s') -> event_step s s'
| StartAwait s t : threads s !! t = None -> event_step s (co_await t s)
| StartSet s t : threads s !! t = None -> event_step s (goto t SetExchange s)
| StartReset s t : threads s !! t = None -> event_step s (goto t ResetCas s).

Definition reachable (s : sys) : Prop := exists init, rtc event_step (manual_reset_event init) s.

(** A thread running alone. *)
Fixpoint run_thread (fuel : nat) (t : addr) (s : sys) : outcome sys :=
  match fuel with
  | O => Diverged
  | S fuel =>
    match step t false s with
    | None => Ret s
    | Some r => s ← r; run_thread fuel t s
    end
  end.

(** ** The invariant *)

Definition list_of (w : word) : ptr := match w with IsSet => null | Waiters p => p end.

(** Coroutines whose awaiter exists. *)
Definition awaiting (p : pc) : Prop :=
  match p with AwaitReady | SuspendLoad | SuspendTest _ | SuspendCas _ | Suspended => True | _ => False end.

(** The stack holds [l] and the list that setter [t] walks is [g t]; together
    they hold every suspended coroutine, each once. *)
Record inv_at (s : sys) (l : list addr) (g : addr -> list addr) : Prop := {
  inv_stack : chain next_awaiter (heap s) (list_of (state s)) l;
  inv_walk t p : threads s !! t = Some (SetWalk p) -> chain next_awaiter (heap s) p (g t);
  inv_awaiter t p : threads s !! t = Some p -> awaiting p ->
    exists n, heap s !! t = Some (Awaiter t n);
  inv_cas t old : threads s !! t = Some (SuspendCas old) ->
    exists p, old = Waiters p /\ heap s !! t = Some (Awaiter t p);
  inv_suspended t : threads s !! t = Some Suspended <->
    (t ∈ l \/ exists u p, threads s !! u = Some (SetWalk p) /\ t ∈ g u);
  inv_disjoint_stack t u p : t ∈ l -> threads s !! u = Some (SetWalk p) -> t ∉ g u;
  inv_disjoint_walk t u u' p p' :
    threads s !! u = Some (SetWalk p) -> threads s !! u' = Some (SetWalk p') ->
    t ∈ g u -> t ∈ g u' -> u = u';
}.

Definition inv (s : sys) : Prop := exists l g, inv_at s l g.

Lemma event_inv_init b : inv (manual_reset_event b).
Proof.
  exists [], (fun _ => []). split; cbn; try (intros; by rewrite ?lookup_empty in *).
  - by destruct b.
  - intros t. rewrite lookup_empty. split; [done|].
    intros [?%elem_of_nil|(u & p & E & _)]; [done|]. by rewrite lookup_empty in E.
Qed.

(** A thread that is neither suspended nor walking moves to another such place. *)
Definition quiet (p : pc) : Prop := match p with Suspended | SetWalk _ => False | _ => True end.

Lemma inv_at_goto s l g t p h :
  inv_at s l g -> (forall q, threads s !! t = Some q -> quiet q) -> quiet p ->
  (forall a, a <> t -> h !! a = heap s !! a) ->
  (awaiting p -> exists n, h !! t = Some (Awaiter t n)) ->
  (forall old, p = SuspendCas old -> exists q, old = Waiters q /\ h !! t = Some (Awaiter t q)) ->
  inv_at (Sys (state s) h (<[t := p]> (threads s))) l g.
Proof.
  intros [I1 I2 I3 I4 I5 I6 I7] Hq Hp Hh Ha Hc.
  assert (forall u q, <[t := p]> (threads s) !! u = Some (SetWalk q) -> threads s !! u = Some (SetWalk q)) as Hw.
  { intros u q [[_ ->]|[_ E]]%lookup_insert_Some; [destruct Hp|done]. }
  assert (forall u q, threads s !! u = Some (SetWalk q) -> <[t := p]> (threads s) !! u = Some (SetWalk q)) as Hw'.
  { intros u q E. rewrite lookup_insert_ne; [done|]. intros ->. destruct (Hq _ E). }
  assert (forall c, threads s !! c = Some Suspended -> c <> t) as Hs.
  { intros c E ->. destruct (Hq _ E). }
  assert (forall q l', chain next_awaiter (heap s) q l' -> (forall a, a ∈ l' -> threads s !! a = Some Suspended) ->
            chain next_awaiter h q l') as Hch.
  { intros q l' C Hsus. eapply lseg_frame; [|exact C]. intros a Hin. symmetry. apply Hh.
    by apply Hs, Hsus. }
  split; cbn [state heap threads].
  - apply Hch; [done|]. intros a Hin. apply I5. by left.
  - intros u q E. apply Hch; [by apply (I2 u q), Hw|]. intros a Hin. apply I5. right. eauto.
  - intros u q [[<- <-]|[Hne E]]%lookup_insert_Some Haw; [by apply Ha|].
    rewrite Hh by done. by eapply I3.
  - intros u q [[<- E]|[Hne E]]%lookup_insert_Some; [by apply Hc|].
    rewrite Hh by done. by apply I4.
  - intros c. rewrite lookup_insert_Some, I5. split.
    + intros [[<- ->]|[Hne [H|(u & q & E & H)]]]; [done|by left|]. right. eauto 6.
    + intros [H|(u & q & E & H)]; right.
      * split; [|by left]. intros ->. assert (threads s !! c = Some Suspended) as E by (apply I5; by left).
        by apply Hs in E.
      * apply Hw in E. split; [|right; eauto]. intros ->.
        assert (threads s !! c = Some Suspended) as E' by (apply I5; right; eauto). by apply Hs in E'.
  - intros c u q Hin E. eapply I6; [done|]. by apply Hw.
  - intros c u u' q q' E E'. eapply I7; by apply Hw.
Qed.

Lemma inv_start s t p h :
  inv s -> threads s !! t = None -> quiet p ->
  (forall a, a <> t -> h !! a = heap s !! a) -> (awaiting p -> exists n, h !! t = Some (Awaiter t n)) ->
  (forall old, p <> SuspendCas old) -> inv (Sys (state s) h (<[t := p]> (threads s))).
Proof.
  intros (l & g & I) E Hp Hh Ha Hc. exists l, g. apply inv_at_goto; try done.
  - intros q Eq. by rewrite E in Eq.
  - intros old ->. by destruct (Hc old).
Qed.

(** Linking the awaiter of [t] in front of the stack. *)
Lemma event_inv_push s t p :
  inv s -> threads s !! t = Some (SuspendCas (Waiters p)) -> state s = Waiters p ->
  inv (Sys (Waiters (Some t)) (heap s) (<[t := Suspended]> (threads s))).
Proof.
  intros (l & g & [I1 I2 I3 I4 I5 I6 I7]) Et Es.
  assert (t ∉ l /\ forall u q, threads s !! u = Some (SetWalk q) -> t ∉ g u) as [Htl Htg].
  { split; [intros Hin|intros u q E Hin]; assert (threads s !! t = Some Suspended) by (apply I5; eauto); by simplify_eq. }
  assert (forall u q, <[t := Suspended]> (threads s) !! u = Some (SetWalk q) <-> threads s !! u = Some (SetWalk q)) as Hw.
  { intros u q. rewrite lookup_insert_Some. split; [intros [[_ ?]|[_ ?]]; done|].
    intros E. right. split; [|done]. intros ->. by rewrite Et in E. }
  destruct (I4 t _ Et) as (q & [= <-] & Eh). rewrite Es in I1.
  exists (t :: l), g. split; cbn [state heap threads].
  - split; [done|]. eexists. split; [exact Eh|]. exact I1.
  - intros u q E%Hw. eauto.
  - intros u q [[<- <-]|[Hne E]]%lookup_insert_Some Haw; eauto.
  - intros u q [[<- E]|[Hne E]]%lookup_insert_Some; [done|eauto].
  - intros c. rewrite lookup_insert_Some, I5, elem_of_cons. split.
    + intros [[<- _]|[Hne [H|(u & q & E & H)]]]; [by left; left|by left; right|].
      right. exists u, q. by rewrite Hw.
    + intros [[->|H]|(u & q & E%Hw & H)]; [by left| |].
      * right. split; [by intros ->|by left].
      * right. split; [intros ->; by eapply Htg|right; eauto].
  - intros c u q [->|Hin]%elem_of_cons E%Hw; eauto.
  - intros c u u' q q' E%Hw E'%Hw. eauto.
Qed.

(** Taking the whole stack. *)
Lemma inv_take s t p :
  inv s -> threads s !! t = Some SetExchange -> state s = Waiters p ->
  inv (Sys IsSet (heap s) (<[t := SetWalk p]> (threads s))).
Proof.
  intros (l & g & [I1 I2 I3 I4 I5 I6 I7]) Et Es. rewrite Es in I1. cbn in I1.
  assert (forall u q, <[t := SetWalk p]> (threads s) !! u = Some (SetWalk q) ->
            u = t /\ q = p \/ u <> t /\ threads s !! u = Some (SetWalk q)) as Hw.
  { intros u q [[<- E]|[Hne E]]%lookup_insert_Some; [left|by right]. by injection E as <-. }
  exists [], (fun u => if decide (u = t) then l else g u). split; cbn [state heap threads].
  - done.
  - intros u q [[-> ->]|[Hne E]]%Hw; case_decide; eauto; done.
  - intros u q [[<- <-]|[Hne E]]%lookup_insert_Some Haw; [destruct Haw|eauto].
  - intros u q [[<- E]|[Hne E]]%lookup_insert_Some; [done|eauto].
  - intros c. rewrite lookup_insert_Some, I5. split.
    + intros [[<- ?]|[Hne [H|(u & q & E & H)]]]; [done| |]; right.
      * exists t, p. rewrite lookup_insert_eq. by case_decide.
      * assert (u <> t) by (intros ->; by rewrite Et in E).
        exists u, q. rewrite lookup_insert_ne by done. split; [done|]. by case_decide.
    + intros [?%elem_of_nil|(u & q & Hu%Hw & H)]; [done|]. right.
      assert (threads s !! c = Some Suspended -> t <> c) as Hc by (intros ? ->; by simplify_eq).
      destruct Hu as [[-> ->]|[Hne E]].
      * rewrite decide_True in H by done. split; [apply Hc, I5|]; by left.
      * rewrite decide_False in H by done. split; [apply Hc, I5|]; right; eauto.
  - by intros c u q ?%elem_of_nil.
  - intros c u u' q q' [[-> ->]|[Hne E]]%Hw [[-> ->]|[Hne' E']]%Hw; repeat case_decide; try done.
    + intros H1 H2. by destruct (I6 _ _ _ H1 E').
    + intros H1 H2. by destruct (I6 _ _ _ H2 E).
    + eauto.
Qed.

(** The first awaiter of the list that [t] walks. *)
Lemma walk_first s l g t a : inv_at s l g -> threads s !! t = Some (SetWalk (Some a)) ->
  exists l' n, g t = a :: l' /\ heap s !! a = Some (Awaiter a n) /\ threads s !! a = Some Suspended /\
    a <> t /\ a ∉ l' /\ chain next_awaiter (heap s) n l'.
Proof.
  intros [I1 I2 I3 I4 I5 I6 I7] Et.
  destruct (chain_Some_inv _ _ _ _ (I2 _ _ Et)) as (l' & aw & Eg & Ea & C).
  assert (threads s !! a = Some Suspended) as Es.
  { apply I5. right. exists t, (Some a). split; [done|]. rewrite Eg. by left. }
  destruct (I3 a Suspended Es I) as (n & E). simplify_eq. exists l', n.
  pose proof (I2 _ _ Et) as Cg. rewrite Eg in Cg. apply chain_NoDup in Cg as [Hal' _]%NoDup_cons.
  repeat (split; [done|]). split; [|done]. intros ->. by simplify_eq.
Qed.

(** The threads that walk a list once [t] has resumed [a] *)
Lemma walking_after (ts : gmap addr pc) t a n u q :
  <[t := SetWalk n]> (<[a := Resumed]> ts) !! u = Some (SetWalk q) ->
  u = t /\ q = n \/ u <> t /\ ts !! u = Some (SetWalk q).
Proof.
  intros [[<- E']|[Hne [[_ ?]|[_ E']]%lookup_insert_Some]]%lookup_insert_Some; [left|done|by right].
  by injection E' as <-.
Qed.

(** Resuming the first coroutine of the list that [t] walks. *)
Lemma event_inv_walk_step s t a :
  inv s -> threads s !! t = Some (SetWalk (Some a)) ->
  exists n, heap s !! a = Some (Awaiter a n) /\ threads s !! a = Some Suspended /\ a <> t /\
    inv (goto t (SetWalk n) (await_resume a s)).
Proof.
  intros (l & g & Hat0) Et.
  destruct (walk_first _ _ _ _ _ Hat0 Et) as (l' & n & Eg & E & Es & Hat & Hal' & C).
  destruct Hat0 as [I1 I2 I3 I4 I5 I6 I7]. assert (a ∈ g t) as Hag by (rewrite Eg; by left).
  pose proof (walking_after (threads s) t a n) as Hw.
  assert (forall u q, u <> t -> threads s !! u = Some (SetWalk q) -> a ∉ g u) as Hau.
  { intros u q Hne E' Hin. by apply Hne, (I7 a u t q (Some a)). }
  exists n. do 3 (split; [done|]). exists l, (fun u => if decide (u = t) then l' else g u). split; cbn [state heap threads goto await_resume].
  - apply lseg_delete_notin; [|done]. intros Hin. by eapply I6.
  - intros u q [[-> ->]|[Hne E']]%Hw; case_decide; try done; apply lseg_delete_notin.
    + done.
    + exact C.
    + by eapply Hau.
    + by apply I2.
  - intros u q [[<- <-]|[Hne [[<- <-]|[Hne' E']]%lookup_insert_Some]]%lookup_insert_Some Haw; try by destruct Haw.
    rewrite lookup_delete_ne by done. eauto.
  - intros u q [[<- E']|[Hne [[<- E']|[Hne' E']]%lookup_insert_Some]]%lookup_insert_Some; try done.
    rewrite lookup_delete_ne by done. eauto.
  - intros c. rewrite !lookup_insert_Some, I5. split.
    + intros [[<- ?]|[Hne [[<- ?]|[Hne' [H|(u & q & E' & H)]]]]]; [done|done|by left|]. right.
      destruct (decide (u = t)) as [->|Hut].
      * exists t, n. rewrite lookup_insert_eq, decide_True by done. split; [done|].
        rewrite Eg in H. apply elem_of_cons in H as [->|H]; done.
      * exists u, q. rewrite lookup_insert_ne, decide_False by done. split; [|done].
        rewrite lookup_insert_ne; [done|]. intros <-. by simplify_eq.
    + intros H. right.
      assert (threads s !! c = Some Suspended /\ c <> a) as [Hc Hca].
      { destruct H as [H|(u & q & [[-> ->]|[Hne E']]%Hw & H)].
        - split; [apply I5; by left|]. intros ->. by eapply I6.
        - rewrite decide_True in H by done. split; [|by intros ->].
          apply I5. right. exists t, (Some a). split; [done|]. rewrite Eg. by right.
        - rewrite decide_False in H by done. split; [apply I5; right; eauto|].
          intros ->. by eapply Hau. }
      split; [intros <-; by simplify_eq|]. right. split; [done|]. by apply I5.
  - intros c u q Hin [[-> ->]|[Hne E']]%Hw; case_decide; try done; [|by eauto].
    intros Hg. apply (I6 c t (Some a)); [done|done|]. rewrite Eg. by right.
  - assert (forall c, c ∈ l' -> c ∈ g t) as Hsub by (intros c Hc; rewrite Eg; by right).
    intros c u u' q q' [[-> ->]|[Hne E1]]%Hw [[-> ->]|[Hne' E2]]%Hw; repeat case_decide; try done; intros H1 H2.
    + apply Hsub in H1. by apply (I7 c t u' (Some a) q').
    + apply Hsub in H2. by apply (I7 c u t q (Some a)).
    + by apply (I7 c u u' q q').
Qed.

Lemma event_inv_walk_end s t : inv s -> threads s !! t = Some (SetWalk null) -> inv (goto t SetDone s).
Proof.
  intros (l & g & [I1 I2 I3 I4 I5 I6 I7]) Et. pose proof (chain_null _ _ _ (I2 _ _ Et)) as Eg.
  assert (forall u q, <[t := SetDone]> (threads s) !! u = Some (SetWalk q) ->
            u <> t /\ threads s !! u = Some (SetWalk q)) as Hw.
  { intros u q [[_ ?]|[Hne E]]%lookup_insert_Some; done. }
  exists l, g. split; cbn [state heap threads goto].
  - done.
  - intros u q [_ E]%Hw. eauto.
  - intros u q [[<- <-]|[Hne E]]%lookup_insert_Some Haw; [destruct Haw|eauto].
  - intros u q [[<- E]|[Hne E]]%lookup_insert_Some; [done|eauto].
  - intros c. rewrite lookup_insert_Some, I5. split.
    + intros [[<- ?]|[Hne [H|(u & q & E & H)]]]; [done|by left|]. right. exists u, q.
      rewrite lookup_insert_ne; [done|]. intros <-. rewrite Eg in H. by apply elem_of_nil in H.
    + intros H. right. assert (threads s !! c = Some Suspended) as Hc.
      { apply I5. destruct H as [H|(u & q & [_ E]%Hw & H)]; [by left|right; eauto]. }
      split; [intros ->; by simplify_eq|]. by apply I5.
  - intros c u q Hin [_ E]%Hw. eauto.
  - intros c u u' q q' [_ E]%Hw [_ E']%Hw. eauto.
Qed.

(** A step of a thread that is not waiting in a list. *)
Lemma inv_goto s t q p :
  inv s -> threads s !! t = Some q -> quiet q -> quiet p ->
  (awaiting p -> awaiting q) -> (forall old, p <> SuspendCas old) -> inv (goto t p s).
Proof.
  intros (l & g & I) Et Hq Hp Haw Hc. exists l, g. apply inv_at_goto; try done.
  - intros q' Eq. by simplify_eq.
  - intros Ha. eapply inv_awaiter; [done|exact Et|by apply Haw].
  - intros old ->. by destruct (Hc old).
Qed.

Lemma inv_await_resume s t q :
  inv s -> threads s !! t = Some q -> quiet q -> inv (await_resume t s).
Proof.
  intros (l & g & I) Et Hq. exists l, g. apply inv_at_goto; try done.
  - intros q' Eq. by simplify_eq.
  - intros a Ha. by apply lookup_delete_ne.
Qed.

(** Every step is defined and preserves the invariant. *)
Lemma event_step_inv s t spurious r :
  inv s -> step t spurious s = Some r -> exists s', r = Ret s' /\ inv s'.
Proof.
  intros Hinv E. unfold step in E. destruct (threads s !! t) as [p|] eqn:Et; [|done].
  destruct p as [| |old|old| | | |w| | |]; try discriminate E; injection E as <-.
  - eexists. split; [done|]. unfold await_ready. case_match.
    + by eapply inv_await_resume.
    + by eapply inv_goto.
  - eexists. split; [done|]. unfold suspend_load. by eapply inv_goto.
  - destruct Hinv as (l & g & Hi). destruct (inv_awaiter _ _ _ Hi _ _ Et I) as (n & En).
    destruct old as [|p]; cbn [suspend_test].
    + eexists. split; [done|]. eapply inv_await_resume; [by exists l, g|exact Et|done].
    + rewrite (deref_Some _ _ _ En). run_bind. eexists. split; [done|]. exists l, g.
      apply inv_at_goto; try done.
      * intros q' Eq. by simplify_eq.
      * intros a Ha. by apply lookup_insert_ne.
      * intros _. eexists. apply lookup_insert_eq.
      * intros old [= <-]. eexists. split; [done|]. apply lookup_insert_eq.
  - eexists. split; [done|]. unfold suspend_cas. case_decide as Hd.
    + destruct Hd as [Hst _]. destruct Hinv as (l & g & Hi).
      destruct (inv_cas _ _ _ Hi _ _ Et) as (p & -> & _). eapply event_inv_push; [by exists l, g|exact Et|exact Hst].
    + by eapply inv_goto.
  - eexists. split; [done|]. unfold set_exchange. destruct (state s) as [|p] eqn:Es.
    + by eapply inv_goto.
    + by apply inv_take.
  - destruct w as [a|]; cbn [set_walk].
    + destruct (event_inv_walk_step _ _ _ Hinv Et) as (n & Ea & Es & Hne & Hinv').
      rewrite (deref_Some _ _ _ Ea). run_bind. cbn [awaiting_coro next_awaiter]. unfold resume.
      rewrite decide_True by done. run_bind. eauto.
    + eexists. split; [done|]. by apply event_inv_walk_end.
  - eexists. split; [done|]. unfold reset_cas. destruct (state s) as [|p] eqn:Es; [|by eapply inv_goto].
    destruct (inv_goto s t ResetCas ResetDone Hinv Et) as (l & g & [I1 I2 I3 I4 I5 I6 I7]); try done.
    exists l, g. split; try done. cbn in *. by rewrite Es in I1.
Qed.

Lemma event_steps_inv s s' : inv s -> event_step s s' -> inv s'.
Proof.
  intros Hinv Hs. destruct Hs as [s s' t spurious E|s t E|s t E|s t E].
  - destruct (event_step_inv _ _ _ _ Hinv E) as (s'' & [= <-] & H). done.
  - apply inv_start; try done.
    + intros a Ha. by apply lookup_insert_ne.
    + intros _. eexists. apply lookup_insert_eq.
  - by apply inv_start.
  - by apply inv_start.
Qed.

Lemma event_reachable_inv s : reachable s -> inv s.
Proof.
  intros (b & Hr). pose proof (event_inv_init b) as Hi. revert Hi.
  induction Hr as [|s1 s2 s3 Hs _ IH]; [done|]. intros Hi. by apply IH, (event_steps_inv s1).
Qed.

Definition walking (s : sys) (t : addr) : Prop := exists p, threads s !! t = Some (SetWalk p).

Lemma inv_set_no_suspended s c :
  inv s -> state s = IsSet -> (forall t, ~ walking s t) -> threads s !! c <> Some Suspended.
Proof.
  intros (l & g & I) Es Hw Hc. apply (inv_suspended _ _ _ I) in Hc as [Hc|(u & p & E & _)].
  - pose proof (inv_stack _ _ _ I) as C. rewrite Es in C. apply chain_null in C as ->.
    by apply elem_of_nil in Hc.
  - by apply (Hw u); exists p.
Qed.

(** ** Termination of set *)

Lemma walk_run t : forall k s p,
  inv s -> threads s !! t = Some (SetWalk p) -> (size (heap s) <= k)%nat ->
  exists s', run_thread (S (S k)) t s = Ret s' /\ inv s' /\ threads s' !! t = Some SetDone /\
    state s' = state s /\
    forall c, c <> t -> threads s' !! c = threads s !! c \/
      threads s !! c = Some Suspended /\ threads s' !! c = Some Resumed.
Proof.
  induction k as [|k IH]; intros s p Hinv Et Hk; (destruct p as [a|];
    [|exists (goto t SetDone s); cbn [run_thread]; unfold step at 1; rewrite Et; cbn [set_walk]; run_bind;
      unfold step, goto; cbn [threads]; rewrite lookup_insert_eq;
      split; [done|]; split; [by apply event_inv_walk_end|]; split; [done|]; split; [done|];
      intros c Hc; left; by apply lookup_insert_ne]).
  - destruct (event_inv_walk_step _ _ _ Hinv Et) as (n & Ea & _).
    assert (heap s = ∅) as Hh by (apply map_size_empty_inv; lia). by rewrite Hh in Ea.
  - destruct (event_inv_walk_step _ _ _ Hinv Et) as (n & Ea & Es & Hne & Hinv').
    destruct (IH (goto t (SetWalk n) (await_resume a s)) n Hinv') as (s' & Er & Hi & Ed & Est & Hoth).
    + cbn. apply lookup_insert_eq.
    + cbn. rewrite map_size_delete, Ea. lia.
    + exists s'. split.
      * change (run_thread (S (S (S k))) t s) with
          (match step t false s with None => Ret s | Some r => s ← r; run_thread (S (S k)) t s end).
        unfold step at 1. rewrite Et. cbn [set_walk]. rewrite (deref_Some _ _ _ Ea). run_bind.
        cbn [awaiting_coro next_awaiter]. unfold resume. rewrite decide_True by done. run_bind. exact Er.
      * split; [done|]. split; [done|]. split; [done|]. intros c Hc.
        destruct (Hoth c Hc) as [E|[E1 E2]]; cbn in *.
        -- rewrite lookup_insert_ne in E by done. destruct (decide (c = a)) as [->|Hca].
           ++ right. by rewrite E, lookup_insert_eq.
           ++ left. by rewrite lookup_insert_ne in E.
        -- rewrite lookup_insert_ne in E1 by done. right. split; [|done].
           apply lookup_insert_Some in E1 as [[_ ?]|[_ ?]]; done.
Qed.

(** ** Theorems *)

(** Whatever the interleaving of awaiting, setting and resetting threads,
    no step of the event is undefined: [set] never dereferences an awaiter
    that is gone and never resumes a coroutine that is not suspended. *)
Theorem event_no_undefined_behaviour s t spurious r :
  reachable s -> step t spurious s = Some r -> exists s', r = Ret s'.
Proof.
  intros Hr E. destruct (event_step_inv s t spurious r (event_reachable_inv s Hr) E) as (s' & -> & _). eauto.
Qed.

(** C10. No lost wakeup: when the event is set and no [set] is still walking its
    list, no coroutine is suspended on the event. *)
Theorem event_no_lost_wakeup s c :
  reachable s -> state s = IsSet -> (forall t, ~ walking s t) -> threads s !! c <> Some Suspended.
Proof. intros Hr. apply inv_set_no_suspended, event_reachable_inv, Hr. Qed.

(** C11. A call of [set] terminates, leaves the event set, and every coroutine
    that was suspended has been resumed (while no other [set] is under way,
    which would share the work). *)
Theorem set_resumes_all s t :
  reachable s -> threads s !! t = Some SetExchange -> (forall u, ~ walking s u) ->
  exists s', run_thread (S (S (S (size (heap s))))) t s = Ret s' /\
    threads s' !! t = Some SetDone /\ state s' = IsSet /\
    forall c, threads s !! c = Some Suspended -> threads s' !! c = Some Resumed.
Proof.
  intros Hr Et Hw. pose proof (event_reachable_inv s Hr) as Hinv.
  change (run_thread (S (S (S (size (heap s))))) t s) with
    (match step t false s with None => Ret s | Some r => s' ← r; run_thread (S (S (size (heap s)))) t s' end).
  unfold step. rewrite Et. run_bind. unfold set_exchange. destruct (state s) as [|p] eqn:Es.
  - exists (goto t SetDone s). cbn [run_thread]. unfold step, goto. cbn [threads state].
    rewrite lookup_insert_eq. split; [done|]. split; [done|]. split; [done|].
    intros c Hc. by destruct (inv_set_no_suspended s c Hinv Es Hw).
  - assert (threads (Sys IsSet (heap s) (<[t := SetWalk p]> (threads s))) !! t = Some (SetWalk p)) as Et'
      by apply lookup_insert_eq.
    destruct (walk_run t (size (heap s)) _ p (inv_take _ _ _ Hinv Et Es) Et' (le_n _))
      as (s' & E & Hi & Ed & Est & Hoth).
    exists s'. split; [done|]. split; [done|]. split; [done|]. intros c Hc.
    assert (c <> t) as Hct by (intros ->; by simplify_eq).
    cbn [threads] in Hoth. destruct (Hoth c Hct) as [E'|[_ E']]; [|done].
    rewrite lookup_insert_ne, Hc in E' by done.
    exfalso. eapply (inv_set_no_suspended s' c); [done|done| |done].
    intros u (q & Hq). destruct (decide (u = t)) as [->|Hu]; [by simplify_eq|].
    destruct (Hoth u Hu) as [Eu|[_ Eu]]; [|by simplify_eq].
    rewrite lookup_insert_ne, Hq in Eu by done. by apply (Hw u); exists q.
Qed.

(** ** Concrete runs *)

Inductive event := EAwait (t : addr) | ESet (t : addr) | EReset (t : addr) | ERun (t : addr).

Definition fresh_thread (t : addr) (s : sys) (s' : sys) : outcome sys :=
  if decide (threads s !! t = None) then Ret s' else Fault AssertionFailed.

Fixpoint exec (es : list event) (s : sys) : outcome sys :=
  match es with
  | [] => Ret s
  | EAwait t :: es => s ← fresh_thread t s (co_await t s); exec es s
  | ESet t :: es => s ← fresh_thread t s (goto t SetExchange s); exec es s
  | EReset t :: es => s ← fresh_thread t s (goto t ResetCas s); exec es s
  | ERun t :: es => s ← (match step t false s with Some r => r | None => Ret s end); exec es s
  end.

Lemma event_fresh_thread_inv t s s1 s2 : fresh_thread t s s1 = Ret s2 -> threads s !! t = None /\ s2 = s1.
Proof. unfold fresh_thread. case_decide; [|done]. by intros [= <-]. Qed.

Lemma event_exec_steps es : forall s s', exec es s = Ret s' -> rtc event_step s s'.
Proof.
  induction es as [|e es IH]; intros s s' E; [injection E as <-; apply rtc_refl|].
  destruct e; cbn [exec] in E; apply bind_Ret_inv in E as (s1 & E1 & E);
    try (apply event_fresh_thread_inv in E1 as [E1 ->]; eapply rtc_l; [by constructor|by apply IH]).
  destruct (step t false s) as [r|] eqn:Er; [|injection E1 as <-; by apply IH].
  subst r. eapply rtc_l; [by eapply Run|by apply IH].
Qed.

Lemma exec_reachable es b s : exec es (manual_reset_event b) = Ret s -> reachable s.
Proof. intros E. exists b. by apply (event_exec_steps es). Qed.

(** Two coroutines suspend (each: ready, load, test, exchange), then a third
    thread is about to set the event. *)
Definition demo_events : list event :=
  [EAwait 1; ERun 1; ERun 1; ERun 1; ERun 1; EAwait 2; ERun 2; ERun 2; ERun 2; ERun 2; ESet 3]%positive.

Definition demo : sys :=
  match exec demo_events (manual_reset_event false) with Ret s => s | _ => manual_reset_event false end.

Lemma demo_reachable : reachable demo.
Proof. apply (exec_reachable demo_events false). vm_compute. reflexivity. Qed.

Definition demo_set : sys :=
  match exec (demo_events ++ [ERun 3; ERun 3; ERun 3; ERun 3]%positive) (manual_reset_event false) with
  | Ret s => s | _ => manual_reset_event false end.

Lemma demo_set_reachable : reachable demo_set.
Proof.
  apply (exec_reachable (demo_events ++ [ERun 3; ERun 3; ERun 3; ERun 3]%positive) false). vm_compute. reflexivity.
Qed.

Lemma event_no_undefined_behaviour_witness :
  threads demo !! 1%positive = Some Suspended /\
  exists s', step 3 false demo = Some (Ret s').
Proof.
  split; [reflexivity|].
  destruct (step 3 false demo) as [r|] eqn:E; [|vm_compute in E; discriminate E].
  destruct (event_no_undefined_behaviour demo 3 false r demo_reachable E) as (s' & ->). eauto.
Defined.

Definition walkingb (s : sys) : bool :=
  existsb (fun p => match p.2 with SetWalk _ => true | _ => false end) (map_to_list (threads s)).

Lemma walkingb_false s : walkingb s = false -> forall t, ~ walking s t.
Proof.
  unfold walkingb. intros E t (p & Hp). apply elem_of_map_to_list, list_elem_of_In in Hp.
  assert (existsb (fun p => match p.2 with SetWalk _ => true | _ => false end) (map_to_list (threads s)) = true); [|congruence].
  apply existsb_exists. by exists (t, SetWalk p).
Qed.

Lemma event_no_lost_wakeup_witness :
  state demo_set = IsSet /\ threads demo_set !! 1%positive <> Some Suspended.
Proof.
  split; [reflexivity|].
  apply (event_no_lost_wakeup demo_set 1); [exact demo_set_reachable|reflexivity|].
  apply walkingb_false. reflexivity.
Defined.

Lemma set_resumes_all_witness :
  threads demo !! 1%positive = Some Suspended /\
  exists s', run_thread 5 3 demo = Ret s' /\ threads s' !! 3%positive = Some SetDone /\
    state s' = IsSet /\
    forall c, threads demo !! c = Some Suspended -> threads s' !! c = Some Resumed.
Proof.
  split; [reflexivity|].
  apply (set_resumes_all demo 3); [exact demo_reachable|reflexivity|].
  apply walkingb_false. reflexivity.
Defined.
End ManualResetEvent.
