(* ===== verification/AsyncLatch.v ===== *)
(** * AsyncLatch: primitives/async-latch/async_latch.hpp

    The latch is a counter and a stack of awaiters, two separate atomics.
    Coroutines await the latch and threads count it down concurrently, one
    atomic access per step. [count_down] reads the stack when it brings the
    counter to zero and resumes what it finds; [await_suspend] tests the counter
    before it links its awaiter, so an awaiter linked in between is missed. *)

From S2P Require Import Prelude LinkedList.
Local Open Scope Z_scope.

Module AsyncLatch.

(** ** State *)

Record latch_awaiter := Awaiter { coro_handle : ptr; next_awaiter : ptr }.

Inductive pc :=
(* co_await latch *)
| AwaitReady
| SuspendLoad                                (* [awaiters.load()] *)
| SuspendExpired (old_head : ptr)            (* head of the do-while loop: [latch.expired()] *)
| SuspendCas (old_head : ptr)                (* the compare-exchange *)
| Suspended
| Resumed
(* count_down(n) *)
| CountLoad (n : Z)                          (* [count.load()] *)
| CountTest (n old_count : Z)                (* head of the do-while loop *)
| CountCas (n old_count new_count : Z)       (* the compare-exchange *)
| WalkLoad                                   (* [awaiters.load()] *)
| Walk (awaiter : ptr)                       (* head of the while loop *)
| CountDone.

#[export] Instance pc_eq_dec : EqDecision pc.
Proof. solve_decision. Defined.

Record sys := Sys {
  count : Z;
  awaiters : ptr;
  heap : gmap addr latch_awaiter;
  threads : gmap addr pc;
}.

(** The constructor and its assertion. *)
Definition async_latch (count_ : Z) : outcome sys :=
  if decide (0 < count_) then Ret (Sys count_ null ∅ ∅) else Fault AssertionFailed.

Definition expired (s : sys) : bool := bool_decide (0 = count s).

Definition goto (t : addr) (p : pc) (s : sys) : sys :=
  Sys (count s) (awaiters s) (heap s) (<[t := p]> (threads s)).

(** ** The operations, one atomic step at a time *)

Definition co_await (t : addr) (s : sys) : sys :=
  Sys (count s) (awaiters s) (<[t := Awaiter null null]> (heap s)) (<[t := AwaitReady]> (threads s)).

(** The awaiter is destroyed when the coroutine goes on. *)
Definition await_resume (t : addr) (s : sys) : sys :=
  Sys (count s) (awaiters s) (delete t (heap s)) (<[t := Resumed]> (threads s)).

Definition await_ready (t : addr) (s : sys) : sys :=
  if expired s then await_resume t s else goto t SuspendLoad s.

Definition suspend_load (t : addr) (s : sys) : outcome sys :=
  a ← deref (heap s) (Some t);
  Ret (Sys (count s) (awaiters s) (<[t := Awaiter (Some t) (next_awaiter a)]> (heap s))
         (<[t := SuspendExpired (awaiters s)]> (threads s))).

Definition suspend_expired (t : addr) (old_head : ptr) (s : sys) : outcome sys :=
  if expired s then Ret (await_resume t s)
  else
    a ← deref (heap s) (Some t);
    Ret (Sys (count s) (awaiters s) (<[t := Awaiter (coro_handle a) old_head]> (heap s))
           (<[t := SuspendCas old_head]> (threads s))).

Definition suspend_cas (t : addr) (old_head : ptr) (spurious : bool) (s : sys) : sys :=
  if decide (awaiters s = old_head /\ spurious = false)
  then Sys (count s) (Some t) (heap s) (<[t := Suspended]> (threads s))
  else goto t (SuspendExpired (awaiters s)) s.

Definition count_test (t : addr) (n old_count : Z) (s : sys) : sys :=
  if decide (n > old_count) then goto t CountDone s
  else goto t (CountCas n old_count (u64 (old_count - n))) s.

Definition count_cas (t : addr) (n old_count new_count : Z) (spurious : bool) (s : sys) : sys :=
  if decide (count s = old_count /\ spurious = false)
  then Sys new_count (awaiters s) (heap s)
         (<[t := if decide (0 = new_count) then WalkLoad else CountDone]> (threads s))
  else goto t (CountTest n (count s)) s.

(** [coro_handle.resume()] *)
Definition resume (h : ptr) (s : sys) : outcome sys :=
  c ← or_fault NullDeref h;
  if decide (threads s !! c = Some Suspended) then Ret (await_resume c s) else Fault BadResume.

Definition walk (t : addr) (awaiter : ptr) (s : sys) : outcome sys :=
  match awaiter with
  | None => Ret (goto t CountDone s)
  | Some _ =>
    a ← deref (heap s) awaiter;
    s ← resume (coro_handle a) s;
    Ret (goto t (Walk (next_awaiter a)) s)
  end.

Definition step (t : addr) (spurious : bool) (s : sys) : option (outcome sys) :=
  match threads s !! t with
  | Some AwaitReady => Some (Ret (await_ready t s))
  | Some SuspendLoad => Some (suspend_load t s)
  | Some (SuspendExpired old) => Some (suspend_expired t old s)
  | Some (SuspendCas old) => Some (Ret (suspend_cas t old spurious s))
  | Some (CountLoad n) => Some (Ret (goto t (CountTest n (count s)) s))
  | Some (CountTest n old) => Some (Ret (count_test t n old s))
  | Some (CountCas n old new) => Some (Ret (count_cas t n old new spurious s))
  | Some WalkLoad => Some (Ret (goto t (Walk (awaiters s)) s))
  | Some (Walk w) => Some (walk t w s)
  | Some (Suspended | Resumed | CountDone) | None => None
  end.

(** New threads start at any time; [count_down] is called with [n >= 1]. *)
Inductive latch_step : sys -> sys -> Prop :=
| Run s s' t spurious : step t spurious s = Some (Ret s') -> latch_step s s'
| StartAwait s t : threads s !! t = None -> latch_step s (co_await t s)
| StartCountDown s t n : threads s !! t = None -> 1 <= n -> latch_step s (goto t (CountLoad n) s).

Definition reachable (n : Z) (s : sys) : Prop :=
  exists s0, async_latch n = Ret s0 /\ rtc latch_step s0 s.

(** ** The invariant *)

Definition awaiting (p : pc) : Prop :=
  match p with AwaitReady | SuspendLoad | SuspendExpired _ | SuspendCas _ | Suspended => True | _ => False end.

(** Past the test of the counter, with the handle stored in the awaiter. *)
Definition handle_stored (p : pc) : Prop :=
  match p with SuspendExpired _ | SuspendCas _ | Suspended => True | _ => False end.

Definition walker (p : pc) : Prop := match p with WalkLoad | Walk _ => True | _ => False end.

(** The thread that releases the latch has not read the stack yet. *)
Definition unwalked (s : sys) : Prop := 0 < count s \/ exists t, threads s !! t = Some WalkLoad.

Record inv (s : sys) : Prop := {
  inv_count : 0 <= count s < 2 ^ 64;
  inv_awaiter t p : threads s !! t = Some p -> awaiting p -> is_Some (heap s !! t);
  inv_handle t p a : threads s !! t = Some p -> handle_stored p -> heap s !! t = Some a ->
    coro_handle a = Some t;
  inv_cas t old a : threads s !! t = Some (SuspendCas old) -> heap s !! t = Some a -> next_awaiter a = old;
  inv_count_args t n old new : threads s !! t = Some (CountCas n old new) -> 1 <= n /\ n <= old < 2 ^ 64 /\ new = old - n;
  inv_count_test t n old : threads s !! t = Some (CountTest n old) -> 1 <= n /\ 0 <= old < 2 ^ 64;
  inv_count_load t n : threads s !! t = Some (CountLoad n) -> 1 <= n;
  inv_walker t p : threads s !! t = Some p -> walker p -> count s = 0;
  inv_unique t t' p p' : threads s !! t = Some p -> threads s !! t' = Some p' ->
    walker p -> walker p' -> t = t';
  inv_stack : unwalked s -> exists l, chain next_awaiter (heap s) (awaiters s) l /\
    forall t, threads s !! t = Some Suspended <-> t ∈ l;
  inv_walk t w : threads s !! t = Some (Walk w) -> exists l, chain next_awaiter (heap s) w l /\
    forall c, c ∈ l -> threads s !! c = Some Suspended;
}.

Lemma latch_inv_init n s : n < 2 ^ 64 -> async_latch n = Ret s -> inv s.
Proof.
  unfold async_latch. intros Hn E. case_decide; [|done]. injection E as <-.
  split; cbn; try (intros; by rewrite lookup_empty in *); [lia|].
  intros _. exists []. split; [done|]. intros t. rewrite lookup_empty. split; [done|by intros ?%elem_of_nil].
Qed.

(** What the arguments of the program counter satisfy in [inv]. *)
Definition pc_ok (t : addr) (p : pc) (h : gmap addr latch_awaiter) : Prop :=
  match p with
  | AwaitReady | SuspendLoad => is_Some (h !! t)
  | SuspendExpired _ => exists n, h !! t = Some (Awaiter (Some t) n)
  | SuspendCas old => h !! t = Some (Awaiter (Some t) old)
  | CountCas n old new => 1 <= n /\ n <= old < 2 ^ 64 /\ new = old - n
  | CountTest n old => 1 <= n /\ 0 <= old < 2 ^ 64
  | CountLoad n => 1 <= n
  | Resumed | CountDone => True
  | Suspended | WalkLoad | Walk _ => False
  end.

(** A thread that is neither suspended nor walking moves to another such place. *)
Lemma latch_inv_move s t p h c :
  inv s -> (forall q, threads s !! t = Some q -> q <> Suspended /\ ~ walker q) ->
  pc_ok t p h -> (forall a, a <> t -> h !! a = heap s !! a) ->
  (0 < c <= count s \/ c = count s) ->
  inv (Sys c (awaiters s) h (<[t := p]> (threads s))).
Proof.
  intros [J1 J2 J3 J4 J5 J6 J7 J8 J9 J10 J11] Hq Hok Hh Hc.
  assert (forall u q, <[t := p]> (threads s) !! u = Some q -> u = t /\ q = p \/ u <> t /\ threads s !! u = Some q) as Hl.
  { intros u q [[<- <-]|[Hne E]]%lookup_insert_Some; [by left|right]. done. }
  assert (p <> Suspended /\ ~ walker p) as [Hps Hpw].
  { split; [intros ->; destruct Hok|intros Hw; destruct p; done]. }
  assert (forall u q, threads s !! u = Some q -> q = Suspended \/ walker q -> u <> t) as Hne.
  { intros u q E [->|Hw] ->; by destruct (Hq _ E). }
  assert (forall q l, chain next_awaiter (heap s) q l -> (forall a, a ∈ l -> threads s !! a = Some Suspended) ->
            chain next_awaiter h q l) as Hch.
  { intros q l C Hs. eapply lseg_frame; [|exact C]. intros a Ha. symmetry. apply Hh.
    eapply Hne; [by apply Hs|by left]. }
  assert (forall u, <[t := p]> (threads s) !! u = Some Suspended <-> threads s !! u = Some Suspended) as Hs.
  { intros u. split.
    - intros [[-> <-]|[_ E]]%Hl; done.
    - intros E. rewrite lookup_insert_ne; [done|]. intros <-. by eapply Hne; [exact E|left|]. }
  split; cbn [count awaiters heap threads].
  - lia.
  - intros u q [[-> ->]|[Hu E]]%Hl Ha; [|rewrite Hh by done; eauto].
    destruct p; cbn in *; try done; try (destruct Hok as [? ->]; eauto); rewrite Hok; eauto.
  - intros u q a [[-> ->]|[Hu E]]%Hl Ha Eh; [|rewrite Hh in Eh by done; eauto].
    destruct p; cbn in *; try done; [destruct Hok as [? Hok]|]; by simplify_eq.
  - intros u old a [[-> <-]|[Hu E]]%Hl Eh; [|rewrite Hh in Eh by done; eauto].
    cbn in Hok. by simplify_eq.
  - intros u n old new [[-> <-]|[Hu E]]%Hl; [exact Hok|eauto].
  - intros u n old [[-> <-]|[Hu E]]%Hl; [exact Hok|eauto].
  - intros u n [[-> <-]|[Hu E]]%Hl; [exact Hok|eauto].
  - intros u q [[-> ->]|[Hu E]]%Hl Hw; [done|]. specialize (J8 _ _ E Hw). lia.
  - intros u u' q q' [[-> ->]|[Hu E]]%Hl [[-> ->]|[Hu' E']]%Hl Hw Hw'; try done. eauto.
  - intros Hun. destruct J10 as (l & C & Hl10).
    { destruct Hun as [Hun|(u & [[-> <-]|[Hu E]]%Hl)]; [left; cbn in Hun; lia|by destruct Hpw|right; eauto]. }
    exists l. split; [|intros u; by rewrite Hs]. apply Hch; [done|]. intros a. by rewrite Hl10.
  - intros u w [[-> <-]|[Hu E]]%Hl; [by destruct Hpw|]. destruct (J11 _ _ E) as (l & C & Hl11).
    exists l. split; [by apply Hch|]. intros a Ha. by apply Hs, Hl11.
Qed.

(** Linking an awaiter; [old] may be stale if the latch has been released. *)
Lemma latch_inv_push s t old :
  inv s -> threads s !! t = Some (SuspendCas old) -> awaiters s = old ->
  inv (Sys (count s) (Some t) (heap s) (<[t := Suspended]> (threads s))).
Proof.
  intros Hinv Et Es. pose proof Hinv as [J1 J2 J3 J4 J5 J6 J7 J8 J9 J10 J11].
  destruct (J2 _ _ Et I) as [a Ea]. pose proof (J3 _ _ _ Et I Ea) as Hh.
  pose proof (J4 _ _ _ Et Ea) as Hn.
  assert (forall u q, <[t := Suspended]> (threads s) !! u = Some q -> u = t /\ q = Suspended \/ u <> t /\ threads s !! u = Some q) as Hl.
  { intros u q [[<- <-]|[Hne E]]%lookup_insert_Some; [by left|right]. done. }
  assert (forall u, threads s !! u = Some Suspended -> u <> t) as Hne by (intros u E ->; by simplify_eq).
  split; cbn [count awaiters heap threads].
  - done.
  - intros u q [[-> ->]|[Hu E]]%Hl Ha; eauto.
  - intros u q b [[-> ->]|[Hu E]]%Hl Ha Eb; [by simplify_eq|eauto].
  - intros u o b [[-> [=]]|[Hu E]]%Hl Eb; eauto.
  - intros u n o new [[-> [=]]|[Hu E]]%Hl; eauto.
  - intros u n o [[-> [=]]|[Hu E]]%Hl; eauto.
  - intros u n [[-> [=]]|[Hu E]]%Hl; eauto.
  - intros u q [[-> ->]|[Hu E]]%Hl Hw; [done|eauto].
  - intros u u' q q' [[-> ->]|[Hu E]]%Hl [[-> ->]|[Hu' E']]%Hl Hw Hw'; try done. eauto.
  - intros Hun. destruct J10 as (l & C & Hls).
    { destruct Hun as [Hun|(u & [[-> [=]]|[Hu E]]%Hl)]; [by left|right; eauto]. }
    exists (t :: l). split.
    + split; [done|]. exists a. split; [done|]. rewrite Hn, <- Es. exact C.
    + intros u. rewrite elem_of_cons, <- Hls, lookup_insert_Some. split.
      * intros [[-> _]|[_ E]]; [by left|by right].
      * intros [->|E]; [by left|right]. split; [|done]. intros ->. by apply (Hne u).
  - intros u w [[-> [=]]|[Hu E]]%Hl. destruct (J11 _ _ E) as (l & C & Hls). exists l. split; [done|].
    intros c Hc. rewrite lookup_insert_ne; [by apply Hls|]. intros <-. by apply (Hne t); [apply Hls|].
Qed.

(** Bringing the counter to zero. *)
Lemma inv_release s t n :
  inv s -> threads s !! t = Some (CountCas n (count s) 0) ->
  inv (Sys 0 (awaiters s) (heap s) (<[t := WalkLoad]> (threads s))) /\ 0 < count s.
Proof.
  intros Hinv Et. pose proof Hinv as [J1 J2 J3 J4 J5 J6 J7 J8 J9 J10 J11].
  destruct (J5 _ _ _ _ Et) as (Hn & Hle & _). split; [|lia].
  assert (forall u q, <[t := WalkLoad]> (threads s) !! u = Some q -> u = t /\ q = WalkLoad \/ u <> t /\ threads s !! u = Some q) as Hl.
  { intros u q [[<- <-]|[Hne E]]%lookup_insert_Some; [by left|right]. done. }
  assert (forall u q, threads s !! u = Some q -> ~ walker q) as Hnw.
  { intros u q E Hw. specialize (J8 _ _ E Hw). lia. }
  split; cbn [count awaiters heap threads].
  - lia.
  - intros u q [[-> ->]|[Hu E]]%Hl Ha; [done|eauto].
  - intros u q b [[-> ->]|[Hu E]]%Hl Ha Eb; [done|eauto].
  - intros u o b [[-> [=]]|[Hu E]]%Hl Eb; eauto.
  - intros u m o new [[-> [=]]|[Hu E]]%Hl; eauto.
  - intros u m o [[-> [=]]|[Hu E]]%Hl; eauto.
  - intros u m [[-> [=]]|[Hu E]]%Hl; eauto.
  - done.
  - intros u u' q q' [[-> ->]|[Hu E]]%Hl [[-> ->]|[Hu' E']]%Hl Hw Hw'; try done; by destruct (Hnw _ _ ltac:(eassumption)).
  - intros _. destruct J10 as (l & C & Hls); [left; lia|]. exists l. split; [done|].
    intros u. rewrite <- Hls, lookup_insert_Some. split; [intros [[_ [=]]|[_ E]]; done|].
    intros E. right. split; [intros <-; by simplify_eq|done].
  - intros u w [[-> [=]]|[Hu E]]%Hl. by destruct (Hnw _ _ E).
Qed.

(** The releasing thread reads the stack. *)
Lemma inv_walk_load s t :
  inv s -> threads s !! t = Some WalkLoad -> inv (goto t (Walk (awaiters s)) s).
Proof.
  intros Hinv Et. pose proof Hinv as [J1 J2 J3 J4 J5 J6 J7 J8 J9 J10 J11].
  assert (forall u q, <[t := Walk (awaiters s)]> (threads s) !! u = Some q ->
            u = t /\ q = Walk (awaiters s) \/ u <> t /\ threads s !! u = Some q) as Hl.
  { intros u q [[<- <-]|[Hne E]]%lookup_insert_Some; [by left|right]. done. }
  pose proof (J8 _ _ Et I) as Hc.
  assert (forall u q, threads s !! u = Some q -> walker q -> u = t) as Hu1 by (intros u q E Hw; by eapply J9).
  split; cbn [count awaiters heap threads goto].
  - done.
  - intros u q [[-> ->]|[Hu E]]%Hl Ha; [done|eauto].
  - intros u q b [[-> ->]|[Hu E]]%Hl Ha Eb; [done|eauto].
  - intros u o b [[-> [=]]|[Hu E]]%Hl Eb; eauto.
  - intros u m o new [[-> [=]]|[Hu E]]%Hl; eauto.
  - intros u m o [[-> [=]]|[Hu E]]%Hl; eauto.
  - intros u m [[-> [=]]|[Hu E]]%Hl; eauto.
  - done.
  - intros u u' q q' [[-> ->]|[Hu E]]%Hl [[-> ->]|[Hu' E']]%Hl Hw Hw'; try done; [..|by eauto]; exfalso; eauto.
  - intros [Hun|(u & [[-> [=]]|[Hu E]]%Hl)]; [cbn in Hun; lia|]. exfalso. by apply Hu, (Hu1 _ _ E).
  - intros u w [[-> [= ->]]|[Hu E]]%Hl; [|exfalso; by apply Hu, (Hu1 _ _ E)].
    destruct J10 as (l & C & Hls); [by right; exists t|]. exists l. split; [done|].
    intros c Hc'. rewrite lookup_insert_ne; [by apply Hls|]. intros <-. apply Hls in Hc'. by simplify_eq.
Qed.

Lemma latch_inv_walk_end s t : inv s -> threads s !! t = Some (Walk null) -> inv (goto t CountDone s).
Proof.
  intros Hinv Et. pose proof Hinv as [J1 J2 J3 J4 J5 J6 J7 J8 J9 J10 J11].
  assert (forall u q, <[t := CountDone]> (threads s) !! u = Some q ->
            u = t /\ q = CountDone \/ u <> t /\ threads s !! u = Some q) as Hl.
  { intros u q [[<- <-]|[Hne E]]%lookup_insert_Some; [by left|right]. done. }
  pose proof (J8 _ _ Et I) as Hc.
  assert (forall u q, threads s !! u = Some q -> walker q -> u = t) as Hu1 by (intros u q E Hw; by eapply J9).
  split; cbn [count awaiters heap threads goto].
  - done.
  - intros u q [[-> ->]|[Hu E]]%Hl Ha; [done|eauto].
  - intros u q b [[-> ->]|[Hu E]]%Hl Ha Eb; [done|eauto].
  - intros u o b [[-> [=]]|[Hu E]]%Hl Eb; eauto.
  - intros u m o new [[-> [=]]|[Hu E]]%Hl; eauto.
  - intros u m o [[-> [=]]|[Hu E]]%Hl; eauto.
  - intros u m [[-> [=]]|[Hu E]]%Hl; eauto.
  - done.
  - intros u u' q q' [[-> ->]|[Hu E]]%Hl [[-> ->]|[Hu' E']]%Hl Hw Hw'; try done. eauto.
  - intros [Hun|(u & [[-> [=]]|[Hu E]]%Hl)]; [cbn in Hun; lia|]. exfalso. by apply Hu, (Hu1 _ _ E).
  - intros u w [[-> [=]]|[Hu E]]%Hl. exfalso. by apply Hu, (Hu1 _ _ E).
Qed.

(** Resuming the first coroutine of the list. *)
Lemma latch_inv_walk_step s t a l :
  inv s -> threads s !! t = Some (Walk (Some a)) -> chain next_awaiter (heap s) (Some a) l ->
  exists aw l', l = a :: l' /\ heap s !! a = Some aw /\ coro_handle aw = Some a /\
    threads s !! a = Some Suspended /\ a <> t /\ a ∉ l' /\
    chain next_awaiter (delete a (heap s)) (next_awaiter aw) l' /\
    inv (goto t (Walk (next_awaiter aw)) (await_resume a s)).
Proof.
  intros Hinv Et C. pose proof Hinv as [J1 J2 J3 J4 J5 J6 J7 J8 J9 J10 J11].
  destruct (J11 _ _ Et) as (l0 & C0 & Hls). pose proof (chain_func _ _ _ _ _ C0 C) as ->.
  pose proof (chain_NoDup _ _ _ _ C) as ND.
  destruct (chain_Some_inv _ _ _ _ C) as (l' & aw & -> & Ea & C').
  apply NoDup_cons in ND as [Hal' _].
  assert (threads s !! a = Some Suspended) as Es by (apply Hls; by left).
  assert (a <> t) as Hat by (intros ->; by simplify_eq).
  exists aw, l'. do 2 (split; [done|]). split; [by eapply J3|]. do 3 (split; [done|]).
  assert (chain next_awaiter (delete a (heap s)) (next_awaiter aw) l') as Cd by by apply lseg_delete_notin.
  split; [done|]. pose proof (J8 _ _ Et I) as Hc.
  assert (forall u q, threads s !! u = Some q -> walker q -> u = t) as Hu1 by (intros u q E Hw; by eapply J9).
  assert (forall u q, <[t := Walk (next_awaiter aw)]> (<[a := Resumed]> (threads s)) !! u = Some q ->
            u = t /\ q = Walk (next_awaiter aw) \/ u = a /\ q = Resumed \/
            u <> t /\ u <> a /\ threads s !! u = Some q) as Hl.
  { intros u q [[<- <-]|[Hne [[<- <-]|[Hne' E]]%lookup_insert_Some]]%lookup_insert_Some;
      [by left|by right; left|by right; right]. }
  split; cbn [count awaiters heap threads goto await_resume].
  - done.
  - intros u q [[-> ->]|[[-> ->]|(Hu & Hu' & E)]]%Hl Ha; try done. rewrite lookup_delete_ne by done. eauto.
  - intros u q b [[-> ->]|[[-> ->]|(Hu & Hu' & E)]]%Hl Ha; try done. rewrite lookup_delete_ne by done. eauto.
  - intros u o b [[-> [=]]|[[-> [=]]|(Hu & Hu' & E)]]%Hl. rewrite lookup_delete_ne by done. eauto.
  - intros u m o new [[-> [=]]|[[-> [=]]|(Hu & Hu' & E)]]%Hl; eauto.
  - intros u m o [[-> [=]]|[[-> [=]]|(Hu & Hu' & E)]]%Hl; eauto.
  - intros u m [[-> [=]]|[[-> [=]]|(Hu & Hu' & E)]]%Hl; eauto.
  - done.
  - intros u u' q q' [[-> ->]|[[-> ->]|(Hu & _ & E)]]%Hl [[-> ->]|[[-> ->]|(Hu' & _ & E')]]%Hl Hw Hw'; try done;
      exfalso; eauto.
  - intros [Hun|(u & [[-> [=]]|[[-> [=]]|(Hu & _ & E)]]%Hl)]; [cbn in Hun; lia|].
    exfalso. by apply Hu, (Hu1 _ _ E).
  - intros u w [[-> [= ->]]|[[-> [=]]|(Hu & _ & E)]]%Hl; [|exfalso; by apply Hu, (Hu1 _ _ E)].
    exists l'. split; [done|]. intros c Hc'.
    assert (threads s !! c = Some Suspended) as Ec by (apply Hls; by right).
    rewrite !lookup_insert_ne; [done|by intros <-|]. intros <-. by simplify_eq.
Qed.

(** ** The effects of a step *)

Definition settled (p : pc) : Prop := p = Suspended \/ walker p.

Inductive effect (t : addr) (s : sys) : sys -> Prop :=
| EMove p h c :
    (forall q, threads s !! t = Some q -> ~ settled q) -> ~ settled p ->
    (forall a, a <> t -> h !! a = heap s !! a) -> (0 < c <= count s \/ c = count s) ->
    effect t s (Sys c (awaiters s) h (<[t := p]> (threads s)))
| EPush old :
    threads s !! t = Some (SuspendCas old) ->
    effect t s (Sys (count s) (Some t) (heap s) (<[t := Suspended]> (threads s)))
| ERelease n :
    threads s !! t = Some (CountCas n (count s) 0) -> 0 < count s ->
    effect t s (Sys 0 (awaiters s) (heap s) (<[t := WalkLoad]> (threads s)))
| EWalkLoad :
    threads s !! t = Some WalkLoad -> effect t s (goto t (Walk (awaiters s)) s)
| EWalkStep a aw :
    threads s !! t = Some (Walk (Some a)) -> heap s !! a = Some aw -> a <> t ->
    threads s !! a = Some Suspended ->
    effect t s (goto t (Walk (next_awaiter aw)) (await_resume a s))
| EWalkEnd :
    threads s !! t = Some (Walk null) -> effect t s (goto t CountDone s).

Lemma not_settled (p : pc) : ~ settled p <-> p <> Suspended /\ ~ walker p.
Proof. unfold settled. tauto. Qed.

Lemma move_effect s t q p h c :
  inv s -> threads s !! t = Some q -> ~ settled q -> ~ settled p -> pc_ok t p h ->
  (forall a, a <> t -> h !! a = heap s !! a) -> (0 < c <= count s \/ c = count s) ->
  inv (Sys c (awaiters s) h (<[t := p]> (threads s))) /\
  effect t s (Sys c (awaiters s) h (<[t := p]> (threads s))).
Proof.
  intros Hinv Et Hq Hp Hok Hh Hc. split.
  - apply latch_inv_move; try done. intros q' E. simplify_eq. by apply not_settled.
  - apply EMove; try done. intros q' E. by simplify_eq.
Qed.

Ltac unsettled := apply not_settled; split; [discriminate | intros []].

(** A step that only moves thread [t]. *)
Ltac plain_move t :=
  eapply (move_effect _ t);
  [ done | eassumption | unsettled | unsettled | try done
  | first [ done | by intros ? ?; apply lookup_insert_ne | by intros ? ?; apply lookup_delete_ne ]
  | try by right ].

(** Every step is defined, preserves the invariant and has one of the effects. *)
Lemma step_effect s t spurious r :
  inv s -> step t spurious s = Some r -> exists s', r = Ret s' /\ inv s' /\ effect t s s'.
Proof.
  intros Hinv E. pose proof Hinv as [J1 J2 J3 J4 J5 J6 J7 J8 J9 J10 J11]. unfold step in E.
  destruct (threads s !! t) as [p|] eqn:Et; [|done].
  destruct p as [| |old|old| | |n|n old|n old new| |w|]; try discriminate E; injection E as <-.
  - eexists. split; [done|]. pose proof (J2 _ _ Et I). unfold await_ready. case_match; plain_move t.
  - destruct (J2 _ _ Et I) as [a Ea]. unfold suspend_load. rewrite (deref_Some _ _ _ Ea). run_bind.
    eexists. split; [done|]. plain_move t. eexists. apply lookup_insert_eq.
  - destruct (J2 _ _ Et I) as [a Ea]. unfold suspend_expired. case_match.
    + eexists. split; [done|]. plain_move t.
    + rewrite (deref_Some _ _ _ Ea). run_bind. eexists. split; [done|]. plain_move t.
      cbn. by rewrite lookup_insert_eq, (J3 _ _ _ Et I Ea).
  - eexists. split; [done|]. unfold suspend_cas. case_decide as Hd.
    + destruct Hd as [Hst _]. split; [by eapply latch_inv_push|by eapply EPush].
    + destruct (J2 _ _ Et I) as [[h nx] Ea]. pose proof (J3 _ _ _ Et I Ea) as Eh. cbn in Eh. subst h.
      plain_move t. by exists nx.
  - eexists. split; [done|]. pose proof (J7 _ _ Et). plain_move t.
  - eexists. split; [done|]. destruct (J6 _ _ _ Et) as [Hn Hold]. unfold count_test.
    case_decide; plain_move t. cbn. rewrite u64_small by lia. lia.
  - eexists. split; [done|]. destruct (J5 _ _ _ _ Et) as (Hn & Hold & ->). unfold count_cas. case_decide as Hd.
    + destruct Hd as [<- _]. case_decide as Hz.
      * rewrite <- Hz in *. destruct (inv_release _ _ _ Hinv Et) as [Hinv' Hpos].
        split; [done|by eapply ERelease].
      * plain_move t. left. lia.
    + plain_move t.
  - eexists. split; [done|]. split; [by apply inv_walk_load|by apply EWalkLoad].
  - destruct w as [a|]; cbn [walk].
    + destruct (J11 _ _ Et) as (l & C & _).
      destruct (latch_inv_walk_step _ _ _ _ Hinv Et C) as (aw & l' & _ & Ea & Eh & Es & Hne & _ & _ & Hinv').
      rewrite (deref_Some _ _ _ Ea). run_bind. unfold resume. rewrite Eh. cbn [or_fault]. run_bind.
      rewrite decide_True by done. run_bind. eexists. split; [done|]. split; [done|by apply EWalkStep].
    + eexists. split; [done|]. split; [by apply latch_inv_walk_end|by apply EWalkEnd].
Qed.

Lemma latch_step_effect s s' :
  inv s -> latch_step s s' -> inv s' /\ exists t, effect t s s'.
Proof.
  intros Hinv Hs. destruct Hs as [s s' t spurious E|s t E|s t n E Hn].
  - destruct (step_effect _ _ _ _ Hinv E) as (s'' & [= <-] & H1 & H2). eauto.
  - assert (forall q, threads s !! t = Some q -> ~ settled q) as Hq by (intros q Eq; by rewrite E in Eq).
    assert (forall a : addr, a <> t -> <[t := Awaiter null null]> (heap s) !! a = heap s !! a) as Hh
      by (intros a Ha; by apply lookup_insert_ne).
    split.
    + apply latch_inv_move; try done; [| |by right].
      * intros q Eq. by rewrite E in Eq.
      * cbn. rewrite lookup_insert_eq. by eexists.
    + exists t. apply EMove; try done; [unsettled|by right].
  - assert (forall q, threads s !! t = Some q -> ~ settled q) as Hq by (intros q Eq; by rewrite E in Eq).
    split.
    + apply latch_inv_move; try done; [|by right]. intros q Eq. by rewrite E in Eq.
    + exists t. apply EMove; try done; [unsettled|by right].
Qed.

Lemma latch_steps_inv s s' : inv s -> rtc latch_step s s' -> inv s'.
Proof.
  intros Hi Hr. revert Hi. induction Hr as [|s1 s2 s3 Hs _ IH]; [done|]. intros Hi.
  by apply IH, (latch_step_effect s1).
Qed.

Lemma latch_reachable_inv n s : n < 2 ^ 64 -> reachable n s -> inv s.
Proof. intros Hn (s0 & E & Hr). eapply latch_steps_inv; [by eapply latch_inv_init|done]. Qed.

(** ** Coroutines that will be resumed *)

(** [c] suspended in time: it is on the stack that will be read, or on the part
    of it that is still to be resumed, or it has been resumed. *)
Definition pending (c : addr) (s : sys) : Prop :=
  threads s !! c = Some Suspended /\
    (unwalked s \/ exists t w l, threads s !! t = Some (Walk w) /\ chain next_awaiter (heap s) w l /\ c ∈ l) \/
  threads s !! c = Some Resumed.

Lemma pending_walk_step c t s a aw : inv s -> threads s !! t = Some (Walk (Some a)) ->
  heap s !! a = Some aw -> pending c s -> pending c (goto t (Walk (next_awaiter aw)) (await_resume a s)).
Proof.
  intros Hinv Et Ea Hp. destruct (inv_walk _ Hinv _ _ Et) as (l & C & Hl).
  destruct (latch_inv_walk_step _ _ _ _ Hinv Et C) as (aw' & l' & -> & Ea' & _ & _ & _ & Hal' & C' & _). simplify_eq.
  destruct Hp as [[Hc Hp]|Hc].
  2: { assert (c <> t) as Hct by (intros ->; by simplify_eq). right. cbn. rewrite lookup_insert_ne by done.
       destruct (decide (c = a)) as [->|Hca]; [apply lookup_insert_eq|by rewrite lookup_insert_ne]. }
  assert (c <> t) as Hct by (intros ->; by simplify_eq).
  unfold pending. cbn. rewrite lookup_insert_ne by done. destruct (decide (c = a)) as [->|Hca].
  { right. apply lookup_insert_eq. }
  left. rewrite lookup_insert_ne by done. split; [done|]. right.
  exists t, (next_awaiter aw), l'. cbn. rewrite lookup_insert_eq. split; [done|]. split; [done|].
  destruct Hp as [[Hpos|(u & Eu)]|(u & w & l0 & Eu & C0 & Hcl)].
  - pose proof (inv_walker _ Hinv _ _ Et I). lia.
  - pose proof (inv_unique _ Hinv _ _ _ _ Et Eu I I). by simplify_eq.
  - pose proof (inv_unique _ Hinv _ _ _ _ Et Eu I I). simplify_eq.
    rewrite (chain_func _ _ _ _ _ C0 C) in Hcl. by apply elem_of_cons in Hcl as [->|Hcl].
Qed.

Lemma pending_effect c t s s' : inv s -> effect t s s' -> pending c s ->
  threads s !! c <> Some Resumed -> pending c s'.
Proof.
  intros Hinv He [[Hc Hp]|Hc] Hnr; [|done].
  destruct He as [p h k Hq Hps Hh Hk|old Et|n Et Hpos|Et|a aw Et Ea Hat Es|Et].
  - assert (c <> t) as Hct by (intros ->; by apply (Hq _ Hc); left).
    left. cbn. rewrite lookup_insert_ne by done. split; [done|].
    destruct Hp as [[Hpos|(u & Eu)]|(u & w & l & Eu & C & Hcl)].
    + left. left. cbn. lia.
    + left. right. exists u. cbn. rewrite lookup_insert_ne; [done|]. intros <-. by apply (Hq _ Eu); right.
    + right. exists u, w, l. cbn. split; [|split; [|done]].
      * rewrite lookup_insert_ne; [done|]. intros <-. by apply (Hq _ Eu); right.
      * eapply lseg_frame; [|exact C]. intros a Ha. symmetry. apply Hh. intros ->.
        destruct (inv_walk _ Hinv _ _ Eu) as (l' & C' & Hl'). rewrite (chain_func _ _ _ _ _ C' C) in Hl'.
        by apply (Hq _ (Hl' _ Ha)); left.
  - assert (c <> t) as Hct by (intros ->; by simplify_eq).
    left. cbn. rewrite lookup_insert_ne by done. split; [done|].
    destruct Hp as [[Hpos|(u & Eu)]|(u & w & l & Eu & C & Hcl)].
    + by left; left.
    + left. right. exists u. cbn. rewrite lookup_insert_ne; [done|]. intros <-. by simplify_eq.
    + right. exists u, w, l. cbn. rewrite lookup_insert_ne; [done|]. intros <-. by simplify_eq.
  - assert (c <> t) as Hct by (intros ->; by simplify_eq).
    left. cbn. rewrite lookup_insert_ne by done. split; [done|]. left. right. exists t. cbn. apply lookup_insert_eq.
  - assert (c <> t) as Hct by (intros ->; by simplify_eq).
    left. cbn. rewrite lookup_insert_ne by done. split; [done|]. right.
    destruct (inv_stack _ Hinv) as (l & C & Hl); [by right; exists t|].
    exists t, (awaiters s), l. cbn. rewrite lookup_insert_eq. split; [done|]. split; [done|by apply Hl].
  - apply pending_walk_step; try done. by left.
  - exfalso. destruct Hp as [[Hpos|(u & Eu)]|(u & w & l0 & Eu & C0 & Hcl)].
    + pose proof (inv_walker _ Hinv _ _ Et I). lia.
    + pose proof (inv_unique _ Hinv _ _ _ _ Et Eu I I). by simplify_eq.
    + pose proof (inv_unique _ Hinv _ _ _ _ Et Eu I I). simplify_eq.
      apply chain_null in C0 as ->. by apply elem_of_nil in Hcl.
Qed.

(** A finished thread makes no step. *)
Lemma resumed_step c s s' : inv s -> latch_step s s' ->
  threads s !! c = Some Resumed -> threads s' !! c = Some Resumed.
Proof.
  intros Hinv Hs Hc. destruct Hs as [s s' t spurious E|s t E|s t n E Hn].
  - assert (t <> c) as Htc by (intros ->; unfold step in E; by rewrite Hc in E).
    destruct (step_effect _ _ _ _ Hinv E) as (s'' & [= <-] & _ & He).
    destruct He; cbn in *; rewrite lookup_insert_ne by done; try done.
    apply lookup_insert_Some. destruct (decide (a = c)) as [->|]; [by left|by right].
  - cbn. rewrite lookup_insert_ne; [done|]. intros <-. by simplify_eq.
  - cbn. rewrite lookup_insert_ne; [done|]. intros <-. by simplify_eq.
Qed.

Lemma latch_pending_steps c s s' : inv s -> rtc latch_step s s' -> pending c s -> pending c s'.
Proof.
  intros Hi Hr. revert Hi. induction Hr as [|s1 s2 s3 Hs Hr IH]; [done|]. intros Hi Hp.
  destruct (latch_step_effect _ _ Hi Hs) as [Hi2 (t & He)]. apply IH; [done|].
  destruct (decide (threads s1 !! c = Some Resumed)) as [Hc|Hc].
  - right. by apply (resumed_step c s1).
  - by apply (pending_effect c t s1).
Qed.

(** A coroutine that suspended too late stays suspended. *)
Definition stuck (c : addr) (s : sys) : Prop :=
  inv s /\ count s = 0 /\ (forall t p, threads s !! t = Some p -> ~ walker p) /\
  threads s !! c = Some Suspended.

Lemma stuck_step c s s' : stuck c s -> latch_step s s' -> stuck c s'.
Proof.
  intros (Hi & Hc & Hw & Hs) Hstep. destruct (latch_step_effect _ _ Hi Hstep) as [Hi' (t & He)].
  split; [done|]. destruct He as [p h k Hq Hps Hh Hk|old Et|n Et Hpos|Et|a aw Et Ea Hat Es|Et];
    try (by destruct (Hw _ _ Et)); [| |lia].
  - cbn. split; [lia|]. split.
    + intros u q [[_ <-]|[_ E]]%lookup_insert_Some Hwq; [by apply Hps; right|by apply (Hw _ _ E)].
    + rewrite lookup_insert_ne; [done|]. intros ->. by apply (Hq _ Hs); left.
  - cbn. split; [done|]. split.
    + intros u q [[_ <-]|[_ E]]%lookup_insert_Some Hwq; [done|by apply (Hw _ _ E)].
    + rewrite lookup_insert_ne; [done|]. intros ->. by simplify_eq.
Qed.

Lemma stuck_steps c s s' : stuck c s -> rtc latch_step s s' -> stuck c s'.
Proof.
  intros Hs Hr. induction Hr as [|s1 s2 s3 H1 _ IH]; [done|]. by apply IH, (stuck_step c s1).
Qed.

(** ** Concrete runs *)

Inductive event := EAwait (t : addr) | ECountDown (t : addr) (n : Z) | ERun (t : addr).

Definition fresh_thread (t : addr) (s s' : sys) : outcome sys :=
  if decide (threads s !! t = None) then Ret s' else Fault AssertionFailed.

Fixpoint exec (es : list event) (s : sys) : outcome sys :=
  match es with
  | [] => Ret s
  | EAwait t :: es => s ← fresh_thread t s (co_await t s); exec es s
  | ECountDown t n :: es => s ← fresh_thread t s (goto t (CountLoad n) s); exec es s
  | ERun t :: es => s ← (match step t false s with Some r => r | None => Ret s end); exec es s
  end.

Lemma latch_fresh_thread_inv t s s1 s2 : fresh_thread t s s1 = Ret s2 -> threads s !! t = None /\ s2 = s1.
Proof. unfold fresh_thread. case_decide; [|done]. by intros [= <-]. Qed.

Definition positive_event (e : event) : bool := match e with ECountDown _ n => 1 <=? n | _ => true end.

Lemma latch_exec_steps es : forall s s', forallb positive_event es = true -> exec es s = Ret s' -> rtc latch_step s s'.
Proof.
  induction es as [|e es IH]; intros s s' Hp E; [injection E as <-; apply rtc_refl|].
  cbn in Hp. apply andb_prop in Hp as [Hn Hp].
  destruct e; cbn [exec] in E; apply bind_Ret_inv in E as (s1 & E1 & E).
  - apply latch_fresh_thread_inv in E1 as [E1 ->]. eapply rtc_l; [by constructor|by apply IH].
  - apply latch_fresh_thread_inv in E1 as [E1 ->]. apply Z.leb_le in Hn. eapply rtc_l; [by constructor|by apply IH].
  - destruct (step t false s) as [r|] eqn:Er; [|injection E1 as <-; by apply IH].
    subst r. eapply rtc_l; [by eapply Run|by apply IH].
Qed.

(** The latch after a script, started with count [n]. *)
Definition script (n : Z) (es : list event) : outcome sys := s ← async_latch n; exec es s.

Definition script_state (n : Z) (es : list event) : sys :=
  match script n es with Ret s => s | _ => Sys 0 null ∅ ∅ end.

Lemma script_reachable n es s :
  script n es = Ret s -> forallb positive_event es = true -> reachable n s.
Proof.
  intros E Hp. apply bind_Ret_inv in E as (s0 & E0 & E). exists s0. split; [done|]. by eapply latch_exec_steps.
Qed.

(** A suspends: ready, load, expired, exchange. *)
Definition await_all (t : addr) : list event := [EAwait t; ERun t; ERun t; ERun t; ERun t].
Definition repeat_run (k : nat) (t : addr) : list event := replicate k (ERun t).

Definition waiting_script : list event := await_all 1 ++ await_all 2 ++ [ECountDown 3 1].

(** The test of the counter by coroutine 1, then all of [count_down], then the
    exchange by coroutine 1. *)
Definition race_script : list event :=
  [EAwait 1; ERun 1; ERun 1; ERun 1] ++ ECountDown 2 1 :: repeat_run 5 2 ++ [ERun 1].

(** ** Theorems *)

(** Whatever the interleaving of awaiting coroutines and threads counting
    down by at least one, no step of the latch is undefined: the releasing
    thread only dereferences awaiters that exist and only resumes coroutines
    that are suspended, hence each at most once. *)
Theorem latch_no_undefined_behaviour n s t spurious r :
  n < 2 ^ 64 -> reachable n s -> step t spurious s = Some r -> exists s', r = Ret s'.
Proof.
  intros Hn Hr E. destruct (step_effect s t spurious r (latch_reachable_inv n s Hn Hr) E) as (s' & -> & _). eauto.
Qed.

(** C12. A coroutine that is suspended on the latch while the count is not zero
    is resumed once the latch has been released: in every later state where
    the count is zero and no thread is still walking the stack, it has been. *)
Theorem latch_resumes_waiters n s s' c :
  n < 2 ^ 64 -> reachable n s -> 0 < count s -> threads s !! c = Some Suspended ->
  rtc latch_step s s' -> count s' = 0 -> (forall t p, threads s' !! t = Some p -> ~ walker p) ->
  threads s' !! c = Some Resumed.
Proof.
  intros Hn Hr Hpos Hc Hsteps Hz Hw. pose proof (latch_reachable_inv n s Hn Hr) as Hi.
  assert (pending c s) as Hp by (left; split; [done|by left; left]).
  destruct (latch_pending_steps c s s' Hi Hsteps Hp) as [[_ [[Hpos'|(t & E)]|(t & w & l & E & _)]]|E].
  - lia.
  - by destruct (Hw _ _ E).
  - by destruct (Hw _ _ E).
  - done.
Qed.

(** The wakeup can be lost: a coroutine that has tested the counter before
    the release and links its awaiter after it is suspended for ever, although
    the count is zero. *)
Theorem latch_lost_wakeup :
  exists s, reachable 1 s /\ count s = 0 /\ threads s !! 1%positive = Some Suspended /\
    forall s', rtc latch_step s s' -> threads s' !! 1%positive = Some Suspended.
Proof.
  exists (script_state 1 race_script).
  assert (reachable 1 (script_state 1 race_script)) as Hr
    by (apply (script_reachable 1 race_script); vm_compute; reflexivity).
  assert (stuck 1 (script_state 1 race_script)) as Hs.
  { split; [apply (latch_reachable_inv 1); [lia|exact Hr]|]. split; [reflexivity|]. split; [|reflexivity].
    intros t p E. assert (t = 1%positive \/ t = 2%positive) as [->| ->].
    - apply elem_of_dom_2 in E.
      replace (dom (threads (script_state 1 race_script))) with ({[1; 2]}%positive : gset addr) in E
        by (vm_compute; reflexivity). set_solver.
    - vm_compute in E. injection E as <-. intros [].
    - vm_compute in E. injection E as <-. intros []. }
  split; [exact Hr|]. split; [reflexivity|]. split; [reflexivity|].
  intros s' Hsteps. by destruct (stuck_steps _ _ _ Hs Hsteps) as (_ & _ & _ & E).
Qed.

(** [count_down(0)] on a latch that has been released walks the stack again:
    the awaiters on it are gone, and the first dereference is of a dead object. *)
Theorem latch_count_down_zero_dangles :
  script 1 (await_all 1 ++ ECountDown 2 1 :: repeat_run 6 2 ++ ECountDown 3 0 :: repeat_run 5 3)
  = Fault Dangling.
Proof. vm_compute. reflexivity. Qed.

(** ** Witnesses *)

Lemma waiting_reachable : reachable 1 (script_state 1 waiting_script).
Proof. apply (script_reachable 1 waiting_script); vm_compute; reflexivity. Qed.

Lemma latch_no_undefined_behaviour_witness :
  threads (script_state 1 waiting_script) !! 1%positive = Some Suspended /\
  exists s', step 3 false (script_state 1 waiting_script) = Some (Ret s').
Proof.
  split; [reflexivity|].
  destruct (step 3 false (script_state 1 waiting_script)) as [r|] eqn:E; [|vm_compute in E; discriminate E].
  destruct (latch_no_undefined_behaviour 1 (script_state 1 waiting_script) 3 false r ltac:(lia) waiting_reachable E)
    as (s' & ->). eauto.
Defined.

Definition released_script : list event := waiting_script ++ repeat_run 7 3.

Lemma released_no_walker t p :
  threads (script_state 1 released_script) !! t = Some p -> ~ walker p.
Proof.
  intros E. assert (t = 1%positive \/ t = 2%positive \/ t = 3%positive) as [->|[->| ->]].
  - apply elem_of_dom_2 in E.
    replace (dom (threads (script_state 1 released_script))) with ({[1; 2; 3]}%positive : gset addr) in E
      by (vm_compute; reflexivity). set_solver.
  - vm_compute in E. injection E as <-. intros [].
  - vm_compute in E. injection E as <-. intros [].
  - vm_compute in E. injection E as <-. intros [].
Qed.

Lemma latch_resumes_waiters_witness :
  threads (script_state 1 waiting_script) !! 1%positive = Some Suspended /\
  threads (script_state 1 released_script) !! 1%positive = Some Resumed.
Proof.
  split; [reflexivity|].
  apply (latch_resumes_waiters 1 (script_state 1 waiting_script)).
  - lia.
  - exact waiting_reachable.
  - reflexivity.
  - reflexivity.
  - apply (latch_exec_steps (repeat_run 7 3)); vm_compute; reflexivity.
  - reflexivity.
  - exact released_no_walker.
Defined.
End AsyncLatch.
