(* ===== verification/AsyncLock.v ===== *)
(** * AsyncLock: primitives/async-lock/async_lock.hpp

    The lock word is 0 (free), 1 (held, nobody waits) or the address of the
    last coroutine's awaiter that joined a stack of waiters; [release] is meant
    to reverse that stack into a queue. Coroutines acquire and release
    concurrently, one atomic access per step. *)

From S2P Require Import Prelude.

Module AsyncLock.

(** ** State *)

(** The values of [std::atomic_uintptr_t state], also read as pointers:
    0, 1 and the address of an awaiter. *)
Inductive word := W0 | W1 | WAddr (a : addr).

#[export] Instance word_eq_dec : EqDecision word.
Proof. solve_decision. Defined.

Definition NOT_LOCKED : word := W0.
Definition LOCKED_NO_WAITERS : word := W1.
Definition nullptr : word := W0.

Record async_lock_awaiter := Awaiter { next_awaiter : word; awaiting_coro : ptr }.

Inductive pc :=
(* co_await lock.acquire() *)
| SuspendLoad                        (* [state.load()] *)
| SuspendLoop (prev_state : word)    (* head of the for loop *)
| AcquireCas (prev_state : word)     (* compare-exchange to LOCKED_NO_WAITERS *)
| LinkCas (prev_state : word)        (* compare-exchange to this *)
| Suspended
| Holding                            (* owns the guard *)
(* release() *)
| ReleaseCas                         (* compare-exchange to NOT_LOCKED *)
| ReleaseExchange
| ReleaseWalk (current head : word)  (* head of the do-while loop *)
| ReleaseResume (head : word)        (* the last two statements *)
| Released.

#[export] Instance pc_eq_dec : EqDecision pc.
Proof. solve_decision. Defined.

Record sys := Sys {
  state : word;
  awaiters : word;
  heap : gmap addr async_lock_awaiter;
  threads : gmap addr pc;
}.

Definition async_lock : sys := Sys NOT_LOCKED nullptr ∅ ∅.

Definition deref_word (h : gmap addr async_lock_awaiter) (w : word) : outcome async_lock_awaiter :=
  match w with
  | W0 => Fault NullDeref
  | W1 => Fault WildPointer
  | WAddr a => or_fault Dangling (h !! a)
  end.

Definition goto (t : addr) (p : pc) (s : sys) : sys :=
  Sys (state s) (awaiters s) (heap s) (<[t := p]> (threads s)).

(** ** The operations, one atomic step at a time *)

(** [acquire()] and the call of [await_suspend]; [await_ready] is false. *)
Definition acquire (t : addr) (s : sys) : sys :=
  Sys (state s) (awaiters s) (<[t := Awaiter nullptr (Some t)]> (heap s)) (<[t := SuspendLoad]> (threads s)).

(** [await_resume]: the guard is constructed and the awaiter destroyed. *)
Definition await_resume (t : addr) (s : sys) : sys :=
  Sys (state s) (awaiters s) (delete t (heap s)) (<[t := Holding]> (threads s)).

Definition suspend_loop (t : addr) (prev_state : word) (s : sys) : outcome sys :=
  if decide (NOT_LOCKED = prev_state) then Ret (goto t (AcquireCas prev_state) s)
  else
    a ← deref_word (heap s) (WAddr t);
    Ret (Sys (state s) (awaiters s) (<[t := Awaiter prev_state (awaiting_coro a)]> (heap s))
           (<[t := LinkCas prev_state]> (threads s))).

Definition acquire_cas (t : addr) (prev_state : word) (spurious : bool) (s : sys) : sys :=
  if decide (state s = prev_state /\ spurious = false)
  then await_resume t (Sys LOCKED_NO_WAITERS (awaiters s) (heap s) (threads s))
  else goto t (SuspendLoop (state s)) s.

Definition link_cas (t : addr) (prev_state : word) (spurious : bool) (s : sys) : sys :=
  if decide (state s = prev_state /\ spurious = false)
  then Sys (WAddr t) (awaiters s) (heap s) (<[t := Suspended]> (threads s))
  else goto t (SuspendLoop (state s)) s.

(** [~async_lock_guard()] calls [release()], which first reads [awaiters]. *)
Definition release (t : addr) (s : sys) : sys :=
  if decide (nullptr = awaiters s) then goto t ReleaseCas s else goto t (ReleaseResume (awaiters s)) s.

(** compare_exchange_strong *)
Definition release_cas (t : addr) (s : sys) : sys :=
  if decide (state s = LOCKED_NO_WAITERS)
  then Sys NOT_LOCKED (awaiters s) (heap s) (<[t := Released]> (threads s))
  else goto t ReleaseExchange s.

Definition release_exchange (t : addr) (s : sys) : sys :=
  Sys LOCKED_NO_WAITERS (awaiters s) (heap s) (<[t := ReleaseWalk (state s) nullptr]> (threads s)).

Definition release_walk (t : addr) (current head : word) (s : sys) : outcome sys :=
  a ← deref_word (heap s) current;
  match current with
  | WAddr c =>
    let tmp := next_awaiter a in
    Ret (Sys (state s) (awaiters s) (<[c := Awaiter head (awaiting_coro a)]> (heap s))
           (<[t := if decide (tmp = nullptr) then ReleaseResume current else ReleaseWalk tmp current]>
              (threads s)))
  | _ => Fault WildPointer
  end.

Definition release_resume (t : addr) (head : word) (s : sys) : outcome sys :=
  a ← deref_word (heap s) head;
  c ← or_fault NullDeref (awaiting_coro a);
  if decide (threads s !! c = Some Suspended) then
    Ret (goto t Released (await_resume c (Sys (state s) (next_awaiter a) (heap s) (threads s))))
  else Fault BadResume.

Definition step (t : addr) (spurious : bool) (s : sys) : option (outcome sys) :=
  match threads s !! t with
  | Some SuspendLoad => Some (Ret (goto t (SuspendLoop (state s)) s))
  | Some (SuspendLoop prev) => Some (suspend_loop t prev s)
  | Some (AcquireCas prev) => Some (Ret (acquire_cas t prev spurious s))
  | Some (LinkCas prev) => Some (Ret (link_cas t prev spurious s))
  | Some Holding => Some (Ret (release t s))
  | Some ReleaseCas => Some (Ret (release_cas t s))
  | Some ReleaseExchange => Some (Ret (release_exchange t s))
  | Some (ReleaseWalk current head) => Some (release_walk t current head s)
  | Some (ReleaseResume head) => Some (release_resume t head s)
  | Some (Suspended | Released) | None => None
  end.

Inductive lock_step : sys -> sys -> Prop :=
| Run s s' t spurious : step t spurious s = Some (Ret s') -> lock_step s s'
| StartAcquire s t : threads s !! t = None -> lock_step s (acquire t s).

Definition reachable (s : sys) : Prop := rtc lock_step async_lock s.

(** A thread running alone until it has no step to make. *)
Fixpoint run_thread (fuel : nat) (t : addr) (s : sys) : outcome sys :=
  match fuel with
  | O => Diverged
  | S fuel =>
    match step t false s with
    | None => Ret s
    | Some r => s ← r; run_thread fuel t s
    end
  end.

(** ** The invariant *)

Definition holder (p : pc) : Prop :=
  match p with
  | Holding | ReleaseCas | ReleaseExchange | ReleaseWalk _ _ | ReleaseResume _ => True
  | _ => False
  end.

Definition awaiting (p : pc) : Prop :=
  match p with SuspendLoad | SuspendLoop _ | AcquireCas _ | LinkCas _ | Suspended => True | _ => False end.

(** [stack h w l]: from the word [w] the awaiters [l] are linked, down to the
    value 1 that the first of them found in the lock word. *)
Fixpoint stack (h : gmap addr async_lock_awaiter) (w : word) (l : list addr) : Prop :=
  match l with
  | [] => w = W1
  | a :: l => w = WAddr a /\ exists x, h !! a = Some x /\ stack h (next_awaiter x) l
  end.

Lemma stack_frame h h' w l : (forall a, a ∈ l -> h' !! a = h !! a) -> stack h w l -> stack h' w l.
Proof.
  revert w. induction l as [|a l IH]; intros w Hf; cbn; [done|].
  intros (-> & x & Hx & H). split; [done|]. exists x. split; [rewrite Hf; [done|by left]|].
  apply IH; [|done]. intros b Hb. apply Hf. by right.
Qed.

Lemma stack_func h w l l' : stack h w l -> stack h w l' -> l = l'.
Proof.
  revert w l'. induction l as [|a l IH]; intros w [|b l']; cbn.
  - done.
  - intros -> [? _]. done.
  - intros [-> _] ?. done.
  - intros (-> & x & Hx & H) ([= <-] & y & Hy & H'). simplify_eq. f_equal. eauto.
Qed.

(** What links the word to the threads. *)
Record inv (s : sys) : Prop := {
  inv_awaiters : awaiters s = W0;
  inv_free : state s = W0 -> forall t p, threads s !! t = Some p -> ~ holder p;
  inv_held : state s <> W0 -> exists t p, threads s !! t = Some p /\ holder p;
  inv_unique t t' p p' : threads s !! t = Some p -> threads s !! t' = Some p' ->
    holder p -> holder p' -> t = t';
  inv_awaiter t p : threads s !! t = Some p -> awaiting p -> is_Some (heap s !! t);
  inv_acquire t prev : threads s !! t = Some (AcquireCas prev) -> prev = W0;
  inv_link t prev : threads s !! t = Some (LinkCas prev) -> prev <> W0 /\
    exists x, heap s !! t = Some x /\ next_awaiter x = prev;
  inv_stack : state s <> W0 -> exists l, stack (heap s) (state s) l /\
    forall c, c ∈ l -> threads s !! c = Some Suspended;
  inv_walk t cur hd : threads s !! t = Some (ReleaseWalk cur hd) ->
    exists l1 l2, stack (heap s) cur l1 /\ stack (heap s) (state s) l2 /\ NoDup (l1 ++ l2) /\
      forall c, c ∈ l1 ++ l2 -> threads s !! c = Some Suspended;
  inv_no_resume t hd : threads s !! t <> Some (ReleaseResume hd);
}.

Lemma lock_inv_init : inv async_lock.
Proof.
  split; cbn; try (intros; by rewrite lookup_empty in * ); try done.
Qed.

Lemma stack_NoDup h w l : stack h w l -> NoDup l.
Proof.
  revert w. induction l as [|a l IH]; intros w; [by constructor|].
  intros (-> & x & Hx & H). constructor; [|by eapply IH].
  intros (l1 & l2 & ->)%list_elem_of_split.
  assert (forall w l1, stack h w (l1 ++ a :: l2) -> stack h (WAddr a) (a :: l2)) as Hsuf.
  { clear. intros w l1. revert w. induction l1 as [|b l1 IH]; intros w; cbn.
    - intros (-> & x & Hx & H). eauto.
    - intros (_ & y & _ & H). by apply IH in H. }
  assert (stack h (WAddr a) (a :: l1 ++ a :: l2)) as H1 by (cbn; eauto).
  pose proof (stack_func _ _ _ _ H1 (Hsuf _ _ H)) as E%(f_equal length).
  cbn in E. rewrite length_app in E. cbn in E. lia.
Qed.

(** What the position of a thread says about the heap. *)
Definition pc_ok (t : addr) (p : pc) (h : gmap addr async_lock_awaiter) : Prop :=
  match p with
  | SuspendLoad | SuspendLoop _ => is_Some (h !! t)
  | AcquireCas prev => prev = W0 /\ is_Some (h !! t)
  | LinkCas prev => prev <> W0 /\ exists x, h !! t = Some x /\ next_awaiter x = prev
  | Suspended | ReleaseWalk _ _ | ReleaseResume _ => False
  | Holding | ReleaseCas | ReleaseExchange | Released => True
  end.

(** A thread moves without acquiring, releasing, suspending or walking. *)
Lemma lock_inv_move s t p h :
  inv s -> (forall q, threads s !! t = Some q -> q <> Suspended /\ (holder q <-> holder p)) ->
  (threads s !! t = None -> ~ holder p) ->
  pc_ok t p h -> (forall a, a <> t -> h !! a = heap s !! a) ->
  inv (Sys (state s) (awaiters s) h (<[t := p]> (threads s))).
Proof.
  intros [J1 J2 J3 J4 J5 J6 J7 J8 J9 J10] Hq Hnew Hok Hh.
  assert (forall u q, <[t := p]> (threads s) !! u = Some q -> u = t /\ q = p \/ u <> t /\ threads s !! u = Some q) as Hl.
  { intros u q [[<- <-]|[Hne E]]%lookup_insert_Some; [by left|right]. done. }
  assert (forall u q, <[t := p]> (threads s) !! u = Some q -> holder q -> exists q', threads s !! u = Some q' /\ holder q') as Hhold.
  { intros u q [[-> ->]|[Hu E]]%Hl Hp; [|eauto].
    destruct (threads s !! t) as [q'|] eqn:E; [|by destruct (Hnew eq_refl)].
    exists q'. split; [done|]. by apply (Hq q'). }
  assert (forall c, threads s !! c = Some Suspended -> c <> t) as Hs.
  { intros c E ->. by destruct (Hq _ E). }
  assert (forall c, threads s !! c = Some Suspended -> <[t := p]> (threads s) !! c = Some Suspended) as Hs'.
  { intros c E. rewrite lookup_insert_ne; [done|]. intros <-. by apply (Hs t). }
  assert (forall w l, stack (heap s) w l -> (forall c, c ∈ l -> threads s !! c = Some Suspended) -> stack h w l) as Hst.
  { intros w l C Hls. eapply stack_frame; [|exact C]. intros a Ha. by apply Hh, Hs, Hls. }
  split; cbn [state awaiters heap threads].
  - done.
  - intros E u q Eu Hp. destruct (Hhold _ _ Eu Hp) as (q' & Eq' & Hq'). by apply (J2 E u q').
  - intros E. destruct (J3 E) as (u & q & Eu & Hp). destruct (decide (u = t)) as [->|Hu].
    + exists t, p. rewrite lookup_insert_eq. split; [done|]. by apply (Hq q).
    + exists u, q. by rewrite lookup_insert_ne.
  - intros u u' q q' Eu Eu' Hp Hp'. destruct (Hhold _ _ Eu Hp) as (x & Ex & Hx).
    destruct (Hhold _ _ Eu' Hp') as (x' & Ex' & Hx'). eauto.
  - intros u q [[-> ->]|[Hu E]]%Hl Ha; [|rewrite Hh by done; eauto].
    destruct p; cbn in *; try done; [by destruct Hok|destruct Hok as [_ (x & -> & _)]; eauto].
  - intros u prev [[-> <-]|[Hu E]]%Hl; [by destruct Hok|eauto].
  - intros u prev [[-> <-]|[Hu E]]%Hl; [exact Hok|rewrite Hh by done; eauto].
  - intros E. destruct (J8 E) as (l & C & Hls). exists l. split; [by apply Hst|]. eauto.
  - intros u cur hd [[-> <-]|[Hu E]]%Hl; [destruct Hok|].
    destruct (J9 _ _ _ E) as (l1 & l2 & C1 & C2 & ND & Hls). exists l1, l2.
    split; [apply Hst; [done|intros c Hc; apply Hls; set_solver]|].
    split; [apply Hst; [done|intros c Hc; apply Hls; set_solver]|]. split; [done|]. eauto.
  - intros u hd [[-> <-]|[Hu E]]%Hl; [destruct Hok|by eapply J10].
Qed.

(** The free lock is taken. *)
Lemma inv_acquire_lock s t prev :
  inv s -> threads s !! t = Some (AcquireCas prev) -> state s = prev ->
  inv (await_resume t (Sys W1 (awaiters s) (heap s) (threads s))).
Proof.
  intros [J1 J2 J3 J4 J5 J6 J7 J8 J9 J10] Et Es. rewrite (J6 _ _ Et) in Es.
  pose proof (J2 Es) as Hfree.
  assert (forall u q, <[t := Holding]> (threads s) !! u = Some q -> u = t /\ q = Holding \/ u <> t /\ threads s !! u = Some q) as Hl.
  { intros u q [[<- <-]|[Hne E]]%lookup_insert_Some; [by left|right]. done. }
  split; cbn [state awaiters heap threads await_resume].
  - done.
  - done.
  - intros _. exists t, Holding. by rewrite lookup_insert_eq.
  - intros u u' q q' [[-> ->]|[Hu E]]%Hl [[-> ->]|[Hu' E']]%Hl Hp Hp'; try done; exfalso; by eapply Hfree.
  - intros u q [[-> ->]|[Hu E]]%Hl Ha; [done|]. rewrite lookup_delete_ne by done. eauto.
  - intros u q [[-> [=]]|[Hu E]]%Hl. eauto.
  - intros u q [[-> [=]]|[Hu E]]%Hl. rewrite lookup_delete_ne by done. eauto.
  - intros _. exists []. split; [done|]. by intros c ?%elem_of_nil.
  - intros u cur hd [[-> [=]]|[Hu E]]%Hl. by destruct (Hfree _ _ E).
  - intros u hd [[-> [=]]|[Hu E]]%Hl. by eapply J10.
Qed.

(** A waiter joins the stack. *)
Lemma inv_join s t prev :
  inv s -> threads s !! t = Some (LinkCas prev) -> state s = prev ->
  inv (Sys (WAddr t) (awaiters s) (heap s) (<[t := Suspended]> (threads s))).
Proof.
  intros [J1 J2 J3 J4 J5 J6 J7 J8 J9 J10] Et Es. destruct (J7 _ _ Et) as (Hp & x & Ex & Enx).
  assert (forall u q, <[t := Suspended]> (threads s) !! u = Some q -> u = t /\ q = Suspended \/ u <> t /\ threads s !! u = Some q) as Hl.
  { intros u q [[<- <-]|[Hne E]]%lookup_insert_Some; [by left|right]. done. }
  assert (forall c, threads s !! c = Some Suspended -> c <> t) as Hne by (intros c E ->; by simplify_eq).
  assert (forall c, threads s !! c = Some Suspended -> <[t := Suspended]> (threads s) !! c = Some Suspended) as Hs.
  { intros c E. rewrite lookup_insert_ne; [done|]. intros <-. by apply (Hne t). }
  assert (forall l, stack (heap s) (state s) l -> stack (heap s) (WAddr t) (t :: l)) as Hcons.
  { intros l C. split; [done|]. exists x. split; [done|]. by rewrite Enx, <- Es. }
  rewrite <- Es in Hp. split; cbn [state awaiters heap threads].
  - done.
  - done.
  - intros _. destruct (J3 Hp) as (u & q & Eu & Hq). exists u, q. rewrite lookup_insert_ne; [done|].
    intros <-. by simplify_eq.
  - intros u u' q q' [[-> ->]|[Hu E]]%Hl [[-> ->]|[Hu' E']]%Hl Hq Hq'; try done. eauto.
  - intros u q [[-> ->]|[Hu E]]%Hl Ha; eauto.
  - intros u q [[-> [=]]|[Hu E]]%Hl. eauto.
  - intros u q [[-> [=]]|[Hu E]]%Hl. eauto.
  - intros _. destruct (J8 Hp) as (l & C & Hls). exists (t :: l). split; [by apply Hcons|].
    intros c [->|Hc]%elem_of_cons; [apply lookup_insert_eq|by apply Hs, Hls].
  - intros u cur hd [[-> [=]]|[Hu E]]%Hl. destruct (J9 _ _ _ E) as (l1 & l2 & C1 & C2 & ND & Hls).
    exists l1, (t :: l2). split; [done|]. split; [by apply Hcons|]. split.
    + rewrite <- Permutation_middle. apply NoDup_cons. split; [|done]. intros Hin. by apply (Hne t); [apply Hls|].
    + intros c. rewrite elem_of_app, elem_of_cons. intros [Hc|[->|Hc]]; [|apply lookup_insert_eq|];
        apply Hs, Hls; set_solver.
  - intros u hd [[-> [=]]|[Hu E]]%Hl. by eapply J10.
Qed.

(** The lock is released: nobody waits. *)
Lemma inv_unlock s t :
  inv s -> threads s !! t = Some ReleaseCas ->
  inv (Sys W0 (awaiters s) (heap s) (<[t := Released]> (threads s))).
Proof.
  intros [J1 J2 J3 J4 J5 J6 J7 J8 J9 J10] Et.
  assert (forall u q, <[t := Released]> (threads s) !! u = Some q -> u = t /\ q = Released \/ u <> t /\ threads s !! u = Some q) as Hl.
  { intros u q [[<- <-]|[Hne E]]%lookup_insert_Some; [by left|right]. done. }
  assert (forall u q, threads s !! u = Some q -> holder q -> u = t) as Hu by (intros u q E Hq; by eapply J4).
  split; cbn [state awaiters heap threads].
  - done.
  - intros _ u q [[-> ->]|[Hne E]]%Hl Hq; [done|]. by apply Hne, (Hu _ _ E).
  - done.
  - intros u u' q q' [[-> ->]|[Hne E]]%Hl [[-> ->]|[Hne' E']]%Hl Hq Hq'; try done. eauto.
  - intros u q [[-> ->]|[Hne E]]%Hl Ha; [done|eauto].
  - intros u q [[-> [=]]|[Hne E]]%Hl. eauto.
  - intros u q [[-> [=]]|[Hne E]]%Hl. eauto.
  - done.
  - intros u cur hd [[-> [=]]|[Hne E]]%Hl. exfalso. by apply Hne, (Hu _ _ E).
  - intros u hd [[-> [=]]|[Hne E]]%Hl. by eapply J10.
Qed.

(** The stack is detached, to be walked by the releasing thread. *)
Lemma inv_exchange s t :
  inv s -> threads s !! t = Some ReleaseExchange -> inv (release_exchange t s).
Proof.
  intros [J1 J2 J3 J4 J5 J6 J7 J8 J9 J10] Et.
  assert (state s <> W0) as Hne0 by (intros E; by apply (J2 E _ _ Et)).
  assert (forall u q, <[t := ReleaseWalk (state s) nullptr]> (threads s) !! u = Some q ->
    u = t /\ q = ReleaseWalk (state s) nullptr \/ u <> t /\ threads s !! u = Some q) as Hl.
  { intros u q [[<- <-]|[Hne E]]%lookup_insert_Some; [by left|right]. done. }
  assert (forall u q, threads s !! u = Some q -> holder q -> u = t) as Hu by (intros u q E Hq; by eapply J4).
  destruct (J8 Hne0) as (l & C & Hls). unfold release_exchange.
  split; cbn [state awaiters heap threads].
  - done.
  - done.
  - intros _. exists t, (ReleaseWalk (state s) nullptr). by rewrite lookup_insert_eq.
  - intros u u' q q' [[-> ->]|[Hne E]]%Hl [[-> ->]|[Hne' E']]%Hl Hq Hq'; try done; [..|by eauto];
      exfalso; eauto.
  - intros u q [[-> ->]|[Hne E]]%Hl Ha; [done|eauto].
  - intros u q [[-> [=]]|[Hne E]]%Hl. eauto.
  - intros u q [[-> [=]]|[Hne E]]%Hl. eauto.
  - intros _. exists []. split; [done|]. by intros c ?%elem_of_nil.
  - intros u cur hd [[-> [= -> ->]]|[Hne E]]%Hl; [|exfalso; by apply Hne, (Hu _ _ E)].
    exists l, []. rewrite app_nil_r. split; [done|]. split; [done|]. split; [by eapply stack_NoDup|].
    intros c Hc. rewrite lookup_insert_ne; [by apply Hls|]. intros <-. apply Hls in Hc. by simplify_eq.
  - intros u hd [[-> [=]]|[Hne E]]%Hl. by eapply J10.
Qed.

(** One turn of the reversal loop never sees a null [next_awaiter]. *)
Lemma lock_inv_walk_step s t cur hd s' :
  inv s -> threads s !! t = Some (ReleaseWalk cur hd) -> release_walk t cur hd s = Ret s' -> inv s'.
Proof.
  intros Hinv Et E. pose proof Hinv as [J1 J2 J3 J4 J5 J6 J7 J8 J9 J10].
  destruct (J9 _ _ _ Et) as (l1 & l2 & C1 & C2 & ND & Hls).
  destruct l1 as [|c l1]; cbn in C1; [subst cur; done|].
  destruct C1 as (-> & x & Ex & C1). unfold release_walk in E. cbn in E. rewrite Ex in E. cbn in E.
  injection E as <-. cbn in ND. apply NoDup_cons in ND as [Hc ND].
  apply not_elem_of_app in Hc as [Hc1 Hc2].
  assert (next_awaiter x <> W0) as Hx by (intros E; rewrite E in C1; destruct l1; cbn in C1; [done|by destruct C1]).
  rewrite decide_False by done.
  assert (threads s !! c = Some Suspended) as Esus by (apply Hls; by left).
  assert (c <> t) as Hct by (intros ->; by simplify_eq).
  assert (forall u q, <[t := ReleaseWalk (next_awaiter x) (WAddr c)]> (threads s) !! u = Some q ->
    u = t /\ q = ReleaseWalk (next_awaiter x) (WAddr c) \/ u <> t /\ threads s !! u = Some q) as Hl.
  { intros u q [[<- <-]|[Hne E]]%lookup_insert_Some; [by left|right]. done. }
  assert (forall u q, threads s !! u = Some q -> holder q -> u = t) as Hu by (intros u q E Hq; by eapply J4).
  assert (forall w l, c ∉ l -> stack (heap s) w l ->
            stack (<[c := Awaiter hd (awaiting_coro x)]> (heap s)) w l) as Hst.
  { intros w l Hcl. apply stack_frame. intros a Ha. apply lookup_insert_ne. by intros ->. }
  assert (forall a, a ∈ l1 ++ l2 -> <[t := ReleaseWalk (next_awaiter x) (WAddr c)]> (threads s) !! a = Some Suspended) as Hsus.
  { intros a Ha. assert (threads s !! a = Some Suspended) as Ea by (apply Hls; by right).
    rewrite lookup_insert_ne; [done|]. intros <-. by simplify_eq. }
  split; cbn [state awaiters heap threads].
  - done.
  - intros E u q _ _. by apply (J2 E _ _ Et).
  - intros _. exists t, (ReleaseWalk (next_awaiter x) (WAddr c)). by rewrite lookup_insert_eq.
  - intros u u' q q' [[-> ->]|[Hne E]]%Hl [[-> ->]|[Hne' E']]%Hl Hq Hq'; try done; [..|by eauto];
      exfalso; eauto.
  - intros u q [[-> ->]|[Hne E]]%Hl Ha; [done|]. apply lookup_insert_is_Some'. right. eauto.
  - intros u q [[-> [=]]|[Hne E]]%Hl. eauto.
  - intros u q [[-> [=]]|[Hne E]]%Hl. rewrite lookup_insert_ne; [eauto|]. intros <-. by simplify_eq.
  - intros _. exists l2. split; [by apply Hst|]. intros a Ha. apply Hsus. apply elem_of_app. by right.
  - intros u cur' hd' [[-> [= -> ->]]|[Hne E]]%Hl; [|exfalso; by apply Hne, (Hu _ _ E)].
    exists l1, l2. split; [by apply Hst|]. split; [by apply Hst|]. done.
  - intros u hd' [[-> [=]]|[Hne E]]%Hl. by eapply J10.
Qed.

Lemma lock_step_inv s t spurious s' : inv s -> step t spurious s = Some (Ret s') -> inv s'.
Proof.
  intros Hinv E. pose proof Hinv as [J1 J2 J3 J4 J5 J6 J7 J8 J9 J10]. unfold step in E.
  destruct (threads s !! t) as [p|] eqn:Et; [|done].
  assert (forall p', p <> Suspended -> (holder p <-> holder p') ->
    forall q, threads s !! t = Some q -> q <> Suspended /\ (holder q <-> holder p')) as Hmv.
  { intros p' Hp Hh q Eq. by simplify_eq. }
  assert (threads s !! t = None -> False) as Hsome by (by rewrite Et).
  destruct p as [|prev|prev|prev| | | | |cur hd|hd|]; try discriminate E; injection E as E.
  - subst s'. apply lock_inv_move; try done; [by apply Hmv|by eapply J5].
  - unfold suspend_loop in E. pose proof (J5 _ _ Et I) as [x Ex]. case_decide as Hd.
    + injection E as <-. apply lock_inv_move; [done|by apply Hmv|done|by split; [|exists x]|done].
    + cbn in E. rewrite Ex in E. injection E as <-. apply lock_inv_move; [done|by apply Hmv|done| |].
      * split; [done|]. eexists. by rewrite lookup_insert_eq.
      * intros a Ha. by apply lookup_insert_ne.
  - subst s'. unfold acquire_cas. case_decide as Hd.
    + destruct Hd as [Hd _]. by eapply inv_acquire_lock.
    + apply lock_inv_move; try done; [by apply Hmv|by eapply J5].
  - subst s'. unfold link_cas. case_decide as Hd.
    + destruct Hd as [Hd _]. by eapply inv_join.
    + apply lock_inv_move; try done; [by apply Hmv|by eapply J5].
  - subst s'. unfold release. rewrite decide_True by done. apply lock_inv_move; try done. by apply Hmv.
  - subst s'. unfold release_cas. case_decide as Hd; [by apply inv_unlock|].
    apply lock_inv_move; try done. by apply Hmv.
  - subst s'. by apply inv_exchange.
  - by eapply lock_inv_walk_step.
  - by destruct (J10 _ _ Et).
Qed.

Lemma lock_steps_inv s s' : inv s -> lock_step s s' -> inv s'.
Proof.
  intros Hinv Hs. destruct Hs as [s s' t spurious E|s t E]; [by eapply lock_step_inv|].
  apply lock_inv_move; try done.
  - intros q Eq. by rewrite E in Eq.
  - intros _ [].
  - cbn. rewrite lookup_insert_eq. by eexists.
  - intros a Ha. by apply lookup_insert_ne.
Qed.

Lemma lock_reachable_inv s : reachable s -> inv s.
Proof.
  intros Hr. pose proof lock_inv_init as Hi. revert Hi.
  induction Hr as [|s1 s2 s3 Hs _ IH]; [done|]. intros Hi. by apply IH, (lock_steps_inv s1).
Qed.

(** Suspended coroutines have no step, and nobody resumes them. *)
Lemma suspended_step s s' c : inv s -> lock_step s s' ->
  threads s !! c = Some Suspended -> threads s' !! c = Some Suspended.
Proof.
  intros Hinv Hs Hc. destruct Hs as [s s' t spurious E|s t E];
    [|cbn; rewrite lookup_insert_ne; [done|]; intros <-; by simplify_eq].
  assert (t <> c) as Htc by (intros ->; unfold step in E; by rewrite Hc in E).
  unfold step in E. destruct (threads s !! t) as [p|] eqn:Et; [|done].
  assert (forall p' st aw h, threads (Sys st aw h (<[t := p']> (threads s))) !! c = Some Suspended) as Hok.
  { intros. cbn. by rewrite lookup_insert_ne. }
  destruct p as [|prev|prev|prev| | | | |cur hd|hd|]; try discriminate E; injection E as E; try subst s'.
  - apply Hok.
  - unfold suspend_loop in E. case_decide; [injection E as <-; apply Hok|].
    apply bind_Ret_inv in E as (x & _ & [= <-]). apply Hok.
  - unfold acquire_cas. case_decide; apply Hok.
  - unfold link_cas. case_decide; apply Hok.
  - unfold release. case_decide; apply Hok.
  - unfold release_cas. case_decide; apply Hok.
  - apply Hok.
  - unfold release_walk in E. apply bind_Ret_inv in E as (x & _ & E). destruct cur; try done.
    injection E as <-. apply Hok.
  - by destruct (inv_no_resume _ Hinv _ _ Et).
Qed.

(** The walk of the releasing thread runs off the end of the stack. *)
Lemma walk_faults t : forall l s cur hd,
  threads s !! t = Some (ReleaseWalk cur hd) -> stack (heap s) cur l -> (forall c, c ∈ l -> c <> t) ->
  run_thread (S (length l)) t s = Fault WildPointer.
Proof.
  induction l as [|c l IH]; intros s cur hd Et C Hne.
  - cbn in C. subst cur. cbn. unfold step. by rewrite Et.
  - pose proof (stack_NoDup _ _ _ C) as [Hc _]%NoDup_cons. destruct C as (-> & x & Ex & C).
    change (run_thread (S (length (c :: l))) t s) with
      (match step t false s with None => Ret s | Some r => s' ← r; run_thread (S (length l)) t s' end).
    unfold step. rewrite Et. unfold release_walk. cbn [deref_word]. rewrite Ex. cbn [or_fault]. run_bind.
    assert (next_awaiter x <> W0) as Hx by (intros E; rewrite E in C; destruct l; cbn in C; [done|by destruct C]).
    rewrite decide_False by done. eapply IH.
    + cbn. apply lookup_insert_eq.
    + cbn. eapply stack_frame; [|exact C]. intros a Ha. apply lookup_insert_ne. by intros ->.
    + intros a Ha. apply Hne. by right.
Qed.

(** ** Theorems *)

(** C13. Mutual exclusion: whatever the interleaving, at most one coroutine owns
    the lock (from the acquisition to the end of [release]), and the lock word
    shows it as held. *)
Theorem lock_mutual_exclusion s t t' p p' :
  reachable s -> threads s !! t = Some p -> threads s !! t' = Some p' -> holder p -> holder p' ->
  t = t' /\ state s <> NOT_LOCKED.
Proof.
  intros Hr%lock_reachable_inv Et Et' Hp Hp'. split; [by eapply inv_unique|].
  intros E. by apply (inv_free _ Hr E _ _ Et).
Qed.

(** Without contention a coroutine acquires a free lock without suspending
    and its guard releases it: running alone from [acquire] to the end of
    [release] it leaves the lock free again. *)
Theorem lock_uncontended_round_trip s t :
  reachable s -> state s = NOT_LOCKED -> threads s !! t = None ->
  exists s', run_thread 6 t (acquire t s) = Ret s' /\ state s' = NOT_LOCKED /\
    threads s' !! t = Some Released /\ heap s' = delete t (heap s).
Proof.
  intros Hr%lock_reachable_inv Es Et. pose proof (inv_awaiters _ Hr) as Haw.
  destruct s as [st aw h th]. cbn in *. subst st aw.
  cbn [run_thread]. unfold step, acquire, goto, suspend_loop, acquire_cas, release, release_cas, await_resume.
  do 6 (cbn [threads state awaiters heap goto]; rewrite ?lookup_insert_eq; rewrite ?decide_True by done; run_bind).
  eexists. split; [done|]. cbn. rewrite lookup_insert_eq. split; [done|]. split; [done|].
  by rewrite delete_insert_eq.
Qed.

(** A contended [release] is undefined: if anybody waits when the holder
    releases, the loop that reverses the stack of waiters runs past the first
    waiter, whose link is the value 1 of the lock word, and dereferences it. *)
Theorem lock_contended_release_faults s t :
  reachable s -> threads s !! t = Some Holding -> state s <> LOCKED_NO_WAITERS ->
  exists n, run_thread n t s = Fault WildPointer.
Proof.
  intros Hr%lock_reachable_inv Et Hst.
  assert (state s <> W0) as Hst0 by (intros E; by apply (inv_free _ Hr E _ _ Et)).
  destruct (inv_stack _ Hr Hst0) as (l & C & Hl). exists (S (S (S (S (length l))))).
  pose proof (inv_awaiters _ Hr) as Haw.
  change (run_thread (S (S (S (S (length l))))) t s) with
    (match step t false s with None => Ret s | Some r => s' ← r;
       match step t false s' with None => Ret s' | Some r => s' ← r;
         match step t false s' with None => Ret s' | Some r => s' ← r; run_thread (S (length l)) t s' end end end).
  unfold step at 1. rewrite Et. unfold release. rewrite decide_True by done. run_bind.
  unfold step at 1. cbn [threads goto]. rewrite lookup_insert_eq. unfold release_cas. cbn [state goto].
  rewrite decide_False by done. run_bind.
  unfold step at 1. cbn [threads goto]. rewrite lookup_insert_eq. run_bind.
  eapply walk_faults.
  - cbn. apply lookup_insert_eq.
  - exact C.
  - intros c Hc ->. apply Hl in Hc. by simplify_eq.
Qed.

(** C14. A coroutine that has suspended on the lock is never resumed, in any
    continuation of any interleaving: the only operation that could resume it,
    the [release] of the holder, runs past the end of the list of waiters (whose
    first link is the lock word's 1) before it gets there. *)
Theorem lock_waiters_never_resumed s s' c :
  reachable s -> threads s !! c = Some Suspended -> rtc lock_step s s' ->
  threads s' !! c = Some Suspended.
Proof.
  intros Hi%lock_reachable_inv Hc Hr. revert Hi Hc. induction Hr as [|s1 s2 s3 Hs _ IH]; [done|].
  intros Hi Hc. apply IH; [by apply (lock_steps_inv s1)|by apply (suspended_step s1)].
Qed.

(** ** Witnesses *)

Inductive event := EAcquire (t : addr) | ERun (t : addr).

Fixpoint exec (es : list event) (s : sys) : outcome sys :=
  match es with
  | [] => Ret s
  | EAcquire t :: es =>
    if decide (threads s !! t = None) then exec es (acquire t s) else Fault AssertionFailed
  | ERun t :: es => s ← (match step t false s with Some r => r | None => Ret s end); exec es s
  end.

Lemma lock_exec_steps es : forall s s', exec es s = Ret s' -> rtc lock_step s s'.
Proof.
  induction es as [|e es IH]; intros s s' E; [injection E as <-; apply rtc_refl|].
  destruct e; cbn [exec] in E.
  - case_decide as Hd; [|done]. eapply rtc_l; [by constructor|by apply IH].
  - apply bind_Ret_inv in E as (s1 & E1 & E).
    destruct (step t false s) as [r|] eqn:Er; [|injection E1 as <-; by apply IH].
    subst r. eapply rtc_l; [by eapply Run|by apply IH].
Qed.

(** Coroutine 1 holds the lock and coroutine 2 has suspended on it. *)
Definition contended : sys :=
  match exec [EAcquire 1; ERun 1; ERun 1; ERun 1; EAcquire 2; ERun 2; ERun 2; ERun 2]%positive async_lock with
  | Ret s => s | _ => async_lock end.

Lemma contended_reachable : reachable contended.
Proof.
  apply (lock_exec_steps [EAcquire 1; ERun 1; ERun 1; ERun 1; EAcquire 2; ERun 2; ERun 2; ERun 2]%positive).
  vm_compute. reflexivity.
Qed.

Lemma lock_mutual_exclusion_witness :
  threads contended !! 1%positive = Some Holding /\
  1%positive = 1%positive /\ state contended <> NOT_LOCKED.
Proof.
  split; [reflexivity|].
  apply (lock_mutual_exclusion contended 1 1 Holding Holding);
    [exact contended_reachable|reflexivity|reflexivity|exact I|exact I].
Defined.

Lemma lock_uncontended_round_trip_witness :
  exists s', run_thread 6 7 (acquire 7 async_lock) = Ret s' /\ state s' = NOT_LOCKED /\
    threads s' !! 7%positive = Some Released /\ heap s' = delete 7%positive (heap async_lock).
Proof.
  apply (lock_uncontended_round_trip async_lock 7); [apply rtc_refl|reflexivity|reflexivity].
Defined.

Lemma lock_contended_release_faults_witness :
  threads contended !! 2%positive = Some Suspended /\
  exists n, run_thread n 1 contended = Fault WildPointer.
Proof.
  split; [reflexivity|].
  apply (lock_contended_release_faults contended 1);
    [exact contended_reachable|reflexivity|vm_compute; discriminate].
Defined.

Lemma lock_waiters_never_resumed_witness :
  threads contended !! 2%positive = Some Suspended /\
  forall s', rtc lock_step contended s' -> threads s' !! 2%positive = Some Suspended.
Proof.
  split; [reflexivity|]. intros s' Hs.
  apply (lock_waiters_never_resumed contended s' 2); [exact contended_reachable|reflexivity|exact Hs].
Defined.
End AsyncLock.
