(* ===== verification/Task.v ===== *)
(** * Task: libcoro/include/libcoro/task.hpp

    [coro::task<T>] ([coro::eager_task<T>] in eager_task.hpp is the same text
    under another name): a coroutine that starts when it is called, stores its
    result or exception in its promise, and hands control to the coroutine that
    awaited it. The handshake between completion and awaiting goes through one
    atomic flag, which both sides exchange with [true].

    Coroutine bodies are trees: what a body does next, as a function of what it
    has received. Frames live in a heap; [resume] runs the coroutine at an
    address, and the coroutines it transfers control to, until they suspend. *)

From S2P Require Import Prelude.

Module Task.
Section Task.
Context {T : Type}.

(** ** Data *)

(** A coroutine body of type [task<T>]: it returns, throws, suspends on some
    awaitable of which only the later resumption matters, or awaits a task. *)
Inductive body :=
| Return (v : T)
| Throw (e : exn)
| Pause (k : body)
| Await (c : ptr) (k : T -> body).

(** The result union of [task_promise], with its tag. *)
Inductive result_union := Empty | Value (v : T) | Exception (e : exn).

Record task_promise := Promise {
  continuation_handle : ptr;
  state : bool;
  result : result_union;
}.

(** Where the coroutine is suspended. *)
Inductive point :=
| Running
| AtPause (k : body)                 (* at the pause, before [k] *)
| AtAwait (c : ptr) (k : T -> body)  (* in the [await_suspend] of task [c] *)
| AtFinal.                           (* [done()] *)

Record frame := Frame { promise : task_promise; at_point : point }.

Abbreviation heap := (gmap addr frame).

Definition new_promise : task_promise := Promise null false Empty.

Definition done (f : frame) : bool := match at_point f with AtFinal => true | _ => false end.

(** ** The promise *)

Definition return_value (v : T) (p : task_promise) : task_promise :=
  Promise (continuation_handle p) (state p) (Value v).

Definition unhandled_exception (e : exn) (p : task_promise) : task_promise :=
  Promise (continuation_handle p) (state p) (Exception e).

(** [result()]: rethrows, or asserts that there is a value. *)
Definition get_result (p : task_promise) : outcome T :=
  match result p with
  | Exception e => Raise e
  | Value v => Ret v
  | Empty => Fault AssertionFailed
  end.

(** [try_set_continuation]: store the handle, exchange the flag with true. *)
Definition try_set_continuation (h : ptr) (p : task_promise) : task_promise * bool :=
  (Promise h true (result p), negb (state p)).

(** [final_awaitable::await_suspend]: exchange the flag with true; the
    continuation is resumed if the flag was set. *)
Definition final_exchange (p : task_promise) : task_promise * option ptr :=
  (Promise (continuation_handle p) true (result p),
   if state p then Some (continuation_handle p) else None).

(** ** The awaitable *)

(** [await_ready]: an invalid handle, or a coroutine that is done. *)
Definition await_ready (c : ptr) (h : heap) : outcome bool :=
  match c with
  | None => Ret true
  | Some a => f ← or_fault Dangling (h !! a); Ret (done f)
  end.

(** [await_resume]: the exception of the task is rethrown in the awaiting body. *)
Definition await_resume (c : ptr) (h : heap) : outcome T :=
  match c with
  | None => Raise (RuntimeError "broken promise")
  | Some a => f ← or_fault Dangling (h !! a); get_result (promise f)
  end.

Definition set_point (a : addr) (p : point) (h : heap) : outcome heap :=
  f ← or_fault Dangling (h !! a);
  Ret (<[a := Frame (promise f) p]> h).

Definition update_promise (a : addr) (g : task_promise -> task_promise) (h : heap) : outcome heap :=
  f ← or_fault Dangling (h !! a);
  Ret (<[a := Frame (g (promise f)) (at_point f)]> h).

(** The body of an awaiting coroutine after [await_resume]. *)
Definition resumed_body (r : outcome T) (k : T -> body) : outcome body :=
  match r with
  | Ret v => Ret (k v)
  | Raise e => Ret (Throw e)
  | Fault f => Fault f
  | Diverged => Diverged
  end.

(** A coroutine whose [await_suspend] has returned [false] goes on; it must still
    be suspended there. *)
Definition wake (a : addr) (h : heap) : outcome heap :=
  f ← or_fault Dangling (h !! a);
  match at_point f with
  | AtAwait _ _ => Ret (<[a := Frame (promise f) Running]> h)
  | _ => Fault BadResume
  end.

(** ** Execution *)

(** [run fuel a b h]: the coroutine at [a] executes [b] until it suspends.
    [resume fuel a h]: [coroutine_handle::resume()]. *)
Fixpoint run (fuel : nat) (a : addr) (b : body) (h : heap) : outcome heap :=
  match fuel with
  | O => Diverged
  | S fuel =>
    let resume (a : addr) (h : heap) : outcome heap :=
      f ← or_fault Dangling (h !! a);
      match at_point f with
      | AtPause k => h ← set_point a Running h; run fuel a k h
      | AtAwait c k =>
        b ← resumed_body (await_resume c h) k;
        h ← set_point a Running h; run fuel a b h
      | Running | AtFinal => Fault BadResume
      end in
    let finish (g : task_promise -> task_promise) : outcome heap :=
      h ← update_promise a g h;
      h ← set_point a AtFinal h;
      f ← or_fault Dangling (h !! a);
      let '(p, continuation) := final_exchange (promise f) in
      h ← update_promise a (fun _ => p) h;
      match continuation with
      | None => Ret h
      | Some c => c ← or_fault NullDeref c; resume c h
      end in
    match b with
    | Return v => finish (return_value v)
    | Throw e => finish (unhandled_exception e)
    | Pause k => set_point a (AtPause k) h
    | Await c k =>
      ready ← await_ready c h;
      if (ready : bool) then
        b ← resumed_body (await_resume c h) k;
        run fuel a b h
      else
        (* await_suspend *)
        h ← set_point a (AtAwait c k) h;
        c' ← or_fault NullDeref c;
        h ← resume c' h;
        f ← or_fault Dangling (h !! c');
        let '(p, should_return_to_caller) := try_set_continuation (Some a) (promise f) in
        h ← update_promise c' (fun _ => p) h;
        if (should_return_to_caller : bool) then Ret h
        else
          b ← resumed_body (await_resume c h) k;
          h ← wake a h; run fuel a b h
    end
  end.

Definition resume (fuel : nat) (a : addr) (h : heap) : outcome heap :=
  f ← or_fault Dangling (h !! a);
  match at_point f with
  | AtPause k => h ← set_point a Running h; run fuel a k h
  | AtAwait c k =>
    b ← resumed_body (await_resume c h) k;
    h ← set_point a Running h; run fuel a b h
  | Running | AtFinal => Fault BadResume
  end.

(** A call of the coroutine: the frame is created, [initial_suspend] is
    [suspend_never], so the body runs at once; the task holds the handle. *)
Definition call (fuel : nat) (b : body) (h : heap) : outcome (addr * heap) :=
  let a := fresh (dom h) in
  h ← run fuel a b (<[a := Frame new_promise Running]> h);
  Ret (a, h).

(** ** The task object: its handle *)

Abbreviation task := ptr.

Definition destroy (a : addr) (h : heap) : outcome heap :=
  f ← or_fault DoubleDestroy (h !! a); Ret (delete a h).

(** [~task()] *)
Definition task_destructor (t : task) (h : heap) : outcome heap :=
  match t with Some a => destroy a h | None => Ret h end.

(** [task(task&&)]: the new task and what is left of the source. *)
Definition task_move (t : task) : task * task := (t, null).

(** [operator=(task&&)] on two different objects. *)
Definition task_move_assign (dst src : task) (h : heap) : outcome (task * task * heap) :=
  h ← task_destructor dst h; Ret (src, null, h).

Definition is_ready (t : task) (h : heap) : outcome bool := await_ready t h.

(** [task::resume()] *)
Definition task_resume (fuel : nat) (t : task) (h : heap) : outcome (bool * heap) :=
  f ← deref h t;
  a ← or_fault NullDeref t;
  h ← (if done f then Ret h else resume fuel a h);
  f ← deref h t;
  Ret (negb (done f), h).

Lemma set_point_eq a p h f :
  h !! a = Some f -> set_point a p h = Ret (<[a := Frame (promise f) p]> h).
Proof. unfold set_point. by intros ->. Qed.

Lemma update_promise_eq a g h f :
  h !! a = Some f -> update_promise a g h = Ret (<[a := Frame (g (promise f)) (at_point f)]> h).
Proof. unfold update_promise. by intros ->. Qed.

Lemma wake_eq a h p c k :
  h !! a = Some (Frame p (AtAwait c k)) -> wake a h = Ret (<[a := Frame p Running]> h).
Proof. unfold wake. by intros ->. Qed.

Lemma resume_pause fuel a h p k :
  h !! a = Some (Frame p (AtPause k)) -> resume fuel a h = run fuel a k (<[a := Frame p Running]> h).
Proof. intros E. unfold resume. rewrite E. cbn. by rewrite (set_point_eq _ _ _ _ E). Qed.

(** Awaiting, in terms of [resume]. *)
Lemma run_Await fuel a c k h :
  run (S fuel) a (Await c k) h =
  (ready ← await_ready c h;
   if (ready : bool) then b ← resumed_body (await_resume c h) k; run fuel a b h
   else
     h ← set_point a (AtAwait c k) h;
     c' ← or_fault NullDeref c;
     h ← resume fuel c' h;
     f ← or_fault Dangling (h !! c');
     h ← update_promise c' (fun _ => fst (try_set_continuation (Some a) (promise f))) h;
     if snd (try_set_continuation (Some a) (promise f)) then Ret h
     else b ← resumed_body (await_resume c h) k; h ← wake a h; run fuel a b h).
Proof. reflexivity. Qed.

(** ** Completion *)

(** How a body can end. *)
Definition ending : Type := T + exn.
Definition end_body (r : ending) : body := match r with inl v => Return v | inr e => Throw e end.
Definition end_union (r : ending) : result_union := match r with inl v => Value v | inr e => Exception e end.
Definition end_map (g : T -> T) (r : ending) : ending := match r with inl v => inl (g v) | inr e => inr e end.

Definition completed (p : task_promise) (r : ending) : frame :=
  Frame (Promise (continuation_handle p) true (end_union r)) AtFinal.

(** Nobody has awaited the task yet. *)
Lemma run_end_unawaited fuel a r p h :
  h !! a = Some (Frame p Running) -> state p = false ->
  run (S fuel) a (end_body r) h = Ret (<[a := completed p r]> h).
Proof.
  intros E Es. destruct r as [v|e]; cbn; unfold update_promise, set_point; rewrite E; cbn;
    repeat (rewrite lookup_insert_eq; cbn); rewrite Es, !insert_insert_eq; done.
Qed.

(** The coroutine at [c] awaits the task. *)
Lemma run_end_awaited fuel a c r p q g h :
  a <> c -> h !! a = Some (Frame p Running) -> state p = true -> continuation_handle p = Some c ->
  h !! c = Some (Frame q (AtAwait (Some a) (fun v => Return (g v)))) ->
  run (S fuel) a (end_body r) h =
  run fuel c (end_body (end_map g r)) (<[c := Frame q Running]> (<[a := completed p r]> h)).
Proof.
  intros Hac E Es Ec Eq. destruct r as [v|e]; cbn; unfold update_promise, set_point; rewrite E; cbn;
    repeat (rewrite lookup_insert_eq; cbn); rewrite Es, Ec, !insert_insert_eq; cbn; rewrite lookup_insert_ne, Eq by done; cbn;
    rewrite lookup_insert_eq; cbn; unfold completed; by rewrite ?Ec.
Qed.

Fixpoint pauses (n : nat) (b : body) : body :=
  match n with O => b | S n => Pause (pauses n b) end.

(** Resuming a coroutine [n] times from outside. *)
Fixpoint resume_times (n : nat) (fuel : nat) (a : addr) (h : heap) : outcome heap :=
  match n with O => Ret h | S n => h ← resume fuel a h; resume_times n fuel a h end.

(** A task that is awaited: what remains of it, and who waits. *)
Definition awaited (a c : addr) (b : body) (g : T -> T) (h : heap) : Prop :=
  exists q, h !! c = Some (Frame (Promise (Some a) true Empty) (AtPause b)) /\
    h !! a = Some (Frame q (AtAwait (Some c) (fun v => Return (g v)))) /\ state q = false.

Lemma resume_awaited fuel a c n r g h :
  a <> c -> awaited a c (pauses n (end_body r)) g h ->
  exists h', resume_times (S n) (S (S fuel)) c h = Ret h' /\
    (exists q, h' !! a = Some (completed q (end_map g r))) /\ (exists q, h' !! c = Some (completed q r)).
Proof.
  intros Hac. revert h. induction n as [|n IH]; intros h (q & Ec & Ea & Es).
  - cbn [pauses] in Ec. cbn [resume_times]. unfold resume. rewrite Ec. cbn [or_fault]. run_bind. cbn [at_point].
    unfold set_point. rewrite Ec. cbn [or_fault]. run_bind. cbn [promise].
    rewrite (run_end_awaited _ c a r (Promise (Some a) true Empty) q g); try done;
      [|apply lookup_insert_eq|by rewrite lookup_insert_ne].
    rewrite (run_end_unawaited _ a _ q); [|apply lookup_insert_eq|done]. run_bind.
    eexists. split; [done|]. split.
    + exists q. apply lookup_insert_eq.
    + eexists. rewrite !lookup_insert_ne by done. apply lookup_insert_eq.
  - change (resume_times (S (S n)) (S (S fuel)) c h) with
      (h ← resume (S (S fuel)) c h; resume_times (S n) (S (S fuel)) c h).
    unfold resume at 1. rewrite Ec. cbn [or_fault]. run_bind. cbn [at_point pauses].
    unfold set_point. rewrite Ec. cbn [or_fault]. run_bind. cbn [promise].
    cbn [run]. unfold set_point. rewrite lookup_insert_eq. cbn [or_fault]. run_bind. cbn [promise].
    apply IH. exists q. split; [apply lookup_insert_eq|]. by rewrite !lookup_insert_ne.
Qed.

(** C15. A task delivers: let a coroutine await a task that still has to be
    resumed [n] times after the first resumption, which awaiting performs
    itself. Exactly the [n]th later resumption completes both: the value the
    task returned reaches the awaiting body, and an exception it threw is
    rethrown there. When [n = 0] the awaiting coroutine does not suspend. *)
Theorem task_delivers_result fuel c h n r g :
  h !! c = Some (Frame new_promise (AtPause (pauses n (end_body r)))) ->
  exists a h1 h2, call (S (S (S fuel))) (Await (Some c) (fun v => Return (g v))) h = Ret (a, h1) /\
    resume_times n (S (S fuel)) c h1 = Ret h2 /\
    (exists q, h2 !! a = Some (completed q (end_map g r))) /\
    (exists q, h2 !! c = Some (completed q r)) /\
    (0 < n -> exists f, h1 !! a = Some f /\ done f = false)%nat.
Proof.
  intros Ec. unfold call. set (a := fresh (dom h)).
  assert (a <> c) as Hac.
  { intros E. apply (is_fresh (dom h)). fold a. rewrite E. by eapply elem_of_dom_2. }
  exists a. rewrite run_Await. unfold await_ready. rewrite lookup_insert_ne, Ec by done.
  cbn [or_fault]. run_bind. cbn [done at_point].
  rewrite (set_point_eq a _ _ (Frame new_promise Running)), insert_insert_eq by apply lookup_insert_eq.
  run_bind. rewrite (resume_pause _ c _ new_promise (pauses n (end_body r))) by by rewrite lookup_insert_ne.
  cbn [promise]. set (fa := Frame new_promise (AtAwait (Some c) (fun v => Return (g v)))).
  destruct n as [|n].
  - cbn [pauses]. rewrite (run_end_unawaited _ c r new_promise), insert_insert_eq by (done || apply lookup_insert_eq).
    run_bind. rewrite lookup_insert_eq. cbn [or_fault]. run_bind.
    rewrite (update_promise_eq c _ _ (completed new_promise r)), insert_insert_eq by apply lookup_insert_eq.
    run_bind. cbn [try_set_continuation promise completed state negb snd fst result at_point].
    unfold await_resume. rewrite lookup_insert_eq. cbn [or_fault]. run_bind. cbn [promise].
    assert (resumed_body (get_result (Promise (Some a) true (end_union r))) (fun v => Return (g v))
            = Ret (end_body (end_map g r))) as -> by by destruct r. run_bind.
    rewrite (wake_eq a _ new_promise (Some c) (fun v => Return (g v))) by (rewrite lookup_insert_ne by done; apply lookup_insert_eq). run_bind.
    rewrite (run_end_unawaited _ a _ new_promise) by (done || apply lookup_insert_eq). run_bind.
    eexists _, _. split; [done|]. split; [done|]. split; [|split; [|lia]].
    + exists new_promise. apply lookup_insert_eq.
    + exists (Promise (Some a) true (end_union r)). rewrite !lookup_insert_ne by done. apply lookup_insert_eq.
  - cbn [pauses]. set (k := pauses n (end_body r)).
    assert (run (S (S fuel)) c (Pause k) (<[c := Frame new_promise Running]> (<[a := fa]> h))
            = Ret (<[c := Frame new_promise (AtPause k)]> (<[a := fa]> h))) as ->.
    { cbn [run]. by rewrite (set_point_eq c _ _ _ (lookup_insert_eq _ _ _)), insert_insert_eq. }
    run_bind. rewrite lookup_insert_eq. cbn [or_fault]. run_bind.
    rewrite (update_promise_eq c _ _ (Frame new_promise (AtPause k))), insert_insert_eq by apply lookup_insert_eq.
    run_bind. cbn [try_set_continuation promise new_promise state negb snd fst result at_point].
    set (h1 := <[c := Frame (Promise (Some a) true Empty) (AtPause k)]> (<[a := fa]> h)).
    assert (h1 !! a = Some fa) as Ea by (unfold h1; by rewrite lookup_insert_ne, lookup_insert_eq).
    destruct (resume_awaited fuel a c n r g h1 Hac) as (h2 & E2 & Ha & Hc).
    { exists new_promise. split; [apply lookup_insert_eq|done]. }
    exists h1, h2. split; [done|]. split; [done|]. split; [done|]. split; [done|].
    intros _. by exists fa.
Qed.

(** A task has one awaiter, and it must not itself be waiting: awaiting a
    task resumes it, so if that task is suspended in its own [co_await] of a
    task that has not finished, it takes a result that is not there and the
    assertion of [result()] fails. *)
Theorem await_of_waiting_task_asserts fuel c d p q pt k k' h :
  h !! c = Some (Frame p (AtAwait (Some d) k)) -> h !! d = Some (Frame q pt) -> result q = Empty ->
  call (S fuel) (Await (Some c) k') h = Fault AssertionFailed.
Proof.
  intros Ec Ed Eq. unfold call. set (a := fresh (dom h)).
  assert (forall x f, h !! x = Some f -> a <> x) as Hne.
  { intros x f E Ea. apply (is_fresh (dom h)). fold a. rewrite Ea. by eapply elem_of_dom_2. }
  pose proof (Hne _ _ Ec). pose proof (Hne _ _ Ed).
  rewrite run_Await. unfold await_ready. rewrite lookup_insert_ne, Ec by done. cbn [or_fault]. run_bind.
  cbn [done at_point].
  rewrite (set_point_eq a _ _ (Frame new_promise Running)), insert_insert_eq by apply lookup_insert_eq.
  run_bind. unfold resume. rewrite lookup_insert_ne, Ec by done. cbn [or_fault]. run_bind. cbn [at_point].
  unfold await_resume. rewrite lookup_insert_ne, Ed by done. cbn [or_fault]. run_bind. cbn [promise].
  unfold get_result. by rewrite Eq.
Qed.

(** A second coroutine that awaits the same unfinished task does not
    suspend: the task is resumed once more, the flag is already set, and the
    assertion of [result()] fails. *)
Theorem second_await_asserts fuel c p k k' h :
  h !! c = Some (Frame p (AtPause (Pause k))) -> state p = true -> result p = Empty ->
  call (S (S fuel)) (Await (Some c) k') h = Fault AssertionFailed.
Proof.
  intros Ec Es Er. unfold call. set (a := fresh (dom h)).
  assert (a <> c) as Hac.
  { intros Ea. apply (is_fresh (dom h)). fold a. rewrite Ea. by eapply elem_of_dom_2. }
  rewrite run_Await. unfold await_ready. rewrite lookup_insert_ne, Ec by done. cbn [or_fault]. run_bind.
  cbn [done at_point].
  rewrite (set_point_eq a _ _ (Frame new_promise Running)), insert_insert_eq by apply lookup_insert_eq.
  run_bind. rewrite (resume_pause _ c _ p (Pause k)) by by rewrite lookup_insert_ne.
  cbn [run]. rewrite (set_point_eq c _ _ (Frame p Running)), insert_insert_eq by apply lookup_insert_eq. run_bind.
  rewrite lookup_insert_eq. cbn [or_fault]. run_bind.
  rewrite (update_promise_eq c _ _ (Frame p (AtPause k))), insert_insert_eq by apply lookup_insert_eq.
  run_bind. cbn [try_set_continuation promise state negb snd fst result at_point]. rewrite Es. cbn [negb].
  unfold await_resume. rewrite lookup_insert_eq. cbn [or_fault]. run_bind. cbn [promise].
  unfold get_result. cbn [result]. by rewrite Er.
Qed.

(** ** The handshake between two threads

    [try_set_continuation] in the awaiting thread stores the handle and then
    exchanges the flag; [final_awaitable::await_suspend] in the completing
    thread exchanges the flag and then reads the handle. *)

Inductive awaiter_pc := AStore | AExchange | ASuspended | AContinues.
Inductive completer_pc := CExchange | CResume | CDone (resumed : option ptr).

Record handshake := Handshake { hs_promise : task_promise; hs_awaiter : awaiter_pc; hs_completer : completer_pc }.

Inductive handshake_step (h : ptr) : handshake -> handshake -> Prop :=
| HStore p c : handshake_step h (Handshake p AStore c)
    (Handshake (Promise h (state p) (result p)) AExchange c)
| HExchange p c : handshake_step h (Handshake p AExchange c)
    (Handshake (Promise (continuation_handle p) true (result p))
       (if state p then AContinues else ASuspended) c)
| HComplete p a : handshake_step h (Handshake p a CExchange)
    (Handshake (Promise (continuation_handle p) true (result p)) a
       (if state p then CResume else CDone None))
| HResume p a : handshake_step h (Handshake p a CResume)
    (Handshake p a (CDone (Some (continuation_handle p)))).

Definition handshake_ok (h : ptr) (s : handshake) : Prop :=
  match hs_awaiter s, hs_completer s with
  | AStore, CExchange => state (hs_promise s) = false
  | AStore, CDone None => state (hs_promise s) = true
  | AExchange, CExchange => state (hs_promise s) = false /\ continuation_handle (hs_promise s) = h
  | AExchange, CDone None => state (hs_promise s) = true
  | ASuspended, CExchange => state (hs_promise s) = true /\ continuation_handle (hs_promise s) = h
  | ASuspended, CResume => continuation_handle (hs_promise s) = h
  | ASuspended, CDone (Some x) => x = h
  | AContinues, CDone None => True
  | _, _ => False
  end.

Lemma handshake_step_ok h s s' : handshake_step h s s' -> handshake_ok h s -> handshake_ok h s'.
Proof.
  intros [p c|p c|p a|p a]; unfold handshake_ok; cbn.
  - destruct c as [| |[x|]]; try done. 
  - destruct c as [| |[x|]]; try done; [intros [-> ->]; done|intros ->; done].
  - destruct a; try done; [intros ->; done|intros [-> _]; done|intros [-> ->]; done].
  - destruct a; try done.
Qed.

(** The handshake resumes the awaiting coroutine exactly once, whatever the
    interleaving: when both sides are through, either the awaiting side saw the
    flag and goes on by itself while the completing side resumed nothing, or it
    has suspended and the completing side has resumed its handle. *)
Theorem handshake_exactly_once h q s :
  rtc (handshake_step h) (Handshake (Promise q false Empty) AStore CExchange) s ->
  (forall s', ~ handshake_step h s s') ->
  (hs_awaiter s = AContinues /\ hs_completer s = CDone None) \/
  (hs_awaiter s = ASuspended /\ hs_completer s = CDone (Some h)).
Proof.
  intros Hr Hstop.
  assert (handshake_ok h s) as Hok.
  { remember (Handshake (Promise q false Empty) AStore CExchange) as s0 eqn:E0.
    assert (handshake_ok h s0) as H0 by by subst s0. clear E0 Hstop. revert H0.
    induction Hr as [|s1 s2 s3 Hs _ IH]; [done|]. intros H1. by apply IH, (handshake_step_ok h s1). }
  destruct s as [p a c]. unfold handshake_ok in Hok. cbn in *.
  destruct a, c as [| |[x|]]; try done; try (by destruct (Hstop _ (HStore h p _)));
    try (by destruct (Hstop _ (HExchange h p _))); try (by destruct (Hstop _ (HComplete h p _)));
    try (by destruct (Hstop _ (HResume h p _))); [subst x; by right|by left].
Qed.
End Task.
Arguments body : clear implicits.
Arguments frame : clear implicits.
Arguments task_promise : clear implicits.

(** ** Witnesses *)

(** A task that pauses three times and then returns 7. *)
Definition demo_heap : gmap addr (frame Z) :=
  {[ 1%positive := Frame new_promise (AtPause (pauses 2 (Return 7%Z))) ]}.

Lemma task_delivers_result_witness :
  exists a h1 h2,
    call 5 (Await (Some 1%positive) (fun v => Return (v + 1)%Z)) demo_heap = Ret (a, h1) /\
    resume_times 2 4 1 h1 = Ret h2 /\
    (exists q, h2 !! a = Some (completed q (inl 8%Z))) /\
    (exists q, h2 !! 1%positive = Some (completed q (inl 7%Z))) /\
    (0 < 2 -> exists f, h1 !! a = Some f /\ done f = false).
Proof.
  apply (task_delivers_result 2 1 demo_heap 2 (inl 7%Z) (fun v => v + 1)%Z). reflexivity.
Defined.

Definition waiting_heap : gmap addr (frame Z) :=
  {[ 1%positive := Frame (Promise (Some 2%positive) true Empty) (AtPause (Pause (Return 7%Z)));
     2%positive := Frame new_promise (AtAwait (Some 1%positive) (fun v => Return v)) ]}.

Lemma await_of_waiting_task_asserts_witness :
  waiting_heap !! 2%positive = Some (Frame new_promise (AtAwait (Some 1%positive) (fun v => Return v))) /\
  call 5 (Await (Some 2%positive) (fun v => Return v)) waiting_heap = Fault AssertionFailed.
Proof.
  split; [reflexivity|].
  apply (await_of_waiting_task_asserts 4 2 1 new_promise (Promise (Some 2%positive) true Empty)
           (AtPause (Pause (Return 7%Z))) (fun v => Return v) (fun v => Return v) waiting_heap); reflexivity.
Defined.

Lemma second_await_asserts_witness :
  waiting_heap !! 1%positive = Some (Frame (Promise (Some 2%positive) true Empty) (AtPause (Pause (Return 7%Z)))) /\
  call 5 (Await (Some 1%positive) (fun v => Return v)) waiting_heap = Fault AssertionFailed.
Proof.
  split; [reflexivity|].
  apply (second_await_asserts 3 1 (Promise (Some 2%positive) true Empty) (Return 7%Z) (fun v => Return v) waiting_heap);
    reflexivity.
Defined.

Lemma handshake_exactly_once_witness :
  (AContinues = AContinues /\ CDone None = CDone None) \/ (AContinues = ASuspended /\ CDone None = CDone (Some (Some 9%positive))).
Proof.
  apply (handshake_exactly_once (T := Z) (Some 9%positive) null
           (Handshake (Promise (Some 9%positive) true Empty) AContinues (CDone None))).
  - eapply rtc_l; [apply HComplete|]. eapply rtc_l; [apply HStore|]. eapply rtc_l; [apply HExchange|]. apply rtc_refl.
  - intros s' Hs. inversion Hs.
Defined.
End Task.
