(* ===== verification/EagerTask.v ===== *)
(** * EagerTask: libcoro/include/libcoro/eager_task.hpp

    [coro::eager_task<void>], the coroutine type of the timer programs. Its text
    is that of [coro::task] (see Task for tasks with a value); what differs for
    [void] is the promise, which holds an exception or nothing: [result()]
    cannot tell a task that has returned from one that is still running.
    [EagerPromise] is the promise of tasks with a value, down to the objects
    that live in its union. *)

From S2P Require Import Prelude.

Module EagerTask.

(** ** Data *)

(** A coroutine body: it returns, throws, suspends on some awaitable of which
    only the later resumption matters, or awaits a task. *)
Inductive body :=
| Return
| Throw (e : exn)
| Pause (k : body)
| Await (c : ptr) (k : body).

Record eager_task_promise := Promise {
  continuation_handle : ptr;
  state : bool;
  exception : option exn;
}.

(** Where the coroutine is suspended. *)
Inductive point := Running | AtPause (k : body) | AtAwait (c : ptr) (k : body) | AtFinal.

Record frame := Frame { promise : eager_task_promise; at_point : point }.

Abbreviation heap := (gmap addr frame).

Definition new_promise : eager_task_promise := Promise null false None.

Definition done (f : frame) : bool := match at_point f with AtFinal => true | _ => false end.

(** ** The promise *)

Definition return_void (p : eager_task_promise) : eager_task_promise := p.

Definition unhandled_exception (e : exn) (p : eager_task_promise) : eager_task_promise :=
  Promise (continuation_handle p) (state p) (Some e).

(** [result()] *)
Definition get_result (p : eager_task_promise) : outcome unit :=
  match exception p with Some e => Raise e | None => Ret tt end.

Definition try_set_continuation (h : ptr) (p : eager_task_promise) : eager_task_promise * bool :=
  (Promise h true (exception p), negb (state p)).

(** [final_awaitable::await_suspend]: the continuation is resumed if the flag
    was set. *)
Definition final_exchange (p : eager_task_promise) : eager_task_promise * option ptr :=
  (Promise (continuation_handle p) true (exception p),
   if state p then Some (continuation_handle p) else None).

(** ** The awaitable *)

Definition await_ready (c : ptr) (h : heap) : outcome bool :=
  match c with
  | None => Ret true
  | Some a => f ← or_fault Dangling (h !! a); Ret (done f)
  end.

Definition await_resume (c : ptr) (h : heap) : outcome unit :=
  match c with
  | None => Raise (RuntimeError "broken promise")
  | Some a => f ← or_fault Dangling (h !! a); get_result (promise f)
  end.

(** The body of an awaiting coroutine after [await_resume]. *)
Definition resumed_body (r : outcome unit) (k : body) : outcome body :=
  match r with
  | Ret _ => Ret k
  | Raise e => Ret (Throw e)
  | Fault f => Fault f
  | Diverged => Diverged
  end.

Definition set_point (a : addr) (p : point) (h : heap) : outcome heap :=
  f ← or_fault Dangling (h !! a);
  Ret (<[a := Frame (promise f) p]> h).

Definition update_promise (a : addr) (g : eager_task_promise -> eager_task_promise) (h : heap) : outcome heap :=
  f ← or_fault Dangling (h !! a);
  Ret (<[a := Frame (g (promise f)) (at_point f)]> h).

(** A coroutine whose [await_suspend] has returned [false] goes on; it must still
    be suspended there. *)
Definition wake (a : addr) (h : heap) : outcome heap :=
  f ← or_fault Dangling (h !! a);
  match at_point f with
  | AtAwait _ _ => Ret (<[a := Frame (promise f) Running]> h)
  | _ => Fault BadResume
  end.

(** ** Execution *)

(** [coroutine_handle::resume()], given how bodies run *)
Definition resume_with (run : addr -> body -> heap -> outcome heap) (a : addr) (h : heap) : outcome heap :=
  f ← or_fault Dangling (h !! a);
  match at_point f with
  | AtPause k => h ← set_point a Running h; run a k h
  | AtAwait c k =>
    b ← resumed_body (await_resume c h) k;
    h ← set_point a Running h; run a b h
  | Running | AtFinal => Fault BadResume
  end.

(** The end of a body: the promise is told, and [final_awaitable] awaited. *)
Definition finish_with (run : addr -> body -> heap -> outcome heap) (a : addr)
    (g : eager_task_promise -> eager_task_promise) (h : heap) : outcome heap :=
  h ← update_promise a g h;
  h ← set_point a AtFinal h;
  f ← or_fault Dangling (h !! a);
  let '(p, continuation) := final_exchange (promise f) in
  h ← update_promise a (fun _ => p) h;
  match continuation with
  | None => Ret h
  | Some c => c ← or_fault NullDeref c; resume_with run c h
  end.

(** The coroutine at [a] executes [b] until it suspends. Awaiting a task that is
    not ready resumes it ([await_suspend]), whatever it is suspended on. *)
Fixpoint run (fuel : nat) (a : addr) (b : body) (h : heap) : outcome heap :=
  match fuel with
  | O => Diverged
  | S fuel =>
    match b with
    | Return => finish_with (run fuel) a return_void h
    | Throw e => finish_with (run fuel) a (unhandled_exception e) h
    | Pause k => set_point a (AtPause k) h
    | Await c k =>
      ready ← await_ready c h;
      if (ready : bool) then
        b ← resumed_body (await_resume c h) k;
        run fuel a b h
      else
        h ← set_point a (AtAwait c k) h;
        c' ← or_fault NullDeref c;
        h ← resume_with (run fuel) c' h;
        f ← or_fault Dangling (h !! c');
        let '(p, should_return_to_caller) := try_set_continuation (Some a) (promise f) in
        h ← update_promise c' (fun _ => p) h;
        if (should_return_to_caller : bool) then Ret h
        else
          b ← resumed_body (await_resume c h) k;
          h ← wake a h; run fuel a b h
    end
  end.

Definition resume (fuel : nat) : addr -> heap -> outcome heap := resume_with (run fuel).

(** A call of the coroutine: [initial_suspend] is [suspend_never]. *)
Definition call (fuel : nat) (b : body) (h : heap) : outcome (addr * heap) :=
  let a := fresh (dom h) in
  h ← run fuel a b (<[a := Frame new_promise Running]> h);
  Ret (a, h).

(** ** The task object: its handle *)

Abbreviation eager_task := ptr.

Definition task_destructor (t : eager_task) (h : heap) : outcome heap :=
  match t with
  | Some a => _ ← or_fault DoubleDestroy (h !! a); Ret (delete a h)
  | None => Ret h
  end.

(** [eager_task(eager_task&&)]: the new task and what is left of the source. *)
Definition task_move (t : eager_task) : eager_task * eager_task := (t, null).

(** [operator=(eager_task&&)] on two different objects. *)
Definition task_move_assign (dst src : eager_task) (h : heap) : outcome (eager_task * eager_task * heap) :=
  h ← task_destructor dst h; Ret (src, null, h).

Definition is_ready (t : eager_task) (h : heap) : outcome bool := await_ready t h.

(** [resume()] of the task *)
Definition task_resume (fuel : nat) (t : eager_task) (h : heap) : outcome (bool * heap) :=
  f ← deref h t;
  a ← or_fault NullDeref t;
  h ← (if done f then Ret h else resume fuel a h);
  f ← deref h t;
  Ret (negb (done f), h).

(** ** Steps of execution *)

Lemma eager_set_point_eq a p h f :
  h !! a = Some f -> set_point a p h = Ret (<[a := Frame (promise f) p]> h).
Proof. unfold set_point. by intros ->. Qed.

Lemma eager_update_promise_eq a g h f :
  h !! a = Some f -> update_promise a g h = Ret (<[a := Frame (g (promise f)) (at_point f)]> h).
Proof. unfold update_promise. by intros ->. Qed.

Lemma eager_wake_eq a h p c k :
  h !! a = Some (Frame p (AtAwait c k)) -> wake a h = Ret (<[a := Frame p Running]> h).
Proof. unfold wake. by intros ->. Qed.

(** How a body can end. *)
Definition end_body (r : option exn) : body := match r with Some e => Throw e | None => Return end.
Definition ended (p : eager_task_promise) (r : option exn) : frame :=
  Frame (Promise (continuation_handle p) true (match r with Some e => Some e | None => exception p end)) AtFinal.

(** The end of a body: the frame is final, and whoever has awaited the task is
    resumed. *)
Lemma run_end fuel a r p h :
  h !! a = Some (Frame p Running) ->
  run (S fuel) a (end_body r) h =
  if state p then c ← or_fault NullDeref (continuation_handle p); resume fuel c (<[a := ended p r]> h)
  else Ret (<[a := ended p r]> h).
Proof.
  intros E. destruct r as [e|]; cbn [run end_body]; unfold finish_with;
    rewrite (eager_update_promise_eq a _ _ _ E); run_bind; rewrite (eager_set_point_eq a _ _ _ (lookup_insert_eq _ _ _)), insert_insert_eq;
    run_bind; rewrite lookup_insert_eq; cbn [or_fault]; run_bind; cbn [final_exchange promise at_point];
    rewrite (eager_update_promise_eq a _ _ _ (lookup_insert_eq _ _ _)), insert_insert_eq; run_bind; unfold ended, return_void; cbn;
    by destruct (state p).
Qed.

Lemma eager_resume_pause fuel a h p k :
  h !! a = Some (Frame p (AtPause k)) -> resume fuel a h = run fuel a k (<[a := Frame p Running]> h).
Proof. intros E. unfold resume, resume_with. rewrite E. cbn [or_fault]. run_bind. cbn [at_point]. by rewrite (eager_set_point_eq _ _ _ _ E). Qed.

(** Awaiting, in terms of [resume]. *)
Lemma run_await fuel a c k h :
  run (S fuel) a (Await c k) h =
  (ready ← await_ready c h;
   if (ready : bool) then b ← resumed_body (await_resume c h) k; run fuel a b h
   else
     h ← set_point a (AtAwait c k) h;
     c' ← or_fault NullDeref c;
     h ← resume fuel c' h;
     f ← or_fault Dangling (h !! c');
     h ← update_promise c' (fun _ => fst (try_set_continuation (Some a) (promise f))) h;
     if snd (try_set_continuation (Some a) (promise f)) then Ret h
     else b ← resumed_body (await_resume c h) k; h ← wake a h; run fuel a b h).
Proof. reflexivity. Qed.

(** A coroutine that awaits a task goes on with that task's result - even if
    there is none yet. *)
Lemma resume_await fuel a c k h p f :
  h !! a = Some (Frame p (AtAwait (Some c) k)) -> h !! c = Some f ->
  resume fuel a h =
  run fuel a (match exception (promise f) with Some e => Throw e | None => k end) (<[a := Frame p Running]> h).
Proof.
  intros Ea Ec. unfold resume, resume_with. rewrite Ea. cbn [or_fault]. run_bind. cbn [at_point await_resume].
  rewrite Ec. cbn [or_fault]. run_bind. unfold get_result. rewrite (eager_set_point_eq _ _ _ _ Ea).
  by destruct (exception (promise f)).
Qed.

(** ** Theorems *)

(** An exception in a task that nobody awaits is lost: the call returns
    normally, with the exception in the promise, and the destructor of the task
    destroys both. *)
Theorem unawaited_exception_lost fuel e h :
  exists a h', call (S (S fuel)) (Throw e) h = Ret (a, h') /\
    exception ∘ promise <$> h' !! a = Some (Some e) /\ task_destructor (Some a) h' = Ret h.
Proof.
  unfold call. set (a := fresh (dom h)).
  assert (h !! a = None) as Ha by (apply not_elem_of_dom, is_fresh).
  change (Throw e) with (end_body (Some e)). rewrite (run_end (S fuel) a (Some e) new_promise) by apply lookup_insert_eq.
  cbn [state new_promise]. run_bind. exists a. eexists. split; [done|]. rewrite insert_insert_eq, lookup_insert_eq.
  split; [done|]. cbn. rewrite lookup_insert_eq. cbn. by rewrite delete_insert_id.
Qed.

(** A task that is awaited delivers: when the task [c], that a coroutine [a]
    awaits, ends, [a] is resumed at once; it goes on after its [co_await], or
    with the exception of [c], and ends. *)
Theorem eager_task_delivers fuel a c p q r h :
  a <> c -> h !! c = Some (Frame p (AtPause (end_body r))) -> state p = true -> continuation_handle p = Some a ->
  exception p = None ->
  h !! a = Some (Frame q (AtAwait (Some c) Return)) -> state q = false -> exception q = None ->
  resume (S (S fuel)) c h = Ret (<[a := ended q r]> (<[c := ended p r]> h)).
Proof.
  intros Hac Ec Es Eh Ee Ea Eq Ex. rewrite (eager_resume_pause _ c h p _ Ec), (run_end (S fuel) c r p) by apply lookup_insert_eq.
  rewrite Es, Eh. cbn [or_fault]. run_bind. rewrite insert_insert_eq.
  rewrite (resume_await (S fuel) a c Return _ q (ended p r)) by (rewrite ?lookup_insert_ne by done; done || apply lookup_insert_eq).
  assert (match exception (promise (ended p r)) with Some e => Throw e | None => Return end = end_body r) as ->.
  { destruct r; cbn; [done|by rewrite Ee]. }
  rewrite (run_end fuel a r q) by apply lookup_insert_eq. by rewrite Eq, insert_insert_eq.
Qed.

(** Awaiting a task that is itself waiting for another resumes it too early:
    without a value there is no assertion to fail, so the awaited task goes on
    as if its own task had finished, and so does the caller. When that task ends
    at last, it resumes a coroutine that is over. *)
Theorem early_resume_corrupts fuel b c p q h :
  h !! c = Some (Frame p (AtAwait (Some b) Return)) -> state p = false -> exception p = None ->
  h !! b = Some (Frame q (AtPause Return)) -> state q = true -> continuation_handle q = Some c -> exception q = None -> b <> c ->
  exists a h', call (S (S (S fuel))) (Await (Some c) Return) h = Ret (a, h') /\
    done <$> h' !! a = Some true /\ done <$> h' !! c = Some true /\ done <$> h' !! b = Some false /\
    resume (S (S fuel)) b h' = Fault BadResume.
Proof.
  intros Ec Es Ee Eb Es' Eh Ee' Hbc. unfold call. set (a := fresh (dom h)).
  assert (forall x f, h !! x = Some f -> a <> x) as Hne.
  { intros x f E Ea. apply (is_fresh (dom h)). fold a. rewrite Ea. by eapply elem_of_dom_2. }
  pose proof (Hne _ _ Ec). pose proof (Hne _ _ Eb). exists a.
  rewrite run_await. unfold await_ready. rewrite lookup_insert_ne, Ec by done. cbn [or_fault]. run_bind. cbn [done at_point].
  rewrite (eager_set_point_eq a _ _ (Frame new_promise Running)), insert_insert_eq by apply lookup_insert_eq. run_bind.
  rewrite (resume_await (S (S fuel)) c b Return _ p (Frame q (AtPause Return))) by by rewrite lookup_insert_ne.
  cbn [promise]. rewrite Ee'. change Return with (end_body None) at 2.
  rewrite (run_end (S fuel) c None p) by apply lookup_insert_eq. rewrite Es, insert_insert_eq. run_bind.
  rewrite lookup_insert_eq. cbn [or_fault]. run_bind. cbn [try_set_continuation promise ended state negb fst snd].
  rewrite (eager_update_promise_eq c _ _ (ended p None)), insert_insert_eq by apply lookup_insert_eq. run_bind.
  cbn [at_point ended]. cbn [await_resume]. rewrite lookup_insert_eq. cbn [or_fault]. run_bind.
  unfold get_result. cbn [promise exception]. rewrite Ee. cbn [resumed_body]. run_bind.
  rewrite (eager_wake_eq a _ new_promise (Some c) Return) by (rewrite lookup_insert_ne by done; apply lookup_insert_eq).
  run_bind. change Return with (end_body None) at 1. rewrite (run_end (S fuel) a None new_promise) by apply lookup_insert_eq.
  cbn [state new_promise]. run_bind. eexists. split; [done|]. rewrite !insert_insert_eq, lookup_insert_eq.
  split; [done|]. rewrite lookup_insert_ne, lookup_insert_eq by done. split; [done|].
  rewrite !lookup_insert_ne, Eb by done. split; [done|].
  rewrite (eager_resume_pause _ b _ q Return) by by rewrite !lookup_insert_ne.
  change Return with (end_body None) at 1. rewrite (run_end (S fuel) b None q) by apply lookup_insert_eq.
  rewrite Es', Eh. cbn [or_fault]. run_bind. unfold resume, resume_with.
  rewrite !(lookup_insert_ne _ b c), lookup_insert_ne, lookup_insert_eq by done. done.
Qed.

(** ** Witnesses *)

(** The task 1 is paused and awaited by the task 2. *)
Definition demo_heap : heap :=
  {[ 1%positive := Frame (Promise (Some 2%positive) true None) (AtPause Return);
     2%positive := Frame new_promise (AtAwait (Some 1%positive) Return) ]}.

Lemma eager_task_delivers_witness :
  resume 2 1 demo_heap =
  Ret (<[2%positive := ended new_promise None]> (<[1%positive := ended (Promise (Some 2%positive) true None) None]> demo_heap)).
Proof.
  apply (eager_task_delivers 0 2 1 (Promise (Some 2%positive) true None) new_promise None demo_heap); done.
Defined.

Lemma early_resume_corrupts_witness :
  exists a h', call 3 (Await (Some 2%positive) Return) demo_heap = Ret (a, h') /\
    done <$> h' !! a = Some true /\ done <$> h' !! 2%positive = Some true /\ done <$> h' !! 1%positive = Some false /\
    resume 2 1 h' = Fault BadResume.
Proof.
  apply (early_resume_corrupts 0 1 2 new_promise (Promise (Some 2%positive) true None) demo_heap); done.
Defined.
End EagerTask.

(** * The promise of tasks with a value: its union and its tag *)

Module EagerPromise.
Section Promise.

(** [T{std::forward<Value>(value_)}], from a value of the type [A] *)
Context {T A : Type} (construct : A -> outcome T).

Inductive ResultType := ResultEmpty | ResultValue | ResultException.

(** The object that lives in the union, if any *)
Inductive union := Raw | LiveValue (v : T) | LiveException (e : exn).

(** The promise, and how many values and exception pointers that were
    constructed in its union have not been destroyed *)
Record state := State { result_type : ResultType; storage : union; values : nat; exceptions : nat }.

Definition eager_task_promise : state := State ResultEmpty Raw 0 0.

(** Placement new ends the life of what the union holds without a destructor. *)
Definition return_value (a : A) (s : state) : outcome state :=
  v ← construct a;
  Ret (State ResultValue (LiveValue v) (S (values s)) (exceptions s)).

Definition unhandled_exception (e : exn) (s : state) : state :=
  State ResultException (LiveException e) (values s) (S (exceptions s)).

Definition result (s : state) : outcome T :=
  match result_type s, storage s with
  | ResultException, LiveException e => Raise e
  | ResultException, _ => Fault Uninitialised
  | ResultValue, LiveValue v => Ret v
  | ResultValue, _ => Fault Uninitialised
  | ResultEmpty, _ => Fault AssertionFailed
  end.

Definition destructor (s : state) : outcome state :=
  match result_type s, storage s with
  | ResultValue, LiveValue _ => Ret (State ResultValue Raw (pred (values s)) (exceptions s))
  | ResultException, LiveException _ => Ret (State ResultException Raw (values s) (pred (exceptions s)))
  | ResultEmpty, _ => Ret s
  | _, _ => Fault BadDestroy
  end.

(** ** The end of a coroutine body *)

(** [co_return a], after which the destructors of the locals run - one of them
    may throw -, or an exception that leaves the body. *)
Inductive ending := CoReturn (a : A) (cleanup : option exn) | Throws (e : exn).

(** The body runs in a try block whose handler is [unhandled_exception()]; an
    exception out of a destructor while another one unwinds terminates. *)
Definition finish (b : ending) (s : state) : outcome state :=
  match b with
  | Throws e => Ret (unhandled_exception e s)
  | CoReturn a cleanup =>
    match return_value a s with
    | Ret s => Ret (match cleanup with Some e => unhandled_exception e s | None => s end)
    | Raise e => match cleanup with Some _ => Fault Terminated | None => Ret (unhandled_exception e s) end
    | Fault f => Fault f
    | Diverged => Diverged
    end
  end.

(** ** Theorems *)

(** The tag says what lives in the union, and nothing else is alive. *)
Definition well_tagged (s : state) : Prop :=
  match result_type s, storage s with
  | ResultEmpty, Raw => values s = 0 /\ exceptions s = 0
  | ResultValue, LiveValue _ => values s = 1 /\ exceptions s = 0
  | ResultException, LiveException _ => values s = 0 /\ exceptions s = 1
  | _, _ => False
  end.

(** What whoever awaits the task gets. *)
Definition outcome_of (b : ending) : outcome T :=
  match b with
  | Throws e => Raise e
  | CoReturn a cleanup => v ← construct a; match cleanup with Some e => Raise e | None => Ret v end
  end.

(** However the body ends - with a value, with an exception, or with one that
    the construction of the value throws -, the tag agrees with the union, the
    result is the body's, as often as it is asked for, and the destructor of the
    promise destroys what lives in it, and only that. *)
Theorem promise_union_sound b s :
  (forall a e, b = CoReturn a (Some e) -> False) -> finish b eager_task_promise = Ret s ->
  well_tagged s /\ result s = outcome_of b /\
  exists s', destructor s = Ret s' /\ values s' = 0 /\ exceptions s' = 0.
Proof.
  intros Hb E. destruct b as [a [e|]|e]; cbn in E; [by destruct (Hb a e)| |].
  - unfold return_value in E. cbn. destruct (construct a) as [v|e| |]; try done; injection E as <-; by repeat split; eexists.
  - injection E as <-. by repeat split; eexists.
Qed.

(** When the destructor of a local throws after [co_return] has stored its
    value, the exception is constructed over the live value: the tag and the
    result are those of the exception, and nobody destroys the value. *)
Theorem promise_value_leaks a v e :
  construct a = Ret v ->
  exists s s', finish (CoReturn a (Some e)) eager_task_promise = Ret s /\ result s = Raise e /\
    destructor s = Ret s' /\ values s' = 1 /\ exceptions s' = 0.
Proof. intros E. unfold finish, return_value. rewrite E. cbn. eexists _, _. eauto. Qed.
End Promise.

Lemma promise_union_sound_witness :
  let s := State (T := Z) ResultException (LiveException (RuntimeError "copy")) 0 1 in
  well_tagged s /\ result s = Raise (RuntimeError "copy") /\
  exists s', destructor s = Ret s' /\ values s' = 0 /\ exceptions s' = 0.
Proof.
  intros s.
  destruct (promise_union_sound (A := Z) (fun a => if decide (a = 0%Z) then Raise (RuntimeError "copy") else Ret a) (CoReturn 0%Z None) s)
    as (Ht & Hr & Hd); [done|reflexivity|].
  exact (conj Ht (conj Hr Hd)).
Defined.

Lemma promise_value_leaks_witness :
  exists s s', finish (T := Z) Ret (CoReturn 7%Z (Some (RuntimeError "close"))) eager_task_promise = Ret s /\
    result s = Raise (RuntimeError "close") /\ destructor s = Ret s' /\ values s' = 1 /\ exceptions s' = 0.
Proof. apply (promise_value_leaks Ret 7%Z 7%Z). reflexivity. Defined.
End EagerPromise.
