(* ===== verification/TaskVoid.v ===== *)
(** * TaskVoid: the tasks without a value, as tasks whose value is the unit

    task.hpp and eager_task.hpp have two promise types each: one that holds a
    value or an exception or nothing yet, and one for [void] that holds an
    exception or nothing. Task models the first and EagerTask the second. Here
    they are related: a program of tasks over the unit type and its translation
    run in lockstep, until the first asks a task for the result that it does not
    have, which only the first can tell. *)

From S2P Require Import Prelude.
From S2P Require Task EagerTask.

Module TaskVoid.
Module T := Task.Task.
Module E := EagerTask.EagerTask.

(** ** Translation *)

Fixpoint void_body (b : T.body unit) : E.body :=
  match b with
  | T.Return _ => E.Return
  | T.Throw e => E.Throw e
  | T.Pause k => E.Pause (void_body k)
  | T.Await c k => E.Await c (void_body (k tt))
  end.

Definition void_point (p : T.point) : E.point :=
  match p with
  | T.Running => E.Running
  | T.AtPause k => E.AtPause (void_body k)
  | T.AtAwait c k => E.AtAwait c (void_body (k tt))
  | T.AtFinal => E.AtFinal
  end.

Definition void_promise (p : T.task_promise unit) : E.eager_task_promise :=
  E.Promise (T.continuation_handle p) (T.state p)
    match T.result p with T.Exception e => Some e | _ => None end.

Definition void_frame (f : T.frame unit) : E.frame := E.Frame (void_promise (T.promise f)) (void_point (T.at_point f)).

Abbreviation heap := (gmap addr (T.frame unit)).

Definition void_heap (h : heap) : gmap addr E.frame := void_frame <$> h.

(** A coroutine that has not ended has no result yet. *)
Definition wf (h : heap) : Prop :=
  map_Forall (fun _ f => T.at_point f <> T.AtFinal -> T.result (T.promise f) = T.Empty) h.

(** The same outcome, unless the first has failed the assertion of [result()] *)
Definition lockstep (x : outcome heap) (y : outcome (gmap addr E.frame)) : Prop :=
  x = Fault AssertionFailed \/ (y = void_heap <$> x /\ forall h, x = Ret h -> wf h).

Lemma lockstep_ret h : wf h -> lockstep (Ret h) (Ret (void_heap h)).
Proof. intros Hw. right. split; [done|]. by intros ? [= <-]. Qed.

Lemma lockstep_fault f : lockstep (Fault f) (Fault f).
Proof. by right. Qed.

Lemma lockstep_bind x y k l :
  lockstep x y -> (forall h, wf h -> lockstep (k h) (l (void_heap h))) -> lockstep (x ≫= k) (y ≫= l).
Proof. intros [-> | [-> Hw]] H; [by left|]. destruct x; [by apply H, Hw|by right..]. Qed.

(** ** Frames *)

Lemma void_lookup h a : void_heap h !! a = void_frame <$> h !! a.
Proof. apply lookup_fmap. Qed.

Lemma void_insert h a f : void_heap (<[a := f]> h) = <[a := void_frame f]> (void_heap h).
Proof. apply fmap_insert. Qed.

Lemma wf_point h a f p : wf h -> h !! a = Some f -> T.at_point f <> T.AtFinal -> wf (<[a := T.Frame (T.promise f) p]> h).
Proof. intros Hw Ef Hp. apply map_Forall_insert_2; [|done]. intros _. by apply (Hw a f). Qed.

Lemma wf_ended h a p r : wf h -> wf (<[a := T.completed p r]> h).
Proof. intros Hw. by apply map_Forall_insert_2. Qed.

Lemma wf_result h a f : wf h -> h !! a = Some f -> T.at_point f <> T.AtFinal -> T.result (T.promise f) = T.Empty.
Proof. intros Hw Ef. by apply (Hw a f). Qed.

Lemma await_ready_lockstep c h : E.await_ready c (void_heap h) = T.await_ready c h.
Proof. destruct c as [a|]; [|done]. cbn. rewrite void_lookup. by destruct (h !! a) as [[p []]|]. Qed.

(** The awaiting body after [await_resume], unless there is no result yet *)
Lemma resumed_lockstep c h k x y :
  (forall b, lockstep (x b) (y (void_body b))) ->
  lockstep (b ← T.resumed_body (T.await_resume c h) k; x b)
    (b ← E.resumed_body (E.await_resume c (void_heap h)) (void_body (k tt)); y b).
Proof.
  intros H. destruct c as [a|]; [|apply (H (T.Throw _))]. cbn. rewrite void_lookup.
  destruct (h !! a) as [[[ch st [|[]|e]] pt]|]; cbn; [by left|apply H|apply (H (T.Throw e))|by right].
Qed.

(** ** Lockstep *)

Definition in_lockstep (fuel : nat) : Prop :=
  forall a b h p, wf h -> h !! a = Some (T.Frame p T.Running) ->
  lockstep (T.run fuel a b h) (E.run fuel a (void_body b) (void_heap h)).

(** A suspended coroutine goes on. *)
Lemma running_lockstep fuel a b h f :
  in_lockstep fuel -> wf h -> h !! a = Some f -> T.at_point f <> T.AtFinal ->
  lockstep (h ← T.set_point a T.Running h; T.run fuel a b h)
    (h ← E.set_point a E.Running (void_heap h); E.run fuel a (void_body b) h).
Proof.
  intros IH Hw Ef Hp. rewrite (T.set_point_eq _ _ _ _ Ef).
  rewrite (E.eager_set_point_eq a _ _ (void_frame f)) by by rewrite void_lookup, Ef. run_bind.
  change (E.Frame _ E.Running) with (void_frame (T.Frame (T.promise f) T.Running)). rewrite <- void_insert.
  eapply IH; [by apply wf_point|apply lookup_insert_eq].
Qed.

Lemma resume_lockstep fuel a h : in_lockstep fuel -> wf h -> lockstep (T.resume fuel a h) (E.resume fuel a (void_heap h)).
Proof.
  intros IH Hw. unfold T.resume, E.resume, E.resume_with. rewrite void_lookup.
  destruct (h !! a) as [[p pt]|] eqn:Ea; [|apply lockstep_fault]. cbn [fmap option_fmap option_map or_fault]. run_bind.
  destruct pt as [|k|c k|]; cbn [T.at_point E.at_point void_frame void_point]; try apply lockstep_fault.
  - by eapply running_lockstep.
  - apply resumed_lockstep. intros b. by eapply running_lockstep.
Qed.

(** The end of a body, as in [E.run_end] *)
Lemma value_run_end fuel a (r : unit + exn) p h :
  h !! a = Some (T.Frame p T.Running) ->
  T.run (S fuel) a (T.end_body r) h =
  if T.state p then c ← or_fault NullDeref (T.continuation_handle p); T.resume fuel c (<[a := T.completed p r]> h)
  else Ret (<[a := T.completed p r]> h).
Proof.
  intros E. destruct r as [v|e]; cbn; unfold T.update_promise, T.set_point; rewrite E; cbn;
    repeat (rewrite lookup_insert_eq; cbn); rewrite !insert_insert_eq; by destruct (T.state p).
Qed.

Lemma end_lockstep fuel a (r : unit + exn) h p :
  in_lockstep fuel -> wf h -> h !! a = Some (T.Frame p T.Running) ->
  lockstep (T.run (S fuel) a (T.end_body r) h) (E.run (S fuel) a (void_body (T.end_body r)) (void_heap h)).
Proof.
  intros IH Hw Ea. rewrite (value_run_end _ _ _ _ _ Ea).
  assert (T.result p = T.Empty) as Ep by by apply (wf_result h a _ Hw Ea).
  set (e := match r with inl _ => None | inr e => Some e end).
  assert (void_body (T.end_body r) = E.end_body e) as -> by by destruct r.
  rewrite (E.run_end _ _ _ (void_promise p)) by by rewrite void_lookup, Ea.
  assert (E.ended (void_promise p) e = void_frame (T.completed p r)) as ->.
  { unfold E.ended, void_frame, void_promise, T.completed. cbn. rewrite Ep. by destruct r. }
  rewrite <- void_insert. cbn [void_promise E.state E.continuation_handle]. pose proof (wf_ended h a p r Hw).
  destruct (T.state p); [|by apply lockstep_ret].
  destruct (T.continuation_handle p) as [c|]; [|apply lockstep_fault]. by apply resume_lockstep.
Qed.

(** The continuation is set after the awaited task has been resumed; if that
    has ended, the awaiting coroutine, unless it has been resumed meanwhile,
    goes on. *)
Lemma suspend_lockstep fuel a c k h :
  in_lockstep fuel -> wf h ->
  lockstep
    (f ← or_fault Dangling (h !! c);
     h ← T.update_promise c (fun _ => fst (T.try_set_continuation (Some a) (T.promise f))) h;
     if snd (T.try_set_continuation (Some a) (T.promise f)) then Ret h
     else b ← T.resumed_body (T.await_resume (Some c) h) k; h ← T.wake a h; T.run fuel a b h)
    (f ← or_fault Dangling (void_heap h !! c);
     h ← E.update_promise c (fun _ => fst (E.try_set_continuation (Some a) (E.promise f))) (void_heap h);
     if snd (E.try_set_continuation (Some a) (E.promise f)) then Ret h
     else b ← E.resumed_body (E.await_resume (Some c) h) (void_body (k tt)); h ← E.wake a h; E.run fuel a b h).
Proof.
  intros IH Hw. rewrite void_lookup. destruct (h !! c) as [f|] eqn:Ec; [|apply lockstep_fault].
  cbn [fmap option_fmap option_map or_fault]. run_bind. rewrite (T.update_promise_eq _ _ _ _ Ec).
  rewrite (E.eager_update_promise_eq c _ _ (void_frame f)) by by rewrite void_lookup, Ec. run_bind.
  set (f' := T.Frame (fst (T.try_set_continuation (Some a) (T.promise f))) (T.at_point f)).
  change (E.Frame _ _) with (void_frame f'). rewrite <- void_insert.
  assert (wf (<[c := f']> h)) as Hw'. { apply map_Forall_insert_2; [|done]. exact (wf_result h c f Hw Ec). }
  cbn [T.try_set_continuation E.try_set_continuation snd void_frame E.promise void_promise E.state].
  destruct (T.state (T.promise f)); cbn [negb]; [|by apply lockstep_ret].
  apply resumed_lockstep. intros b. unfold T.wake, E.wake. rewrite void_lookup.
  destruct (<[c := f']> h !! a) as [[q pt]|] eqn:Ea; [|apply lockstep_fault].
  cbn [fmap option_fmap option_map or_fault]. run_bind.
  destruct pt; cbn [T.at_point E.at_point void_frame void_point]; try apply lockstep_fault. run_bind.
  change (E.Frame _ E.Running) with (void_frame (T.Frame q T.Running)). rewrite <- void_insert.
  eapply IH; [|apply lookup_insert_eq]. by apply (wf_point (<[c := f']> h) a (T.Frame q (T.AtAwait c0 k0))).
Qed.

Lemma run_lockstep fuel : in_lockstep fuel.
Proof.
  induction fuel as [|fuel IH]; intros a b h p Hw Ea; [by right|]. destruct b as [v|e|k|c k].
  - by apply (end_lockstep fuel a (inl v) h p).
  - by apply (end_lockstep fuel a (inr e) h p).
  - cbn [T.run E.run void_body]. rewrite (T.set_point_eq _ _ _ _ Ea).
    rewrite (E.eager_set_point_eq a _ _ (void_frame (T.Frame p T.Running))) by by rewrite void_lookup, Ea.
    change (E.Frame _ _) with (void_frame (T.Frame p (T.AtPause k))). rewrite <- void_insert.
    apply lockstep_ret. by apply (wf_point h a (T.Frame p T.Running)).
  - cbn [void_body]. rewrite T.run_Await, E.run_await, await_ready_lockstep.
    destruct (T.await_ready c h) as [[]| | |]; [| |by right..]; run_bind.
    { apply resumed_lockstep. intros b. by eapply IH. }
    rewrite (T.set_point_eq _ _ _ _ Ea).
    rewrite (E.eager_set_point_eq a _ _ (void_frame (T.Frame p T.Running))) by by rewrite void_lookup, Ea. run_bind.
    change (E.Frame _ _) with (void_frame (T.Frame p (T.AtAwait c k))). rewrite <- void_insert.
    destruct c as [c|]; [|apply lockstep_fault]. cbn [or_fault]. run_bind.
    apply lockstep_bind; [by apply resume_lockstep, (wf_point h a (T.Frame p T.Running))|]. intros h1 Hw1.
    by apply suspend_lockstep.
Qed.

(** A call of a coroutine and the resumption of a task, as programs of tasks
    without a value and of tasks over the unit: from the same heap both return
    with the same heap, throw the same, are undefined in the same way or need
    more fuel; but where the task over the unit fails the assertion that there
    is a result, the one without a value may go on. *)
Theorem void_task_lockstep fuel b a h :
  wf h ->
  (T.call fuel b h = Fault AssertionFailed \/
   E.call fuel (void_body b) (void_heap h) = prod_map id void_heap <$> T.call fuel b h) /\
  (T.resume fuel a h = Fault AssertionFailed \/
   E.resume fuel a (void_heap h) = void_heap <$> T.resume fuel a h) /\
  (forall a' h', T.call fuel b h = Ret (a', h') -> wf h') /\
  (forall h', T.resume fuel a h = Ret h' -> wf h').
Proof.
  intros Hw. pose proof (resume_lockstep fuel a h (run_lockstep fuel) Hw) as Hr.
  set (a0 := fresh (dom h)). set (h0 := <[a0 := T.Frame T.new_promise T.Running]> h).
  assert (lockstep (T.run fuel a0 b h0) (E.run fuel a0 (void_body b) (void_heap h0))) as Hc.
  { eapply (run_lockstep fuel); [by apply map_Forall_insert_2|apply lookup_insert_eq]. }
  assert (E.call fuel (void_body b) (void_heap h) = (h ← E.run fuel a0 (void_body b) (void_heap h0); Ret (a0, h))) as ->.
  { unfold E.call, h0. rewrite void_insert. unfold void_heap. by rewrite dom_fmap_L. }
  unfold T.call. fold a0 h0. destruct Hc as [-> | [-> Hc]], Hr as [-> | [-> Hr]];
    (split; [first [by left | right; by destruct (T.run fuel a0 b h0)]|]);
    (split; [first [by left | by right]|]);
    (split; [first [done | intros a' h'; destruct (T.run fuel a0 b h0); try done; intros [= <- <-]; by apply Hc]|]);
    first [done | apply Hr].
Qed.
End TaskVoid.
