(* ===== verification/WhenAll.v ===== *)
(** * WhenAll: algorithms/when-all/when_all.hpp

    [co_await when_all(tasks)]: the awaiting coroutine starts each subtask and
    then suspends unless all of them have completed; the last subtask to
    complete resumes it. Both sides go through one atomic counter, initialised
    to the number of subtasks plus one. Subtasks complete at any time, on any
    thread; each atomic access is one step. *)

From S2P Require Import Prelude.
Local Open Scope Z_scope.

Module WhenAll.

(** ** State *)

Record counter := Counter { count : Z; awaiting_coro : ptr }.

Definition counter_init (count_ : Z) : counter := Counter (u64 (count_ + 1)) null.

(** [count.fetch_sub(1)] and its result *)
Definition fetch_sub (c : counter) : Z * counter := (count c, Counter (u64 (count c - 1)) (awaiting_coro c)).

(** The coroutine of [make_when_all_task]: suspended initially, awaiting the
    user's task, in [final_suspend] before the counter is decremented, about to
    resume the awaiting coroutine, through with it. *)
Inductive subtask := Lazy | Active | Final | Resuming | Notified.

(** The awaiting coroutine in [when_all_awaiter::await_suspend]: starting the
    subtask of the given index, in [try_await] before the store and before the
    fetch_sub, suspended, past [await_resume]. *)
Inductive awaiter := Starting (i : nat) | Storing | Fetching | Suspended | Continued.

#[export] Instance subtask_eq_dec : EqDecision subtask.
Proof. solve_decision. Defined.
#[export] Instance awaiter_eq_dec : EqDecision awaiter.
Proof. solve_decision. Defined.

Record sys := Sys { remaining : counter; tasks : list subtask; top : awaiter }.

(** [when_all(input_tasks)], awaited by the coroutine at address [h]. *)
Definition when_all (n : nat) : sys :=
  Sys (counter_init (Z.of_nat n)) (replicate n Lazy) (Starting 0).

Section Step.
Context (h : addr).

(** [try_await] in two steps *)
Definition try_await_store (s : sys) : sys :=
  Sys (Counter (count (remaining s)) (Some h)) (tasks s) Fetching.

Definition try_await_fetch (s : sys) : sys :=
  let '(old, c) := fetch_sub (remaining s) in
  Sys c (tasks s) (if decide (old > 1) then Suspended else Continued).

(** [t.start(remaining)]: resumes the subtask's coroutine *)
Definition start (i : nat) (s : sys) : outcome sys :=
  match tasks s !! i with
  | Some Lazy => Ret (Sys (remaining s) (<[i := Active]> (tasks s)) (Starting (S i)))
  | Some _ => Fault BadResume
  | None => Ret (Sys (remaining s) (tasks s) Storing)
  end.

(** [notify_task_completion()] in two steps *)
Definition notify_fetch (i : nat) (s : sys) : sys :=
  let '(old, c) := fetch_sub (remaining s) in
  Sys c (<[i := if decide (old = 1) then Resuming else Notified]> (tasks s)) (top s).

Definition notify_resume (i : nat) (s : sys) : outcome sys :=
  a ← or_fault NullDeref (awaiting_coro (remaining s));
  if decide (a = h /\ top s = Suspended)
  then Ret (Sys (remaining s) (<[i := Notified]> (tasks s)) Continued)
  else Fault BadResume.

(** Who makes the next step. *)
Inductive agent := Top | Task (i : nat).

Definition step (w : agent) (s : sys) : option (outcome sys) :=
  match w with
  | Top =>
    match top s with
    | Starting i => Some (start i s)
    | Storing => Some (Ret (try_await_store s))
    | Fetching => Some (Ret (try_await_fetch s))
    | Suspended | Continued => None
    end
  | Task i =>
    match tasks s !! i with
    | Some Active => Some (Ret (Sys (remaining s) (<[i := Final]> (tasks s)) (top s)))
    | Some Final => Some (Ret (notify_fetch i s))
    | Some Resuming => Some (notify_resume i s)
    | Some (Lazy | Notified) | None => None
    end
  end.

Inductive when_all_step : sys -> sys -> Prop :=
| Step s s' w : step w s = Some (Ret s') -> when_all_step s s'.

Definition reachable (n : nat) (s : sys) : Prop := rtc when_all_step (when_all n) s.

(** ** The invariant *)

(** Subtasks that have not decremented the counter. *)
Definition open_task (t : subtask) : bool := match t with Lazy | Active | Final => true | _ => false end.

(** The awaiting coroutine holds the extra count until its own fetch_sub. *)
Definition extra (a : awaiter) : nat := match a with Starting _ | Storing | Fetching => 1 | _ => 0 end%nat.

Record inv (n : nat) (s : sys) : Prop := {
  inv_length : length (tasks s) = n;
  inv_count : count (remaining s) = Z.of_nat (count_if open_task (tasks s) + extra (top s));
  inv_handle : top s = Fetching \/ top s = Suspended -> awaiting_coro (remaining s) = Some h;
  inv_resuming i : tasks s !! i = Some Resuming ->
    top s = Suspended /\ count_if open_task (tasks s) = 0%nat /\
    forall j, tasks s !! j = Some Resuming -> j = i;
  inv_suspended : top s = Suspended -> count_if open_task (tasks s) = 0%nat ->
    exists i, tasks s !! i = Some Resuming;
  inv_continued : top s = Continued -> count_if open_task (tasks s) = 0%nat;
  inv_lazy i : tasks s !! i = Some Lazy -> exists k, top s = Starting k /\ (k <= i)%nat;
  inv_starting k i : top s = Starting k -> (k <= i < n)%nat -> tasks s !! i = Some Lazy;
}.

Lemma count_if_insert {A} (P : A -> bool) l i x y :
  l !! i = Some x ->
  (count_if P (<[i := y]> l) + (if P x then 1 else 0) = count_if P l + (if P y then 1 else 0))%nat.
Proof.
  revert i. induction l as [|a l IH]; intros [|i] E; simplify_eq/=; rewrite ?count_if_cons.
  - lia.
  - specialize (IH i E). lia.
Qed.

Lemma count_if_zero {A} (P : A -> bool) l i x : count_if P l = 0%nat -> l !! i = Some x -> P x = false.
Proof.
  revert i. induction l as [|a l IH]; intros [|i] H E; rewrite ?count_if_cons in H; simplify_eq/=.
  - by destruct (P x).
  - apply (IH i); [lia|done].
Qed.

Lemma when_all_inv_init n : Z.of_nat n + 1 < 2 ^ 64 -> inv n (when_all n).
Proof.
  intros Hn. split; cbn [when_all remaining tasks top counter_init count awaiting_coro extra].
  - by rewrite length_replicate.
  - rewrite u64_small by lia.
    assert (count_if open_task (replicate n Lazy) = n) as ->; [|lia].
    clear Hn. induction n as [|n IH]; [done|]. cbn [replicate]. rewrite count_if_cons, IH. done.
  - by intros [?|?].
  - intros i [? _]%lookup_replicate. done.
  - done.
  - done.
  - intros i _. exists 0%nat. split; [done|lia].
  - intros k i [= <-] Hi. apply lookup_replicate. split; [done|lia].
Qed.

(** What the step lemmas below share: the counter cannot wrap. *)
Lemma inv_open_le n s : inv n s -> (count_if open_task (tasks s) <= n)%nat.
Proof. intros Hi. rewrite <- (inv_length _ _ Hi). apply count_if_le. Qed.

Lemma when_all_inv_start n s k :
  inv n s -> top s = Starting k -> exists s', start k s = Ret s' /\ inv n s'.
Proof.
  intros [I1 I2 I3 I4 I5 I6 I7 I8] Et. rewrite Et in *.
  unfold start. destruct (decide (k < n)%nat) as [Hk|Hk].
  * pose proof (I8 k k eq_refl ltac:(lia)) as Ek. rewrite Ek. eexists. split; [done|].
    pose proof (count_if_insert open_task (tasks s) k Lazy Active Ek) as Hc. cbn in Hc.
    split; cbn [remaining tasks top].
    -- by rewrite length_insert.
    -- rewrite I2. cbn. lia.
    -- by intros [?|?].
    -- intros i [[_ [[=] _]]|[_ Ei]]%list_lookup_insert_Some. by destruct (I4 _ Ei).
    -- done.
    -- done.
    -- intros i Ei. exists (S k). split; [done|].
       apply list_lookup_insert_Some in Ei as [[_ [[=] _]]|[Hne Ei]].
       destruct (I7 _ Ei) as (k' & [= <-] & Hki). lia.
    -- intros k' i [= <-] Hi. rewrite list_lookup_insert_ne by lia. apply (I8 k); [done|lia].
  * rewrite lookup_ge_None_2 by lia. eexists. split; [done|]. split; cbn [remaining tasks top]; try done.
    -- by intros [?|?].
    -- intros i Ei. by destruct (I4 _ Ei).
    -- intros i Ei. destruct (I7 _ Ei) as (k' & [= <-] & Hki). apply lookup_lt_Some in Ei. lia.
Qed.

Lemma inv_try_await_store n s : inv n s -> top s = Storing -> inv n (try_await_store s).
Proof.
  intros [I1 I2 I3 I4 I5 I6 I7 I8] Et. rewrite Et in *.
  split; cbn [try_await_store remaining tasks top count awaiting_coro]; try done.
  * intros i Ei. by destruct (I4 _ Ei).
  * intros i Ei. destruct (I7 _ Ei) as (k' & [=] & _).
Qed.

Lemma inv_try_await_fetch n s :
  Z.of_nat n + 1 < 2 ^ 64 -> inv n s -> top s = Fetching -> inv n (try_await_fetch s).
Proof.
  intros Hmax Hi Et. pose proof (inv_open_le n s Hi) as Hle. destruct Hi as [I1 I2 I3 I4 I5 I6 I7 I8]. rewrite Et in *.
  cbn [extra] in I2. unfold try_await_fetch, fetch_sub.
  assert (forall i, tasks s !! i <> Some Resuming) as Hnr by (intros i Ei; by destruct (I4 _ Ei)).
  assert (forall i, tasks s !! i <> Some Lazy) as Hnl.
  { intros i Ei. destruct (I7 _ Ei) as (k' & [=] & _). }
  case_decide as Hd; split; cbn [remaining tasks top count awaiting_coro extra]; try done.
  * rewrite u64_small by lia. lia.
  * intros _. apply I3. by left.
  * intros i Ei. by destruct (Hnr i).
  * lia.
  * intros i Ei. by destruct (Hnl i).
  * rewrite u64_small by lia. lia.
  * by intros [?|?].
  * intros i Ei. by destruct (Hnr i).
  * lia.
  * intros i Ei. by destruct (Hnl i).
Qed.

Lemma inv_finish n s i :
  inv n s -> tasks s !! i = Some Active -> inv n (Sys (remaining s) (<[i := Final]> (tasks s)) (top s)).
Proof.
  intros [I1 I2 I3 I4 I5 I6 I7 I8] Ei.
  pose proof (count_if_insert open_task (tasks s) i Active Final Ei) as Hc. cbn in Hc.
  assert (count_if open_task (<[i:=Final]> (tasks s)) = count_if open_task (tasks s)) as Hc' by lia.
  split; cbn [remaining tasks top]; rewrite ?Hc'; try done.
  * by rewrite length_insert.
  * intros j [[_ [[=] _]]|[_ Ej]]%list_lookup_insert_Some. destruct (I4 _ Ej) as (H1 & H2 & H3).
    split; [done|]. split; [done|]. intros j' [[_ [[=] _]]|[_ Ej']]%list_lookup_insert_Some. eauto.
  * intros H1 H2. destruct (I5 H1 H2) as (j & Ej). exists j.
    rewrite list_lookup_insert_ne; [done|]. intros <-. by simplify_eq.
  * intros j [[_ [[=] _]]|[_ Ej]]%list_lookup_insert_Some. eauto.
  * intros k j Hk Hj. rewrite list_lookup_insert_ne; [by eapply I8|].
    intros <-. by rewrite (I8 k i Hk Hj) in Ei.
Qed.

(** The counter after a completed subtask's fetch_sub. *)
Lemma notify_facts n s i :
  Z.of_nat n + 1 < 2 ^ 64 -> inv n s -> tasks s !! i = Some Final ->
  (forall y, y = Resuming \/ y = Notified ->
     (count_if open_task (<[i:=y]> (tasks s)) + 1 = count_if open_task (tasks s))%nat) /\
  (forall j, tasks s !! j <> Some Resuming) /\ top s <> Continued /\
  u64 (count (remaining s) - 1) = count (remaining s) - 1.
Proof.
  intros Hmax Hi Ei. pose proof (inv_open_le n s Hi) as Hle. destruct Hi as [I1 I2 I3 I4 I5 I6 I7 I8].
  assert (forall y, y = Resuming \/ y = Notified ->
    (count_if open_task (<[i:=y]> (tasks s)) + 1 = count_if open_task (tasks s))%nat) as Hc.
  { intros y Hy. pose proof (count_if_insert open_task (tasks s) i Final y Ei) as Hc. cbn in Hc.
    destruct Hy as [-> | ->]; cbn in Hc; lia. }
  specialize (Hc Notified ltac:(by right)) as Hn.
  split; [done|]. split; [|split].
  - intros j Ej. destruct (I4 _ Ej) as (_ & Hz & _).
    pose proof (count_if_zero open_task _ _ _ Hz Ei) as Hf. done.
  - intros Ht. specialize (I6 Ht). lia.
  - apply u64_small. rewrite I2. destruct (top s); cbn; lia.
Qed.

Lemma inv_notify_fetch n s i :
  Z.of_nat n + 1 < 2 ^ 64 -> inv n s -> tasks s !! i = Some Final -> inv n (notify_fetch i s).
Proof.
  intros Hmax Hi Ei. destruct (notify_facts n s i Hmax Hi Ei) as (Hc & Hnr & Hnc & Hu).
  destruct Hi as [I1 I2 I3 I4 I5 I6 I7 I8]. unfold notify_fetch, fetch_sub. cbn [fst snd].
  case_decide as Hd; split; cbn [remaining tasks top count awaiting_coro].
  * by rewrite length_insert.
  * rewrite Hu, I2. specialize (Hc Resuming ltac:(by left)). lia.
  * done.
  * intros j [[<- _]|[_ Ej]]%list_lookup_insert_Some; [|by destruct (Hnr j)].
    specialize (Hc Resuming ltac:(by left)). split; [|split; [lia|]].
    -- rewrite I2 in Hd. destruct (top s); cbn in Hd; try done; lia.
    -- intros j' [[<- _]|[_ Ej']]%list_lookup_insert_Some; [done|by destruct (Hnr j')].
  * intros _ _. exists i. apply list_lookup_insert_eq. eauto with coro.
  * done.
  * intros j [[_ [[=] _]]|[_ Ej]]%list_lookup_insert_Some. eauto.
  * intros k j Hk Hj. rewrite list_lookup_insert_ne; [by eapply I8|].
    intros <-. by rewrite (I8 k i Hk Hj) in Ei.
  * by rewrite length_insert.
  * rewrite Hu, I2. specialize (Hc Notified ltac:(by right)). lia.
  * done.
  * intros j [[_ [[=] _]]|[_ Ej]]%list_lookup_insert_Some. by destruct (Hnr j).
  * intros Ht Hz. specialize (Hc Notified ltac:(by right)). rewrite I2, Ht in Hd. cbn in Hd. lia.
  * done.
  * intros j [[_ [[=] _]]|[_ Ej]]%list_lookup_insert_Some. eauto.
  * intros k j Hk Hj. rewrite list_lookup_insert_ne; [by eapply I8|].
    intros <-. by rewrite (I8 k i Hk Hj) in Ei.
Qed.

Lemma inv_notify_resume n s i :
  inv n s -> tasks s !! i = Some Resuming -> exists s', notify_resume i s = Ret s' /\ inv n s'.
Proof.
  intros [I1 I2 I3 I4 I5 I6 I7 I8] Ei.
  destruct (I4 _ Ei) as (Ht & Hz & Huniq). unfold notify_resume.
  rewrite I3 by (by right). cbn [or_fault]. run_bind. rewrite decide_True by done. eexists. split; [done|].
  pose proof (count_if_insert open_task (tasks s) i Resuming Notified Ei) as Hc. cbn in Hc.
  split; cbn [remaining tasks top].
  * by rewrite length_insert.
  * rewrite I2, Ht. cbn. lia.
  * by intros [?|?].
  * intros j [[_ [[=] _]]|[Hne Ej]]%list_lookup_insert_Some. by destruct Hne; rewrite (Huniq j).
  * done.
  * lia.
  * intros j [[_ [[=] _]]|[_ Ej]]%list_lookup_insert_Some. destruct (I7 _ Ej) as (k & Hk & _). congruence.
  * done.
Qed.

Lemma when_all_step_inv n s w r :
  Z.of_nat n + 1 < 2 ^ 64 -> inv n s -> step w s = Some r -> exists s', r = Ret s' /\ inv n s'.
Proof.
  intros Hmax Hi E. destruct w as [|i]; cbn in E.
  - destruct (top s) as [k| | | |] eqn:Et; try done; injection E as <-.
    + by apply when_all_inv_start.
    + eexists. split; [done|]. by apply inv_try_await_store.
    + eexists. split; [done|]. by apply inv_try_await_fetch.
  - destruct (tasks s !! i) as [[]|] eqn:Ei; try done; injection E as <-.
    + eexists. split; [done|]. by apply inv_finish.
    + eexists. split; [done|]. by apply inv_notify_fetch.
    + by apply inv_notify_resume.
Qed.

Lemma when_all_reachable_inv n s : Z.of_nat n + 1 < 2 ^ 64 -> reachable n s -> inv n s.
Proof.
  intros Hn Hr. pose proof (when_all_inv_init n Hn) as Hi. revert Hi.
  induction Hr as [|s1 s2 s3 Hs _ IH]; [done|]. intros Hi. apply IH.
  destruct Hs as [s s' w E]. by destruct (when_all_step_inv n s w _ Hn Hi E) as (s'' & [= <-] & Hi').
Qed.

(** ** Termination *)

Definition task_rank (t : subtask) : nat :=
  match t with Lazy => 4 | Active => 3 | Final => 2 | Resuming => 1 | Notified => 0 end.
Definition top_rank (n : nat) (a : awaiter) : nat :=
  match a with Starting i => (n - i) + 3 | Storing => 2 | Fetching => 1 | Suspended | Continued => 0 end.
Definition rank (n : nat) (s : sys) : nat := (sum_list_with task_rank (tasks s) + top_rank n (top s))%nat.

Lemma step_rank n s w s' : inv n s -> step w s = Some (Ret s') -> (rank n s' < rank n s)%nat.
Proof.
  intros Hi E. unfold rank. destruct w as [|i]; cbn in E.
  - destruct (top s) as [k| | | |] eqn:Et; try done; injection E as E; try subst s'.
    + unfold start in E. destruct (tasks s !! k) as [[]|] eqn:Ek; try done; injection E as <-; cbn [tasks top].
      * pose proof (sum_list_with_insert task_rank (tasks s) k Lazy Active Ek) as Hs. cbn in *. lia.
      * cbn. lia.
    + cbn. lia.
    + unfold try_await_fetch. cbn. case_decide; cbn; lia.
  - destruct (tasks s !! i) as [[]|] eqn:Ei; try done; injection E as E; try subst s'.
    + pose proof (sum_list_with_insert task_rank (tasks s) i Active Final Ei) as Hs. cbn in *. lia.
    + unfold notify_fetch. cbn [fetch_sub tasks top].
      case_decide; [pose proof (sum_list_with_insert task_rank (tasks s) i Final Resuming Ei) as Hs
                   |pose proof (sum_list_with_insert task_rank (tasks s) i Final Notified Ei) as Hs]; cbn in *; lia.
    + destruct (inv_resuming _ _ Hi _ Ei) as (Ht & _). unfold notify_resume in E.
      apply bind_Ret_inv in E as (a & _ & E). case_decide; [|done]. injection E as <-. cbn [tasks top].
      pose proof (sum_list_with_insert task_rank (tasks s) i Resuming Notified Ei) as Hs. rewrite Ht. cbn in *. lia.
Qed.

Lemma rank_init n : rank n (when_all n) = (5 * n + 3)%nat.
Proof.
  unfold rank. cbn [when_all tasks top top_rank].
  assert (sum_list_with task_rank (replicate n Lazy) = 4 * n)%nat as ->; [|lia].
  induction n as [|n IH]; [done|]. cbn [replicate]. cbn in *. lia.
Qed.

(** ** Theorems *)

(** C16. Whatever the order in which subtasks start and complete, on any thread:
    the awaiting coroutine goes on exactly when all subtasks have completed,
    never earlier, and it is resumed only while it is suspended, at most
    once. *)
Theorem when_all_waits_for_all n s :
  Z.of_nat n + 1 < 2 ^ 64 -> reachable n s ->
  (forall w r, step w s = Some r -> exists s', r = Ret s') /\
  (top s = Continued -> Forall (fun t => t = Notified) (tasks s)).
Proof.
  intros Hn Hr. pose proof (when_all_reachable_inv n s Hn Hr) as Hi. split.
  - intros w r E. destruct (when_all_step_inv n s w r Hn Hi E) as (s' & -> & _). eauto.
  - intros Ht. apply Forall_lookup. intros i t Ei.
    pose proof (count_if_zero open_task _ _ _ (inv_continued _ _ Hi Ht) Ei) as Ho.
    destruct t; try done. by destruct (inv_resuming _ _ Hi _ Ei) as [? _]; congruence.
Qed.

(** C17. No wakeup is lost and nothing runs for ever: a run of the protocol has
    at most [5n + 3] steps, and when no agent has a step left the awaiting
    coroutine has gone on. *)
Theorem when_all_completes n s k :
  Z.of_nat n + 1 < 2 ^ 64 -> relations.nsteps when_all_step k (when_all n) s ->
  (k <= 5 * n + 3)%nat /\ ((forall w, step w s = None) -> top s = Continued).
Proof.
  intros Hn Hk. split.
  - assert (forall s0, inv n s0 -> relations.nsteps when_all_step k s0 s -> (k + rank n s <= rank n s0)%nat) as Hr.
    { clear Hk. intros s0 Hi Hs. induction Hs as [s0|k s0 s1 s2 Hs _ IH]; [lia|].
      destruct Hs as [s0 s1 w E]. destruct (when_all_step_inv n s0 w _ Hn Hi E) as (s'' & [= <-] & Hi').
      pose proof (step_rank _ _ _ _ Hi E). specialize (IH Hi'). lia. }
    specialize (Hr _ (when_all_inv_init n Hn) Hk). pose proof (rank_init n). lia.
  - intros Hstop. assert (reachable n s) as Hr by (by apply rtc_nsteps; exists k).
    pose proof (when_all_reachable_inv n s Hn Hr) as Hi.
    pose proof (Hstop Top) as Htop. cbn in Htop. destruct (top s) eqn:Et; try done.
    destruct (decide (count_if open_task (tasks s) = 0%nat)) as [Hz|Hz].
    + destruct (inv_suspended _ _ Hi Et Hz) as (i & Ei). specialize (Hstop (Task i)). cbn in Hstop.
      by rewrite Ei in Hstop.
    + exfalso. apply Hz. unfold count_if. apply length_zero_iff_nil.
      destruct (List.filter open_task (tasks s)) as [|t l] eqn:Ef; [done|]. exfalso.
      assert (t ∈ List.filter open_task (tasks s)) as Ht by (rewrite Ef; by left).
      apply list_elem_of_In, filter_In in Ht as [Ht Ho]. apply list_elem_of_In, list_elem_of_lookup in Ht as (i & Ei).
      specialize (Hstop (Task i)). cbn in Hstop. rewrite Ei in Hstop.
      destruct t; try done. destruct (inv_lazy _ _ Hi _ Ei) as (k' & Hk' & _). congruence.
Qed.

(** ** Concrete runs *)

Fixpoint exec (ws : list agent) (s : sys) : outcome sys :=
  match ws with
  | [] => Ret s
  | w :: ws => s ← (match step w s with Some r => r | None => Fault AssertionFailed end); exec ws s
  end.

Lemma exec_nsteps ws : forall s s', exec ws s = Ret s' -> relations.nsteps when_all_step (length ws) s s'.
Proof.
  induction ws as [|w ws IH]; intros s s' E; [injection E as <-; constructor|].
  cbn [exec] in E. apply bind_Ret_inv in E as (s1 & E1 & E).
  destruct (step w s) as [r|] eqn:Er; [|done]. subst r. econstructor; [by econstructor|by apply IH].
Qed.
End Step.

(** Two subtasks: the first completes while the second is being started. *)
Definition demo_run : list agent := [Top; Task 0; Task 0; Top; Top; Top; Top; Task 1; Task 1; Task 1].

Definition demo : sys :=
  match exec 5 demo_run (when_all 2) with Ret s => s | _ => when_all 2 end.

Lemma demo_nsteps : relations.nsteps (when_all_step 5) 10 (when_all 2) demo.
Proof. apply (exec_nsteps 5 demo_run). vm_compute. reflexivity. Qed.

Lemma when_all_waits_for_all_witness :
  top demo = Continued /\
  (forall w r, step 5 w demo = Some r -> exists s', r = Ret s') /\
  (top demo = Continued -> Forall (fun t => t = Notified) (tasks demo)).
Proof.
  split; [reflexivity|].
  apply (when_all_waits_for_all 5 2 demo); [lia|]. apply rtc_nsteps. exists 10%nat. exact demo_nsteps.
Defined.

Lemma when_all_completes_witness :
  (10 <= 5 * 2 + 3)%nat /\ ((forall w, step 5 w demo = None) -> top demo = Continued).
Proof. apply (when_all_completes 5 2 demo 10); [lia|exact demo_nsteps]. Defined.
End WhenAll.
