(* ===== verification/TaskScheduler.v ===== *)
(** * TaskScheduler: algorithms/when-all/task_scheduler.hpp and example.cpp

    A queue of coroutine handles, [co_await defer_on(scheduler)], and the
    example that awaits [when_all] of tasks that defer themselves. Frames are
    those of [coro::task<void>] and of the intermediate coroutine
    [make_when_all_task]; everything runs on one thread, so a [resume()] is a
    call that returns when the coroutine suspends.

    The scheduler on its own runs tasks round robin. Together with [when_all],
    whose start resumes the tasks itself, it resumes frames that are gone. *)

From S2P Require Import Prelude.
Local Open Scope Z_scope.

Set Warnings "-register-all".

Module TaskScheduler.

(** ** Bodies and frames *)

(** A body of type [coro::task<void>]: [co_return] or the closing brace,
    [trace(s)], [co_await defer_on(scheduler)], and
    [tasks.push_back(c()); ... co_await when_all(std::move(tasks))]. *)
Inductive body :=
| Return
| Trace (s : string) (k : body)
| Defer (k : body)
| WhenAll (cs : list body) (k : body).

(** [when_all.hpp]'s counter *)
Record counter := Counter { count : Z; awaiting_coro : ptr }.

Inductive point :=
| Running
| AtDefer (k : body)                                        (* in [defer_on]'s await_suspend *)
| AtWhenAll (tasks : list addr) (remaining : counter) (k : body) (* the awaiter is a temporary of the frame *)
| AtInitial                                                 (* make_when_all_task, not started *)
| AtTask                                                    (* make_when_all_task, awaiting its task *)
| AtFinal.

(** The promises of the two coroutine types. The parameter [t] of
    [make_when_all_task] is part of its frame; the counter is named by the
    frame that holds it. *)
Inductive promise :=
| TaskPromise (continuation_handle : ptr) (state : bool)
| WhenAllTaskPromise (remaining_counter : ptr) (t : addr).

Record frame := Frame { the_promise : promise; at_point : point }.

Record world := World { heap : gmap addr frame; tasks : list addr; out : list string }.

Definition done (f : frame) : bool := match at_point f with AtFinal => true | _ => false end.

(** ** Frames *)

Definition get (a : addr) (w : world) : outcome frame := or_fault Dangling (heap w !! a).
Definition put (a : addr) (f : frame) (w : world) : world := World (<[a := f]> (heap w)) (tasks w) (out w).

Definition set_point (a : addr) (p : point) (w : world) : outcome world :=
  f ← get a w; Ret (put a (Frame (the_promise f) p) w).

Definition new_frame (f : frame) (w : world) : addr * world :=
  let a := fresh (dom (heap w)) in (a, put a f w).

Definition trace (s : string) (w : world) : world := World (heap w) (tasks w) (out w ++ [s]).

(** [for (auto& t : ts) ...] *)
Fixpoint for_each (f : addr -> world -> outcome world) (ts : list addr) (w : world) : outcome world :=
  match ts with [] => Ret w | t :: ts => w ← f t w; for_each f ts w end.

(** [coroutine_handle::destroy()]: the [when_all] awaiter of the frame destroys
    its tasks, the frame of [make_when_all_task] its parameter. *)
Fixpoint destroy (fuel : nat) (a : addr) (w : world) : outcome world :=
  match fuel with
  | O => Diverged
  | S fuel =>
    f ← or_fault DoubleDestroy (heap w !! a);
    w ← match at_point f with
        | Running => Fault BadDestroy
        | AtWhenAll ts _ _ => for_each (destroy fuel) ts w
        | _ => Ret w
        end;
    w ← match the_promise f with
        | WhenAllTaskPromise _ t => destroy fuel t w
        | TaskPromise _ _ => Ret w
        end;
    Ret (World (delete a (heap w)) (tasks w) (out w))
  end.

(** End of the lifetime of a [task] or [when_all_task]. *)
Definition task_destructor (a : addr) (w : world) : outcome world := destroy (S (size (heap w))) a w.

(** ** The scheduler *)

(** [task_scheduler::schedule], through [defer_on]'s await_suspend *)
Definition schedule (a : addr) (w : world) : world := World (heap w) (tasks w ++ [a]) (out w).

(** ** when_all's counter *)

Definition counter_init (count_ : Z) : counter := Counter (u64 (count_ + 1)) null.

(** The counter in the awaiter of the coroutine at [a]. *)
Definition get_counter (a : addr) (w : world) : outcome counter :=
  f ← get a w;
  match at_point f with AtWhenAll _ c _ => Ret c | _ => Fault Dangling end.

Definition set_counter (a : addr) (c : counter) (w : world) : outcome world :=
  f ← get a w;
  match at_point f with
  | AtWhenAll ts _ k => Ret (put a (Frame (the_promise f) (AtWhenAll ts c k)) w)
  | _ => Fault Dangling
  end.

(** [count.fetch_sub(1)]: the old value *)
Definition fetch_sub (a : addr) (w : world) : outcome (Z * world) :=
  c ← get_counter a w;
  w ← set_counter a (Counter (u64 (count c - 1)) (awaiting_coro c)) w;
  Ret (count c, w).

(** [counter::try_await(awaiting_coro_)] *)
Definition try_await (a : addr) (awaiting_coro_ : ptr) (w : world) : outcome (bool * world) :=
  c ← get_counter a w;
  w ← set_counter a (Counter (count c) awaiting_coro_) w;
  '(old, w) ← fetch_sub a w;
  Ret (bool_decide (old > 1), w).

(** [task_promise_base::try_set_continuation] of the task at [t] *)
Definition try_set_continuation (t : addr) (h : ptr) (w : world) : outcome (bool * world) :=
  f ← get t w;
  match the_promise f with
  | TaskPromise _ state => Ret (negb state, put t (Frame (TaskPromise h true) (at_point f)) w)
  | WhenAllTaskPromise _ _ => Fault WildPointer
  end.

(** ** Execution *)

(** What a coroutine executes next: the body of a task; in
    [make_when_all_task], the [co_await] of its task, or what follows it. *)
Inductive code := Body (b : body) | AwaitTask | EndTask.

(** The calls [c()] whose results are pushed to [tasks], in order. *)
Fixpoint call_all (exec : addr -> code -> world -> outcome world) (cs : list body) (w : world)
    : outcome (list addr * world) :=
  match cs with
  | [] => Ret ([], w)
  | c :: cs =>
    let '(t, w) := new_frame (Frame (TaskPromise null false) Running) w in
    w ← exec t (Body c) w;
    '(ts, w) ← call_all exec cs w;
    Ret (t :: ts, w)
  end.

(** [when_all]: a [make_when_all_task] for each input task. *)
Fixpoint make_tasks (ts : list addr) (w : world) : list addr * world :=
  match ts with
  | [] => ([], w)
  | t :: ts =>
    let '(s, w) := new_frame (Frame (WhenAllTaskPromise null t) AtInitial) w in
    let '(ss, w) := make_tasks ts w in
    (s :: ss, w)
  end.

(** [when_all_task_promise::start(remaining_counter_)], before it resumes *)
Definition set_remaining_counter (s : addr) (c : addr) (w : world) : outcome world :=
  f ← get s w;
  match the_promise f with
  | WhenAllTaskPromise _ t => Ret (put s (Frame (WhenAllTaskPromise (Some c) t) (at_point f)) w)
  | TaskPromise _ _ => Fault WildPointer
  end.

(** [co_await defer_on(scheduler)]: not ready; [await_suspend] schedules the
    coroutine, and [await_resume] does nothing. *)
Definition defer_on (a : addr) (k : body) (w : world) : outcome world :=
  w ← set_point a (AtDefer k) w; Ret (schedule a w).

(** The coroutine at [a] executes [c] until it, or a coroutine that it resumes,
    suspends. *)
Fixpoint exec (fuel : nat) (a : addr) (c : code) (w : world) : outcome world :=
  match fuel with
  | O => Diverged
  | S fuel =>
    let continue_when_all (a : addr) (ts : list addr) (k : body) (w : world) : outcome world :=
      (* await_resume; the awaiter and its tasks are destroyed *)
      w ← set_point a Running w;
      w ← for_each task_destructor ts w;
      exec fuel a (Body k) w in
    let resume (a : addr) (w : world) : outcome world :=
      f ← get a w;
      match at_point f with
      | AtDefer k => w ← set_point a Running w; exec fuel a (Body k) w
      | AtWhenAll ts _ k => continue_when_all a ts k w
      | AtInitial => w ← set_point a Running w; exec fuel a AwaitTask w
      | AtTask => w ← set_point a Running w; exec fuel a EndTask w
      | Running | AtFinal => Fault BadResume
      end in
    match c with
    | Body Return =>
      (* final_awaitable::await_suspend *)
      f ← get a w;
      match the_promise f with
      | TaskPromise h state =>
        let w := put a (Frame (TaskPromise h true) AtFinal) w in
        if (state : bool) then c ← or_fault NullDeref h; resume c w else Ret w
      | WhenAllTaskPromise _ _ => Fault WildPointer
      end
    | Body (Trace s k) => exec fuel a (Body k) (trace s w)
    | Body (Defer k) => defer_on a k w
    | Body (WhenAll cs k) =>
      '(ts, w) ← call_all (exec fuel) cs w;
      let '(ss, w) := make_tasks ts w in
      (* when_all_awaiter::await_suspend *)
      w ← set_point a (AtWhenAll ss (counter_init (Z.of_nat (length ss))) k) w;
      w ← for_each (fun s w => w ← set_remaining_counter s a w; resume s w) ss w;
      '(suspend, w) ← try_await a (Some a) w;
      if (suspend : bool) then Ret w else continue_when_all a ss k w
    | AwaitTask =>
      f ← get a w;
      match the_promise f with
      | TaskPromise _ _ => Fault WildPointer
      | WhenAllTaskPromise _ t =>
        g ← get t w;
        if done g then exec fuel a EndTask w
        else
          w ← set_point a AtTask w;
          w ← resume t w;
          '(should_return_to_caller, w) ← try_set_continuation t (Some a) w;
          if (should_return_to_caller : bool) then Ret w
          else w ← set_point a Running w; exec fuel a EndTask w
      end
    | EndTask =>
      (* final_awaiter::await_suspend: notify_task_completion *)
      w ← set_point a AtFinal w;
      f ← get a w;
      match the_promise f with
      | TaskPromise _ _ => Fault WildPointer
      | WhenAllTaskPromise rc _ =>
        rc ← or_fault NullDeref rc;
        '(old, w) ← fetch_sub rc w;
        if decide (old = 1) then c ← get_counter rc w; h ← or_fault NullDeref (awaiting_coro c); resume h w
        else Ret w
      end
    end
  end.

(** [coroutine_handle::resume()] *)
Definition resume (fuel : nat) (a : addr) (w : world) : outcome world :=
  f ← get a w;
  match at_point f with
  | AtDefer k => w ← set_point a Running w; exec fuel a (Body k) w
  | AtWhenAll ts _ k =>
    w ← set_point a Running w; w ← for_each task_destructor ts w; exec fuel a (Body k) w
  | AtInitial => w ← set_point a Running w; exec fuel a AwaitTask w
  | AtTask => w ← set_point a Running w; exec fuel a EndTask w
  | Running | AtFinal => Fault BadResume
  end.

(** A call of a task: it starts at once. *)
Definition call (fuel : nat) (b : body) (w : world) : outcome (addr * world) :=
  let '(a, w) := new_frame (Frame (TaskPromise null false) Running) w in
  w ← exec fuel a (Body b) w; Ret (a, w).

(** [task::resume()] *)
Definition task_resume (fuel : nat) (a : addr) (w : world) : outcome (bool * world) :=
  f ← get a w;
  w ← (if done f then Ret w else resume fuel a w);
  f ← get a w;
  Ret (negb (done f), w).

(** [task_scheduler::run()]: the front is popped after it has been resumed. *)
Fixpoint run (n fuel : nat) (w : world) : outcome world :=
  match n with
  | O => Diverged
  | S n =>
    match tasks w with
    | [] => Ret w
    | a :: _ => w ← resume fuel a w; run n fuel (World (heap w) (tail (tasks w)) (out w))
    end
  end.

(** ** The example *)

Definition line (func s : string) : string := "[" +:+ func +:+ "] " +:+ s.

Definition bar : body := Trace (line "bar" "enter") (Defer (Trace (line "bar" "exit") Return)).
Definition baz : body := Trace (line "baz" "enter") (Defer (Trace (line "baz" "exit") Return)).
Definition foo : body := Trace (line "foo" "enter") (WhenAll [bar; baz] (Trace (line "foo" "exit") Return)).

(** [main], for any coroutine in the place of [foo] *)
Definition main_of (fuel : nat) (b : body) : outcome world :=
  '(t, w) ← call fuel b (World ∅ [] []);
  '(_, w) ← task_resume fuel t w;
  w ← run fuel fuel w;
  task_destructor t w.

Definition main (fuel : nat) : outcome world := main_of fuel foo.

Example main_faults : main 50 = Fault Dangling.
Proof. reflexivity. Qed.

(** Before the scheduler runs, everything has been printed. *)
Example example_prints :
  ('(t, w) ← call 50 foo (World ∅ [] []); Ret (out w)) =
  Ret [line "foo" "enter"; line "bar" "enter"; line "baz" "enter"; line "bar" "exit"; line "baz" "exit"; line "foo" "exit"].
Proof. reflexivity. Qed.

(** ** Runs of [trace] *)

Local Open Scope nat_scope.

Fixpoint traces (l : list string) (k : body) : body :=
  match l with [] => k | s :: l => Trace s (traces l k) end.

Lemma exec_traces l fuel a k w :
  exec (length l + fuel) a (Body (traces l k)) w = exec fuel a (Body k) (World (heap w) (tasks w) (out w ++ l)).
Proof.
  revert w. induction l as [|s l IH]; intros w; cbn; [destruct w; by rewrite app_nil_r|].
  rewrite IH. cbn. by rewrite <- app_assoc.
Qed.

Lemma exec_traces_le l n fuel a k w :
  length l + n <= fuel ->
  exists fuel', n <= fuel' /\
    exec fuel a (Body (traces l k)) w = exec fuel' a (Body k) (World (heap w) (tasks w) (out w ++ l)).
Proof.
  intros Hf. exists (fuel - length l). split; [lia|]. rewrite <- exec_traces. f_equal. lia.
Qed.

Lemma get_eq a f w : heap w !! a = Some f -> get a w = Ret f.
Proof. intros E. unfold get. by rewrite E. Qed.

Lemma ts_set_point_eq a f p w :
  heap w !! a = Some f -> set_point a p w = Ret (put a (Frame (the_promise f) p) w).
Proof. intros E. unfold set_point. by rewrite (get_eq _ _ _ E). Qed.

(** A task that ends before it is awaited. *)
Lemma exec_Return fuel a h w p :
  heap w !! a = Some (Frame (TaskPromise h false) p) ->
  exec (S fuel) a (Body Return) w = Ret (put a (Frame (TaskPromise h true) AtFinal) w).
Proof. intros E. cbn [exec]. by rewrite (get_eq _ _ _ E). Qed.

Lemma exec_Defer fuel a f k w :
  heap w !! a = Some f ->
  exec (S fuel) a (Body (Defer k)) w = Ret (schedule a (put a (Frame (the_promise f) (AtDefer k)) w)).
Proof. intros E. cbn [exec]. unfold defer_on. by rewrite (ts_set_point_eq _ _ _ _ E). Qed.

(** Evaluation of frame accesses whose outcome is known. *)
Ltac ts_look :=
  repeat first
    [ rewrite lookup_insert_eq
    | rewrite lookup_insert_ne by congruence
    | match goal with E : ?h !! ?x = Some _ |- context [?h !! ?x] => rewrite E end ].
Ltac ts_step :=
  unfold set_point, get, put;
  cbn [heap tasks out the_promise at_point done]; ts_look; cbn [or_fault]; run_bind;
  cbn [heap tasks out the_promise at_point done].

(** ** [when_all] of tasks that defer themselves once *)

(** What such a task prints before and after it defers. *)
Definition deferring (c : list string * list string) : body := traces (fst c) (Defer (traces (snd c) Return)).
Definition deferred (c : list string * list string) : frame :=
  Frame (TaskPromise null false) (AtDefer (traces (snd c) Return)).

Abbreviation leaf := (list string * list string)%type.

Lemma call_all_deferring cs fuel w :
  (forall c, c ∈ cs -> length (fst c) < fuel) ->
  exists ts w', call_all (exec fuel) (map deferring cs) w = Ret (ts, w') /\
    length ts = length cs /\ NoDup ts /\ (forall t, t ∈ ts -> heap w !! t = None) /\
    (forall i t c, ts !! i = Some t -> cs !! i = Some c -> heap w' !! t = Some (deferred c)) /\
    (forall x, x ∉ ts -> heap w' !! x = heap w !! x) /\
    tasks w' = tasks w ++ ts /\ out w' = out w ++ concat (map fst cs).
Proof.
  revert w. induction cs as [|c cs IH]; intros w Hf.
  - exists [], w. rewrite !app_nil_r. repeat split; try done; [constructor|]. by intros t ?%elem_of_nil.
  - cbn [map call_all]. unfold new_frame. change (deferring c) with (traces (fst c) (Defer (traces (snd c) Return))). set (t := fresh (dom (heap w))).
    assert (heap w !! t = None) as Ht by apply not_elem_of_dom, is_fresh.
    destruct (exec_traces_le (fst c) 1 fuel t (Defer (traces (snd c) Return))
                (put t (Frame (TaskPromise null false) Running) w)) as (fuel' & Hf' & ->).
    { specialize (Hf c ltac:(by left)). lia. }
    destruct fuel' as [|fuel']; [lia|].
    rewrite (exec_Defer _ _ (Frame (TaskPromise null false) Running)) by apply lookup_insert_eq. run_bind.
    unfold schedule, put. cbn [heap tasks out the_promise]. rewrite insert_insert_eq.
    set (w1 := World _ _ _). destruct (IH w1) as (ts & w' & -> & Hl & Hn & Hnone & Hsome & Hother & Ht' & Ho).
    { intros c' Hc'. apply Hf. by right. }
    run_bind. cbn [heap tasks out w1] in *.
    assert (t ∉ ts) as Htn. { intros Hin. specialize (Hnone t Hin). by rewrite lookup_insert_eq in Hnone. }
    exists (t :: ts), w'. split; [done|]. split; [cbn; lia|]. split; [by constructor|]. split; [|split; [|split]].
    + intros x [->|Hx]%elem_of_cons; [done|]. specialize (Hnone x Hx).
      by rewrite lookup_insert_ne in Hnone by congruence.
    + intros [|i] t' c' E1 E2; cbn in E1, E2; [|by eapply Hsome]. simplify_eq.
      rewrite Hother, lookup_insert_eq by done. done.
    + intros x [Hxt Hx]%not_elem_of_cons. by rewrite Hother, lookup_insert_ne by done.
    + cbn [concat map]. by rewrite Ht', Ho, <- !app_assoc.
Qed.

Lemma make_tasks_spec ts w :
  exists ss w', make_tasks ts w = (ss, w') /\
    length ss = length ts /\ NoDup ss /\ (forall s, s ∈ ss -> heap w !! s = None) /\
    (forall i s t, ss !! i = Some s -> ts !! i = Some t ->
       heap w' !! s = Some (Frame (WhenAllTaskPromise null t) AtInitial)) /\
    (forall x, x ∉ ss -> heap w' !! x = heap w !! x) /\ tasks w' = tasks w /\ out w' = out w.
Proof.
  revert w. induction ts as [|t ts IH]; intros w.
  - exists [], w. repeat split; try done; [constructor|]. by intros s ?%elem_of_nil.
  - cbn [make_tasks]. unfold new_frame. set (s := fresh (dom (heap w))).
    assert (heap w !! s = None) as Hs by apply not_elem_of_dom, is_fresh.
    set (w1 := put s _ w). destruct (IH w1) as (ss & w' & -> & Hl & Hn & Hnone & Hsome & Hother & Ht' & Ho).
    cbn [heap tasks out w1 put] in *.
    assert (s ∉ ss) as Hsn. { intros Hin. specialize (Hnone s Hin). by rewrite lookup_insert_eq in Hnone. }
    exists (s :: ss), w'. split; [done|]. split; [cbn; lia|]. split; [by constructor|]. split; [|split; [|split; [|done]]].
    + intros x [->|Hx]%elem_of_cons; [done|]. specialize (Hnone x Hx).
      by rewrite lookup_insert_ne in Hnone by congruence.
    + intros [|i] s' t' E1 E2; cbn in E1, E2; [|by eapply Hsome]. simplify_eq.
      rewrite Hother, lookup_insert_eq by done. done.
    + intros x [Hxt Hx]%not_elem_of_cons. by rewrite Hother, lookup_insert_ne by done.
Qed.

(** Starting one of them: it is resumed, ends, and the counter goes down. *)
Lemma start_deferred fuel a ap ss c h k s t l w :
  length (snd l) + 6 <= fuel -> (2 <= c < 2 ^ 64)%Z -> a <> s -> a <> t -> s <> t ->
  heap w !! a = Some (Frame ap (AtWhenAll ss (Counter c h) k)) ->
  heap w !! s = Some (Frame (WhenAllTaskPromise null t) AtInitial) -> heap w !! t = Some (deferred l) ->
  exists w', (w ← set_remaining_counter s a w; resume fuel s w) = Ret w' /\
    heap w' !! a = Some (Frame ap (AtWhenAll ss (Counter (c - 1) h) k)) /\
    heap w' !! s = Some (Frame (WhenAllTaskPromise (Some a) t) AtFinal) /\
    heap w' !! t = Some (Frame (TaskPromise (Some s) true) AtFinal) /\
    (forall x, x <> a -> x <> s -> x <> t -> heap w' !! x = heap w !! x) /\
    tasks w' = tasks w /\ out w' = out w ++ snd l.
Proof.
  intros Hf Hc Has Hat Hst Ea Es Et. destruct w as [h0 q o]. cbn [heap tasks out] in *.
  unfold deferred in Et. unfold set_remaining_counter, resume. do 3 ts_step.
  destruct fuel as [|fuel]; [lia|]. cbn [exec]. do 4 ts_step.
  match goal with |- context [exec fuel t (Body (traces ?x Return)) ?w] =>
    destruct (exec_traces_le x 1 fuel t Return w) as (fuel' & Hf' & ->); [lia|] end.
  destruct fuel' as [|fuel']; [lia|].
  rewrite (exec_Return _ _ null _ Running) by apply lookup_insert_eq. run_bind.
  unfold try_set_continuation. ts_step. cbn [negb]. run_bind. ts_step.
  destruct fuel as [|fuel]; [lia|]. cbn [exec]. do 2 ts_step.
  unfold fetch_sub, get_counter, set_counter. do 2 ts_step. cbn [count awaiting_coro].
  do 2 ts_step. cbn [count awaiting_coro]. rewrite decide_False by lia. rewrite u64_small by lia.
  eexists. split; [done|]. cbn [heap tasks out]. ts_look. repeat (split; [done|]). split; [|done].
  intros x Hxa Hxs Hxt. by ts_look.
Qed.

(** The intermediate coroutines [s], their tasks [t], and what these print. *)
Abbreviation triple := (addr * addr * leaf)%type.
Definition addrs (sts : list triple) : list addr := flat_map (fun x => [fst (fst x); snd (fst x)]) sts.
Definition firsts (sts : list triple) : list addr := map (fun x => fst (fst x)) sts.

Lemma in_addrs s t l sts : (s, t, l) ∈ sts -> s ∈ addrs sts /\ t ∈ addrs sts.
Proof.
  induction sts as [|[[s' t'] l'] sts IH]; [by intros ?%elem_of_nil|]. cbn.
  intros [[= -> -> ->]|H]%elem_of_cons; [split; set_solver|]. destruct (IH H). set_solver.
Qed.

(** Starting each of them. *)
Lemma start_all fuel a ap SS c h k sts w :
  (forall s t l, (s, t, l) ∈ sts -> length (snd l) + 6 <= fuel /\
     heap w !! s = Some (Frame (WhenAllTaskPromise null t) AtInitial) /\ heap w !! t = Some (deferred l)) ->
  NoDup (a :: addrs sts) -> (Z.of_nat (length sts) < c < 2 ^ 64)%Z ->
  heap w !! a = Some (Frame ap (AtWhenAll SS (Counter c h) k)) ->
  exists w', for_each (fun s w => w ← set_remaining_counter s a w; resume fuel s w) (firsts sts) w = Ret w' /\
    heap w' !! a = Some (Frame ap (AtWhenAll SS (Counter (c - Z.of_nat (length sts)) h) k)) /\
    (forall s t l, (s, t, l) ∈ sts ->
       heap w' !! s = Some (Frame (WhenAllTaskPromise (Some a) t) AtFinal) /\
       heap w' !! t = Some (Frame (TaskPromise (Some s) true) AtFinal)) /\
    (forall x, x ∉ a :: addrs sts -> heap w' !! x = heap w !! x) /\
    tasks w' = tasks w /\ out w' = out w ++ concat (map (fun x => snd (snd x)) sts).
Proof.
  revert c w. induction sts as [|[[s t] l] sts IH]; intros c w Hsts Hn Hc Ea.
  - exists w. cbn. rewrite Z.sub_0_r, app_nil_r. repeat (split; [done|]). split; [|done].
    by intros s t l H%elem_of_nil.
  - cbn [addrs flat_map firsts map fst snd length app] in *.
    apply NoDup_cons in Hn as [Ha Hn]. apply NoDup_cons in Hn as [Hs Hn]. apply NoDup_cons in Hn as [Ht Hn].
    fold (addrs sts) in *. fold (firsts sts) in *.
    rewrite !not_elem_of_cons in Ha. destruct Ha as (Has & Hat & Ha). apply not_elem_of_cons in Hs as [Hst Hs].
    destruct (Hsts s t l) as (Hf & Es & Et); [by left|].
    destruct (start_deferred fuel a ap SS c h k s t l w) as (w1 & E1 & Ea1 & Es1 & Et1 & Ho1 & Hq1 & Hout1); [lia|lia|done..|].
    destruct (IH (c - 1)%Z w1) as (w2 & E2 & Ea2 & Hf2 & Ho2 & Hq2 & Hout2); [|by constructor|lia|done|].
    { intros s' t' l' Hin. destruct (Hsts s' t' l') as (Hf' & Es' & Et'); [by right|].
      destruct (in_addrs _ _ _ _ Hin). rewrite !Ho1 by congruence. done. }
    exists w2. cbn [for_each]. rewrite E1. run_bind. split; [done|].
    replace (c - Z.of_nat (S (length sts)))%Z with (c - 1 - Z.of_nat (length sts))%Z by lia. split; [done|]. split; [|split; [|split]].
    + intros s' t' l' [[= -> -> ->]|Hin]%elem_of_cons; [|by eapply Hf2]. rewrite !Ho2 by set_solver. done.
    + intros x Hx. rewrite !not_elem_of_cons in Hx. destruct Hx as (Hxa & Hxs & Hxt & Hx).
      rewrite Ho2, Ho1 by set_solver. done.
    + congruence.
    + rewrite Hout2, Hout1. cbn. by rewrite <- app_assoc.
Qed.

(** Destroying the awaiter destroys the tasks. *)
Lemma destroy_all a sts w :
  NoDup (addrs sts) ->
  (forall s t l, (s, t, l) ∈ sts -> exists p, heap w !! s = Some (Frame (WhenAllTaskPromise (Some a) t) AtFinal) /\
       heap w !! t = Some (Frame p AtFinal) /\ match p with TaskPromise _ _ => True | _ => False end) ->
  exists w', for_each task_destructor (firsts sts) w = Ret w' /\
    (forall x, x ∈ addrs sts -> heap w' !! x = None) /\ (forall x, x ∉ addrs sts -> heap w' !! x = heap w !! x) /\
    tasks w' = tasks w /\ out w' = out w.
Proof.
  revert w. induction sts as [|[[s t] l] sts IH]; intros w Hn Hsts.
  - exists w. repeat (split; [done|]). split; [by intros x ?%elem_of_nil|done].
  - cbn [addrs flat_map firsts map fst snd app] in *. fold (addrs sts) in *. fold (firsts sts) in *.
    apply NoDup_cons in Hn as [Hs Hn]. apply NoDup_cons in Hn as [Ht Hn]. apply not_elem_of_cons in Hs as [Hst Hs].
    destruct (Hsts s t l) as (p & Es & Et & Hp); [by left|].
    destruct w as [h0 q o]. cbn [for_each heap tasks out] in *.
    change (task_destructor s (World h0 q o)) with (destroy (S (size h0)) s (World h0 q o)).
    assert (exists n, size h0 = S n) as [n ->].
    { destruct (size h0) eqn:E; [|by eexists]. apply map_size_empty_inv in E. subst h0. by rewrite lookup_empty in Es. }
    cbn [destroy heap]. rewrite Es. cbn [or_fault]. run_bind. cbn [at_point the_promise].
    run_bind. cbn [heap]. rewrite Et. cbn [or_fault]. run_bind. cbn [at_point the_promise]. run_bind. destruct p as [p1 p2|]; [|done].
    run_bind. cbn [heap tasks out].
    destruct (IH (World (delete s (delete t h0)) q o)) as (w' & E & Hin & Hout & Hq & Ho); [done| |].
    { intros s' t' l' H. destruct (in_addrs _ _ _ _ H). cbn [heap]. rewrite !lookup_delete_ne by congruence.
      eapply Hsts. by right. }
    exists w'. split; [done|]. cbn [heap tasks out] in *. split; [|split; [|done]].
    + intros x Hx. destruct (decide (x ∈ addrs sts)) as [|Hx']; [by apply Hin|]. rewrite Hout by done.
      apply elem_of_cons in Hx as [->|Hx]; [apply lookup_delete_eq|].
      apply elem_of_cons in Hx as [->|Hx]; [|done]. rewrite lookup_delete_ne by done. apply lookup_delete_eq.
    + intros x [Hxs [Hxt Hx]%not_elem_of_cons]%not_elem_of_cons. rewrite Hout, !lookup_delete_ne by done. done.
Qed.

(** The three lists together. *)
Definition triples (ss ts : list addr) (cs : list leaf) : list triple := zip (zip ss ts) cs.

Lemma triples_lookup ss ts cs s t l :
  (s, t, l) ∈ triples ss ts cs -> exists i, ss !! i = Some s /\ ts !! i = Some t /\ cs !! i = Some l.
Proof.
  intros [i Hi]%list_elem_of_lookup. exists i. apply lookup_zip_Some in Hi as [Hi ?].
  by apply lookup_zip_Some in Hi as [? ?].
Qed.

Lemma triples_perm ss ts cs :
  length ss = length ts -> length ts = length cs -> 
  addrs (triples ss ts cs) ≡ₚ ss ++ ts /\ firsts (triples ss ts cs) = ss /\
  map (fun x => snd (snd x)) (triples ss ts cs) = map snd cs /\ length (triples ss ts cs) = length cs.
Proof.
  revert ts cs. induction ss as [|s ss IH]; intros [|t ts] [|l cs]; try done. cbn. intros [= H1] [= H2].
  destruct (IH ts cs H1 H2) as (Hp & Hf & Hm & Hl). unfold triples, firsts, addrs in *. rewrite Hf, Hm, Hl.
  split; [|done]. rewrite Hp. constructor. by rewrite Permutation_middle.
Qed.

(** ** The example, for any number of tasks *)

Definition foo_of (pre : list string) (cs : list leaf) (post : list string) : body :=
  traces pre (WhenAll (map deferring cs) (traces post Return)).

Definition leaf_size (c : leaf) : nat := length (fst c) + length (snd c).

(** The new coroutines are apart. *)
Lemma new_apart a ss ts cs w1 w2 :
  a ∉ ts -> a ∉ ss -> length ss = length ts -> length ts = length cs -> NoDup ss -> NoDup ts ->
  (forall s, s ∈ ss -> heap w1 !! s = None) ->
  (forall i t c, ts !! i = Some t -> cs !! i = Some c -> heap w1 !! t = Some (deferred c)) ->
  (forall i s t, ss !! i = Some s -> ts !! i = Some t -> heap w2 !! s = Some (Frame (WhenAllTaskPromise null t) AtInitial)) ->
  (forall x, x ∉ ss -> heap w2 !! x = heap w1 !! x) ->
  NoDup (a :: addrs (triples ss ts cs)) /\
  forall s t l, (s, t, l) ∈ triples ss ts cs ->
    s <> a /\ t <> a /\ heap w2 !! s = Some (Frame (WhenAllTaskPromise null t) AtInitial) /\ heap w2 !! t = Some (deferred l).
Proof.
  intros Hats Hass Hls Hlt Hns Hnt Hsnone Hts Hss Hother.
  assert (forall t, t ∈ ts -> t ∉ ss) as Htss.
  { intros t [i Hi]%list_elem_of_lookup Hin. specialize (Hsnone t Hin).
    destruct (lookup_lt_is_Some_2 cs i) as [c Hc]; [rewrite <- Hlt; by eapply lookup_lt_Some|].
    by rewrite (Hts i t c Hi Hc) in Hsnone. }
  destruct (triples_perm ss ts cs Hls Hlt) as (Hperm & _). split.
  - rewrite Hperm. constructor; [set_solver|]. apply NoDup_app. split; [done|]. split; [|done]. set_solver.
  - intros s t l (i & Hsi & Hti & Hli)%triples_lookup. pose proof (list_elem_of_lookup_2 _ _ _ Hsi).
    pose proof (list_elem_of_lookup_2 _ _ _ Hti). split; [by intros ->|]. split; [by intros ->|].
    split; [by eapply Hss|]. rewrite Hother by auto. by eapply Hts.
Qed.

(** All the tasks have ended: the awaiting coroutine does not suspend, and
    drops them. *)
Lemma finish_when_all fuel a sts k w :
  NoDup (a :: addrs sts) ->
  heap w !! a = Some (Frame (TaskPromise null false) (AtWhenAll (firsts sts) (Counter 1 null) k)) ->
  (forall s t l, (s, t, l) ∈ sts ->
     heap w !! s = Some (Frame (WhenAllTaskPromise (Some a) t) AtFinal) /\
     heap w !! t = Some (Frame (TaskPromise (Some s) true) AtFinal)) ->
  exists w', ('(suspend, w) ← try_await a (Some a) w;
      if (suspend : bool) then Ret w
      else w ← set_point a Running w; w ← for_each task_destructor (firsts sts) w; exec fuel a (Body k) w)
    = exec fuel a (Body k) w' /\
    (forall x, x ∈ addrs sts -> heap w' !! x = None) /\
    heap w' !! a = Some (Frame (TaskPromise null false) Running) /\
    tasks w' = tasks w /\ out w' = out w.
Proof.
  intros [Ha Hnd]%NoDup_cons Ea Hfin. destruct w as [h q o]. cbn [heap tasks out] in *.
  unfold try_await, fetch_sub, get_counter, set_counter. do 5 ts_step. cbn [count awaiting_coro].
  do 3 ts_step. rewrite bool_decide_eq_false_2 by done. rewrite !insert_insert_eq.
  destruct (destroy_all a sts (World (<[a := Frame (TaskPromise null false) Running]> h) q o)) as
    (w' & -> & Hnone & Hother & Hq & Ho); [done| |].
  { intros s t l Hin. destruct (in_addrs _ _ _ _ Hin). destruct (Hfin s t l Hin) as [Es Et].
    exists (TaskPromise (Some s) true). cbn [heap]. by rewrite !lookup_insert_ne by congruence. }
  run_bind. exists w'. cbn [heap] in Hother. split; [done|]. split; [done|]. split; [by rewrite Hother, lookup_insert_eq|done].
Qed.

(** [co_await when_all(...)] of deferring tasks does not suspend: starting the
    tasks resumes them, they end, and their frames are destroyed. *)
Lemma exec_WhenAll fuel a cs k w :
  (forall c, c ∈ cs -> leaf_size c + 6 <= fuel) -> (Z.of_nat (length cs) + 1 < 2 ^ 64)%Z ->
  heap w !! a = Some (Frame (TaskPromise null false) Running) ->
  exists ts w', exec (S fuel) a (Body (WhenAll (map deferring cs) k)) w = exec fuel a (Body k) w' /\
    length ts = length cs /\ (forall t, t ∈ ts -> t <> a /\ heap w' !! t = None) /\
    heap w' !! a = Some (Frame (TaskPromise null false) Running) /\
    tasks w' = tasks w ++ ts /\ out w' = out w ++ concat (map fst cs) ++ concat (map snd cs).
Proof.
  intros Hf Hn Ea. cbn [exec].
  destruct (call_all_deferring cs fuel w) as (ts & w1 & -> & Hlt & Hnt & Hnone & Hts & Hother & Hq & Ho).
  { intros c Hc. specialize (Hf c Hc). unfold leaf_size in Hf. lia. }
  run_bind. destruct (make_tasks_spec ts w1) as (ss & w2 & -> & Hls & Hns & Hsnone & Hss & Hother2 & Hq2 & Ho2).
  assert (a ∉ ts) as Hats by (intros Hin; specialize (Hnone a Hin); congruence).
  assert (a ∉ ss) as Hass by (intros Hin; specialize (Hsnone a Hin); rewrite Hother in Hsnone by done; congruence).
  destruct (new_apart a ss ts cs w1 w2) as [Hnd Hnew]; try done.
  destruct (triples_perm ss ts cs Hls Hlt) as (Hperm & Hfirsts & Hsnds & Hlen).
  rewrite (ts_set_point_eq a (Frame (TaskPromise null false) Running)) by by rewrite Hother2, Hother.
  run_bind. cbn [the_promise].
  match goal with |- context [for_each _ ss ?w] =>
    destruct (start_all fuel a (TaskPromise null false) ss (u64 (Z.of_nat (length ss) + 1)) null k
      (triples ss ts cs) w) as (w3 & E3 & Ea3 & Hfin & Ho3 & Hq3 & Hout3) end.
  { intros s t l Hin. destruct (Hnew s t l Hin) as (? & ? & Es & Et). unfold put. cbn [heap].
    rewrite !lookup_insert_ne by congruence. split; [|done].
    apply triples_lookup in Hin as (i & _ & _ & Hli). specialize (Hf l ltac:(by eapply list_elem_of_lookup_2)).
    unfold leaf_size in Hf. lia. }
  { done. }
  { rewrite Hlen, Hls, Hlt, u64_small by lia. lia. }
  { apply lookup_insert_eq. }
  rewrite Hfirsts in E3. unfold resume in E3. rewrite E3. run_bind.
  rewrite Hlen, Hls, Hlt, u64_small in Ea3 by lia.
  replace (Z.of_nat (length cs) + 1 - Z.of_nat (length cs))%Z with 1%Z in Ea3 by lia. rewrite <- Hfirsts in Ea3 |- *.
  destruct (finish_when_all fuel a (triples ss ts cs) k w3 Hnd Ea3 Hfin) as (w' & -> & Hnone' & Ea' & Hq' & Ho').
  exists ts, w'. split; [done|]. split; [done|]. split; [|split; [done|]].
  - intros t Ht. split; [by intros ->|]. apply Hnone'. rewrite Hperm. set_solver.
  - cbn [put tasks out] in Hq3, Hout3. rewrite Hq', Hq3, Hq2, Hq, Ho', Hout3, Ho2, Ho, Hsnds.
    by rewrite <- app_assoc.
Qed.

(** The call of such a coroutine: everything runs to the end at once, the
    frames of the tasks are gone, and the scheduler still has their handles. *)
Lemma call_foo fuel pre cs post w :
  length pre + length post + sum_list_with leaf_size cs + 10 <= fuel ->
  (Z.of_nat (length cs) + 1 < 2 ^ 64)%Z ->
  exists a ts w', call fuel (foo_of pre cs post) w = Ret (a, w') /\
    length ts = length cs /\ (forall t, t ∈ ts -> heap w' !! t = None) /\
    heap w' !! a = Some (Frame (TaskPromise null true) AtFinal) /\
    tasks w' = tasks w ++ ts /\
    out w' = out w ++ pre ++ concat (map fst cs) ++ concat (map snd cs) ++ post.
Proof.
  intros Hf Hn. unfold call, new_frame, foo_of. set (a := fresh (dom (heap w))).
  destruct (exec_traces_le pre (length post + sum_list_with leaf_size cs + 10) fuel a
    (WhenAll (map deferring cs) (traces post Return)) (put a (Frame (TaskPromise null false) Running) w))
    as (f & Hf' & ->); [lia|].
  destruct f as [|f]; [lia|].
  destruct (exec_WhenAll f a cs (traces post Return)
    (World (<[a := Frame (TaskPromise null false) Running]> (heap w)) (tasks w) (out w ++ pre))) as
    (ts & w1 & E & Hl & Hnone & Ea & Hq & Ho); [|done|apply lookup_insert_eq|].
  { intros c Hc. apply list_elem_of_lookup in Hc as [i Hi]. pose proof (sum_list_with_lookup_le leaf_size cs i c Hi). lia. }
  cbn [put heap tasks out] in *. rewrite E.
  destruct (exec_traces_le post 1 f a Return w1) as (f' & Hf'' & ->); [lia|]. destruct f' as [|f']; [lia|].
  rewrite (exec_Return _ _ null _ Running) by done. run_bind. exists a, ts. eexists. split; [done|]. split; [done|].
  cbn [put heap tasks out]. split; [|split; [apply lookup_insert_eq|split; [done|]]].
  - intros t Ht. destruct (Hnone t Ht). by rewrite lookup_insert_ne.
  - by rewrite Ho, <- !app_assoc.
Qed.

(** C34. The example, with any lines and any number of tasks: [when_all] has resumed
    the tasks that deferred themselves, so that they have ended and their
    frames are gone when [main] lets the scheduler resume them. *)
Theorem example_resumes_destroyed fuel pre cs post :
  cs <> [] -> (Z.of_nat (length cs) + 1 < 2 ^ 64)%Z ->
  length pre + length post + sum_list_with leaf_size cs + 10 <= fuel ->
  main_of fuel (foo_of pre cs post) = Fault Dangling.
Proof.
  intros Hcs Hn Hf. unfold main_of.
  destruct (call_foo fuel pre cs post (World ∅ [] []) Hf Hn) as (a & ts & w & -> & Hl & Hnone & Ea & Hq & _).
  run_bind. unfold task_resume. rewrite (get_eq _ _ _ Ea). run_bind. cbn [done at_point]. run_bind.
  rewrite (get_eq _ _ _ Ea). run_bind. destruct fuel as [|fuel]; [lia|]. cbn [run]. rewrite Hq. cbn [tasks app].
  destruct ts as [|t ts]; [by destruct cs|]. unfold resume, get. by rewrite Hnone by by left.
Qed.

Lemma example_resumes_destroyed_witness : let pre := [line "foo" "enter"] in
  let cs := [([line "bar" "enter"], [line "bar" "exit"]); ([line "baz" "enter"], [line "baz" "exit"])] in
  let post := [line "foo" "exit"] in
  foo = foo_of pre cs post /\ main_of 50 (foo_of pre cs post) = Fault Dangling.
Proof.
  intros pre cs post. split; [done|].
  apply (example_resumes_destroyed 50 pre cs post); [discriminate|reflexivity|cbn; lia].
Defined.

(** ** Round robin *)

(** A task that prints [ls], a part at a time, and defers itself in between. *)
Fixpoint parts (ls : list (list string)) : body :=
  match ls with
  | [] => Return
  | [l] => traces l Return
  | l :: ls => traces l (Defer (parts ls))
  end.

(** Its frame when [ls] is left. *)
Definition part_frame (ls : list (list string)) : frame :=
  match ls with
  | [] => Frame (TaskPromise null true) AtFinal
  | _ => Frame (TaskPromise null false) (AtDefer (parts ls))
  end.

(** What is printed when the part number [r] of every task comes before the
    part number [r + 1] of any. *)
Definition rounds (n : nat) (q : list (list (list string))) : list string :=
  concat (map (fun r => concat (map (fun ls => nth r ls []) q)) (seq 0 n)).

Definition alive (ls : list (list string)) : bool := match ls with [] => false | _ => true end.
Definition left_over (q : list (list (list string))) : list (list (list string)) :=
  List.filter alive (map (fun ls => tail ls) q).

(** What a queue of tasks prints, first in, first out. *)
Fixpoint fifo (n : nat) (q : list (list (list string))) : list string :=
  match n, q with
  | S n, ls :: q => nth 0 ls [] ++ fifo n (q ++ List.filter alive [tail ls])
  | _, _ => []
  end.

Lemma rounds_S n q : rounds (S n) q = concat (map (fun ls => nth 0 ls []) q) ++ rounds n (map (fun ls => tail ls) q).
Proof.
  unfold rounds. cbn [seq map concat]. f_equal. rewrite <- seq_shift, map_map. f_equal. apply map_ext. intros r.
  rewrite map_map. f_equal. apply map_ext. intros [|l ls]; [by destruct r|done].
Qed.

Lemma rounds_filter n q : rounds n (List.filter alive q) = rounds n q.
Proof.
  unfold rounds. f_equal. apply map_ext. intros r. induction q as [|[|l ls] q IH]; cbn; [done| |by rewrite IH].
  rewrite IH. by destruct r.
Qed.

Lemma fifo_round q q' n :
  fifo (length q + n) (q ++ q') = concat (map (fun ls => nth 0 ls []) q) ++ fifo n (q' ++ left_over q).
Proof.
  revert q'. induction q as [|ls q IH]; intros q'; cbn [length app map concat plus].
  - by rewrite app_nil_r.
  - cbn [fifo]. rewrite <- app_assoc, IH, <- !app_assoc. do 4 f_equal.
    unfold left_over. cbn. by destruct (tail ls).
Qed.

Lemma left_over_sum q :
  sum_list_with length (left_over q) + length q <= sum_list_with (@length (list string)) q + count_if (fun ls => negb (alive ls)) q.
Proof.
  unfold left_over. induction q as [|[|l [|l' ls]] q IH]; [done|..]; rewrite count_if_cons;
    cbn [map List.filter alive tail negb sum_list_with length]; lia.
Qed.

Lemma fifo_rounds R q n :
  Forall alive q -> Forall (fun ls => length ls <= R) q -> sum_list_with length q <= n -> fifo n q = rounds R q.
Proof.
  revert q n. induction R as [|R IH]; intros q n Ha HR Hn.
  - destruct q as [|ls q]; [by destruct n|]. apply Forall_cons in HR as [H _], Ha as [Ha _]. by destruct ls; cbn in *; [|lia].
  - assert (length q <= sum_list_with length q) as Hl.
    { clear -Ha. induction Ha as [|ls q Hls _ IH]; cbn; [lia|]. destruct ls; [done|]. cbn. lia. }
    pose proof (fifo_round q [] (n - length q)) as E. rewrite app_nil_r in E.
    replace (length q + (n - length q)) with n in E by lia. rewrite E, rounds_S. f_equal. cbn [app]. rewrite <- (rounds_filter R (map _ q)). apply IH.
    + apply Forall_forall. intros ls [_ Hls]%list_elem_of_In%List.filter_In. by rewrite Hls.
    + apply Forall_forall. intros ls [Hin _]%list_elem_of_In%List.filter_In. apply List.in_map_iff in Hin as (ls' & <- & Hin).
      rewrite Forall_forall in HR. specialize (HR ls' ltac:(by apply list_elem_of_In)). destruct ls' as [|l' ls']; cbn in *; lia.
    + pose proof (left_over_sum q) as Hs. unfold left_over in Hs. assert (count_if (fun ls => negb (alive ls)) q = 0); [|lia].
      clear -Ha. induction Ha as [|ls q Hls _ IH]; [done|]. rewrite count_if_cons, IH. by destruct ls.
Qed.

(** One stretch of such a task. *)
Lemma exec_parts fuel a ls h q o :
  alive ls -> length (nth 0 ls []) + 1 <= fuel -> h !! a = Some (Frame (TaskPromise null false) Running) ->
  exec fuel a (Body (parts ls)) (World h q o) =
  Ret (World (<[a := part_frame (tail ls)]> h) (q ++ (if alive (tail ls) then [a] else [])) (o ++ nth 0 ls [])).
Proof.
  intros Ha Hf E. destruct ls as [|l [|l' ls]]; [done|..]; cbn [tail alive nth] in *.
  - cbn [parts part_frame]. destruct (exec_traces_le l 1 fuel a Return (World h q o)) as (f & Hf' & ->); [lia|].
    destruct f as [|f]; [lia|]. rewrite (exec_Return _ _ null _ Running) by done. by rewrite app_nil_r.
  - change (parts (l :: l' :: ls)) with (traces l (Defer (parts (l' :: ls)))).
    destruct (exec_traces_le l 1 fuel a (Defer (parts (l' :: ls))) (World h q o)) as (f & Hf' & ->); [lia|].
    destruct f as [|f]; [lia|]. by rewrite (exec_Defer _ _ (Frame (TaskPromise null false) Running)) by done.
Qed.

(** The tasks that wait in the queue. *)
Definition waiting (h : gmap addr frame) (ats : list (addr * list (list string))) : Prop :=
  NoDup ats.*1 /\ forall a ls, (a, ls) ∈ ats -> alive ls /\ h !! a = Some (part_frame ls).

(** The queue after the front [(a, ls)] has been resumed and popped. *)
Definition requeue (a : addr) (ls : list (list string)) (ats : list (addr * list (list string))) :=
  ats ++ if alive (tail ls) then [(a, tail ls)] else [].

Lemma requeue_fst a ls ats : (requeue a ls ats).*1 = ats.*1 ++ if alive (tail ls) then [a] else [].
Proof. unfold requeue. rewrite fmap_app. by destruct (alive (tail ls)). Qed.

Lemma requeue_snd a ls ats : (requeue a ls ats).*2 = ats.*2 ++ List.filter alive [tail ls].
Proof. unfold requeue. rewrite fmap_app. cbn. by destruct (alive (tail ls)). Qed.

Lemma requeue_elem a ls ats x ls' :
  (x, ls') ∈ requeue a ls ats -> (x, ls') ∈ ats \/ x = a /\ ls' = tail ls /\ alive (tail ls).
Proof.
  intros [H|H]%elem_of_app; [by left|right]. destruct (alive (tail ls)); [|by apply elem_of_nil in H].
  apply list_elem_of_singleton in H. by simplify_eq.
Qed.

Lemma requeue_waiting h a ls ats :
  waiting h ((a, ls) :: ats) -> waiting (<[a := part_frame (tail ls)]> h) (requeue a ls ats).
Proof.
  intros [[Han Hn]%NoDup_cons Hw]. cbn in Han. split.
  - rewrite requeue_fst. destruct (alive (tail ls)); [|by rewrite app_nil_r].
    apply NoDup_app. split; [done|]. split; [|apply NoDup_singleton]. by intros x Hx ->%list_elem_of_singleton.
  - intros x ls' [H|(-> & -> & H)]%requeue_elem; [|by rewrite lookup_insert_eq]. rewrite lookup_insert_ne.
    + apply Hw. by right.
    + intros ->. apply Han. by apply (list_elem_of_fmap_2 fst) in H.
Qed.

(** Every task has ended, and no other frame has changed. *)
Definition all_done (h h' : gmap addr frame) (ats : list (addr * list (list string))) : Prop :=
  (forall a, a ∈ ats.*1 -> h' !! a = Some (part_frame [])) /\ (forall a, a ∉ ats.*1 -> h' !! a = h !! a).

Lemma requeue_done h h' a ls ats :
  all_done (<[a := part_frame (tail ls)]> h) h' (requeue a ls ats) -> all_done h h' ((a, ls) :: ats).
Proof.
  intros [Hin Hout]. rewrite requeue_fst in Hin, Hout. split; cbn.
  - intros x Hx. destruct (decide (x ∈ ats.*1 ++ if alive (tail ls) then [a] else [])) as [H|H]; [by apply Hin|].
    rewrite Hout by done. apply not_elem_of_app in H as [H1 H2].
    apply elem_of_cons in Hx as [->|Hx]; [|done]. rewrite lookup_insert_eq.
    destruct (tail ls) as [|l ls']; [done|]. exfalso. apply H2. by left.
  - intros x [Hxa Hx]%not_elem_of_cons. rewrite Hout, lookup_insert_ne; [done|done|].
    intros [H|H]%elem_of_app; [done|]. destruct (alive (tail ls)); [|by apply elem_of_nil in H].
    by apply list_elem_of_singleton in H.
Qed.

Lemma run_nil n fuel h o : run (S n) fuel (World h [] o) = Ret (World h [] o).
Proof. reflexivity. Qed.

Lemma run_fifo n m fuel ats h o :
  waiting h ats -> (forall a ls l, (a, ls) ∈ ats -> l ∈ ls -> length l + 1 <= fuel) ->
  sum_list_with length ats.*2 <= m -> m < n ->
  exists h', run n fuel (World h ats.*1 o) = Ret (World h' [] (o ++ fifo m ats.*2)) /\ all_done h h' ats.
Proof.
  revert n ats h o. induction m as [|m IH]; intros n [|[a ls] ats] h o Hw Hf Hm Hnm; (destruct n as [|n]; [lia|]).
  1, 3: exists h; cbn [fmap list_fmap fifo]; rewrite run_nil, app_nil_r; split; [done|]; split; [by intros x ?%elem_of_nil|done].
  - destruct Hw as [_ Hw]. destruct (Hw a ls) as [Ha _]; [by left|]. destruct ls; cbn in *; [done|lia].
  - pose proof (requeue_waiting _ _ _ _ Hw) as Hw'. destruct Hw as [_ Hw]. destruct (Hw a ls) as [Ha Ea]; [by left|].
    cbn [fmap list_fmap fst snd run fifo tasks].
    assert (part_frame ls = Frame (TaskPromise null false) (AtDefer (parts ls))) as Ep by by destruct ls.
    rewrite Ep in Ea. unfold resume. do 2 ts_step.
    rewrite exec_parts; [|done| |apply lookup_insert_eq].
    2: { destruct ls as [|l ls]; [done|]. apply (Hf a (l :: ls)); by left. }
    run_bind. rewrite insert_insert_eq. cbn [heap tasks out tl app].
    change (map snd ats) with (ats.*2). rewrite <- requeue_fst, <- (requeue_snd a).
    destruct (IH n (requeue a ls ats) (<[a := part_frame (tail ls)]> h) (o ++ nth 0 ls [])) as (h' & E & Hd); [done| | |lia|].
    + intros x ls' l [H|(-> & -> & H)]%requeue_elem Hl'; [apply (Hf x ls'); [by right|done]|].
      apply (Hf a ls); [by left|]. destruct ls; [done|by right].
    + rewrite requeue_snd, sum_list_with_app. cbn [fmap list_fmap snd sum_list_with] in Hm.
      destruct ls as [|l [|l' ls]]; [done|..]; cbn [List.filter tl alive sum_list_with length] in *; lia.
    + exists h'. rewrite E, <- app_assoc. split; [done|]. by apply requeue_done.
Qed.

(** The calls: every task runs up to where it first defers itself. *)
Lemma call_all_parts lss fuel w :
  (forall ls, ls ∈ lss -> alive ls /\ length (nth 0 ls []) + 1 <= fuel) ->
  exists ts w', call_all (exec fuel) (map parts lss) w = Ret (ts, w') /\
    length ts = length lss /\ NoDup ts /\ (forall t, t ∈ ts -> heap w !! t = None) /\
    (forall i t ls, ts !! i = Some t -> lss !! i = Some ls -> heap w' !! t = Some (part_frame (tail ls))) /\
    (forall x, x ∉ ts -> heap w' !! x = heap w !! x) /\
    tasks w' = tasks w ++ (List.filter (fun x => alive (snd x)) (zip ts (map (fun ls => tail ls) lss))).*1 /\
    out w' = out w ++ concat (map (fun ls => nth 0 ls []) lss).
Proof.
  revert w. induction lss as [|ls lss IH]; intros w Hf.
  - exists [], w. rewrite !app_nil_r. repeat split; try done; [constructor|]. by intros t ?%elem_of_nil.
  - cbn [map call_all]. unfold new_frame. set (t := fresh (dom (heap w))).
    assert (heap w !! t = None) as Ht by apply not_elem_of_dom, is_fresh.
    destruct (Hf ls) as [Ha Hl]; [by left|]. unfold put.
    rewrite exec_parts by (done || apply lookup_insert_eq). run_bind. rewrite insert_insert_eq.
    set (w1 := World _ _ _). destruct (IH w1) as (ts & w' & -> & Hlen & Hn & Hnone & Hsome & Hother & Ht' & Ho).
    { intros ls' Hls'. apply Hf. by right. }
    run_bind. cbn [heap tasks out w1] in *.
    assert (t ∉ ts) as Htn by (intros Hin; specialize (Hnone t Hin); by rewrite lookup_insert_eq in Hnone).
    exists (t :: ts), w'. split; [done|]. split; [cbn; lia|]. split; [by constructor|]. split; [|split; [|split]].
    + intros x [->|Hx]%elem_of_cons; [done|]. specialize (Hnone x Hx).
      by rewrite lookup_insert_ne in Hnone by congruence.
    + intros [|i] t' ls' E1 E2; cbn in E1, E2; [|by eapply Hsome]. simplify_eq.
      rewrite Hother, lookup_insert_eq by done. done.
    + intros x [Hxt Hx]%not_elem_of_cons. by rewrite Hother, lookup_insert_ne by done.
    + rewrite Ht', Ho, <- !app_assoc. split; [|done]. f_equal. cbn. by destruct (alive (tail ls)).
Qed.

(** The tasks that are left after the calls. *)
Definition remaining (ts : list addr) (lss : list (list (list string))) : list (addr * list (list string)) :=
  List.filter (fun x => alive (snd x)) (zip ts (map (fun ls => tail ls) lss)).

Lemma remaining_snd ts lss : length ts = length lss -> (remaining ts lss).*2 = left_over lss.
Proof.
  unfold remaining, left_over. revert lss. induction ts as [|t ts IH]; intros [|ls lss]; try done. cbn. intros [= H].
  specialize (IH lss H). destruct (alive (tail ls)); cbn; by rewrite IH.
Qed.

Lemma remaining_elem ts lss a ls :
  (a, ls) ∈ remaining ts lss -> alive ls /\ exists i ls', ts !! i = Some a /\ lss !! i = Some ls' /\ ls = tail ls'.
Proof.
  unfold remaining. intros [Hin Ha]%list_elem_of_In%List.filter_In. cbn in Ha. rewrite Ha. split; [done|].
  apply list_elem_of_In, list_elem_of_lookup in Hin as [i Hi]. apply lookup_zip_Some in Hi as [Ht Hl].
  rewrite list_lookup_fmap in Hl. destruct (lss !! i) as [ls'|] eqn:E; [|done]. exists i, ls'. by simplify_eq/=.
Qed.

Lemma remaining_NoDup ts lss : NoDup ts -> NoDup (remaining ts lss).*1.
Proof.
  unfold remaining. revert lss. induction ts as [|t ts IH]; intros lss Hn; [constructor|].
  apply NoDup_cons in Hn as [Ht Hn]. destruct lss as [|ls lss]; [constructor|]. cbn.
  destruct (alive (tail ls)); cbn; [|by apply IH]. constructor; [|by apply IH].
  intros ((a & ls') & -> & Hin%list_elem_of_In%List.filter_In)%list_elem_of_fmap. destruct Hin as [Hin%list_elem_of_In _].
  apply Ht. cbn. apply list_elem_of_lookup in Hin as [i Hi]. apply lookup_zip_Some in Hi as [Hi _].
  by eapply list_elem_of_lookup_2.
Qed.

(** C33. The scheduler is fair: tasks that are called in order and defer themselves
    between their parts print in rounds, the first parts of all of them, then
    the second parts, and so on; [run] returns with an empty queue when every
    task has ended. *)
Theorem scheduler_round_robin fuel R lss :
  Forall (fun ls => alive ls /\ length ls <= R) lss ->
  Forall (Forall (fun l => length l < fuel)) lss -> sum_list_with length lss < fuel ->
  exists ts w w', call_all (exec fuel) (map parts lss) (World ∅ [] []) = Ret (ts, w) /\
    run fuel fuel w = Ret w' /\ out w' = rounds R lss /\ tasks w' = [] /\
    length ts = length lss /\ forall t, t ∈ ts -> exists f, heap w' !! t = Some f /\ done f.
Proof.
  intros Ha Hl0 Hf. rewrite Forall_forall in Ha.
  assert (forall ls l, ls ∈ lss -> l ∈ ls -> length l + 1 <= fuel) as Hl.
  { intros ls l Hls Hin. rewrite Forall_forall in Hl0. specialize (Hl0 ls Hls). rewrite Forall_forall in Hl0.
    specialize (Hl0 l Hin). lia. }
  destruct (call_all_parts lss fuel (World ∅ [] [])) as (ts & w & E & Hlen & Hn & _ & Hsome & _ & Ht & Ho).
  { intros ls Hls. destruct (Ha ls Hls) as [Ha' _]. split; [done|]. destruct ls as [|l ls]; [done|]. apply (Hl (l :: ls)); [done|by left]. }
  destruct w as [h q o]. cbn [heap tasks out app] in *. fold (remaining ts lss) in Ht. subst q o.
  assert (waiting h (remaining ts lss)) as Hw.
  { split; [by apply remaining_NoDup|]. intros a ls (Hals & i & ls' & Hti & Hli & ->)%remaining_elem. split; [done|by eapply Hsome]. }
  assert (sum_list_with length (left_over lss) <= sum_list_with length lss) as Hsum.
  { pose proof (left_over_sum lss). pose proof (count_if_le (fun ls => negb (alive ls)) lss). lia. }
  destruct (run_fifo fuel (sum_list_with length (remaining ts lss).*2) fuel (remaining ts lss) h
    (concat (map (fun ls => nth 0 ls []) lss))) as (h' & Er & Hin & Hout); [done| |done|by rewrite remaining_snd; lia|].
  { intros a ls l (_ & i & ls' & _ & Hli & ->)%remaining_elem Hin. apply (Hl ls'); [by eapply list_elem_of_lookup_2|].
    destruct ls'; [done|by right]. }
  exists ts, (World h (remaining ts lss).*1 (concat (map (fun ls => nth 0 ls []) lss))). eexists.
  split; [done|]. split; [done|]. cbn [out tasks heap]. split; [|split; [done|split; [done|]]].
  - rewrite remaining_snd by done. destruct R as [|R].
    + destruct lss as [|ls lss]; [done|]. destruct (Ha ls) as [H1 H2]; [by left|]. by destruct ls; cbn in *; [|lia].
    + rewrite rounds_S, <- (rounds_filter R). f_equal. apply fifo_rounds; [..|done].
      * apply Forall_forall. intros ls [_ Hls]%list_elem_of_In%List.filter_In. by rewrite Hls.
      * apply Forall_forall. intros ls [(ls' & <- & Hin')%List.in_map_iff _]%list_elem_of_In%List.filter_In.
        destruct (Ha ls') as [_ H]; [by apply list_elem_of_In|]. destruct ls'; cbn in *; lia.
  - intros t [i Hi]%list_elem_of_lookup. destruct (decide (t ∈ (remaining ts lss).*1)) as [H|H].
    + eexists. split; [by apply Hin|done].
    + destruct (lookup_lt_is_Some_2 lss i) as [ls Hls]; [rewrite <- Hlen; by eapply lookup_lt_Some|].
      rewrite Hout, (Hsome i t ls Hi Hls) by done. eexists. split; [done|]. destruct (tail ls) as [|l' ls'] eqn:Et; [done|].
      exfalso. apply H. apply (list_elem_of_fmap_2' fst _ (t, tail ls)); [|done].
      apply list_elem_of_In, List.filter_In. rewrite Et. split; [|done]. apply list_elem_of_In, (list_elem_of_lookup_2 _ i).
      apply lookup_zip_Some. split; [done|]. rewrite <- Et. rewrite list_lookup_fmap. by rewrite Hls.
Qed.

Lemma scheduler_round_robin_witness : let lss := [[["a1"]; ["a2"]]; [["b1"]; ["b2"]; ["b3"]]] in
  rounds 3 lss = ["a1"; "b1"; "a2"; "b2"; "b3"] /\
  exists ts w w', call_all (exec 9) (map parts lss) (World ∅ [] []) = Ret (ts, w) /\
    run 9 9 w = Ret w' /\ out w' = rounds 3 lss /\ tasks w' = [] /\
    length ts = length lss /\ forall t, t ∈ ts -> exists f, heap w' !! t = Some f /\ done f.
Proof.
  intros lss. split; [done|].
  apply (scheduler_round_robin 9 3 lss); [repeat constructor|repeat constructor|]; cbn; lia.
Defined.
End TaskScheduler.
