(* ===== verification/SyncQueue.v ===== *)
(** * SyncQueue: applications/threadpool/queue.hpp and applications/timers/win-iocp/queue.hpp

    The two synchronised queues at the grain of their mutex and condition:
    [CvQueue] on a [std::mutex] and a [std::condition_variable], [WinQueue] on a
    mutex object and a manual-reset event. [QueueSpec] is what the thread pool
    and the timer service take them for, a queue whose operations take effect in
    one step between their call and their return; the theorems say when they are. *)

From S2P Require Import Prelude.

(** ** Runs that can be observed: each step shows a list of events. *)
Section Trace.
Context {S E : Type} (step : list E -> S -> S -> Prop).

Inductive trace : list E -> S -> S -> Prop :=
| trace_nil s : trace [] s s
| trace_step h h' s1 s2 s3 : step h s1 s2 -> trace h' s2 s3 -> trace (h ++ h') s1 s3.

Lemma trace_once h s s' : step h s s' -> trace h s s'.
Proof. intros H. rewrite <- (app_nil_r h). eapply trace_step; [exact H|constructor]. Qed.

Lemma trace_app h h' s1 s2 s3 : trace h s1 s2 -> trace h' s2 s3 -> trace (h ++ h') s1 s3.
Proof.
  induction 1 as [s|h1 h2 s1 s2 s2' Hs _ IH]; intros H; [done|]. rewrite <- app_assoc. eapply trace_step; [exact Hs|by apply IH].
Qed.
End Trace.

(** Simulation: [R] is kept, and the same is shown. *)
Lemma trace_simulation {S T E} (step : list E -> S -> S -> Prop) (spec : list E -> T -> T -> Prop) (R : S -> T -> Prop) :
  (forall h s s' u, R s u -> step h s s' -> exists u', trace spec h u u' /\ R s' u') ->
  forall h s s' u, R s u -> trace step h s s' -> exists u', trace spec h u u' /\ R s' u'.
Proof.
  intros Hs h s s' u Hr Ht. revert u Hr. induction Ht as [s|h h' s1 s2 s3 Hst _ IH]; intros u Hr; [by exists u; split; [constructor|]|].
  destruct (Hs _ _ _ _ Hr Hst) as (u1 & H1 & Hr1). destruct (IH _ Hr1) as (u2 & H2 & Hr2).
  exists u2. split; [by eapply trace_app|done].
Qed.

(** ** The specification *)
Module QueueSpec.
Section Spec.
Context {V : Type}.

Inductive op := OPush (values : list V) | OPop | OTryPop.
Inductive result := RPush | RPop (popped : option V).

(** A thread: between calls (with the result of its last one), in a call that has
    not yet taken effect, or in one that has. *)
Inductive call := Idle (last : option result) | Pending (o : op) | Effected (r : result).

Record spec := Spec { items : list V; calls : list call }.

(** What is seen of the queue from outside: a thread calls an operation, or
    gets its result. *)
Inductive event := Inv (t : nat) (o : op) | Res (t : nat) (r : result).

(** Calls and returns can be seen; in between, each operation takes effect in one
    step that cannot: values are added at the end and taken from the front. *)
Inductive spec_step : list event -> spec -> spec -> Prop :=
| spec_call q cs t r o : cs !! t = Some (Idle r) -> spec_step [Inv t o] (Spec q cs) (Spec q (<[t := Pending o]> cs))
| spec_push q cs t vs : cs !! t = Some (Pending (OPush vs)) ->
    spec_step [] (Spec q cs) (Spec (q ++ vs) (<[t := Effected RPush]> cs))
| spec_pop v q cs t : cs !! t = Some (Pending OPop) ->
    spec_step [] (Spec (v :: q) cs) (Spec q (<[t := Effected (RPop (Some v))]> cs))
| spec_try_pop v q cs t : cs !! t = Some (Pending OTryPop) ->
    spec_step [] (Spec (v :: q) cs) (Spec q (<[t := Effected (RPop (Some v))]> cs))
| spec_try_empty cs t : cs !! t = Some (Pending OTryPop) ->
    spec_step [] (Spec [] cs) (Spec [] (<[t := Effected (RPop None)]> cs))
| spec_return q cs t r : cs !! t = Some (Effected r) ->
    spec_step [Res t r] (Spec q cs) (Spec q (<[t := Idle (Some r)]> cs)).

Definition spec_init (n : nat) : spec := Spec [] (replicate n (Idle None)).
End Spec.
Arguments op : clear implicits.
Arguments result : clear implicits.
Arguments call : clear implicits.
Arguments spec : clear implicits.
Arguments event : clear implicits.
End QueueSpec.

(** ** Mutual exclusion: the owner of a lock is the thread that is where one holds it. *)
Module LockDiscipline.
Section Lock.
Context {P B : Type} (holds : P -> bool) (front : B -> P -> Prop).
Context (front_free : forall b p, holds p = false -> front b p).
Implicit Types (l : option nat) (ps : list P).

Definition lock_ok l ps : Prop := forall t, l = Some t <-> exists p, ps !! t = Some p /\ holds p = true.

Lemma holder l ps t p : lock_ok l ps -> ps !! t = Some p -> holds p = true -> l = Some t.
Proof. intros Hl Hp Hh. apply Hl. eauto. Qed.

Lemma not_holder l ps t p : lock_ok l ps -> ps !! t = Some p -> holds p = false -> l <> Some t.
Proof. intros Hl Hp Hh (q & Hq & Hq')%Hl. congruence. Qed.

Lemma one_holder l ps t p t' q :
  lock_ok l ps -> ps !! t = Some p -> holds p = true -> ps !! t' = Some q -> t' <> t -> holds q = false.
Proof.
  intros Hl Hp Hh Hq Hne. apply not_true_iff_false. intros Hq'.
  pose proof (holder _ _ _ _ Hl Hp Hh). pose proof (holder _ _ _ _ Hl Hq Hq'). congruence.
Qed.

(** How an action of a thread moves the lock. *)
Definition moves_lock t (p p' : P) l l' : Prop :=
  if holds p' then l' = Some t /\ (holds p = true \/ l = None) else l' = if holds p then None else l.

Lemma lock_update l ps t p p' l' :
  lock_ok l ps -> ps !! t = Some p -> moves_lock t p p' l l' -> lock_ok l' (<[t := p']> ps).
Proof.
  unfold moves_lock. intros Hl Hp Hm t'. pose proof (lookup_lt_Some _ _ _ Hp) as Hlt. destruct (decide (t' = t)) as [->|Hne].
  - rewrite list_lookup_insert_eq by done. destruct (holds p') eqn:Hp'; [destruct Hm as [-> _]; naive_solver|].
    split; [|intros (q & [= <-] & ?); congruence]. intros ->. destruct (holds p) eqn:Hh; [done|].
    by destruct (not_holder l ps t p Hl Hp Hh).
  - rewrite list_lookup_insert_ne, <- (Hl t') by done.
    destruct (holds p') eqn:Hp'; [destruct Hm as [-> Hm]|subst l'].
    + split; [by intros [= ->]|]. intros Hl'. destruct Hm as [Hh|Hn]; [|congruence].
      rewrite (holder l ps t p Hl Hp Hh) in Hl'. congruence.
    + destruct (holds p) eqn:Hh; [|done]. rewrite (holder l ps t p Hl Hp Hh). split; [done|congruence].
Qed.

Lemma front_update l ps b b' t p p' :
  lock_ok l ps -> (forall t q, ps !! t = Some q -> front b q) -> ps !! t = Some p ->
  front b' p' -> b' = b \/ holds p = true -> forall t' q, <[t := p']> ps !! t' = Some q -> front b' q.
Proof.
  intros Hl Hfs Hp Hf Hb t' q. destruct (decide (t' = t)) as [->|Hne].
  - rewrite list_lookup_insert_eq by (by eapply lookup_lt_Some). by intros [= <-].
  - rewrite list_lookup_insert_ne by done. intros Hq. destruct Hb as [->|Hh]; [by apply (Hfs t')|].
    apply front_free. by apply (one_holder l ps t p t' q).
Qed.

Lemma lock_ok_init ps : Forall (fun p => holds p = false) ps -> lock_ok None ps.
Proof. rewrite Forall_lookup. intros Hf t. split; [done|]. intros (p & Hp & Hh). rewrite (Hf _ _ Hp) in Hh. done. Qed.
End Lock.
End LockDiscipline.

(** ** applications/threadpool/queue.hpp *)
Module CvQueue.
Import QueueSpec LockDiscipline.

(** Where a thread is: outside, or at its next action in [push] and [push_batch]
    - take the lock, push the values that are left, release, notify [n] times -
    or in [pop]: take the lock, test, wait, be woken, take the front, remove it,
    release. *)
Inductive pc :=
| Outside (last : option (result ptr))
| PushLock (values : list ptr)
| Pushing (values : list ptr) (n : nat)
| Notifying (n : nat)
| PopLock
| PopTest
| Waiting
| Woken
| PopFront
| PopRemove (popped : ptr)
| PopUnlock (popped : ptr).

#[export] Instance result_eq_dec : EqDecision (result ptr).
Proof. solve_decision. Defined.
#[export] Instance pc_eq_dec : EqDecision pc.
Proof. solve_decision. Defined.

Record queue := Queue { buffer : list ptr; lock : option nat; pcs : list pc }.

Definition queue_init (n : nat) : queue := Queue [] None (replicate n (Outside None)).

Definition goto (t : nat) (p : pc) (s : queue) : queue := Queue (buffer s) (lock s) (<[t := p]> (pcs s)).
Definition set_buffer (b : list ptr) (s : queue) : queue := Queue b (lock s) (pcs s).

(** [lock.lock()], which blocks while the mutex is held, and [lock.unlock()] *)
Definition acquire (t : nat) (p : pc) (s : queue) : option queue :=
  match lock s with None => Some (Queue (buffer s) (Some t) (<[t := p]> (pcs s))) | Some _ => None end.
Definition release (t : nat) (p : pc) (s : queue) : queue := Queue (buffer s) None (<[t := p]> (pcs s)).

(** The calls *)
Definition push (value : ptr) : pc := PushLock [value].
Definition push_batch (values : list ptr) : pc := PushLock values.
Definition pop : pc := PopLock.

Definition is_nonempty_unsafe (s : queue) : bool := negb (bool_decide (buffer s = [])).

(** [non_empty_cv.notify_one()]: it wakes one waiting thread - [w], if it is
    waiting - and none only if no thread waits. *)
Definition notify_one (w : nat) (s : queue) : option queue :=
  if decide (pcs s !! w = Some Waiting) then Some (goto w Woken s)
  else if decide (Waiting ∈ pcs s) then None else Some s.

(** The next action of the thread [t]. *)
Definition step (t w : nat) (s : queue) : option (outcome queue) :=
  match pcs s !! t with
  | Some (PushLock values) => s ← acquire t (Pushing values (length values)) s; Some (Ret s)
  | Some (Pushing (v :: values) n) => Some (Ret (goto t (Pushing values n) (set_buffer (buffer s ++ [v]) s)))
  | Some (Pushing [] n) => Some (Ret (release t (Notifying n) s))
  | Some (Notifying (S n)) => s ← notify_one w s; Some (Ret (goto t (Notifying n) s))
  | Some (Notifying O) => Some (Ret (goto t (Outside (Some RPush)) s))
  | Some PopLock | Some Woken => s ← acquire t PopTest s; Some (Ret s)
  | Some PopTest => Some (Ret (if is_nonempty_unsafe s then goto t PopFront s else release t Waiting s))
  | Some PopFront =>
    Some (match buffer s with [] => Fault OutOfBounds | popped :: _ => Ret (goto t (PopRemove popped) s) end)
  | Some (PopRemove popped) =>
    Some (match buffer s with [] => Fault OutOfBounds | _ :: b => Ret (goto t (PopUnlock popped) (set_buffer b s)) end)
  | Some (PopUnlock popped) => Some (Ret (release t (Outside (Some (RPop (Some popped)))) s))
  | Some (Outside _) | Some Waiting | None => None
  end.

(** What is seen of the thread [t] when it is at [p]: the result with which an
    operation has returned. *)
Definition returned (t : nat) (p : option pc) : list (QueueSpec.event ptr) :=
  match p with Some (Outside (Some r)) => [Res t r] | _ => [] end.

(** Threads call the operations, make their actions, and may wake up by
    themselves; calls and returns can be seen. *)
Inductive cv_step : list (QueueSpec.event ptr) -> queue -> queue -> Prop :=
| CallPush t last v s : pcs s !! t = Some (Outside last) -> cv_step [Inv t (OPush [v])] s (goto t (push v) s)
| CallPushBatch t last vs s : pcs s !! t = Some (Outside last) -> cv_step [Inv t (OPush vs)] s (goto t (push_batch vs) s)
| CallPop t last s : pcs s !! t = Some (Outside last) -> cv_step [Inv t OPop] s (goto t pop s)
| Run t w s s' : step t w s = Some (Ret s') -> cv_step (returned t (pcs s' !! t)) s s'
| Spurious t s : pcs s !! t = Some Waiting -> cv_step [] s (goto t Woken s).

Definition cv_reachable (n : nat) (s : queue) : Prop := exists h, trace cv_step h (queue_init n) s.

(** ** Abstraction: a push takes effect when it gets the lock. *)

Definition abs_call (p : pc) : call ptr :=
  match p with
  | Outside r => Idle r
  | PushLock vs => Pending (OPush vs)
  | Pushing _ _ | Notifying _ => Effected RPush
  | PopLock | PopTest | Waiting | Woken | PopFront | PopRemove _ => Pending OPop
  | PopUnlock v => Effected (RPop (Some v))
  end.

Definition unpushed (p : option pc) : list ptr := match p with Some (Pushing vs _) => vs | _ => [] end.

Definition abs_items (s : queue) : list ptr :=
  buffer s ++ match lock s with Some t => unpushed (pcs s !! t) | None => [] end.

Definition abs (s : queue) : spec ptr := Spec (abs_items s) (abs_call <$> pcs s).

(** ** The invariant *)

Definition holds_lock (p : pc) : bool :=
  match p with Pushing _ _ | PopTest | PopFront | PopRemove _ | PopUnlock _ => true | _ => false end.

Definition at_front (b : list ptr) (p : pc) : Prop :=
  match p with PopFront => b <> [] | PopRemove v => head b = Some v | _ => True end.

(** The notifications to come, the pops under way, and the threads that wait. *)
Definition notes (p : pc) : nat := match p with Pushing _ n | Notifying n => n | _ => 0 end.
Definition awake (p : pc) : nat :=
  match p with PopLock | PopTest | Woken | PopFront | PopRemove _ => 1 | _ => 0 end.
Definition asleep (p : pc) : nat := match p with Waiting => 1 | _ => 0 end.
Definition coming (p : pc) : nat := notes p + awake p.

Record cv_inv (s : queue) : Prop := {
  inv_lock : lock_ok holds_lock (lock s) (pcs s);
  inv_front t p : pcs s !! t = Some p -> at_front (buffer s) p;
  inv_wake : 0 < sum_list_with asleep (pcs s) -> length (abs_items s) <= sum_list_with coming (pcs s);
}.

Lemma holds_it s t p : cv_inv s -> pcs s !! t = Some p -> holds_lock p = true -> lock s = Some t.
Proof. intros Hi. apply holder, Hi. Qed.

Lemma holds_not s t p : cv_inv s -> pcs s !! t = Some p -> holds_lock p = false -> lock s <> Some t.
Proof. intros Hi. apply not_holder, Hi. Qed.

Lemma at_front_free b p : holds_lock p = false -> at_front b p.
Proof. by destruct p. Qed.

Lemma abs_items_holder s t p : lock s = Some t -> pcs s !! t = Some p -> abs_items s = buffer s ++ unpushed (Some p).
Proof. intros Hl Hp. unfold abs_items. by rewrite Hl, Hp. Qed.

Lemma abs_items_free s : lock s = None -> abs_items s = buffer s.
Proof. intros Hl. unfold abs_items. by rewrite Hl, app_nil_r. Qed.

Lemma abs_items_goto s t p' : lock s <> Some t -> abs_items (goto t p' s) = abs_items s.
Proof.
  intros Hl. unfold abs_items, goto. cbn. destruct (lock s) as [t'|]; [|done].
  rewrite list_lookup_insert_ne; [done|congruence].
Qed.

(** What an action of [t] has to respect: it takes the lock when it is free, and
    touches the buffer and the lock only with the lock. *)
Lemma core_update s t p p' b l :
  cv_inv s -> pcs s !! t = Some p -> moves_lock holds_lock t p p' (lock s) l -> at_front b p' ->
  b = buffer s \/ holds_lock p = true ->
  lock_ok holds_lock l (<[t := p']> (pcs s)) /\ (forall t' q, <[t := p']> (pcs s) !! t' = Some q -> at_front b q).
Proof.
  intros Hi Hp Hm Hf Hb. split; [by eapply lock_update, Hm; [apply Hi|]|].
  eapply (front_update holds_lock at_front at_front_free); [apply Hi|apply Hi|done..].
Qed.

(** The third part: an action gives up no more notifications and pops than it
    takes values away, or leaves nothing to pop. *)
Lemma wake_update s t p p' b l :
  cv_inv s -> pcs s !! t = Some p -> let s' := Queue b l (<[t := p']> (pcs s)) in
  abs_items s' = [] \/ asleep p' <= asleep p /\ length (abs_items s') + coming p <= length (abs_items s) + coming p' ->
  0 < sum_list_with asleep (pcs s') -> length (abs_items s') <= sum_list_with coming (pcs s').
Proof.
  intros Hi Hp s' [->|[Ha Hc]]; [cbn; lia|]. pose proof (inv_wake s Hi) as Hw. unfold s' in *. cbn [pcs].
  pose proof (sum_list_with_insert asleep (pcs s) t p p' Hp). pose proof (sum_list_with_insert coming (pcs s) t p p' Hp). lia.
Qed.

Lemma inv_update s t p p' b l :
  cv_inv s -> pcs s !! t = Some p -> let s' := Queue b l (<[t := p']> (pcs s)) in
  moves_lock holds_lock t p p' (lock s) l ->
  at_front b p' -> b = buffer s \/ holds_lock p = true ->
  abs_items s' = [] \/ asleep p' <= asleep p /\ length (abs_items s') + coming p <= length (abs_items s) + coming p' ->
  cv_inv s'.
Proof.
  intros Hi Hp s' Hl Hf Hb Hw. destruct (core_update s t p p' b l Hi Hp Hl Hf Hb) as [H1 H2].
  constructor; [done|done|]. by apply (wake_update s t p).
Qed.

(** Actions that touch neither the lock nor the buffer. *)
Lemma cv_inv_goto s t p p' :
  cv_inv s -> pcs s !! t = Some p -> holds_lock p = false -> holds_lock p' = false -> asleep p' <= asleep p ->
  coming p <= coming p' -> cv_inv (goto t p' s).
Proof.
  intros Hi Hp Hh Hh' Ha Hc. pose proof (holds_not s t p Hi Hp Hh) as Hn.
  apply (inv_update s t p); [done|done|by unfold moves_lock; rewrite Hh, Hh'|by destruct p'|by left|right].
  pose proof (abs_items_goto s t p' Hn) as E. unfold goto in E. rewrite E. lia.
Qed.

(** [abs_call] of the threads, after an action *)
Lemma abs_goto s t p' b l :
  abs (Queue b l (<[t := p']> (pcs s))) =
  Spec (abs_items (Queue b l (<[t := p']> (pcs s)))) (<[t := abs_call p']> (abs_call <$> pcs s)).
Proof. unfold abs. cbn [pcs]. by rewrite list_fmap_insert. Qed.

Lemma abs_stutter s t p p' b l :
  pcs s !! t = Some p -> abs_call p' = abs_call p -> abs_items (Queue b l (<[t := p']> (pcs s))) = abs_items s ->
  abs (Queue b l (<[t := p']> (pcs s))) = abs s.
Proof.
  intros Hp Hc Hi. rewrite abs_goto, Hi, Hc. unfold abs. f_equal. apply list_insert_id. by rewrite list_lookup_fmap, Hp.
Qed.

(** What an action that shows [h] has to keep *)
Definition simulated (h : list (QueueSpec.event ptr)) (s : queue) (r : outcome queue) : Prop :=
  exists s', r = Ret s' /\ cv_inv s' /\ trace spec_step h (abs s) (abs s').

Lemma simulated_stutter s t p p' b l :
  pcs s !! t = Some p -> abs_call p' = abs_call p -> let s' := Queue b l (<[t := p']> (pcs s)) in
  abs_items s' = abs_items s -> cv_inv s' -> simulated [] s (Ret s').
Proof. intros Hp Hc s' Hi Hs'. exists s'. split; [done|]. split; [done|]. unfold s'. erewrite abs_stutter by done. constructor. Qed.

Lemma simulated_effect h s t p p' b l :
  pcs s !! t = Some p -> let s' := Queue b l (<[t := p']> (pcs s)) in
  spec_step h (abs s) (Spec (abs_items s') (<[t := abs_call p']> (abs_call <$> pcs s))) ->
  cv_inv s' -> simulated h s (Ret s').
Proof. intros Hp s' Hs Hs'. exists s'. split; [done|]. split; [done|]. apply trace_once. unfold s'. by rewrite abs_goto. Qed.

(** The actions of a thread show the result of an operation that returns. *)
Definition acts (t : nat) (s : queue) (r : outcome queue) : Prop :=
  exists s', r = Ret s' /\ simulated (returned t (pcs s' !! t)) s r.

Lemma acts_at h s t p p' b l :
  pcs s !! t = Some p -> let s' := Queue b l (<[t := p']> (pcs s)) in
  returned t (Some p') = h -> simulated h s (Ret s') -> acts t s (Ret s').
Proof.
  intros Hp s' Hh Hs. exists s'. split; [done|]. cbn [pcs s']. rewrite list_lookup_insert_eq by by eapply lookup_lt_Some.
  by rewrite Hh.
Qed.

Lemma acts_stutter s t p p' b l :
  pcs s !! t = Some p -> (forall r, abs_call p <> Idle r) -> abs_call p' = abs_call p ->
  let s' := Queue b l (<[t := p']> (pcs s)) in abs_items s' = abs_items s -> cv_inv s' -> acts t s (Ret s').
Proof.
  intros Hp Hc Hc' s' Hi Hs'. eapply acts_at; [exact Hp| |by eapply simulated_stutter].
  destruct p' as [r0| | | | | | | | | |]; try done. by destruct (Hc r0).
Qed.

Lemma acts_effect s t p p' b l :
  pcs s !! t = Some p -> let s' := Queue b l (<[t := p']> (pcs s)) in
  spec_step (returned t (Some p')) (abs s) (Spec (abs_items s') (<[t := abs_call p']> (abs_call <$> pcs s))) ->
  cv_inv s' -> acts t s (Ret s').
Proof. intros Hp s' Hs Hi. eapply acts_at; [exact Hp|done|by eapply simulated_effect]. Qed.

(** [acquire], [release] *)
Lemma acquire_simulated s t p p' s' :
  cv_inv s -> pcs s !! t = Some p -> acquire t p' s = Some s' -> holds_lock p' = true -> at_front (buffer s) p' ->
  asleep p' = 0 -> coming p' = coming p + length (unpushed (Some p')) -> (forall r, abs_call p <> Idle r) ->
  (abs_call p' = abs_call p /\ unpushed (Some p') = [] \/
   abs_call p = Pending (OPush (unpushed (Some p'))) /\ abs_call p' = Effected RPush) ->
  acts t s (Ret s').
Proof.
  intros Hi Hp E Hh Hf Ha Hc Hidle Habs. unfold acquire in E. destruct (lock s) as [|] eqn:Hl; [done|]. injection E as <-.
  pose proof (abs_items_free s Hl) as E0. pose proof (lookup_lt_Some _ _ _ Hp) as Hlt.
  assert (abs_items (Queue (buffer s) (Some t) (<[t := p']> (pcs s))) = buffer s ++ unpushed (Some p')) as E1
    by (unfold abs_items; cbn [lock pcs buffer]; by rewrite list_lookup_insert_eq).
  assert (cv_inv (Queue (buffer s) (Some t) (<[t := p']> (pcs s)))) as Hi'.
  { apply (inv_update s t p); [done|done|unfold moves_lock; rewrite Hh; by eauto|done|by left|right].
    rewrite E1, length_app, E0. lia. }
  destruct Habs as [[Hcall Hu]|[Hcall Hcall']].
  - apply (acts_stutter s t p); [done|done|done|by rewrite E1, Hu, app_nil_r|done].
  - apply (acts_effect s t p); [done| |done]. rewrite E1, Hcall', <- E0.
    replace (returned t (Some p')) with (@nil (QueueSpec.event ptr)) by by destruct p'. apply spec_push.
    by rewrite list_lookup_fmap, Hp, <- Hcall.
Qed.

Lemma release_simulated s t p p' :
  cv_inv s -> pcs s !! t = Some p -> holds_lock p = true -> holds_lock p' = false -> unpushed (Some p) = [] ->
  buffer s = [] \/ asleep p' <= asleep p /\ coming p <= coming p' ->
  (abs_call p' = abs_call p \/ exists r, abs_call p = Effected r /\ abs_call p' = Idle (Some r)) ->
  acts t s (Ret (release t p' s)).
Proof.
  intros Hi Hp Hh Hh' Hu Hw Hcall. unfold release. pose proof (holds_it s t p Hi Hp Hh) as Hl.
  pose proof (abs_items_holder s t p Hl Hp) as E0. rewrite Hu, app_nil_r in E0.
  assert (abs_items (Queue (buffer s) None (<[t := p']> (pcs s))) = buffer s) as E1 by apply (abs_items_free (Queue _ None _) eq_refl).
  assert (cv_inv (Queue (buffer s) None (<[t := p']> (pcs s)))) as Hi'.
  { apply (inv_update s t p); [done|done|by unfold moves_lock; rewrite Hh, Hh'|by destruct p'|by left|].
    rewrite E1, E0. destruct Hw as [->|Hw]; [by left|right]. lia. }
  destruct Hcall as [Hcall|(r & Hr & Hr')].
  - apply (acts_stutter s t p); [done|by destruct p|done|by rewrite E1, E0|done].
  - assert (p' = Outside (Some r)) as -> by (destruct p'; simplify_eq/=; done).
    apply (acts_effect s t p); [done| |done]. rewrite E1, <- E0. apply spec_return.
    by rewrite list_lookup_fmap, Hp, <- Hr.
Qed.

(** The actions on the buffer *)
Lemma pushing_simulated s t v vs n :
  cv_inv s -> pcs s !! t = Some (Pushing (v :: vs) n) ->
  acts t s (Ret (goto t (Pushing vs n) (set_buffer (buffer s ++ [v]) s))).
Proof.
  intros Hi Hp. pose proof (holds_it s t _ Hi Hp eq_refl) as Hl. pose proof (lookup_lt_Some _ _ _ Hp) as Hlt.
  assert (abs_items (goto t (Pushing vs n) (set_buffer (buffer s ++ [v]) s)) = abs_items s) as E.
  { rewrite (abs_items_holder s t _ Hl Hp). unfold abs_items. cbn. rewrite Hl, list_lookup_insert_eq by done.
    cbn. by rewrite <- app_assoc. }
  apply (acts_stutter s t (Pushing (v :: vs) n)); [done|done|done|exact E|].
  apply (inv_update s t (Pushing (v :: vs) n)); [done|done|unfold moves_lock; cbn; by eauto|done|by right|right].
  unfold goto in E. cbn [buffer lock set_buffer] in E. cbn [buffer lock set_buffer pcs] in E |- *. rewrite E. done.
Qed.

Lemma pop_simulated s t v :
  cv_inv s -> pcs s !! t = Some (PopRemove v) ->
  exists b, buffer s = v :: b /\ acts t s (Ret (goto t (PopUnlock v) (set_buffer b s))).
Proof.
  intros Hi Hp. pose proof (holds_it s t _ Hi Hp eq_refl) as Hl. pose proof (inv_front s Hi t _ Hp) as Hf. cbn in Hf.
  destruct (buffer s) as [|x b] eqn:Hb; [done|]. injection Hf as ->. exists b. split; [done|].
  pose proof (abs_items_holder s t _ Hl Hp) as E0. rewrite Hb in E0. cbn [unpushed] in E0. rewrite app_nil_r in E0.
  assert (abs_items (goto t (PopUnlock v) (set_buffer b s)) = b) as E1.
  { unfold abs_items. cbn. rewrite Hl, list_lookup_insert_eq by by eapply lookup_lt_Some. apply app_nil_r. }
  unfold goto in E1 |- *. cbn [buffer lock set_buffer pcs] in E1 |- *.
  apply (acts_effect s t (PopRemove v)); [done| |].
  - unfold abs. rewrite E0, E1. apply spec_pop. by rewrite list_lookup_fmap, Hp.
  - apply (inv_update s t (PopRemove v)); [done|done|unfold moves_lock; cbn; by eauto|done|by right|right].
    rewrite E0, E1. cbn. lia.
Qed.

(** [notify_one] *)
Lemma notify_simulated s t w n s1 :
  cv_inv s -> pcs s !! t = Some (Notifying (S n)) -> notify_one w s = Some s1 ->
  acts t s (Ret (goto t (Notifying n) s1)).
Proof.
  intros Hi Hp E. pose proof (holds_not s t _ Hi Hp eq_refl) as Hn. unfold notify_one in E. case_decide as Hw.
  - injection E as <-. assert (t <> w) as Hne by (intros ->; congruence).
    assert (cv_inv (goto w Woken s)) as Hi1 by (apply (cv_inv_goto s w Waiting); (done || (cbn; lia))).
    assert (pcs (goto w Woken s) !! t = Some (Notifying (S n))) as Hp1 by (cbn; by rewrite list_lookup_insert_ne).
    assert (abs (goto w Woken s) = abs s) as Ea.
    { apply (abs_stutter s w Waiting); [done|done|apply abs_items_goto, (holds_not s w Waiting Hi Hw eq_refl)]. }
    destruct (core_update (goto w Woken s) t _ (Notifying n) (buffer s) (lock s) Hi1 Hp1) as [H1 H2];
      [done|done|by left|]. eexists. split; [done|]. cbn [goto pcs].
    rewrite list_lookup_insert_eq by (by eapply lookup_lt_Some, Hp1). eexists. split; [done|]. split.
    + constructor; [exact H1|exact H2|]. intros Ha. cbn [goto pcs] in *.
      pose proof (abs_items_goto (goto w Woken s) t (Notifying n) Hn) as E1.
      rewrite (abs_items_goto s w Woken (holds_not s w Waiting Hi Hw eq_refl)) in E1. unfold goto in E1 |- *.
      cbn [buffer lock pcs] in E1 |- *. rewrite E1.
      pose proof (sum_list_with_lookup_le asleep _ _ _ Hw) as Hpos. cbn [asleep] in Hpos.
      pose proof (inv_wake s Hi ltac:(lia)) as Hc.
      pose proof (sum_list_with_insert coming (pcs s) w _ Woken Hw).
      pose proof (sum_list_with_insert coming _ t _ (Notifying n) Hp1). cbn in *. lia.
    + rewrite <- Ea. rewrite <- (abs_stutter (goto w Woken s) t _ (Notifying n) _ _ Hp1 eq_refl
        (abs_items_goto (goto w Woken s) t (Notifying n) Hn)). constructor.
  - case_decide as Hnone; [done|]. injection E as <-. pose proof (abs_items_goto s t (Notifying n) Hn) as E1.
    apply (acts_stutter s t (Notifying (S n))); [done|done|done|exact E1|].
    destruct (core_update s t _ (Notifying n) (buffer s) (lock s) Hi Hp) as [H1 H2]; [done|done|by left|].
    constructor; [exact H1|exact H2|]. cbn [pcs]. intros Ha. exfalso.
    pose proof (sum_list_with_insert asleep (pcs s) t _ (Notifying n) Hp) as Hs. cbn [asleep] in Hs.
    assert (sum_list_with asleep (pcs s) = 0) as H0; [|lia].
    apply sum_list_with_zero. by intros [] Hin.
Qed.

Lemma step_simulated s t w r : cv_inv s -> step t w s = Some r -> acts t s r.
Proof.
  intros Hi E. unfold step in E. destruct (pcs s !! t) as [p|] eqn:Hp; [|done]. destruct p as [| vs|[|v vs] n|[|n]| | | | | |v|v].
  - done.
  - destruct (acquire _ _ s) as [s'|] eqn:Ea; [|done]. injection E as <-.
    apply (acquire_simulated s t _ _ s' Hi Hp Ea); [done|done|done|cbn; lia|done|by right].
  - injection E as <-. apply (release_simulated s t _ _ Hi Hp); [done|done|done|by right|by left].
  - injection E as <-. by apply pushing_simulated.
  - injection E as <-. pose proof (holds_not s t _ Hi Hp eq_refl) as Hn.
    apply (acts_effect s t _ _ _ _ Hp).
    + pose proof (abs_items_goto s t (Outside (Some RPush)) Hn) as E. unfold goto in E. rewrite E. apply spec_return.
      by rewrite list_lookup_fmap, Hp.
    + by apply (cv_inv_goto s t (Notifying 0)).
  - destruct (notify_one w s) as [s1|] eqn:E1; [|done]. injection E as <-. by eapply notify_simulated.
  - destruct (acquire _ _ s) as [s'|] eqn:Ea; [|done]. injection E as <-.
    apply (acquire_simulated s t _ _ s' Hi Hp Ea); [done|done|done|done|done|by left].
  - injection E as <-. unfold is_nonempty_unsafe. case_bool_decide as Hb; cbn [negb].
    + apply (release_simulated s t _ _ Hi Hp); [done|done|done|by left|by left].
    + pose proof (holds_it s t _ Hi Hp eq_refl) as Hl.
      assert (abs_items (goto t PopFront s) = abs_items s) as E1.
      { rewrite (abs_items_holder s t _ Hl Hp). unfold abs_items. cbn. by rewrite Hl, list_lookup_insert_eq by by eapply lookup_lt_Some. }
      apply (acts_stutter s t PopTest); [done|done|done|exact E1|].
      apply (inv_update s t PopTest); [done|done|unfold moves_lock; cbn; by eauto|done|by left|right]. unfold goto in E1. by rewrite E1.
  - done.
  - destruct (acquire _ _ s) as [s'|] eqn:Ea; [|done]. injection E as <-.
    apply (acquire_simulated s t _ _ s' Hi Hp Ea); [done|done|done|done|done|by left].
  - pose proof (inv_front s Hi t _ Hp) as Hf. cbn in Hf. destruct (buffer s) as [|v b] eqn:Hb; [done|]. injection E as <-.
    pose proof (holds_it s t _ Hi Hp eq_refl) as Hl.
    assert (abs_items (goto t (PopRemove v) s) = abs_items s) as E1.
    { rewrite (abs_items_holder s t _ Hl Hp). unfold abs_items. cbn. by rewrite Hl, list_lookup_insert_eq by by eapply lookup_lt_Some. }
    apply (acts_stutter s t PopFront); [done|done|done|exact E1|].
    apply (inv_update s t PopFront); [done|done|unfold moves_lock; cbn; by eauto|cbn; by rewrite Hb|by left|right]. unfold goto in E1. by rewrite E1.
  - destruct (pop_simulated s t v Hi Hp) as (b & Hb & Hs). rewrite Hb in E. injection E as <-. exact Hs.
  - injection E as <-. apply (release_simulated s t _ _ Hi Hp); [done|done|done|by right|right; by eexists].
Qed.

Lemma call_simulated s t last p o :
  cv_inv s -> pcs s !! t = Some (Outside last) -> abs_call p = Pending o -> holds_lock p = false -> asleep p = 0 ->
  simulated [Inv t o] s (Ret (goto t p s)).
Proof.
  intros Hi Hp Ho Hh Ha. pose proof (holds_not s t _ Hi Hp eq_refl) as Hn. apply (simulated_effect _ s t _ _ _ _ Hp).
  - pose proof (abs_items_goto s t p Hn) as E. unfold goto in E. rewrite E, Ho. eapply spec_call.
    by rewrite list_lookup_fmap, Hp.
  - apply (cv_inv_goto s t (Outside last)); [done|done|done|done|cbn; lia|cbn; lia].
Qed.

(** Every step of a thread is none or one of the specification, and shows the same. *)
Lemma cv_step_simulated h s s' : cv_inv s -> cv_step h s s' -> cv_inv s' /\ trace spec_step h (abs s) (abs s').
Proof.
  intros Hi Hs. assert (simulated h s (Ret s')) as (s1 & [= ->] & Hr); [|exact Hr].
  destruct Hs as [t last v s Hp|t last vs s Hp|t last s Hp|t w s s' E|t s Hp].
  - by eapply call_simulated.
  - by eapply call_simulated.
  - by eapply call_simulated.
  - by destruct (step_simulated s t w _ Hi E) as (s1 & [= <-] & Hr).
  - pose proof (holds_not s t _ Hi Hp eq_refl) as Hn.
    apply (simulated_stutter s t Waiting); [done|done|by apply abs_items_goto|].
    apply (cv_inv_goto s t Waiting); [done|done|done|done|cbn; lia|cbn; lia].
Qed.

Lemma cv_inv_init n : cv_inv (queue_init n).
Proof.
  assert (forall t p, replicate n (Outside None) !! t = Some p -> p = Outside None) as Hr
    by (intros t p [-> _]%lookup_replicate; done).
  constructor; cbn.
  - by apply lock_ok_init, Forall_replicate.
  - by intros t p ->%Hr.
  - lia.
Qed.

Lemma cv_trace_inv n h s :
  trace cv_step h (queue_init n) s -> cv_inv s /\ trace spec_step h (spec_init n) (abs s).
Proof.
  intros Ht. assert (abs (queue_init n) = spec_init n) as E.
  { unfold abs, abs_items, queue_init, spec_init. cbn. by rewrite fmap_replicate. }
  destruct (trace_simulation cv_step spec_step (fun s u => cv_inv s /\ u = abs s)
    (fun h1 s1 s2 u H Hs => ltac:(destruct H as [Hi ->]; destruct (cv_step_simulated h1 s1 s2 Hi Hs); by eexists))
    h (queue_init n) s (spec_init n) (conj (cv_inv_init n) (eq_sym E)) Ht) as (u & Hu & Hi & ->). done.
Qed.

Lemma cv_reachable_inv n s : cv_reachable n s -> cv_inv s.
Proof. intros (h & [Hi _]%cv_trace_inv). done. Qed.

(** C21. The queue of the thread pool is linearizable: take any run of any number
    of threads that push, push in batches and pop, and its history, the sequence
    of calls with their arguments and of returns with their results. The
    specification, in which each operation takes effect in one step between its
    call and its return - values are added at the end of one sequence and taken
    from its front - has a run with the same history, to the state that stands
    for that of the queue. And no access to the buffer goes wrong. *)
Theorem cv_queue_linearizable n h s :
  trace cv_step h (queue_init n) s ->
  trace spec_step h (spec_init n) (abs s) /\ forall t w r, step t w s = Some r -> exists s', r = Ret s'.
Proof.
  intros [Hi Hr]%cv_trace_inv. split; [done|]. intros t w r E.
  destruct (step_simulated s t w r Hi E) as (s' & -> & _). by eexists.
Qed.

(** C22. No wake-up is lost and no thread is blocked for ever by the lock: when no
    thread can go on by itself, the lock is free, every call of [push] and
    [push_batch] has returned, and a [pop] that waits does so because the queue
    is empty. *)
Theorem cv_queue_no_lost_wakeup n s :
  cv_reachable n s -> (forall t w, step t w s = None) ->
  lock s = None /\ forall t p, pcs s !! t = Some p -> (exists r, p = Outside r) \/ p = Waiting /\ buffer s = [].
Proof.
  intros Hi%cv_reachable_inv Hstuck. assert (lock s = None) as Hl.
  { destruct (lock s) as [t|] eqn:Hl; [|done]. apply (inv_lock s Hi) in Hl as (p & Hp & Hh).
    specialize (Hstuck t 0). unfold step in Hstuck. rewrite Hp in Hstuck. by destruct p as [| |[] ?| | | | | | | |]. }
  assert (forall t p, pcs s !! t = Some p -> (exists r, p = Outside r) \/ p = Waiting) as Hpc.
  { intros t p Hp. destruct p as [r| |vs ?|[|k]| | | | | | |]; try (specialize (Hstuck t 0); unfold step, acquire in Hstuck;
      rewrite Hp, ?Hl in Hstuck; by (done || destruct vs)); [by left; eexists| |by right].
    exfalso. destruct (decide (Waiting ∈ pcs s)) as [(w & Hw)%list_elem_of_lookup|Hn].
    - specialize (Hstuck t w). unfold step, notify_one in Hstuck. rewrite Hp, decide_True in Hstuck by done. done.
    - specialize (Hstuck t t). unfold step, notify_one in Hstuck. rewrite Hp, decide_False, decide_False in Hstuck; [done|done|congruence]. }
  split; [done|]. intros t p Hp. destruct (Hpc t p Hp) as [Hr| ->]; [by left|right]. split; [done|].
  pose proof (sum_list_with_lookup_le asleep _ _ _ Hp) as Hs. cbn in Hs. pose proof (inv_wake s Hi ltac:(lia)) as Hw.
  assert (sum_list_with coming (pcs s) = 0) as Hc.
  { apply sum_list_with_zero. intros q (j & [[r ->]| ->]%Hpc)%list_elem_of_lookup; done. }
  rewrite (abs_items_free s Hl) in Hw. destruct (buffer s); [done|cbn in Hw; lia].
Qed.

(** ** Runs *)

Inductive action := ACall (t : nat) (o : op ptr) | ARun (t w : nat) | ASpurious (t : nat).

Definition exec_action (e : action) (s : queue) : option (list (QueueSpec.event ptr) * queue) :=
  match e with
  | ACall t o =>
    match pcs s !! t, o with
    | Some (Outside _), OPop => Some ([Inv t o], goto t pop s)
    | Some (Outside _), OPush vs => Some ([Inv t o], goto t (push_batch vs) s)
    | _, _ => None
    end
  | ARun t w => match step t w s with Some (Ret s') => Some (returned t (pcs s' !! t), s') | _ => None end
  | ASpurious t => match pcs s !! t with Some Waiting => Some ([], goto t Woken s) | _ => None end
  end.

Fixpoint exec (es : list action) (s : queue) : option (list (QueueSpec.event ptr) * queue) :=
  match es with
  | [] => Some ([], s)
  | e :: es => '(h, s) ← exec_action e s; '(h', s) ← exec es s; Some (h ++ h', s)
  end.

Lemma cv_exec_steps es : forall h s s', exec es s = Some (h, s') -> trace cv_step h s s'.
Proof.
  induction es as [|e es IH]; intros h s s' E; [injection E as <- <-; constructor|]. cbn [exec] in E.
  destruct (exec_action e s) as [[h1 s1]|] eqn:E1; [|done]. cbn in E.
  destruct (exec es s1) as [[h2 s2]|] eqn:E2; [|done]. injection E as <- <-. apply trace_step with s1; [|by apply IH].
  destruct e as [t o|t w|t]; cbn in E1.
  - destruct (pcs s !! t) as [[]|] eqn:Hp; try done. destruct o; try done; injection E1 as <- <-;
      [by eapply CallPushBatch|by eapply CallPop].
  - destruct (step t w s) as [[s3| | |]|] eqn:Es; try done. injection E1 as <- <-. by apply (Run t w).
  - destruct (pcs s !! t) as [[]|] eqn:Hp; try done. injection E1 as <- <-. by apply Spurious.
Qed.

(** The thread 0 waits in [pop]. *)
Definition wait_actions : list action := [ACall 0 OPop; ARun 0 0; ARun 0 0].
(** Then the thread 1 pushes two values, and 0 takes the first one. *)
Definition batch_actions : list action :=
  wait_actions ++ ACall 1 (OPush [Some 5%positive; null]) :: replicate 4 (ARun 1 0) ++
  ARun 1 0 :: ARun 1 0 :: replicate 5 (ARun 0 0).

Definition after (es : list action) : queue := default (queue_init 2) (snd <$> exec es (queue_init 2)).

Lemma cv_queue_linearizable_witness :
  trace spec_step [Inv 0 OPop; Inv 1 (OPush [Some 5%positive; null]); Res 0 (RPop (Some (Some 5%positive)))] (spec_init 2)
    (Spec [null] [Idle (Some (RPop (Some (Some 5%positive)))); Effected RPush]) /\
  exists s', step 1 0 (after batch_actions) = Some (Ret s').
Proof.
  destruct (cv_queue_linearizable 2 [Inv 0 OPop; Inv 1 (OPush [Some 5%positive; null]); Res 0 (RPop (Some (Some 5%positive)))]
    (after batch_actions)) as [Hr Hs].
  - apply (cv_exec_steps batch_actions). vm_compute. reflexivity.
  - split; [exact Hr|]. destruct (step 1 0 (after batch_actions)) as [r|] eqn:E; [|vm_compute in E; discriminate E].
    destruct (Hs 1 0 r E) as (s' & ->). by exists s'.
Defined.

Lemma cv_queue_no_lost_wakeup_witness :
  pcs (after wait_actions) !! 0 = Some Waiting /\ lock (after wait_actions) = None.
Proof.
  split; [vm_compute; reflexivity|]. apply (cv_queue_no_lost_wakeup 2).
  - exists [Inv 0 OPop]. apply (cv_exec_steps wait_actions). vm_compute. reflexivity.
  - intros [|[|t]] w; vm_compute; reflexivity.
Defined.
End CvQueue.

(** ** applications/timers/win-iocp/queue.hpp *)
Module WinQueue.
Import QueueSpec LockDiscipline.

(** Where a thread is: outside, or at its next action in [push] - wait for the
    mutex, push, release it, set the event - or in [pop] and [try_pop] ([tr]):
    wait for the mutex, test, release it and wait for the event, take the front,
    remove it, release. [alertable]: what the caller passes. *)
Inductive pc :=
| Outside (last : option (result addr))
| PushWait (obj : addr) (alertable : bool)
| PushBuffer (obj : addr)
| PushRelease
| PushSet
| PopWait (tr alertable : bool)
| PopTest (tr alertable : bool)
| PopSignal (alertable : bool)
| PopEvent (alertable : bool)
| PopFront (tr : bool)
| PopRemove (tr : bool) (popped : addr)
| PopRelease (popped : option addr).

#[export] Instance win_result_eq_dec : EqDecision (result addr).
Proof. solve_decision. Defined.
#[export] Instance win_pc_eq_dec : EqDecision pc.
Proof. solve_decision. Defined.

Record queue := Queue { buffer : list addr; lock : option nat; non_empty : bool; pcs : list pc }.

(** The mutex is free; the event is a manual-reset one, and not signalled. *)
Definition queue_init (n : nat) : queue := Queue [] None false (replicate n (Outside None)).

Definition goto (t : nat) (p : pc) (s : queue) : queue := Queue (buffer s) (lock s) (non_empty s) (<[t := p]> (pcs s)).
Definition set_buffer (b : list addr) (s : queue) : queue := Queue b (lock s) (non_empty s) (pcs s).

(** [WaitForSingleObjectEx(lock, INFINITE, alertable)], whose result is not looked
    at: it returns with the mutex, or - an alertable wait that has to wait -
    without it, after an APC ([apc]). *)
Definition wait_lock (t : nat) (alertable apc : bool) (p : pc) (s : queue) : option queue :=
  match lock s with
  | None => Some (Queue (buffer s) (Some t) (non_empty s) (<[t := p]> (pcs s)))
  | Some _ => if alertable && apc then Some (goto t p s) else None
  end.

(** [ReleaseMutex(lock)], which fails in a thread that does not own it *)
Definition owns (t : nat) (s : queue) : bool := bool_decide (lock s = Some t).
Definition release_mutex (t : nat) (p : pc) (s : queue) : queue :=
  Queue (buffer s) (if owns t s then None else lock s) (non_empty s) (<[t := p]> (pcs s)).

(** [SignalObjectAndWait(lock, non_empty, INFINITE, alertable)]: a failure to
    release the mutex ends it. *)
Definition signal_object (t : nat) (alertable : bool) (s : queue) : queue :=
  if owns t s then release_mutex t (PopEvent alertable) s else goto t (PopWait false alertable) s.
Definition wait_event (t : nat) (alertable apc : bool) (s : queue) : option queue :=
  if non_empty s || (alertable && apc) then Some (goto t (PopWait false alertable) s) else None.

Definition set_event (t : nat) (s : queue) : queue :=
  Queue (buffer s) (lock s) true (<[t := Outside (Some RPush)]> (pcs s)).

(** Accesses to the buffer, and those that write to it; two threads at the same
    time, one of them writing, is a data race. *)
Definition accesses (p : pc) : bool :=
  match p with PushBuffer _ | PopTest _ _ | PopFront _ | PopRemove _ _ => true | _ => false end.
Definition writes (p : pc) : bool := match p with PushBuffer _ | PopRemove _ _ => true | _ => false end.
Definition races (t : nat) (p : pc) (s : queue) : Prop :=
  exists t' p', pcs s !! t' = Some p' /\ t' <> t /\ accesses p' = true /\ (writes p = true \/ writes p' = true).

Definition racesb (t : nat) (p : pc) (s : queue) : bool :=
  existsb (fun '(t', p') => bool_decide (t' <> t) && accesses p' && (writes p || writes p')) (zip (seq 0 (length (pcs s))) (pcs s)).

Definition access (t : nat) (p : pc) (s : queue) (k : outcome queue) : option (outcome queue) :=
  Some (if racesb t p s then Fault DataRace else k).

(** The calls *)
Definition push (obj : addr) (alertable : bool) : pc := PushWait obj alertable.
Definition pop (alertable : bool) : pc := PopWait false alertable.
Definition try_pop (alertable : bool) : pc := PopWait true alertable.

(** The next action of the thread [t]; [apc]: whether an APC ends its wait. *)
Definition step (t : nat) (apc : bool) (s : queue) : option (outcome queue) :=
  match pcs s !! t with
  | Some (PushWait obj alertable) => s ← wait_lock t alertable apc (PushBuffer obj) s; Some (Ret s)
  | Some (PushBuffer obj) => access t (PushBuffer obj) s (Ret (goto t PushRelease (set_buffer (buffer s ++ [obj]) s)))
  | Some PushRelease => Some (Ret (release_mutex t PushSet s))
  | Some PushSet => Some (Ret (set_event t s))
  | Some (PopWait tr alertable) => s ← wait_lock t alertable apc (PopTest tr alertable) s; Some (Ret s)
  | Some (PopTest tr alertable) =>
    access t (PopTest tr alertable) s
      (Ret (goto t (if decide (buffer s = []) then if tr then PopRelease None else PopSignal alertable else PopFront tr) s))
  | Some (PopSignal alertable) => Some (Ret (signal_object t alertable s))
  | Some (PopEvent alertable) => s ← wait_event t alertable apc s; Some (Ret s)
  | Some (PopFront tr) =>
    access t (PopFront tr) s
      (match buffer s with [] => Fault OutOfBounds | popped :: _ => Ret (goto t (PopRemove tr popped) s) end)
  | Some (PopRemove tr popped) =>
    access t (PopRemove tr popped) s
      (match buffer s with [] => Fault OutOfBounds | _ :: b => Ret (goto t (PopRelease (Some popped)) (set_buffer b s)) end)
  | Some (PopRelease popped) => Some (Ret (release_mutex t (Outside (Some (RPop popped))) s))
  | Some (Outside _) | None => None
  end.

(** What is seen of a thread: the result with which an operation has returned. *)
Definition returned (t : nat) (p : option pc) : list (QueueSpec.event addr) :=
  match p with Some (Outside (Some r)) => [Res t r] | _ => [] end.

(** Calls, of which [allowed] says which may wait alertably, and the steps of the
    threads *)
Inductive win_step (allowed : bool -> Prop) : list (QueueSpec.event addr) -> queue -> queue -> Prop :=
| CallPush t last obj al s : pcs s !! t = Some (Outside last) -> allowed al ->
    win_step allowed [Inv t (OPush [obj])] s (goto t (push obj al) s)
| CallPop t last al s : pcs s !! t = Some (Outside last) -> allowed al ->
    win_step allowed [Inv t OPop] s (goto t (pop al) s)
| CallTryPop t last al s : pcs s !! t = Some (Outside last) -> allowed al ->
    win_step allowed [Inv t OTryPop] s (goto t (try_pop al) s)
| Run t apc s s' : step t apc s = Some (Ret s') -> win_step allowed (returned t (pcs s' !! t)) s s'.

Definition win_reachable (allowed : bool -> Prop) (n : nat) (s : queue) : Prop :=
  exists h, trace (win_step allowed) h (queue_init n) s.

(** ** Abstraction: a push takes effect when it writes to the buffer. *)

Definition abs_call (p : pc) : call addr :=
  match p with
  | Outside r => Idle r
  | PushWait v _ | PushBuffer v => Pending (OPush [v])
  | PushRelease | PushSet => Effected RPush
  | PopWait tr _ | PopTest tr _ | PopFront tr | PopRemove tr _ => Pending (if tr then OTryPop else OPop)
  | PopSignal _ | PopEvent _ => Pending OPop
  | PopRelease r => Effected (RPop r)
  end.

Definition abs (s : queue) : spec addr := Spec (buffer s) (abs_call <$> pcs s).

(** ** The invariant, when no wait is alertable *)

Definition holds_lock (p : pc) : bool :=
  match p with
  | PushBuffer _ | PushRelease | PopTest _ _ | PopSignal _ | PopFront _ | PopRemove _ _ | PopRelease _ => true
  | _ => false
  end.

Definition at_front (b : list addr) (p : pc) : Prop :=
  match p with PopFront _ => b <> [] | PopRemove _ v => head b = Some v | _ => True end.

Definition alertable_pc (p : pc) : bool :=
  match p with PushWait _ al | PopWait _ al | PopTest _ al | PopSignal al | PopEvent al => al | _ => false end.

(** A value in the buffer has set the event, or is about to. *)
Definition will_set (s : queue) : Prop := non_empty s = true \/ PushRelease ∈ pcs s \/ PushSet ∈ pcs s.

Record win_inv (s : queue) : Prop := {
  win_lock : lock_ok holds_lock (lock s) (pcs s);
  win_front t p : pcs s !! t = Some p -> at_front (buffer s) p;
  win_event : buffer s <> [] -> will_set s;
  win_alertable t p : pcs s !! t = Some p -> alertable_pc p = false;
}.

Lemma win_front_free b p : holds_lock p = false -> at_front b p.
Proof. by destruct p. Qed.

Lemma win_owner s t p : win_inv s -> pcs s !! t = Some p -> holds_lock p = true -> lock s = Some t.
Proof. intros Hi. apply holder, Hi. Qed.

Lemma win_owns s t p : win_inv s -> pcs s !! t = Some p -> owns t s = holds_lock p.
Proof.
  intros Hi Hp. unfold owns. destruct (holds_lock p) eqn:Hh.
  - by rewrite (win_owner s t p Hi Hp Hh), bool_decide_true.
  - apply bool_decide_false. eapply not_holder; [apply Hi|done|done].
Qed.

Lemma racesb_false s t p :
  (forall t' q, pcs s !! t' = Some q -> t' <> t -> accesses q = false) -> racesb t p s = false.
Proof.
  intros Hn. unfold racesb. apply not_true_iff_false. rewrite existsb_exists. intros ([t' q] & Hin & Hq).
  apply list_elem_of_In, list_elem_of_lookup in Hin as (i & (x & y & [= <- <-] & Hx & Hy)%lookup_zip_with_Some).
  apply lookup_seq in Hx as [-> _]. cbn in Hq. apply andb_true_iff in Hq as [[Hne%bool_decide_eq_true Ha]%andb_true_iff _].
  by rewrite (Hn _ _ Hy Hne) in Ha.
Qed.

(** Under the lock there is no race. *)
Lemma no_race s t p : win_inv s -> pcs s !! t = Some p -> holds_lock p = true -> racesb t p s = false.
Proof.
  intros Hi Hp Hh. apply racesb_false. intros t' q Hq Hne.
  pose proof (one_holder holds_lock _ _ t p t' q (win_lock s Hi) Hp Hh Hq Hne) as Hf. by destruct q.
Qed.

Lemma win_update s t p p' b l e :
  win_inv s -> pcs s !! t = Some p -> moves_lock holds_lock t p p' (lock s) l -> at_front b p' ->
  b = buffer s \/ holds_lock p = true -> alertable_pc p' = false ->
  let s' := Queue b l e (<[t := p']> (pcs s)) in (b <> [] -> will_set s') -> win_inv s'.
Proof.
  intros Hi Hp Hm Hf Hb Ha s' He. constructor; [by eapply lock_update, Hm; [apply Hi|]| |done|].
  - eapply (front_update holds_lock at_front win_front_free); [apply Hi|apply Hi|done..].
  - cbn. intros t' q. destruct (decide (t' = t)) as [->|Hne].
    + rewrite list_lookup_insert_eq by (by eapply lookup_lt_Some). by intros [= <-].
    + rewrite list_lookup_insert_ne by done. apply Hi.
Qed.

(** An action that is not the end of a push keeps the promise of the event. *)
Lemma will_set_keep s t p p' b l :
  win_inv s -> pcs s !! t = Some p -> p <> PushSet -> p <> PushRelease \/ p' = PushSet -> (b <> [] -> buffer s <> []) ->
  let s' := Queue b l (non_empty s) (<[t := p']> (pcs s)) in b <> [] -> will_set s'.
Proof.
  intros Hi Hp H1 H2 Hb s' Hne. pose proof (lookup_lt_Some _ _ _ Hp) as Hlt.
  assert (forall q, q <> p -> q ∈ pcs s -> q ∈ pcs s') as Hk.
  { intros q Hq (j & Hj)%list_elem_of_lookup. apply list_elem_of_lookup. exists j. cbn.
    rewrite list_lookup_insert_ne; [done|]. congruence. }
  destruct (win_event s Hi (Hb Hne)) as [He|[He|He]]; [by left| |right; right; by apply Hk].
  destruct H2 as [H2| ->]; [right; left; by apply Hk|].
  right; right. apply list_elem_of_lookup. exists t. cbn. by apply list_lookup_insert_eq.
Qed.

Definition win_simulated (h : list (QueueSpec.event addr)) (s : queue) (r : outcome queue) : Prop :=
  exists s', r = Ret s' /\ win_inv s' /\ trace spec_step h (abs s) (abs s').

Lemma win_simulated_effect h s t p p' b l e :
  pcs s !! t = Some p -> let s' := Queue b l e (<[t := p']> (pcs s)) in
  spec_step h (abs s) (Spec b (<[t := abs_call p']> (abs_call <$> pcs s))) -> win_inv s' -> win_simulated h s (Ret s').
Proof.
  intros Hp s' Hs Hi. exists s'. split; [done|]. split; [done|]. apply trace_once. unfold abs, s' in *. cbn [buffer pcs].
  by rewrite list_fmap_insert.
Qed.

(** The actions of a thread show the result of an operation that returns. *)
Definition win_acts (t : nat) (s : queue) (r : outcome queue) : Prop :=
  exists s', r = Ret s' /\ win_simulated (returned t (pcs s' !! t)) s r.

Lemma win_acts_at h s t p p' b l e :
  pcs s !! t = Some p -> let s' := Queue b l e (<[t := p']> (pcs s)) in
  returned t (Some p') = h -> win_simulated h s (Ret s') -> win_acts t s (Ret s').
Proof.
  intros Hp s' Hh Hs. exists s'. split; [done|]. cbn [pcs s']. rewrite list_lookup_insert_eq by by eapply lookup_lt_Some.
  by rewrite Hh.
Qed.

Lemma win_stutter s t p p' l e :
  pcs s !! t = Some p -> (forall r, p' <> Outside r) -> abs_call p' = abs_call p ->
  let s' := Queue (buffer s) l e (<[t := p']> (pcs s)) in win_inv s' -> win_acts t s (Ret s').
Proof.
  intros Hp Ho Hc s' Hi. apply (win_acts_at [] s t p p' (buffer s) l e Hp).
  { destruct p' as [r0| | | | | | | | | | |]; try done. by destruct (Ho r0). }
  exists s'. split; [done|]. split; [done|]. unfold abs, s'. cbn [buffer pcs].
  rewrite list_fmap_insert, Hc, list_insert_id by (by rewrite list_lookup_fmap, Hp). constructor.
Qed.

Lemma win_effect s t p p' b l e :
  pcs s !! t = Some p -> let s' := Queue b l e (<[t := p']> (pcs s)) in
  spec_step (returned t (Some p')) (abs s) (Spec b (<[t := abs_call p']> (abs_call <$> pcs s))) -> win_inv s' ->
  win_acts t s (Ret s').
Proof. intros Hp s' Hs Hi. eapply win_acts_at; [exact Hp|done|by eapply win_simulated_effect]. Qed.

(** Waiting for the mutex, and releasing it *)
Lemma wait_lock_simulated s t p p' apc s' :
  win_inv s -> pcs s !! t = Some p -> wait_lock t false apc p' s = Some s' -> abs_call p' = abs_call p ->
  holds_lock p' = true -> at_front (buffer s) p' -> alertable_pc p' = false -> p <> PushSet -> p <> PushRelease ->
  win_acts t s (Ret s').
Proof.
  intros Hi Hp E Hc Hh Hf Ha H1 H2. unfold wait_lock in E. destruct (lock s) as [|] eqn:Hl; [done|]. injection E as <-.
  apply (win_stutter s t p); [done|by destruct p'|done|].
  apply (win_update s t p); [done|done|unfold moves_lock; rewrite Hh; by eauto|done|by left|done|].
  by apply (will_set_keep s t p); [..|left|].
Qed.

Lemma release_mutex_spec s t p p' :
  win_inv s -> pcs s !! t = Some p -> holds_lock p = true -> holds_lock p' = false -> p <> PushRelease \/ p' = PushSet ->
  alertable_pc p' = false ->
  release_mutex t p' s = Queue (buffer s) None (non_empty s) (<[t := p']> (pcs s)) /\ win_inv (release_mutex t p' s).
Proof.
  intros Hi Hp Hh Hh' Hr Ha. unfold release_mutex. rewrite (win_owns s t p Hi Hp), Hh. split; [done|].
  apply (win_update s t p); [done|done|unfold moves_lock; by rewrite Hh, Hh'|by apply win_front_free|by left|done|].
  apply (will_set_keep s t p); [done|done|by destruct p|done|done].
Qed.

(** The accesses to the buffer *)
Lemma test_simulated s t tr :
  win_inv s -> pcs s !! t = Some (PopTest tr false) ->
  win_acts t s (Ret (goto t (if decide (buffer s = []) then if tr then PopRelease None else PopSignal false else PopFront tr) s)).
Proof.
  intros Hi Hp. pose proof (win_owner s t _ Hi Hp eq_refl) as Hl. unfold goto.
  assert (forall p', holds_lock p' = true -> at_front (buffer s) p' -> alertable_pc p' = false ->
    win_inv (Queue (buffer s) (lock s) (non_empty s) (<[t := p']> (pcs s)))) as Hn.
  { intros p' Hh Hf Ha. apply (win_update s t (PopTest tr false));
      [done|done|unfold moves_lock; rewrite Hh; by eauto|done|by left|done|by apply (will_set_keep s t (PopTest tr false)); [..|left|]]. }
  case_decide as Hb; [destruct tr|]; [|by apply (win_stutter s t (PopTest false false)); [..|apply Hn]|by apply (win_stutter s t (PopTest tr false)); [..|apply Hn]].
  apply (win_effect s t (PopTest true false)); [done| |by apply Hn]. unfold abs. rewrite Hb. apply spec_try_empty.
  by rewrite list_lookup_fmap, Hp.
Qed.

Lemma push_simulated s t v :
  win_inv s -> pcs s !! t = Some (PushBuffer v) -> win_acts t s (Ret (goto t PushRelease (set_buffer (buffer s ++ [v]) s))).
Proof.
  intros Hi Hp. pose proof (win_owner s t _ Hi Hp eq_refl) as Hl. unfold goto, set_buffer. cbn.
  apply (win_effect s t (PushBuffer v)); [done| |].
  - apply spec_push. by rewrite list_lookup_fmap, Hp.
  - apply (win_update s t (PushBuffer v)); [done|done|unfold moves_lock; cbn; by eauto|done|by right|done|].
    intros _. right; left. apply list_elem_of_lookup. exists t. cbn. apply list_lookup_insert_eq. by eapply lookup_lt_Some.
Qed.

Lemma remove_simulated s t tr v :
  win_inv s -> pcs s !! t = Some (PopRemove tr v) ->
  exists b, buffer s = v :: b /\ win_acts t s (Ret (goto t (PopRelease (Some v)) (set_buffer b s))).
Proof.
  intros Hi Hp. pose proof (win_owner s t _ Hi Hp eq_refl) as Hl. pose proof (win_front s Hi t _ Hp) as Hf. cbn in Hf.
  destruct (buffer s) as [|x b] eqn:Hb; [done|]. injection Hf as ->. exists b. split; [done|]. unfold goto, set_buffer. cbn.
  apply (win_effect s t (PopRemove tr v)); [done| |].
  - unfold abs. rewrite Hb. destruct tr; [apply spec_try_pop|apply spec_pop]; by rewrite list_lookup_fmap, Hp.
  - apply (win_update s t (PopRemove tr v)); [done|done|unfold moves_lock; cbn; by eauto|done|by right|done|].
    apply (will_set_keep s t (PopRemove tr v)); [done|done|done|by left|by rewrite Hb].
Qed.

Lemma win_step_simulated s t apc r : win_inv s -> step t apc s = Some r -> win_acts t s r.
Proof.
  intros Hi E. unfold step in E. destruct (pcs s !! t) as [p|] eqn:Hp; [|done].
  pose proof (win_alertable s Hi t p Hp) as Ha.
  destruct p as [|v al|v| | |tr al|tr al|al|al|tr|tr v|v]; cbn [alertable_pc] in Ha; subst; unfold access in E;
    try (rewrite (no_race s t _ Hi Hp eq_refl) in E; injection E as <-).
  - done.
  - destruct (wait_lock _ _ _ _ s) as [s'|] eqn:El; [|done]. injection E as <-. by eapply wait_lock_simulated.
  - by apply push_simulated.
  - injection E as <-. destruct (release_mutex_spec s t _ PushSet Hi Hp) as [Er Hi']; [done|done|by right|done|].
    rewrite Er in Hi' |- *. by apply (win_stutter s t PushRelease).
  - injection E as <-. unfold set_event. apply (win_effect s t PushSet); [done| |].
    + apply spec_return. by rewrite list_lookup_fmap, Hp.
    + apply (win_update s t PushSet); [done|done|done|done|by left|done|by left].
  - destruct (wait_lock _ _ _ _ s) as [s'|] eqn:El; [|done]. injection E as <-. by eapply wait_lock_simulated.
  - by apply test_simulated.
  - injection E as <-. unfold signal_object. rewrite (win_owns s t _ Hi Hp). cbn [holds_lock].
    destruct (release_mutex_spec s t _ (PopEvent false) Hi Hp) as [Er Hi']; [done|done|by left|done|].
    rewrite Er in Hi' |- *. by apply (win_stutter s t (PopSignal false)).
  - unfold wait_event in E. destruct (non_empty s || _) eqn:He; [|done]. injection E as <-. unfold goto.
    apply (win_stutter s t (PopEvent false)); [done|done|done|].
    apply (win_update s t (PopEvent false)); [done|done|done|done|by left|done|by apply (will_set_keep s t (PopEvent false)); [..|left|]].
  - pose proof (win_front s Hi t _ Hp) as Hf. pose proof (win_owner s t _ Hi Hp eq_refl) as Hl. cbn in Hf.
    assert (exists v, head (buffer s) = Some v) as [v Hv] by (destruct (buffer s); [done|by eexists]).
    assert (win_acts t s (Ret (goto t (PopRemove tr v) s))) as Hs; [|by destruct (buffer s); [|injection Hv as ->]].
    apply (win_stutter s t (PopFront tr)); [done|done|done|].
    apply (win_update s t (PopFront tr)); [done|done|unfold moves_lock; cbn; by eauto|done|by left|done|].
    by apply (will_set_keep s t (PopFront tr)); [..|left|].
  - destruct (remove_simulated s t tr v Hi Hp) as (b & Hb & Hs). by rewrite Hb.
  - injection E as <-. destruct (release_mutex_spec s t _ (Outside (Some (RPop v))) Hi Hp) as [Er Hi']; [done|done|by left|done|].
    rewrite Er in Hi' |- *. apply (win_effect s t (PopRelease v)); [done| |done]. apply spec_return.
    by rewrite list_lookup_fmap, Hp.
Qed.

Lemma win_call_simulated s t last p o :
  win_inv s -> pcs s !! t = Some (Outside last) -> abs_call p = Pending o -> holds_lock p = false ->
  alertable_pc p = false -> win_simulated [Inv t o] s (Ret (goto t p s)).
Proof.
  intros Hi Hp Ho Hh Ha. apply (win_simulated_effect _ s t (Outside last)); [done| |].
  - rewrite Ho. eapply spec_call. by rewrite list_lookup_fmap, Hp.
  - apply (win_update s t (Outside last)); [done|done|unfold moves_lock; by rewrite Hh|by apply win_front_free|by left|done|].
    by apply (will_set_keep s t (Outside last)); [..|left|].
Qed.

(** No thread passes TRUE. *)
Abbreviation never_alertable := (fun alertable => alertable = false).

Lemma win_steps_simulated h s s' :
  win_inv s -> win_step never_alertable h s s' -> win_inv s' /\ trace spec_step h (abs s) (abs s').
Proof.
  intros Hi Hs. assert (win_simulated h s (Ret s')) as (s1 & [= ->] & Hr); [|exact Hr].
  destruct Hs as [t last obj al s Hp ->|t last al s Hp ->|t last al s Hp ->|t apc s s' E].
  - by eapply win_call_simulated.
  - by eapply win_call_simulated.
  - by eapply win_call_simulated.
  - by destruct (win_step_simulated s t apc _ Hi E) as (s1 & [= <-] & Hr).
Qed.

Lemma win_inv_init n : win_inv (queue_init n).
Proof.
  assert (forall t p, replicate n (Outside None) !! t = Some p -> p = Outside None) as Hr
    by (intros t p [-> _]%lookup_replicate; done).
  constructor; cbn; [by apply lock_ok_init, Forall_replicate|by intros t p ->%Hr|done|by intros t p ->%Hr].
Qed.

Lemma win_trace_inv n h s :
  trace (win_step never_alertable) h (queue_init n) s -> win_inv s /\ trace spec_step h (spec_init n) (abs s).
Proof.
  intros Ht. assert (abs (queue_init n) = spec_init n) as E.
  { unfold abs, queue_init, spec_init. cbn. by rewrite fmap_replicate. }
  destruct (trace_simulation (win_step never_alertable) spec_step (fun s u => win_inv s /\ u = abs s)
    (fun h1 s1 s2 u H Hs => ltac:(destruct H as [Hi ->]; destruct (win_steps_simulated h1 s1 s2 Hi Hs); by eexists))
    h (queue_init n) s (spec_init n) (conj (win_inv_init n) (eq_sym E)) Ht) as (u & Hu & Hi & ->). done.
Qed.

(** As long as no thread waits alertably, the queue is linearizable, no two
    threads race for its buffer, and no access to it goes wrong. *)
Theorem win_queue_linearizable n h s :
  trace (win_step never_alertable) h (queue_init n) s ->
  trace spec_step h (spec_init n) (abs s) /\ forall t apc r, step t apc s = Some r -> exists s', r = Ret s'.
Proof.
  intros [Hi Hr]%win_trace_inv. split; [done|]. intros t apc r E.
  destruct (win_step_simulated s t apc r Hi E) as (s' & -> & _). by eexists.
Qed.

(** Nor is a wake-up lost then: when no thread can go on, the mutex is free,
    every call of [push] and [try_pop] has returned, and a [pop] waits only if
    the queue is empty and nothing has ever been pushed. *)
Theorem win_queue_no_lost_wakeup n s :
  win_reachable never_alertable n s -> (forall t, step t false s = None) ->
  lock s = None /\
  forall t p, pcs s !! t = Some p -> (exists r, p = Outside r) \/ p = PopEvent false /\ buffer s = [] /\ non_empty s = false.
Proof.
  intros (h & [Hi _]%win_trace_inv) Hstuck. assert (lock s = None) as Hl.
  { destruct (lock s) as [t|] eqn:Hl; [|done]. apply (win_lock s Hi) in Hl as (p & Hp & Hh).
    specialize (Hstuck t). unfold step in Hstuck. rewrite Hp in Hstuck. by destruct p. }
  assert (forall t p, pcs s !! t = Some p -> (exists r, p = Outside r) \/ p = PopEvent false /\ non_empty s = false) as Hpc.
  { intros t p Hp. pose proof (win_alertable s Hi t p Hp) as Ha. specialize (Hstuck t). unfold step, wait_lock, wait_event in Hstuck.
    rewrite Hp, ?Hl in Hstuck. destruct p; try done; [by left; eexists|]. cbn in Ha. subst. right. split; [done|].
    by destruct (non_empty s). }
  split; [done|]. intros t p Hp. destruct (Hpc t p Hp) as [Hr|[-> He]]; [by left|right]. split; [done|]. split; [|done].
  destruct (decide (buffer s = [])) as [|Hb]; [done|]. destruct (win_event s Hi Hb) as [?|[H|H]]; [congruence|..];
    apply list_elem_of_lookup in H as (j & [[r ?]|[? _]]%Hpc); done.
Qed.

(** The event is never reset: from the first [push] on, a [pop] on the empty
    queue - with no other thread in a call - does not wait, it goes round its
    loop. *)
Theorem pop_spins al s t :
  buffer s = [] -> lock s = None -> non_empty s = true -> pcs s !! t = Some (PopWait false al) ->
  (forall t' p, pcs s !! t' = Some p -> t' <> t -> accesses p = false) ->
  exists s1 s2 s3, step t false s = Some (Ret s1) /\ step t false s1 = Some (Ret s2) /\
    step t false s2 = Some (Ret s3) /\ step t false s3 = Some (Ret s).
Proof.
  destruct s as [b l e ps]. cbn. intros -> -> -> Hp Hn. pose proof (lookup_lt_Some _ _ _ Hp) as Hlt.
  exists (Queue [] (Some t) true (<[t := PopTest false al]> ps)), (Queue [] (Some t) true (<[t := PopSignal al]> ps)),
    (Queue [] None true (<[t := PopEvent al]> ps)). unfold step. cbn [pcs]. rewrite Hp, !list_lookup_insert_eq by done.
  split; [done|]. split; [|split].
  - unfold access. assert (racesb t (PopTest false al) (Queue [] (Some t) true (<[t := PopTest false al]> ps)) = false) as ->.
    { apply racesb_false. cbn. intros t' q Hq Hne. rewrite list_lookup_insert_ne in Hq by done. by apply (Hn t'). }
    unfold goto. cbn. by rewrite list_insert_insert_eq.
  - unfold signal_object, release_mutex, owns. cbn. rewrite bool_decide_true by done. by rewrite list_insert_insert_eq.
  - unfold wait_event, goto. cbn. by rewrite list_insert_insert_eq, list_insert_id.
Qed.

Lemma racesb_true s t p t' q :
  pcs s !! t' = Some q -> t' <> t -> accesses q = true -> writes p || writes q = true -> racesb t p s = true.
Proof.
  intros Hq Hne Ha Hw. unfold racesb. apply existsb_exists. exists (t', q). split.
  - apply list_elem_of_In, list_elem_of_lookup. exists t'. apply lookup_zip_with_Some. exists t', q. split; [done|].
    split; [|done]. apply lookup_seq. split; [done|]. by apply lookup_lt_Some in Hq.
  - by rewrite bool_decide_true, Ha, Hw by done.
Qed.

(** ** Runs *)

Inductive action := ACall (t : nat) (o : op addr) (alertable : bool) | ARun (t : nat) (apc : bool).

Definition exec_action (e : action) (s : queue) : option (list (QueueSpec.event addr) * queue) :=
  match e with
  | ACall t o al =>
    match pcs s !! t, o with
    | Some (Outside _), OPop => Some ([Inv t o], goto t (pop al) s)
    | Some (Outside _), OTryPop => Some ([Inv t o], goto t (try_pop al) s)
    | Some (Outside _), OPush [obj] => Some ([Inv t o], goto t (push obj al) s)
    | _, _ => None
    end
  | ARun t apc => match step t apc s with Some (Ret s') => Some (returned t (pcs s' !! t), s') | _ => None end
  end.

Fixpoint exec (es : list action) (s : queue) : option (list (QueueSpec.event addr) * queue) :=
  match es with
  | [] => Some ([], s)
  | e :: es => '(h, s) ← exec_action e s; '(h', s) ← exec es s; Some (h ++ h', s)
  end.

Definition call_allowed (allowed : bool -> Prop) (e : action) : Prop :=
  match e with ACall _ _ al => allowed al | ARun _ _ => True end.

Lemma win_exec_steps allowed es : Forall (call_allowed allowed) es ->
  forall h s s', exec es s = Some (h, s') -> trace (win_step allowed) h s s'.
Proof.
  induction 1 as [|e es He _ IH]; intros h s s' E; [injection E as <- <-; constructor|]. cbn [exec] in E.
  destruct (exec_action e s) as [[h1 s1]|] eqn:E1; [|done]. cbn in E.
  destruct (exec es s1) as [[h2 s2]|] eqn:E2; [|done]. injection E as <- <-. apply trace_step with s1; [|by apply IH].
  destruct e as [t o al|t apc]; cbn in E1.
  - destruct (pcs s !! t) as [[]|] eqn:Hp; try done. destruct o as [[|obj [|]]| |]; try done; injection E1 as <- <-;
      [by eapply CallPush|by eapply CallPop|by eapply CallTryPop].
  - destruct (step t apc s) as [[s3| | |]|] eqn:Es; try done. injection E1 as <- <-. by apply (Run allowed t apc).
Qed.

Definition after (es : list action) : queue := default (queue_init 2) (snd <$> exec es (queue_init 2)).

(** The thread 1 pushes and has the mutex; the thread 0 calls [pop(TRUE)]. *)
Definition contended_actions : list action := [ACall 1 (OPush [7%positive]) false; ARun 1 false; ACall 0 OPop true].

(** C23. A [pop(TRUE)], which is how the timer service's worker calls it: while
    another thread is in the buffer, under the mutex, an APC lets the worker in
    without it, and its next access is a data race. *)
Theorem alertable_pop_races :
  (exists s, win_reachable (fun _ => True) 2 s /\ lock s = Some 1 /\
    pcs s = [PopWait false true; PushBuffer 7%positive]) /\
  forall s t t' tr v, lock s = Some t' -> pcs s !! t' = Some (PushBuffer v) -> pcs s !! t = Some (PopWait tr true) ->
    exists s1, step t true s = Some (Ret s1) /\ forall apc, step t apc s1 = Some (Fault DataRace).
Proof.
  split.
  - exists (after contended_actions). split; [|by vm_compute].
    eexists. apply (win_exec_steps _ contended_actions); [by repeat constructor|vm_compute; reflexivity].
  - intros s t t' tr v Hl Hv Hp. assert (t' <> t) as Hne by congruence. pose proof (lookup_lt_Some _ _ _ Hp) as Hlt.
    exists (goto t (PopTest tr true) s). unfold step at 1, wait_lock. rewrite Hp, Hl. split; [done|]. intros apc.
    unfold step, goto. cbn [pcs]. rewrite list_lookup_insert_eq by done. unfold access.
    rewrite (racesb_true _ t _ t' (PushBuffer v)); [done| |done|done|done]. cbn. by rewrite list_lookup_insert_ne.
Qed.

(** ** Witnesses *)

(** The thread 0 pushes and returns; 1 takes the value, tries again, and waits. *)
Definition exchange_actions : list action :=
  ACall 0 (OPush [7%positive]) false :: replicate 4 (ARun 0 false) ++
  ACall 1 OPop false :: replicate 5 (ARun 1 false) ++ ACall 1 OTryPop false :: replicate 3 (ARun 1 false).

Lemma win_queue_linearizable_witness :
  trace (spec_step (V := addr))
    [Inv 0 (OPush [7%positive]); Res 0 RPush; Inv 1 OPop; Res 1 (RPop (Some 7%positive)); Inv 1 OTryPop; Res 1 (RPop None)]
    (spec_init 2) (Spec [] [Idle (Some RPush); Idle (Some (RPop None))]) /\
  (forall t apc r, step t apc (after exchange_actions) = Some r -> exists s', r = Ret s').
Proof.
  apply (win_queue_linearizable 2 _ (after exchange_actions)).
  apply (win_exec_steps _ exchange_actions); [by repeat constructor|vm_compute; reflexivity].
Defined.

(** The thread 0 waits in [pop]. *)
Definition wait_actions : list action := [ACall 0 OPop false; ARun 0 false; ARun 0 false; ARun 0 false].

Lemma win_queue_no_lost_wakeup_witness :
  pcs (after wait_actions) !! 0 = Some (PopEvent false) /\ lock (after wait_actions) = None.
Proof.
  split; [vm_compute; reflexivity|]. apply (win_queue_no_lost_wakeup 2 (after wait_actions)).
  - eexists. apply (win_exec_steps _ wait_actions); [by repeat constructor|vm_compute; reflexivity].
  - intros [|[|t]]; vm_compute; reflexivity.
Defined.

Lemma pop_spins_witness :
  let s := Queue [] None true [PopWait false true] in
  exists s1 s2 s3, step 0 false s = Some (Ret s1) /\ step 0 false s1 = Some (Ret s2) /\
    step 0 false s2 = Some (Ret s3) /\ step 0 false s3 = Some (Ret s).
Proof.
  apply (pop_spins true (Queue [] None true [PopWait false true]) 0); [reflexivity..|]. intros [|t'] p Hp Hne; [done|discriminate Hp].
Defined.
End WinQueue.
