(* ===== verification/ThreadPool.v ===== *)
(** * ThreadPool: applications/threadpool/thread_pool.hpp and queue.hpp

    Worker threads pop coroutine handles from a synchronized queue and resume
    them; [schedule] enters the pool by counting up an atomic word whose lowest
    bit is the closed flag; [shutdown] sets the flag, pushes one sentinel per
    worker and joins them. Coroutines, workers and shutting-down threads are
    interleaved by atomic accesses and queue operations. *)

From S2P Require Import Prelude Words.
Local Open Scope Z_scope.

Module ThreadPool.

(** ** queue.hpp: the operations, each under its mutex *)

Abbreviation queue := (list ptr).

Definition push (value : ptr) (buffer : queue) : queue := buffer ++ [value].
Definition push_batch (values : list ptr) (buffer : queue) : queue := buffer ++ values.

(** [pop] waits on the condition variable while the buffer is empty. *)
Definition pop (buffer : queue) : option (ptr * queue) :=
  match buffer with [] => None | x :: buffer => Some (x, buffer) end.

(** ** State *)

Definition SENTINEL_AWAITER : ptr := null.
Definition CLOSED_FLAG : Z := 1.
Definition NEW_AWAITER_INCREMENT : Z := 2.

(** A worker: in [pop], about to resume, about to leave, or finished. *)
Inductive worker := Popping | Resuming (c : addr) | Leaving | Exited.

(** A coroutine in [co_await pool.schedule()]. *)
Inductive coro :=
| EnterLoad
| EnterTest (state : Z)
| EnterCas (state : Z)
| Push
| Queued                 (* suspended, its handle pushed *)
| Inline                 (* the pool was closed: not suspended *)
| OnPool.                (* resumed by a worker *)

(** A thread in [shutdown()]. *)
Inductive closer := FetchOr | PushSentinels | Joining (i : nat) | Closed | Thrown (e : exn).

#[export] Instance worker_eq_dec : EqDecision worker.
Proof. solve_decision. Defined.
#[export] Instance coro_eq_dec : EqDecision coro.
Proof. solve_decision. Defined.

Record thread_pool := Pool {
  pool_state : Z;
  threads : list worker;
  joinable : list bool;
  awaiters : queue;
  joined : bool;
  coros : gmap addr coro;
  closers : gmap addr closer;
}.

Definition n_threads (s : thread_pool) : nat := length (threads s).

Definition thread_pool_init (n : nat) : thread_pool :=
  Pool 0 (replicate n Popping) (replicate n true) [] false ∅ ∅.

Definition set_coro (c : addr) (p : coro) (s : thread_pool) : thread_pool :=
  Pool (pool_state s) (threads s) (joinable s) (awaiters s) (joined s) (<[c := p]> (coros s)) (closers s).
Definition set_worker (i : nat) (w : worker) (s : thread_pool) : thread_pool :=
  Pool (pool_state s) (<[i := w]> (threads s)) (joinable s) (awaiters s) (joined s) (coros s) (closers s).
Definition set_closer (t : addr) (p : closer) (s : thread_pool) : thread_pool :=
  Pool (pool_state s) (threads s) (joinable s) (awaiters s) (joined s) (coros s) (<[t := p]> (closers s)).
Definition set_state (z : Z) (s : thread_pool) : thread_pool :=
  Pool z (threads s) (joinable s) (awaiters s) (joined s) (coros s) (closers s).
Definition set_awaiters (q : queue) (s : thread_pool) : thread_pool :=
  Pool (pool_state s) (threads s) (joinable s) q (joined s) (coros s) (closers s).

(** ** Operations *)

(** [(state & CLOSED_FLAG) != 0] *)
Definition closed (state : Z) : bool := negb (bool_decide (Z.land state CLOSED_FLAG = 0)).

(** [try_awaiter_enter], from the test on; then [awaiters.push]. *)
Definition enter_test (c : addr) (state : Z) (s : thread_pool) : thread_pool :=
  if closed state then set_coro c Inline s else set_coro c (EnterCas state) s.

Definition enter_cas (c : addr) (state : Z) (spurious : bool) (s : thread_pool) : thread_pool :=
  if decide (pool_state s = state /\ spurious = false)
  then set_coro c Push (set_state (u32 (state + NEW_AWAITER_INCREMENT)) s)
  else set_coro c (EnterTest (pool_state s)) s.

Definition push_awaiter (c : addr) (s : thread_pool) : thread_pool :=
  set_coro c Queued (set_awaiters (push (Some c) (awaiters s)) s).

(** [work_loop] *)
Definition worker_pop (i : nat) (s : thread_pool) : option thread_pool :=
  '(raw_awaiter, q) ← pop (awaiters s);
  Some (set_worker i (match raw_awaiter with None => Exited | Some c => Resuming c end) (set_awaiters q s)).

Definition worker_resume (i : nat) (c : addr) (s : thread_pool) : outcome thread_pool :=
  if decide (coros s !! c = Some Queued) then Ret (set_worker i Leaving (set_coro c OnPool s))
  else Fault BadResume.

Definition notify_awaiter_leave (i : nat) (s : thread_pool) : thread_pool :=
  set_worker i Popping (set_state (u32 (pool_state s - NEW_AWAITER_INCREMENT)) s).

(** [shutdown] *)
Definition fetch_or (t : addr) (s : thread_pool) : thread_pool :=
  set_closer t (if closed (pool_state s) then Joining 0 else PushSentinels)
    (set_state (Z.lor (pool_state s) CLOSED_FLAG) s).

Definition push_sentinels (t : addr) (s : thread_pool) : thread_pool :=
  set_closer t (Joining 0) (set_awaiters (push_batch (replicate (n_threads s) SENTINEL_AWAITER) (awaiters s)) s).

(** [join()] blocks until the worker has exited; joining a thread that has
    already been joined throws. *)
Definition join (t : addr) (i : nat) (s : thread_pool) : option thread_pool :=
  match threads s !! i, joinable s !! i with
  | Some w, Some j =>
    if (j : bool) then
      if decide (w = Exited)
      then Some (Pool (pool_state s) (threads s) (<[i := false]> (joinable s)) (awaiters s) (joined s)
                   (coros s) (<[t := Joining (S i)]> (closers s)))
      else None
    else Some (set_closer t (Thrown (SystemError 22)) s)
  | _, _ =>
    Some (Pool (pool_state s) (threads s) (joinable s) (awaiters s) true (coros s) (<[t := Closed]> (closers s)))
  end.

Inductive agent := Worker (i : nat) | Coro (c : addr) (spurious : bool) | Closer (t : addr).

Definition step (a : agent) (s : thread_pool) : option (outcome thread_pool) :=
  match a with
  | Worker i =>
    match threads s !! i with
    | Some Popping => s ← worker_pop i s; Some (Ret s)
    | Some (Resuming c) => Some (worker_resume i c s)
    | Some Leaving => Some (Ret (notify_awaiter_leave i s))
    | Some Exited | None => None
    end
  | Coro c spurious =>
    match coros s !! c with
    | Some EnterLoad => Some (Ret (set_coro c (EnterTest (pool_state s)) s))
    | Some (EnterTest st) => Some (Ret (enter_test c st s))
    | Some (EnterCas st) => Some (Ret (enter_cas c st spurious s))
    | Some Push => Some (Ret (push_awaiter c s))
    | Some (Queued | Inline | OnPool) | None => None
    end
  | Closer t =>
    match closers s !! t with
    | Some FetchOr => Some (Ret (fetch_or t s))
    | Some PushSentinels => Some (Ret (push_sentinels t s))
    | Some (Joining i) => s ← join t i s; Some (Ret s)
    | Some (Closed | Thrown _) | None => None
    end
  end.

Inductive pool_step : thread_pool -> thread_pool -> Prop :=
| Run s s' a : step a s = Some (Ret s') -> pool_step s s'
| Schedule s c : coros s !! c = None -> pool_step s (set_coro c EnterLoad s)
| Shutdown s t : closers s !! t = None -> pool_step s (set_closer t FetchOr s).

Definition reachable (n : nat) (s : thread_pool) : Prop := rtc pool_step (thread_pool_init n) s.

(** ** The invariant: a suspended coroutine is in the queue or with a worker,
    once *)

Record inv (s : thread_pool) : Prop := {
  inv_queue c : Some c ∈ awaiters s -> coros s !! c = Some Queued;
  inv_nodup : NoDup (omap id (awaiters s));
  inv_worker i c : threads s !! i = Some (Resuming c) ->
    coros s !! c = Some Queued /\ Some c ∉ awaiters s;
  inv_workers i j c : threads s !! i = Some (Resuming c) -> threads s !! j = Some (Resuming c) -> i = j;
}.

Lemma elem_of_omap_id (c : addr) (q : queue) : c ∈ omap id q <-> Some c ∈ q.
Proof.
  rewrite list_elem_of_omap. split.
  - intros (x & Hx & E). by destruct x; simplify_eq/=.
  - intros H. by exists (Some c).
Qed.

Lemma pool_inv_init n : inv (thread_pool_init n).
Proof.
  split; cbn; [by intros c ?%elem_of_nil|constructor|..]; by intros i c [? _]%lookup_replicate || intros i j c [? _]%lookup_replicate.
Qed.

(** A coroutine that is not suspended moves to another such place. *)
Lemma inv_set_coro s c p z :
  inv s -> coros s !! c <> Some Queued -> inv (set_coro c p (set_state z s)).
Proof.
  intros [I1 I2 I3 I4] Hc. split; cbn; try done.
  - intros d Hd. specialize (I1 d Hd). rewrite lookup_insert_ne; [done|]. by intros ->.
  - intros i d E. destruct (I3 i d E) as [H1 H2]. split; [|done].
    rewrite lookup_insert_ne; [done|]. by intros ->.
Qed.

Lemma set_state_id s : set_state (pool_state s) s = s.
Proof. by destruct s. Qed.

Lemma pool_inv_push s c :
  inv s -> coros s !! c <> Some Queued -> inv (push_awaiter c s).
Proof.
  intros [I1 I2 I3 I4] Hc. unfold push_awaiter, push. split; cbn.
  - intros d [Hd|Hd]%elem_of_app.
    + rewrite lookup_insert_ne; [by apply I1|]. intros ->. by apply Hc, I1.
    + apply list_elem_of_singleton in Hd. injection Hd as ->. apply lookup_insert_eq.
  - rewrite omap_app. cbn. apply NoDup_app. split; [done|]. split; [|apply NoDup_singleton].
    intros d Hd%elem_of_omap_id ->%list_elem_of_singleton. by apply Hc, I1.
  - intros i d E. destruct (I3 i d E) as [H1 H2]. assert (c <> d) as Hcd by by intros ->.
    rewrite lookup_insert_ne by done. split; [done|]. rewrite elem_of_app. intros [?|Hd]; [done|].
    apply list_elem_of_singleton in Hd. by injection Hd as ->.
  - done.
Qed.

Lemma inv_pop s i x q :
  inv s -> threads s !! i = Some Popping -> awaiters s = x :: q ->
  inv (set_worker i (match x with None => Exited | Some c => Resuming c end) (set_awaiters q s)).
Proof.
  intros [I1 I2 I3 I4] Ei Eq. rewrite Eq in *. 
  assert (forall j d, <[i := match x with None => Exited | Some c => Resuming c end]> (threads s) !! j = Some (Resuming d) ->
    j = i /\ x = Some d \/ j <> i /\ threads s !! j = Some (Resuming d)) as Hl.
  { intros j d [(<- & E & _)|[Hne E]]%list_lookup_insert_Some; [left|by right]. destruct x; by simplify_eq. }
  split; cbn.
  - intros d Hd. apply I1. by right.
  - destruct x; cbn in I2; [by apply NoDup_cons in I2 as [_ ?]|done].
  - intros j d [[-> ->]|[Hne E]]%Hl.
    + split; [apply I1; by left|]. cbn in I2. apply NoDup_cons in I2 as [H2 _].
      by rewrite elem_of_omap_id in H2.
    + destruct (I3 j d E) as [H1 H2]. split; [done|]. intros Hd. apply H2. by right.
  - intros j k d [[-> ->]|[Hne E]]%Hl [[-> [=]]|[Hne' E']]%Hl; subst; try done.
    + destruct (I3 k d E') as [_ H2]. exfalso. apply H2. by left.
    + destruct (I3 j d E) as [_ H2]. exfalso. apply H2. by left.
    + eauto.
Qed.

Lemma inv_resume s i c :
  inv s -> threads s !! i = Some (Resuming c) -> inv (set_worker i Leaving (set_coro c OnPool s)).
Proof.
  intros [I1 I2 I3 I4] Ei. destruct (I3 _ _ Ei) as [Hc Hnq].
  assert (forall j d, <[i := Leaving]> (threads s) !! j = Some (Resuming d) -> j <> i /\ threads s !! j = Some (Resuming d)) as Hl.
  { intros j d [(_ & [=] & _)|[Hne E]]%list_lookup_insert_Some. done. }
  split; cbn; try done.
  - intros d Hd. rewrite lookup_insert_ne; [by apply I1|]. by intros ->.
  - intros j d [Hne E]%Hl. destruct (I3 j d E) as [H1 H2]. split; [|done].
    rewrite lookup_insert_ne; [done|]. intros ->. by apply Hne, (I4 j i d).
  - intros j k d [_ E]%Hl [_ E']%Hl. eauto.
Qed.

(** Steps that leave coroutines, workers' hands and the handles in the queue alone. *)
Lemma inv_ext s s' :
  inv s -> coros s' = coros s -> omap id (awaiters s') = omap id (awaiters s) ->
  (forall i c, threads s' !! i = Some (Resuming c) -> threads s !! i = Some (Resuming c)) -> inv s'.
Proof.
  intros [I1 I2 I3 I4] Ec Eq Et.
  assert (forall c, Some c ∈ awaiters s' <-> Some c ∈ awaiters s) as Hq.
  { intros c. by rewrite <- !elem_of_omap_id, Eq. }
  split.
  - intros c. rewrite Hq, Ec. apply I1.
  - by rewrite Eq.
  - intros i c E%Et. rewrite Hq, Ec. by apply (I3 i).
  - intros i j c E%Et E'%Et. eauto.
Qed.

Lemma pool_step_inv s a r : inv s -> step a s = Some r -> exists s', r = Ret s' /\ inv s'.
Proof.
  intros Hi E. destruct a as [i|c sp|t]; cbn in E.
  - destruct (threads s !! i) as [[|c| |]|] eqn:Ei; try done.
    + unfold worker_pop, pop in E. destruct (awaiters s) as [|x q] eqn:Eq; [done|]. injection E as <-.
      eexists. split; [done|]. by apply inv_pop.
    + injection E as <-. destruct (inv_worker _ Hi _ _ Ei) as [Hc _]. unfold worker_resume.
      rewrite decide_True by done. eexists. split; [done|]. by apply inv_resume.
    + injection E as <-. eexists. split; [done|]. apply (inv_ext s); try done.
      intros j c. cbn. intros [(_ & [=] & _)|[_ ?]]%list_lookup_insert_Some. done.
  - destruct (coros s !! c) as [[]|] eqn:Ec; try done; injection E as <-; eexists; (split; [done|]).
    + rewrite <- (set_state_id s) at 2. apply inv_set_coro; [done|by rewrite Ec].
    + unfold enter_test. case_match; rewrite <- (set_state_id s); apply inv_set_coro; try done; by rewrite Ec.
    + unfold enter_cas. case_match; [apply inv_set_coro; [done|by rewrite Ec]|].
      rewrite <- (set_state_id s) at 2. apply inv_set_coro; [done|by rewrite Ec].
    + apply pool_inv_push; [done|by rewrite Ec].
  - destruct (closers s !! t) as [[| |i| |]|] eqn:Et; try done.
    + injection E as <-. eexists. split; [done|]. by apply (inv_ext s).
    + injection E as <-. eexists. split; [done|]. apply (inv_ext s); try done. cbn. unfold push_batch.
      rewrite omap_app. assert (omap id (replicate (n_threads s) SENTINEL_AWAITER) = []) as ->; [|by rewrite app_nil_r].
      induction (n_threads s); done.
    + unfold join in E. destruct (threads s !! i) as [w|] eqn:Ei; [destruct (joinable s !! i) as [[]|]|];
        try (injection E as <-; eexists; split; [done|]; by apply (inv_ext s)).
      case_decide; [|done]. injection E as <-. eexists. split; [done|]. by apply (inv_ext s).
Qed.

Lemma pool_steps_inv s s' : inv s -> pool_step s s' -> inv s'.
Proof.
  intros Hi Hs. destruct Hs as [s0 s1 a E|s0 c E|s0 t E].
  - by destruct (pool_step_inv _ _ _ Hi E) as (s'' & [= <-] & ?).
  - rewrite <- (set_state_id s0) at 1. apply inv_set_coro; [done|by rewrite E].
  - by apply (inv_ext s0).
Qed.

Lemma pool_reachable_inv n s : reachable n s -> inv s.
Proof.
  intros Hr. pose proof (pool_inv_init n) as Hi. revert Hi.
  induction Hr as [|s1 s2 s3 Hs _ IH]; [done|]. intros Hi. by apply IH, (pool_steps_inv s1).
Qed.

(** ** Coroutines that will be resumed *)

(** Before any worker has exited, [c] is queued ahead of every sentinel; or a
    worker is about to resume it, or has. *)
Definition pending (c : addr) (s : thread_pool) : Prop :=
  (exists l1 l2, awaiters s = l1 ++ Some c :: l2 /\ null ∉ l1 /\ Exited ∉ threads s) \/
  (exists i, threads s !! i = Some (Resuming c)) \/
  coros s !! c = Some OnPool.

Lemma not_exited_insert s i w : Exited ∉ threads s -> w <> Exited -> Exited ∉ <[i := w]> (threads s).
Proof.
  intros Hn Hw (j & Hj)%list_elem_of_lookup. apply list_lookup_insert_Some in Hj as [(_ & E & _)|[_ E]]; [done|].
  apply Hn. eauto with coro.
Qed.

(** Steps that do not pop or resume keep a coroutine pending. *)
Lemma pending_ext c s s' l :
  pending c s -> awaiters s' = awaiters s ++ l -> threads s' = threads s ->
  (coros s !! c = Some OnPool -> coros s' !! c = Some OnPool) -> pending c s'.
Proof.
  intros [(l1 & l2 & E & H1 & H2)|[(i & E)|E]] Eq Et Ec.
  - left. exists l1, (l2 ++ l). rewrite Eq, E, Et, <- app_assoc. done.
  - right. left. exists i. by rewrite Et.
  - right. right. auto.
Qed.

Lemma pending_worker c i s s' : inv s -> pending c s -> step (Worker i) s = Some (Ret s') -> pending c s'.
Proof.
  intros Hi Hp E. cbn in E.
  destruct (threads s !! i) as [[|d| |]|] eqn:Ei; try done.
  - unfold worker_pop, pop in E. destruct (awaiters s) as [|x q] eqn:Eq; [done|]. injection E as <-.
    destruct Hp as [(l1 & l2 & E & H1 & H2)|[(j & E)|E]]; [|right; left|by right; right].
    + rewrite Eq in E. destruct l1 as [|y l1]; cbn in E; injection E as -> ->.
      * right. left. exists i. cbn. apply list_lookup_insert_eq. eauto with coro.
      * left. exists l1, l2. cbn. apply not_elem_of_cons in H1 as [Hy H1].
         destruct y as [y|]; [|done]. split; [done|]. split; [done|]. by apply not_exited_insert.
    + exists j. cbn. rewrite list_lookup_insert_ne; [done|]. intros ->. by rewrite Ei in E.
  - injection E as E. unfold worker_resume in E. case_decide as Hd; [|done]. injection E as <-.
    destruct (decide (d = c)) as [->|Hne].
    { right. right. cbn. apply lookup_insert_eq. }
    destruct Hp as [(l1 & l2 & E & H1 & H2)|[(j & E)|E]].
    + left. exists l1, l2. cbn. split; [done|]. split; [done|]. by apply not_exited_insert.
    + right. left. exists j. cbn. rewrite list_lookup_insert_ne; [done|]. intros ->. congruence.
    + right. right. cbn. by rewrite lookup_insert_ne.
  - injection E as <-. destruct Hp as [(l1 & l2 & E & H1 & H2)|[(j & E)|E]].
    + left. exists l1, l2. cbn. split; [done|]. split; [done|]. by apply not_exited_insert.
    + right. left. exists j. cbn. rewrite list_lookup_insert_ne; [done|]. intros ->. congruence.
    + by right; right.
Qed.

Lemma pending_step c s s' : inv s -> pending c s -> pool_step s s' -> pending c s'.
Proof.
  intros Hi Hp Hs. destruct Hs as [s s' a E|s d E|s t E].
  2: { eapply (pending_ext _ _ _ []); [done|by rewrite app_nil_r|done|]. intros Ec. cbn.
       rewrite lookup_insert_ne; [done|]. intros ->. by rewrite E in Ec. }
  2: { by eapply (pending_ext _ _ _ []); [|rewrite app_nil_r|..]. }
  destruct a as [i|d sp|t]; cbn in E.
  - by apply (pending_worker c i s).
  - destruct (coros s !! d) as [p|] eqn:Ed; [|done].
    assert (forall q z, p <> OnPool -> pending c (set_coro d q (set_state z s))) as Hmv.
    { intros q z Hq. eapply (pending_ext _ _ _ []); [done|by rewrite app_nil_r|done|]. intros Ec. cbn.
      rewrite lookup_insert_ne; [done|]. intros ->. by simplify_eq. }
    destruct p as [|st|st| | | |]; try done; injection E as <-.
    + by rewrite <- (set_state_id s) at 2; apply Hmv.
    + unfold enter_test. case_match; rewrite <- (set_state_id s); by apply Hmv.
    + unfold enter_cas. case_match; [by apply Hmv|]. rewrite <- (set_state_id s) at 2. by apply Hmv.
    + eapply (pending_ext _ _ _ [Some d]); [done|done|done|]. intros Ec. cbn.
      rewrite lookup_insert_ne; [done|]. intros ->. by simplify_eq.
  - destruct (closers s !! t) as [[| |i| |]|] eqn:Et; try done.
    + injection E as <-. by eapply (pending_ext _ _ _ []); [|rewrite app_nil_r|..].
    + injection E as <-. by eapply (pending_ext _ _ _ (replicate (n_threads s) SENTINEL_AWAITER)).
    + unfold join in E. destruct (threads s !! i) as [w|] eqn:Ei; [destruct (joinable s !! i) as [[]|]|];
        try (injection E as <-; by eapply (pending_ext _ _ _ []); [|rewrite app_nil_r|..]).
      case_decide; [|done]. injection E as <-. by eapply (pending_ext _ _ _ []); [|rewrite app_nil_r|..].
Qed.

Lemma pool_pending_steps c s s' : inv s -> pending c s -> rtc pool_step s s' -> pending c s'.
Proof.
  intros Hi Hp Hr. revert Hi Hp. induction Hr as [|s1 s2 s3 Hs _ IH]; [done|]. intros Hi Hp.
  apply IH; [by apply (pool_steps_inv s1)|by apply (pending_step c s1)].
Qed.

(** ** The closed flag *)

Lemma pool_closed_odd z : closed z = Z.odd z.
Proof. apply land_1_odd. Qed.

(** Coroutines that cannot enter any more. *)
Definition shut_out (c : addr) (s : thread_pool) : Prop :=
  closed (pool_state s) = true /\
  match coros s !! c with
  | Some EnterLoad | Some Inline => True
  | Some (EnterTest st) => closed st = true
  | _ => False
  end.

Lemma shut_out_step c s s' : shut_out c s -> pool_step s s' -> shut_out c s'.
Proof.
  intros [Hc Hp] Hs. destruct Hs as [s s' a E|s d E|s t E].
  2: { split; [done|]. cbn. rewrite lookup_insert_ne; [done|]. intros ->. by rewrite E in Hp. }
  2: { by split. }
  destruct a as [i|d sp|t]; cbn in E.
  - destruct (threads s !! i) as [[|d| |]|] eqn:Ei; try done.
    + unfold worker_pop, pop in E. destruct (awaiters s) as [|x q] eqn:Eq; [done|]. by injection E as <-.
    + injection E as E. unfold worker_resume in E. case_decide as Hd; [|done]. injection E as <-.
      split; [done|]. cbn. rewrite lookup_insert_ne; [done|]. intros ->. by rewrite Hd in Hp.
    + injection E as <-. split; [|done]. cbn. rewrite pool_closed_odd, u32_odd in *.
      unfold NEW_AWAITER_INCREMENT. by rewrite Z.odd_sub, Hc.
  - destruct (coros s !! d) as [p|] eqn:Ed; [|done].
    assert (forall q z, closed z = true -> (d = c -> match q with EnterTest st => closed st = true | EnterLoad | Inline => True | _ => False end) ->
              shut_out c (set_coro d q (set_state z s))) as Hmv.
    { intros q z Hz Hq. split; [done|]. cbn. destruct (decide (d = c)) as [->|Hne].
      - rewrite lookup_insert_eq. by destruct q; apply Hq.
      - by rewrite lookup_insert_ne. }
    assert (d = c -> match p with EnterTest st => closed st = true | EnterLoad | Inline => True | _ => False end) as Hd.
    { intros ->. by rewrite Ed in Hp. }
    destruct p as [|st|st| | | |]; try done; injection E as <-.
    + by rewrite <- (set_state_id s) at 2; apply Hmv.
    + unfold enter_test. destruct (closed st) eqn:Hst; rewrite <- (set_state_id s); apply Hmv; try done.
      intros Hdc. specialize (Hd Hdc). congruence.
    + unfold enter_cas. case_decide as Hcas.
      * apply Hmv; [|done]. destruct Hcas as [<- _]. rewrite pool_closed_odd, u32_odd in *.
        unfold NEW_AWAITER_INCREMENT. by rewrite Z.odd_add, Hc.
      * rewrite <- (set_state_id s) at 2. by apply Hmv.
    + apply (Hmv Queued (pool_state s)); [done|]. intros Hdc. by specialize (Hd Hdc).
  - destruct (closers s !! t) as [[| |i| |]|] eqn:Et; try done.
    + injection E as <-. split; [|done]. cbn. rewrite pool_closed_odd in *. unfold CLOSED_FLAG.
      rewrite <- Z.bit0_odd in *. by rewrite Z.lor_spec, Hc.
    + by injection E as <-.
    + unfold join in E. destruct (threads s !! i) as [w|] eqn:Ei; [destruct (joinable s !! i) as [[]|]|];
        try (by injection E as <-). case_decide; [|done]. by injection E as <-.
Qed.

Lemma shut_out_steps c s s' : shut_out c s -> rtc pool_step s s' -> shut_out c s'.
Proof. intros H Hr. induction Hr as [|s1 s2 s3 Hs _ IH]; [done|]. by apply IH, (shut_out_step c s1). Qed.

(** ** Workers that have exited do not come back *)

Definition stranded (c : addr) (s : thread_pool) : Prop :=
  Forall (fun w => w = Exited) (threads s) /\ coros s !! c = Some Queued.

Lemma stranded_step c s s' : stranded c s -> pool_step s s' -> stranded c s'.
Proof.
  intros [Hw Hc] Hs. pose proof Hw as Hw'. rewrite Forall_lookup in Hw'. destruct Hs as [s s' a E|s d E|s t E].
  2: { split; [done|]. cbn. rewrite lookup_insert_ne; [done|]. intros ->. congruence. }
  2: { by split. }
  destruct a as [i|d sp|t]; cbn in E.
  - destruct (threads s !! i) as [w|] eqn:Ei; [|done]. by rewrite (Hw' _ _ Ei) in E.
  - assert (d <> c) as Hne by (intros ->; by rewrite Hc in E).
    assert (forall q z aw, stranded c (set_coro d q (set_awaiters aw (set_state z s)))) as Hmv.
    { intros q z aw. split; [done|]. cbn. by rewrite lookup_insert_ne. }
    destruct (coros s !! d) as [p|] eqn:Ed; [|done]. destruct p as [|st|st| | | |]; try done; injection E as <-.
    + apply (Hmv _ (pool_state s) (awaiters s)).
    + unfold enter_test. case_match; apply (Hmv _ (pool_state s) (awaiters s)).
    + unfold enter_cas. case_match; [apply (Hmv _ _ (awaiters s))|apply (Hmv _ (pool_state s) (awaiters s))].
    + apply (Hmv _ (pool_state s)).
  - destruct (closers s !! t) as [[| |i| |]|] eqn:Et; try done; try by injection E as <-.
    unfold join in E. destruct (threads s !! i) as [w|] eqn:Ei; [destruct (joinable s !! i) as [[]|]|];
      try (by injection E as <-). case_decide; [|done]. by injection E as <-.
Qed.

Lemma stranded_steps c s s' : stranded c s -> rtc pool_step s s' -> stranded c s'.
Proof. intros H Hr. induction Hr as [|s1 s2 s3 Hs _ IH]; [done|]. by apply IH, (stranded_step c s1). Qed.

(** ** Concrete runs *)

Inductive event := ESchedule (c : addr) | EShutdown (t : addr) | ERun (a : agent).

Fixpoint exec (es : list event) (s : thread_pool) : outcome thread_pool :=
  match es with
  | [] => Ret s
  | ESchedule c :: es =>
    match coros s !! c with None => exec es (set_coro c EnterLoad s) | Some _ => Fault AssertionFailed end
  | EShutdown t :: es =>
    match closers s !! t with None => exec es (set_closer t FetchOr s) | Some _ => Fault AssertionFailed end
  | ERun a :: es => s ← (match step a s with Some r => r | None => Fault AssertionFailed end); exec es s
  end.

Lemma pool_exec_steps es : forall s s', exec es s = Ret s' -> rtc pool_step s s'.
Proof.
  induction es as [|e es IH]; intros s s' E; [injection E as <-; apply rtc_refl|].
  destruct e as [c|t|a]; cbn [exec] in E.
  - destruct (coros s !! c) eqn:Ec; [done|]. eapply rtc_l; [by constructor|by apply IH].
  - destruct (closers s !! t) eqn:Et; [done|]. eapply rtc_l; [by constructor|by apply IH].
  - apply bind_Ret_inv in E as (s1 & E1 & E). destruct (step a s) as [r|] eqn:Er; [|done]. subst r.
    eapply rtc_l; [by eapply Run|by apply IH].
Qed.

Definition state_after (es : list event) (s : thread_pool) : thread_pool :=
  match exec es s with Ret s => s | _ => s end.

Definition coro_steps (k : nat) (c : addr) : list event := replicate k (ERun (Coro c false)).
Definition closer_steps (k : nat) (t : addr) : list event := replicate k (ERun (Closer t)).
Definition worker_steps (k : nat) : list event := replicate k (ERun (Worker 0)).

(** Coroutine 1 has entered and pushed its handle. *)
Definition queued_state : thread_pool :=
  state_after (ESchedule 1 :: coro_steps 4 1) (thread_pool_init 1).

(** ... then the pool is shut down and its worker has done everything. *)
Definition drained_events : list event := EShutdown 1 :: closer_steps 2 1 ++ worker_steps 4 ++ closer_steps 2 1.
Definition drained_state : thread_pool := state_after drained_events queued_state.

(** Coroutine 1 enters; the pool is shut down; only then it pushes its handle. *)
Definition late_state : thread_pool :=
  state_after (ESchedule 1 :: coro_steps 3 1 ++ EShutdown 1 :: closer_steps 2 1 ++ worker_steps 1 ++
               closer_steps 2 1 ++ coro_steps 1 1) (thread_pool_init 1).

(** The pool has been closed; coroutine 1 arrives. *)
Definition closed_state : thread_pool :=
  state_after (EShutdown 1 :: closer_steps 1 1 ++ [ESchedule 1]) (thread_pool_init 1).

(** ** Theorems *)

(** Whatever the interleaving of coroutines, workers and shutdown, a worker
    only resumes coroutines that are suspended on the pool, hence each
    scheduled coroutine at most once. *)
Theorem pool_resumes_suspended_once n s a r :
  reachable n s -> step a s = Some r -> exists s', r = Ret s'.
Proof.
  intros Hr E. destruct (pool_step_inv s a r (pool_reachable_inv n s Hr) E) as (s' & -> & _). eauto.
Qed.

(** C18. Shutdown completes the outstanding work: a coroutine whose handle was
    queued before the sentinels has been resumed on the pool in every later
    state in which all the workers have exited (that is, whenever [shutdown]
    has joined them). *)
Theorem shutdown_drains_queue n s s' c :
  reachable n s -> Some c ∈ awaiters s -> null ∉ awaiters s -> Exited ∉ threads s ->
  rtc pool_step s s' -> threads s' <> [] -> Forall (fun w => w = Exited) (threads s') ->
  coros s' !! c = Some OnPool.
Proof.
  intros Hr Hc Hnull Hex Hsteps Hne Hall. pose proof (pool_reachable_inv n s Hr) as Hi.
  assert (pending c s) as Hp.
  { left. apply list_elem_of_split in Hc as (l1 & l2 & E). exists l1, l2. split; [done|]. split; [|done].
    intros Hin. apply Hnull. rewrite E. apply elem_of_app. by left. }
  rewrite Forall_lookup in Hall.
  destruct (pool_pending_steps c s s' Hi Hp Hsteps) as [(l1 & l2 & _ & _ & Hno)|[(i & E)|E]]; [| |done].
  - exfalso. destruct (threads s') as [|w ws] eqn:Ew; [done|]. apply Hno. rewrite (Hall 0%nat w eq_refl). by left.
  - by specialize (Hall _ _ E).
Qed.

(** After [shutdown] has set the closed flag no coroutine enters any more:
    one that calls [schedule] from then on is never queued; it can only go on
    where it is. *)
Theorem closed_pool_admits_nobody s s' c :
  closed (pool_state s) = true -> coros s !! c = Some EnterLoad -> rtc pool_step s s' ->
  coros s' !! c <> Some Push /\ coros s' !! c <> Some Queued /\ coros s' !! c <> Some OnPool.
Proof.
  intros Hc Ec Hr. destruct (shut_out_steps c s s') as [_ H]; [by split; [|rewrite Ec]|done|].
  destruct (coros s' !! c) as [[]|]; done.
Qed.

(** But a coroutine that has entered just before the flag is set, and pushes
    its handle after the sentinels, is never resumed: [shutdown] has returned,
    every worker has exited, and the coroutine stays suspended for ever. *)
Theorem late_awaiter_is_lost :
  exists s, reachable 1 s /\ closers s !! 1%positive = Some Closed /\ joined s = true /\
    coros s !! 1%positive = Some Queued /\
    forall s', rtc pool_step s s' -> coros s' !! 1%positive = Some Queued.
Proof.
  exists late_state. split.
  { apply (pool_exec_steps (ESchedule 1 :: coro_steps 3 1 ++ EShutdown 1 :: closer_steps 2 1 ++ worker_steps 1 ++
               closer_steps 2 1 ++ coro_steps 1 1)). vm_compute. reflexivity. }
  split; [reflexivity|]. split; [reflexivity|]. split; [reflexivity|]. intros s' Hr.
  assert (stranded 1 late_state) as Hs by (split; [vm_compute; by constructor|reflexivity]).
  by destruct (stranded_steps _ _ _ Hs Hr).
Qed.

(** A second [shutdown] joins the workers again, which throws. *)
Theorem second_shutdown_throws :
  (s ← exec (drained_events ++ EShutdown 2 :: closer_steps 2 2) queued_state; Ret (closers s !! 2%positive)) =
  Ret (Some (Thrown (SystemError 22))).
Proof. vm_compute. reflexivity. Qed.

(** ** Witnesses *)

Lemma queued_reachable : reachable 1 queued_state.
Proof. apply (pool_exec_steps (ESchedule 1 :: coro_steps 4 1)). vm_compute. reflexivity. Qed.

Lemma pool_resumes_suspended_once_witness :
  awaiters queued_state = [Some 1%positive] /\ exists s', step (Worker 0) queued_state = Some (Ret s').
Proof.
  split; [reflexivity|].
  destruct (step (Worker 0) queued_state) as [r|] eqn:E; [|vm_compute in E; discriminate E].
  destruct (pool_resumes_suspended_once 1 queued_state (Worker 0) r queued_reachable E) as (s' & ->). eauto.
Defined.

Lemma shutdown_drains_queue_witness :
  awaiters queued_state = [Some 1%positive] /\ coros drained_state !! 1%positive = Some OnPool.
Proof.
  split; [reflexivity|].
  apply (shutdown_drains_queue 1 queued_state drained_state 1).
  - exact queued_reachable.
  - apply list_elem_of_In. vm_compute. by left.
  - rewrite list_elem_of_In. vm_compute. intros [?|[]]. discriminate.
  - rewrite list_elem_of_In. vm_compute. intros [?|[]]. discriminate.
  - apply (pool_exec_steps drained_events). vm_compute. reflexivity.
  - vm_compute. discriminate.
  - vm_compute. by constructor.
Defined.

Lemma closed_pool_admits_nobody_witness :
  closed (pool_state closed_state) = true /\
  let s' := state_after (coro_steps 2 1) closed_state in
  coros s' !! 1%positive = Some Inline /\
  coros s' !! 1%positive <> Some Push /\ coros s' !! 1%positive <> Some Queued /\ coros s' !! 1%positive <> Some OnPool.
Proof.
  split; [reflexivity|]. split; [reflexivity|].
  apply (closed_pool_admits_nobody closed_state); [reflexivity|reflexivity|].
  apply (pool_exec_steps (coro_steps 2 1)). vm_compute. reflexivity.
Defined.

(** ** The destructor *)

(** [~thread_pool()], in the thread [t]: it joins the workers unless that is
    done, but does not ask them to leave. *)
Definition destructor (t : addr) (s : thread_pool) : thread_pool :=
  if joined s then set_closer t Closed s else set_closer t (Joining 0) s.

(** No thread has called [shutdown()] but, perhaps, [t] has the destructor. *)
Definition no_shutdown (p : option addr) (s : thread_pool) : Prop :=
  null ∉ awaiters s /\ Exited ∉ threads s /\ closers s = match p with Some t => {[t := Joining 0]} | None => ∅ end /\
  (0 < n_threads s)%nat /\ (forall i, (i < n_threads s)%nat -> joinable s !! i = Some true) /\ joined s = false.

Lemma no_shutdown_step p s s' a : no_shutdown p s -> step a s = Some (Ret s') -> no_shutdown p s'.
Proof.
  intros (H1 & H2 & H3 & H4 & H5 & H6) E.
  assert (forall i w, Exited <> w -> Exited ∉ <[i := w]> (threads s)) as Hw.
  { intros i w Hne (j & [(_ & ? & _)|[_ Hj]]%list_lookup_insert_Some)%list_elem_of_lookup; [congruence|].
    apply H2, list_elem_of_lookup. by exists j. }
  assert (forall i, n_threads (set_worker i Popping s) = n_threads s) as Hn by (intros; unfold n_threads; cbn; by rewrite length_insert).
  destruct a as [i|c sp|t]; cbn in E.
  - destruct (threads s !! i) as [[|c| |]|] eqn:Ei; try done.
    + unfold worker_pop, pop in E. destruct (awaiters s) as [|x q] eqn:Eq; [done|]. cbn in E. injection E as <-.
      destruct x as [c|]; [|by destruct H1; left]. unfold no_shutdown, n_threads in *. cbn. rewrite length_insert.
      split; [intros ?; apply H1; by right|]. split; [by apply Hw|done].
    + unfold worker_resume in E. case_decide; [|done]. injection E as <-. unfold no_shutdown, n_threads in *. cbn.
      rewrite length_insert. split; [done|]. split; [by apply Hw|done].
    + injection E as <-. unfold no_shutdown, n_threads in *. cbn. rewrite length_insert. split; [done|]. split; [by apply Hw|done].
  - destruct (coros s !! c) as [[]|] eqn:Ec; try done; injection E as <-; try done.
    + unfold enter_test. by destruct (closed state).
    + unfold enter_cas. by case_decide.
    + unfold no_shutdown, n_threads in *. cbn. unfold push. split; [|done].
      rewrite elem_of_app, list_elem_of_singleton. by intros [?|?].
  - rewrite H3 in E. destruct p as [t'|]; [|by rewrite lookup_empty in E].
    destruct (decide (t' = t)) as [->|Hne]; [|by rewrite lookup_singleton_ne in E].
    rewrite lookup_singleton_eq in E. unfold join in E. rewrite (H5 0%nat H4) in E.
    destruct (threads s !! 0%nat) as [w|] eqn:Ew; [|apply lookup_ge_None in Ew; unfold n_threads in H4; lia].
    cbn in E. case_decide as Hx; [|done]. destruct H2. apply list_elem_of_lookup. exists 0%nat. by rewrite Ew, Hx.
Qed.

Lemma no_shutdown_reachable n s : reachable n s -> (0 < n)%nat -> closers s = ∅ -> no_shutdown None s.
Proof.
  intros Hr Hn. remember (thread_pool_init n) as s0 eqn:E0.
  assert (no_shutdown None s0) as H0.
  { subst s0. unfold no_shutdown, n_threads. cbn. rewrite length_replicate. split; [apply not_elem_of_nil|].
    split; [by intros [? _]%elem_of_replicate|]. split; [done|]. split; [done|]. split; [|done].
    intros i Hi. by apply lookup_replicate_2. }
  unfold reachable in Hr. rewrite <- E0 in Hr. clear E0. induction Hr as [s|s1 s2 s3 Hs Hr IH]; [done|]. intros Hc.
  assert (closers s2 = ∅) as Hc2.
  { clear -Hr Hc. induction Hr as [|s1 s2 s3 Hs _ IH]; [done|]. specialize (IH Hc).
    destruct Hs as [s s' a E|s c _|s t _]; cbn in IH; [|done|by apply insert_non_empty in IH].
    destruct a as [i|c sp|t]; cbn in E.
    - destruct (threads s !! i) as [[|c| |]|]; try done; [unfold worker_pop, pop in E|unfold worker_resume in E|].
      + destruct (awaiters s); [done|]. by injection E as <-.
      + case_decide; [|done]. by injection E as <-.
      + by injection E as <-.
    - destruct (coros s !! c) as [[]|]; try done; injection E as <-; [done|unfold enter_test in IH|unfold enter_cas in IH|done].
      + by destruct (closed state).
      + by case_decide.
    - destruct (closers s !! t) as [[]|] eqn:Et; try done; unfold join in E; revert IH.
      + injection E as <-. cbn. by intros ?%insert_non_empty.
      + injection E as <-. cbn. by intros ?%insert_non_empty.
      + destruct (threads s !! i), (joinable s !! i) as [[]|]; try case_decide; try done; injection E as <-; cbn;
          by intros ?%insert_non_empty. }
  apply IH; [|done]. destruct Hs as [s s' a E|s c _|s t _]; [by eapply no_shutdown_step|done|exfalso; revert Hc2; apply insert_non_empty].
Qed.

(** The destructor of a pool that has not been shut down never returns: its
    workers wait for work for ever, whatever is still scheduled. *)
Theorem pool_destructor_hangs n s s' t :
  reachable n s -> (0 < n)%nat -> closers s = ∅ ->
  rtc (fun s s' => exists a, step a s = Some (Ret s')) (destructor t s) s' ->
  closers s' !! t = Some (Joining 0) /\ step (Closer t) s' = None.
Proof.
  intros Hr Hn Hc Hs. pose proof (no_shutdown_reachable n s Hr Hn Hc) as (H1 & H2 & _ & H4 & H5 & H6).
  assert (no_shutdown (Some t) s') as (_ & G2 & G3 & G4 & G5 & _).
  { assert (no_shutdown (Some t) (destructor t s)) as H0.
    { unfold destructor. rewrite H6. unfold no_shutdown. cbn. by rewrite Hc. }
    clear -Hs H0. induction Hs as [|s1 s2 s3 [a E] _ IH]; [done|]. apply IH. by eapply no_shutdown_step. }
  assert (closers s' !! t = Some (Joining 0)) as Et by (rewrite G3; apply lookup_singleton_eq). split; [done|].
  cbn. rewrite Et. unfold join. rewrite (G5 0%nat G4).
  destruct (threads s' !! 0%nat) as [w|] eqn:Ew; [|apply lookup_ge_None in Ew; unfold n_threads in G4; lia].
  cbn. case_decide as Hx; [|done]. destruct G2. apply list_elem_of_lookup. exists 0%nat. by rewrite Ew, Hx.
Qed.

Lemma pool_destructor_hangs_witness :
  closers (destructor 9 (thread_pool_init 2)) !! 9%positive = Some (Joining 0) /\
  step (Closer 9) (destructor 9 (thread_pool_init 2)) = None.
Proof.
  apply (pool_destructor_hangs 2 (thread_pool_init 2) (destructor 9 (thread_pool_init 2)) 9); [apply rtc_refl|lia|done|apply rtc_refl].
Defined.
End ThreadPool.
