(* ===== verification/PoolDriver.v ===== *)
(** * PoolDriver: applications/threadpool/driver.cpp

    The program on top of [ThreadPool]: [main] launches eager tasks that
    schedule themselves on the pool, and then shuts the pool down. The steps of
    [main] - those of the tasks it calls and of [shutdown] included - interleave
    with those of the workers. *)

From S2P Require Import Prelude Words ThreadPool.

Module PoolDriver.
Import ThreadPool.

(** ** The program *)

(** Where [main] is: at the head of its loop, in the call of a task, in
    [pool.shutdown()], or at its end. *)
Inductive main_pc := Launching (i : nat) | InTask (i : nat) | InShutdown | Returned.

Inductive line := Enter (id : nat) | Exit (id : nat).
#[export] Instance line_eq_dec : EqDecision line.
Proof. solve_decision. Defined.

Record program := Program { pool : thread_pool; main : main_pc; out : list line }.

(** The frame of the task [id]; [main] is the thread 1. *)
Definition frame (id : nat) : addr := Pos.of_succ_nat id.
Definition task_id (c : addr) : nat := pred (Pos.to_nat c).
Definition main_thread : addr := 1%positive.

Definition with_pool (s : program) (p : thread_pool) : program := Program p (main s) (out s).

(** A step of the pool. *)
Definition of_pool (a : agent) (s : program) : option (outcome program) :=
  match step a (pool s) with Some r => Some (p ← r; Ret (with_pool s p)) | None => None end.

(** [launch_task(pool, id)], up to its [co_await]. *)
Definition launch_task (id : nat) (s : program) : program :=
  Program (set_coro (frame id) EnterLoad (pool s)) (InTask id) (out s ++ [Enter id]).

(** A step of [main]. A task that has not been suspended goes on where it is. *)
Definition main_step (n_tasks : nat) (spurious : bool) (s : program) : option (outcome program) :=
  match main s with
  | Launching i =>
    Some (Ret (if decide (i < n_tasks) then launch_task i s
               else Program (set_closer main_thread FetchOr (pool s)) InShutdown (out s)))
  | InTask i =>
    match coros (pool s) !! frame i with
    | Some (Queued | OnPool) => Some (Ret (Program (pool s) (Launching (S i)) (out s)))
    | Some Inline => Some (Ret (Program (pool s) (Launching (S i)) (out s ++ [Exit i])))
    | _ => of_pool (Coro (frame i) spurious) s
    end
  | InShutdown =>
    match closers (pool s) !! main_thread with
    | Some Closed => Some (Ret (Program (pool s) Returned (out s)))
    | Some (Thrown e) => Some (Raise e)
    | _ => of_pool (Closer main_thread) s
    end
  | Returned => None
  end.

(** A step of a worker; the task that it resumes prints, and is done. *)
Definition worker_step (i : nat) (s : program) : option (outcome program) :=
  match threads (pool s) !! i with
  | Some (Resuming c) => of_pool (Worker i) (Program (pool s) (main s) (out s ++ [Exit (task_id c)]))
  | _ => of_pool (Worker i) s
  end.

Inductive driver_step (n_tasks : nat) : program -> program -> Prop :=
| Main s s' spurious : main_step n_tasks spurious s = Some (Ret s') -> driver_step n_tasks s s'
| Work s s' i : worker_step i s = Some (Ret s') -> driver_step n_tasks s s'.

Definition init (n_threads : nat) : program := Program (thread_pool_init n_threads) (Launching 0) [].

Definition driver_reachable (n_threads n_tasks : nat) (s : program) : Prop :=
  rtc (driver_step n_tasks) (init n_threads) s.

(** ** The invariant *)

Lemma task_id_frame i : task_id (frame i) = i.
Proof. unfold task_id, frame. by rewrite SuccNat2Pos.id_succ. Qed.

Lemma frame_inj i j : frame i = frame j -> i = j.
Proof. unfold frame. lia. Qed.

(** The number of sentinels in the queue, and of workers that have left. *)
Definition sentinels (q : queue) : nat := sum_list_with (fun x => match x with None => 1 | Some _ => 0 end) q.
Definition exited (l : list worker) : nat := sum_list_with (fun w => match w with Exited => 1 | _ => 0 end) l.

Arguments sentinels : simpl never.
Arguments exited : simpl never.

(** Suspended on the pool, or resumed by it. *)
Definition on_pool (p : option coro) : Prop := p = Some Queued \/ p = Some OnPool.

(** On its way to the pool. *)
Definition entering (p : option coro) : Prop :=
  match p with
  | Some EnterLoad | Some Push => True
  | Some (EnterTest st) | Some (EnterCas st) => closed st = false
  | _ => False
  end.

(** The pool before [shutdown] has pushed its sentinels. *)
Definition open_pool (p : thread_pool) : Prop :=
  sentinels (awaiters p) = 0 /\ exited (threads p) = 0 /\ forall i, i < n_threads p -> joinable p !! i = Some true.

(** ... and after: [k] workers are joined. *)
Definition closing_pool (k : nat) (p : thread_pool) : Prop :=
  sentinels (awaiters p) + exited (threads p) = n_threads p /\ k <= n_threads p /\
  (forall i, i < k -> threads p !! i = Some Exited) /\
  forall i, k <= i -> i < n_threads p -> joinable p !! i = Some true.

(** What holds at each place of [main]. *)
Definition at_main (n_tasks : nat) (m : main_pc) (p : thread_pool) : Prop :=
  match m with
  | Launching i => closed (pool_state p) = false /\ open_pool p /\ closers p !! main_thread = None /\ i <= n_tasks /\
      (forall j, j < i -> on_pool (coros p !! frame j)) /\ forall j, i <= j -> coros p !! frame j = None
  | InTask i => closed (pool_state p) = false /\ open_pool p /\ closers p !! main_thread = None /\ i < n_tasks /\
      (forall j, j < i -> on_pool (coros p !! frame j)) /\ (on_pool (coros p !! frame i) \/ entering (coros p !! frame i)) /\
      forall j, i < j -> coros p !! frame j = None
  | InShutdown => (forall j, j < n_tasks -> on_pool (coros p !! frame j)) /\
      match closers p !! main_thread with
      | Some FetchOr => closed (pool_state p) = false /\ open_pool p
      | Some PushSentinels => open_pool p
      | Some (Joining k) => closing_pool k p
      | Some Closed => Forall (fun w => w = Exited) (threads p) /\ joined p = true
      | _ => False
      end
  | Returned => (forall j, j < n_tasks -> on_pool (coros p !! frame j)) /\
      Forall (fun w => w = Exited) (threads p) /\ joined p = true
  end.

Definition exits (id : nat) (l : list line) : nat :=
  sum_list_with (fun x => if decide (x = Exit id) then 1 else 0) l.
Definition enters (id : nat) (l : list line) : nat :=
  sum_list_with (fun x => if decide (x = Enter id) then 1 else 0) l.

Definition called (m : main_pc) (n_tasks : nat) : nat :=
  match m with Launching i => i | InTask i => S i | InShutdown | Returned => n_tasks end.

Record driver_inv (n_threads n_tasks : nat) (s : program) : Prop := {
  driver_pool : inv (pool s);
  driver_threads : length (threads (pool s)) = n_threads;
  driver_joinable : length (joinable (pool s)) = n_threads;
  driver_pending c : on_pool (coros (pool s) !! c) -> pending c (pool s);
  driver_frames c p : coros (pool s) !! c = Some p -> exists i, c = frame i;
  driver_main : at_main n_tasks (main s) (pool s);
  driver_exits i : exits i (out s) = if decide (coros (pool s) !! frame i = Some OnPool) then 1 else 0;
  driver_enters i : enters i (out s) = if decide (i < called (main s) n_tasks) then 1 else 0;
}.
Lemma sentinels_none q : sentinels q = 0 -> null ∉ q.
Proof.
  intros H (i & Hi)%list_elem_of_lookup. unfold sentinels in H.
  pose proof (sum_list_with_lookup_le (fun x : ptr => match x with None => 1 | Some _ => 0 end) _ _ _ Hi). cbn in *. lia.
Qed.

Lemma exited_none l : exited l = 0 -> Exited ∉ l.
Proof.
  intros H (i & Hi)%list_elem_of_lookup. unfold exited in H.
  pose proof (sum_list_with_lookup_le (fun w => match w with Exited => 1 | _ => 0 end) _ _ _ Hi). cbn in *. lia.
Qed.

Lemma exited_all l : Forall (fun w => w = Exited) l <-> exited l = length l.
Proof.
  unfold exited. induction l as [|w l IH]; [done|]. rewrite Forall_cons, IH. cbn.
  assert (sum_list_with (fun w => match w with Exited => 1 | _ => 0 end) l <= length l) as Hle.
  { clear IH. induction l as [|v l IH]; cbn; [done|]. destruct v; lia. }
  split; [intros [-> ->]; lia|]. destruct w; intros; split; try done; lia.
Qed.

(** What a step of a worker changes. *)
Lemma worker_effect i p p' :
  step (Worker i) p = Some (Ret p') ->
  (exists w, threads p !! i = Some w /\ w <> Exited) /\
  sentinels (awaiters p') + exited (threads p') = sentinels (awaiters p) + exited (threads p) /\
  sentinels (awaiters p') <= sentinels (awaiters p) /\
  closed (pool_state p') = closed (pool_state p) /\ closers p' = closers p /\ joinable p' = joinable p /\
  joined p' = joined p /\ n_threads p' = n_threads p /\
  (forall j, threads p !! j = Some Exited -> threads p' !! j = Some Exited) /\
  match threads p !! i with
  | Some (Resuming c) => coros p !! c = Some Queued /\ coros p' = <[c := OnPool]> (coros p)
  | _ => coros p' = coros p
  end.
Proof.
  intros E. cbn in E. destruct (threads p !! i) as [w|] eqn:Ei; [|done].
  assert (forall v q z cs, w <> Exited ->
    let p' := set_worker i v (set_state z (set_awaiters q (Pool (pool_state p) (threads p) (joinable p) (awaiters p) (joined p) cs (closers p)))) in
    n_threads p' = n_threads p /\ (forall j, threads p !! j = Some Exited -> threads p' !! j = Some Exited) /\
    exited (threads p') + (match w with Exited => 1 | _ => 0 end) = exited (threads p) + (match v with Exited => 1 | _ => 0 end)) as Hw.
  { intros v q z cs Hw. cbn. split; [apply length_insert|]. split.
    - intros j Ej. rewrite list_lookup_insert_ne; [done|]. intros ->. congruence.
    - apply (sum_list_with_insert (fun w => match w with Exited => 1 | _ => 0 end) _ _ _ _ Ei). }
  split; [exists w; split; [done|]; by intros ->|]. destruct w as [|c| |]; [| | |done].
  - unfold worker_pop, pop in E. destruct (awaiters p) as [|x q] eqn:Eq; [done|]. injection E as <-.
    destruct (Hw (match x with None => Exited | Some c => Resuming c end) q (pool_state p) (coros p)) as (H1 & H2 & H3); [done|].
    cbn in H1, H2, H3 |- *. unfold sentinels. cbn [sum_list_with]. repeat split; try done; destruct x; lia.
  - injection E as E. unfold worker_resume in E. case_decide as Hc; [|done]. injection E as <-.
    destruct (Hw Leaving (awaiters p) (pool_state p) (<[c := OnPool]> (coros p))) as (H1 & H2 & H3); [done|].
    cbn in H1, H2, H3 |- *. repeat split; try done; lia.
  - injection E as <-.
    destruct (Hw Popping (awaiters p) (u32 (pool_state p - NEW_AWAITER_INCREMENT)) (coros p)) as (H1 & H2 & H3); [done|].
    cbn in H1, H2, H3 |- *. repeat split; try done; try lia. by rewrite !pool_closed_odd, u32_sub_2_odd.
Qed.

(** A coroutine may have been resumed; nothing else happens to it. *)
Definition resumed_some (cs cs' : gmap addr coro) : Prop :=
  forall c, cs' !! c = cs !! c \/ cs !! c = Some Queued /\ cs' !! c = Some OnPool.

Lemma resumed_on_pool cs cs' c : resumed_some cs cs' -> on_pool (cs !! c) -> on_pool (cs' !! c).
Proof. intros H Hp. destruct (H c) as [->|[_ ->]]; [done|by right]. Qed.
Lemma resumed_None cs cs' c : resumed_some cs cs' -> cs !! c = None -> cs' !! c = None.
Proof. intros H Hp. destruct (H c) as [->|[Hc _]]; [done|congruence]. Qed.
Lemma resumed_entering cs cs' c : resumed_some cs cs' -> entering (cs !! c) -> entering (cs' !! c).
Proof. intros H Hp. destruct (H c) as [->|[Hc _]]; [done|by rewrite Hc in Hp]. Qed.
#[export] Hint Resolve resumed_on_pool resumed_None resumed_entering : coro.

(** A step of a worker keeps what is known of [main]. *)
Lemma worker_at_main n_tasks m i p p' :
  at_main n_tasks m p -> step (Worker i) p = Some (Ret p') -> resumed_some (coros p) (coros p') -> at_main n_tasks m p'.
Proof.
  intros Hm E Hr. destruct (worker_effect i p p' E) as ((w & Ei & Hw) & H1 & H2 & H3 & H4 & H5 & H6 & H7 & H8 & _).
  assert (open_pool p -> open_pool p') as Ho.
  { intros (Ha & Hb & Hc). split; [lia|]. split; [lia|]. by rewrite H5, H7. }
  assert (~ Forall (fun w => w = Exited) (threads p)) as Hne.
  { rewrite Forall_lookup. intros Hall. by apply Hw, (Hall i). }
  destruct m as [j|j| |]; cbn in *.
  - rewrite H3, H4. destruct Hm as (Ha & Hb & Hc & Hd & He & Hf). repeat split; eauto with coro; by apply Ho.
  - rewrite H3, H4. destruct Hm as (Ha & Hb & Hc & Hd & He & Hf & Hg). repeat split; eauto with coro; try by apply Ho.
    destruct Hf; [left|right]; eauto with coro.
  - destruct Hm as [Ha Hb]. split; [eauto with coro|]. rewrite H4.
    destruct (closers p !! main_thread) as [[| |k| |]|]; try done.
    + rewrite H3. destruct Hb. split; [done|by apply Ho].
    + by apply Ho.
    + destruct Hb as (Hb & Hc & Hd & He). split; [lia|]. rewrite H5, H7. split; [done|]. split; [|done].
      intros x Hx. by apply H8, Hd.
    + by destruct Hb.
  - by destruct Hm as (_ & ? & _).
Qed.
Lemma exits_app i l k : exits i (l ++ k) = exits i l + exits i k.
Proof. apply sum_list_with_app. Qed.
Lemma enters_app i l k : enters i (l ++ k) = enters i l + enters i k.
Proof. apply sum_list_with_app. Qed.

(** A step of a worker as a step of the pool. *)
Lemma worker_step_pool i s s' :
  worker_step i s = Some (Ret s') -> exists p', step (Worker i) (pool s) = Some (Ret p') /\
    s' = Program p' (main s) (match threads (pool s) !! i with Some (Resuming c) => out s ++ [Exit (task_id c)] | _ => out s end).
Proof.
  assert (forall l, of_pool (Worker i) (Program (pool s) (main s) l) = Some (Ret s') ->
    exists p', step (Worker i) (pool s) = Some (Ret p') /\ s' = Program p' (main s) l) as Hp.
  { unfold of_pool. cbn [pool]. intros l E. destruct (step (Worker i) (pool s)) as [r|]; [|done]. injection E as E.
    apply bind_Ret_inv in E as (p' & -> & [= <-]). by exists p'. }
  unfold worker_step. destruct s as [p m l]. cbn [pool main out] in *.
  destruct (threads p !! i) as [[]|]; apply Hp.
Qed.

Lemma worker_resumed i p p' : step (Worker i) p = Some (Ret p') -> resumed_some (coros p) (coros p').
Proof.
  intros E. destruct (worker_effect i p p' E) as (_ & _ & _ & _ & _ & _ & _ & _ & _ & Hc). intros c.
  destruct (threads p !! i) as [[|d| |]|]; try (left; by rewrite Hc). destruct Hc as [Hd Hc]. rewrite Hc.
  destruct (decide (d = c)) as [->|Hne]; [right; by rewrite lookup_insert_eq|left; by rewrite lookup_insert_ne].
Qed.

Lemma worker_step_inv n_threads n_tasks s i s' :
  driver_inv n_threads n_tasks s -> worker_step i s = Some (Ret s') -> driver_inv n_threads n_tasks s'.
Proof.
  intros [Ip It Ij Id If Im Ix Ie] E. destruct (worker_step_pool i s s' E) as (p' & Es & ->).
  pose proof (worker_resumed i _ _ Es) as Hr.
  destruct (worker_effect i _ _ Es) as (_ & _ & _ & _ & _ & Hj & _ & Hn & _ & Hc).
  split; cbn [pool main out]; try done.
  - by destruct (pool_step_inv _ _ _ Ip Es) as (? & [= <-] & ?).
  - by rewrite <- It.
  - by rewrite Hj.
  - intros c Hp. apply (pending_step c (pool s)); [done| |by eapply Run]. apply Id.
    destruct (Hr c) as [<-|[Hq _]]; [done|by left].
  - intros c q Hq. destruct (Hr c) as [Hs|[Hs _]]; [rewrite Hs in Hq|]; eauto.
  - by eapply worker_at_main.
  - intros j. destruct (threads (pool s) !! i) as [[|c| |]|] eqn:Ei; rewrite ?Hc; try apply Ix.
    destruct Hc as [Hq ->]. destruct (If c _ Hq) as [k ->]. rewrite exits_app, Ix, task_id_frame. unfold exits. cbn.
    destruct (decide (k = j)) as [->|Hne].
    + rewrite lookup_insert_eq, Hq. repeat case_decide; congruence || lia.
    + rewrite lookup_insert_ne by (intros ?%frame_inj; done). repeat case_decide; congruence || lia.
  - intros j. destruct (threads (pool s) !! i) as [[|c| |]|]; try apply Ie. rewrite enters_app, Ie. unfold enters. cbn.
    repeat case_decide; congruence || lia.
Qed.

(** The coroutine that [main] runs moves on, but is not resumed by the pool. *)
Lemma main_moves n_threads n_tasks s p' m' l :
  driver_inv n_threads n_tasks s -> pool_step (pool s) p' \/ p' = pool s ->
  length (threads p') = length (threads (pool s)) -> length (joinable p') = length (joinable (pool s)) ->
  (forall c, on_pool (coros p' !! c) -> on_pool (coros (pool s) !! c) \/ pending c p') ->
  (forall c, is_Some (coros p' !! c) -> is_Some (coros (pool s) !! c) \/ exists i, c = frame i) ->
  at_main n_tasks m' p' ->
  (forall i, exits i l = 0 /\ (coros p' !! frame i = Some OnPool <-> coros (pool s) !! frame i = Some OnPool)) ->
  (forall i, enters i l + (if decide (i < called (main s) n_tasks) then 1 else 0) = if decide (i < called m' n_tasks) then 1 else 0) ->
  driver_inv n_threads n_tasks (Program p' m' (out s ++ l)).
Proof.
  intros [Ip It Ij Id If Im Ix Ie] Hs Ht Hj Hp Hf Hm Hx He. split; cbn [pool main out]; try done; try congruence.
  - destruct Hs as [Hs| ->]; [|done]. by apply (pool_steps_inv (pool s)).
  - intros c [Hc|]%Hp; [|done]. destruct Hs as [Hs| ->]; [|by apply Id]. apply (pending_step c (pool s)); auto.
  - intros c q Hq. destruct (Hf c) as [[x Hx']|]; [by eexists|eauto|done].
  - intros i. destruct (Hx i) as [H1 H2]. rewrite exits_app, Ix, H1. do 2 case_decide; tauto || lia.
  - intros i. rewrite enters_app, Ie. specialize (He i). lia.
Qed.
(** A coroutine on its way to an open pool. *)
Lemma coro_effect c sp p p' :
  entering (coros p !! c) -> closed (pool_state p) = false -> step (Coro c sp) p = Some (Ret p') ->
  threads p' = threads p /\ joinable p' = joinable p /\ closers p' = closers p /\ closed (pool_state p') = false /\
  exists q, coros p' = <[c := q]> (coros p) /\
    (entering (Some q) /\ awaiters p' = awaiters p \/ q = Queued /\ awaiters p' = awaiters p ++ [Some c]).
Proof.
  intros Hc Ho E. cbn in E. destruct (coros p !! c) as [[|st|st| | | |]|]; cbn in Hc; try done; injection E as <-.
  - repeat split; try done. eexists. split; [done|]. by left.
  - unfold enter_test. rewrite Hc. repeat split; try done. eexists. split; [done|]. by left.
  - unfold enter_cas. case_decide as Hd.
    + split; [done|]. split; [done|]. split; [done|]. split; [|eexists; split; [done|by left]]. cbn.
      rewrite pool_closed_odd, u32_odd in *. unfold NEW_AWAITER_INCREMENT. by rewrite Z.odd_add, Hc.
    + repeat split; try done. eexists. split; [done|]. by left.
  - repeat split; try done. eexists. split; [done|]. by right.
Qed.

Lemma entering_not_on_pool p : entering p -> ~ on_pool p.
Proof. intros H [-> | ->]; done. Qed.

Lemma in_task_step n_threads n_tasks s i sp s' :
  driver_inv n_threads n_tasks s -> main s = InTask i -> entering (coros (pool s) !! frame i) ->
  of_pool (Coro (frame i) sp) s = Some (Ret s') -> driver_inv n_threads n_tasks s'.
Proof.
  intros Hi Em Hen E. pose proof (driver_main _ _ _ Hi) as Hm. rewrite Em in Hm.
  destruct Hm as (Ha & Hb & Hc & Hd & He & _ & Hg). unfold of_pool in E.
  destruct (step (Coro (frame i) sp) (pool s)) as [r|] eqn:Es; [|done]. injection E as E.
  apply bind_Ret_inv in E as (p' & -> & [= <-]).
  destruct (coro_effect _ _ _ _ Hen Ha Es) as (Ht & Hj & Hcl & Hst & q & Hq & Haw).
  assert (open_pool p') as Hop.
  { destruct Hb as (B1 & B2 & B3). unfold open_pool, ThreadPool.n_threads. rewrite Ht, Hj. split; [|done].
    destruct Haw as [[_ ->]|[_ ->]]; [done|]. unfold sentinels in *. rewrite sum_list_with_app, B1. done. }
  unfold with_pool. rewrite <- (app_nil_r (out s)). apply main_moves; [done|left; by eapply Run|by rewrite Ht|by rewrite Hj|..].
  - intros c. rewrite Hq, lookup_insert. case_decide as Hx; [subst c|by left]. intros Hp. right.
    destruct Haw as [[Hen' _]|[-> Haw]]; [by destruct (entering_not_on_pool _ Hen')|].
    left. exists (awaiters (pool s)), []. split; [done|]. destruct Hb as (B1 & B2 & _).
    rewrite Ht. split; [by apply sentinels_none|by apply exited_none].
  - intros c. rewrite Hq, lookup_insert. case_decide as Hx; [|by left]. intros _. right. by exists i.
  - rewrite Em. cbn. rewrite Hst, Hcl. split; [done|]. split; [done|]. split; [done|]. split; [done|].
    assert (forall j, j <> i -> coros p' !! frame j = coros (pool s) !! frame j) as Hf.
    { intros j Hne. rewrite Hq. apply lookup_insert_ne. intros ?%frame_inj. done. }
    split; [intros j Hj'; rewrite Hf by lia; by apply He|]. split; [|intros j Hj'; rewrite Hf by lia; by apply Hg].
    rewrite Hq, lookup_insert_eq. destruct Haw as [[? _]|[-> _]]; [by right|by left; left].
  - intros j. split; [done|]. rewrite Hq, lookup_insert. case_decide as Hx; [|done]. rewrite Hx in Hen.
    split; [intros [= ->]; by destruct Haw as [[? _]|[? _]]|]. intros Hp. by rewrite Hp in Hen.
  - intros j. cbn [main]. done.
Qed.

(** What [shutdown] changes in the pool. *)
Lemma shutdown_effect n_tasks p p' :
  at_main n_tasks InShutdown p -> length (joinable p) = n_threads p -> step (Closer main_thread) p = Some (Ret p') ->
  coros p' = coros p /\ threads p' = threads p /\ length (joinable p') = length (joinable p) /\ at_main n_tasks InShutdown p'.
Proof.
  intros [Hp Hm] Hl E. cbn in E. destruct (closers p !! main_thread) as [[| |k| |]|] eqn:Ec; try done.
  - injection E as <-. destruct Hm as [Hc Ho]. unfold fetch_or. rewrite Hc. repeat split; try done.
    cbn. rewrite lookup_insert_eq. exact Ho.
  - injection E as <-. destruct Hm as (H1 & H2 & H3). repeat split; try done. cbn. rewrite lookup_insert_eq.
    unfold closing_pool, push_batch. cbn. split; [|split; [lia|split; [intros; lia|by intros j _ Hj; apply H3]]].
    change (sentinels (awaiters p ++ replicate (n_threads p) SENTINEL_AWAITER) + exited (threads p) = n_threads p).
    unfold sentinels in *. rewrite sum_list_with_app, H1, H2. unfold n_threads.
    assert (forall n, sum_list_with (fun x : ptr => match x with None => 1 | Some _ => 0 end) (replicate n SENTINEL_AWAITER) = n) as ->.
    { intros n. induction n as [|n IH]; cbn; [done|]. by rewrite IH. }
    lia.
  - destruct Hm as (H1 & H2 & H3 & H4). unfold join in E. destruct (decide (k = n_threads p)) as [->|Hne].
    + rewrite lookup_ge_None_2 in E by done. injection E as <-. repeat split; try done. cbn. rewrite lookup_insert_eq.
      split; [|done]. apply Forall_lookup. intros j w Hj. specialize (H3 j (lookup_lt_Some _ _ _ Hj)). congruence.
    + destruct (lookup_lt_is_Some_2 (threads p) k) as [w Ew]; [unfold n_threads in *; lia|].
      rewrite Ew, (H4 k) in E by lia. case_decide as Hw; [|done]. injection E as <-. subst w.
      cbn. rewrite length_insert. repeat split; try done. rewrite lookup_insert_eq. unfold closing_pool. cbn.
      split; [done|]. split; [change (S k <= n_threads p); lia|]. split.
      * intros j Hj. destruct (decide (j = k)) as [->|]; [done|]. apply H3. lia.
      * intros j Hj Hj'. rewrite list_lookup_insert_ne by lia. apply H4; [lia|done].
Qed.

(** A step of [main] in [shutdown] *)
Lemma shutdown_step_inv n_threads n_tasks s sp s' :
  driver_inv n_threads n_tasks s -> main s = InShutdown -> main_step n_tasks sp s = Some (Ret s') ->
  driver_inv n_threads n_tasks s'.
Proof.
  intros Hi Em E. pose proof (driver_main _ _ _ Hi) as Hm. unfold main_step in E. rewrite Em in *.
  destruct (closers (pool s) !! main_thread) as [c|] eqn:Ec; [|by destruct Hm as [_ Hm]; rewrite Ec in Hm].
  assert (of_pool (Closer main_thread) s = Some (Ret s') -> driver_inv n_threads n_tasks s') as Hstep.
  { intros E'. unfold of_pool in E'. destruct (step (Closer main_thread) (pool s)) as [r|] eqn:Es; [|done]. injection E' as E'.
    apply bind_Ret_inv in E' as (p' & -> & [= <-]).
    destruct (shutdown_effect n_tasks (pool s) p' Hm) as (H1 & H2 & H3 & H4); [|done|].
    { unfold ThreadPool.n_threads. by rewrite (driver_joinable _ _ _ Hi), (driver_threads _ _ _ Hi). }
    unfold with_pool. rewrite <- (app_nil_r (out s)). apply main_moves; [done|left; by eapply Run|by rewrite H2|done|..].
    - intros x. rewrite H1. by left.
    - intros x. rewrite H1. by left.
    - by rewrite Em.
    - intros j. by rewrite H1.
    - intros j. done. }
  destruct c; try by apply Hstep. injection E as <-. rewrite <- (app_nil_r (out s)).
  apply main_moves; [done|by right|done|done|by left|by left| |done|].
  + destruct Hm as [H1 H2]. rewrite Ec in H2. done.
  + intros j. by rewrite Em.
Qed.

Lemma main_step_inv n_threads n_tasks s sp s' :
  driver_inv n_threads n_tasks s -> main_step n_tasks sp s = Some (Ret s') -> driver_inv n_threads n_tasks s'.
Proof.
  intros Hi E. pose proof (driver_main _ _ _ Hi) as Hm. unfold main_step in E. destruct (main s) as [i|i| |] eqn:Em; [..|done].
  - destruct Hm as (Ha & Hb & Hc & Hd & He & Hf). injection E as E. case_decide as Hlt; subst s'.
    + unfold launch_task. apply main_moves; [done|left; by constructor; apply Hf|done|done|..].
      * intros c. cbn. rewrite lookup_insert. case_decide; [|by left]. by intros [?|?].
      * intros c. cbn. rewrite lookup_insert. case_decide; [|by left]. intros _. right. by exists i.
      * cbn. split; [done|]. split; [done|]. split; [done|]. split; [done|]. rewrite lookup_insert_eq.
        assert (forall j, j <> i -> <[frame i := EnterLoad]> (coros (pool s)) !! frame j = coros (pool s) !! frame j) as Hn.
        { intros j Hne. apply lookup_insert_ne. by intros ?%frame_inj. }
        split; [intros j Hj; rewrite Hn by lia; auto|]. split; [by right|]. intros j Hj. rewrite Hn by lia. apply Hf. lia.
      * intros j. cbn. split; [done|]. rewrite lookup_insert. case_decide as Hx; [|done].
        apply frame_inj in Hx as <-. by rewrite (Hf i).
      * intros j. rewrite Em. unfold enters. cbn. destruct (decide (i = j)) as [->|]; repeat case_decide; congruence || lia.
    + rewrite <- (app_nil_r (out s)). assert (i = n_tasks) as -> by lia.
      apply main_moves; [done|left; by constructor|done|done|by left|by left| |done|].
      * cbn. split; [done|]. by rewrite lookup_insert_eq.
      * intros j. rewrite Em. done.
  - destruct Hm as (Ha & Hb & Hc & Hd & He & Hf & Hg).
    assert (forall m, m = Launching (S i) -> on_pool (coros (pool s) !! frame i) ->
      driver_inv n_threads n_tasks (Program (pool s) m (out s))) as Hnext.
    { intros m -> Hp. rewrite <- (app_nil_r (out s)). apply main_moves; [done|by right|done|done|by left|by left| |done|].
      - cbn. split; [done|]. split; [done|]. split; [done|]. split; [lia|]. split.
        + intros j Hj. destruct (decide (j = i)) as [->|]; [done|]. apply He. lia.
        + intros j Hj. apply Hg. lia.
      - intros j. by rewrite Em. }
    pose proof (fun Hen => in_task_step n_threads n_tasks s i sp s' Hi Em Hen) as Hcoro.
    destruct (coros (pool s) !! frame i) as [[| st | st | | | |]|] eqn:Ec;
      try (destruct Hf as [[?|?]|Hf]; [done|done|by apply Hcoro]).
    + injection E as <-. apply Hnext; [done|by left].
    + injection E as <-. apply Hnext; [done|by right].
  - by apply (shutdown_step_inv _ _ s sp); [| |unfold main_step; rewrite Em].
Qed.

Lemma driver_inv_init n n_tasks : driver_inv n n_tasks (init n).
Proof.
  assert (exited (replicate n Popping) = 0) as He.
  { unfold exited. induction n as [|n IH]; cbn; [done|]. by rewrite IH. }
  split; cbn [init pool main out thread_pool_init coros threads joinable].
  - apply pool_inv_init.
  - apply length_replicate.
  - apply length_replicate.
  - intros c. rewrite lookup_empty. by intros [?|?].
  - intros c p. by rewrite lookup_empty.
  - cbn. split; [done|]. split; [|split; [done|split; [lia|split; [lia|done]]]].
    split; [done|]. split; [exact He|]. unfold ThreadPool.n_threads. cbn. rewrite length_replicate.
    intros i Hi. by apply lookup_replicate_2.
  - intros i. by rewrite lookup_empty.
  - intros i. cbn. by rewrite decide_False by lia.
Qed.

Lemma driver_reachable_inv n n_tasks s : driver_reachable n n_tasks s -> driver_inv n n_tasks s.
Proof.
  intros Hr. pose proof (driver_inv_init n n_tasks) as Hi. revert Hi.
  induction Hr as [|s1 s2 s3 Hs _ IH]; [done|]. intros Hi. apply IH.
  destruct Hs as [x y sp E|x y i E]; [by eapply main_step_inv|by eapply worker_step_inv].
Qed.

Lemma of_pool_ok a s r : inv (pool s) -> of_pool a s = Some r -> exists s', r = Ret s'.
Proof.
  unfold of_pool. intros Hi E. destruct (step a (pool s)) as [q|] eqn:Es; [|done]. injection E as <-.
  destruct (pool_step_inv _ _ _ Hi Es) as (p' & -> & _). by eexists.
Qed.

Lemma driver_never_faults n n_tasks s :
  driver_inv n n_tasks s ->
  (forall sp r, main_step n_tasks sp s = Some r -> exists s', r = Ret s') /\
  (forall i r, worker_step i s = Some r -> exists s', r = Ret s').
Proof.
  intros Hi. pose proof (driver_pool _ _ _ Hi) as Hp. pose proof (driver_main _ _ _ Hi) as Hm. split.
  - intros sp r E. unfold main_step in E. destruct (main s) as [i|i| |].
    + injection E as <-. by eexists.
    + destruct (coros (pool s) !! frame i) as [[]|]; try (exact (of_pool_ok _ _ _ Hp E)); injection E as <-; by eexists.
    + destruct Hm as [_ Hm]. destruct (closers (pool s) !! main_thread) as [[]|]; try (exact (of_pool_ok _ _ _ Hp E)); try done.
      injection E as <-. by eexists.
    + done.
  - intros i r E. unfold worker_step in E. destruct (threads (pool s) !! i) as [[|c| |]|]; refine (of_pool_ok _ _ _ _ E); exact Hp.
Qed.

(** A worker that has not left can go on, while there is a sentinel for it. *)
Lemma worker_can_step n n_tasks s i w :
  driver_inv n n_tasks s -> threads (pool s) !! i = Some w -> w <> Exited ->
  sentinels (awaiters (pool s)) + exited (threads (pool s)) = ThreadPool.n_threads (pool s) -> is_Some (worker_step i s).
Proof.
  intros Hi Ei Hw Hs. unfold worker_step, of_pool. cbn [pool step]. rewrite Ei. destruct w as [|c| |]; [|by eexists..|done].
  unfold worker_pop, pop. destruct (awaiters (pool s)) as [|x q]; [|by eexists]. exfalso.
  assert (Forall (fun w => w = Exited) (threads (pool s))) as Hall by by apply exited_all.
  rewrite Forall_lookup in Hall. by specialize (Hall _ _ Ei).
Qed.

(** ** Theorems *)

(** C19. When [main] is over - and only then are the tasks, and with them the frames,
    destroyed - every task has been resumed on the pool and has run to its end,
    whatever the interleaving: it has printed once that it was entered and once
    that it was left; every worker has gone and is joined. *)
Theorem pool_driver_completes n n_tasks s :
  driver_reachable n n_tasks s -> 0 < n -> main s = Returned ->
  (forall i, i < n_tasks -> coros (pool s) !! frame i = Some OnPool /\ enters i (out s) = 1 /\ exits i (out s) = 1) /\
  Forall (fun w => w = Exited) (threads (pool s)) /\ joined (pool s) = true.
Proof.
  intros Hr Hn Hm. pose proof (driver_reachable_inv _ _ _ Hr) as [Ip It _ Id _ Im Ix Ie]. rewrite Hm in Im, Ie.
  destruct Im as (Hon & Hall & Hj). split; [|done]. intros i Hi. specialize (Ix i). specialize (Ie i). cbn in Ie.
  assert (coros (pool s) !! frame i = Some OnPool) as Hc; [|by rewrite Ix, Ie, !decide_True].
  rewrite Forall_lookup in Hall. destruct (Id _ (Hon i Hi)) as [(l1 & l2 & _ & _ & Hne)|[(j & Hw)|Hc]]; [..|done].
  - exfalso. destruct (threads (pool s)) as [|w l]; [cbn in It; lia|]. apply Hne. rewrite <- (Hall 0 w eq_refl). left.
  - by specialize (Hall _ _ Hw).
Qed.

(** C20. The program does not get stuck: until [main] has returned some thread can
    make a step, and no step of any thread faults or throws. *)
Theorem pool_driver_progress n n_tasks s :
  driver_reachable n n_tasks s ->
  (main s <> Returned -> exists s', driver_step n_tasks s s') /\
  (forall sp r, main_step n_tasks sp s = Some r -> exists s', r = Ret s') /\
  (forall i r, worker_step i s = Some r -> exists s', r = Ret s').
Proof.
  intros Hr. pose proof (driver_reachable_inv _ _ _ Hr) as Hi. destruct (driver_never_faults _ _ _ Hi) as [Hmf Hwf].
  split; [|done]. intros Hne. pose proof (driver_main _ _ _ Hi) as Hm.
  assert (is_Some (main_step n_tasks false s) \/ exists i, is_Some (worker_step i s)) as [[r E]|(i & r & E)].
  { unfold main_step. destruct (main s) as [i|i| |]; [left; by eexists|left|..|done].
    - destruct Hm as (_ & _ & _ & _ & _ & Hp & _). unfold of_pool. cbn [step].
      destruct (coros (pool s) !! frame i) as [[]|]; try by eexists. by destruct Hp as [[?|?]|?].
    - destruct Hm as [_ Hm]. unfold of_pool. cbn [step].
      destruct (closers (pool s) !! main_thread) as [[| |k| |]|]; try done; try (left; by eexists).
      destruct Hm as (H1 & H2 & H3 & H4). unfold join.
      destruct (threads (pool s) !! k) as [w|] eqn:Ek; [|left; by eexists].
      pose proof (lookup_lt_Some _ _ _ Ek). rewrite (H4 k) by done.
      destruct (decide (w = Exited)) as [->|Hw]; [left; by eexists|right]. exists k. by eapply worker_can_step. }
  - destruct (Hmf _ _ E) as [s' ->]. exists s'. by eapply Main.
  - destruct (Hwf _ _ E) as [s' ->]. exists s'. by eapply Work.
Qed.

(** ** A run *)

Inductive turn := M | W (i : nat).

Fixpoint exec (n_tasks : nat) (l : list turn) (s : program) : outcome program :=
  match l with
  | [] => Ret s
  | t :: l =>
    s ← (match (match t with M => main_step n_tasks false s | W i => worker_step i s end) with
         | Some r => r | None => Fault AssertionFailed end);
    exec n_tasks l s
  end.

Lemma driver_exec_steps n_tasks l : forall s s', exec n_tasks l s = Ret s' -> rtc (driver_step n_tasks) s s'.
Proof.
  induction l as [|t l IH]; intros s s' E; [injection E as <-; apply rtc_refl|]. cbn [exec] in E.
  apply bind_Ret_inv in E as (s1 & E1 & E). eapply rtc_l; [|by apply IH].
  destruct t as [|i]; [destruct (main_step n_tasks false s) as [r|] eqn:Es|destruct (worker_step i s) as [r|] eqn:Es]; try done; subst r.
  - by eapply Main.
  - by eapply Work.
Qed.

(** Two tasks; the worker resumes the first while [main] launches the second. *)
Definition demo_turns : list turn :=
  replicate 6 M ++ [W 0] ++ replicate 3 M ++ [W 0] ++ replicate 4 M ++ replicate 4 (W 0) ++ replicate 2 M ++ [W 0] ++
  replicate 3 M.
Definition demo_end : program := match exec 2 demo_turns (init 1) with Ret s => s | _ => init 1 end.

Lemma pool_driver_completes_witness :
  out demo_end = [Enter 0; Enter 1; Exit 0; Exit 1] /\
  coros (pool demo_end) !! frame 1 = Some OnPool /\ exits 1 (out demo_end) = 1.
Proof.
  split; [by vm_compute|].
  destruct (pool_driver_completes 1 2 demo_end) as [H _]; [|lia|by vm_compute|].
  - apply (driver_exec_steps 2 demo_turns). by vm_compute.
  - destruct (H 1) as (H1 & _ & H2); [lia|]. by split.
Defined.

Lemma pool_driver_progress_witness : exists s', driver_step 2 (init 1) s'.
Proof. destruct (pool_driver_progress 1 2 (init 1)) as [H _]; [apply rtc_refl|]. by apply H. Defined.
End PoolDriver.
