(* ===== verification/Composition.v ===== *)
(** * Composition: basics/composition/

    The two task types of the tutorial: [task_v0.hpp], whose awaiting
    coroutine is not remembered, and [task_v1.hpp], whose promise holds a
    continuation that the final awaiter resumes. Both are lazy, and the task
    object that [co_await f()] creates lives in the frame of the awaiting
    coroutine until that coroutine goes on or is destroyed.

    The machine is written once against the interface [TaskType], which the
    two headers instantiate; the theorem says, for every tree of coroutines,
    what [while (t.resume());] prints and that every frame is destroyed. *)

From S2P Require Import Prelude.

Module Composition.

(** ** Coroutine bodies and frames *)

(** A body of type [task]: [co_return] or the closing brace, [trace(s)],
    [co_await suspend_always{}], and [co_await c()]. *)
Inductive body :=
| Return
| Trace (s : string) (k : body)
| Suspend (k : body)
| CoAwait (c k : body).

(** Where a coroutine is: executing, suspended initially or by
    [suspend_always], in the [await_suspend] of the task at [c], or done. *)
Inductive point :=
| Running
| AtSuspend (k : body)
| AtAwait (c : addr) (k : body)
| AtFinal.

(** What the two versions of [task_promise] and [task_awaiter] differ in. *)
Class TaskType := {
  task_promise : Type;
  new_promise : task_promise;
  (* [task_awaiter::await_suspend(awaiting)], before it resumes the task *)
  await_suspend : addr -> task_promise -> task_promise;
  (* the handle that [final_suspend]'s awaiter resumes, if any *)
  final_suspend : task_promise -> ptr;
}.

Section Machine.
Context `{TaskType}.

Record frame := Frame { promise : task_promise; at_point : point }.

(** The frames and what has been printed. *)
Record world := World { heap : gmap addr frame; out : list string }.

Definition done (f : frame) : bool := match at_point f with AtFinal => true | _ => false end.

Definition set_point (a : addr) (p : point) (w : world) : outcome world :=
  f ← or_fault Dangling (heap w !! a);
  Ret (World (<[a := Frame (promise f) p]> (heap w)) (out w)).

Definition trace (s : string) (w : world) : world := World (heap w) (out w ++ [s]).

(** [coroutine_handle::destroy()], which [~task()] calls: the temporaries of
    the frame go first, among them the task it awaits. *)
Fixpoint destroy (fuel : nat) (a : addr) (h : gmap addr frame) : outcome (gmap addr frame) :=
  match fuel with
  | O => Diverged
  | S fuel =>
    f ← or_fault DoubleDestroy (h !! a);
    match at_point f with
    | Running => Fault BadDestroy
    | AtAwait c _ => h ← destroy fuel c h; Ret (delete a h)
    | AtSuspend _ | AtFinal => Ret (delete a h)
    end
  end.

Definition task_destructor (a : addr) (w : world) : outcome world :=
  h ← destroy (S (size (heap w))) a (heap w); Ret (World h (out w)).

(** A call: [get_return_object], then [initial_suspend], which suspends. *)
Definition call (b : body) (w : world) : addr * world :=
  let a := fresh (dom (heap w)) in
  (a, World (<[a := Frame new_promise (AtSuspend b)]> (heap w)) (out w)).

(** The coroutine at [a] executes [b] until it, or a coroutine that it
    resumes, suspends. *)
Fixpoint run (fuel : nat) (a : addr) (b : body) (w : world) : outcome world :=
  match fuel with
  | O => Diverged
  | S fuel =>
    let resume (a : addr) (w : world) : outcome world :=
      f ← or_fault Dangling (heap w !! a);
      match at_point f with
      | AtSuspend k => w ← set_point a Running w; run fuel a k w
      | AtAwait c k =>
        (* await_resume, then the end of the full-expression *)
        w ← set_point a Running w; w ← task_destructor c w; run fuel a k w
      | Running | AtFinal => Fault BadResume
      end in
    match b with
    | Return =>
      f ← or_fault Dangling (heap w !! a);
      w ← set_point a AtFinal w;
      match final_suspend (promise f) with
      | Some c => resume c w
      | None => Ret w
      end
    | Trace s k => run fuel a k (trace s w)
    | Suspend k => set_point a (AtSuspend k) w
    | CoAwait c k =>
      let '(t, w) := call c w in
      w ← set_point a (AtAwait t k) w;
      f ← or_fault Dangling (heap w !! t);
      resume t (World (<[t := Frame (await_suspend a (promise f)) (at_point f)]> (heap w)) (out w))
    end
  end.

(** [coroutine_handle::resume()] *)
Definition resume (fuel : nat) (a : addr) (w : world) : outcome world :=
  f ← or_fault Dangling (heap w !! a);
  match at_point f with
  | AtSuspend k => w ← set_point a Running w; run fuel a k w
  | AtAwait c k => w ← set_point a Running w; w ← task_destructor c w; run fuel a k w
  | Running | AtFinal => Fault BadResume
  end.

(** [task::resume()] *)
Definition task_resume (fuel : nat) (a : addr) (w : world) : outcome (bool * world) :=
  f ← or_fault Dangling (heap w !! a);
  w ← (if done f then Ret w else resume fuel a w);
  f ← or_fault Dangling (heap w !! a);
  Ret (negb (done f), w).

(** [while (t.resume());] *)
Fixpoint while_resume (n fuel : nat) (a : addr) (w : world) : outcome world :=
  match n with
  | O => Diverged
  | S n => '(more, w) ← task_resume fuel a w; if (more : bool) then while_resume n fuel a w else Ret w
  end.

(** [auto t = f(); while (t.resume());] and the end of [t]'s scope. *)
Definition drive (fuel : nat) (b : body) (w : world) : outcome world :=
  let '(a, w) := call b w in
  w ← while_resume fuel fuel a w;
  task_destructor a w.
End Machine.

(** ** task_v0.hpp: no members in the promise *)
Module TaskV0.
Definition task_promise : Type := unit.
Definition new_promise : task_promise := tt.
Definition await_suspend (awaiting_coro : addr) (p : task_promise) : task_promise := p.
Definition final_suspend (p : task_promise) : ptr := null.
End TaskV0.

#[export] Instance task_v0 : TaskType := {|
  task_promise := TaskV0.task_promise;
  new_promise := TaskV0.new_promise;
  await_suspend := TaskV0.await_suspend;
  final_suspend := TaskV0.final_suspend;
|}.

(** ** task_v1.hpp: the promise holds the continuation *)
Module TaskV1.
Record task_promise := Promise { continuation : ptr }.
Definition new_promise : task_promise := Promise null.
Definition await_suspend (awaiting_coro : addr) (p : task_promise) : task_promise := Promise (Some awaiting_coro).
Definition final_suspend (p : task_promise) : ptr := continuation p.
End TaskV1.

#[export] Instance task_v1 : TaskType := {|
  task_promise := TaskV1.task_promise;
  new_promise := TaskV1.new_promise;
  await_suspend := TaskV1.await_suspend;
  final_suspend := TaskV1.final_suspend;
|}.

(** ** The examples *)

(** [fprintf(stdout, "[%s] %s\n", __func__, s)] *)
Definition line (func s : string) : string := "[" +:+ func +:+ "] " +:+ s.

(** example0.cpp *)
Definition async_task : body :=
  Trace (line "async_task" "enter") (Suspend (Trace (line "async_task" "exit") Return)).

Definition main0 : outcome (world (H := task_v0)) :=
  let w := trace (line "main" "enter") (World ∅ []) in
  let '(t, w) := call async_task w in
  let w := trace (line "main" "after call to async_task()") w in
  '(_, w) ← task_resume 10 t w;
  let w := trace (line "main" "after task::resume() #1") w in
  '(_, w) ← task_resume 10 t w;
  let w := trace (line "main" "after task::resume #2") w in
  let w := trace (line "main" "exit") w in
  task_destructor t w.

(** example1.cpp and example2.cpp *)
Definition completes_synchronously : body :=
  Trace (line "completes_synchronously" "enter") (Trace (line "completes_synchronously" "exit") Return).
Definition coro_2 : body :=
  Trace (line "coro_2" "enter") (CoAwait completes_synchronously (Trace (line "coro_2" "exit") Return)).
Definition coro_1 : body :=
  Trace (line "coro_1" "enter") (CoAwait coro_2 (Trace (line "coro_1" "exit") Return)).
Definition coro_0 : body :=
  Trace (line "coro_0" "enter") (CoAwait coro_1 (Trace (line "coro_0" "exit") Return)).

Definition main1 (fuel : nat) : outcome (world (H := task_v0)) := drive fuel coro_0 (World ∅ []).

Definition main2 (fuel : nat) : outcome (world (H := task_v1)) :=
  let w := trace (line "main" "enter") (World ∅ []) in
  let '(t, w) := call coro_0 w in
  w ← while_resume fuel fuel t w;
  let w := trace (line "main" "exit") w in
  task_destructor t w.

(** ** What a body prints *)

(** As if [co_await c()] were a call of [c]. *)
Fixpoint sequential (b : body) : list string :=
  match b with
  | Return => []
  | Trace s k => s :: sequential k
  | Suspend k => sequential k
  | CoAwait c k => sequential c ++ sequential k
  end.

(** No coroutine that is awaited suspends on its own. *)
Fixpoint runs_through (b : body) : bool :=
  match b with
  | Return => true
  | Trace _ k => runs_through k
  | Suspend _ => false
  | CoAwait c k => runs_through c && runs_through k
  end.

Fixpoint awaits_run_through (b : body) : bool :=
  match b with
  | Return => true
  | Trace _ k | Suspend k => awaits_run_through k
  | CoAwait c k => runs_through c && awaits_run_through k
  end.

(** One resumption of a coroutine that runs [b]: what it prints, and what is
    left of [b] if it does not run to the end. With continuations, an awaited
    coroutine that ends resumes its awaiter at once. *)
Fixpoint segment (continues : bool) (b : body) : list string * option body :=
  match b with
  | Return => ([], None)
  | Trace s k => let '(o, r) := segment continues k in (s :: o, r)
  | Suspend k => ([], Some k)
  | CoAwait c k =>
    let '(o, r) := segment continues c in
    match r with
    | None => if continues then let '(o', r') := segment continues k in (o ++ o', r') else (o, Some k)
    | Some _ => (o, Some k)
    end
  end.

(** What the loop prints: each further resumption goes to the outermost
    coroutine, which drops the task it was awaiting. *)
Fixpoint printed (continues : bool) (b : body) : list string :=
  match b with
  | Return => []
  | Trace s k => s :: printed continues k
  | Suspend k => printed continues k
  | CoAwait c k => fst (segment continues c) ++ printed continues k
  end.

Fixpoint body_size (b : body) : nat :=
  match b with
  | Return => 1
  | Trace _ k | Suspend k => S (body_size k)
  | CoAwait c k => S (body_size c + body_size k)
  end.

Lemma printed_segment continues b :
  printed continues b =
  fst (segment continues b) ++ match snd (segment continues b) with Some k => printed continues k | None => [] end.
Proof.
  induction b as [|s k IH|k IH|c IHc k IHk]; cbn; [done| |done|].
  - rewrite IH. by destruct (segment continues k).
  - destruct (segment continues c) as [o [r|]]; cbn; [done|]. destruct continues; [|done].
    rewrite IHk. destruct (segment true k) as [o' r']. cbn. by rewrite app_assoc.
Qed.

Lemma segment_size continues b k : snd (segment continues b) = Some k -> body_size k < body_size b.
Proof.
  revert k. induction b as [|s b IH|b IH|c IHc b IHb]; cbn; intros k E; [done| | |].
  - destruct (segment continues b) as [o r]. cbn in *. specialize (IH k E). lia.
  - injection E as <-. lia.
  - destruct (segment continues c) as [o [r|]]; cbn in E; [injection E as <-; lia|].
    destruct continues; [|injection E as <-; lia].
    destruct (segment true b) as [o' r']. cbn in *. specialize (IHb k E). lia.
Qed.

Lemma segment_runs_through b : runs_through b -> segment true b = (sequential b, None).
Proof.
  induction b as [|s b IH|b IH|c IHc b IHb]; cbn; intros Hb; [done| |done|].
  - by rewrite IH.
  - apply andb_True in Hb as [Hc Hb]. by rewrite IHc, IHb.
Qed.

Lemma printed_sequential b : awaits_run_through b -> printed true b = sequential b.
Proof.
  induction b as [|s b IH|b IH|c IHc b IHb]; cbn; intros Hb; [done| | |].
  - by rewrite IH.
  - by rewrite IH.
  - apply andb_True in Hb as [Hc Hb]. by rewrite segment_runs_through, IHb.
Qed.

(** ** What the versions promise *)

Class TaskLaws `{TaskType} (continues : bool) := {
  law_new : final_suspend new_promise = null;
  law_await a p : final_suspend (await_suspend a p) = if continues then Some a else final_suspend p;
}.

#[export] Instance task_v0_laws : TaskLaws (H := task_v0) false.
Proof. by split. Qed.
#[export] Instance task_v1_laws : TaskLaws (H := task_v1) true.
Proof. by split. Qed.

(** ** The stack of awaiting coroutines *)

Section Stack.
Context `{TaskLaws}.
Implicit Types (ks : list (addr * body)) (h : gmap addr frame) (p : task_promise).

(** The coroutines that await, the innermost first, above a heap [h0]; [a] is
    the coroutine that the first of them awaits and [p] the promise of the
    outermost. *)
Definition promise_of p ks : task_promise :=
  match ks with [] => p | (c, _) :: _ => await_suspend c new_promise end.

Fixpoint awaiting p (a : addr) ks h0 : gmap addr frame :=
  match ks with
  | [] => h0
  | (c, k) :: ks => <[c := Frame (promise_of p ks) (AtAwait a k)]> (awaiting p c ks h0)
  end.

(** The outermost coroutine of the stack below [a]. *)
Definition outermost (a : addr) ks : addr := default a (last ks.*1).

Definition distinct (a : addr) ks h0 : Prop := NoDup (a :: ks.*1) /\ forall x, x ∈ a :: ks.*1 -> h0 !! x = None.

Lemma awaiting_ne p a ks h0 x : x ∉ ks.*1 -> awaiting p a ks h0 !! x = h0 !! x.
Proof.
  revert a. induction ks as [|[c k] ks IH]; cbn; intros a Hx; [done|].
  apply not_elem_of_cons in Hx as [Hx Hxs]. rewrite lookup_insert_ne; auto.
Qed.

Lemma distinct_None p a ks h0 b : distinct a ks h0 -> awaiting p b ks h0 !! a = None.
Proof. intros [[Ha _]%NoDup_cons Hh]. rewrite awaiting_ne by done. apply Hh. by left. Qed.

Lemma distinct_tail a c k ks h0 : distinct a ((c, k) :: ks) h0 -> distinct c ks h0.
Proof. intros [[_ Hn]%NoDup_cons Hh]. split; [done|]. intros x Hx. apply Hh. by right. Qed.

Lemma awaiting_Some p a ks h0 x :
  x ∈ ks.*1 \/ is_Some (h0 !! x) -> is_Some (awaiting p a ks h0 !! x).
Proof.
  revert a. induction ks as [|[c k] ks IH]; cbn; intros a Hx.
  - by destruct Hx as [?%elem_of_nil|Hx].
  - apply lookup_insert_is_Some'. destruct (decide (c = x)) as [Hc|Hc]; [by left|right]. apply IH.
    destruct Hx as [[->|Hx]%elem_of_cons|Hx]; [done|by left|by right].
Qed.

(** The frame of a new coroutine, awaited by [a]. *)
Lemma distinct_push p a k f ks h0 :
  distinct a ks h0 -> distinct (fresh (dom (<[a := f]> (awaiting p a ks h0)))) ((a, k) :: ks) h0.
Proof.
  intros [Hn Hh]. set (h := <[a := f]> (awaiting p a ks h0)).
  assert (h !! fresh (dom h) = None) as Ht by apply not_elem_of_dom, is_fresh.
  assert (forall x, x ∈ a :: ks.*1 \/ is_Some (h0 !! x) -> fresh (dom h) <> x) as Hne.
  { intros x Hx E. rewrite E in Ht. apply lookup_insert_None in Ht as [Ht Ha].
    destruct Hx as [[->|Hx]%elem_of_cons|Hx]; [done| |].
    - destruct (awaiting_Some p a ks h0 x) as [? E']; [by left|]. congruence.
    - destruct (awaiting_Some p a ks h0 x) as [? E']; [by right|]. congruence. }
  split.
  - cbn. constructor; [|done]. intros Hin. by eapply Hne; [left|].
  - intros x [->|Hx]%elem_of_cons; [|by apply Hh]. destruct (h0 !! fresh (dom h)) eqn:E; [|done].
    exfalso. apply (Hne (fresh (dom h))); [right; rewrite E; by eexists|done].
Qed.

Lemma promise_of_snoc p c k ks : promise_of p (ks ++ [(c, k)]) = promise_of (await_suspend c new_promise) ks.
Proof. by destruct ks as [|[c' k'] ks]. Qed.

Lemma outermost_cons a c k ks : outermost a ((c, k) :: ks) = outermost c ks.
Proof. unfold outermost. cbn [fmap list_fmap fst]. rewrite last_cons. by destruct (last ks.*1). Qed.

Lemma awaiting_snoc p a c k ks h0 :
  awaiting p a (ks ++ [(c, k)]) h0 =
  awaiting (await_suspend c new_promise) a ks (<[c := Frame p (AtAwait (outermost a ks) k)]> h0).
Proof.
  revert a. induction ks as [|[c' k'] ks IH]; intros a; [done|]. cbn. rewrite IH, promise_of_snoc.
  pose proof (outermost_cons a c' k' ks) as E. by rewrite E.
Qed.

Lemma distinct_snoc a c k ks h0 f :
  distinct a (ks ++ [(c, k)]) h0 -> c ∉ a :: ks.*1 /\ h0 !! c = None /\ distinct a ks (<[c := f]> h0).
Proof.
  unfold distinct. rewrite fmap_app. cbn. intros [Hn Hh].
  change (NoDup ((a :: ks.*1) ++ [c])) in Hn. apply NoDup_app in Hn as (Hn & Hd & _).
  assert (c ∉ a :: ks.*1) as Hc by (intros Hx; apply (Hd _ Hx); by left).
  split; [done|]. split; [apply Hh; right; apply elem_of_app; right; by left|]. split; [done|].
  intros x Hx. rewrite lookup_insert_ne; [apply Hh, (elem_of_app (a :: ks.*1)); by left|]. by intros ->.
Qed.

Lemma outermost_snoc a c k ks : outermost a (ks ++ [(c, k)]) = c.
Proof. unfold outermost. rewrite fmap_app. cbn. by rewrite last_snoc. Qed.

(** Destroying the outermost coroutine destroys the stack. *)
Lemma destroy_stack p a f ks h0 fuel :
  distinct a ks h0 -> at_point f <> Running -> (forall c k, at_point f <> AtAwait c k) ->
  length ks < fuel ->
  destroy fuel (outermost a ks) (<[a := f]> (awaiting p a ks h0)) = Ret h0.
Proof.
  intros Hd Hr Hw. revert p h0 fuel Hd.
  induction ks as [|[c k] ks IH] using rev_ind; intros p h0 fuel Hd Hf;
    (destruct fuel as [|fuel]; [cbn in Hf; lia|]).
  - cbn. rewrite lookup_insert_eq. cbn.
    assert (delete a (<[a := f]> h0) = h0) as E.
    { rewrite delete_insert_eq, delete_id; [done|]. apply Hd. by left. }
    destruct (at_point f) as [|k|c k|] eqn:Ef; try by rewrite ?E. by destruct (Hw c k).
  - rewrite length_app in Hf. cbn in Hf. rewrite awaiting_snoc.
    destruct (distinct_snoc _ _ _ _ _ (Frame p (AtAwait (outermost a ks) k)) Hd) as (Hck & Hc & Hd').
    apply not_elem_of_cons in Hck as [Hca Hck].
    rewrite outermost_snoc. cbn [destroy]. rewrite lookup_insert_ne, awaiting_ne, lookup_insert_eq by done. cbn [or_fault]. run_bind.
    cbn [at_point]. rewrite IH by (done || lia). run_bind. by rewrite delete_insert_eq, delete_id.
Qed.

(** ** Running a stack *)

(** Ready to be resumed: suspended, or the [co_await] at the bottom of a stack
    whose innermost coroutine is suspended or done. What is left is [k]. *)
Definition parked (r : addr) (k : body) h0 h : Prop :=
  h = <[r := Frame new_promise (AtSuspend k)]> h0 \/
  exists a f ks, h = <[a := f]> (awaiting new_promise a (ks ++ [(r, k)]) h0) /\
    distinct a (ks ++ [(r, k)]) h0 /\ at_point f <> Running /\ (forall c k, at_point f <> AtAwait c k).

(** What the stack prints from the point where its innermost coroutine runs
    [b], and what is then left of the outermost one. *)
Fixpoint stack_segment (b : body) ks : list string * option body :=
  let '(o, r) := segment continues b in
  match ks with
  | [] => (o, r)
  | (_, k) :: ks =>
    match r with
    | None =>
      if continues then let '(o', r) := stack_segment k ks in (o ++ o', r)
      else (o, Some (default k (last ks.*2)))
    | Some _ => (o, Some (default k (last ks.*2)))
    end
  end.

Lemma stack_segment_eq b ks :
  stack_segment b ks =
  let '(o, r) := segment continues b in
  match ks with
  | [] => (o, r)
  | (_, k) :: ks =>
    match r with
    | None =>
      if continues then let '(o', r) := stack_segment k ks in (o ++ o', r)
      else (o, Some (default k (last ks.*2)))
    | Some _ => (o, Some (default k (last ks.*2)))
    end
  end.
Proof. by destruct ks. Qed.

Lemma stack_segment_Trace s b ks :
  stack_segment (Trace s b) ks = let '(o, r) := stack_segment b ks in (s :: o, r).
Proof.
  rewrite (stack_segment_eq b), (stack_segment_eq (Trace s b)). cbn [segment]. destruct (segment continues b) as [o r].
  destruct ks as [|[c k] ks]; [done|]. destruct r; [done|]. destruct continues; [|done].
  by destruct (stack_segment k ks).
Qed.

Lemma stack_segment_CoAwait a c b ks :
  stack_segment (CoAwait c b) ks = stack_segment c ((a, b) :: ks).
Proof.
  rewrite (stack_segment_eq (CoAwait c b)), (stack_segment_eq c). cbn [segment].
  destruct (segment continues c) as [o [r|]].
  - destruct ks as [|[a' k'] ks]; [done|]. cbn [fmap list_fmap snd]. rewrite last_cons. by destruct (last ks.*2).
  - rewrite (stack_segment_eq b ks). destruct continues.
    + destruct (segment true b) as [o' r']. destruct ks as [|[a' k'] ks]; [done|]. destruct r'; [done|].
      destruct (stack_segment k' ks). by rewrite app_assoc.
    + destruct ks as [|[a' k'] ks]; [done|]. cbn [fmap list_fmap snd]. rewrite last_cons. by destruct (last ks.*2).
Qed.

Lemma comp_set_point_eq a q h o f :
  h !! a = Some f -> set_point a q (World h o) = Ret (World (<[a := Frame (promise f) q]> h) o).
Proof. intros E. unfold set_point. cbn. by rewrite E. Qed.

Lemma awaiting_insert p a ks h0 r f :
  r ∉ ks.*1 -> awaiting p a ks (<[r := f]> h0) = <[r := f]> (awaiting p a ks h0).
Proof.
  revert a. induction ks as [|[c k] ks IH]; cbn; intros a Hr; [done|].
  apply not_elem_of_cons in Hr as [Hc Hr]. by rewrite IH, insert_insert_ne.
Qed.

Lemma awaiting_size p a b ks h0 : distinct b ks h0 -> length ks <= size (awaiting p a ks h0).
Proof.
  revert a b. induction ks as [|[c k] ks IH]; cbn [length awaiting]; intros a b Hd; [lia|].
  apply distinct_tail in Hd. rewrite map_size_insert_None by by apply distinct_None.
  apply le_n_S. by eapply IH.
Qed.

(** The awaiting coroutine goes on and drops the task. *)
Lemma drop_awaited p a f ks r k h0 o :
  distinct a (ks ++ [(r, k)]) h0 -> at_point f <> Running -> (forall c k, at_point f <> AtAwait c k) ->
  (w ← set_point r Running (World (<[a := f]> (awaiting p a (ks ++ [(r, k)]) h0)) o);
   task_destructor (outermost a ks) w) = Ret (World (<[r := Frame p Running]> h0) o).
Proof.
  intros Hd Hr Hw. destruct (distinct_snoc _ _ _ _ _ (Frame p Running) Hd) as (Hck & Hc & Hd').
  apply not_elem_of_cons in Hck as [Hca Hck].
  rewrite awaiting_snoc, awaiting_insert, insert_insert_ne by done.
  rewrite (comp_set_point_eq _ _ _ _ _ (lookup_insert_eq _ _ _)), insert_insert_eq. run_bind.
  unfold task_destructor. cbn [heap out promise].
  rewrite insert_insert_ne, <- awaiting_insert by done. rewrite destroy_stack; [run_bind; done|done..|].
  rewrite map_size_insert_None by by apply distinct_None.
  pose proof (awaiting_size (await_suspend r new_promise) a a ks _ Hd'). lia.
Qed.

Lemma parked_stack a f c k ks h0 :
  distinct a ((c, k) :: ks) h0 -> at_point f <> Running -> (forall c k, at_point f <> AtAwait c k) ->
  parked (outermost a ((c, k) :: ks)) (default k (last ks.*2)) h0 (<[a := f]> (awaiting new_promise a ((c, k) :: ks) h0)).
Proof.
  intros Hd Hr Hw. right. destruct (exists_last (l := (c, k) :: ks)) as (ks' & [r kr] & E); [done|].
  assert (default k (last ks.*2) = kr) as ->.
  { assert (last ((c, k) :: ks).*2 = Some kr) as El by by rewrite E, fmap_app; apply last_snoc.
    cbn in El. rewrite last_cons in El. destruct (last ks.*2); cbn; congruence. }
  rewrite E in *. rewrite outermost_snoc. by exists a, f, ks'.
Qed.

Definition stack_size ks : nat := sum_list_with (fun x => body_size (snd x)) ks.

(** The coroutine that ends hands over to its awaiter. *)
Definition run_ok (fuel : nat) (a : addr) (b : body) ks h0 : Prop := forall o,
  exists h', run fuel a b (World (<[a := Frame (promise_of new_promise ks) Running]> (awaiting new_promise a ks h0)) o)
             = Ret (World h' (o ++ fst (stack_segment b ks))) /\
    match snd (stack_segment b ks) with
    | None => h' = <[outermost a ks := Frame new_promise AtFinal]> h0
    | Some k => parked (outermost a ks) k h0 h'
    end.

Lemma run_Return fuel a ks h0 :
  distinct a ks h0 ->
  (forall c k ks', ks = (c, k) :: ks' -> run_ok fuel c k ks' h0) -> run_ok (S fuel) a Return ks h0.
Proof.
  intros Hd IH o. rewrite stack_segment_eq. cbn [segment]. cbn [run heap]. rewrite lookup_insert_eq.
  cbn [or_fault]. run_bind. rewrite (comp_set_point_eq _ _ _ _ _ (lookup_insert_eq _ _ _)), insert_insert_eq. run_bind.
  cbn [promise]. destruct ks as [|[c k] ks].
  { cbn [promise_of]. rewrite law_new, app_nil_r. by eexists. }
  cbn [promise_of]. rewrite law_await. destruct continues eqn:Ec.
  - assert (c <> a) as Hca by (intros ->; destruct Hd as [[Hn _]%NoDup_cons _]; apply Hn; by left).
    cbn [awaiting heap]. rewrite lookup_insert_ne, lookup_insert_eq by done. cbn [or_fault]. run_bind. cbn [at_point].
    set (f := Frame _ AtFinal).
    assert (distinct a ([] ++ [(c, k)]) (awaiting new_promise c ks h0)) as Hd'.
    { split; [cbn; apply NoDup_cons; split; [|apply NoDup_singleton]; by intros ->%list_elem_of_singleton|].
      intros x [->|Hx]%elem_of_cons; [|apply list_elem_of_singleton in Hx as ->]. 
      - pose proof (distinct_None new_promise a ((c, k) :: ks) h0 a Hd) as E.
        cbn in E. by rewrite lookup_insert_ne in E.
      - eapply distinct_None, distinct_tail, Hd. }
    pose proof (drop_awaited (promise_of new_promise ks) a f [] c k _ o Hd') as E.
    cbn [app awaiting] in E. change (outermost a []) with a in E.
    change (promise_of (promise_of new_promise ks) []) with (promise_of new_promise ks) in E.
    rewrite <- (bind_assoc (set_point c Running _) (task_destructor a) (run fuel c k)), E by done. run_bind. destruct (IH c k ks eq_refl o) as (h' & E' & Hh').
    exists h'. revert E' Hh'. destruct (stack_segment k ks) as [o' r]. cbn. intros -> Hh'. split; [done|].
    by rewrite outermost_cons.
  - rewrite law_new, app_nil_r. eexists. split; [done|]. by apply parked_stack.
Qed.

Lemma run_Suspend fuel a k ks h0 : distinct a ks h0 -> run_ok (S fuel) a (Suspend k) ks h0.
Proof.
  intros Hd o. rewrite stack_segment_eq. cbn [segment run].
  rewrite (comp_set_point_eq _ _ _ _ _ (lookup_insert_eq _ _ _)), insert_insert_eq. cbn [promise].
  destruct ks as [|[c k'] ks]; cbn [fst snd]; rewrite app_nil_r; eexists; (split; [done|]).
  - by left.
  - by apply parked_stack.
Qed.

Lemma run_CoAwait fuel a c k ks h0 :
  distinct a ks h0 -> (forall t, distinct t ((a, k) :: ks) h0 -> run_ok fuel t c ((a, k) :: ks) h0) ->
  run_ok (S fuel) a (CoAwait c k) ks h0.
Proof.
  intros Hd IH o. rewrite (stack_segment_CoAwait a). cbn [run]. unfold call. cbn [heap out].
  set (fr := Frame (promise_of new_promise ks) Running). set (A := awaiting new_promise a ks h0).
  pose proof (distinct_push new_promise a k fr ks h0 Hd) as Ht. fold A in Ht. revert Ht.
  generalize (fresh (dom (<[a := fr]> A))) as t. intros t Ht.
  assert (t <> a) as Hta by (intros ->; destruct Ht as [[Hn _]%NoDup_cons _]; apply Hn; by left).
  rewrite (comp_set_point_eq a _ _ _ fr) by by rewrite lookup_insert_ne, lookup_insert_eq. run_bind. cbn [heap out].
  rewrite (lookup_insert_ne _ a t), lookup_insert_eq by done. cbn [or_fault]. run_bind.
  cbn [heap promise at_point]. rewrite lookup_insert_eq. cbn [or_fault]. run_bind. cbn [at_point].
  rewrite (comp_set_point_eq _ _ _ _ _ (lookup_insert_eq _ _ _)). run_bind. cbn [promise].
  destruct (IH t Ht o) as (h' & E & Hh'). exists h'. rewrite <- (outermost_cons t a k ks). split; [|done].
  rewrite <- E. do 2 f_equal. cbn [awaiting]. fold A.
  by rewrite insert_insert_eq, (insert_insert_ne _ a t), !insert_insert_eq by done.
Qed.

Lemma comp_run_spec fuel a b ks h0 : distinct a ks h0 -> body_size b + stack_size ks <= fuel -> run_ok fuel a b ks h0.
Proof.
  revert a b ks. induction fuel as [|fuel IH]; intros a b ks Hd Hf; [destruct b; cbn in Hf; lia|].
  destruct b as [|s b|b|c b]; cbn in Hf.
  - apply run_Return; [done|]. intros c k ks' ->. apply IH; [by eapply distinct_tail|]. unfold stack_size in Hf. cbn in Hf.
    unfold stack_size. lia.
  - intros o. cbn [run]. rewrite stack_segment_Trace. destruct (IH a b ks Hd ltac:(lia) (o ++ [s])) as (h' & E & Hh').
    exists h'. destruct (stack_segment b ks) as [o' r]. cbn in *. by rewrite <- app_assoc in E.
  - by apply run_Suspend.
  - apply run_CoAwait; [done|]. intros t Ht. apply IH; [done|]. unfold stack_size in *. cbn. lia.
Qed.

(** Resuming the outermost coroutine. *)
Lemma resume_parked fuel r k h0 h o :
  parked r k h0 h -> h0 !! r = None ->
  resume fuel r (World h o) = run fuel r k (World (<[r := Frame new_promise Running]> h0) o) /\
  exists f, h !! r = Some f /\ done f = false.
Proof.
  intros [->|(a & f & ks & -> & Hd & Hr & Hw)] Hn.
  - split; [|eexists; split; [apply lookup_insert_eq|done]]. unfold resume. cbn [heap].
    rewrite lookup_insert_eq. cbn [or_fault]. run_bind. cbn [at_point].
    rewrite (comp_set_point_eq _ _ _ _ _ (lookup_insert_eq _ _ _)), insert_insert_eq. done.
  - destruct (distinct_snoc _ _ _ _ _ (Frame new_promise Running) Hd) as (Hck & _).
    apply not_elem_of_cons in Hck as [Hra Hrk].
    assert (<[a := f]> (awaiting new_promise a (ks ++ [(r, k)]) h0) !! r
            = Some (Frame new_promise (AtAwait (outermost a ks) k))) as E.
    { by rewrite lookup_insert_ne, awaiting_snoc, awaiting_ne, lookup_insert_eq by done. }
    split; [|by eexists]. unfold resume. cbn [heap]. rewrite E. cbn [or_fault]. run_bind. cbn [at_point].
    rewrite <- (bind_assoc (set_point r Running _) (task_destructor (outermost a ks)) (run fuel r k)).
    by rewrite (drop_awaited new_promise a f ks r k h0 o Hd Hr Hw).
Qed.

Lemma while_resume_spec n fuel r b h0 h o :
  parked r b h0 h -> h0 !! r = None -> body_size b <= n -> body_size b <= fuel ->
  while_resume n fuel r (World h o) =
  Ret (World (<[r := Frame new_promise AtFinal]> h0) (o ++ printed continues b)).
Proof.
  revert b h o. induction n as [|n IH]; intros b h o Hp Hr Hn Hf; [destruct b; cbn in Hn; lia|].
  destruct (resume_parked fuel r b h0 h o Hp Hr) as (Er & f & Ef & Hd).
  cbn [while_resume]. unfold task_resume at 1. cbn [heap]. rewrite Ef. cbn [or_fault]. run_bind. rewrite Hd, Er.
  assert (distinct r [] h0) as Hdr.
  { split; [apply NoDup_singleton|]. by intros x ->%list_elem_of_singleton. }
  destruct (comp_run_spec fuel r b [] h0 Hdr ltac:(cbn; lia) o) as (h' & E & Hh'). cbn [promise_of awaiting] in E.
  rewrite E. run_bind. cbn [heap]. rewrite (printed_segment continues b).
  rewrite (stack_segment_eq b []) in Hh' |- *. pose proof (segment_size continues b) as Hs.
  destruct (segment continues b) as [o' [k|]]; cbn [fst snd outermost fmap list_fmap last default] in *.
  - specialize (Hs k eq_refl). destruct (resume_parked fuel r k h0 h' [] Hh' Hr) as (_ & f' & Ef' & Hd').
    rewrite Ef'. cbn [or_fault]. run_bind. rewrite Hd'. cbn [negb].
    rewrite (IH k h') by (done || lia). by rewrite app_assoc.
  - subst h'. rewrite lookup_insert_eq. cbn [or_fault]. run_bind. cbn [done at_point negb]. by rewrite app_nil_r.
Qed.

Lemma drive_spec fuel b w :
  body_size b <= fuel -> drive fuel b w = Ret (World (heap w) (out w ++ printed continues b)).
Proof.
  intros Hf. unfold drive, call. set (r := fresh _).
  assert (heap w !! r = None) as Hr by apply not_elem_of_dom, is_fresh.
  rewrite (while_resume_spec fuel fuel r b (heap w)); [|by left|done..]. run_bind.
  unfold task_destructor. cbn [heap out destroy]. rewrite lookup_insert_eq. cbn [or_fault]. run_bind. cbn [at_point].
  run_bind. by rewrite delete_insert_eq, delete_id.
Qed.
End Stack.

(** ** Theorems *)

(** C32. With continuations, [co_await] composes: a task whose awaited tasks do not
    suspend on their own prints, driven by the loop of [main], what the same
    functions would print if every [co_await f()] were a call of [f]; the loop
    ends, and every coroutine frame is destroyed exactly once. *)
Theorem task_v1_composes fuel b w :
  awaits_run_through b -> body_size b <= fuel ->
  drive (H := task_v1) fuel b w = Ret (World (heap w) (out w ++ sequential b)).
Proof. intros Hb Hf. by rewrite drive_spec, printed_sequential. Qed.

(** Without continuations, what a task does after its own [co_await] is lost
    when it is itself awaited: its awaiter, not it, is resumed next, and
    destroys it. The loop still ends and no frame leaks. *)
Theorem task_v0_loses_rest fuel d k k' w :
  S (S (body_size d + body_size k + body_size k')) <= fuel ->
  drive (H := task_v0) fuel (CoAwait (CoAwait d k) k') w =
  Ret (World (heap w) (out w ++ fst (segment false d) ++ printed false k')).
Proof.
  intros Hf. rewrite drive_spec by (cbn; lia). cbn [printed segment]. by destruct (segment false d) as [o []].
Qed.

(** Even with continuations, [resume()] on a task resumes its outermost
    coroutine: if a task that it awaits has suspended, the rest of that task is
    lost. *)
Theorem task_v1_loses_suspended fuel k k' w :
  S (S (body_size k + body_size k')) <= fuel ->
  drive (H := task_v1) fuel (CoAwait (Suspend k) k') w = Ret (World (heap w) (out w ++ printed true k')).
Proof. intros Hf. by rewrite drive_spec by (cbn; lia). Qed.

(** ** The examples' output *)

Example main0_output : main0 = Ret (World ∅
  [line "main" "enter"; line "main" "after call to async_task()"; line "async_task" "enter";
   line "main" "after task::resume() #1"; line "async_task" "exit"; line "main" "after task::resume #2";
   line "main" "exit"]).
Proof. reflexivity. Qed.

(** [coro_1] and [coro_2] never get to their exit. *)
Example main1_output : main1 20 = Ret (World ∅
  [line "coro_0" "enter"; line "coro_1" "enter"; line "coro_2" "enter";
   line "completes_synchronously" "enter"; line "completes_synchronously" "exit"; line "coro_0" "exit"]).
Proof. reflexivity. Qed.

Example main2_output : main2 20 = Ret (World ∅
  ([line "main" "enter"] ++ sequential coro_0 ++ [line "main" "exit"])).
Proof. reflexivity. Qed.

Lemma task_v1_composes_witness : drive (H := task_v1) 20 coro_0 (World ∅ []) = Ret (World ∅ (sequential coro_0)).
Proof. apply task_v1_composes; [done|cbn; lia]. Defined.

Lemma task_v0_loses_rest_witness :
  drive (H := task_v0) 20 (CoAwait (CoAwait completes_synchronously (Trace "lost" Return)) Return) (World ∅ []) =
  Ret (World ∅ (sequential completes_synchronously ++ [])).
Proof. apply task_v0_loses_rest. cbn. lia. Defined.

Lemma task_v1_loses_suspended_witness :
  drive (H := task_v1) 20 (CoAwait (Suspend (Trace "lost" Return)) (Trace "next" Return)) (World ∅ []) =
  Ret (World ∅ ["next"]).
Proof. apply task_v1_loses_suspended. cbn. lia. Defined.
End Composition.
