(* ===== verification/Keywords.v ===== *)
(** * Keywords: basics/keywords/

    [await.cpp], [return.cpp] and [yield.cpp]: a coroutine type [resumable]
    that is lazy, suspends finally and is resumed from [main]. The three
    classes have the same text but for the promise, which holds nothing, a
    string that [co_return] sets, or a string that [co_yield] sets; [Promise]
    is what they differ in.

    A body is a transition function on its local state, because the body of
    [yield.cpp] does not end. *)

From S2P Require Import Prelude.

Module Keywords.

(** How a stretch of a body ends: [co_await suspend_always{}],
    [co_yield v], [co_return v] (or the closing brace, without a value). *)
Inductive action := Suspend | Yield (v : string) | Return (v : option string).

(** A [char const*] that may not have been set. *)
Inductive c_string := Indeterminate | Null | Str (s : string).

(** Use of the string by [printf("%s")]. *)
Definition read_string (c : c_string) : outcome string :=
  match c with Indeterminate => Fault Uninitialised | Null => Fault NullDeref | Str s => Ret s end.

(** The member functions of [promise_type]; a body that uses a keyword for
    which the promise has no function does not compile. *)
Class Promise := {
  promise_type : Type;
  new_promise : promise_type;
  yield_value : string -> promise_type -> promise_type;
  return_value : option string -> promise_type -> promise_type;
}.

Section Resumable.
Context `{Promise} {S : Type}.
(** What the body prints from a local state, how the stretch ends, and the
    state after. *)
Context (body : S -> list string * action * S).

Record frame := Frame { local : S; promise : promise_type; done : bool }.
Record world := World { heap : gmap addr frame; out : list string }.

(** A [resumable] object: its handle. *)
Abbreviation resumable := ptr.

(** A call of the coroutine: suspended initially. *)
Definition call (s : S) (w : world) : resumable * world :=
  let a := fresh (dom (heap w)) in
  (Some a, World (<[a := Frame s new_promise false]> (heap w)) (out w)).

(** [coroutine_handle::resume()] *)
Definition resume_handle (a : addr) (w : world) : outcome world :=
  f ← or_fault Dangling (heap w !! a);
  if (done f : bool) then Fault BadResume
  else
    let '(o, act, s) := body (local f) in
    let f' :=
      match act with
      | Suspend => Frame s (promise f) false
      | Yield v => Frame s (yield_value v (promise f)) false
      | Return v => Frame s (return_value v (promise f)) true
      end in
    Ret (World (<[a := f']> (heap w)) (out w ++ o)).

(** [resumable::resume()] *)
Definition resume (r : resumable) (w : world) : outcome (bool * world) :=
  a ← or_fault NullDeref r;
  f ← or_fault Dangling (heap w !! a);
  w ← (if done f then Ret w else resume_handle a w);
  f ← or_fault Dangling (heap w !! a);
  Ret (negb (done f), w).

(** [~resumable()] *)
Definition destructor (r : resumable) (w : world) : outcome world :=
  match r with
  | Some a => _ ← or_fault DoubleDestroy (heap w !! a); Ret (World (delete a (heap w)) (out w))
  | None => Ret w
  end.

(** [resumable(resumable&&)]: the new object and what is left of the source. *)
Definition move (r : resumable) : resumable * resumable := (r, null).

(** [operator=(resumable&&)] on two different objects. *)
Definition move_assign (dst src : resumable) (w : world) : outcome (resumable * resumable * world) :=
  w ← destructor dst w; Ret (src, null, w).

(** [handle.promise()] *)
Definition get_promise (r : resumable) (w : world) : outcome promise_type :=
  f ← deref (heap w) r; Ret (promise f).

Definition print (s : string) (w : world) : world := World (heap w) (out w ++ [s]).

(** [while (res.resume());] *)
Fixpoint while_resume (fuel : nat) (r : resumable) (w : world) : outcome world :=
  match fuel with
  | O => Diverged
  | Datatypes.S fuel => '(more, w) ← resume r w; if (more : bool) then while_resume fuel r w else Ret w
  end.
End Resumable.

(** [trace(s)]: fprintf(stdout, "[%s] %s\n", __func__, s) *)
Definition trace (func s : string) : string := "[" +:+ func +:+ "] " +:+ s.

(** ** await.cpp *)
Module Await.
#[export] Instance promise : Promise := {|
  promise_type := unit; new_promise := tt; yield_value _ p := p; return_value _ p := p |}.

(** The local state counts the suspensions behind. *)
Definition foo (s : nat) : list string * action * nat :=
  match s with
  | O => ([trace "foo" "enter"], Suspend, 1)
  | _ => ([trace "foo" "exit"], Return None, 1)
  end.

Definition main (fuel : nat) : outcome world :=
  let '(res, w) := call 0 (World ∅ []) in
  w ← while_resume foo fuel res w;
  destructor res w.
End Await.

(** ** return.cpp: [string] is not initialised *)
Module Return_.
#[export] Instance promise : Promise := {|
  promise_type := c_string; new_promise := Indeterminate;
  yield_value _ p := p;
  return_value v p := match v with Some s => Str s | None => p end |}.

Definition foo (s : nat) : list string * action * nat :=
  match s with
  | O => ([trace "foo" "enter"], Suspend, 1)
  | _ => ([trace "foo" "exit"], Return (Some "hello co_return"), 1)
  end.

Definition return_val {S} (r : ptr) (w : world (S := S)) : outcome c_string := get_promise r w.

Definition main (fuel : nat) : outcome world :=
  let '(res, w) := call 0 (World ∅ []) in
  w ← while_resume foo fuel res w;
  c ← return_val res w;
  s ← read_string c;
  destructor res (print s w).
End Return_.

(** ** yield.cpp: [string] starts as [nullptr] *)
Module Yield_.
#[export] Instance promise : Promise := {|
  promise_type := c_string; new_promise := Null;
  yield_value v _ := Str v; return_value _ p := p |}.

(** The local state: before the loop, after the first and after the second
    [co_yield] of a turn. *)
Inductive at_ := Start | Yielded1 | Yielded2.

Definition foo (s : at_) : list string * action * at_ :=
  match s with
  | Start => ([trace "foo" "enter"], Yield "Hello", Yielded1)
  | Yielded1 => ([], Yield "co_yield", Yielded2)
  | Yielded2 => ([], Yield "Hello", Yielded1)
  end.

Definition recent_val {S} (r : ptr) (w : world (S := S)) : outcome c_string := get_promise r w.

(** [for (i = 0; i < n; ++i) { res.resume(); printf("%s\n", res.recent_val()); }] *)
Fixpoint print_values {S} (body : S -> list string * action * S) (n : nat) (r : ptr) (w : world) : outcome world :=
  match n with
  | O => Ret w
  | Datatypes.S n =>
    '(_, w) ← resume body r w;
    c ← recent_val r w;
    s ← read_string c;
    print_values body n r (print s w)
  end.

Definition main : outcome world :=
  let '(res, w) := call Start (World ∅ []) in
  w ← print_values foo 10 res w;
  destructor res w.
End Yield_.

(** ** Theorems *)
Section Runs.
Context `{Promise} {S : Type} (body : S -> list string * action * S).

(** [runs s p o n p']: from [s] with promise [p] the body prints [o], is
    suspended [n] times, and ends with promise [p']. *)
Inductive runs : S -> promise_type -> list string -> nat -> promise_type -> Prop :=
| runs_return s s' o v p : body s = (o, Return v, s') -> runs s p o 0 (return_value v p)
| runs_suspend s s' o o' n p p' :
    body s = (o, Suspend, s') -> runs s' p o' n p' -> runs s p (o ++ o') (Datatypes.S n) p'
| runs_yield s s' o o' n v p p' :
    body s = (o, Yield v, s') -> runs s' (yield_value v p) o' n p' -> runs s p (o ++ o') (Datatypes.S n) p'.

Lemma resume_eq a s p h o :
  resume body (Some a) (World (<[a := Frame s p false]> h) o) =
  let '(o', act, s') := body s in
  Ret (match act with Return _ => false | _ => true end,
       World (<[a := match act with
                     | Suspend => Frame s' p false
                     | Yield v => Frame s' (yield_value v p) false
                     | Return v => Frame s' (return_value v p) true
                     end]> h) (o ++ o')).
Proof.
  unfold resume, resume_handle. cbn [or_fault heap]. run_bind. rewrite lookup_insert_eq. cbn [or_fault].
  run_bind. cbn [done local promise out heap]. destruct (body s) as [[o' act] s']. run_bind. cbn [heap].
  rewrite lookup_insert_eq, insert_insert_eq. cbn [or_fault]. run_bind. by destruct act.
Qed.

Lemma while_resume_runs a s p o n p' :
  runs s p o n p' -> forall fuel h o0, n < fuel ->
  exists s', while_resume body fuel (Some a) (World (<[a := Frame s p false]> h) o0) =
    Ret (World (<[a := Frame s' p' true]> h) (o0 ++ o)).
Proof.
  induction 1 as [s s' o v p E|s s' o o' n p p' E _ IH|s s' o o' n v p p' E _ IH];
    intros fuel h o0 Hf; (destruct fuel as [|fuel]; [lia|]); cbn [while_resume]; rewrite resume_eq, E; run_bind.
  - by exists s'.
  - destruct (IH fuel h (o0 ++ o)) as (s'' & ->); [lia|]. exists s''. by rewrite app_assoc.
  - destruct (IH fuel h (o0 ++ o)) as (s'' & ->); [lia|]. exists s''. by rewrite app_assoc.
Qed.
End Runs.

(** The loop of [main] runs a coroutine to its end: if the body prints [o] over
    [n] suspensions, [n + 1] turns of [while (res.resume());] print exactly [o],
    leave what [co_return] stored in the promise, and the destructor then
    releases the one frame of the call. *)
Theorem resumable_runs_to_end `{Promise} {S} (body : S -> list string * action * S) s o n p' fuel w :
  runs body s new_promise o n p' -> n < fuel ->
  exists w', (let '(r, w1) := call s w in w2 ← while_resume body fuel r w1; Ret (r, w2)) =
      Ret (Some (fresh (dom (heap w))), w') /\
    out w' = out w ++ o /\ get_promise (Some (fresh (dom (heap w)))) w' = Ret p' /\
    destructor (Some (fresh (dom (heap w)))) w' = Ret (World (heap w) (out w ++ o)).
Proof.
  intros Hr Hf. unfold call. set (a := fresh (dom (heap w))).
  destruct (while_resume_runs body a _ _ _ _ _ Hr fuel (heap w) (out w) Hf) as (s' & E).
  exists (World (<[a := Frame s' p' true]> (heap w)) (out w ++ o)). rewrite E. run_bind.
  split; [done|]. split; [done|]. unfold get_promise, destructor, deref. cbn [heap out].
  rewrite lookup_insert_eq. cbn [or_fault]. run_bind. split; [done|].
  rewrite delete_insert_eq, delete_id; [done|]. apply not_elem_of_dom, is_fresh.
Qed.

#[local] Existing Instance Return_.promise.

Lemma resumable_runs_to_end_witness :
  let w : world := World ∅ [] in let r := Some (fresh (dom (heap w))) in
  let o := [trace "foo" "enter"; trace "foo" "exit"] in
  exists w', (let '(r, w1) := call 0 w in w2 ← while_resume Return_.foo 2 r w1; Ret (r, w2)) = Ret (r, w') /\
  out w' = o /\ get_promise r w' = Ret (Str "hello co_return") /\ destructor r w' = Ret (World ∅ o).
Proof.
  intros w r o. apply (resumable_runs_to_end (H := Return_.promise) Return_.foo 0 o 1 (Str "hello co_return") 2 w); [|lia].
  apply (runs_suspend (H := Return_.promise) Return_.foo 0 1 [trace "foo" "enter"] [trace "foo" "exit"] 0); [done|].
  by apply (runs_return (H := Return_.promise) Return_.foo 1 1 [trace "foo" "exit"] (Some "hello co_return")).
Defined.
#[local] Existing Instance Yield_.promise.

(** The strings of [yield.cpp], and the body after [i] of them. *)
Definition yielded (i : nat) : string := if Nat.even i then "Hello" else "co_yield".
Definition yield_state (i : nat) : Yield_.at_ := if Nat.even i then Yield_.Yielded2 else Yield_.Yielded1.

Lemma foo_yields i : Yield_.foo (yield_state i) = ([], Yield (yielded i), yield_state (S i)).
Proof. unfold yield_state, yielded. rewrite Nat.even_succ, <- Nat.negb_even. by destruct (Nat.even i). Qed.

(** One turn of the loop of [yield.cpp]. *)
Lemma print_values_S m a s p h o o1 v s' :
  Yield_.foo s = (o1, Yield v, s') ->
  Yield_.print_values Yield_.foo (S m) (Some a) (World (<[a := Frame s p false]> h) o) =
  Yield_.print_values Yield_.foo m (Some a) (World (<[a := Frame s' (Str v) false]> h) (o ++ o1 ++ [v])).
Proof.
  intros E. cbn [Yield_.print_values]. rewrite resume_eq, E. run_bind.
  unfold Yield_.recent_val, get_promise, deref. cbn [heap]. rewrite lookup_insert_eq. cbn [or_fault]. run_bind.
  cbn [promise yield_value Yield_.promise read_string]. run_bind. unfold print. cbn [heap out].
  by rewrite app_assoc.
Qed.

Lemma print_values_spec m i a c h o : exists f,
  Yield_.print_values Yield_.foo m (Some a) (World (<[a := Frame (yield_state i) c false]> h) o) =
  Ret (World (<[a := f]> h) (o ++ map yielded (seq i m))).
Proof.
  revert i c o. induction m as [|m IH]; intros i c o; [eexists; by rewrite app_nil_r|].
  rewrite (print_values_S _ _ _ _ _ _ _ _ _ (foo_yields i)).
  destruct (IH (S i) (Str (yielded i)) (o ++ [] ++ [yielded i])) as (f & ->). exists f.
  by rewrite <- app_assoc.
Qed.

(** What [co_yield] stores is what [main] prints: [n] turns of the loop of
    [yield.cpp] print [n] strings, alternately "Hello" and "co_yield", after
    the line that the body prints on its first resumption; the frame of the
    body, which never ends, is then destroyed. *)
Theorem yield_prints_values n w :
  (let '(r, w1) := call Yield_.Start w in w2 ← Yield_.print_values Yield_.foo n r w1; destructor r w2) =
  Ret (World (heap w) (out w ++ (if decide (n = 0) then [] else [trace "foo" "enter"]) ++ map yielded (seq 0 n))).
Proof.
  unfold call. set (a := fresh (dom (heap w))).
  assert (forall f o, destructor (Some a) (World (<[a := f]> (heap w)) o) = Ret (World (heap w) o)) as Hd.
  { intros f o. unfold destructor. cbn [heap out]. rewrite lookup_insert_eq. cbn [or_fault]. run_bind.
    rewrite delete_insert_eq, delete_id; [done|]. apply not_elem_of_dom, is_fresh. }
  destruct n as [|n]; [cbn [Yield_.print_values]; run_bind; rewrite Hd; by rewrite app_nil_r|].
  rewrite (print_values_S _ _ _ _ _ _ [trace "foo" "enter"] "Hello" (yield_state 1)) by done.
  destruct (print_values_spec n 1 a (Str "Hello") (heap w) (out w ++ [trace "foo" "enter"] ++ ["Hello"])) as (f & ->).
  run_bind. rewrite Hd. do 2 f_equal. by rewrite <- app_assoc.
Qed.

(** ** The programs' output *)

Example await_output : Await.main 3 = Ret (World ∅ [trace "foo" "enter"; trace "foo" "exit"]).
Proof. reflexivity. Qed.

Example return_output :
  Return_.main 3 = Ret (World ∅ [trace "foo" "enter"; trace "foo" "exit"; "hello co_return"]).
Proof. reflexivity. Qed.

Example yield_output :
  Yield_.main = Ret (World ∅ (trace "foo" "enter" :: map yielded (seq 0 10))).
Proof. reflexivity. Qed.
End Keywords.
