(* ===== verification/Generator.v ===== *)
(** * Generator: libcoro/include/libcoro/generator.hpp and primitives/generator/

    A generator is a coroutine that is suspended initially, at each [co_yield]
    and finally; its iterator resumes it. A body is a transition function on
    its local state, so that it may yield for ever. The driver's [make_range]
    and [accumulate] are a body and a client. *)

From S2P Require Import Prelude.
Local Open Scope Z_scope.

Module Generator.
(** A [generator] or a [generator_iterator]: the coroutine handle. *)
Abbreviation generator := ptr.
Abbreviation iterator := ptr.

Section Generator.
Context {S T : Type}.

(** What the body does next: [co_yield], falling off the end, throwing. *)
Inductive action := Yield (v : T) (s : S) | Finish | Throw (e : exn).

(** [generator_promise]; the yielded object lives as long as the suspension. *)
Record generator_promise := Promise { m_value : option T; m_exception : option exn }.

Record frame := Frame { local : S; promise : generator_promise; done : bool }.

Abbreviation heap := (gmap addr frame).

Section Body.
Context (body : S -> action).

(** Call of the coroutine: it is suspended initially. *)
Definition call (s : S) (h : heap) : generator * heap :=
  let a := fresh (dom h) in
  (Some a, <[a := Frame s (Promise None None) false]> h).

(** [yield_value] and [unhandled_exception] of the promise *)
Definition yield_value (v : T) (p : generator_promise) : generator_promise := Promise (Some v) (m_exception p).
Definition unhandled_exception (e : exn) (p : generator_promise) : generator_promise := Promise (m_value p) (Some e).

(** [coroutine_handle::resume()] *)
Definition resume (a : addr) (h : heap) : outcome heap :=
  f ← or_fault Dangling (h !! a);
  if (done f : bool) then Fault BadResume
  else
    Ret (<[a := match body (local f) with
                | Yield v s => Frame s (yield_value v (promise f)) false
                | Finish => Frame (local f) (promise f) true
                | Throw e => Frame (local f) (unhandled_exception e (promise f)) true
                end]> h).

Definition rethrow_if_exception (p : generator_promise) : outcome unit :=
  match m_exception p with Some e => Raise e | None => Ret tt end.

(** The common part of [begin] and [operator++]. *)
Definition advance (a : addr) (h : heap) : outcome heap :=
  h ← resume a h;
  f ← or_fault Dangling (h !! a);
  if (done f : bool) then _ ← rethrow_if_exception (promise f); Ret h else Ret h.

(** [generator::begin()] *)
Definition begin_ (g : generator) (h : heap) : outcome (iterator * heap) :=
  match g with
  | Some a => h ← advance a h; Ret (Some a, h)
  | None => Ret (null, h)
  end.

(** [operator++] of the iterator *)
Definition increment (it : iterator) (h : heap) : outcome heap :=
  a ← or_fault NullDeref it; advance a h.

(** [it == end()] *)
Definition at_end (it : iterator) (h : heap) : outcome bool :=
  match it with
  | None => Ret true
  | Some a => f ← or_fault Dangling (h !! a); Ret (done f)
  end.

(** [it != end()] *)
Definition not_at_end (it : iterator) (h : heap) : outcome bool :=
  e ← at_end it h; Ret (negb e).

(** [value()] of the promise: the pointer, which is not initialised before the
    first [co_yield] and points to an object of a frame that is gone once the
    body has ended, is dereferenced. *)
Definition value (f : frame) : outcome T :=
  v ← or_fault Uninitialised (m_value (promise f));
  if (done f : bool) then Fault Dangling else Ret v.

(** [operator*], and [operator->] with its address taken *)
Definition deref_it (it : iterator) (h : heap) : outcome T :=
  f ← deref h it; value f.

(** [~generator()] *)
Definition destructor (g : generator) (h : heap) : outcome heap :=
  match g with
  | Some a => _ ← or_fault DoubleDestroy (h !! a); Ret (delete a h)
  | None => Ret h
  end.

(** [generator(generator&&)]: the new object and what is left of the source. *)
Definition move (g : generator) : generator * generator := (g, null).
Definition swap (g1 g2 : generator) : generator * generator := (g2, g1).

(** [for (auto iter = begin; iter != end; ++iter) acc = use(acc, *iter)] *)
Fixpoint for_each {A} (fuel : nat) (use : A -> T -> outcome A) (it : iterator) (acc : A) (h : heap)
    : outcome (A * heap) :=
  match fuel with
  | O => Diverged
  | Datatypes.S fuel =>
    more ← not_at_end it h;
    if (more : bool) then
      v ← deref_it it h;
      acc ← use acc v;
      h ← increment it h;
      for_each fuel use it acc h
    else Ret (acc, h)
  end.

(** A range-based for loop over a generator. *)
Definition range_for {A} (fuel : nat) (use : A -> T -> outcome A) (g : generator) (acc : A) (h : heap)
    : outcome (A * heap) :=
  '(it, h) ← begin_ g h;
  for_each fuel use it acc h.

(** ** The sequence a body produces *)

(** How a body can end. *)
Inductive final := Finished | Threw (e : exn).

(** [produces s vs r]: from [s] the body yields [vs] and ends with [r]. *)
Inductive produces : S -> list T -> final -> Prop :=
| produces_finish s : body s = Finish -> produces s [] Finished
| produces_throw s e : body s = Throw e -> produces s [] (Threw e)
| produces_yield s v s' vs r : body s = Yield v s' -> produces s' vs r -> produces s (v :: vs) r.

Fixpoint fold_outcome {A} (use : A -> T -> outcome A) (acc : A) (vs : list T) : outcome A :=
  match vs with [] => Ret acc | v :: vs => acc ← use acc v; fold_outcome use acc vs end.

Definition finish {A} (r : final) (acc : A) : outcome A :=
  match r with Finished => Ret acc | Threw e => Raise e end.

Definition not_done (a : addr) (s : S) (p : generator_promise) (h : heap) : Prop :=
  h !! a = Some (Frame s p false) /\ m_exception p = None.

Lemma increment_Some a h : increment (Some a) h = advance a h.
Proof. reflexivity. Qed.

Lemma advance_yield a s p h v s' :
  not_done a s p h -> body s = Yield v s' ->
  advance a h = Ret (<[a := Frame s' (yield_value v p) false]> h).
Proof.
  intros [E _] Eb. unfold advance, resume. rewrite E. cbn [or_fault]. run_bind. cbn [done local promise].
  rewrite Eb. run_bind. by rewrite lookup_insert_eq.
Qed.

Lemma advance_finish a s p h :
  not_done a s p h -> body s = Finish -> advance a h = Ret (<[a := Frame s p true]> h).
Proof.
  intros [E Ee] Eb. unfold advance, resume. rewrite E. cbn [or_fault]. run_bind. cbn [done local promise].
  rewrite Eb. run_bind. rewrite lookup_insert_eq. cbn. unfold rethrow_if_exception. by rewrite Ee.
Qed.

Lemma advance_throw a s p h e :
  not_done a s p h -> body s = Throw e -> advance a h = Raise e.
Proof.
  intros [E Ee] Eb. unfold advance, resume. rewrite E. cbn [or_fault]. run_bind. cbn [done local promise].
  rewrite Eb. run_bind. by rewrite lookup_insert_eq.
Qed.

(** The loop over what is left after the current value [v]. *)
Lemma for_each_produces {A} (use : A -> T -> outcome A) a vs : forall fuel s p v r acc h,
  produces s vs r -> not_done a s p h -> m_value p = Some v -> (length vs + 1 < fuel)%nat ->
  (acc' ← fold_outcome use acc (v :: vs); finish r acc') =
  ('(acc', _) ← for_each fuel use (Some a) acc h; Ret acc').
Proof.
  induction vs as [|v' vs IH]; intros fuel s p v r acc h Hp Hn Ev Hf;
    (destruct fuel as [|fuel]; [cbn in Hf; lia|]); pose proof Hn as [E _];
    cbn [for_each]; unfold not_at_end, at_end; rewrite E; cbn [or_fault]; run_bind; cbn [done negb]; run_bind;
    unfold deref_it, value, deref; rewrite E; cbn [or_fault]; run_bind; cbn [promise]; rewrite Ev; cbn [or_fault]; run_bind; cbn [done]; run_bind;
    cbn [fold_outcome]; destruct (use acc v) as [acc'| | |]; try done; run_bind; rewrite increment_Some.
  - inversion Hp as [s0 Eb|s0 e Eb|]; subst.
    + rewrite (advance_finish _ _ _ _ Hn Eb). run_bind. destruct fuel as [|fuel]; [cbn in Hf; lia|].
      cbn [for_each]. unfold not_at_end, at_end. rewrite lookup_insert_eq. done.
    + by rewrite (advance_throw _ _ _ _ _ Hn Eb).
  - inversion Hp as [| |s0 v0 s' vs0 r0 Eb Hp']; subst.
    rewrite (advance_yield _ _ _ _ _ _ Hn Eb). run_bind. rewrite <- (IH fuel s' (yield_value v' p) v' r).
    + done.
    + done.
    + split; [apply lookup_insert_eq|]. by destruct Hn.
    + done.
    + cbn in Hf. lia.
Qed.

Lemma range_for_produces {A} (use : A -> T -> outcome A) a vs s r acc h fuel :
  produces s vs r -> h !! a = Some (Frame s (Promise None None) false) -> (length vs < fuel)%nat ->
  (acc' ← fold_outcome use acc vs; finish r acc') =
  ('(acc', _) ← range_for fuel use (Some a) acc h; Ret acc').
Proof.
  intros Hp E Hf. assert (not_done a s (Promise None None) h) as Hn by done.
  unfold range_for, begin_. destruct Hp as [s Eb|s e Eb|s v s' vs r Eb Hp].
  - rewrite (advance_finish _ _ _ _ Hn Eb). run_bind. destruct fuel as [|fuel]; [cbn in Hf; lia|].
    cbn [for_each]. unfold not_at_end, at_end. by rewrite lookup_insert_eq.
  - by rewrite (advance_throw _ _ _ _ _ Hn Eb).
  - rewrite (advance_yield _ _ _ _ _ _ Hn Eb). run_bind.
    apply (for_each_produces use a vs fuel s' (yield_value v (Promise None None)) v).
    + done.
    + split; [apply lookup_insert_eq|done].
    + done.
    + cbn in Hf. lia.
Qed.

(** C28. A range-based for loop over a generator that was
    just created runs its body on exactly the sequence the coroutine yields, in
    order, then rethrows the exception the coroutine ended with, if any: the
    loop is the fold over the produced sequence, whatever the loop's own body
    does, and the iterator protocol never resumes a coroutine that is done. *)
Theorem generator_range_for {A} (use : A -> T -> outcome A) s vs r acc h g h' fuel :
  produces s vs r -> call s h = (g, h') -> (length vs < fuel)%nat ->
  ('(acc', _) ← range_for fuel use g acc h'; Ret acc') =
  (acc' ← fold_outcome use acc vs; finish r acc').
Proof.
  intros Hp [= <- <-] Hf. symmetry. apply (range_for_produces use _ vs s r); [done| |done].
  apply lookup_insert_eq.
Qed.

(** A second [begin()] after the loop has finished resumes a finished coroutine. *)
Lemma begin_of_finished a f h : h !! a = Some f -> done f = true -> begin_ (Some a) h = Fault BadResume.
Proof. intros E D. unfold begin_, advance, resume. rewrite E. cbn [or_fault]. run_bind. by rewrite D. Qed.
End Body.
End Generator.
Arguments frame : clear implicits.
Arguments action : clear implicits.

(** ** primitives/generator/driver.cpp *)
Section Driver.
Abbreviation heap := (gmap addr (frame Z Z)).

Definition int_min : Z := - 2 ^ 31.
Definition int_max : Z := 2 ^ 31 - 1.

(** Signed addition of the machine: overflow is undefined. *)
Definition int_add (x y : Z) : outcome Z :=
  if decide (int_min <= x + y <= int_max) then Ret (x + y) else Fault Overflow.

(** The body of [make_range(begin, end)]; its state is [i] at the loop's test. *)
Definition make_range (end_ : Z) (i : Z) : action Z Z :=
  if decide (i < end_) then Yield i (i + 1) else Finish.

Definition accumulate_iter (end_ : Z) (fuel : nat) (it : iterator) (init : Z) (h : heap) : outcome (Z * heap) :=
  for_each (make_range end_) fuel int_add it init h.

Definition accumulate_range (end_ : Z) (fuel : nat) (g : generator) (init : Z) (h : heap) : outcome (Z * heap) :=
  range_for (make_range end_) fuel int_add g init h.

(** [main]: the temporary generator is destroyed at the end of its full
    expression, [range] at the end of the scope. *)
Definition main (fuel : nat) : outcome (Z * Z * heap) :=
  let '(range, h) := call 0 (∅ : gmap addr (frame Z Z)) in
  '(it, h) ← begin_ (make_range 5) range h;
  '(sum_iter, h) ← accumulate_iter 5 fuel it 0 h;
  let '(tmp, h) := call 0 h in
  '(sum_range, h) ← accumulate_range 5 fuel tmp 0 h;
  h ← destructor tmp h;
  h ← destructor range h;
  Ret (sum_iter, sum_range, h).

Example main_prints_ten : main 10 = Ret (10, 10, ∅).
Proof. vm_compute. reflexivity. Qed.

(** *** test.cpp *)

(** [REQUIRE(sum == 10)] *)
Definition require_ten (sum : Z) : outcome unit := if decide (sum = 10) then Ret tt else Fault AssertionFailed.

(** "... STL-compatible": the iterators of a generator that lives to the end of
    the test *)
Definition test_stl (fuel : nat) : outcome heap :=
  let '(range, h) := call 0 (∅ : gmap addr (frame Z Z)) in
  '(it, h) ← begin_ (make_range 5) range h;
  '(sum, h) ← accumulate_iter 5 fuel it 0 h;
  _ ← require_ten sum;
  destructor range h.

(** "... range-compatible": a temporary generator *)
Definition test_range (fuel : nat) : outcome heap :=
  let '(tmp, h) := call 0 (∅ : gmap addr (frame Z Z)) in
  '(sum, h) ← accumulate_range 5 fuel tmp 0 h;
  h ← destructor tmp h;
  _ ← require_ten sum;
  Ret h.

(** The unit tests pass and leave no frame. *)
Example generator_tests_pass : test_stl 10 = Ret ∅ /\ test_range 10 = Ret ∅.
Proof. split; vm_compute; reflexivity. Qed.

Lemma make_range_produces n b e : (Z.to_nat (e - b) = n)%nat -> produces (make_range e) b (seqZ b (e - b)) Finished.
Proof.
  revert b. induction n as [|n IH]; intros b Hn.
  - rewrite seqZ_nil by lia. apply produces_finish. unfold make_range. by rewrite decide_False by lia.
  - rewrite seqZ_cons by lia. apply produces_yield with (s' := b + 1).
    + unfold make_range. by rewrite decide_True by lia.
    + replace (Z.pred (e - b)) with (e - Z.succ b) by lia. apply IH. lia.
Qed.

Lemma int_add_small x y : int_min <= x + y <= int_max -> int_add x y = Ret (x + y).
Proof. intros H. unfold int_add. by rewrite decide_True. Qed.

Lemma fold_int_add_small l acc :
  0 <= acc -> Forall (fun x => 0 <= x) l -> acc + foldr Z.add 0 l <= int_max ->
  fold_outcome int_add acc l = Ret (acc + foldr Z.add 0 l).
Proof.
  revert acc. induction l as [|x l IH]; intros acc Ha Hl Hm; cbn in *; [by rewrite Z.add_0_r|].
  inversion_clear Hl as [|? ? Hx Hl'].
  assert (0 <= foldr Z.add 0 l) by (clear -Hl'; induction Hl'; cbn; lia).
  rewrite int_add_small by (unfold int_min; lia). run_bind.
  rewrite IH by (done || lia). f_equal. lia.
Qed.

Lemma sum_seqZ n b : 0 <= n -> 2 * foldr Z.add 0 (seqZ b n) = n * (2 * b + n - 1).
Proof.
  intros Hn. revert b. pattern n. apply natlike_ind; [by intros b|clear n Hn|done].
  intros n Hn IH b. rewrite seqZ_cons by lia. rewrite Z.pred_succ. cbn [foldr].
  specialize (IH (Z.succ b)). nia.
Qed.

(** [accumulate_range(make_range(b, e), init)] is the
    sum of the integers from [b] to [e] on top of [init], twice of which is
    [2 init + (e - b)(b + e - 1)], as long as the total fits an [int]; one
    step of fuel per element and one more is enough. *)
Theorem accumulate_range_sum b e init h g h' fuel :
  0 <= b <= e -> 0 <= init -> 2 * init + (e - b) * (b + e - 1) <= 2 * int_max ->
  call b h = (g, h') -> (Z.to_nat (e - b) < fuel)%nat ->
  exists sum, 2 * sum = 2 * init + (e - b) * (b + e - 1) /\
    ('(s, _) ← accumulate_range e fuel g init h'; Ret s) = Ret sum.
Proof.
  intros Hb Hi Hm [= <- <-] Hf. pose proof (sum_seqZ (e - b) b ltac:(lia)) as Hs.
  exists (init + foldr Z.add 0 (seqZ b (e - b))). split; [nia|].
  unfold accumulate_range. rewrite <- (range_for_produces _ _ _ (seqZ b (e - b)) b Finished).
  - rewrite fold_int_add_small; [done|done| |nia].
    apply Forall_forall. intros x Hx%elem_of_seqZ. lia.
  - by apply (make_range_produces (Z.to_nat (e - b))).
  - apply lookup_insert_eq.
  - by rewrite length_seqZ.
Qed.

Lemma generator_range_for_witness :
  ('(s, _) ← range_for (make_range 5) 6 int_add (Some 1%positive) 0 (call 0 ∅).2; Ret s) =
  (s ← fold_outcome int_add 0 [0; 1; 2; 3; 4]; finish Finished s).
Proof.
  apply (generator_range_for (make_range 5) int_add 0 [0; 1; 2; 3; 4] Finished 0 ∅ (Some 1%positive)).
  - exact (make_range_produces 5 0 5 eq_refl).
  - reflexivity.
  - cbn. lia.
Defined.

Lemma accumulate_range_sum_witness : exists sum, 2 * sum = 2 * 1 + (5 - 2) * (2 + 5 - 1) /\
    ('(s, _) ← accumulate_range 5 4 (Some 1%positive) 1 (call 2 ∅).2; Ret s) = Ret sum.
Proof.
  apply (accumulate_range_sum 2 5 1 ∅ (Some 1%positive)); [lia|lia|unfold int_max; lia|reflexivity|cbn; lia].
Defined.
End Driver.
End Generator.
