(* ===== verification/UniqueResource.v ===== *)
(** * UniqueResource: libcoro/nix/unique_fd.hpp and libcoro/win/unique_handle.hpp

    The RAII wrappers of file descriptors and of Windows handles. A world is
    the store of wrapper objects and the set of handles the system has open;
    closing a handle that is not open is the fault the wrappers exist to
    prevent. [HandleOps] is the interface the two classes share and
    [HandleLaws] what it promises; a program of wrapper operations is proved
    safe against the interface, then instantiated for each class. *)

From S2P Require Import Prelude.
Local Open Scope Z_scope.

(** ** The store of wrappers and the system's open handles *)

Record world := World { objs : gmap addr Z; os : gset Z }.

(** [::close], [::CloseHandle], [::CloseThreadpoolTimer] *)
Definition close_raw (v : Z) (w : world) : outcome world :=
  if decide (v ∈ os w) then Ret (World (objs w) (os w ∖ {[v]})) else Fault DoubleDestroy.

(** Reading and writing the member that holds the handle. *)
Definition member (a : addr) (w : world) : outcome Z := or_fault Dangling (objs w !! a).
Definition set_member (a : addr) (v : Z) (w : world) : world := World (<[a := v]> (objs w)) (os w).

(** End of an object's lifetime. *)
Definition end_lifetime (a : addr) (w : world) : world := World (delete a (objs w)) (os w).

(** What both classes offer. *)
Class HandleOps := {
  invalid : Z;
  h_construct : addr -> Z -> world -> world;
  h_move : addr -> addr -> world -> outcome world;
  h_assign : addr -> addr -> world -> outcome world;
  h_destroy : addr -> world -> outcome world;
  h_release : addr -> world -> outcome (Z * world);
  h_put : addr -> world -> outcome world;
  h_bool : addr -> world -> outcome bool;
}.

(** ** unique_fd *)
Module UniqueFd.

(** [::close(fd)] in the private [close()], which leaves [fd] as it is. *)
Definition close (a : addr) (w : world) : outcome world :=
  fd ← member a w;
  if decide (fd <> -1) then close_raw fd w else Ret w.

Definition unique_fd (a : addr) (fd_ : Z) (w : world) : world := set_member a fd_ w.

Definition move (a ufd : addr) (w : world) : outcome world :=
  fd ← member ufd w;
  Ret (set_member ufd (-1) (set_member a fd w)).

Definition assign (a ufd : addr) (w : world) : outcome world :=
  if decide (ufd <> a) then
    w ← close a w;
    fd ← member ufd w;
    Ret (set_member ufd (-1) (set_member a fd w))
  else Ret w.

Definition destructor (a : addr) (w : world) : outcome world :=
  w ← close a w;
  Ret (end_lifetime a w).

Definition get (a : addr) (w : world) : outcome Z := member a w.

(** [put()] hands out the address of the member and changes nothing. *)
Definition put (a : addr) (w : world) : outcome world := _ ← member a w; Ret w.

Definition release (a : addr) (w : world) : outcome (Z * world) :=
  tmp ← member a w;
  Ret (tmp, set_member a (-1) w).

Definition operator_bool (a : addr) (w : world) : outcome bool :=
  fd ← member a w; Ret (bool_decide (fd <> -1)).

#[export] Instance ops : HandleOps := {|
  invalid := -1;
  h_construct := unique_fd;
  h_move := move;
  h_assign := assign;
  h_destroy := destructor;
  h_release := release;
  h_put := put;
  h_bool := operator_bool;
|}.
End UniqueFd.

(** ** unique_handle *)
Module UniqueHandle.

(** [Traits::invalid()] as a word: 0 for [null_handle_traits] and
    [tp_timer_handle_traits], all ones for [invalid_handle_traits]. *)
Inductive traits := null_handle_traits | invalid_handle_traits | tp_timer_handle_traits.

Definition traits_invalid (t : traits) : Z :=
  match t with
  | null_handle_traits => 0
  | invalid_handle_traits => size_max
  | tp_timer_handle_traits => 0
  end.

Section Traits.
Context (t : traits).

Definition unique_handle (a : addr) (value : Z) (w : world) : world := set_member a value w.

Definition is_valid (a : addr) (w : world) : outcome bool :=
  m_value ← member a w; Ret (bool_decide (m_value <> traits_invalid t)).

Definition close (a : addr) (w : world) : outcome world :=
  ok ← is_valid a w;
  m_value ← member a w;
  if (ok : bool) then close_raw m_value w else Ret w.

Definition destructor (a : addr) (w : world) : outcome world :=
  w ← close a w;
  Ret (end_lifetime a w).

Definition release (a : addr) (w : world) : outcome (Z * world) :=
  value ← member a w;
  Ret (value, set_member a (traits_invalid t) w).

Definition move (a other : addr) (w : world) : outcome world :=
  '(v, w) ← release other w;
  Ret (set_member a v w).

Definition reset (a : addr) (value : Z) (w : world) : outcome (bool * world) :=
  m_value ← member a w;
  w ← (if decide (m_value <> value) then w ← close a w; Ret (set_member a value w) else Ret w);
  ok ← is_valid a w;
  Ret (ok, w).

Definition assign (a rhs : addr) (w : world) : outcome world :=
  '(v, w) ← release rhs w;
  '(_, w) ← reset a v w;
  Ret w.

Definition get (a : addr) (w : world) : outcome Z := member a w.

(** [put()] and [operator&]: the member is closed and invalidated before its
    address is handed out. *)
Definition put (a : addr) (w : world) : outcome world :=
  w ← close a w;
  Ret (set_member a (traits_invalid t) w).

Definition swap (a other : addr) (w : world) : outcome world :=
  x ← member a w;
  y ← member other w;
  Ret (set_member other x (set_member a y w)).

Definition ops : HandleOps := {|
  invalid := traits_invalid t;
  h_construct := unique_handle;
  h_move := move;
  h_assign := assign;
  h_destroy := destructor;
  h_release := release;
  h_put := put;
  h_bool := is_valid;
|}.
End Traits.
End UniqueHandle.

(** ** Ownership *)

(** Every open handle is held by exactly one wrapper or is loose, that is, in
    the hands of the program; wrappers hold open handles or the invalid one. *)
Record owned (inv : Z) (w : world) (loose : gset Z) : Prop := {
  owned_open a v : objs w !! a = Some v -> v <> inv -> v ∈ os w;
  owned_not_loose a v : objs w !! a = Some v -> v ∉ loose \/ v = inv;
  owned_once a b v : objs w !! a = Some v -> objs w !! b = Some v -> v <> inv -> a = b;
  loose_open : loose ⊆ os w;
  open_held v : v ∈ os w -> v ∈ loose \/ exists a, objs w !! a = Some v;
  invalid_closed : inv ∉ os w;
}.

(** [v] can be closed by its wrapper. *)
Definition closable (inv v : Z) (w : world) : Prop := v = inv \/ v ∈ os w.

Definition closing (m : gmap addr Z) (v : Z) (w : world) : world := World m (os w ∖ {[v]}).

Class HandleLaws `{HandleOps} (put_ok : Z -> bool) := {
  law_construct a v w : h_construct a v w = set_member a v w;
  law_move a b v w : a <> b -> objs w !! b = Some v ->
    h_move a b w = Ret (set_member b invalid (set_member a v w));
  law_assign a b d v w : a <> b -> objs w !! a = Some d -> objs w !! b = Some v ->
    invalid ∉ os w -> closable invalid d w -> (d = v -> d = invalid) ->
    h_assign a b w = Ret (closing (<[b := invalid]> (<[a := v]> (objs w))) d w);
  law_assign_self a v w : objs w !! a = Some v -> h_assign a a w = Ret w;
  law_destroy a v w : objs w !! a = Some v -> invalid ∉ os w -> closable invalid v w ->
    h_destroy a w = Ret (closing (delete a (objs w)) v w);
  law_release a v w : objs w !! a = Some v -> h_release a w = Ret (v, set_member a invalid w);
  law_put a v w : objs w !! a = Some v -> invalid ∉ os w -> closable invalid v w -> put_ok v ->
    h_put a w = Ret (closing (<[a := invalid]> (objs w)) v w);
  law_bool a v w : objs w !! a = Some v -> h_bool a w = Ret (bool_decide (v <> invalid));
}.

Lemma member_Some a v w : objs w !! a = Some v -> member a w = Ret v.
Proof. intros E. unfold member. by rewrite E. Qed.
Lemma closing_invalid v m w : v ∉ os w -> closing m v w = World m (os w).
Proof. intros Hv. unfold closing. f_equal. set_solver. Qed.
Lemma close_raw_open v w : v ∈ os w -> close_raw v w = Ret (closing (objs w) v w).
Proof. intros Hv. unfold close_raw. by rewrite decide_True. Qed.
Lemma set_member_same a v w : objs w !! a = Some v -> set_member a v w = w.
Proof. intros E. unfold set_member. destruct w; cbn in *. by rewrite insert_id. Qed.
#[local] Hint Resolve member_Some : core.

Ltac see_member :=
  repeat match goal with
    | |- context [member ?a ?w] =>
        erewrite (member_Some a _ w)
          by (cbn; rewrite ?lookup_insert_eq, ?lookup_insert_ne by congruence; eassumption || reflexivity)
    end; run_bind.

Lemma fd_close_spec a v w :
  objs w !! a = Some v -> -1 ∉ os w -> closable (-1) v w ->
  UniqueFd.close a w = Ret (closing (objs w) v w).
Proof.
  intros E Hi Hc. unfold UniqueFd.close. rewrite (member_Some _ _ _ E). run_bind. case_decide as Hv.
  - destruct Hc as [->|Hc]; [done|]. by apply close_raw_open.
  - assert (v = -1) as -> by lia. rewrite closing_invalid by done. by destruct w.
Qed.

#[export] Instance fd_laws : HandleLaws (H := UniqueFd.ops) (fun v => bool_decide (v = -1)).
Proof.
  split; cbn.
  - done.
  - intros a b v w _ E. unfold UniqueFd.move. by rewrite (member_Some _ _ _ E).
  - intros a b d v w Hab Ea Eb Hi Hc _. unfold UniqueFd.assign. rewrite decide_True by congruence.
    rewrite (fd_close_spec a d w Ea Hi Hc). run_bind. by rewrite (member_Some b v).
  - intros a v w E. unfold UniqueFd.assign. by rewrite decide_False by tauto.
  - intros a v w E Hi Hc. unfold UniqueFd.destructor. by rewrite (fd_close_spec a v w E Hi Hc).
  - intros a v w E. unfold UniqueFd.release. by rewrite (member_Some _ _ _ E).
  - intros a v w E Hi _ ->%bool_decide_unpack. unfold UniqueFd.put. rewrite (member_Some _ _ _ E). run_bind.
    rewrite closing_invalid by done. rewrite insert_id by done. by destruct w.
  - intros a v w E. unfold UniqueFd.operator_bool. by rewrite (member_Some _ _ _ E).
Qed.

Section Handle.
Context (t : UniqueHandle.traits).
Abbreviation inv := (UniqueHandle.traits_invalid t).

Lemma handle_close_spec a v w :
  objs w !! a = Some v -> inv ∉ os w -> closable inv v w ->
  UniqueHandle.close t a w = Ret (closing (objs w) v w).
Proof.
  intros E Hi Hc. unfold UniqueHandle.close, UniqueHandle.is_valid. rewrite (member_Some _ _ _ E). run_bind.
  case_bool_decide as Hv.
  - destruct Hc as [->|Hc]; [done|]. by apply close_raw_open.
  - subst v. rewrite closing_invalid by done. by destruct w.
Qed.

(** [reset] takes the value, closes what the wrapper held unless it is the same
    handle, and says whether the wrapper is valid now. *)
Lemma handle_reset_spec a d v w :
  objs w !! a = Some d -> inv ∉ os w -> closable inv d w ->
  UniqueHandle.reset t a v w =
    Ret (bool_decide (v <> inv), if decide (d = v) then w else closing (<[a := v]> (objs w)) d w).
Proof.
  intros E Hi Hc. unfold UniqueHandle.reset. rewrite (member_Some _ _ _ E). run_bind.
  destruct (decide (d = v)) as [->|Hd].
  - rewrite decide_False by tauto. run_bind. unfold UniqueHandle.is_valid. by rewrite (member_Some _ _ _ E).
  - rewrite decide_True by done. rewrite (handle_close_spec _ d) by done. run_bind.
    unfold UniqueHandle.is_valid. rewrite (member_Some _ v) by apply lookup_insert_eq. done.
Qed.

#[export] Instance handle_laws : HandleLaws (H := UniqueHandle.ops t) (fun _ => true).
Proof.
  split; cbn.
  - done.
  - intros a b v w Hab E. unfold UniqueHandle.move, UniqueHandle.release. rewrite (member_Some _ _ _ E). run_bind.
    unfold set_member. cbn. by rewrite insert_insert_ne by done.
  - intros a b d v w Hab Ea Eb Hi Hc Hdv. unfold UniqueHandle.assign, UniqueHandle.release.
    rewrite (member_Some _ _ _ Eb). run_bind.
    rewrite (handle_reset_spec a d) by (try done; cbn; by rewrite lookup_insert_ne by congruence).
    run_bind. destruct (decide (d = v)) as [<-|Hd].
    + rewrite (Hdv eq_refl) in *. rewrite closing_invalid by done. unfold set_member.
      by rewrite (insert_id (objs w) a) by done.
    + unfold closing, set_member. cbn. by rewrite insert_insert_ne by congruence.
  - intros a v w E. unfold UniqueHandle.assign, UniqueHandle.release. rewrite (member_Some _ _ _ E). run_bind.
    unfold UniqueHandle.reset, UniqueHandle.close, UniqueHandle.is_valid.
    rewrite (member_Some _ inv) by apply lookup_insert_eq. run_bind.
    rewrite (bool_decide_eq_false_2 (inv <> inv)) by tauto. run_bind.
    destruct (decide (inv <> v)) as [Hv|Hv]; run_bind.
    + rewrite (member_Some _ v) by apply lookup_insert_eq. run_bind. f_equal.
      unfold set_member. cbn. rewrite insert_insert_eq, insert_id by done. by destruct w.
    + rewrite (member_Some _ inv) by apply lookup_insert_eq. run_bind. f_equal.
      apply set_member_same. rewrite E. f_equal. symmetry. by apply dec_stable.
  - intros a v w E Hi Hc. unfold UniqueHandle.destructor. by rewrite (handle_close_spec a v w E Hi Hc).
  - intros a v w E. unfold UniqueHandle.release. by rewrite (member_Some _ _ _ E).
  - intros a v w E Hi Hc _. unfold UniqueHandle.put. by rewrite (handle_close_spec a v w E Hi Hc).
  - intros a v w E. unfold UniqueHandle.is_valid. by rewrite (member_Some _ _ _ E).
Qed.
End Handle.

(** ** How the elementary changes act on ownership *)
Section Owned.
Context (inv : Z).
Abbreviation owned := (owned inv).

(** No handle is lost when the member of [a] is overwritten. *)
Definition vacant (a : addr) (w : world) : Prop := forall v, objs w !! a = Some v -> v = inv.

Ltac lookups :=
  repeat match goal with
    | H : <[_ := _]> _ !! _ = Some _ |- _ => apply lookup_insert_Some in H as [[? ?]|[? H]]; subst
    | H : delete _ _ !! _ = Some _ |- _ => apply lookup_delete_Some in H as [? H]
    end.

Lemma owned_adopt a v w l : owned w l -> vacant a w -> v ∈ l -> owned (set_member a v w) (l ∖ {[v]}).
Proof.
  intros [O N U L H I] Ha Hv. assert (v ∈ os w) as Hos by set_solver.
  split; unfold set_member; cbn [objs os].
  - intros b x Hb Hx. lookups; [done|eauto].
  - intros b x Hb. lookups; [set_solver|]. destruct (N b x Hb); [set_solver|by right].
  - intros b c x Hb Hc Hx. lookups; try done; [..|eauto].
    + destruct (N b _ Hb); done.
    + destruct (N c _ Hc); done.
  - set_solver.
  - intros x Hx. destruct (H x Hx) as [Hl|[b Hb]].
    + destruct (decide (x = v)) as [->|]; [right; exists a; apply lookup_insert_eq|set_solver].
    + right. exists b. rewrite lookup_insert_ne; [done|]. intros <-. apply Ha in Hb as ->. done.
  - done.
Qed.

Lemma owned_null a w l : owned w l -> vacant a w -> owned (set_member a inv w) l.
Proof.
  intros [O N U L H I] Ha. split; unfold set_member; cbn [objs os].
  - intros b x Hb Hx. lookups; [done|eauto].
  - intros b x Hb. lookups; [by right|eauto].
  - intros b c x Hb Hc Hx. lookups; try done. eauto.
  - done.
  - intros x Hx. destruct (H x Hx) as [Hl|[b Hb]]; [by left|]. right. exists b.
    rewrite lookup_insert_ne; [done|]. intros <-. apply Ha in Hb as ->. done.
  - done.
Qed.

Lemma owned_release a v w l :
  owned w l -> objs w !! a = Some v ->
  owned (set_member a inv w) (if decide (v = inv) then l else {[v]} ∪ l).
Proof.
  intros Ow Ea. destruct (decide (v = inv)) as [->|Hv].
  { apply owned_null; [done|]. intros x Hx. congruence. }
  destruct Ow as [O N U L H I]. split; unfold set_member; cbn [objs os].
  - intros b x Hb Hx. lookups; [done|eauto].
  - intros b x Hb. lookups; [by right|]. destruct (decide (x = inv)) as [->|Hx]; [by right|left].
    destruct (N b x Hb); [|done]. assert (x <> v) by (intros ->; eauto). set_solver.
  - intros b c x Hb Hc Hx. lookups; try done. eauto.
  - specialize (O a v Ea Hv). set_solver.
  - intros x Hx. destruct (H x Hx) as [Hl|[b Hb]]; [set_solver|].
    destruct (decide (b = a)) as [->|Hba]; [left; assert (x = v) as -> by congruence; set_solver|].
    right. exists b. by rewrite lookup_insert_ne.
  - done.
Qed.

Lemma owned_close_loose v w l : owned w l -> v ∈ l -> owned (closing (objs w) v w) (l ∖ {[v]}).
Proof.
  intros [O N U L H I] Hv. split; unfold closing; cbn [objs os].
  - intros b x Hb Hx. destruct (N b x Hb); [|done]. specialize (O b x Hb Hx). set_solver.
  - intros b x Hb. destruct (N b x Hb); [set_solver|by right].
  - eauto.
  - set_solver.
  - intros x Hx. destruct (H x) as [?|?]; [set_solver..|by right].
  - set_solver.
Qed.

Lemma owned_vacate a v w l :
  owned w l -> objs w !! a = Some v -> owned (closing (<[a := inv]> (objs w)) v w) l.
Proof.
  intros Ow Ea. pose proof (owned_release a v w l Ow Ea) as Or. case_decide as Hv.
  - subst v. rewrite closing_invalid by apply Ow. exact Or.
  - apply owned_close_loose with (v := v) in Or; [|set_solver].
    replace (({[v]} ∪ l) ∖ {[v]}) with l in Or; [exact Or|].
    destruct (owned_not_loose _ _ _ Ow a v Ea) as [Hl|]; [|done]. set_solver.
Qed.

Lemma owned_transfer a b v w l :
  owned w l -> a <> b -> vacant a w -> objs w !! b = Some v ->
  owned (set_member b inv (set_member a v w)) l.
Proof.
  intros Ow Hab Ha Eb. pose proof (owned_release b v w l Ow Eb) as Or. unfold set_member in *. cbn [objs os] in *.
  rewrite insert_insert_ne by congruence.
  assert (vacant a (World (<[b := inv]> (objs w)) (os w))) as Hv.
  { intros x Hx. cbn in Hx. rewrite lookup_insert_ne in Hx by congruence. eauto. }
  case_decide as E; [subst v; exact (owned_null a _ l Or Hv)|].
  apply (owned_adopt a v) in Or; [|exact Hv|set_solver].
  replace (({[v]} ∪ l) ∖ {[v]}) with l in Or; [exact Or|].
  destruct (owned_not_loose _ _ _ Ow b v Eb) as [Hl|]; [|done]. set_solver.
Qed.

Lemma owned_end a w l : owned w l -> vacant a w -> owned (end_lifetime a w) l.
Proof.
  intros [O N U L H I] Ha. split; unfold end_lifetime; cbn [objs os].
  - intros b x Hb Hx. lookups. eauto.
  - intros b x Hb. lookups. eauto.
  - intros b c x Hb Hc Hx. lookups. eauto.
  - done.
  - intros x Hx. destruct (H x Hx) as [Hl|[b Hb]]; [by left|]. right. exists b.
    rewrite lookup_delete_ne; [done|]. intros <-. apply Ha in Hb as ->. done.
  - done.
Qed.

Lemma owned_destroy a v w l :
  owned w l -> objs w !! a = Some v -> owned (closing (delete a (objs w)) v w) l.
Proof.
  intros Ow Ea. pose proof (owned_vacate a v w l Ow Ea) as Ov. apply (owned_end a) in Ov.
  - unfold end_lifetime, closing in Ov. cbn in Ov. by rewrite delete_insert_eq in Ov.
  - intros x Hx. cbn in Hx. rewrite lookup_insert_eq in Hx. congruence.
Qed.

Lemma owned_opened v w l :
  owned w l -> v ∉ os w -> v <> inv -> owned (World (objs w) ({[v]} ∪ os w)) ({[v]} ∪ l).
Proof.
  intros [O N U L H I] Hv Hi. split; cbn [objs os].
  - intros b x Hb Hx. specialize (O b x Hb Hx). set_solver.
  - intros b x Hb. destruct (decide (x = inv)) as [->|Hx]; [by right|]. specialize (O b x Hb Hx).
    destruct (N b x Hb); [|done]. left. set_solver.
  - eauto.
  - set_solver.
  - intros x Hx. apply elem_of_union in Hx as [Hx|Hx]; [set_solver|]. destruct (H x Hx); [set_solver|by right].
  - set_solver.
Qed.

Lemma owned_closable a v w l : owned w l -> objs w !! a = Some v -> closable inv v w.
Proof. intros [O _ _ _ _ _] E. destruct (decide (v = inv)); [by left|right]. eauto. Qed.
End Owned.

(** ** Programs that use wrappers *)

Inductive client_op :=
| Open (v : Z)                 (* the system opens a handle *)
| CloseLoose (v : Z)           (* the program closes a handle itself *)
| Construct (a : addr) (v : Z) (* wraps a loose handle *)
| Default (a : addr)
| Move (a b : addr)
| Assign (a b : addr)
| Release (a : addr)
| Destroy (a : addr)
| PutWrite (a : addr) (v : Z). (* the system opens a handle through put() *)

Section Client.
Context `{Laws : HandleLaws}.

Abbreviation state := (world * gset Z)%type.

(** What the program has to respect: lifetimes, and that it wraps or closes
    only handles in its own hands. *)
Definition allowed (op : client_op) (s : state) : Prop :=
  let '(w, loose) := s in
  match op with
  | Open v => v ∉ os w /\ v <> invalid
  | CloseLoose v => v ∈ loose
  | Construct a v => objs w !! a = None /\ v ∈ loose
  | Default a => objs w !! a = None
  | Move a b => objs w !! a = None /\ is_Some (objs w !! b)
  | Assign a b => is_Some (objs w !! a) /\ is_Some (objs w !! b)
  | Release a | Destroy a => is_Some (objs w !! a)
  | PutWrite a v => (exists x, objs w !! a = Some x /\ put_ok x) /\ v ∉ os w /\ v <> invalid
  end.

Definition execute (op : client_op) (s : state) : outcome state :=
  let '(w, loose) := s in
  match op with
  | Open v => Ret (World (objs w) ({[v]} ∪ os w), {[v]} ∪ loose)
  | CloseLoose v => w ← close_raw v w; Ret (w, loose ∖ {[v]})
  | Construct a v => Ret (h_construct a v w, loose ∖ {[v]})
  | Default a => Ret (h_construct a invalid w, loose)
  | Move a b => w ← h_move a b w; Ret (w, loose)
  | Assign a b => w ← h_assign a b w; Ret (w, loose)
  | Release a => '(v, w) ← h_release a w; Ret (w, if decide (v = invalid) then loose else {[v]} ∪ loose)
  | Destroy a => w ← h_destroy a w; Ret (w, loose)
  | PutWrite a v => w ← h_put a w; Ret (set_member a v (World (objs w) ({[v]} ∪ os w)), loose)
  end.

Fixpoint run (ops : list client_op) (s : state) : outcome state :=
  match ops with
  | [] => Ret s
  | op :: ops => s ← execute op s; run ops s
  end.

(** A program all of whose operations are allowed when it makes them. *)
Fixpoint well_behaved (ops : list client_op) (s : state) : Prop :=
  match ops with
  | [] => True
  | op :: ops => allowed op s /\ forall s', execute op s = Ret s' -> well_behaved ops s'
  end.

Lemma vacant_None a w : objs w !! a = None -> vacant invalid a w.
Proof. intros E v Hv. congruence. Qed.

Lemma assign_ok a b w l :
  owned invalid w l -> is_Some (objs w !! a) -> is_Some (objs w !! b) ->
  exists w', h_assign a b w = Ret w' /\ owned invalid w' l.
Proof.
  intros Ow [d Ea] [v Eb]. destruct (decide (a = b)) as [<-|Hab].
  { exists w. split; [by apply law_assign_self with (v := d)|done]. }
  eexists. split.
  - apply (law_assign a b d v); [done..|apply Ow|by eapply owned_closable|].
    intros <-. destruct (decide (d = invalid)); [done|]. destruct Hab. by apply (owned_once _ _ _ Ow a b d).
  - pose proof (owned_vacate _ a d w l Ow Ea) as Ov.
    apply (owned_transfer _ a b v) in Ov.
    + unfold set_member, closing in *. cbn in Ov. by rewrite insert_insert_eq in Ov.
    + done.
    + intros x Hx. cbn in Hx. rewrite lookup_insert_eq in Hx. congruence.
    + cbn. by rewrite lookup_insert_ne.
Qed.

Lemma put_write_ok a x v w l :
  owned invalid w l -> objs w !! a = Some x -> put_ok x -> v ∉ os w -> v <> invalid ->
  exists w', h_put a w = Ret w' /\ owned invalid (set_member a v (World (objs w') ({[v]} ∪ os w'))) l.
Proof.
  intros Ow Ea Hx Hv Hi. eexists. split.
  - apply law_put with (v := x); [done|apply Ow|by eapply owned_closable|done].
  - pose proof (owned_vacate _ a x w l Ow Ea) as Ov.
    apply (owned_opened _ v) in Ov; [|cbn; set_solver|done].
    apply (owned_adopt _ a v) in Ov; [|intros y Hy; cbn in Hy; rewrite lookup_insert_eq in Hy; congruence|set_solver].
    replace (({[v]} ∪ l) ∖ {[v]}) with l in Ov; [exact Ov|].
    assert (v ∉ l) by (intros Hl; apply Hv; by apply (loose_open _ _ _ Ow)). set_solver.
Qed.

(** The interface is enough for every operation to go through and to keep the ownership. *)
Lemma execute_ok op w l :
  owned invalid w l -> allowed op (w, l) ->
  exists w' l', execute op (w, l) = Ret (w', l') /\ owned invalid w' l'.
Proof.
  intros Ow Ha. destruct op as [v|v|a v|a|a b|a b|a|a|a v]; cbn in Ha |- *.
  - destruct Ha as [Hv Hi]. do 2 eexists. split; [done|]. by apply owned_opened.
  - assert (v ∈ os w) as Hv by (by apply (loose_open _ _ _ Ow)). rewrite close_raw_open by done. run_bind.
    do 2 eexists. split; [done|]. by apply owned_close_loose.
  - destruct Ha as [Ea Hv]. rewrite law_construct. do 2 eexists. split; [done|].
    apply owned_adopt; [done|by apply vacant_None|done].
  - rewrite law_construct. do 2 eexists. split; [done|]. apply owned_null; [done|by apply vacant_None].
  - destruct Ha as [Ea [v Eb]]. assert (a <> b) as Hab by congruence. rewrite (law_move a b v w) by done. run_bind.
    do 2 eexists. split; [done|]. apply owned_transfer; [done|done|by apply vacant_None|done].
  - destruct Ha as [Ea Eb]. destruct (assign_ok a b w l Ow Ea Eb) as (w' & -> & Hw'). run_bind. eauto.
  - destruct Ha as [v Ea]. rewrite (law_release a v w Ea). run_bind. do 2 eexists. split; [done|].
    by apply owned_release.
  - destruct Ha as [v Ea]. rewrite (law_destroy a v w); [|done|apply Ow|by eapply owned_closable]. run_bind.
    do 2 eexists. split; [done|]. by apply owned_destroy.
  - destruct Ha as ((x & Ea & Hx) & Hv & Hi). destruct (put_write_ok a x v w l) as (w' & -> & Hw'); [done..|].
    run_bind. eauto.
Qed.

Lemma run_ok ops : forall w l,
  owned invalid w l -> well_behaved ops (w, l) ->
  exists w' l', run ops (w, l) = Ret (w', l') /\ owned invalid w' l'.
Proof.
  induction ops as [|op ops IH]; intros w l Ow Hb; [by exists w, l|].
  destruct Hb as [Ha Hb]. destruct (execute_ok op w l Ow Ha) as (w1 & l1 & E & O1).
  destruct (IH w1 l1 O1 (Hb _ E)) as (w2 & l2 & E2 & O2). exists w2, l2.
  change (run (op :: ops) (w, l)) with (s ← execute op (w, l); run ops s). by rewrite E.
Qed.

Lemma owned_start : owned invalid (World ∅ ∅) ∅.
Proof. by split; cbn; set_solver. Qed.

(** Once every wrapper is destroyed the system has exactly the loose handles open. *)
Lemma owned_end_of_program w l : owned invalid w l -> objs w = ∅ -> os w = l.
Proof.
  intros [O N U L Hh I] E. apply set_eq. intros v. split; [|apply L].
  intros Hv. destruct (Hh v Hv) as [|[a Ha]]; [done|]. by rewrite E, lookup_empty in Ha.
Qed.
End Client.

(** ** The two classes *)

Definition start : world * gset Z := (World ∅ ∅, ∅).

Abbreviation fd_put_ok := (fun v : Z => bool_decide (v = -1)).
Abbreviation handle_put_ok := (fun _ : Z => true).
Abbreviation fd_program := (well_behaved (H := UniqueFd.ops) (put_ok := fd_put_ok)).
Abbreviation handle_program t := (well_behaved (H := UniqueHandle.ops t) (put_ok := handle_put_ok)).

(** Whatever sequence of constructions, moves, move
    assignments (to itself included), releases and destructions a program makes,
    as long as it respects lifetimes, wraps only descriptors it holds and calls
    [put()] only on an empty wrapper: no descriptor is ever closed twice, every
    open descriptor stays held by exactly one wrapper or by the program, and
    when all wrappers are gone no descriptor has leaked. *)
Theorem unique_fd_owns ops :
  fd_program ops start ->
  exists w l, run (H := UniqueFd.ops) ops start = Ret (w, l) /\ owned (-1) w l /\ (objs w = ∅ -> os w = l).
Proof.
  intros Hb. destruct (run_ok (Laws := fd_laws) ops _ _ owned_start Hb) as (w & l & E & Ow).
  exists w, l. split; [done|]. split; [done|]. by apply (owned_end_of_program (H := UniqueFd.ops)).
Qed.

(** C29. Whatever sequence of constructions, moves, move assignments (to itself
    included), releases, [put()]s and destructions a program makes with
    [unique_handle] and any of its three traits, as long as it respects lifetimes
    and wraps only handles it holds: no handle is ever closed twice, every open
    handle stays held by exactly one wrapper or by the program, and when all
    wrappers are gone none has leaked. *)
Theorem unique_handle_owns t ops :
  handle_program t ops start ->
  exists w l, run (H := UniqueHandle.ops t) ops start = Ret (w, l) /\
    owned (UniqueHandle.traits_invalid t) w l /\ (objs w = ∅ -> os w = l).
Proof.
  intros Hb. destruct (run_ok (Laws := handle_laws t) ops _ _ (owned_start (H := UniqueHandle.ops t)) Hb) as (w & l & E & Ow).
  exists w, l. split; [done|]. split; [done|]. by apply (owned_end_of_program (H := UniqueHandle.ops t)).
Qed.

(** [reset(v)] with a handle of the program closes
    what the wrapper held, takes [v] over and answers that the wrapper is valid;
    [reset] to the handle it already holds changes nothing. *)
Theorem handle_reset_correct t a d v w l :
  let inv := UniqueHandle.traits_invalid t in
  owned inv w l -> objs w !! a = Some d -> v ∈ l ->
  UniqueHandle.reset t a d w = Ret (bool_decide (d <> inv), w) /\
  exists w', UniqueHandle.reset t a v w = Ret (true, w') /\ owned inv w' (l ∖ {[v]}) /\
    objs w' = <[a := v]> (objs w) /\ os w' = os w ∖ {[d]}.
Proof.
  intros inv Ow Ea Hv. pose proof (owned_closable _ _ _ _ _ Ow Ea) as Hc.
  assert (v ∈ os w) as Ho by (by apply (loose_open _ _ _ Ow)).
  assert (v <> inv) as Hi by (intros ->; by apply (invalid_closed _ _ _ Ow)).
  assert (d <> v) as Hd by (intros ->; by destruct (owned_not_loose _ _ _ Ow a v Ea)).
  split; [rewrite (handle_reset_spec t a d d w Ea); [by rewrite decide_True|apply Ow|done]|].
  rewrite (handle_reset_spec t a d v w Ea); [|apply Ow|done].
  rewrite decide_False, bool_decide_eq_true_2 by done. eexists. split; [done|]. split; [|done].
  pose proof (owned_vacate _ a d w l Ow Ea) as Ov.
  apply (owned_adopt _ a v) in Ov; [..|done].
  - unfold set_member, closing in Ov. cbn in Ov. by rewrite insert_insert_eq in Ov.
  - intros y Hy. cbn in Hy. rewrite lookup_insert_eq in Hy. congruence.
Qed.

(** [unique_fd::put()] does not close: when the system stores
    a new descriptor through the pointer of a wrapper that holds one, the old
    descriptor stays open and no wrapper and no variable of the program refers
    to it any more. *)
Theorem fd_put_leaks a v v' w l :
  owned (-1) w l -> objs w !! a = Some v -> v <> -1 -> v' ∉ os w ->
  exists w', execute (H := UniqueFd.ops) (PutWrite a v') (w, l) = Ret (w', l) /\
    v ∈ os w' /\ v ∉ l /\ forall b, objs w' !! b <> Some v.
Proof.
  intros Ow Ea Hv Hv'. cbn. unfold UniqueFd.put. rewrite (member_Some a v w Ea). run_bind.
  pose proof (owned_open _ _ _ Ow a v Ea Hv) as Ho. eexists. split; [done|]. cbn [objs os set_member].
  split; [set_solver|]. split; [by destruct (owned_not_loose _ _ _ Ow a v Ea)|].
  intros b Hb. apply lookup_insert_Some in Hb as [[? ?]|[Hab Hb]]; [by subst|].
  by apply Hab, (owned_once _ _ _ Ow a b v).
Qed.

(** *** Witnesses *)

(** Descriptors 3 and 4 are wrapped, one is moved, the other assigned over it. *)
Definition demo_ops : list client_op :=
  [Open 3; Open 4; Construct 1 3; Construct 2 4; Move 3 1; Assign 3 2; Assign 3 3; Release 3;
   Construct 4 4; Destroy 4; Destroy 1; Destroy 2; Destroy 3].

Ltac behave := cbn [well_behaved demo_ops]; repeat first
  [ exact I
  | split; [vm_compute; repeat split; try congruence; eauto; intros Hx; (discriminate Hx || by apply Hx)|]
  | let s := fresh "s" in let E := fresh "E" in intros s E; vm_compute in E; injection E as <- ].

Lemma unique_fd_owns_witness :
  exists w l, run (H := UniqueFd.ops) demo_ops start = Ret (w, l) /\ owned (-1) w l /\ (objs w = ∅ -> os w = l).
Proof. apply (unique_fd_owns demo_ops). behave. Defined.

Lemma unique_handle_owns_witness :
  exists w l, run (H := UniqueHandle.ops UniqueHandle.null_handle_traits) demo_ops start = Ret (w, l) /\
    owned 0 w l /\ (objs w = ∅ -> os w = l).
Proof. apply (unique_handle_owns UniqueHandle.null_handle_traits demo_ops). behave. Defined.

(** Handle 3 wrapped at address 1, handle 4 in the hands of the program. *)
Definition demo_world : world := World {[1%positive := 3]} {[3; 4]}.

Lemma demo_owned inv : inv <> 3 -> inv <> 4 -> owned inv demo_world {[4]}.
Proof.
  intros H3 H4. unfold demo_world. split; cbn [objs os].
  - intros a v [<- <-]%lookup_singleton_Some. set_solver.
  - intros a v [<- <-]%lookup_singleton_Some. set_solver.
  - intros a b v [<- <-]%lookup_singleton_Some [<- _]%lookup_singleton_Some. done.
  - set_solver.
  - intros v [->%elem_of_singleton|?]%elem_of_union; [|by left].
    right. exists 1%positive. apply lookup_singleton_eq.
  - set_solver.
Qed.

Lemma handle_reset_correct_witness :
  UniqueHandle.reset UniqueHandle.null_handle_traits 1%positive 3 demo_world = Ret (true, demo_world) /\
  exists w', UniqueHandle.reset UniqueHandle.null_handle_traits 1%positive 4 demo_world = Ret (true, w') /\
    owned 0 w' ({[4]} ∖ {[4]}) /\
    objs w' = <[1%positive := 4]> (objs demo_world) /\ os w' = os demo_world ∖ {[3]}.
Proof.
  apply (handle_reset_correct UniqueHandle.null_handle_traits 1%positive 3 4 demo_world {[4]}).
  - by apply demo_owned.
  - reflexivity.
  - set_solver.
Defined.

Lemma fd_put_leaks_witness :
  exists w', execute (H := UniqueFd.ops) (PutWrite 1%positive 5) (demo_world, {[4]}) = Ret (w', {[4]}) /\
    3 ∈ os w' /\ 3 ∉ ({[4]} : gset Z) /\ forall b, objs w' !! b <> Some 3.
Proof.
  apply (fd_put_leaks 1%positive 3 5 demo_world {[4]}).
  - by apply demo_owned.
  - reflexivity.
  - lia.
  - set_solver.
Defined.
