(* ===== verification/TimerService.v ===== *)
(** * TimerService: applications/timers/win-iocp/timer_service.hpp, queue.hpp, timer_request.hpp

    Threads post timer requests to a queue; a worker thread sets a waitable
    timer per request and, by asynchronous procedure calls, forwards expired
    timers to a completion port; reactor threads take completions from the port
    and call the completion handlers; [shutdown] closes the service. The
    operating system's part (timers that expire, the worker's APC queue, the
    port) is part of the state. A caller that passes a timer of its own
    ([post_with_handle]) keeps it open; setting a timer that is set already
    cancels its expiration. The queue is at the grain of its mutex and event: a
    thread that pushes takes the mutex, pushes, releases it and sets the event,
    step by step; the worker's turns under the mutex are one step each, but a wait
    for the mutex that an APC has ended lets it in without, and then each of its
    accesses to the buffer is a step. *)

From S2P Require Import Prelude Words.
Local Open Scope Z_scope.

Module TimerService.

(** ** timeout_to_filetime *)

Record FILETIME := Filetime { dwLowDateTime : Z; dwHighDateTime : Z }.

(** [ns] is the count of the duration cast to nanoseconds. *)
Definition timeout_to_filetime (ns : Z) : FILETIME :=
  let ns_incs := Z.quot ns 100 in
  let QuadPart := u64 (-1 * ns_incs) in
  Filetime (u32 QuadPart) (Z.shiftr QuadPart 32).

(** The 64-bit signed number a [FILETIME] stands for: negative for a timeout
    relative to now, in units of 100 ns. *)
Definition filetime_value (ft : FILETIME) : Z :=
  let z := dwHighDateTime ft * 2 ^ 32 + dwLowDateTime ft in
  if decide (z < 2 ^ 63) then z else z - 2 ^ 64.

(** ** State *)

(** A request; [ctx] is the context passed to the completion handler: the
    index of the thread or coroutine that posted it. *)
Record timer_request := Request { timeout : FILETIME; timer_object : addr; ctx : nat; owned_timer : bool }.

(** A thread in [post] or [post_with_handle], or a coroutine in [await_suspend]:
    before the load of the state, before [add_inflight_timer], before the request
    is constructed - with the timer of the caller, or NULL; in [push], with the
    request, before it has the mutex and before it pushes; before [ReleaseMutex] and
    [SetEvent]. *)
Inductive poster :=
| PLoad (timer : ptr) (ns : Z) | PAdd (timer : ptr) (ns : Z) | PSubmit (timer : ptr) (ns : Z)
| PLock (a : addr) | PPush (a : addr) | PRelease | PSet | Posted | Denied.

(** The worker: in [pop], at its wait for the mutex; waiting for the event,
    [woken] once an APC has ended the wait; before [SetWaitableTimer]; in
    [on_shutdown_request], at the wait for the mutex of [try_pop]; before the load of
    the in-flight count; in [SleepEx]. In [pop] or - [draining] - [try_pop] without the
    mutex: before it looks whether the buffer is empty, before it takes the front. *)
Inductive worker_pc :=
| Popping | WaitEvent (woken : bool) | Arming (a : addr) | Draining | DrainArming (a : addr) | Waiting | Sleeping | Exited
| Unlocked (draining : bool) | UnlockedTake (draining : bool).

(** A thread in [run()]. *)
Inductive reactor :=
| RLoad | RTest (state : Z) | RCas (state : Z)
| RGet | RRemove (a : addr) | RCall (a : addr) | RLeave | RDone.

(** A thread in [shutdown()]. *)
Inductive closer := CFetchOr | CQueueApc | CWait | CPost | CReturned.

(** The worker's queue of asynchronous procedure calls, and the port's packets. *)
Inductive apc := Expire (a : addr) | ShutdownApc.
Inductive completion := TimerDone (a : addr) | SHUTDOWN_KEY.

(** [timers] are the timer objects that requests own, [user_timers] those of
    callers. [superseded] keeps the requests whose timer has been set again
    before it expired: nothing of the system refers to them any more. *)
Record service := Service {
  n_active_reactors : Z;
  n_inflight_timers : Z;
  requests : list addr;
  non_empty : bool;
  heap : gmap addr timer_request;
  timers : gset addr;
  user_timers : gset addr;
  armed : list addr;
  superseded : list addr;
  apcs : list apc;
  port : list completion;
  worker : worker_pc;
  posters : list poster;
  reactors : list reactor;
  closers : list closer;
  handled : list nat;
}.

(** Construction; the source leaves the in-flight count as it finds it. *)
Definition timer_service (n_inflight : Z) : service :=
  Service 0 n_inflight [] false ∅ ∅ ∅ [] [] [] [] Popping [] [] [] [].

Definition set_word z s := Service z (n_inflight_timers s) (requests s) (non_empty s) (heap s) (timers s) (user_timers s) (armed s) (superseded s) (apcs s)
  (port s) (worker s) (posters s) (reactors s) (closers s) (handled s).
Definition set_inflight z s := Service (n_active_reactors s) z (requests s) (non_empty s) (heap s) (timers s) (user_timers s) (armed s) (superseded s) (apcs s)
  (port s) (worker s) (posters s) (reactors s) (closers s) (handled s).
Definition set_requests q s := Service (n_active_reactors s) (n_inflight_timers s) q (non_empty s) (heap s) (timers s) (user_timers s) (armed s) (superseded s)
  (apcs s) (port s) (worker s) (posters s) (reactors s) (closers s) (handled s).
Definition set_memory h ts s := Service (n_active_reactors s) (n_inflight_timers s) (requests s) (non_empty s) h ts (user_timers s) (armed s) (superseded s)
  (apcs s) (port s) (worker s) (posters s) (reactors s) (closers s) (handled s).
Definition set_kernel ar ap p s := Service (n_active_reactors s) (n_inflight_timers s) (requests s) (non_empty s) (heap s)
  (timers s) (user_timers s) ar (superseded s) ap p (worker s) (posters s) (reactors s) (closers s) (handled s).
Definition set_worker w s := Service (n_active_reactors s) (n_inflight_timers s) (requests s) (non_empty s) (heap s) (timers s) (user_timers s)
  (armed s) (superseded s) (apcs s) (port s) w (posters s) (reactors s) (closers s) (handled s).
Definition set_posters l s := Service (n_active_reactors s) (n_inflight_timers s) (requests s) (non_empty s) (heap s) (timers s) (user_timers s)
  (armed s) (superseded s) (apcs s) (port s) (worker s) l (reactors s) (closers s) (handled s).
Definition set_reactors l s := Service (n_active_reactors s) (n_inflight_timers s) (requests s) (non_empty s) (heap s) (timers s) (user_timers s)
  (armed s) (superseded s) (apcs s) (port s) (worker s) (posters s) l (closers s) (handled s).
Definition set_closers l s := Service (n_active_reactors s) (n_inflight_timers s) (requests s) (non_empty s) (heap s) (timers s) (user_timers s)
  (armed s) (superseded s) (apcs s) (port s) (worker s) (posters s) (reactors s) l (handled s).
Definition set_handled l s := Service (n_active_reactors s) (n_inflight_timers s) (requests s) (non_empty s) (heap s) (timers s) (user_timers s)
  (armed s) (superseded s) (apcs s) (port s) (worker s) (posters s) (reactors s) (closers s) l.
Definition set_user_timers us s := Service (n_active_reactors s) (n_inflight_timers s) (requests s) (non_empty s) (heap s) (timers s) us
  (armed s) (superseded s) (apcs s) (port s) (worker s) (posters s) (reactors s) (closers s) (handled s).
Definition set_superseded l s := Service (n_active_reactors s) (n_inflight_timers s) (requests s) (non_empty s) (heap s) (timers s)
  (user_timers s) (armed s) l (apcs s) (port s) (worker s) (posters s) (reactors s) (closers s) (handled s).

Definition set_non_empty b s := Service (n_active_reactors s) (n_inflight_timers s) (requests s) b (heap s) (timers s)
  (user_timers s) (armed s) (superseded s) (apcs s) (port s) (worker s) (posters s) (reactors s) (closers s) (handled s).

Definition poster_at i p s := set_posters (<[i := p]> (posters s)) s.
Definition reactor_at i p s := set_reactors (<[i := p]> (reactors s)) s.
Definition closer_at i p s := set_closers (<[i := p]> (closers s)) s.

(** ** Operations *)

Definition CLOSED_FLAG : Z := 1.
Definition NEW_REACTOR_INCREMENT : Z := 2.

(** [(state & CLOSED_FLAG) != 0] *)
Definition closed (state : Z) : bool := negb (bool_decide (Z.land state CLOSED_FLAG = 0)).

Definition add_inflight_timer (s : service) : service := set_inflight (u32 (n_inflight_timers s + 1)) s.
Definition remove_inflight_timer (s : service) : service := set_inflight (u32 (n_inflight_timers s - 1)) s.

(** queue.hpp: who has the mutex; what is done to the buffer; and whether the
    worker is in the buffer without the mutex while a thread that has it is
    about to push. *)
Definition holds_mutex (p : poster) : bool := match p with PPush _ | PRelease => true | _ => false end.
Definition mutex_free (s : service) : bool := negb (existsb holds_mutex (posters s)).

Definition push (obj : addr) (s : service) : service := set_requests (requests s ++ [obj]) s.
Definition take (s : service) : option addr * service :=
  match requests s with
  | [] => (None, s)
  | a :: q => (Some a, set_requests q s)
  end.

Definition pushing (p : poster) : bool := match p with PPush _ => true | _ => false end.
Definition unlocked (w : worker_pc) : bool := match w with Unlocked _ | UnlockedTake _ => true | _ => false end.
Definition races (s : service) : bool := unlocked (worker s) && existsb pushing (posters s).

(** [std::make_unique<timer_request>], with a timer object of its own or the
    one of the caller *)
Definition make_request (timer : ptr) (ns : Z) (ctx : nat) (s : service) : addr * service :=
  let a := fresh (dom (heap s)) in
  match timer with
  | None =>
    let t := fresh (timers s ∪ user_timers s) in
    (a, set_memory (<[a := Request (timeout_to_filetime ns) t ctx true]> (heap s)) ({[t]} ∪ timers s) s)
  | Some t => (a, set_memory (<[a := Request (timeout_to_filetime ns) t ctx false]> (heap s)) (timers s) s)
  end.

(** [~timer_request()] and the release of its memory *)
Definition destroy_request (a : addr) (s : service) : outcome service :=
  r ← or_fault DoubleDestroy (heap s !! a);
  ts ← (if owned_timer r
        then if decide (timer_object r ∈ timers s) then Ret (timers s ∖ {[timer_object r]}) else Fault DoubleDestroy
        else Ret (timers s));
  Ret (set_memory (delete a (heap s)) ts s).

(** [post], [post_with_handle] and [await_suspend]: the state's load and test;
    the request's construction; [push], whose wait for the mutex is not alertable. *)
Definition post_load (i : nat) (timer : ptr) (ns : Z) (s : service) : service :=
  poster_at i (if closed (n_active_reactors s) then Denied else PAdd timer ns) s.
Definition post_add (i : nat) (timer : ptr) (ns : Z) (s : service) : service :=
  poster_at i (PSubmit timer ns) (add_inflight_timer s).
Definition post_submit (i : nat) (timer : ptr) (ns : Z) (s : service) : service :=
  let '(a, s) := make_request timer ns i s in poster_at i (PLock a) s.
Definition post_lock (i : nat) (a : addr) (s : service) : option service :=
  if mutex_free s then Some (poster_at i (PPush a) s) else None.
Definition post_push (i : nat) (a : addr) (s : service) : outcome service :=
  if races s then Fault DataRace else Ret (poster_at i PRelease (push a s)).
Definition post_release (i : nat) (s : service) : service := poster_at i PSet s.
Definition post_set_event (i : nat) (s : service) : service := poster_at i Posted (set_non_empty true s).

(** The request [a] uses the timer [t]. *)
Definition uses (s : service) (t a : addr) : Prop := timer_object <$> heap s !! a = Some t.
#[export] Instance uses_dec s t a : Decision (uses s t a).
Proof. unfold uses. apply _. Defined.

(** [SetWaitableTimer(req->timer_object, &req->timeout, 0, on_timer_expiration, req, FALSE)]:
    a timer that is set already is stopped first. *)
Definition set_waitable_timer (a : addr) (s : service) : outcome service :=
  r ← or_fault Dangling (heap s !! a);
  let t := timer_object r in
  Ret (set_superseded (superseded s ++ filter (uses s t) (armed s))
    (set_kernel (filter (fun b => ~ uses s t b) (armed s) ++ [a]) (apcs s) (port s) s)).

(** The [i]-th timer that is set expires: its APC is queued to the worker. *)
Definition expire (i : nat) (s : service) : option service :=
  a ← armed s !! i;
  Some (set_kernel (delete i (armed s)) (apcs s ++ [Expire a]) (port s) s).

Definition on_timer_expiration (a : addr) (s : service) : outcome service :=
  _ ← or_fault Dangling (heap s !! a);
  Ret (set_kernel (armed s) (apcs s) (port s ++ [TimerDone a]) s).

(** An alertable wait of the worker may run the first APC, and is over then: a
    wait for the mutex without the mutex. (Whether a wait that is satisfied at
    once runs the APCs that are queued is left open: it may or may not.)
    [on_shutdown_request] does not return. *)
Definition after_wait (w : worker_pc) : worker_pc :=
  match w with
  | Popping => Unlocked false
  | Draining => Unlocked true
  | WaitEvent _ => WaitEvent true
  | Sleeping => Waiting
  | w => w
  end.
Definition run_apc (s : service) : option (outcome service) :=
  match apcs s with
  | [] => None
  | c :: cs =>
    let s := set_kernel (armed s) cs (port s) s in
    Some (match c with
          | Expire a => s ← on_timer_expiration a s; Ret (set_worker (after_wait (worker s)) s)
          | ShutdownApc => Ret (set_worker Draining s)
          end)
  end.

(** A turn of [pop] or [try_pop] that has got the mutex: the front is taken, or
    [pop] releases the mutex and waits for the event, and [try_pop] returns. *)
Definition locked_turn (draining : bool) (s : service) : service :=
  match take s with
  | (Some a, s) => set_worker (if draining then DrainArming a else Arming a) s
  | (None, s) => set_worker (if draining then Waiting else WaitEvent false) s
  end.

(** Without the mutex: [SignalObjectAndWait] and [ReleaseMutex] fail. *)
Definition unlocked_test (draining : bool) (s : service) : outcome service :=
  if races s then Fault DataRace
  else Ret (set_worker (if decide (requests s = []) then if draining then Waiting else Popping else UnlockedTake draining) s).
Definition unlocked_take (draining : bool) (s : service) : outcome service :=
  if races s then Fault DataRace
  else match take s with
       | (Some a, s) => Ret (set_worker (if draining then DrainArming a else Arming a) s)
       | (None, _) => Fault OutOfBounds
       end.

(** A step of the worker; [alert] when its wait runs an APC. *)
Definition worker_step (alert : bool) (s : service) : option (outcome service) :=
  match worker s, alert with
  | Popping, false => if mutex_free s then Some (Ret (locked_turn false s)) else None
  | Popping, true => run_apc s
  | WaitEvent woken, false => if non_empty s || woken then Some (Ret (set_worker Popping s)) else None
  | WaitEvent _, true => run_apc s
  | Arming a, false => Some (s ← set_waitable_timer a s; Ret (set_worker Popping s))
  | Draining, false => if mutex_free s then Some (Ret (locked_turn true s)) else None
  | Draining, true => run_apc s
  | DrainArming a, false => Some (s ← set_waitable_timer a s; Ret (set_worker Draining s))
  | Waiting, false => Some (Ret (set_worker (if decide (n_inflight_timers s > 0) then Sleeping else Exited) s))
  | Sleeping, true => run_apc s
  | Unlocked draining, false => Some (unlocked_test draining s)
  | Unlocked _, true => run_apc s
  | UnlockedTake draining, false => Some (unlocked_take draining s)
  | _, _ => None
  end.

(** [try_enter_reactor]: the loop goes on when the exchange has succeeded, with
    the expected value it had; it ends when the exchange has failed. *)
Definition enter_test (i : nat) (state : Z) (s : service) : service :=
  reactor_at i (if closed state then RDone else RCas state) s.
Definition enter_cas (i : nat) (state : Z) (spurious : bool) (s : service) : service :=
  if decide (n_active_reactors s = state /\ spurious = false)
  then reactor_at i (RTest state) (set_word (u32 (state + NEW_REACTOR_INCREMENT)) s)
  else reactor_at i RGet s.

Definition leave_reactor (s : service) : service :=
  set_word (u32 (n_active_reactors s - NEW_REACTOR_INCREMENT)) s.

(** [GetQueuedCompletionStatus] and the test of the key *)
Definition get_completion (i : nat) (s : service) : option service :=
  match port s with
  | [] => None
  | c :: cs =>
    Some (reactor_at i (match c with TimerDone a => RRemove a | SHUTDOWN_KEY => RLeave end)
            (set_kernel (armed s) (apcs s) cs s))
  end.

(** [req->completion_handler(req->ctx)], then the request is destroyed. *)
Definition call_handler (i : nat) (a : addr) (s : service) : outcome service :=
  r ← or_fault Dangling (heap s !! a);
  s ← destroy_request a (set_handled (handled s ++ [ctx r]) s);
  Ret (reactor_at i RGet s).

(** [shutdown] *)
Definition shutdown_fetch_or (i : nat) (s : service) : service :=
  closer_at i (if closed (n_active_reactors s) then CReturned else CQueueApc)
    (set_word (Z.lor (n_active_reactors s) CLOSED_FLAG) s).
Definition queue_user_apc (i : nat) (s : service) : service :=
  closer_at i CWait (set_kernel (armed s) (apcs s ++ [ShutdownApc]) (port s) s).
Definition post_shutdown (i : nat) (s : service) : service :=
  let remaining_reactors := n_active_reactors s in
  closer_at i CReturned
    (set_kernel (armed s) (apcs s) (port s ++ replicate (Z.to_nat remaining_reactors) SHUTDOWN_KEY) s).

(** Who makes the next step. *)
Inductive agent := Worker (alert : bool) | Timer (i : nat) | Poster (i : nat) | Reactor (i : nat) (spurious : bool) | Closer (i : nat).

Definition step (a : agent) (s : service) : option (outcome service) :=
  match a with
  | Worker alert => worker_step alert s
  | Timer i => s ← expire i s; Some (Ret s)
  | Poster i =>
    match posters s !! i with
    | Some (PLoad timer ns) => Some (Ret (post_load i timer ns s))
    | Some (PAdd timer ns) => Some (Ret (post_add i timer ns s))
    | Some (PSubmit timer ns) => Some (Ret (post_submit i timer ns s))
    | Some (PLock a) => s ← post_lock i a s; Some (Ret s)
    | Some (PPush a) => Some (post_push i a s)
    | Some PRelease => Some (Ret (post_release i s))
    | Some PSet => Some (Ret (post_set_event i s))
    | Some (Posted | Denied) | None => None
    end
  | Reactor i spurious =>
    match reactors s !! i with
    | Some RLoad => Some (Ret (reactor_at i (RTest (n_active_reactors s)) s))
    | Some (RTest st) => Some (Ret (enter_test i st s))
    | Some (RCas st) => Some (Ret (enter_cas i st spurious s))
    | Some RGet => s ← get_completion i s; Some (Ret s)
    | Some (RRemove a) => Some (Ret (reactor_at i (RCall a) (remove_inflight_timer s)))
    | Some (RCall a) => Some (call_handler i a s)
    | Some RLeave => Some (Ret (reactor_at i RDone (leave_reactor s)))
    | Some RDone | None => None
    end
  | Closer i =>
    match closers s !! i with
    | Some CFetchOr => Some (Ret (shutdown_fetch_or i s))
    | Some CQueueApc => Some (Ret (queue_user_apc i s))
    | Some CWait => match worker s with Exited => Some (Ret (closer_at i CPost s)) | _ => None end
    | Some CPost => Some (Ret (post_shutdown i s))
    | Some CReturned | None => None
    end
  end.

(** A caller passes no timer, or one it has created. *)
Definition permitted (timer : ptr) (s : service) : Prop :=
  match timer with Some t => t ∈ user_timers s | None => True end.
#[export] Instance permitted_dec timer s : Decision (permitted timer s).
Proof. destruct timer; unfold permitted; apply _. Defined.

(** Threads may start to post, to run the reactor and to shut down at any time,
    and create timers to post with. *)
Inductive service_step : service -> service -> Prop :=
| Run s s' a : step a s = Some (Ret s') -> service_step s s'
| CreateTimer s : service_step s (set_user_timers ({[fresh (timers s ∪ user_timers s)]} ∪ user_timers s) s)
| StartPost s timer ns : permitted timer s ->
    service_step s (set_posters (posters s ++ [PLoad timer ns]) s)
| StartReactor s : service_step s (set_reactors (reactors s ++ [RLoad]) s)
| StartShutdown s : service_step s (set_closers (closers s ++ [CFetchOr]) s).

Definition reachable (n0 : Z) (s : service) : Prop := rtc service_step (timer_service n0) s.

(** ** Where a request is *)

Definition hand (w : worker_pc) : option addr := match w with Arming a | DrainArming a => Some a | _ => None end.
Definition apc_req (c : apc) : option addr := match c with Expire a => Some a | ShutdownApc => None end.
Definition port_req (c : completion) : option addr := match c with TimerDone a => Some a | SHUTDOWN_KEY => None end.
Definition poster_req (p : poster) : option addr := match p with PLock a | PPush a => Some a | _ => None end.
Definition reactor_req (r : reactor) : option addr := match r with RRemove a | RCall a => Some a | _ => None end.

Definition at_addr (a : addr) (o : option addr) : nat :=
  match o with Some b => if decide (b = a) then 1 else 0 | None => 0 end.
Definition some (o : option addr) : nat := match o with Some _ => 1 | None => 0 end.

(** The number of places of the system that hold the request [a]. *)
Definition held (a : addr) (s : service) : nat :=
  sum_list_with (fun p => at_addr a (poster_req p)) (posters s) +
  sum_list_with (fun b => at_addr a (Some b)) (requests s) + at_addr a (hand (worker s)) +
  sum_list_with (fun b => at_addr a (Some b)) (armed s) + sum_list_with (fun b => at_addr a (Some b)) (superseded s) +
  sum_list_with (fun c => at_addr a (apc_req c)) (apcs s) +
  sum_list_with (fun c => at_addr a (port_req c)) (port s) + sum_list_with (fun r => at_addr a (reactor_req r)) (reactors s).

Definition adding (p : poster) : nat := match p with PSubmit _ _ | PLock _ | PPush _ => 1 | _ => 0 end.
Definition removing (r : reactor) : nat := match r with RRemove _ => 1 | _ => 0 end.

(** The number of requests the in-flight count stands for. *)
Definition counted (s : service) : nat :=
  sum_list_with adding (posters s) + length (requests s) + some (hand (worker s)) + length (armed s) +
  length (superseded s) +
  sum_list_with (fun c => some (apc_req c)) (apcs s) + sum_list_with (fun c => some (port_req c)) (port s) +
  sum_list_with removing (reactors s).

(** The caller's timer of a post that is under way. *)
Definition poster_timer (p : poster) : ptr :=
  match p with PLoad timer _ | PAdd timer _ | PSubmit timer _ => timer | _ => null end.

(** The request of the [i]-th post has been constructed. *)
Definition submitted (p : poster) : bool :=
  match p with PLock _ | PPush _ | PRelease | PSet | Posted => true | _ => false end.
Definition submitted_at (ps : list poster) (i : nat) : Prop := exists p, ps !! i = Some p /\ submitted p = true.

(** What is known of the requests that are allocated, whatever place they are in. *)
Record memory_ok (h : gmap addr timer_request) (ts us : gset addr) (ps : list poster) (done : list nat) : Prop := {
  mem_timer a r : h !! a = Some r -> if owned_timer r then timer_object r ∈ ts else timer_object r ∈ us;
  mem_timers a b r r' : h !! a = Some r -> h !! b = Some r' -> owned_timer r = true -> owned_timer r' = true ->
    timer_object r = timer_object r' -> a = b;
  mem_apart t : t ∈ ts -> t ∉ us;
  mem_poster_timer i p t : ps !! i = Some p -> poster_timer p = Some t -> t ∈ us;
  mem_hand i p a : ps !! i = Some p -> poster_req p = Some a -> exists r, h !! a = Some r /\ ctx r = i;
  mem_ctx a r : h !! a = Some r -> submitted_at ps (ctx r) /\ ctx r ∉ done;
  mem_ctxs a b r r' : h !! a = Some r -> h !! b = Some r' -> ctx r = ctx r' -> a = b;
  mem_done i : i ∈ done -> submitted_at ps i;
  mem_done_once : NoDup done;
  mem_posted i : submitted_at ps i -> i ∈ done \/ exists a r, h !! a = Some r /\ ctx r = i;
}.

Definition allocated (a : addr) (h : gmap addr timer_request) : nat := match h !! a with Some _ => 1 | None => 0 end.

(** Only requests with a timer of a caller are superseded. *)
Definition superseded_ok (h : gmap addr timer_request) (l : list addr) : Prop :=
  forall a r, a ∈ l -> h !! a = Some r -> owned_timer r = false.

Record inv (n0 : Z) (s : service) : Prop := {
  inv_memory : memory_ok (heap s) (timers s) (user_timers s) (posters s) (handled s);
  inv_held a : held a s = allocated a (heap s);
  inv_counted : n_inflight_timers s = u32 (n0 + Z.of_nat (counted s));
  inv_superseded : superseded_ok (heap s) (superseded s);
}.

(** The worker finds a request at the front. *)
Definition take_ok (s : service) : Prop := forall d, worker s = UnlockedTake d -> requests s <> [].

Lemma held_alive n0 s a : inv n0 s -> (0 < held a s)%nat -> exists r, heap s !! a = Some r.
Proof. intros Hi Hh. rewrite (inv_held _ _ Hi) in Hh. unfold allocated in Hh. destruct (heap s !! a); [eauto|lia]. Qed.

Lemma mutex_free_spec s : mutex_free s = true <-> forall i p, posters s !! i = Some p -> holds_mutex p = false.
Proof.
  unfold mutex_free. rewrite negb_true_iff, <- not_true_iff_false, existsb_exists. setoid_rewrite <- list_elem_of_In.
  setoid_rewrite list_elem_of_lookup. split.
  - intros H i p Hp. apply not_true_is_false. intros Hh. apply H. by eauto.
  - intros H (p & [i Hp] & Hh). by rewrite (H i p Hp) in Hh.
Qed.

Lemma at_addr_same a : at_addr a (Some a) = 1%nat.
Proof. unfold at_addr. by rewrite decide_True. Qed.

(** Steps that only move a request from one place to another. *)
Lemma timer_inv_move n0 s s' :
  inv n0 s -> heap s' = heap s -> timers s' = timers s -> user_timers s' = user_timers s -> posters s' = posters s ->
  handled s' = handled s -> superseded s' = superseded s -> (forall a, held a s' = held a s) ->
  n_inflight_timers s' = n_inflight_timers s -> counted s' = counted s -> inv n0 s'.
Proof.
  intros [M H C S] Eh Et Eu Ep Ed Es Hh En Ec. split.
  - by rewrite Eh, Et, Eu, Ep, Ed.
  - intros a. by rewrite Hh, Eh.
  - by rewrite En, Ec.
  - by rewrite Eh, Es.
Qed.

(** Sums over places after a step. *)
Ltac places :=
  unfold held, counted in *; cbn [requests worker armed superseded apcs port reactors posters hand apc_req port_req reactor_req
    set_user_timers set_superseded set_word set_inflight set_requests set_memory set_kernel set_worker set_posters set_reactors set_closers
    set_handled set_non_empty poster_at reactor_at closer_at poster_req some adding removing] in *;
  repeat match goal with
    | E : ?l !! ?i = Some ?x |- context [sum_list_with ?f (<[?i := ?y]> ?l)] =>
        lazymatch goal with
        | _ : (sum_list_with f (<[i := y]> l) + _)%nat = _ |- _ => fail
        | _ => pose proof (sum_list_with_insert f l i x y E)
        end
    | E : ?l !! ?i = Some ?x |- context [sum_list_with ?f (delete ?i ?l)] =>
        lazymatch goal with
        | _ : (sum_list_with f (delete i l) + _)%nat = _ |- _ => fail
        | _ => pose proof (sum_list_with_delete f l i x E)
        end
    end;
  rewrite ?sum_list_with_app, ?length_app; cbn [sum_list_with length] in *;
  cbn [hand apc_req port_req reactor_req poster_req some adding removing] in *; unfold at_addr in *; cbv beta iota in *; try lia.

Ltac moves s := apply (timer_inv_move _ s); [assumption|reflexivity..|intros ?; places|reflexivity|places].

Lemma submitted_insert ps i p j :
  (i < length ps)%nat -> submitted_at (<[i := p]> ps) j <-> if decide (j = i) then submitted p = true else submitted_at ps j.
Proof.
  intros Hi. unfold submitted_at. case_decide as Hj; [subst j; rewrite list_lookup_insert_eq by done; naive_solver|].
  by rewrite list_lookup_insert_ne by done.
Qed.

(** The state of one poster changes, other than by submitting its request. *)
Lemma mem_posters h ts us ps ps' done :
  memory_ok h ts us ps done -> (forall j, submitted_at ps' j <-> submitted_at ps j) ->
  (forall j p t, ps' !! j = Some p -> poster_timer p = Some t -> t ∈ us) ->
  (forall j p a, ps' !! j = Some p -> poster_req p = Some a -> exists p', ps !! j = Some p' /\ poster_req p' = Some a) ->
  memory_ok h ts us ps' done.
Proof.
  intros [T Ts A U G C Cs D Do P] Hj Hu Hg. split; try done.
  - intros i p a Hp Ha. destruct (Hg i p a Hp Ha) as (p' & Hp' & Ha'). eauto.
  - intros a r Ha. rewrite Hj. eauto.
  - intros j. rewrite Hj. eauto.
  - intros j. rewrite Hj. eauto.
Qed.

Lemma mem_poster h ts us ps done i p q :
  memory_ok h ts us ps done -> ps !! i = Some p -> submitted q = submitted p ->
  (poster_timer q = null \/ poster_timer q = poster_timer p) -> (poster_req q = None \/ poster_req q = poster_req p) ->
  memory_ok h ts us (<[i := q]> ps) done.
Proof.
  intros M E Hs Ht Hq. apply (mem_posters h ts us ps); [done| | |].
  - intros j. rewrite submitted_insert by (by eapply lookup_lt_Some). case_decide as Hj; [subst j|done]. rewrite Hs.
    unfold submitted_at. rewrite E. naive_solver.
  - intros j x t [(<- & -> & _)|[_ Hx]]%list_lookup_insert_Some Hxt; [|by eapply (mem_poster_timer _ _ _ _ _ M)].
    destruct Ht as [Ht|Ht]; [congruence|]. eapply (mem_poster_timer _ _ _ _ _ M); [exact E|congruence].
  - intros j x a [(<- & -> & _)|[_ Hx]]%list_lookup_insert_Some Hxa; [|by exists x]. exists p. split; [done|].
    destruct Hq as [Hq|Hq]; congruence.
Qed.

Lemma mem_new_poster h ts us ps done p :
  memory_ok h ts us ps done -> submitted p = false -> (forall t, poster_timer p = Some t -> t ∈ us) ->
  memory_ok h ts us (ps ++ [p]) done.
Proof.
  intros M Hp Ht. apply (mem_posters h ts us ps); [done| | |].
  - intros j. unfold submitted_at. setoid_rewrite lookup_app_Some. setoid_rewrite list_lookup_singleton_Some. naive_solver congruence.
  - intros j x t [Hx|[_ Hx]]%lookup_app_Some; [by apply (mem_poster_timer _ _ _ _ _ M j)|].
    apply list_lookup_singleton_Some in Hx as [_ <-]. apply Ht.
  - intros j x a [Hx|[_ Hx]]%lookup_app_Some Hxa; [by exists x|].
    apply list_lookup_singleton_Some in Hx as [_ <-]. by destruct p.
Qed.

Lemma mem_user_timer h ts us ps done t :
  memory_ok h ts us ps done -> t ∉ ts -> memory_ok h ts ({[t]} ∪ us) ps done.
Proof.
  intros [T Ts A U G C Cs D Do P] Ht. split; try done.
  - intros a r Ha. specialize (T a r Ha). destruct (owned_timer r); set_solver.
  - set_solver.
  - intros j x y Hx Hy. specialize (U j x y Hx Hy). set_solver.
Qed.

(** A request is allocated, with a new timer of its own or one of the caller. *)
Lemma mem_submit h ts us ps done i p q a t ft (o : bool) :
  memory_ok h ts us ps done -> ps !! i = Some p -> submitted p = false -> submitted q = true -> poster_timer q = null -> poster_req q = Some a ->
  h !! a = None -> (if o then t ∉ ts /\ t ∉ us else t ∈ us) ->
  memory_ok (<[a := Request ft t i o]> h) (if o then {[t]} ∪ ts else ts) us (<[i := q]> ps) done.
Proof.
  intros [T Ts A U G C Cs D Do P] E Hp Hq Hqt Hqa Ha Ht.
  assert (~ submitted_at ps i) as Hni by (intros (p' & E' & Hp'); congruence).
  assert (forall j, submitted_at (<[i := q]> ps) j <-> j = i \/ submitted_at ps j) as Hj.
  { intros j. rewrite submitted_insert by (by eapply lookup_lt_Some). case_decide; naive_solver. }
  assert (i ∉ done) as Hi by (by intros H%D).
  assert (forall b r, h !! b = Some r -> ctx r <> i) as Hc by (intros b r Hb <-; by destruct (C b r Hb)).
  assert (forall b r, h !! b = Some r -> owned_timer r = true -> o = true -> timer_object r <> t) as Ho.
  { intros b r Hb Hr -> <-. specialize (T b r Hb). rewrite Hr in T. by destruct Ht. }
  split.
  - intros b r [[<- <-]|[_ Hb]]%lookup_insert_Some; cbn; [destruct o; set_solver|]. specialize (T b r Hb).
    destruct (owned_timer r), o; set_solver.
  - intros b c r r' [[<- <-]|[_ Hb]]%lookup_insert_Some [[<- <-]|[_ Hc']]%lookup_insert_Some; cbn; try done.
    + intros H1 H2 H3. by destruct (Ho _ _ Hc' H2 H1).
    + intros H1 H2 H3. by destruct (Ho _ _ Hb H1 H2).
    + eauto.
  - intros x. destruct o; [|apply A]. rewrite elem_of_union, elem_of_singleton. intros [->|]; [by destruct Ht|by apply A].
  - intros j x y [(_ & -> & _)|[_ Hx]]%list_lookup_insert_Some; [by rewrite Hqt|by apply (U j)].
  - intros j x b [(<- & -> & _)|[_ Hx]]%list_lookup_insert_Some Hb.
    + assert (b = a) as -> by congruence. eexists. split; [apply lookup_insert_eq|done].
    + destruct (G j x b Hx Hb) as (r & Hr & Hcr). exists r. split; [|done]. rewrite lookup_insert_ne; [done|congruence].
  - intros b r [[<- <-]|[_ Hb]]%lookup_insert_Some; cbn; rewrite Hj; [by split; [left|]|].
    destruct (C b r Hb). by split; [right|].
  - intros b c r r' [[<- <-]|[_ Hb]]%lookup_insert_Some [[<- <-]|[_ Hc']]%lookup_insert_Some; cbn; try done.
    + intros H. by destruct (Hc _ _ Hc').
    + intros H. by destruct (Hc _ _ Hb).
    + eauto.
  - intros j Hd. rewrite Hj. right. by apply D.
  - done.
  - intros j. rewrite Hj. intros [->|H%P].
    + right. exists a. eexists. split; [apply lookup_insert_eq|done].
    + destruct H as [|(b & r & Hb & <-)]; [by left|right]. exists b, r. split; [|done].
      rewrite lookup_insert_ne; [done|]. intros <-. congruence.
Qed.

Definition close_timer (r : timer_request) (ts : gset addr) : gset addr :=
  if owned_timer r then ts ∖ {[timer_object r]} else ts.

Lemma mem_handled h ts us ps done a r :
  memory_ok h ts us ps done -> h !! a = Some r -> (forall i p, ps !! i = Some p -> poster_req p <> Some a) ->
  memory_ok (delete a h) (close_timer r ts) us ps (done ++ [ctx r]).
Proof.
  intros [T Ts A U G C Cs D Do P] E Hn. destruct (C a r E) as [Ep Ed]. unfold close_timer. split.
  - intros b r' [Hne Hb]%lookup_delete_Some. specialize (T b r' Hb).
    destruct (owned_timer r') eqn:Ho', (owned_timer r) eqn:Ho; try done.
    assert (timer_object r' <> timer_object r) by (intros H; by apply Hne, (Ts a b r r')). set_solver.
  - intros b c r1 r2 [_ Hb]%lookup_delete_Some [_ Hc]%lookup_delete_Some. eauto.
  - intros x. destruct (owned_timer r); set_solver.
  - done.
  - intros i p b Hi Hb. destruct (G i p b Hi Hb) as (r' & Hr' & Hc'). exists r'. split; [|done].
    rewrite lookup_delete_ne; [done|]. intros ->. by apply (Hn i p).
  - intros b r' [Hne Hb]%lookup_delete_Some. destruct (C b r' Hb) as [H1 H2]. split; [done|].
    rewrite elem_of_app, list_elem_of_singleton. intros [|H]; [done|]. by apply Hne, (Cs a b r r').
  - intros b c r1 r2 [_ Hb]%lookup_delete_Some [_ Hc]%lookup_delete_Some. eauto.
  - intros j [Hj| ->%list_elem_of_singleton]%elem_of_app; eauto.
  - apply NoDup_app. split; [done|]. split; [|apply NoDup_singleton]. by intros j Hj ->%list_elem_of_singleton.
  - intros j Hj. rewrite elem_of_app, list_elem_of_singleton. destruct (P j Hj) as [|(b & r' & Hb & <-)]; [by left; left|].
    destruct (decide (b = a)) as [->|Hne]; [left; right; congruence|].
    right. exists b, r'. by rewrite lookup_delete_ne.
Qed.

(** ** Every step keeps the invariant and none faults *)

Lemma timer_inv_init n0 : inv n0 (timer_service (u32 n0)).
Proof.
  split; cbn.
  - split; cbn; try set_solver; [constructor|]. by intros i (p & Hp & _).
  - done.
  - by rewrite Z.add_0_r.
  - intros a r Ha. by apply not_elem_of_nil in Ha.
Qed.

(** Steps that leave the requests where they are. *)
Lemma inv_posters n0 s l :
  inv n0 s -> memory_ok (heap s) (timers s) (user_timers s) l (handled s) ->
  (forall a, sum_list_with (fun p => at_addr a (poster_req p)) l = sum_list_with (fun p => at_addr a (poster_req p)) (posters s)) ->
  sum_list_with adding l = sum_list_with adding (posters s) -> inv n0 (set_posters l s).
Proof.
  intros [M H C S] Hm Hh Hl. split; [done| | |done].
  - intros a. rewrite <- H. cbn [heap set_posters]. specialize (Hh a). places.
  - cbn [n_inflight_timers set_posters]. rewrite C. do 3 f_equal. places.
Qed.

Lemma post_submit_ok n0 s i timer ns :
  inv n0 s -> posters s !! i = Some (PSubmit timer ns) -> inv n0 (post_submit i timer ns s).
Proof.
  intros [M H C S] Ei. assert (heap s !! fresh (dom (heap s)) = None) as Hf by (apply not_elem_of_dom, is_fresh).
  unfold post_submit. set (b := fresh (dom (heap s))) in *.
  assert (exists t o, make_request timer ns i s = (b, set_memory (<[b := Request (timeout_to_filetime ns) t i o]> (heap s))
      (if o then {[t]} ∪ timers s else timers s) s) /\
    if o then t ∉ timers s /\ t ∉ user_timers s else t ∈ user_timers s) as (t & o & -> & Ht).
  { unfold make_request. fold b. destruct timer as [t|].
    - exists t, false. split; [done|]. by apply (mem_poster_timer _ _ _ _ _ M i (PSubmit (Some t) ns)).
    - eexists _, true. split; [done|]. pose proof (is_fresh (timers s ∪ user_timers s)). set_solver. }
  split.
  - cbn. by eapply mem_submit.
  - cbn. intros a. specialize (H a). unfold allocated in *. destruct (decide (a = b)) as [->|Hab].
    + rewrite Hf in H. rewrite lookup_insert_eq. places. rewrite decide_True in * by done. lia.
    + rewrite lookup_insert_ne by done. places. rewrite (decide_False (P := b = a)) in * by congruence. lia.
  - cbn [n_inflight_timers poster_at set_posters set_memory]. rewrite C. do 3 f_equal. places.
  - cbn. intros a r Ha [[<- <-]|[_ Hr]]%lookup_insert_Some; [|by eapply S]. exfalso.
    specialize (H b). unfold held, allocated in H. rewrite Hf in H. apply list_elem_of_lookup in Ha as [k Hk].
    pose proof (sum_list_with_lookup_le (fun c => at_addr b (Some c)) _ _ _ Hk) as Hle. cbn beta in Hle.
    rewrite at_addr_same in Hle. lia.
Qed.

(** The stages of [push] *)
Lemma post_stage n0 s i p q l b :
  inv n0 s -> posters s !! i = Some p -> submitted q = submitted p -> poster_timer q = null ->
  (poster_req q = None \/ poster_req q = poster_req p) ->
  (forall a, at_addr a (poster_req q) + sum_list_with (fun b => at_addr a (Some b)) l = at_addr a (poster_req p))%nat ->
  (adding q + length l = adding p)%nat ->
  inv n0 (poster_at i q (set_non_empty b (set_requests (requests s ++ l) s))).
Proof.
  intros [M H C S] Ei Hs Ht Hq Hh Ha. split; [cbn; eapply mem_poster; eauto| | |exact S].
  - intros a. cbn [heap poster_at set_posters set_non_empty set_requests]. rewrite <- H. specialize (Hh a). places.
  - cbn [n_inflight_timers poster_at set_posters set_non_empty set_requests]. rewrite C. do 3 f_equal. places.
Qed.

Lemma no_request_pushed s : set_requests (requests s ++ []) s = s.
Proof. rewrite app_nil_r. by destruct s. Qed.

Lemma set_event_same s : set_non_empty (non_empty s) (set_requests (requests s ++ []) s) = s.
Proof. rewrite no_request_pushed. by destruct s. Qed.

(** What a step does: it keeps the invariant, or races for the buffer, or finds no
    request there. *)
Definition steps_well (n0 : Z) (s : service) (r : outcome service) : Prop :=
  (exists s', r = Ret s' /\ inv n0 s') \/ r = Fault DataRace /\ races s = true \/ r = Fault OutOfBounds /\ ~ take_ok s.

Lemma step_post n0 s i p r :
  inv n0 s -> posters s !! i = Some p -> step (Poster i) s = Some r -> steps_well n0 s r.
Proof.
  intros Hi Ei E. cbn in E. rewrite Ei in E. pose proof Hi as [M H C S].
  assert (forall q l b, submitted q = submitted p -> poster_timer q = null -> (poster_req q = None \/ poster_req q = poster_req p) ->
    (forall a, at_addr a (poster_req q) + sum_list_with (fun b => at_addr a (Some b)) l = at_addr a (poster_req p))%nat ->
    (adding q + length l = adding p)%nat ->
    inv n0 (poster_at i q (set_non_empty b (set_requests (requests s ++ l) s)))) as Hst by (intros; by apply (post_stage _ _ _ p)).
  destruct p as [timer ns|timer ns|timer ns|a|a| | | |]; try done;
    try (injection E as <-; left; eexists; (split; [done|])).
  - unfold post_load, poster_at. apply inv_posters; [done| | |].
    + eapply mem_poster; [done|done|by destruct (closed _)|destruct (closed _); auto|destruct (closed _); auto].
    + intros a. destruct (closed (n_active_reactors s)); places.
    + destruct (closed (n_active_reactors s)); places.
  - assert (counted (post_add i timer ns s) = Datatypes.S (counted s)) as Hc.
    { unfold post_add, add_inflight_timer. places. }
    split; [cbn; eapply mem_poster; eauto; done| | |exact S].
    + intros a. cbn [heap post_add poster_at set_posters add_inflight_timer set_inflight]. rewrite <- H.
      unfold post_add, add_inflight_timer. places.
    + rewrite Hc. cbn [post_add add_inflight_timer n_inflight_timers set_inflight poster_at set_posters].
      rewrite C. unfold u32. rewrite Zplus_mod_idemp_l. f_equal. lia.
  - by apply post_submit_ok.
  - unfold post_lock in E. destruct (mutex_free s); [|done]. injection E as <-. left. eexists. split; [done|].
    pose proof (Hst (PPush a) [] (non_empty s)) as Hq. rewrite set_event_same in Hq. apply Hq; auto.
  - unfold post_push in E. destruct (races s) eqn:Er; injection E as <-; [by right; left|left]. eexists. split; [done|].
    apply (Hst PRelease [a] (non_empty s)); auto.
  - unfold post_release. pose proof (Hst PSet [] (non_empty s)) as Hq. rewrite set_event_same in Hq. apply Hq; auto.
  - unfold post_set_event. pose proof (Hst Posted [] true) as Hq. rewrite no_request_pushed in Hq. apply Hq; auto.
Qed.

Lemma alive_deref n0 s a f :
  inv n0 s -> (0 < held a s)%nat -> exists r, or_fault f (heap s !! a) = Ret r.
Proof. intros Hi Hh. destruct (held_alive n0 s a Hi Hh) as [r E]. exists r. by rewrite E. Qed.

Lemma run_apc_ok n0 s r :
  inv n0 s -> hand (worker s) = None -> run_apc s = Some r -> exists s', r = Ret s' /\ inv n0 s'.
Proof.
  intros Hi Hw E. unfold run_apc in E. destruct (apcs s) as [|[a|] cs] eqn:Ea; [done|..]; injection E as <-.
  - assert (0 < held a s)%nat as Hh.
    { unfold held. rewrite Ea. cbn [sum_list_with apc_req]. rewrite at_addr_same. lia. }
    destruct (alive_deref n0 s a Dangling Hi Hh) as (q & Eq). unfold on_timer_expiration. cbn [heap set_kernel].
    rewrite Eq. run_bind. eexists. split; [done|].
    assert (hand (worker s) = hand (after_wait (worker s))) as Hs by by destruct (worker s).
    apply (timer_inv_move _ s); [assumption|reflexivity..|intros b|reflexivity|]; places; rewrite Ea, <- Hs; places.
  - eexists. split; [done|]. apply (timer_inv_move _ s); [assumption|reflexivity..|intros b|reflexivity|];
      places; rewrite Ea, Hw; places.
Qed.

(** The requests that lose their timer to [a] are not the ones that own it. *)
Lemma superseded_unowned n0 s a q b r :
  inv n0 s -> hand (worker s) = Some a -> heap s !! a = Some q ->
  b ∈ armed s -> uses s (timer_object q) b -> heap s !! b = Some r -> owned_timer r = false.
Proof.
  intros [M H C S] Ha Ea Hb Hu Eb. unfold uses in Hu. rewrite Eb in Hu. cbn in Hu. injection Hu as Hu.
  assert (b <> a) as Hne.
  { intros ->. specialize (H a). unfold held, allocated in H. rewrite Ea, Ha, at_addr_same in H.
    apply list_elem_of_lookup in Hb as [k Hk].
    pose proof (sum_list_with_lookup_le (fun c => at_addr a (Some c)) _ _ _ Hk) as Hle. cbn beta in Hle.
    rewrite at_addr_same in Hle. lia. }
  destruct (owned_timer r) eqn:Eo; [|done]. exfalso. pose proof (mem_timer _ _ _ _ _ M b r Eb) as Tb. rewrite Eo in Tb.
  destruct (owned_timer q) eqn:Eq.
  - by apply Hne, (mem_timers _ _ _ _ _ M b a r q).
  - pose proof (mem_timer _ _ _ _ _ M a q Ea) as Ta. rewrite Eq in Ta. apply (mem_apart _ _ _ _ _ M _ Tb). by rewrite Hu.
Qed.

Lemma set_timer_ok n0 s a w :
  inv n0 s -> hand (worker s) = Some a -> hand w = None ->
  exists s', (s ← set_waitable_timer a s; Ret (set_worker w s)) = Ret s' /\ inv n0 s'.
Proof.
  intros Hi Ha Hw. assert (0 < held a s)%nat as Hh by (unfold held; rewrite Ha, at_addr_same; lia).
  destruct (held_alive n0 s a Hi Hh) as [q Eq]. unfold set_waitable_timer. rewrite Eq. cbn [or_fault]. run_bind.
  eexists. split; [done|]. pose proof Hi as [M H C S]. set (P := uses s (timer_object q)).
  assert (forall f, sum_list_with f (filter P (armed s)) + sum_list_with f (filter (fun b => ~ P b) (armed s)) =
    sum_list_with f (armed s))%nat as Hf.
  { intros f. rewrite <- sum_list_with_app. apply sum_list_with_perm, filter_split_perm. }
  assert (length (filter P (armed s)) + length (filter (fun b => ~ P b) (armed s)) = length (armed s))%nat as Hl.
  { rewrite <- length_app. apply Permutation_length, filter_split_perm. }
  split.
  - exact M.
  - intros b. cbn [heap set_worker set_superseded set_kernel]. rewrite <- H. specialize (Hf (fun c => at_addr b (Some c))).
    places; rewrite Ha, Hw; places.
  - cbn [n_inflight_timers set_worker set_superseded set_kernel]. rewrite C. do 3 f_equal. places; rewrite Ha, Hw; places.
  - intros b r [Hb|[Hu Hb]%list_elem_of_filter]%elem_of_app Er; [by eapply S|]. by eapply superseded_unowned.
Qed.

Lemma pop_ok n0 s a q w :
  inv n0 s -> requests s = a :: q -> hand (worker s) = None -> hand w = Some a ->
  inv n0 (set_worker w (set_requests q s)).
Proof.
  intros Hi Eq Hs Hw.
  apply (timer_inv_move _ s); [assumption|reflexivity..|intros b|reflexivity|]; places; rewrite Eq, Hs, Hw; places.
Qed.

Lemma set_worker_ok n0 s w : inv n0 s -> hand w = hand (worker s) -> inv n0 (set_worker w s).
Proof.
  intros Hi Hw. apply (timer_inv_move _ s); [assumption|reflexivity..|intros b|reflexivity|]; places; rewrite Hw; places.
Qed.

Lemma locked_turn_ok n0 s d : inv n0 s -> hand (worker s) = None -> inv n0 (locked_turn d s).
Proof.
  intros Hi Hw. unfold locked_turn, take. destruct (requests s) as [|a q] eqn:Eq.
  - apply set_worker_ok; [done|]. rewrite Hw. by destruct d.
  - apply (pop_ok _ _ a); [done|done|done|by destruct d].
Qed.

Lemma step_worker n0 s b r :
  inv n0 s -> step (Worker b) s = Some r -> steps_well n0 s r.
Proof.
  intros Hi E. cbn in E. unfold worker_step in E.
  assert (forall r', hand (worker s) = None -> run_apc s = Some r' -> steps_well n0 s r') as Hapc.
  { intros r' Hw Er. left. by apply (run_apc_ok n0 s). }
  destruct (worker s) as [|wo|a| |a| | | |d|d] eqn:Ew, b; try done; try (by apply Hapc).
  - destruct (mutex_free s); [|done]. injection E as <-. left. eexists. split; [done|]. apply locked_turn_ok; [done|by rewrite Ew].
  - destruct (non_empty s || wo); [|done]. injection E as <-. left. eexists. split; [done|]. apply set_worker_ok; [done|by rewrite Ew].
  - injection E as <-. left. apply (set_timer_ok n0 s a Popping); [done|by rewrite Ew|done].
  - destruct (mutex_free s); [|done]. injection E as <-. left. eexists. split; [done|]. apply locked_turn_ok; [done|by rewrite Ew].
  - injection E as <-. left. apply (set_timer_ok n0 s a Draining); [done|by rewrite Ew|done].
  - injection E as <-. left. eexists. split; [done|]. apply set_worker_ok; [done|]. rewrite Ew. by case_decide.
  - unfold unlocked_test in E. destruct (races s) eqn:Er; injection E as <-; [by right; left|left]. eexists. split; [done|].
    apply set_worker_ok; [done|]. rewrite Ew. case_decide; [by destruct d|done].
  - unfold unlocked_take, take in E. destruct (races s) eqn:Er; [injection E as <-; by right; left|].
    destruct (requests s) as [|a q] eqn:Eq; injection E as <-; [right; right|left].
    { split; [done|]. intros Ht. by apply (Ht d). }
    eexists. split; [done|].
    apply (pop_ok _ _ a); [done|done|by rewrite Ew|by destruct d].
Qed.

Lemma step_timer n0 s i r :
  inv n0 s -> step (Timer i) s = Some r -> exists s', r = Ret s' /\ inv n0 s'.
Proof.
  intros Hi E. cbn in E. unfold expire in E. destruct (armed s !! i) as [a|] eqn:Ei; [|done].
  injection E as <-. eexists. split; [done|].
  assert (length (armed s) = S (length (delete i (armed s)))) as Hl.
  { rewrite length_delete by by rewrite Ei. apply lookup_lt_Some in Ei. lia. }
  moves s.
Qed.

(** A request that is destroyed closes the timer it owns. *)
Lemma destroy_request_spec a r s us ps done :
  memory_ok (heap s) (timers s) us ps done -> heap s !! a = Some r ->
  destroy_request a s = Ret (set_memory (delete a (heap s)) (close_timer r (timers s)) s).
Proof.
  intros M Er. pose proof (mem_timer _ _ _ _ _ M a r Er) as Ht. unfold destroy_request, close_timer. rewrite Er. cbn [or_fault].
  run_bind. destruct (owned_timer r); [rewrite decide_True by done|]; by run_bind.
Qed.

(** A reactor finishes with its request: the handler is called, the request destroyed. *)
Lemma call_handler_ok n0 s i a :
  inv n0 s -> reactors s !! i = Some (RCall a) -> exists s', call_handler i a s = Ret s' /\ inv n0 s'.
Proof.
  intros Hi Ei. pose proof Hi as [M H C S].
  assert (0 < held a s)%nat as Hh.
  { pose proof (sum_list_with_lookup_le (fun r => at_addr a (reactor_req r)) _ _ _ Ei) as Hle.
    cbn [reactor_req] in Hle. rewrite at_addr_same in Hle. unfold held. lia. }
  destruct (held_alive n0 s a Hi Hh) as [r Er].
  unfold call_handler. rewrite Er. cbn [or_fault]. run_bind.
  rewrite (destroy_request_spec a r (set_handled (handled s ++ [ctx r]) s) _ _ _ M Er). run_bind.
  assert (forall j p, posters s !! j = Some p -> poster_req p <> Some a) as Hnp.
  { intros j p Ej Hp. specialize (H a). unfold held, allocated in H. rewrite Er in H.
    pose proof (sum_list_with_lookup_le (fun p => at_addr a (poster_req p)) _ _ _ Ej) as Hle. cbn beta in Hle.
    pose proof (sum_list_with_lookup_le (fun r => at_addr a (reactor_req r)) _ _ _ Ei) as Hle'. cbn [reactor_req] in Hle'.
    rewrite Hp, at_addr_same in Hle. rewrite at_addr_same in Hle'. lia. }
  eexists. split; [done|]. split.
  - cbn. by apply mem_handled.
  - intros b. specialize (H b). unfold allocated in *. cbn [heap reactor_at set_reactors set_memory set_handled].
    destruct (decide (b = a)) as [->|Hb].
    + rewrite lookup_delete_eq. rewrite Er in H. places. rewrite (decide_True (P := a = a)) in * by done. lia.
    + rewrite lookup_delete_ne by congruence. places. rewrite (decide_False (P := a = b)) in * by congruence. lia.
  - cbn [n_inflight_timers reactor_at set_reactors set_memory set_handled]. rewrite C. do 3 f_equal. places.
  - cbn. intros b q Hb [_ Hq]%lookup_delete_Some. by eapply S.
Qed.

Lemma reactor_moves n0 s i p q z :
  inv n0 s -> reactors s !! i = Some p -> reactor_req q = reactor_req p -> removing q = removing p ->
  inv n0 (reactor_at i q (set_word z s)).
Proof.
  intros Hi Ei Hr Hm.
  apply (timer_inv_move _ s); [assumption|reflexivity..|intros b|reflexivity|]; places; rewrite ?Hr, ?Hm in *; lia.
Qed.

Lemma set_word_same s : set_word (n_active_reactors s) s = s.
Proof. by destruct s. Qed.

Lemma get_completion_ok n0 s i s' :
  inv n0 s -> reactors s !! i = Some RGet -> get_completion i s = Some s' -> inv n0 s'.
Proof.
  intros Hi Ei E. unfold get_completion in E. destruct (port s) as [|[a|] cs] eqn:Ep; [done|..]; injection E as <-;
    (apply (timer_inv_move _ s); [assumption|reflexivity..|intros b|reflexivity|]; places; rewrite Ep; places).
Qed.

Lemma step_reactor n0 s i sp r :
  inv n0 s -> step (Reactor i sp) s = Some r -> exists s', r = Ret s' /\ inv n0 s'.
Proof.
  intros Hi E. cbn in E. destruct (reactors s !! i) as [[|st|st| |a|a| |]|] eqn:Ei; try done.
  - injection E as <-. eexists. split; [done|]. rewrite <- (set_word_same s) at 2. by eapply reactor_moves.
  - injection E as <-. eexists. split; [done|]. unfold enter_test. rewrite <- (set_word_same s).
    destruct (closed st); by eapply reactor_moves.
  - injection E as <-. eexists. split; [done|]. unfold enter_cas.
    case_decide; [by eapply reactor_moves|]. rewrite <- (set_word_same s) at 1. by eapply reactor_moves.
  - destruct (get_completion i s) as [s'|] eqn:Eg; [|done]. injection E as <-. eexists. split; [done|].
    by apply (get_completion_ok n0 s i).
  - injection E as <-. eexists. split; [done|]. pose proof Hi as [M H C S]. split.
    + exact M.
    + intros b. cbn [heap reactor_at set_reactors remove_inflight_timer set_inflight]. rewrite <- H.
      unfold remove_inflight_timer. places.
    + assert (counted s = Datatypes.S (counted (reactor_at i (RCall a) (remove_inflight_timer s)))) as Hc.
      { unfold remove_inflight_timer. places. }
      cbn [n_inflight_timers reactor_at set_reactors remove_inflight_timer set_inflight]. rewrite C, Hc.
      unfold u32. rewrite Zminus_mod_idemp_l. f_equal. lia.
    + exact S.
  - injection E as <-. by apply call_handler_ok.
  - injection E as <-. eexists. split; [done|]. by eapply (reactor_moves _ _ _ _ RDone).
Qed.

Lemma step_closer n0 s i r :
  inv n0 s -> step (Closer i) s = Some r -> exists s', r = Ret s' /\ inv n0 s'.
Proof.
  intros Hi E. cbn in E. destruct (closers s !! i) as [[]|] eqn:Ei; try done.
  - injection E as <-. eexists. split; [done|]. by apply (timer_inv_move _ s).
  - injection E as <-. eexists. split; [done|]. unfold queue_user_apc. moves s.
  - destruct (worker s); try done. injection E as <-. eexists. split; [done|]. by apply (timer_inv_move _ s).
  - injection E as <-. eexists. split; [done|]. unfold post_shutdown.
    assert (forall f : completion -> nat, f SHUTDOWN_KEY = 0%nat ->
      forall n, sum_list_with f (replicate n SHUTDOWN_KEY) = 0%nat) as Hz.
    { intros f Hf n. induction n as [|n IH]; cbn; [done|]. by rewrite Hf, IH. }
    apply (timer_inv_move _ s); [assumption|reflexivity..|intros b|reflexivity|]; places; rewrite Hz; [lia|done|lia|done].
Qed.

Lemma step_ok n0 s a r : inv n0 s -> step a s = Some r -> steps_well n0 s r.
Proof.
  intros Hi E. destruct a as [b|i|i|i sp|i].
  - by apply (step_worker n0 s b).
  - left. by apply (step_timer n0 s i).
  - destruct (posters s !! i) as [p|] eqn:Ei; [|by cbn in E; rewrite Ei in E]. by apply (step_post n0 s i p).
  - left. by apply (step_reactor n0 s i sp).
  - left. by apply (step_closer n0 s i).
Qed.

Lemma step_inv n0 s a s' : inv n0 s -> step a s = Some (Ret s') -> inv n0 s'.
Proof. intros Hi E. by destruct (step_ok n0 s a _ Hi E) as [(? & [= <-] & ?)|[[? _]|[? _]]]. Qed.

(** Only the worker moves itself and takes requests from the queue ... *)
Lemma others_frame a s s' :
  (forall b, a <> Worker b) -> step a s = Some (Ret s') ->
  worker s' = worker s /\ (requests s <> [] -> requests s' <> []).
Proof.
  intros Ha E. destruct a as [b|i|i|i sp|i]; cbn in E; [by destruct (Ha b)|..].
  - unfold expire in E. destruct (armed s !! i); [|done]. by injection E as <-.
  - destruct (posters s !! i) as [[timer ns|timer ns|timer ns|a|a| | | |]|]; try done; try (by injection E as <-).
    + injection E as <-. unfold post_submit, make_request. by destruct timer.
    + unfold post_lock in E. destruct (mutex_free s); [|done]. by injection E as <-.
    + unfold post_push in E. destruct (races s); [done|]. injection E as <-. cbn. split; [done|]. by destruct (requests s).
  - destruct (reactors s !! i) as [[|st|st| |a|a| |]|]; try done; try by injection E as <-.
    + injection E as <-. unfold enter_cas. by case_decide.
    + unfold get_completion in E. destruct (port s) as [|c cs]; [done|]. by injection E as <-.
    + injection E as E. unfold call_handler, destroy_request in E. by inv_bind.
  - destruct (closers s !! i) as [[]|]; try done; try (by injection E as <-). destruct (worker s) eqn:Ew; try done.
    injection E as <-. cbn. by rewrite Ew.
Qed.

Lemma run_apc_take s s' d : run_apc s = Some (Ret s') -> worker s' = UnlockedTake d -> worker s = UnlockedTake d.
Proof.
  unfold run_apc, on_timer_expiration. destruct (apcs s) as [|[a|] cs]; [done|..]; intros [= E']; inv_bind; cbn; [|by subst].
  by destruct (worker s).
Qed.

(** ... and then it is on its way to [SetWaitableTimer]. *)
Lemma step_take s a s' : take_ok s -> step a s = Some (Ret s') -> take_ok s'.
Proof.
  intros Ht E d Hd. destruct a as [b|i|i|i sp|i].
  2-5: apply others_frame in E as [Hw Hr]; [apply Hr, (Ht d); by rewrite <- Hw|done].
  cbn in E. unfold worker_step in E.
  assert (run_apc s = Some (Ret s') -> requests s' <> []) as Hapc.
  { intros Er. pose proof (run_apc_take _ _ _ Er Hd) as Hw. unfold run_apc, on_timer_expiration in Er.
    destruct (apcs s) as [|[a|] cs]; [done|..]; injection Er as Er; inv_bind; subst; by apply (Ht d). }
  unfold locked_turn, unlocked_test, unlocked_take, set_waitable_timer, take in E.
  destruct (worker s) as [|wo|a| |a| | | |d'|d'] eqn:Ew, b; try done; try (by apply Hapc);
    try (destruct (mutex_free s); [|done]); try (destruct (races s); [done|]); try (destruct (non_empty s || wo); [|done]);
    try (injection E as E; inv_bind; done); try (injection E as <-; by case_decide);
    try (destruct (requests s); try done; injection E as <-; by destruct d'); try (destruct (requests s); by injection E as <-);
    try (by injection E as <-).
  injection E as <-. cbn in Hd. case_decide; [by destruct d'|done].
Qed.

Lemma service_step_take s s' : take_ok s -> service_step s s' -> take_ok s'.
Proof. intros Ht Hs. destruct Hs as [s s' a E|s|s timer ns _|s|s]; [by eapply (step_take s a)|exact Ht..]. Qed.

Lemma timer_steps_take n0 s : reachable n0 s -> take_ok s.
Proof. apply (rtc_ind_r take_ok); [by intros d|]. intros s1 s2 _ Hs Ht. by apply (service_step_take s1). Qed.

(** An expired timer ends a wait of the worker for the mutex. *)
Definition interrupted (s s' : service) : Prop :=
  (worker s = Popping \/ worker s = Draining) /\ (exists a cs, apcs s = Expire a :: cs) /\ step (Worker true) s = Some (Ret s').
Definition orderly_step (s s' : service) : Prop := service_step s s' /\ ~ interrupted s s'.

(** Then, and only then, the worker goes into the buffer without it. *)
Lemma locked_worker b s s' :
  unlocked (worker s) = false -> step (Worker b) s = Some (Ret s') -> ~ interrupted s s' -> unlocked (worker s') = false.
Proof.
  intros Hu E Hn. unfold interrupted in Hn. cbn in E, Hn. pose proof E as E0. unfold worker_step in E.
  assert (forall c cs, apcs s = c :: cs -> after_wait (worker s) = worker s \/ unlocked (after_wait (worker s)) = false \/
    (worker s = Popping \/ worker s = Draining)) as Hw by (intros ? ? _; destruct (worker s); auto).
  assert (forall r, b = true -> run_apc s = Some (Ret r) -> worker_step true s = Some (Ret r) -> r = s' -> unlocked (worker r) = false) as Hapc.
  { intros r -> Er Ew ->. unfold run_apc, on_timer_expiration in Er. destruct (apcs s) as [|[a|] cs] eqn:Ea; [done|..]; injection Er as Er;
      inv_bind; cbn; [|by subst]. destruct (Hw _ _ eq_refl) as [->|[?|Hp]]; [done|done|].
    destruct Hn. split; [done|]. split; [by eauto|done]. }
  unfold locked_turn, unlocked_test, unlocked_take, set_waitable_timer, take in E.
  destruct (worker s) as [|wo|a| |a| | | |d|d] eqn:Ew, b; try done; try (by apply (Hapc s'));
    try (destruct (mutex_free s); [|done]); try (destruct (non_empty s || wo); [|done]);
    try (injection E as E; inv_bind; done); try (destruct (requests s); by injection E as <-); try (by injection E as <-).
  injection E as <-. by case_decide.
Qed.

Lemma orderly_locked s s' : rtc orderly_step s s' -> unlocked (worker s) = false -> unlocked (worker s') = false.
Proof.
  intros Hr. induction Hr as [|s1 s2 s3 [Hs Hn] _ IH]; [done|]. intros Hu. apply IH.
  destruct Hs as [s s' a E|s|s timer ns _|s|s]; [|done..]. destruct a as [b|i|i|i sp|i].
  - by eapply locked_worker.
  - by destruct (others_frame (Timer i) s s' ltac:(done) E) as [-> _].
  - by destruct (others_frame (Poster i) s s' ltac:(done) E) as [-> _].
  - by destruct (others_frame (Reactor i sp) s s' ltac:(done) E) as [-> _].
  - by destruct (others_frame (Closer i) s s' ltac:(done) E) as [-> _].
Qed.

Lemma service_step_inv n0 s s' : inv n0 s -> service_step s s' -> inv n0 s'.
Proof.
  intros Hi Hs. destruct Hs as [s s' a E|s|s timer ns Hp|s|s].
  - by eapply step_inv.
  - pose proof Hi as [M H C S]. split; [|exact H|done|done]. cbn. apply mem_user_timer; [done|].
    pose proof (is_fresh (timers s ∪ user_timers s)). set_solver.
  - apply inv_posters; [done| |intros a|]; [|rewrite sum_list_with_app; cbn; lia..]. apply mem_new_poster; [apply Hi|done|].
    cbn. by intros t ->.
  - moves s.
  - by apply (timer_inv_move _ s).
Qed.

Lemma timer_steps_inv n0 s s' : inv n0 s -> rtc service_step s s' -> inv n0 s'.
Proof. intros Hi Hr. induction Hr as [|s1 s2 s3 Hs _ IH]; [done|]. by apply IH, (service_step_inv n0 s1). Qed.

(** ** States nothing gets out of *)

Lemma timer_closed_odd z : closed z = Z.odd z.
Proof. apply land_1_odd. Qed.

(** The worker sleeps and no APC is to come: the service is closed, no timer is
    set, and no [shutdown] is about to queue an APC. *)
Definition asleep (s : service) : Prop :=
  worker s = Sleeping /\ apcs s = [] /\ armed s = [] /\ closed (n_active_reactors s) = true /\
  (forall i, closers s !! i <> Some CQueueApc) /\
  (forall i st, reactors s !! i = Some (RCas st) -> closed st = false).

Lemma asleep_ext s s' :
  asleep s -> worker s' = worker s -> apcs s' = apcs s -> armed s' = armed s ->
  closed (n_active_reactors s') = closed (n_active_reactors s) ->
  (forall i, closers s' !! i = Some CQueueApc -> closers s !! i = Some CQueueApc) ->
  (forall i st, reactors s' !! i = Some (RCas st) -> reactors s !! i = Some (RCas st) \/ closed st = false) -> asleep s'.
Proof.
  unfold asleep at 2. intros (W & A & R & C & Q & K) -> -> -> -> Hc Hk. split; [done|]. split; [done|]. split; [done|]. split; [done|].
  split; [intros i E; by apply (Q i), Hc|]. intros i st [E|]%Hk; eauto.
Qed.

Lemma reactor_cas_insert i q (l : list reactor) j st :
  <[i := q]> l !! j = Some (RCas st) -> q = RCas st \/ l !! j = Some (RCas st).
Proof. intros [(_ & -> & _)|[_ ?]]%list_lookup_insert_Some; [by left|by right]. Qed.

Lemma asleep_reactor s i q z :
  asleep s -> closed z = true -> (forall st, q = RCas st -> closed st = false) -> asleep (reactor_at i q (set_word z s)).
Proof.
  intros Ha Hz Hq. apply (asleep_ext s); try done.
  - cbn. destruct Ha as (_ & _ & _ & -> & _). done.
  - cbn. intros j st [->|]%reactor_cas_insert; [right; eauto|by left].
Qed.

Lemma asleep_posters s l : asleep s -> asleep (set_posters l s).
Proof. intros Ha. by apply (asleep_ext s); auto. Qed.

(** What a thread that posts leaves alone *)
Lemma poster_frame i s s' : step (Poster i) s = Some (Ret s') ->
  worker s' = worker s /\ apcs s' = apcs s /\ armed s' = armed s /\ n_active_reactors s' = n_active_reactors s /\
  closers s' = closers s /\ reactors s' = reactors s /\ superseded s' = superseded s /\ requests s ⊆ requests s' /\
  forall a r, heap s !! a = Some r -> heap s' !! a = Some r.
Proof.
  cbn. destruct (posters s !! i) as [[timer ns|timer ns|timer ns|a|a| | | |]|]; try done; intros E; try (by injection E as <-).
  - injection E as <-. unfold post_submit, make_request. destruct timer; cbn; do 8 (split; [done|]); intros a r Ha;
      (rewrite lookup_insert_ne; [done|]; intros Hf; assert (heap s !! fresh (dom (heap s)) = None) as Hn
        by (apply not_elem_of_dom, is_fresh); congruence).
  - unfold post_lock in E. destruct (mutex_free s); [|done]. by injection E as <-.
  - unfold post_push in E. destruct (races s); [done|]. injection E as <-. cbn. do 7 (split; [done|]). split; [|done].
    by apply list_subseteq_app_l.
Qed.

Lemma asleep_step n0 s s' : inv n0 s -> asleep s -> service_step s s' -> asleep s'.
Proof.
  intros Hi Ha Hs. pose proof Ha as (W & A & R & C & Q & K). destruct Hs as [s s' a E|s|s timer ns _|s|s].
  2: { by apply (asleep_ext s); auto. }
  2: { by apply asleep_posters. }
  2: { apply (asleep_ext s); auto. intros i st. cbn. rewrite lookup_app_Some.
       intros [?|[_ H]]; [by left|]. apply list_lookup_singleton_Some in H as [_ [=]]. }
  2: { apply (asleep_ext s); auto. intros i. cbn. rewrite lookup_app_Some.
       intros [?|[_ H]]; [done|]. apply list_lookup_singleton_Some in H as [_ [=]]. }
  destruct a as [b|i|i|i sp|i]; cbn in E.
  - unfold worker_step, run_apc in E. rewrite W, A in E. by destruct b.
  - unfold expire in E. by rewrite R in E.
  - destruct (poster_frame i s s' E) as (F1 & F2 & F3 & F4 & F5 & F6 & _). apply (asleep_ext s); [done|done|done|done|by rewrite F4|by rewrite F5|].
    intros j st Hj. left. by rewrite <- F6.
  - pose proof (set_word_same s) as Hw. destruct (reactors s !! i) as [[|st|st| |a|a| |]|] eqn:Ei; try done.
    + injection E as <-. rewrite <- Hw at 2. by apply asleep_reactor.
    + injection E as <-. unfold enter_test. rewrite <- Hw. apply asleep_reactor; [done|done|].
      intros st'. destruct (closed st) eqn:Ec; [done|]. by intros [= <-].
    + injection E as <-. unfold enter_cas. case_decide as Hd.
      * destruct Hd as [Hd _]. specialize (K _ _ Ei). congruence.
      * rewrite <- Hw. by apply asleep_reactor.
    + unfold get_completion in E. destruct (port s) as [|c cs]; [done|]. injection E as <-.
      apply (asleep_ext s); auto. cbn. intros j st [Hq|]%reactor_cas_insert; [by destruct c|by left].
    + injection E as <-. apply (asleep_ext s); auto. cbn. intros j st [Hq|]%reactor_cas_insert; [done|by left].
    + injection E as E. destruct (call_handler_ok n0 s i a Hi Ei) as (s1 & E1 & _). unfold call_handler, destroy_request in E.
      inv_bind; apply (asleep_ext s); auto; cbn; (intros j st [Hq|]%reactor_cas_insert; [done|by left]).
    + injection E as <-. apply (asleep_reactor s i RDone); [done| |done].
      rewrite timer_closed_odd in *. by rewrite u32_sub_2_odd.
  - destruct (closers s !! i) as [[]|] eqn:Ei; try done; try (by destruct (Q i)).
    + injection E as <-. unfold shutdown_fetch_or. rewrite C. apply (asleep_ext s); auto.
      * cbn. rewrite C. rewrite timer_closed_odd. apply lor_1_odd.
      * cbn. intros j [(_ & [=] & _)|[_ ?]]%list_lookup_insert_Some. done.
    + by rewrite W in E.
    + injection E as <-. apply (asleep_ext s); auto. cbn.
      intros j [(_ & [=] & _)|[_ ?]]%list_lookup_insert_Some. done.
Qed.

(** What the worker leaves alone; when it has exited it makes no step. *)
Lemma run_apc_frame s s' : run_apc s = Some (Ret s') ->
  heap s' = heap s /\ superseded s' = superseded s /\ closers s' = closers s /\ posters s' = posters s /\
  n_active_reactors s' = n_active_reactors s /\ requests s' = requests s.
Proof.
  unfold run_apc, on_timer_expiration. destruct (apcs s) as [|[a|] cs]; [done|..]; intros [= E]; inv_bind; by subst.
Qed.

Lemma set_timer_frame a w s s' : (s ← set_waitable_timer a s; Ret (set_worker w s)) = Ret s' ->
  heap s' = heap s /\ superseded s ⊆ superseded s' /\ closers s' = closers s /\ posters s' = posters s /\
  n_active_reactors s' = n_active_reactors s.
Proof. unfold set_waitable_timer. intros E. inv_bind. cbn. split; [done|]. split; [|done]. by apply list_subseteq_app_l. Qed.

Lemma locked_turn_frame d s : let s' := locked_turn d s in
  heap s' = heap s /\ superseded s' = superseded s /\ closers s' = closers s /\ posters s' = posters s /\
  n_active_reactors s' = n_active_reactors s.
Proof. unfold locked_turn, take. by destruct (requests s). Qed.

Lemma worker_frame b s s' : step (Worker b) s = Some (Ret s') ->
  heap s' = heap s /\ superseded s ⊆ superseded s' /\
  (closers s' = closers s /\ posters s' = posters s /\ n_active_reactors s' = n_active_reactors s) /\ worker s <> Exited.
Proof.
  intros E. cbn in E. unfold worker_step in E.
  assert (run_apc s = Some (Ret s') -> heap s' = heap s /\ superseded s ⊆ superseded s' /\
    (closers s' = closers s /\ posters s' = posters s /\ n_active_reactors s' = n_active_reactors s)) as Hapc.
  { intros (-> & -> & -> & -> & -> & _)%run_apc_frame. done. }
  rewrite (and_assoc (superseded s ⊆ _)), (and_assoc (heap s' = _)).
  unfold unlocked_test, unlocked_take, take in E.
  destruct (worker s) as [|wo|a| |a| | | |d|d] eqn:Ew, b; try done; try (split; [by apply Hapc|done]).
  - destruct (mutex_free s); [|done]. injection E as <-. destruct (locked_turn_frame false s) as (-> & -> & -> & -> & ->). done.
  - destruct (non_empty s || wo); [|done]. by injection E as <-.
  - injection E as (H1 & H2 & H3)%set_timer_frame. done.
  - destruct (mutex_free s); [|done]. injection E as <-. destruct (locked_turn_frame true s) as (-> & -> & -> & -> & ->). done.
  - injection E as (H1 & H2 & H3)%set_timer_frame. done.
  - by injection E as <-.
  - destruct (races s); [done|]. by injection E as <-.
  - destruct (races s); [done|]. destruct (requests s); [done|]. by injection E as <-.
Qed.

(** A request that is not about to be called keeps its memory; requests that are
    superseded stay so, and so do those in the queue of a worker that has exited. *)
Lemma step_keeps a r s s' :
  heap s !! a = Some r -> (forall i, reactors s !! i <> Some (RCall a)) -> service_step s s' ->
  heap s' !! a = Some r /\ superseded s ⊆ superseded s' /\
  (worker s = Exited -> worker s' = Exited /\ requests s ⊆ requests s').
Proof.
  intros H Hn Hs. destruct Hs as [s s' g E|s|s timer ns _|s|s]; [|done..].
  destruct g as [b|i|i|i sp|i]; cbn in E.
  - destruct (worker_frame b s s' E) as (F1 & F2 & F3 & F4). rewrite F1. split; [done|]. split; [done|]. intros Hw. by destruct F4.
  - unfold expire in E. destruct (armed s !! i); [|done]. by injection E as <-.
  - destruct (poster_frame i s s' E) as (F1 & _ & _ & _ & _ & _ & F2 & F3 & F4). split; [by apply F4|]. split; [by rewrite F2|].
    intros Hw. split; [congruence|done].
  - destruct (reactors s !! i) as [[|st|st| |b|b| |]|] eqn:Ei; try done; try by injection E as <-.
    + injection E as <-. unfold enter_cas. by case_decide.
    + unfold get_completion in E. destruct (port s) as [|c cs]; [done|]. by injection E as <-.
    + injection E as E. assert (b <> a) as Hne by (intros ->; by destruct (Hn i)).
      unfold call_handler, destroy_request in E. inv_bind; cbn; by rewrite lookup_delete_ne.
  - destruct (closers s !! i) as [[]|]; try done; try (by injection E as <-).
    destruct (worker s) eqn:W; try done. by injection E as <-.
Qed.

(** A request that is queued or superseded is not at a reactor. *)
Lemma held_elsewhere n0 s a r i :
  inv n0 s -> heap s !! a = Some r -> a ∈ requests s \/ a ∈ superseded s -> reactors s !! i <> Some (RCall a).
Proof.
  intros Hi H Hin Ei. pose proof (inv_held _ _ Hi a) as Hh. unfold held, allocated in Hh. rewrite H in Hh.
  pose proof (sum_list_with_lookup_le (fun r => at_addr a (reactor_req r)) _ _ _ Ei) as Hle.
  cbn [reactor_req] in Hle. rewrite at_addr_same in Hle.
  assert (forall l, a ∈ l -> (1 <= sum_list_with (fun b => at_addr a (Some b)) l)%nat) as Hl.
  { intros l [k Ek]%list_elem_of_lookup. pose proof (sum_list_with_lookup_le (fun b => at_addr a (Some b)) _ _ _ Ek) as Hk.
    cbn beta in Hk. by rewrite at_addr_same in Hk. }
  destruct Hin as [Hq|Hq]; specialize (Hl _ Hq); lia.
Qed.

(** The request of the [i]-th post has been pushed. *)
Definition pushed (p : poster) : bool := match p with PRelease | PSet | Posted => true | _ => false end.

(** A request that has been superseded, or is at a reactor, is no longer with the
    thread that posts it. *)
Lemma elsewhere_pushed n0 s a r :
  inv n0 s -> a ∈ superseded s \/ (exists j, reactors s !! j = Some (RCall a)) -> heap s !! a = Some r ->
  exists p, posters s !! ctx r = Some p /\ pushed p = true.
Proof.
  intros Hi Ha H. destruct (mem_ctx _ _ _ _ _ (inv_memory _ _ Hi) a r H) as [(p & Ep & Hp) _]. exists p. split; [done|].
  assert (poster_req p = None) as Hn; [|by destruct p].
  destruct (poster_req p) as [b|] eqn:Eb; [|done]. exfalso.
  destruct (mem_hand _ _ _ _ _ (inv_memory _ _ Hi) _ _ _ Ep Eb) as (r' & Er' & Ec).
  assert (b = a) as -> by by eapply (mem_ctxs _ _ _ _ _ (inv_memory _ _ Hi)).
  pose proof (inv_held _ _ Hi a) as Hh. unfold held, allocated in Hh. rewrite H in Hh.
  pose proof (sum_list_with_lookup_le (fun p => at_addr a (poster_req p)) _ _ _ Ep) as Hle. cbn beta in Hle.
  rewrite Eb, at_addr_same in Hle. destruct Ha as [[k Hk]%list_elem_of_lookup|[j Hj]].
  - pose proof (sum_list_with_lookup_le (fun b => at_addr a (Some b)) _ _ _ Hk) as Hle'. cbn beta in Hle'.
    rewrite at_addr_same in Hle'. lia.
  - pose proof (sum_list_with_lookup_le (fun r => at_addr a (reactor_req r)) _ _ _ Hj) as Hle'. cbn [reactor_req] in Hle'.
    rewrite at_addr_same in Hle'. lia.
Qed.

(** A request in the queue of a worker that has exited. *)
Definition abandoned (a : addr) (r : timer_request) (s : service) : Prop :=
  worker s = Exited /\ a ∈ requests s /\ heap s !! a = Some r.

Lemma abandoned_step n0 a r s s' : inv n0 s -> abandoned a r s -> service_step s s' -> abandoned a r s'.
Proof.
  intros Hi (W & Q & H) Hs. destruct (step_keeps a r s s') as (H' & _ & HW); [done| |done|].
  - intros i. eapply held_elsewhere; eauto.
  - destruct (HW W) as [W' Q']. split; [done|]. split; [by apply Q'|done].
Qed.

Lemma superseded_steps n0 a r s s' :
  inv n0 s -> a ∈ superseded s -> heap s !! a = Some r -> rtc service_step s s' ->
  inv n0 s' /\ a ∈ superseded s' /\ heap s' !! a = Some r.
Proof.
  intros Hi Ha H Hr. induction Hr as [|s1 s2 s3 Hs _ IH]; [done|].
  destruct (step_keeps a r s1 s2) as (H' & Hs' & _); [done| |done|].
  - intros i. eapply held_elsewhere; eauto.
  - apply IH; [by apply (service_step_inv n0 s1)|by apply Hs'|done].
Qed.

Lemma waiting_step i s s' :
  closers s !! i = Some CWait -> worker s <> Exited -> service_step s s' -> closers s' !! i = Some CWait.
Proof.
  intros Ei Hw Hs. destruct Hs as [s s' a E|s|s timer ns _|s|s]; [|done|done|done|by apply lookup_app_l_Some].
  destruct a as [b|j|j|j sp|j]; cbn in E.
  - destruct (worker_frame b s s' E) as (_ & _ & [-> _] & _). done.
  - unfold expire in E. destruct (armed s !! j); [|done]. by injection E as <-.
  - destruct (poster_frame j s s' E) as (_ & _ & _ & _ & -> & _). done.
  - destruct (reactors s !! j) as [[|st|st| |a|a| |]|]; try done; try by injection E as <-.
    + injection E as <-. unfold enter_cas. by case_decide.
    + unfold get_completion in E. destruct (port s) as [|c cs]; [done|]. by injection E as <-.
    + injection E as E. unfold call_handler, destroy_request in E. by inv_bind.
  - destruct (closers s !! j) as [p|] eqn:Ej; [|done]. destruct (decide (j = i)) as [->|Hne].
    + assert (p = CWait) as -> by congruence. by destruct (worker s).
    + destruct p; try done; try (destruct (worker s); try done); injection E as <-; cbn; by rewrite list_lookup_insert_ne.
Qed.

Lemma asleep_for_ever n0 i s s' :
  inv n0 s -> asleep s -> closers s !! i = Some CWait -> rtc service_step s s' -> closers s' !! i = Some CWait.
Proof.
  intros Hi Ha Ei Hr. induction Hr as [|s1 s2 s3 Hs _ IH]; [done|]. apply IH.
  - by apply (service_step_inv n0 s1).
  - by apply (asleep_step n0 s1).
  - apply (waiting_step i s1); [done| |done]. destruct Ha as [-> _]. done.
Qed.

Lemma abandoned_steps n0 a r s s' :
  inv n0 s -> abandoned a r s -> rtc service_step s s' -> inv n0 s' /\ abandoned a r s'.
Proof.
  intros Hi Ha Hr. induction Hr as [|s1 s2 s3 Hs _ IH]; [done|]. apply IH.
  - by apply (service_step_inv n0 s1).
  - by apply (abandoned_step n0 a r s1).
Qed.

(** ** Concrete runs *)

Inductive event := ECreate | EPost (timer : ptr) (ns : Z) | EReactor | EShutdown | ERun (a : agent).

Fixpoint exec (es : list event) (s : service) : outcome service :=
  match es with
  | [] => Ret s
  | ECreate :: es => exec es (set_user_timers ({[fresh (timers s ∪ user_timers s)]} ∪ user_timers s) s)
  | EPost timer ns :: es =>
    if decide (permitted timer s)
    then exec es (set_posters (posters s ++ [PLoad timer ns]) s) else Fault AssertionFailed
  | EReactor :: es => exec es (set_reactors (reactors s ++ [RLoad]) s)
  | EShutdown :: es => exec es (set_closers (closers s ++ [CFetchOr]) s)
  | ERun a :: es => s ← (match step a s with Some r => r | None => Fault AssertionFailed end); exec es s
  end.

Lemma timer_exec_steps es : forall s s', exec es s = Ret s' -> rtc service_step s s'.
Proof.
  induction es as [|e es IH]; intros s s' E; [injection E as <-; apply rtc_refl|].
  destruct e as [|timer ns| | |a]; cbn [exec] in E; try (eapply rtc_l; [by constructor|by apply IH]).
  { case_decide; [|done]. eapply rtc_l; [by constructor|by apply IH]. }
  apply bind_Ret_inv in E as (s1 & E1 & E). destruct (step a s) as [r|] eqn:Er; [|done]. subst r.
  eapply rtc_l; [by eapply Run|by apply IH].
Qed.

Definition state_after (es : list event) (s : service) : service := match exec es s with Ret s => s | _ => s end.

Definition runs (k : nat) (a : agent) : list event := replicate k (ERun a).

(** A thread has passed the test of [post]; the service is shut down; only then
    the request is counted and pushed. *)
Definition late_script : list event :=
  EPost null 1000 :: runs 1 (Poster 0) ++ EShutdown :: runs 2 (Closer 0) ++ runs 1 (Worker false) ++ runs 1 (Worker true) ++
  runs 2 (Worker false) ++ runs 2 (Closer 0) ++ runs 6 (Poster 0).
Definition late_state : service := state_after late_script (timer_service 0).

(** A request's completion is in the port, not yet taken by the reactor, when
    the worker loads the in-flight count in [on_shutdown_request]. *)
Definition posted_script : list event :=
  EReactor :: runs 5 (Reactor 0 false) ++ EPost null 1000 :: runs 7 (Poster 0) ++ runs 3 (Worker false) ++
  runs 1 (Timer 0) ++ runs 1 (Worker true).
Definition hang_script : list event :=
  posted_script ++ EShutdown :: runs 2 (Closer 0) ++ runs 1 (Worker true) ++ runs 2 (Worker false) ++
  runs 3 (Reactor 0 false).
Definition hang_state : service := state_after hang_script (timer_service 0).

(** The same run with the reactor ahead of the shutdown. *)
Definition drained_script : list event :=
  posted_script ++ runs 3 (Reactor 0 false) ++ EShutdown :: runs 2 (Closer 0) ++ runs 1 (Worker true) ++ runs 1 (Worker false).
Definition drained_state : service := state_after drained_script (timer_service 0).

(** Two requests are posted with the same timer of the caller; the second one's
    expiration is handled, then the service is shut down. *)
Definition reuse_script : list event :=
  ECreate :: EReactor :: runs 5 (Reactor 0 false) ++ EPost (Some 1%positive) 1000 :: runs 7 (Poster 0) ++
  EPost (Some 1%positive) 1000 :: runs 7 (Poster 1) ++ runs 5 (Worker false).
Definition reuse_state : service := state_after reuse_script (timer_service 0).
Definition reuse_hang_script : list event :=
  reuse_script ++ runs 1 (Timer 0) ++ runs 1 (Worker true) ++ runs 3 (Reactor 0 false) ++ EShutdown :: runs 2 (Closer 0) ++
  runs 1 (Worker true) ++ runs 2 (Worker false).
Definition reuse_hang_state : service := state_after reuse_hang_script (timer_service 0).

(** The worker's wait for the mutex is over when the first request's timer has
    expired, and a thread that has the mutex is about to push the second. *)
Definition interrupt_script : list event :=
  EPost null 1000 :: runs 7 (Poster 0) ++ runs 2 (Worker false) ++ runs 1 (Timer 0) ++ EPost null 1000 :: runs 4 (Poster 1) ++
  runs 1 (Worker true).
Definition race_state : service := state_after interrupt_script (timer_service 0).

(** Two threads enter the reactor at the same time. *)
Definition race_script : list event :=
  EReactor :: EReactor :: runs 2 (Reactor 0 false) ++ runs 2 (Reactor 1 false) ++ runs 1 (Reactor 0 false) ++
  runs 1 (Reactor 1 false) ++ runs 2 (Reactor 0 false).

Lemma run_load i sp es s :
  reactors s !! i = Some RLoad ->
  exec (ERun (Reactor i sp) :: es) s = exec es (reactor_at i (RTest (n_active_reactors s)) s).
Proof. intros E. cbn [exec step]. by rewrite E. Qed.
Lemma run_test i sp st es s :
  reactors s !! i = Some (RTest st) ->
  exec (ERun (Reactor i sp) :: es) s = exec es (reactor_at i (if closed st then RDone else RCas st) s).
Proof. intros E. cbn [exec step]. by rewrite E. Qed.
Lemma run_cas i sp st es s :
  reactors s !! i = Some (RCas st) -> exec (ERun (Reactor i sp) :: es) s = exec es (enter_cas i st sp s).
Proof. intros E. cbn [exec step]. by rewrite E. Qed.
Lemma reactor_at_twice i p q s : reactor_at i p (reactor_at i q s) = reactor_at i p s.
Proof. unfold reactor_at, set_reactors. cbn. by rewrite list_insert_insert_eq. Qed.

(** ** Theorems *)

(** [timeout_to_filetime] splits the timeout into two
    32-bit words that read back, as the signed 64-bit number the system takes,
    as minus the duration in units of 100 ns: a relative due time. *)
Theorem filetime_relative ns :
  - 2 ^ 63 <= ns < 2 ^ 63 ->
  let ft := timeout_to_filetime ns in
  0 <= dwLowDateTime ft < 2 ^ 32 /\ 0 <= dwHighDateTime ft < 2 ^ 32 /\
  filetime_value ft = - Z.quot ns 100.
Proof.
  intros Hn. cbn. set (q := Z.quot ns 100).
  assert (- 2 ^ 57 < q < 2 ^ 57) as Hq.
  { unfold q. pose proof (Z.quot_rem' ns 100). pose proof (Z.rem_bound_abs ns 100 ltac:(lia)). lia. }
  pose proof (u64_range (-1 * q)) as Hu. split; [auto with coro|].
  rewrite Z.shiftr_div_pow2 by lia. split; [split; [apply Z.div_pos; lia|apply Z.div_lt_upper_bound; lia]|].
  unfold filetime_value, timeout_to_filetime. cbn [dwHighDateTime dwLowDateTime]. fold q. rewrite Z.shiftr_div_pow2 by lia.
  assert (u64 (-1 * q) / 2 ^ 32 * 2 ^ 32 + u32 (u64 (-1 * q)) = u64 (-1 * q)) as ->.
  { unfold u32. rewrite Z.mul_comm. symmetry. apply Z.div_mod. lia. }
  destruct (decide (q <= 0)).
  - rewrite u64_small by lia. rewrite decide_True by lia. lia.
  - assert (u64 (-1 * q) = 2 ^ 64 - q) as ->.
    { unfold u64. rewrite <- (Z.mod_small (2 ^ 64 - q) (2 ^ 64)) by lia.
      replace (-1 * q) with ((2 ^ 64 - q) + (-1) * 2 ^ 64) by lia. by rewrite Z.mod_add by lia. }
    rewrite decide_False by lia. lia.
Qed.

(** C24. Whatever the interleaving of posting threads, worker, timers, reactors and
    shutdowns: no step uses or destroys a request that is gone, closes a timer
    twice or takes from an empty queue; the only fault there is is a race for the
    queue's buffer, of a thread that pushes and the worker that is in it without
    the mutex; no completion handler is called twice for one request; and every
    request that has been made has either been handled or is in exactly one place
    of the system - which is an expiration that will never come only if the caller
    has used its own timer again. As long as no expired timer ends a wait of the
    worker for the mutex, there is no race either. *)
Theorem timer_requests_conserved n0 s :
  reachable (u32 n0) s ->
  (forall a r, step a s = Some r -> (exists s', r = Ret s') \/ r = Fault DataRace /\ races s = true) /\
  NoDup (handled s) /\
  (forall i p, posters s !! i = Some p -> submitted p = true ->
    i ∈ handled s \/ exists a r, heap s !! a = Some r /\ ctx r = i /\ held a s = 1%nat /\
      (a ∈ superseded s -> owned_timer r = false)) /\
  (rtc orderly_step (timer_service (u32 n0)) s -> forall a r, step a s = Some r -> exists s', r = Ret s').
Proof.
  intros Hr. pose proof (timer_steps_inv n0 _ _ (timer_inv_init n0) Hr) as Hi. pose proof (timer_steps_take _ _ Hr) as Ht.
  assert (forall a r, step a s = Some r -> (exists s', r = Ret s') \/ r = Fault DataRace /\ races s = true) as Hf.
  { intros a r E. destruct (step_ok n0 s a r Hi E) as [(s' & -> & _)|[?|[_ Hn]]]; [by eauto|by right|by destruct Hn]. }
  split; [done|]. split; [|split].
  - apply (inv_memory _ _ Hi).
  - intros i p Ei Hp. destruct (mem_posted _ _ _ _ _ (inv_memory _ _ Hi) i) as [|(a & r & Ea & Ec)]; [by exists p|by left|right].
    exists a, r. split; [done|]. split; [done|]. rewrite (inv_held _ _ Hi). unfold allocated. rewrite Ea. split; [done|].
    intros Ha. by eapply inv_superseded.
  - intros Ho a r E. destruct (Hf a r E) as [?|[_ Hrace]]; [done|]. unfold races in Hrace.
    by rewrite (orderly_locked _ _ Ho eq_refl) in Hrace.
Qed.

(** The race exists: the worker waits for the mutex, which a thread has that is
    about to push, and the timer of an earlier request expires; the wait is over
    and the worker looks into the buffer. *)
Theorem worker_races :
  exists s, reachable 0 s /\ races s = true /\
    step (Worker false) s = Some (Fault DataRace) /\ step (Poster 1) s = Some (Fault DataRace).
Proof.
  exists race_state. split; [apply (timer_exec_steps interrupt_script); vm_compute; reflexivity|]. split; [reflexivity|]. split; reflexivity.
Qed.

(** If the in-flight count starts from zero, the worker
    leaves [on_shutdown_request] only when every request posted so far has been
    handled or is at a reactor about to call its handler: no queue, timer or APC
    of the worker holds a request then. *)
Theorem worker_exit_drained s s' :
  reachable 0 s -> Z.of_nat (counted s) < 2 ^ 32 ->
  step (Worker false) s = Some (Ret s') -> worker s = Waiting -> worker s' = Exited ->
  requests s = [] /\ armed s = [] /\
  forall i p, posters s !! i = Some p -> submitted p = true ->
    i ∈ handled s \/ exists j a r, reactors s !! j = Some (RCall a) /\ heap s !! a = Some r /\ ctx r = i.
Proof.
  intros Hr Hb E Hw Hx. pose proof (timer_steps_inv 0 _ _ (timer_inv_init 0) Hr) as Hi.
  cbn in E. unfold worker_step in E. rewrite Hw in E. injection E as <-. cbn in Hx.
  case_decide as Hn; [done|]. rewrite (inv_counted _ _ Hi), u32_small in Hn by lia.
  assert (counted s = 0%nat) as Hc by lia. unfold counted in Hc.
  destruct (requests s) as [|? ?] eqn:Er; [|cbn in Hc; lia]. destruct (armed s) as [|? ?] eqn:Ea; [|cbn in Hc; lia].
  destruct (superseded s) as [|? ?] eqn:Es; [|cbn in Hc; lia].
  split; [done|]. split; [done|]. intros i p Ei Hsub.
  destruct (mem_posted _ _ _ _ _ (inv_memory _ _ Hi) i) as [|(a & r & Eh & Ec)]; [by exists p|by left|right].
  pose proof (inv_held _ _ Hi a) as Hh. unfold held, allocated in Hh. rewrite Eh, Hw, Er, Ea, Es in Hh.
  cbn [sum_list_with hand at_addr] in Hh.
  assert (forall c : list apc, sum_list_with (fun c => some (apc_req c)) c = 0%nat ->
    sum_list_with (fun c => at_addr a (apc_req c)) c = 0%nat) as Hapc.
  { intros c. induction c as [|[?|] c IHc]; cbn; lia. }
  assert (forall c : list completion, sum_list_with (fun c => some (port_req c)) c = 0%nat ->
    sum_list_with (fun c => at_addr a (port_req c)) c = 0%nat) as Hport.
  { intros c. induction c as [|[?|] c IHc]; cbn; lia. }
  assert (forall l, sum_list_with adding l = 0%nat -> sum_list_with (fun p => at_addr a (poster_req p)) l = 0%nat) as Hpost.
  { intros l. induction l as [|p' l IHl]; cbn; [done|]. intros H0. rewrite IHl by lia. by destruct p'. }
  rewrite Hapc, Hport, Hpost in Hh by lia.
  assert (forall l, sum_list_with removing l = 0%nat -> (0 < sum_list_with (fun r => at_addr a (reactor_req r)) l)%nat ->
    exists j, l !! j = Some (RCall a)) as Hre.
  { intros l. induction l as [|c l IH]; cbn; [lia|]. intros H0 H1.
    destruct c as [| | | |b|b| |]; cbn in *; try (destruct (IH ltac:(lia) ltac:(lia)) as [j Ej]; by exists (S j)).
    destruct (decide (b = a)) as [->|]; [by exists 0%nat|].
    destruct (IH ltac:(lia) ltac:(lia)) as [j Ej]. by exists (S j). }
  destruct (Hre (reactors s)) as [j Ej]; [lia|lia|]. by exists j, a, r.
Qed.

(** A request whose posting thread passed the closed test
    before [shutdown] but pushed after the worker had exited is never handled,
    although [post] has answered true and [shutdown] has returned. *)
Theorem late_post_is_lost :
  exists s, reachable 0 s /\ posters s !! 0%nat = Some Posted /\ closers s !! 0%nat = Some CReturned /\
    forall s', rtc service_step s s' -> 0%nat ∉ handled s'.
Proof.
  exists late_state. assert (reachable 0 late_state) as Hr by (apply (timer_exec_steps late_script); vm_compute; reflexivity).
  split; [done|]. split; [reflexivity|]. split; [reflexivity|]. intros s' Hs.
  destruct (abandoned_steps 0 1 (Request (timeout_to_filetime 1000) 1 0 true) late_state s') as [Hi (_ & _ & Eh)].
  - exact (timer_steps_inv 0 _ _ (timer_inv_init 0) Hr).
  - split; [reflexivity|]. split; [|reflexivity]. apply list_elem_of_In. vm_compute. by left.
  - done.
  - by destruct (mem_ctx _ _ _ _ _ (inv_memory _ _ Hi) _ _ Eh).
Qed.

(** C26. [shutdown] does not always return: if the worker loads
    the in-flight count while the last completion is still in the port, it goes
    to sleep, no APC is left to wake it once the reactor has handled the
    completion, and the thread in [shutdown] waits for ever. *)
Theorem shutdown_hangs :
  exists s, reachable 0 s /\ handled s = [0%nat] /\ n_inflight_timers s = 0 /\ requests s = [] /\
    closers s !! 0%nat = Some CWait /\
    forall s', rtc service_step s s' -> closers s' !! 0%nat = Some CWait.
Proof.
  exists hang_state. assert (reachable 0 hang_state) as Hr by (apply (timer_exec_steps hang_script); vm_compute; reflexivity).
  split; [done|]. split; [reflexivity|]. split; [reflexivity|]. split; [reflexivity|]. split; [reflexivity|].
  intros s' Hs. apply (asleep_for_ever 0 0 hang_state s'); [exact (timer_steps_inv 0 _ _ (timer_inv_init 0) Hr)| |reflexivity|done].
  split; [reflexivity|]. split; [reflexivity|]. split; [reflexivity|]. split; [reflexivity|]. split.
  - intros [|i]; vm_compute; congruence.
  - intros [|i] st; vm_compute; congruence.
Qed.

(** C25. A request whose timer - the caller's - is set again for another request
    before it has expired is never handled, although it has been posted. *)
Theorem superseded_never_handled n0 s a r :
  reachable (u32 n0) s -> a ∈ superseded s -> heap s !! a = Some r ->
  (exists p, posters s !! ctx r = Some p /\ pushed p = true) /\ forall s', rtc service_step s s' -> ctx r ∉ handled s'.
Proof.
  intros Hr Ha H. pose proof (timer_steps_inv n0 _ _ (timer_inv_init n0) Hr) as Hi. split.
  - eapply elsewhere_pushed; eauto.
  - intros s' Hs. destruct (superseded_steps n0 a r s s' Hi Ha H Hs) as (Hi' & _ & H').
    by destruct (mem_ctx _ _ _ _ _ (inv_memory _ _ Hi') _ _ H').
Qed.

(** And as it stays in flight, [shutdown] then waits for it for ever. *)
Theorem reused_timer_hangs :
  exists s, reachable 0 s /\ posters s = [Posted; Posted] /\ handled s = [1%nat] /\ n_inflight_timers s = 1 /\
    closers s !! 0%nat = Some CWait /\ forall s', rtc service_step s s' -> closers s' !! 0%nat = Some CWait.
Proof.
  exists reuse_hang_state.
  assert (reachable 0 reuse_hang_state) as Hr by (apply (timer_exec_steps reuse_hang_script); vm_compute; reflexivity).
  split; [done|]. split; [reflexivity|]. split; [reflexivity|]. split; [reflexivity|]. split; [reflexivity|].
  intros s' Hs. apply (asleep_for_ever 0 0 reuse_hang_state s'); [exact (timer_steps_inv 0 _ _ (timer_inv_init 0) Hr)| |reflexivity|done].
  split; [reflexivity|]. split; [reflexivity|]. split; [reflexivity|]. split; [reflexivity|]. split.
  - intros [|i]; vm_compute; congruence.
  - intros [|i] st; vm_compute; congruence.
Qed.

(** A thread that enters the reactor while no other
    does so is counted exactly once, for all that the loop of
    [try_enter_reactor] goes on after a successful exchange; when the service is
    closed it does not enter. *)
Theorem reactor_enters_alone s i :
  reactors s !! i = Some RLoad -> 0 <= n_active_reactors s < 2 ^ 32 - 2 ->
  if closed (n_active_reactors s)
  then exec (runs 2 (Reactor i false)) s = Ret (reactor_at i RDone s)
  else exec (runs 5 (Reactor i false)) s = Ret (reactor_at i RGet (set_word (n_active_reactors s + 2) s)).
Proof.
  intros Ei Hw. unfold runs. cbn [replicate].
  assert (forall p s', reactors s' = reactors s -> reactors (reactor_at i p s') !! i = Some p) as Hat.
  { intros p s' E. cbn. rewrite E. apply list_lookup_insert_eq. eauto with coro. }
  destruct (closed (n_active_reactors s)) eqn:Ec.
  - rewrite (run_load i) by done. rewrite (run_test i _ (n_active_reactors s)) by (by apply Hat). rewrite Ec. cbn [exec]. by rewrite reactor_at_twice.
  - rewrite (run_load i) by done. rewrite (run_test i _ (n_active_reactors s)) by (by apply Hat). rewrite Ec, reactor_at_twice.
    rewrite (run_cas i _ (n_active_reactors s)) by (by apply Hat).
    unfold enter_cas at 1. rewrite decide_True by done.
    change (set_word ?z (reactor_at i ?p s)) with (reactor_at i p (set_word z s)). rewrite reactor_at_twice.
    rewrite (run_test i _ (n_active_reactors s)) by (by apply Hat). rewrite Ec, reactor_at_twice.
    rewrite (run_cas i _ (n_active_reactors s)) by (by apply Hat).
    unfold enter_cas, NEW_REACTOR_INCREMENT. cbn [n_active_reactors reactor_at set_reactors set_word].
    rewrite u32_small by lia. rewrite decide_False by lia. cbn [exec].
    change (set_reactors (<[i := ?p]> (reactors ?s)) ?s) with (reactor_at i p s). by rewrite reactor_at_twice.
Qed.

(** But of two threads that enter at the same time
    one is not counted: both are in the loop and the word says one. *)
Theorem reactor_enters_uncounted :
  exists s, reachable 0 s /\ reactors s = [RGet; RGet] /\ n_active_reactors s = NEW_REACTOR_INCREMENT.
Proof.
  exists (state_after race_script (timer_service 0)).
  split; [apply (timer_exec_steps race_script); vm_compute; reflexivity|]. split; reflexivity.
Qed.

(** ** Witnesses *)

Lemma filetime_relative_witness :
  let ft := timeout_to_filetime 2000000000 in
  0 <= dwLowDateTime ft < 2 ^ 32 /\ 0 <= dwHighDateTime ft < 2 ^ 32 /\
  filetime_value ft = - Z.quot 2000000000 100.
Proof. apply (filetime_relative 2000000000). lia. Defined.

Lemma hang_reachable : reachable (u32 0) hang_state.
Proof. apply (timer_exec_steps hang_script). vm_compute. reflexivity. Qed.

Lemma timer_requests_conserved_witness :
  posters hang_state !! 0%nat = Some Posted /\
  (forall a r, step a hang_state = Some r -> exists s', r = Ret s') /\
  NoDup (handled hang_state) /\
  (0%nat ∈ handled hang_state \/ exists a r, heap hang_state !! a = Some r /\ ctx r = 0%nat /\
      held a hang_state = 1%nat /\ (a ∈ superseded hang_state -> owned_timer r = false)).
Proof.
  destruct (timer_requests_conserved 0 hang_state hang_reachable) as (Hf & Hd & Hp & _).
  split; [reflexivity|]. split; [|split; [exact Hd|by apply (Hp 0%nat Posted)]].
  intros a r E. destruct (Hf a r E) as [?|[_ Hr]]; [done|]. vm_compute in Hr. discriminate Hr.
Defined.

Lemma reuse_reachable : reachable (u32 0) reuse_state.
Proof. apply (timer_exec_steps reuse_script). vm_compute. reflexivity. Qed.

Lemma superseded_never_handled_witness :
  (exists p, posters reuse_state !! 0%nat = Some p /\ pushed p = true) /\ forall s', rtc service_step reuse_state s' -> 0%nat ∉ handled s'.
Proof.
  apply (superseded_never_handled 0 reuse_state 1%positive (Request (timeout_to_filetime 1000) 1 0 false) reuse_reachable).
  - vm_compute. left.
  - by vm_compute.
Defined.

Lemma drained_reachable : reachable 0 drained_state.
Proof. apply (timer_exec_steps drained_script). vm_compute. reflexivity. Qed.

Lemma worker_exit_drained_witness :
  posters drained_state !! 0%nat = Some Posted /\
  requests drained_state = [] /\ armed drained_state = [] /\
  forall i p, posters drained_state !! i = Some p -> submitted p = true ->
    i ∈ handled drained_state \/
    exists j a r, reactors drained_state !! j = Some (RCall a) /\ heap drained_state !! a = Some r /\ ctx r = i.
Proof.
  split; [reflexivity|].
  apply (worker_exit_drained drained_state (set_worker Exited drained_state)).
  - exact drained_reachable.
  - vm_compute. reflexivity.
  - vm_compute. reflexivity.
  - reflexivity.
  - reflexivity.
Defined.

Lemma reactor_enters_alone_witness :
  let s := state_after [EReactor] (timer_service 0) in
  exec (runs 5 (Reactor 0 false)) s = Ret (reactor_at 0 RGet (set_word 2 s)).
Proof.
  apply (reactor_enters_alone (state_after [EReactor] (timer_service 0)) 0).
  - reflexivity.
  - vm_compute. split; [discriminate|reflexivity].
Defined.
End TimerService.
