(* ===== verification/TimerPost.v ===== *)
(** * TimerPost: posting to the service of applications/timers/win-iocp/timer_service.hpp

    [post], [post_with_handle] and the awaitable as functions, the way a caller
    sees them when no other thread interferes: what they return, and what they
    leave for the worker. The theorems relate them to the interleaved steps of
    TimerService: without interference these steps compute the functions, and a
    request made through the awaitable is the one that [post] makes. *)

From S2P Require Import Prelude TimerService.
Local Open Scope Z_scope.

Module TimerPost.
Import TimerService.

(** [std::make_unique<timer_request>] with a timeout already converted *)
Definition new_request (timer : ptr) (timeout : FILETIME) (ctx : nat) (s : service) : addr * service :=
  let a := fresh (dom (heap s)) in
  match timer with
  | None =>
    let t := fresh (timers s ∪ user_timers s) in
    (a, set_memory (<[a := Request timeout t ctx true]> (heap s)) ({[t]} ∪ timers s) s)
  | Some t => (a, set_memory (<[a := Request timeout t ctx false]> (heap s)) (timers s) s)
  end.

(** The whole of [queue::push], by a thread that gets the mutex *)
Definition queue_push (obj : addr) (s : service) : service := set_non_empty true (push obj s).

(** ** post *)

(** The result, and the service; [timeout] in nanoseconds. *)
Definition post (timeout : Z) (ctx : nat) (s : service) : bool * service :=
  let state := n_active_reactors s in
  if closed state then (false, s)
  else
    let s := add_inflight_timer s in
    let as_filetime := timeout_to_filetime timeout in
    let '(req, s) := new_request null as_filetime ctx s in
    (true, queue_push req s).

Definition post_with_handle (timer : addr) (timeout : Z) (ctx : nat) (s : service) : bool * service :=
  let state := n_active_reactors s in
  if closed state then (false, s)
  else
    let s := add_inflight_timer s in
    let as_filetime := timeout_to_filetime timeout in
    let '(req, s) := new_request (Some timer) as_filetime ctx s in
    (true, queue_push req s).

(** ** The awaitable *)

Record awaitable := Awaitable { posted : bool; aw_timeout : FILETIME; user_timer : ptr }.

Definition awaitable_owned (timeout_ : Z) : awaitable := Awaitable false (timeout_to_filetime timeout_) null.
Definition awaitable_user (timer_ : addr) (timeout_ : Z) : awaitable :=
  Awaitable false (timeout_to_filetime timeout_) (Some timer_).

Definition post_awaitable (timeout : Z) : awaitable := awaitable_owned timeout.

(** [post_awaitable_with_handle] has no instance: it passes the timer for the
    timeout and the timeout for the timer. *)
Definition await_ready (aw : awaitable) : bool := false.

(** Whether the coroutine suspends *)
Definition await_suspend (aw : awaitable) (awaiting_coro : nat) (s : service) : bool * awaitable * service :=
  let state := n_active_reactors s in
  if closed state then (false, aw, s)
  else
    let s := add_inflight_timer s in
    let aw := Awaitable true (aw_timeout aw) (user_timer aw) in
    let '(request, s) :=
      match user_timer aw with
      | Some timer => new_request (Some timer) (aw_timeout aw) awaiting_coro s
      | None => new_request null (aw_timeout aw) awaiting_coro s
      end in
    (true, aw, queue_push request s).

Definition await_resume (aw : awaitable) : bool := posted aw.

(** ** The functions and the steps *)

Lemma make_request_eq timer ns ctx s : make_request timer ns ctx s = new_request timer (timeout_to_filetime ns) ctx s.
Proof. done. Qed.

(** What [post] and [post_with_handle] have in common *)
Definition post_request (timer : ptr) (timeout : Z) : nat -> service -> bool * service :=
  match timer with Some t => post_with_handle t timeout | None => post timeout end.

(** A thread's own steps change its place in the list, over and over. *)
Lemma poster_at_twice i p q s : poster_at i p (poster_at i q s) = poster_at i p s.
Proof. unfold poster_at, set_posters. cbn. by rewrite list_insert_insert_eq. Qed.

Lemma poster_at_set s i p : (i < length (posters s))%nat -> posters (poster_at i p s) !! i = Some p.
Proof. intros Hi. by apply list_lookup_insert_eq. Qed.

(** A thread that takes the mutex, which is free, pushes, releases it and sets the
    event. *)
Lemma push_runs i a s :
  (i < length (posters s))%nat -> mutex_free s = true -> unlocked (worker s) = false ->
  rtc service_step (poster_at i (PLock a) s) (poster_at i Posted (queue_push a s)).
Proof.
  intros Hi Hm Hu. assert (mutex_free (poster_at i (PLock a) s) = true) as Hm'.
  { apply mutex_free_spec. intros j p [(_ & <- & _)|[_ Hp]]%list_lookup_insert_Some; [done|].
    by apply (proj1 (mutex_free_spec s) Hm j). }
  eapply rtc_l; [apply (Run _ (poster_at i (PPush a) s) (Poster i)); cbn [step]; rewrite poster_at_set by done;
    unfold post_lock; rewrite Hm'; cbn; by rewrite poster_at_twice|].
  eapply rtc_l; [apply (Run _ (poster_at i PRelease (push a s)) (Poster i)); cbn [step]; rewrite poster_at_set by done;
    unfold post_push, races; cbn [worker poster_at set_posters]; rewrite Hu; cbn [andb];
    by change (push a (poster_at i (PPush a) s)) with (poster_at i (PPush a) (push a s)); rewrite poster_at_twice|].
  eapply rtc_l; [apply (Run _ (poster_at i PSet (push a s)) (Poster i)); cbn [step]; rewrite poster_at_set by done;
    unfold post_release; by rewrite poster_at_twice|].
  apply rtc_once. apply (Run _ _ (Poster i)). cbn [step]. rewrite poster_at_set by done. unfold post_set_event.
  change (set_non_empty true (poster_at i PSet (push a s))) with (poster_at i PSet (queue_push a s)). by rewrite poster_at_twice.
Qed.

(** One thread alone: the load, the increment, and the request's construction
    and push. *)
Lemma poster_runs i timer ns s :
  posters s !! i = Some (PLoad timer ns) -> mutex_free s = true -> unlocked (worker s) = false ->
  let '(ok, s') := post_request timer ns i s in
  rtc service_step s (poster_at i (if ok then Posted else Denied) s').
Proof.
  intros E Hm Hu. assert (i < length (posters s))%nat as Hi by by eapply lookup_lt_Some.
  assert (service_step s (post_load i timer ns s)) as H1 by (apply (Run _ _ (Poster i)); cbn; by rewrite E).
  unfold post_load in H1. destruct (closed (n_active_reactors s)) eqn:Ec.
  - assert (post_request timer ns i s = (false, s)) as -> by (unfold post_request, post, post_with_handle; destruct timer; by rewrite Ec).
    by apply rtc_once.
  - set (s1 := add_inflight_timer s).
    assert (post_request timer ns i s = (true, let '(a, s') := new_request timer (timeout_to_filetime ns) i s1 in queue_push a s')) as ->.
    { unfold post_request, post, post_with_handle. destruct timer; by rewrite Ec. }
    assert (service_step (poster_at i (PAdd timer ns) s) (poster_at i (PSubmit timer ns) s1)) as H2.
    { apply (Run _ _ (Poster i)). cbn [step]. rewrite poster_at_set by done. unfold post_add.
      change (add_inflight_timer (poster_at i (PAdd timer ns) s)) with (poster_at i (PAdd timer ns) s1). by rewrite poster_at_twice. }
    eapply rtc_l; [exact H1|]. eapply rtc_l; [exact H2|].
    eapply rtc_l; [apply (Run _ _ (Poster i)); cbn [step]; rewrite poster_at_set by done; reflexivity|].
    unfold post_submit, make_request, new_request. destruct timer as [t|].
    + set (s2 := set_memory _ _ (poster_at i _ s1)). change s2 with (poster_at i (PSubmit (Some t) ns)
        (set_memory (<[fresh (dom (heap s)) := Request (timeout_to_filetime ns) t i false]> (heap s1)) (timers s1) s1)).
      rewrite poster_at_twice. by apply push_runs.
    + set (s2 := set_memory _ _ (poster_at i _ s1)). change s2 with (poster_at i (PSubmit None ns)
        (set_memory (<[fresh (dom (heap s)) := Request (timeout_to_filetime ns) (fresh (timers s ∪ user_timers s)) i true]> (heap s1))
          ({[fresh (timers s ∪ user_timers s)]} ∪ timers s1) s1)).
      rewrite poster_at_twice. by apply push_runs.
Qed.

(** ** Posting through the awaitable *)

(** What a request stands for: the timer that is to be set, the time at which it
    is due (in units of 100 ns from now), the coroutine or context, and whether
    the timer is closed with it. *)
Definition due (r : timer_request) : Z * nat := (- filetime_value (TimerService.timeout r), ctx r).

(** [co_await] posts what [post] (or [post_with_handle], when the awaitable has
    a timer of the user's) posts for the address of the coroutine: the same
    service results, the coroutine suspends exactly when the request is
    accepted, and it is resumed with [true]; a service that is shut down is left
    as it was, and the coroutine goes on at once with [false]. An accepted
    request is the newest of the queue, with the timeout rounded down to 100 ns
    and one more timer in flight. *)
Theorem awaitable_posts aw timeout coro s :
  aw = post_awaitable timeout \/ (exists t, aw = awaitable_user t timeout) ->
  0 <= timeout < 2 ^ 63 ->
  let '(suspended, aw', s') := await_suspend aw coro s in
  post_request (user_timer aw) timeout coro s = (suspended, s') /\
  await_resume aw' = suspended /\ suspended = negb (closed (n_active_reactors s)) /\
  if suspended then
    exists a r, a ∉ dom (heap s) /\ heap s' = <[a := r]> (heap s) /\ requests s' = requests s ++ [a] /\
      due r = (timeout / 100, coro) /\ owned_timer r = bool_decide (user_timer aw = null) /\
      n_inflight_timers s' = u32 (n_inflight_timers s + 1) /\
      (forall t, user_timer aw = Some t -> timer_object r = t /\ timers s' = timers s) /\
      (user_timer aw = null -> timer_object r ∉ timers s ∪ user_timers s /\ timers s' = {[timer_object r]} ∪ timers s)
  else s' = s.
Proof.
  intros Haw Ht. assert (aw_timeout aw = timeout_to_filetime timeout /\ posted aw = false) as [Eft Ep].
  { by destruct Haw as [->|[t ->]]. }
  assert (forall t o, due (Request (timeout_to_filetime timeout) t coro o) = (timeout / 100, coro)) as Hdue.
  { intros t o. unfold due. cbn [TimerService.timeout ctx]. destruct (filetime_relative timeout) as (_ & _ & ->); [lia|].
    rewrite Z.quot_div_nonneg by lia. f_equal. lia. }
  unfold await_suspend. rewrite Eft. destruct (closed (n_active_reactors s)) eqn:Ec.
  { split; [|by rewrite <- Ep]. unfold post_request, post, post_with_handle. by destruct (user_timer aw); rewrite Ec. }
  unfold post_request, post, post_with_handle. cbn [user_timer aw_timeout].
  destruct (user_timer aw) as [t|]; rewrite Ec; cbn [new_request]; do 3 (split; [done|]);
    eexists _, _; (split; [apply is_fresh|]); (split; [reflexivity|]); (split; [reflexivity|]);
    (split; [apply Hdue|]); do 2 (split; [done|]).
  - split; [by intros ? [= <-]|]. intros E. by inversion E.
  - split; [|by split; [apply is_fresh|]]. intros ? E. by inversion E.
Qed.

Lemma awaitable_posts_witness :
  let '(suspended, aw', s') := await_suspend (post_awaitable 1500) 4 (timer_service 0) in
  post_request null 1500 4 (timer_service 0) = (suspended, s') /\ await_resume aw' = suspended /\
  suspended = true /\
  if suspended then
    exists a r, a ∉ dom (heap (timer_service 0)) /\ heap s' = <[a := r]> (heap (timer_service 0)) /\
      requests s' = [a] /\ due r = (15, 4%nat) /\ owned_timer r = true /\ n_inflight_timers s' = 1 /\
      (forall t, null = Some t -> timer_object r = t /\ timers s' = timers (timer_service 0)) /\
      (null = null -> timer_object r ∉ timers (timer_service 0) ∪ user_timers (timer_service 0) /\
        timers s' = {[timer_object r]} ∪ timers (timer_service 0))
  else s' = timer_service 0.
Proof. apply (awaitable_posts (post_awaitable 1500) 1500 4 (timer_service 0)); [by left|lia]. Defined.
End TimerPost.
