(* ===== verification/TimerDriver.v ===== *)
(** * TimerDriver: applications/timers/win-iocp/driver_vanilla.cpp and driver_awaitable.cpp

    The programs on top of [TimerService]. In the first one a thread posts a timer request, waits
    for the event that the completion handler sets, and so on [n_reps] times
    before it shuts the service down, while [main] runs the reactor. In the
    second one a coroutine that [main] calls does the same with [co_await]. The
    steps interleave with those of the service's worker and with the timers. What the
    in-flight count starts from is a parameter, for the service's constructor does
    not set it. *)

From S2P Require Import Prelude Words TimerService.
Local Open Scope Z_scope.

Module TimerDriver.
Import TimerService.

(** ** The program *)

(** Where the thread [wait_for_n_timers] is: at the head of its loop, in [post],
    waiting for the event, before [puts], before [ResetEvent], in [shutdown()]. *)
Inductive waiter_pc :=
| WLoop (count : nat) | WPost (count : nat) | WWait (count : nat) | WPuts (count : nat) | WReset (count : nat)
| WShutdown | WDone.

(** Where [main] is: in [service.run()], in [fut.wait()], at its end. *)
Inductive main_pc := MRun | MWait | MReturned.

(** [event]: whether it is set; [out]: the number of lines printed. *)
Record program := Program { svc : service; waiter : waiter_pc; main : main_pc; event : bool; out : nat }.

(** [2s] *)
Definition two_seconds : Z := 2 * 10 ^ 9.

Definition with_svc (s : program) (v : service) : program := Program v (waiter s) (main s) (event s) (out s).

(** A step of the service. *)
Definition of_service (a : agent) (s : program) : option (outcome program) :=
  match step a (svc s) with Some r => Some (v ← r; Ret (with_svc s v)) | None => None end.

(** A step of [wait_for_n_timers]. Its [i]-th post is the service's [i]-th poster;
    it is the first thread that shuts down. What [post] returns is not used. *)
Definition waiter_step (n_reps : nat) (s : program) : option (outcome program) :=
  match waiter s with
  | WLoop count =>
    Some (Ret (if decide (count < n_reps)%nat
      then Program (set_posters (posters (svc s) ++ [PLoad null two_seconds]) (svc s)) (WPost count) (main s) (event s) (out s)
      else Program (set_closers (closers (svc s) ++ [CFetchOr]) (svc s)) WShutdown (main s) (event s) (out s)))
  | WPost count =>
    match posters (svc s) !! count with
    | Some (Posted | Denied) => Some (Ret (Program (svc s) (WWait count) (main s) (event s) (out s)))
    | _ => of_service (Poster count) s
    end
  | WWait count => if event s then Some (Ret (Program (svc s) (WPuts count) (main s) true (out s))) else None
  | WPuts count => Some (Ret (Program (svc s) (WReset count) (main s) (event s) (S (out s))))
  | WReset count => Some (Ret (Program (svc s) (WLoop (S count)) (main s) false (out s)))
  | WShutdown =>
    match closers (svc s) !! 0%nat with
    | Some CReturned => Some (Ret (Program (svc s) WDone (main s) (event s) (out s)))
    | _ => of_service (Closer 0) s
    end
  | WDone => None
  end.

(** The handler of every request: [SetEvent(event)] *)
Definition completion_handler (s : program) : program := Program (svc s) (waiter s) (main s) true (out s).

(** A step of [main]. *)
Definition main_step (spurious : bool) (s : program) : option (outcome program) :=
  match main s with
  | MRun =>
    match reactors (svc s) !! 0%nat with
    | Some RDone => Some (Ret (Program (svc s) (waiter s) MWait (event s) (out s)))
    | Some (RCall _) => of_service (Reactor 0 spurious) (completion_handler s)
    | _ => of_service (Reactor 0 spurious) s
    end
  | MWait => match waiter s with WDone => Some (Ret (Program (svc s) (waiter s) MReturned (event s) (out s))) | _ => None end
  | MReturned => None
  end.

Inductive driver_step (n_reps : nat) : program -> program -> Prop :=
| StepWaiter s s' : waiter_step n_reps s = Some (Ret s') -> driver_step n_reps s s'
| StepMain s s' spurious : main_step spurious s = Some (Ret s') -> driver_step n_reps s s'
| StepWorker s s' alert : of_service (Worker alert) s = Some (Ret s') -> driver_step n_reps s s'
| StepTimer s s' i : of_service (Timer i) s = Some (Ret s') -> driver_step n_reps s s'.

(** [n0] is what the in-flight count, which the constructor does not set, starts from. *)
Definition init (n0 : Z) : program := Program (set_reactors [RLoad] (timer_service (u32 n0))) (WLoop 0) MRun false 0.

Definition driver_reachable (n0 : Z) (n_reps : nat) (s : program) : Prop := rtc (driver_step n_reps) (init n0) s.

(** The worker looks into the empty queue, or finds the event set and goes to look again. *)
Definition idle (s s' : program) : Prop :=
  (worker (svc s) = Popping \/ exists woken, worker (svc s) = WaitEvent woken) /\
  hand (worker (svc s')) = None /\ of_service (Worker false) s = Some (Ret s').
Definition effective (n_reps : nat) (s s' : program) : Prop := driver_step n_reps s s' /\ ~ idle s s'.

(** What the next step of any of them does. *)
Definition next_step (n_reps : nat) (s : program) (x : outcome program) : Prop :=
  waiter_step n_reps s = Some x \/ (exists spurious, main_step spurious s = Some x) \/
  (exists alert, of_service (Worker alert) s = Some x) \/ (exists i, of_service (Timer i) s = Some x).

(** No expired timer ends a wait of the worker for the mutex. *)
Definition orderly (n_reps : nat) (s s' : program) : Prop := driver_step n_reps s s' /\ ~ interrupted (svc s) (svc s').

(** The program is over: a line for every repetition, the requests handled in order. *)
Definition complete (n_reps : nat) (s : program) : Prop :=
  main s = MReturned /\ waiter s = WDone /\ out s = n_reps /\ handled (svc s) = seq 0 n_reps /\ heap (svc s) = ∅ /\
  worker (svc s) = Exited /\ nf (driver_step n_reps) s.

(** All the requests have been handled, but the worker sleeps in [on_shutdown_request],
    and the thread waits for it in [shutdown()]. *)
Definition stranded (n_reps : nat) (s : program) : Prop :=
  main s <> MReturned /\ waiter s = WShutdown /\ out s = n_reps /\ handled (svc s) = seq 0 n_reps /\ heap (svc s) = ∅ /\
  worker (svc s) = Sleeping /\ nf (driver_step n_reps) s.

(** ** The invariant *)

(** The worker before the shutdown; and with nothing in its hands. *)
Definition running (w : worker_pc) : Prop :=
  match w with Popping | WaitEvent _ | Arming _ | Unlocked false | UnlockedTake false => True | _ => False end.
Definition looking (w : worker_pc) : Prop := match w with Popping | WaitEvent _ | Unlocked false => True | _ => False end.

Section Driver.
Variable n0 : Z.

(** Before the service is closed ... *)
Definition open_phase (v : service) (r : reactor) : Prop :=
  closed (n_active_reactors v) = false /\ 0 <= n_active_reactors v < 2 ^ 32 /\ ShutdownApc ∉ apcs v /\
  SHUTDOWN_KEY ∉ port v /\ running (worker v) /\
  match r with RTest st | RCas st => closed st = false | RLeave | RDone => False | _ => True end.

(** ... and after. *)
Definition shut (v : service) (r : reactor) : Prop :=
  closed (n_active_reactors v) = true /\ 0 < n_active_reactors v /\
  match r with RLoad | RTest _ | RGet | RDone => True | RCas st => closed st = false | _ => False end.

Definition closing_phase (c : closer) (v : service) (r : reactor) : Prop :=
  requests v = [] /\ armed v = [] /\
  match c with
  | CFetchOr => open_phase v r /\ apcs v = [] /\ port v = [] /\ looking (worker v) /\ reactor_req r = None
  | CQueueApc => shut v r /\ apcs v = [] /\ port v = [] /\ looking (worker v)
  | CWait => shut v r /\ port v = [] /\
      (looking (worker v) /\ apcs v = [ShutdownApc] \/
       apcs v = [] /\ (worker v = Draining \/ worker v = Waiting \/
         worker v = Exited /\ u32 n0 = 0 \/ worker v = Sleeping /\ u32 n0 <> 0))
  | CPost => shut v r /\ port v = [] /\ apcs v = [] /\ worker v = Exited /\ u32 n0 = 0
  | CReturned => apcs v = [] /\ (worker v = Exited /\ u32 n0 = 0) /\
      (shut v r /\ port v <> [] /\ Forall (fun c => c = SHUTDOWN_KEY) (port v) \/ r = RLeave \/ r = RDone)
  end.

Definition phase (v : service) (r : reactor) : Prop :=
  match closers v with [] => open_phase v r | [c] => closing_phase c v r | _ => False end.

(** The [k]-th request has been handled and its event is still set, or neither. *)
Definition served (k : nat) (done : list nat) (ev : bool) : Prop :=
  done = seq 0 k /\ ev = false \/ done = seq 0 (S k) /\ ev = true.

(** The request is still with the thread that posts it. *)
Definition posting (p : poster) : Prop :=
  match p with
  | PLoad timer ns | PAdd timer ns | PSubmit timer ns => timer = null /\ ns = two_seconds
  | PLock _ | PPush _ => True
  | _ => False
  end.

Definition waiter_ok (n : nat) (w : waiter_pc) (ps : list poster) (done : list nat) (ev : bool) (o : nat)
    (cs : list closer) : Prop :=
  match w with
  | WLoop k => (k <= n)%nat /\ ps = replicate k Posted /\ done = seq 0 k /\ ev = false /\ o = k /\ cs = []
  | WPost k => (k < n)%nat /\ o = k /\ cs = [] /\ exists p, ps = replicate k Posted ++ [p] /\
      (posting p /\ done = seq 0 k /\ ev = false \/ pushed p = true /\ served k done ev)
  | WWait k => (k < n)%nat /\ o = k /\ cs = [] /\ ps = replicate k Posted ++ [Posted] /\ served k done ev
  | WPuts k => (k < n)%nat /\ o = k /\ cs = [] /\ ps = replicate k Posted ++ [Posted] /\ done = seq 0 (S k) /\ ev = true
  | WReset k => (k < n)%nat /\ o = S k /\ cs = [] /\ ps = replicate k Posted ++ [Posted] /\ done = seq 0 (S k) /\ ev = true
  | WShutdown => o = n /\ ps = replicate n Posted /\ done = seq 0 n /\ exists c, cs = [c]
  | WDone => o = n /\ ps = replicate n Posted /\ done = seq 0 n /\ cs = [CReturned]
  end.

Definition main_ok (m : main_pc) (r : reactor) (w : waiter_pc) : Prop :=
  match m with MRun => True | MWait => r = RDone | MReturned => r = RDone /\ w = WDone end.

(** A thread that has posted has set the event. *)
Definition event_ok (v : service) : Prop := Posted ∈ posters v -> non_empty v = true.
Definition sound (v : service) : Prop := inv n0 v /\ take_ok v /\ event_ok v.

Record ok (n : nat) (s : program) (r : reactor) : Prop := {
  ok_inv : sound (svc s);
  ok_users : user_timers (svc s) = ∅;
  ok_reactors : reactors (svc s) = [r];
  ok_phase : phase (svc s) r;
  ok_waiter : waiter_ok n (waiter s) (posters (svc s)) (handled (svc s)) (event s) (out s) (closers (svc s));
  ok_main : main_ok (main s) r (waiter s);
}.

(** ** The measure: every step makes it smaller, other than the worker's idle ones. *)

Definition poster_rank (p : option poster) : nat :=
  match p with
  | Some (PLoad _ _) => 50 | Some (PAdd _ _) => 49 | Some (PSubmit _ _) => 48 | Some (PLock _) => 47 | Some (PPush _) => 46
  | Some PRelease => 30 | Some PSet => 29 | _ => 28
  end.

Definition waiter_rank (n : nat) (w : waiter_pc) (ps : list poster) : nat :=
  match w with
  | WLoop k => 60 * (n - k) + 15
  | WPost k => 60 * (n - S k) + poster_rank (ps !! k)
  | WWait k => 60 * (n - S k) + 18
  | WPuts k => 60 * (n - S k) + 17
  | WReset k => 60 * (n - S k) + 16
  | WShutdown => 2
  | WDone => 0
  end.

Definition closer_rank (c : closer) : nat :=
  match c with CFetchOr => 8 | CQueueApc => 4 | CWait => 3 | CPost => 2 | CReturned => 1 end.

Definition worker_rank (w : worker_pc) : nat :=
  match w with
  | Unlocked _ => 6 | UnlockedTake _ => 5 | Popping | WaitEvent _ | Arming _ => 4
  | Draining | DrainArming _ => 3 | Waiting => 2 | Sleeping | Exited => 1
  end.

Definition reactor_rank (word : Z) (r : reactor) : nat :=
  match r with
  | RLoad => 12
  | RTest st => if decide (word = st) then 11 else 9
  | RCas st => if decide (word = st) then 10 else 8
  | RGet | RRemove _ | RCall _ => 5
  | RLeave => 4
  | RDone => 3
  end.

(** How far the request is from its handler. *)
Definition apc_rank (c : apc) : nat := match c with Expire _ => 6 | ShutdownApc => 0 end.
Definition port_rank (c : completion) : nat := match c with TimerDone _ => 3 | SHUTDOWN_KEY => 0 end.
Definition hand_rank (w : worker_pc) : nat := match w with Arming _ | DrainArming _ => 8 | _ => 0 end.
Definition served_rank (r : reactor) : nat := match r with RRemove _ => 2 | RCall _ => 1 | _ => 0 end.

Definition request_rank (v : service) (r : reactor) : nat :=
  9 * length (requests v) + hand_rank (worker v) + 7 * length (armed v) +
  sum_list_with apc_rank (apcs v) + sum_list_with port_rank (port v) + served_rank r.

Definition main_rank (m : main_pc) : nat := match m with MRun => 2 | MWait => 1 | MReturned => 0 end.

Definition measure (n : nat) (s : program) (r : reactor) : nat :=
  waiter_rank n (waiter s) (posters (svc s)) + sum_list_with closer_rank (closers (svc s)) + worker_rank (worker (svc s)) +
  reactor_rank (n_active_reactors (svc s)) r + request_rank (svc s) r + main_rank (main s).

(** What each step has to do. *)
Definition good (n : nat) (s : program) (r : reactor) (x : outcome program) : Prop :=
  exists s' r', x = Ret s' /\ ok n s' r' /\ (measure n s' r' < measure n s r)%nat.

(** A push may race besides, and the worker be idle. *)
Definition safe (n : nat) (s : program) (r : reactor) (x : outcome program) : Prop :=
  good n s r x \/ x = Fault DataRace /\ races (svc s) = true.
Definition fine (n : nat) (s : program) (r : reactor) (x : outcome program) : Prop :=
  safe n s r x \/ exists s', x = Ret s' /\ idle s s' /\ ok n s' r /\ measure n s' r = measure n s r.

(** ** The service's steps *)

Lemma event_ok_at v i p : event_ok v -> p <> Posted -> event_ok (poster_at i p v).
Proof.
  intros Hv Hp [k [(_ & -> & _)|[_ Hk]]%list_lookup_insert_Some]%list_elem_of_lookup; [done|].
  apply Hv. by apply list_elem_of_lookup_2 in Hk.
Qed.

Lemma event_step a v v' : event_ok v -> step a v = Some (Ret v') -> event_ok v'.
Proof.
  intros Hv E. destruct a as [b|i|i|i sp|i]; cbn in E.
  - assert (run_apc v = Some (Ret v') -> event_ok v') as Hapc.
    { unfold run_apc, on_timer_expiration. destruct (apcs v) as [|[a|] cs]; [done|..]; intros [= E']; inv_bind; by subst. }
    unfold worker_step, locked_turn, unlocked_test, unlocked_take, set_waitable_timer, take in E.
    destruct (worker v) as [|wo|a| |a| | | |d|d] eqn:Ew, b; try done; try (by apply Hapc);
      try (destruct (mutex_free v); [|done]); try (destruct (races v); [done|]); try (destruct (non_empty v || wo); [|done]);
      try (injection E as E; inv_bind; done); try (destruct (requests v); try done; by injection E as <-); try by injection E as <-.
  - unfold expire in E. destruct (armed v !! i); [|done]. by injection E as <-.
  - destruct (posters v !! i) as [[timer ns|timer ns|timer ns|a|a| | | |]|]; try done; try (by injection E as <-; apply event_ok_at).
    + injection E as <-. apply event_ok_at; [done|by destruct (closed _)].
    + injection E as <-. unfold post_submit, make_request. by destruct timer; apply event_ok_at.
    + unfold post_lock in E. destruct (mutex_free v); [|done]. injection E as <-. by apply event_ok_at.
    + unfold post_push in E. destruct (races v); [done|]. injection E as <-. by apply event_ok_at.
    + by injection E as <-.
  - destruct (reactors v !! i) as [[|st|st| |a|a| |]|]; try done; try by injection E as <-.
    + injection E as <-. unfold enter_cas. by case_decide.
    + unfold get_completion in E. destruct (port v) as [|c cs]; [done|]. by injection E as <-.
    + injection E as E. unfold call_handler, destroy_request in E. by inv_bind.
  - destruct (closers v !! i) as [[]|]; try done; try (by injection E as <-). destruct (worker v); try done. by injection E as <-.
Qed.

Lemma sound_step a v y : sound v -> step a v = Some y ->
  (exists v', y = Ret v' /\ sound v') \/ y = Fault DataRace /\ races v = true.
Proof.
  intros (Hi & Ht & He) E. destruct (step_ok n0 v a y Hi E) as [(v' & -> & Hi')|[?|[_ Hn]]]; [left|by right|by destruct Hn].
  exists v'. split; [done|]. split; [done|]. split; [by eapply step_take|by eapply event_step].
Qed.

Lemma sound_start_post v ns : sound v -> sound (set_posters (posters v ++ [PLoad null ns]) v).
Proof.
  intros (Hi & Ht & He). split; [by apply (service_step_inv n0 v); [|apply StartPost]|]. split; [exact Ht|].
  intros [?|?%list_elem_of_singleton]%elem_of_app; [by apply He|done].
Qed.

Lemma sound_start_shutdown v : sound v -> sound (set_closers (closers v ++ [CFetchOr]) v).
Proof. intros (Hi & Ht & He). split; [by apply (service_step_inv n0 v); [|apply StartShutdown]|done]. Qed.

(** Only the worker and the thread that pushes can race. *)
Lemma quiet_step a v y : sound v -> step a v = Some y -> match a with Worker _ | Poster _ => False | _ => True end ->
  exists v', y = Ret v' /\ sound v'.
Proof.
  intros Hv E Ha. assert (exists v', y = Ret v' /\ inv n0 v') as (v' & -> & _).
  { destruct Hv as [Hi _]. destruct a as [b|i|i|i sp|i]; try done;
      [by apply (step_timer n0 v i)|by apply (step_reactor n0 v i sp)|by apply (step_closer n0 v i)]. }
  destruct (sound_step a v _ Hv E) as [?|[? _]]; done.
Qed.

(** ** When every request has been handled, nothing is left in the service. *)

Lemma heap_empty m v k : inv m v -> posters v = replicate k Posted -> handled v = seq 0 k -> heap v = ∅.
Proof.
  intros Hi Hp Hd. apply map_empty. intros a. destruct (heap v !! a) as [r|] eqn:Ea; [|done]. exfalso.
  destruct (mem_ctx _ _ _ _ _ (inv_memory _ _ Hi) a r Ea) as [(p & Hc & _) Hn]. rewrite Hp in Hc.
  apply Hn. rewrite Hd. apply elem_of_seq. apply lookup_lt_Some in Hc. rewrite length_replicate in Hc. lia.
Qed.

Lemma places_empty m v : inv m v -> heap v = ∅ ->
  requests v = [] /\ hand (worker v) = None /\ armed v = [] /\ (forall c, c ∈ apcs v -> apc_req c = None) /\
  (forall c, c ∈ port v -> port_req c = None) /\ (forall r, r ∈ reactors v -> reactor_req r = None).
Proof.
  intros Hi Hh. assert (forall a, held a v = 0)%nat as H0.
  { intros a. by rewrite (inv_held _ _ Hi), Hh. }
  unfold held in H0. split; [|split; [|split; [|split; [|split]]]].
  - destruct (requests v) as [|a l]; [done|]. specialize (H0 a). cbn in H0. rewrite decide_True in H0 by done. lia.
  - destruct (hand (worker v)) as [a|]; [|done]. specialize (H0 a). rewrite at_addr_same in H0. lia.
  - destruct (armed v) as [|a l]; [done|]. specialize (H0 a). cbn in H0. rewrite decide_True in H0 by done. lia.
  - intros c Hc. destruct (apc_req c) as [a|] eqn:Ea; [|done]. specialize (H0 a).
    assert (sum_list_with (fun c => at_addr a (apc_req c)) (apcs v) = 0%nat) as Hz by lia.
    pose proof (proj1 (sum_list_with_zero _ _) Hz c Hc) as Hx. cbn beta in Hx. by rewrite Ea, at_addr_same in Hx.
  - intros c Hc. destruct (port_req c) as [a|] eqn:Ea; [|done]. specialize (H0 a).
    assert (sum_list_with (fun c => at_addr a (port_req c)) (port v) = 0%nat) as Hz by lia.
    pose proof (proj1 (sum_list_with_zero _ _) Hz c Hc) as Hx. cbn beta in Hx. by rewrite Ea, at_addr_same in Hx.
  - intros r Hr. destruct (reactor_req r) as [a|] eqn:Ea; [|done]. specialize (H0 a).
    assert (sum_list_with (fun r => at_addr a (reactor_req r)) (reactors v) = 0%nat) as Hz by lia.
    pose proof (proj1 (sum_list_with_zero _ _) Hz r Hr) as Hx. cbn beta in Hx. by rewrite Ea, at_addr_same in Hx.
Qed.

Lemma open_quiet v r : sound v -> heap v = ∅ -> reactors v = [r] -> open_phase v r ->
  requests v = [] /\ armed v = [] /\ open_phase v r /\ apcs v = [] /\ port v = [] /\ looking (worker v) /\ reactor_req r = None.
Proof.
  intros (Hi & Ht & _) Hh Hr Ho. pose proof Ho as (_ & _ & Ha & Hp & Hw & _).
  destruct (places_empty n0 v Hi Hh) as (H1 & H2 & H3 & H4 & H5 & H6).
  split; [done|]. split; [done|]. split; [done|]. split; [|split; [|split]].
  - destruct (apcs v) as [|c l]; [done|]. specialize (H4 c (list_elem_of_here c l)). destruct c; [done|]. by destruct Ha; left.
  - destruct (port v) as [|c l]; [done|]. specialize (H5 c (list_elem_of_here c l)). destruct c; [done|]. by destruct Hp; left.
  - destruct (worker v) as [| | | | | | | |d|d] eqn:Ew; try done. destruct d; [done|]. by destruct (Ht false Ew).
  - apply H6. rewrite Hr. by left.
Qed.

(** ** The steps of the waiting thread *)

Lemma of_service_Some a s x : of_service a s = Some x ->
  exists y, step a (svc s) = Some y /\ x = (v ← y; Ret (with_svc s v)).
Proof. unfold of_service. destruct (step a (svc s)); [|done]. intros [= <-]. eauto. Qed.

Lemma last_poster k (p : poster) : (replicate k Posted ++ [p]) !! k = Some p.
Proof. by rewrite lookup_app_r, length_replicate, Nat.sub_diag by (by rewrite length_replicate). Qed.

Lemma set_last_poster k (p q : poster) : <[k := q]> (replicate k Posted ++ [p]) = replicate k Posted ++ [q].
Proof. rewrite insert_app_r_alt by (by rewrite length_replicate). by rewrite length_replicate, Nat.sub_diag. Qed.

Lemma submit_run i timer ns v : exists a h ts,
  post_submit i timer ns v = poster_at i (PLock a) (set_memory h ts v).
Proof. unfold post_submit, make_request. destruct timer; cbn; by do 3 eexists. Qed.

Lemma post_good n s r k x :
  ok n s r -> waiter s = WPost k -> (forall q, posters (svc s) !! k = Some q -> q <> Posted) ->
  of_service (Poster k) s = Some x -> safe n s r x.
Proof.
  intros [Hi Hu Hr Hp Hw Hm] Ew Hq (y & Ey & ->)%of_service_Some. rewrite Ew in Hw, Hm. cbn in Hw.
  destruct Hw as (Hk & Ho & Hc & p & Eps & Hpost). assert (posters (svc s) !! k = Some p) as Ep by (rewrite Eps; apply last_poster).
  specialize (Hq p Ep). destruct (sound_step _ _ _ Hi Ey) as [(v & -> & Hi')|[-> Hrace]]; [left; run_bind|by right].
  unfold phase in Hp. rewrite Hc in Hp.
  assert (forall q, posters v = replicate k Posted ++ [q] ->
    (posting q /\ handled v = seq 0 k /\ event s = false \/ pushed q = true /\ served k (handled v) (event s)) ->
    user_timers v = ∅ -> reactors v = [r] -> closers v = [] -> open_phase v r ->
    (poster_rank (Some q) + worker_rank (worker v) + reactor_rank (n_active_reactors v) r + request_rank v r <
     poster_rank (Some p) + worker_rank (worker (svc s)) + reactor_rank (n_active_reactors (svc s)) r + request_rank (svc s) r)%nat ->
    good n s r (Ret (with_svc s v))) as Hgood.
  { intros q Eq Hq' Hu' Hr' Hc' Ho' Hlt. exists (with_svc s v), r. split; [done|]. split.
    - split; [done|done|done|by unfold phase; cbn; rewrite Hc'| |].
      + cbn. rewrite Ew. split; [done|]. split; [done|]. split; [done|]. by exists q.
      + cbn. by rewrite Ew.
    - unfold measure. cbn [svc with_svc waiter main]. rewrite Ew, Hc', Hc. cbn [waiter_rank]. rewrite Eq, last_poster, Ep. cbn [svc with_svc main sum_list_with]. lia. }
  destruct Hp as (P1 & P2 & P3 & P4 & P5 & P6). cbn in Ey. rewrite Ep in Ey.
  destruct p as [timer ns|timer ns|timer ns|a|a| | | |]; try done; try (destruct Hpost as [[[] _]|[? _]]; done);
    (destruct Hpost as [(Hpost & Hd & He)|[Hpost Hs]]; [try done|try done]); try (injection Ey as <-).
  - apply (Hgood (PAdd timer ns)); unfold post_load, poster_at; cbn; rewrite ?P1, ?Eps; cbn;
      [by rewrite set_last_poster|by left|done..|lia].
  - apply (Hgood (PSubmit timer ns)); unfold post_add, add_inflight_timer, poster_at; cbn; rewrite ?Eps;
      [by rewrite set_last_poster|by left|done..|lia].
  - destruct (submit_run k timer ns (svc s)) as (a & h & ts & E). rewrite E in *.
    apply (Hgood (PLock a)); unfold poster_at; cbn; rewrite ?Eps; [by rewrite set_last_poster|by left|done..|lia].
  - unfold post_lock in Ey. destruct (mutex_free (svc s)); [|done]. injection Ey as <-.
    apply (Hgood (PPush a)); unfold poster_at; cbn; rewrite ?Eps; [by rewrite set_last_poster|by left|done..|lia].
  - unfold post_push in Ey. destruct (races (svc s)); [done|]. injection Ey as <-.
    apply (Hgood PRelease); unfold push, poster_at; cbn; rewrite ?Eps; [by rewrite set_last_poster|by right; split; [|left]|done..|].
    unfold request_rank. cbn. rewrite length_app. cbn. lia.
  - apply (Hgood PSet); unfold post_release, poster_at; cbn; rewrite ?Eps; [by rewrite set_last_poster|by right|done..|lia].
  - apply (Hgood Posted); unfold post_set_event, poster_at; cbn; rewrite ?Eps; [by rewrite set_last_poster|by right|done..|lia].
Qed.

(** The steps of [shutdown] *)
Lemma lor_closed_pos z : 0 <= z < 2 ^ 32 -> 0 < Z.lor z CLOSED_FLAG.
Proof.
  intros Hz. pose proof (Z.lor_nonneg z CLOSED_FLAG) as Hn. assert (Z.lor z CLOSED_FLAG <> 0) as H0; [|unfold CLOSED_FLAG in *; lia].
  intros E%Z.lor_eq_0_iff. by destruct E.
Qed.

Lemma lor_rank z r : match r with RTest st | RCas st => closed st = false | RLeave | RDone => False | _ => True end ->
  (reactor_rank (Z.lor z CLOSED_FLAG) r <= reactor_rank z r)%nat.
Proof.
  intros Hr. assert (forall st, closed st = false -> Z.lor z CLOSED_FLAG <> st) as Hne.
  { intros st Hst <-. rewrite timer_closed_odd in Hst. unfold CLOSED_FLAG in Hst. by rewrite lor_1_odd in Hst. }
  destruct r as [|st|st| | | | |]; cbn; try lia; rewrite decide_False by (by apply Hne); case_decide; lia.
Qed.

Lemma sum_keys n : sum_list_with port_rank (replicate n SHUTDOWN_KEY) = 0%nat.
Proof. by induction n. Qed.

Lemma closer_good n s r c x :
  ok n s r -> waiter s = WShutdown -> closers (svc s) = [c] -> c <> CReturned ->
  of_service (Closer 0) s = Some x -> good n s r x.
Proof.
  intros [Hi Hu Hr Hp Hw Hm] Ew Hc Hne (y & Ey & ->)%of_service_Some. rewrite Ew in Hw, Hm. cbn in Hw.
  destruct Hw as (Ho & Eps & Hd & _). destruct (quiet_step _ _ _ Hi Ey I) as (v & -> & Hi'). run_bind.
  unfold phase in Hp. rewrite Hc in Hp. destruct Hp as (Q1 & Q2 & Hp).
  assert (forall c', closers v = [c'] -> user_timers v = ∅ -> reactors v = [r] -> posters v = posters (svc s) ->
    handled v = handled (svc s) -> closing_phase c' v r ->
    (closer_rank c' + worker_rank (worker v) + reactor_rank (n_active_reactors v) r + request_rank v r <
     closer_rank c + worker_rank (worker (svc s)) + reactor_rank (n_active_reactors (svc s)) r + request_rank (svc s) r)%nat ->
    good n s r (Ret (with_svc s v))) as Hgood.
  { intros c' Hc' Hu' Hr' Eps' Hd' Hph Hlt. exists (with_svc s v), r. split; [done|]. split.
    - split; [done|done|done|by unfold phase; cbn; rewrite Hc'| |].
      + cbn. rewrite Ew, Eps', Hd', Hc'. do 3 (split; [done|]). by exists c'.
      + cbn. by rewrite Ew.
    - unfold measure. cbn [svc with_svc waiter main]. rewrite Ew, Hc', Hc. cbn [waiter_rank sum_list_with]. lia. }
  cbn in Ey. rewrite Hc in Ey. cbn in Ey.
  destruct c; [..|done].
  - injection Ey as <-. destruct Hp as (Hop & P1 & P2 & P3 & P4). destruct Hop as (O1 & O2 & _ & _ & _ & O6).
    apply (Hgood CQueueApc); unfold shutdown_fetch_or, closer_at; cbn; rewrite ?O1, ?Hc; try done.
    + split; [done|]. split; [done|]. split; [|done]. split; [rewrite timer_closed_odd; apply lor_1_odd|].
      split; [by apply lor_closed_pos|]. by destruct r.
    + pose proof (lor_rank (n_active_reactors (svc s)) r O6). unfold request_rank. cbn. lia.
  - injection Ey as <-. destruct Hp as (Hs & P1 & P2 & P3).
    apply (Hgood CWait); unfold queue_user_apc, closer_at; cbn; rewrite ?Hc; try done.
    + split; [done|]. split; [done|]. split; [done|]. split; [done|]. left. by rewrite P1.
    + unfold request_rank. cbn. rewrite sum_list_with_app. cbn. lia.
  - destruct (worker (svc s)) eqn:Ewk; try done. injection Ey as <-. destruct Hp as (Hs & P1 & P2).
    apply (Hgood CPost); unfold closer_at; cbn; rewrite ?Hc, ?Ewk; try done.
    + split; [done|]. split; [done|]. split; [done|]. split; [done|].
      destruct P2 as [[[] _]|[? [?|[?|[[_ ?]|[? _]]]]]]; done.
    + unfold request_rank. cbn. lia.
  - injection Ey as <-. destruct Hp as (Hs & P1 & P2 & P3 & P4). pose proof Hs as (_ & Hpos & _).
    apply (Hgood CReturned); unfold post_shutdown, closer_at; cbn; rewrite ?Hc, ?P3; try done.
    + split; [done|]. split; [done|]. split; [done|]. split; [done|]. left. split; [done|]. rewrite P1. cbn. split.
      * destruct (Z.to_nat _) eqn:En; [lia|done].
      * by apply Forall_replicate.
    + unfold request_rank. cbn. rewrite P1. cbn. rewrite sum_keys. lia.
Qed.

Lemma main_ok_waiter m r w w' : main_ok m r w -> w <> WDone -> main_ok m r w'.
Proof. destruct m; cbn; [done|done|]. by intros [_ ->]. Qed.

Lemma waiter_good n s r x : ok n s r -> waiter_step n s = Some x -> safe n s r x.
Proof.
  intros Hok E. pose proof Hok as [Hi Hu Hr Hp Hw Hm]. unfold waiter_step in E.
  destruct (waiter s) as [k|k|k|k|k| |] eqn:Ew; cbn in Hw.
  - destruct Hw as (Hk & Eps & Hd & He & Ho & Hc). unfold phase in Hp. rewrite Hc in Hp. injection E as <-. left. case_decide as Hlt.
    + eexists _, r. split; [done|]. split.
      * split; cbn; [by apply sound_start_post|done|done|unfold phase; cbn; rewrite Hc; exact Hp| |by eapply main_ok_waiter].
        split; [done|]. split; [done|]. split; [done|]. eexists. rewrite Eps. split; [done|]. by left.
      * unfold measure. cbn. rewrite Ew. cbn [waiter_rank]. rewrite Eps, last_poster. cbn [poster_rank]. unfold request_rank. cbn. lia.
    + assert (k = n) as -> by lia. eexists _, r. split; [done|]. split.
      * split; cbn; [by apply sound_start_shutdown|done|done| | |by eapply main_ok_waiter].
        -- unfold phase. cbn. rewrite Hc. cbn. apply (open_quiet (svc s)); [done|eapply heap_empty; [apply Hi|done|done]|done|done].
        -- rewrite Hc. cbn. by eauto.
      * unfold measure. cbn. rewrite Ew, Hc. unfold request_rank. cbn. lia.
  - destruct Hw as (Hk & Ho & Hc & p & Eps & Hpost).
    assert (p = Posted \/ p <> Posted) as [->|Hpn] by (destruct p; (by left) || by right).
    2: { apply (post_good n s r k); [done|done|rewrite Eps, last_poster; by intros q [= <-]|].
         rewrite Eps, last_poster in E. destruct p; try done. by destruct Hpost as [[[] _]|[? _]]. }
    left. destruct Hpost as [[[] _]|[_ Hs]].
    rewrite Eps, last_poster in E. injection E as <-. eexists _, r. split; [done|]. split.
    + split; cbn; try done. by eapply main_ok_waiter.
    + unfold measure. cbn. rewrite Ew. cbn [waiter_rank]. rewrite Eps, last_poster. cbn. lia.
  - destruct Hw as (Hk & Ho & Hc & Eps & Hs). destruct (event s) eqn:He; [|done]. injection E as <-. left.
    destruct Hs as [[_ ?]|[Hd _]]; [done|]. eexists _, r. split; [done|]. split.
    + split; cbn; try done; by eapply main_ok_waiter.
    + unfold measure. cbn. rewrite Ew. cbn. lia.
  - destruct Hw as (Hk & Ho & Hc & Eps & Hd & He). injection E as <-. left. eexists _, r. split; [done|]. split.
    + split; cbn; try done; [by rewrite Ho|by eapply main_ok_waiter].
    + unfold measure. cbn. rewrite Ew. cbn. lia.
  - destruct Hw as (Hk & Ho & Hc & Eps & Hd & He). injection E as <-. left. eexists _, r. split; [done|]. split.
    + split; cbn; try done; [|by eapply main_ok_waiter]. split; [lia|]. split; [|done]. by rewrite Eps, <- replicate_cons_app.
    + unfold measure. cbn. rewrite Ew. cbn [waiter_rank]. lia.
  - pose proof Hw as (Ho & Eps & Hd & c & Hc). rewrite Hc in E. cbn in E. assert (c = CReturned \/ c <> CReturned) as [->|Hne] by (destruct c; (by left) || by right).
    + injection E as <-. left. eexists _, r. split; [done|]. split.
      * split; cbn; try done. by eapply main_ok_waiter.
      * unfold measure. cbn. rewrite Ew. cbn. lia.
    + left. apply (closer_good n s r c); [done|done|done|done|]. by destruct c.
  - done.
Qed.

(** ** The steps of the worker, the timers and [main] *)

Lemma moves_good n s r v r' :
  ok n s r -> sound v -> user_timers v = user_timers (svc s) -> reactors v = [r'] -> posters v = posters (svc s) ->
  handled v = handled (svc s) -> closers v = closers (svc s) -> phase v r' -> main s = MRun \/ r' = r ->
  (worker_rank (worker v) + reactor_rank (n_active_reactors v) r' + request_rank v r' <
   worker_rank (worker (svc s)) + reactor_rank (n_active_reactors (svc s)) r + request_rank (svc s) r)%nat ->
  good n s r (Ret (with_svc s v)).
Proof.
  intros [Hi Hu Hr Hp Hw Hm] Hi' Eu Er Ep Ed Ec Hph Hm' Hlt. exists (with_svc s v), r'. split; [done|]. split.
  - split; cbn; [done|by rewrite Eu|done|done|by rewrite Ep, Ed, Ec|]. destruct Hm' as [->| ->]; [done|done].
  - unfold measure. cbn [svc with_svc waiter main]. rewrite Ep, Ec. lia.
Qed.

Lemma counted_none v n r : inv n0 v -> heap v = ∅ -> posters v = replicate n Posted -> reactors v = [r] -> counted v = 0%nat.
Proof.
  intros Hi Hh Ep Er. destruct (places_empty n0 v Hi Hh) as (H1 & H2 & H3 & H4 & H5 & H6). unfold counted.
  rewrite H1, H2, H3, Er, Ep. assert (superseded v = []) as ->.
  { destruct (superseded v) as [|a l] eqn:El; [done|]. exfalso. pose proof (inv_held _ _ Hi a) as Ha.
    unfold held, allocated in Ha. rewrite El, Hh, lookup_empty in Ha. cbn in Ha. rewrite decide_True in Ha by done. lia. }
  assert (reactor_req r = None) as Hr by (apply H6; rewrite Er; by left).
  rewrite (proj2 (sum_list_with_zero adding _)) by (intros p [-> _]%elem_of_replicate; done).
  rewrite (proj2 (sum_list_with_zero _ (apcs v))) by (intros c Hc; by rewrite (H4 c Hc)).
  rewrite (proj2 (sum_list_with_zero _ (port v))) by (intros c Hc; by rewrite (H5 c Hc)).
  cbn. by destruct r.
Qed.

(** When the thread is in [shutdown()], no request is counted. *)
Lemma shutdown_uncounted n s r c : ok n s r -> closers (svc s) = [c] -> n_inflight_timers (svc s) = u32 n0.
Proof.
  intros [(Hi & _) Hu Hr Hp Hw Hm] Hc. assert (posters (svc s) = replicate n Posted /\ handled (svc s) = seq 0 n) as [Ep Ed].
  { destruct (waiter s); cbn in Hw; rewrite Hc in Hw; try (by destruct Hw as (_ & _ & _ & _ & _ & ?));
      try (by destruct Hw as (_ & _ & ? & _)); by destruct Hw as (_ & ? & ? & _). }
  rewrite (inv_counted _ _ Hi), (counted_none _ n r Hi (heap_empty n0 _ n Hi Ep Ed) Ep Hr). by rewrite Z.add_0_r.
Qed.

Lemma timer_good n s r i x : ok n s r -> of_service (Timer i) s = Some x -> good n s r x.
Proof.
  intros Hok (y & Ey & ->)%of_service_Some. pose proof Hok as [Hi Hu Hr Hp Hw Hm].
  destruct (quiet_step _ _ _ Hi Ey I) as (v & -> & Hi'). run_bind. cbn in Ey. unfold expire in Ey.
  destruct (armed (svc s) !! i) as [a|] eqn:Ea; [|done]. injection Ey as <-.
  assert (exists l, armed (svc s) = l /\ (length (delete i l) < length l)%nat) as (l & El & Hl).
  { eexists. split; [done|]. rewrite length_delete by (by eexists). apply lookup_lt_Some in Ea. lia. }
  apply (moves_good n s r _ r); [done|done|done|done|done|done|done| |by right|].
  - unfold phase in *. cbn. destruct (closers (svc s)) as [|c [|? ?]]; [| |done].
    + destruct Hp as (P1 & P2 & P3 & P4 & P5 & P6). split; [done|]. split; [done|]. split; [|done]. cbn.
      rewrite elem_of_app, list_elem_of_singleton. by intros [?|?].
    + destruct Hp as (_ & Hp & _). by rewrite Hp in Ea.
  - unfold request_rank. cbn. rewrite sum_list_with_app. cbn. subst l. rewrite length_delete in * by (by eexists). lia.
Qed.

(** Where the worker is: before the shutdown; with the thread in it, looking into the
    queue or called back; and there no APC is left then. *)
Lemma phase_worker v r : phase v r ->
  closers v = [] /\ open_phase v r \/
  (exists c, closers v = [c]) /\ requests v = [] /\ looking (worker v) \/
  (exists c, closers v = [c] /\ (worker v <> Exited -> c = CWait)) /\ apcs v = [] /\
    (worker v = Draining \/ worker v = Waiting \/ worker v = Exited \/ worker v = Sleeping).
Proof.
  unfold phase. destruct (closers v) as [|c [|? ?]]; [by left| |done]. intros (Q & _ & H). right.
  destruct c; [left; naive_solver|left; naive_solver| |right|right].
  - destruct H as (_ & _ & [[? _]|[? H]]); [left; naive_solver|right]. split; [by exists CWait|]. split; [done|]. naive_solver.
  - destruct H as (_ & _ & ? & ? & _). split; [by exists CPost|]. naive_solver.
  - destruct H as (? & [? _] & _). split; [by exists CReturned|]. naive_solver.
Qed.

Lemma apc_good n s r v :
  ok n s r -> match worker (svc s) with Arming _ | UnlockedTake _ => False | _ => True end ->
  run_apc (svc s) = Some (Ret v) -> sound v -> good n s r (Ret (with_svc s v)).
Proof.
  intros Hok Hwk E Hv. pose proof Hok as [Hi Hu Hr Hp Hw Hm].
  unfold run_apc in E. destruct (apcs (svc s)) as [|c cs] eqn:Ea; [done|]. destruct c as [a|]; injection E as E.
  - unfold on_timer_expiration in E. inv_bind. cbn in *.
    assert (closers (svc s) = [] /\ open_phase (svc s) r) as [Ec (P1 & P2 & P3 & P4 & P5 & P6)].
    { destruct (phase_worker _ _ Hp) as [?|[((c & Ec) & _ & Hl)|(_ & H & _)]]; [done| |congruence]. exfalso. unfold phase in Hp.
      rewrite Ec in Hp. destruct Hp as (_ & _ & Hp). rewrite Ea in Hp. destruct c; naive_solver. }
    assert (running (after_wait (worker (svc s))) /\ (worker_rank (after_wait (worker (svc s))) <= worker_rank (worker (svc s)) + 2)%nat /\
      hand_rank (after_wait (worker (svc s))) = hand_rank (worker (svc s))) as (R1 & R2 & R3).
    { destruct (worker (svc s)) as [| | | | | | | |[]|[]]; cbn in *; try done; split; done || (split; [lia|done]). }
    apply (moves_good n s r _ r); [done|done|done|done|done|done|done| |by right|].
    + unfold phase. cbn. rewrite Ec. rewrite Ea in P3. split; [done|].
      split; [done|]. cbn. split; [by intros ?; apply P3; right|]. split; [|done].
      rewrite elem_of_app, list_elem_of_singleton. by intros [?|?].
    + unfold request_rank. cbn. rewrite Ea, R3, sum_list_with_app. cbn. lia.
  - subst v.
    assert (closers (svc s) = [CWait] /\ looking (worker (svc s)) /\ cs = [] /\ shut (svc s) r /\ port (svc s) = [] /\
      requests (svc s) = [] /\ armed (svc s) = []) as (Ec & Ew & -> & Hs & Hpo & Hq & Har).
    { unfold phase in Hp. destruct (closers (svc s)) as [|c [|? ?]]; [|by destruct Hp as (? & ? & Hp); rewrite Ea in Hp; destruct c; naive_solver|done].
      destruct Hp as (_ & _ & Hn & _). rewrite Ea in Hn. destruct Hn. by left. }
    apply (moves_good n s r _ r); [done|done|done|done|done|done|done| |by right|].
    + unfold phase. cbn. rewrite Ec. split; [done|]. split; [done|]. split; [done|]. split; [done|]. right. split; [done|by left].
    + unfold request_rank. cbn. rewrite Ea. destruct (worker (svc s)) as [| | | | | | | |[]|]; cbn in *; try done; lia.
Qed.

(** The worker moves, the request it takes or arms with it. *)
Lemma open_moves n s r v :
  ok n s r -> sound v -> closers (svc s) = [] -> open_phase (svc s) r -> reactors v = reactors (svc s) ->
  posters v = posters (svc s) -> closers v = closers (svc s) -> handled v = handled (svc s) -> user_timers v = user_timers (svc s) ->
  n_active_reactors v = n_active_reactors (svc s) -> apcs v = apcs (svc s) -> port v = port (svc s) -> running (worker v) ->
  (worker_rank (worker v) + request_rank v r < worker_rank (worker (svc s)) + request_rank (svc s) r)%nat ->
  good n s r (Ret (with_svc s v)).
Proof.
  intros Hok Hv Ec (P1 & P2 & P3 & P4 & P5 & P6) Er Ep Ec' Ed Eu Ew Ea Epo Hrun Hlt.
  apply (moves_good n s r _ r); [done|done|done|by rewrite Er, (ok_reactors _ _ _ Hok)|done|done|done| |by right|].
  - unfold phase. rewrite Ec', Ec. unfold open_phase. by rewrite Ew, Ea, Epo.
  - rewrite Ew. lia.
Qed.

Lemma take_good n s r w a q :
  ok n s r -> sound (set_worker w (set_requests q (svc s))) -> requests (svc s) = a :: q -> w = Arming a ->
  worker (svc s) = Popping \/ worker (svc s) = UnlockedTake false ->
  good n s r (Ret (with_svc s (set_worker w (set_requests q (svc s))))).
Proof.
  intros Hok Hv Eq -> Hw. destruct (phase_worker _ _ (ok_phase _ _ _ Hok)) as [[Ec Ho]|[(_ & Hn & _)|(_ & _ & H)]].
  - apply (open_moves n s r); try done. unfold request_rank. cbn. rewrite Eq. destruct Hw as [-> | ->]; cbn; lia.
  - congruence.
  - destruct Hw as [Hw|Hw]; rewrite Hw in H; naive_solver.
Qed.

(** A look into the empty queue, or back to it *)
Lemma look_fine n s r w :
  ok n s r -> worker (svc s) = Popping \/ (exists woken, worker (svc s) = WaitEvent woken) ->
  w = Popping \/ w = WaitEvent false -> step (Worker false) (svc s) = Some (Ret (set_worker w (svc s))) ->
  sound (set_worker w (svc s)) -> fine n s r (Ret (with_svc s (set_worker w (svc s)))).
Proof.
  intros Hok Hw Hw' E Hv. right. exists (with_svc s (set_worker w (svc s))). split; [done|]. split; [|split].
  - split; [done|]. split; [by destruct Hw' as [->| ->]|]. unfold of_service. by rewrite E.
  - pose proof Hok as [Hi Hu Hr Hp Hwt Hm]. split; [done|done|done| |done|done].
    assert (running w /\ looking w) as [Hr' Hl'] by (by destruct Hw' as [->| ->]). unfold phase in *. cbn.
    destruct (closers (svc s)) as [|c [|? ?]]; [| |done].
    + destruct Hp as (P1 & P2 & P3 & P4 & P5 & P6). exact (conj P1 (conj P2 (conj P3 (conj P4 (conj Hr' P6))))).
    + destruct Hp as (Q1 & Q2 & Hp). split; [done|]. split; [done|]. destruct c.
      * destruct Hp as ((P1 & P2 & P3 & P4 & P5 & P6) & P7 & P8 & P9 & P10).
        split; [exact (conj P1 (conj P2 (conj P3 (conj P4 (conj Hr' P6)))))|done].
      * by destruct Hp as (P1 & P2 & P3 & P4).
      * destruct Hp as (P1 & P2 & [[_ P3]|[_ P3]]); [split; [done|]; split; [done|]; by left|].
        destruct Hw as [Hw|[o Hw]]; rewrite Hw in P3; naive_solver.
      * destruct Hp as (_ & _ & _ & Hp & _). destruct Hw as [Hw|[o Hw]]; congruence.
      * destruct Hp as (_ & [Hp _] & _). destruct Hw as [Hw|[o Hw]]; congruence.
  - unfold measure, request_rank. cbn [svc with_svc waiter main worker set_worker]. 
    assert (worker_rank w = worker_rank (worker (svc s)) /\ hand_rank w = hand_rank (worker (svc s))) as [-> ->].
    { destruct Hw as [->|[o ->]], Hw' as [->| ->]; done. }
    done.
Qed.

(** The steps of [on_shutdown_request] *)
Lemma draining_good n s r w :
  ok n s r -> sound (set_worker w (svc s)) ->
  worker (svc s) = Draining /\ w = Waiting \/
  worker (svc s) = Waiting /\ w = (if decide (n_inflight_timers (svc s) > 0) then Sleeping else Exited) ->
  good n s r (Ret (with_svc s (set_worker w (svc s)))).
Proof.
  intros Hok Hv Hw. pose proof Hok as [Hi Hu Hr Hp Hwt Hm].
  assert (closers (svc s) = [CWait] /\ apcs (svc s) = []) as [Ec Ea].
  { destruct (phase_worker _ _ Hp) as [(_ & (_ & _ & _ & _ & H & _))|[(_ & _ & H)|((c & Ec & Hc) & Ha & _)]];
      [destruct Hw as [[E _]|[E _]]; by rewrite E in H..|]. rewrite Ec, Hc; [done|]. destruct Hw as [[E _]|[E _]]; by rewrite E. }
  rewrite (shutdown_uncounted n s r CWait Hok Ec) in Hw. unfold phase in Hp. rewrite Ec in Hp. destruct Hp as (Q1 & Q2 & P1 & P2 & _).
  apply (moves_good n s r _ r); [done|done|done|done|done|done|done| |by right|].
  - unfold phase. cbn. rewrite Ec. split; [done|]. split; [done|]. split; [done|]. split; [done|]. right. split; [done|].
    pose proof (u32_range n0). destruct Hw as [[_ ->]|[_ ->]]; [by right; left|right; right]. case_decide; [right|left]; (split; [done|lia]).
  - unfold request_rank. cbn. destruct Hw as [[-> ->]|[-> ->]]; [cbn; lia|]. case_decide; cbn; lia.
Qed.

Lemma set_timer_good n s r a v :
  ok n s r -> worker (svc s) = Arming a -> sound v -> (v' ← set_waitable_timer a (svc s); Ret (set_worker Popping v')) = Ret v ->
  good n s r (Ret (with_svc s v)).
Proof.
  intros Hok Ew Hv E. unfold set_waitable_timer in E. destruct (heap (svc s) !! a) as [q|]; [|done]. cbn [or_fault] in E.
  revert E. run_bind. intros [= <-].
  destruct (phase_worker _ _ (ok_phase _ _ _ Hok)) as [[Ec Ho]|[(_ & _ & H)|(_ & _ & H)]];
    [|by rewrite Ew in H|rewrite Ew in H; naive_solver].
  apply (open_moves n s r); try done. unfold request_rank. cbn. rewrite Ew, length_app. cbn.
  pose proof (length_filter (fun b => ~ uses (svc s) (timer_object q) b) (armed (svc s))). lia.
Qed.

(** Without the mutex, and nobody pushes *)
Lemma unlocked_good n s r d v :
  ok n s r -> worker (svc s) = Unlocked d -> sound v -> unlocked_test d (svc s) = Ret v -> good n s r (Ret (with_svc s v)).
Proof.
  intros Hok Ew Hv E. unfold unlocked_test in E. destruct (races (svc s)); [done|]. injection E as <-.
  destruct (phase_worker _ _ (ok_phase _ _ _ Hok)) as [[Ec Ho]|[((c & Ec) & Hq & Hl)|(_ & _ & H)]]; [| |rewrite Ew in H; naive_solver].
  - assert (d = false) as -> by (destruct Ho as (_ & _ & _ & _ & H & _); rewrite Ew in H; by destruct d).
    apply (open_moves n s r); try done; [by cbn; case_decide|]. unfold request_rank. cbn. rewrite Ew. case_decide; cbn; lia.
  - rewrite Ew in Hl. destruct d; [done|]. rewrite Hq, decide_True in * by done.
    pose proof Hok as [Hi Hu Hr Hp Hwt Hm]. apply (moves_good n s r _ r); [done|done|done|done|done|done|done| |by right|].
    + unfold phase in *. cbn. rewrite Ec in *. destruct Hp as (Q1 & Q2 & Hp). split; [done|]. split; [done|].
      destruct c; [|rewrite Ew in Hp; cbn in Hp |- *; naive_solver..].
      destruct Hp as ((P1 & P2 & P3 & P4 & _ & P6) & P7 & P8 & _ & P10). split; [|done].
      exact (conj P1 (conj P2 (conj P3 (conj P4 (conj I P6))))).
    + unfold request_rank. cbn. rewrite Ew. cbn. lia.
Qed.

Lemma worker_good n s r alert x : ok n s r -> of_service (Worker alert) s = Some x -> fine n s r x.
Proof.
  intros Hok (y & Ey & ->)%of_service_Some. pose proof Hok as [Hi Hu Hr Hp Hw Hm]. pose proof Ey as Ey0.
  destruct (sound_step _ _ _ Hi Ey) as [(v & -> & Hv)|[-> Hrace]]; [run_bind|by left; right]. cbn in Ey. unfold worker_step in Ey.
  pose proof (phase_worker _ _ Hp) as Hph.
  assert (match worker (svc s) with Arming _ | UnlockedTake _ => False | _ => True end -> run_apc (svc s) = Some (Ret v) ->
    fine n s r (Ret (with_svc s v))) as Hapc by (intros ? ?; left; left; by apply apc_good).
  destruct (worker (svc s)) as [|wo|a| |a| | | |d|d] eqn:Ew, alert; try done; try (by apply Hapc).
  - destruct (mutex_free (svc s)); [|done]. injection Ey as <-. unfold locked_turn, take in *.
    destruct (requests (svc s)) as [|a q] eqn:Eq; [apply look_fine; auto|left; left; eapply take_good; eauto].
  - destruct (non_empty (svc s) || wo); [|done]. injection Ey as <-. apply look_fine; eauto.
  - left; left. injection Ey as Ey. by eapply set_timer_good.
  - destruct (mutex_free (svc s)); [|done]. injection Ey as <-. unfold locked_turn, take in *.
    assert (requests (svc s) = []) as Eq.
    { unfold phase in Hp. destruct (closers (svc s)) as [|c [|? ?]]; [|by destruct Hp|done].
      by destruct Hp as (_ & _ & _ & _ & H & _); rewrite Ew in H. }
    rewrite Eq in *. left; left. apply draining_good; auto.
  - exfalso. destruct Hph as [(_ & (_ & _ & _ & _ & H & _))|[(_ & _ & H)|(_ & _ & H)]]; [by rewrite Ew in H|done|naive_solver].
  - injection Ey as <-. left; left. apply draining_good; auto.
  - left; left. injection Ey as Ey. by eapply unlocked_good.
  - unfold unlocked_take, take in Ey. destruct (races (svc s)); [done|]. destruct (requests (svc s)) as [|a q] eqn:Eq; [done|].
    assert (d = false) as ->.
    { destruct Hph as [(_ & (_ & _ & _ & _ & H & _))|[(_ & ? & _)|(_ & _ & H)]]; [rewrite Ew in H; by destruct d|done|naive_solver]. }
    injection Ey as <-. left; left. eapply take_good; eauto.
Qed.

(** A reactor that has a request: the service is not being shut down. *)
Lemma busy_open v r : phase v r -> reactor_req r <> None -> closers v = [] /\ open_phase v r.
Proof.
  unfold phase. destruct (closers v) as [|c [|? ?]]; [done| |done]. intros (_ & _ & H) Hr. exfalso. apply Hr.
  destruct c; [by destruct H as (_ & _ & _ & _ & H)|..|].
  - destruct H as [(_ & _ & H) _]. by destruct r.
  - destruct H as [(_ & _ & H) _]. by destruct r.
  - destruct H as [(_ & _ & H) _]. by destruct r.
  - destruct H as (_ & _ & [[(_ & _ & H) _]|[->| ->]]); [by destruct r|done..].
Qed.

(** A reactor that enters: what matters of the word and of where it is. *)
Lemma phase_enter v r z r' :
  phase v r -> reactor_req r' = None -> r <> RLeave -> r <> RDone ->
  (open_phase v r -> closed z = false /\ 0 <= z < 2 ^ 32 /\
    match r' with RTest st | RCas st => closed st = false | RLeave | RDone => False | _ => True end) ->
  (shut v r -> z = n_active_reactors v /\
    match r' with RLoad | RTest _ | RGet | RDone => True | RCas st => closed st = false | _ => False end) ->
  phase (reactor_at 0 r' (set_word z v)) r'.
Proof.
  unfold phase. cbn [closers reactor_at set_reactors set_word]. intros H Hr' Hl Hd Ho Hs.
  assert (open_phase v r -> open_phase (reactor_at 0 r' (set_word z v)) r') as Ho'.
  { intros Hop. destruct (Ho Hop) as (H1 & H2 & H3). destruct Hop as (_ & _ & P3 & P4 & P5 & _). split; [done|].
    split; [done|]. exact (conj P3 (conj P4 (conj P5 H3))). }
  assert (shut v r -> shut (reactor_at 0 r' (set_word z v)) r') as Hs'.
  { intros Hsh. destruct (Hs Hsh) as [-> H3]. destruct Hsh as (P1 & P2 & _). exact (conj P1 (conj P2 H3)). }
  destruct (closers v) as [|c [|? ?]]; [by apply Ho'| |done]. destruct H as (Q1 & Q2 & H). split; [done|]. split; [done|].
  destruct c.
  - destruct H as (P1 & P2 & P3 & P4 & P5). split; [by apply Ho'|]. done.
  - destruct H as (P1 & P2). split; [by apply Hs'|]. done.
  - destruct H as (P1 & P2). split; [by apply Hs'|]. done.
  - destruct H as (P1 & P2). split; [by apply Hs'|]. done.
  - destruct H as (P1 & P2 & [[P3 P4]|[?|?]]); [|done..]. split; [done|]. split; [done|]. left. split; [by apply Hs'|done].
Qed.

Lemma set_same_word v r' : reactor_at 0 r' v = reactor_at 0 r' (set_word (n_active_reactors v) v).
Proof. by rewrite set_word_same. Qed.

(** The request that a handler is called for is the one the thread waits for. *)
Lemma handled_now n s r a q :
  ok n s r -> r = RCall a -> heap (svc s) !! a = Some q -> closers (svc s) = [] ->
  waiter_ok n (waiter s) (posters (svc s)) (handled (svc s) ++ [ctx q]) true (out s) [].
Proof.
  intros [(Hi & _) Hu Hr Hp Hw Hm] -> Ha Hc. destruct (mem_ctx _ _ _ _ _ (inv_memory _ _ Hi) a q Ha) as [_ Hn].
  destruct (elsewhere_pushed n0 _ a q Hi) as (p' & Hpo & Hpu); [right; exists 0%nat; by rewrite Hr|done|].
  rewrite Hc in Hw. assert (forall k, ctx q < k -> handled (svc s) = seq 0 k -> False)%nat as Hlt.
  { intros k Hk E. apply Hn. rewrite E. apply elem_of_seq. lia. }
  assert (forall k p, posters (svc s) = replicate k Posted ++ [p] -> ctx q < k \/ ctx q = k /\ pushed p = true)%nat as Hk.
  { intros k p E. rewrite E in Hpo. apply lookup_app_Some in Hpo as [Hpo|[Hge Hpo]].
    - left. apply lookup_lt_Some in Hpo. by rewrite length_replicate in Hpo.
    - right. rewrite length_replicate in Hge, Hpo. apply list_lookup_singleton_Some in Hpo as [? ->]. split; [lia|done]. }
  assert (forall k p, posters (svc s) = replicate k Posted ++ [p] -> served k (handled (svc s)) (event s) ->
    served k (handled (svc s) ++ [ctx q]) true) as Hs.
  { intros k p E [[Hd _]|[Hd _]]; destruct (Hk k _ E) as [Hx|[Hx _]]; try (exfalso; eapply Hlt; [|exact Hd]; lia).
    right. by rewrite Hd, Hx, seq_S. }
  destruct (waiter s) as [k|k|k|k|k| |]; cbn in Hw.
  - destruct Hw as (_ & Ep & Hd & _). exfalso. apply (Hlt k); [|done]. rewrite Ep in Hpo. apply lookup_lt_Some in Hpo.
    by rewrite length_replicate in Hpo.
  - destruct Hw as (H1 & H2 & H3 & p & Ep & Hpost). split; [done|]. split; [done|]. split; [done|]. exists p. split; [done|].
    destruct Hpost as [(Hpost & Hd & _)|[Hpus Hsv]]; [|right; split; [done|by eapply Hs]]. exfalso.
    destruct (Hk k p Ep) as [Hx|[_ Hx]]; [by apply (Hlt k)|by destruct p].
  - destruct Hw as (H1 & H2 & H3 & Ep & Hsv). do 4 (split; [done|]). by eapply Hs.
  - destruct Hw as (_ & _ & _ & Ep & Hd & _). exfalso. apply (Hlt (S k)); [|done]. destruct (Hk k _ Ep) as [?|[? _]]; lia.
  - destruct Hw as (_ & _ & _ & Ep & Hd & _). exfalso. apply (Hlt (S k)); [|done]. destruct (Hk k _ Ep) as [?|[? _]]; lia.
  - by destruct Hw as (_ & _ & _ & c & ?).
  - by destruct Hw as (_ & _ & _ & ?).
Qed.

Lemma call_good n s r a sp x :
  ok n s r -> r = RCall a -> main s = MRun ->
  of_service (Reactor 0 sp) (completion_handler s) = Some x -> good n s r x.
Proof.
  intros Hok Er Em (y & Ey & ->)%of_service_Some. pose proof Hok as [Hi Hu Hr Hp Hw Hm]. subst r. unfold completion_handler in Ey |- *. cbn [svc] in Ey.
  destruct (quiet_step _ _ _ Hi Ey I) as (v & -> & Hi'). run_bind. destruct (busy_open _ _ Hp) as [Hc Ho]; [done|].
  unfold step in Ey. rewrite Hr in Ey. cbn [lookup list_lookup] in Ey. unfold call_handler in Ey.
  destruct (heap (svc s) !! a) as [q|] eqn:Ea; [|done]. cbn [or_fault] in Ey. revert Ey. run_bind.
  unfold destroy_request. cbn [heap set_handled]. rewrite Ea. cbn [or_fault]. run_bind.
  destruct (if owned_timer q then _ else _) as [ts| | |] eqn:Et; try done. run_bind. intros [= <-].
  eexists _, RGet. split; [done|]. split.
  - split; [exact Hi'|exact Hu|cbn; by rewrite Hr| | |cbn; by rewrite Em].
    + unfold phase. cbn. rewrite Hc. destruct Ho as (P1 & P2 & P3 & P4 & P5 & _). exact (conj P1 (conj P2 (conj P3 (conj P4 (conj P5 I))))).
    + cbn. rewrite Hc. by eapply handled_now.
  - unfold measure, request_rank. cbn. lia.
Qed.

Lemma u32_add_2_ne z : 0 <= z < 2 ^ 32 -> u32 (z + 2) <> z.
Proof.
  intros Hz E. unfold u32 in E. pose proof (Z.div_mod (z + 2) (2 ^ 32) ltac:(lia)) as H. rewrite E in H. lia.
Qed.

(** An action of [main] in the reactor, other than the call of a handler *)
Lemma reactor_good n s r sp x v r' :
  ok n s r -> main s = MRun -> of_service (Reactor 0 sp) s = Some x -> step (Reactor 0 sp) (svc s) = Some (Ret v) ->
  reactors v = [r'] -> user_timers v = user_timers (svc s) -> posters v = posters (svc s) ->
  handled v = handled (svc s) -> closers v = closers (svc s) -> worker v = worker (svc s) -> phase v r' ->
  (reactor_rank (n_active_reactors v) r' + request_rank v r' <
   reactor_rank (n_active_reactors (svc s)) r + request_rank (svc s) r)%nat -> good n s r x.
Proof.
  intros Hok Em Ex Ev Er' Eu Ep Ed Ec Ewk Hph Hlt. unfold of_service in Ex. rewrite Ev in Ex. injection Ex as <-.
  destruct (quiet_step _ _ _ (ok_inv _ _ _ Hok) Ev I) as (v' & [= ->] & Hi').
  apply (moves_good n s r v' r'); try done; [by left|]. rewrite Ewk. lia.
Qed.

Lemma reactor_step n s r sp : ok n s r -> step (Reactor 0 sp) (svc s) =
  match r with
  | RLoad => Some (Ret (reactor_at 0 (RTest (n_active_reactors (svc s))) (svc s)))
  | RTest st => Some (Ret (enter_test 0 st (svc s)))
  | RCas st => Some (Ret (enter_cas 0 st sp (svc s)))
  | RGet => v ← get_completion 0 (svc s); Some (Ret v)
  | RRemove a => Some (Ret (reactor_at 0 (RCall a) (remove_inflight_timer (svc s))))
  | RCall a => Some (call_handler 0 a (svc s))
  | RLeave => Some (Ret (reactor_at 0 RDone (leave_reactor (svc s))))
  | RDone => None
  end.
Proof. intros Hok. unfold step. rewrite (ok_reactors _ _ _ Hok). by destruct r. Qed.

Lemma test_good n s st sp x :
  ok n s (RTest st) -> main s = MRun -> of_service (Reactor 0 sp) s = Some x -> good n s (RTest st) x.
Proof.
  intros Hok Em E. pose proof Hok as [Hi Hu Hr Hp Hw Hm]. pose proof (set_same_word (svc s)) as Hsame.
  eapply (reactor_good n s _ sp x _ (if closed st then RDone else RCas st) Hok Em E);
    [by rewrite (reactor_step n s _ sp Hok)|cbn; by rewrite Hr|done..| |].
  - unfold enter_test. rewrite Hsame. eapply phase_enter; [exact Hp|by destruct (closed st)|done|done| |].
    + intros (? & ? & _ & _ & _ & Hst). by rewrite Hst.
    + intros _. split; [done|]. by destruct (closed st) eqn:?.
  - unfold request_rank, enter_test. cbn. case_decide; destruct (closed st); cbn; try rewrite decide_True by done;
      try rewrite decide_False by done; lia.
Qed.

(** The exchange succeeds only while the service is open. *)
Lemma cas_open v st : phase v (RCas st) -> n_active_reactors v = st -> open_phase v (RCas st).
Proof.
  intros Hp Hw. assert (~ shut v (RCas st)) as Hns by (rewrite <- Hw; intros (Hcl & _ & Hf); congruence).
  unfold phase in Hp. destruct (closers v) as [|c [|? ?]]; [done| |done]. destruct Hp as (_ & _ & Hp).
  destruct c; [by destruct Hp|by destruct Hp..|]. by destruct Hp as (_ & _ & [[? _]|[?|?]]).
Qed.

Lemma cas_good n s st sp x :
  ok n s (RCas st) -> main s = MRun -> of_service (Reactor 0 sp) s = Some x -> good n s (RCas st) x.
Proof.
  intros Hok Em E. pose proof Hok as [Hi Hu Hr Hp Hw Hm]. pose proof (set_same_word (svc s)) as Hsame.
  pose proof (reactor_step n s _ sp Hok) as Hstep. unfold enter_cas in Hstep. cbn beta iota in Hstep.
  destruct (decide (n_active_reactors (svc s) = st /\ sp = false)) as [[Hw' _]|_].
  - destruct (cas_open _ _ Hp Hw') as (O1 & O2 & _).
    eapply (reactor_good n s _ sp x _ (RTest st) Hok Em E); [exact Hstep|cbn; by rewrite Hr|done..| |].
    + eapply phase_enter; [exact Hp|done..| |].
      * intros (? & ? & _ & _ & _ & ?). split; [by rewrite timer_closed_odd, u32_add_2_odd, <- timer_closed_odd|].
        split; [apply Z.mod_pos_bound; lia|done].
      * intros (Hcl & _). congruence.
    + unfold request_rank. cbn. rewrite (decide_True (P := n_active_reactors (svc s) = st)) by done.
      rewrite decide_False by (rewrite <- Hw'; by apply u32_add_2_ne). lia.
  - eapply (reactor_good n s _ sp x _ RGet Hok Em E); [exact Hstep|cbn; by rewrite Hr|done..| |].
    + rewrite Hsame. eapply phase_enter; [exact Hp|done..| |]; [by intros (? & ? & _)|done].
    + unfold request_rank. cbn. case_decide; lia.
Qed.

Lemma get_good n s sp x : ok n s RGet -> main s = MRun -> of_service (Reactor 0 sp) s = Some x -> good n s RGet x.
Proof.
  intros Hok Em E. pose proof Hok as [Hi Hu Hr Hp Hw Hm]. pose proof (reactor_step n s _ sp Hok) as Hstep.
  cbn beta iota in Hstep. unfold get_completion in Hstep. destruct (port (svc s)) as [|c cs] eqn:Epo;
    [unfold of_service in E; by rewrite Hstep in E|].
  eapply (reactor_good n s _ sp x _ (match c with TimerDone a => RRemove a | SHUTDOWN_KEY => RLeave end) Hok Em E);
    [exact Hstep|cbn; by rewrite Hr|done..| |].
  - unfold phase in *. cbn. destruct (closers (svc s)) as [|c' [|? ?]]; [| |done].
    + destruct Hp as (P1 & P2 & P3 & P4 & P5 & _). rewrite Epo in P4. destruct c; [|by destruct P4; left].
      refine (conj P1 (conj P2 (conj P3 (conj _ (conj P5 I))))). intros ?. apply P4. by right.
    + destruct Hp as (Q1 & Q2 & Hp). rewrite Epo in Hp. split; [done|]. split; [done|].
      destruct c'; [by destruct Hp as (_ & _ & ? & _)|by destruct Hp as (_ & _ & ? & _)|by destruct Hp as (_ & ? & _)|by destruct Hp as (_ & ? & _)|].
      destruct Hp as (P1 & P2 & [(_ & _ & Hall)|[?|?]]); [|done..]. split; [done|]. split; [done|]. right; left.
      by inversion_clear Hall as [|? ? ->].
  - unfold request_rank. cbn. rewrite Epo. destruct c; cbn; lia.
Qed.

Lemma leave_phase v : phase v RLeave -> phase (reactor_at 0 RDone (leave_reactor v)) RDone.
Proof.
  unfold phase. cbn. intros Hp. destruct (closers v) as [|c' [|? ?]]; [by destruct Hp as (_ & _ & _ & _ & _ & ?)| |done].
  destruct Hp as (Q1 & Q2 & Hp). split; [done|]. split; [done|]. destruct c'; [by destruct Hp as ((_ & _ & _ & _ & _ & ?) & _)|..].
  - by destruct Hp as ((_ & _ & ?) & _).
  - by destruct Hp as ((_ & _ & ?) & _).
  - by destruct Hp as ((_ & _ & ?) & _).
  - destruct Hp as (P1 & P2 & _). split; [done|]. split; [done|]. by right; right.
Qed.

Lemma main_good n s r sp x : ok n s r -> main_step sp s = Some x -> good n s r x.
Proof.
  intros Hok E. pose proof Hok as [Hi Hu Hr Hp Hw Hm]. unfold main_step in E. destruct (main s) eqn:Em; [| |done].
  2:{ destruct (waiter s) eqn:Ew; try done. injection E as <-. eexists _, r. split; [done|]. split; [by split|].
      unfold measure. cbn. rewrite Ew, Em. cbn. lia. }
  rewrite Hr in E. cbn [lookup list_lookup] in E. pose proof (reactor_step n s _ sp Hok) as Hstep.
  destruct r as [|st|st| |a|a| |].
  - eapply (reactor_good n s _ sp x _ (RTest (n_active_reactors (svc s))) Hok Em E); [exact Hstep|cbn; by rewrite Hr|done..| |].
    + rewrite (set_same_word (svc s)). eapply phase_enter; [exact Hp|done..| |]; [by intros (? & ? & _)|done].
    + unfold request_rank. cbn. rewrite decide_True by done. lia.
  - by eapply test_good.
  - by eapply cas_good.
  - by eapply get_good.
  - destruct (busy_open _ _ Hp) as [Hc Ho]; [done|].
    eapply (reactor_good n s _ sp x _ (RCall a) Hok Em E); [exact Hstep|cbn; by rewrite Hr|done..| |].
    + unfold phase. cbn. rewrite Hc. destruct Ho as (P1 & P2 & P3 & P4 & P5 & _). exact (conj P1 (conj P2 (conj P3 (conj P4 (conj P5 I))))).
    + unfold request_rank. cbn. lia.
  - apply (call_good n s _ a sp x Hok eq_refl Em E).
  - eapply (reactor_good n s _ sp x _ RDone Hok Em E); [exact Hstep|cbn; by rewrite Hr|done..|by apply leave_phase|].
    unfold request_rank. cbn. lia.
  - injection E as <-. eexists _, RDone. split; [done|]. split; [by split|]. unfold measure. cbn. rewrite Em. cbn. lia.
Qed.

(** ** Runs of the program *)

Lemma init_ok n : ok n (init n0) RLoad.
Proof.
  split; [|done..| | |done].
  - split; [|split; [done|by intros ?%not_elem_of_nil]].
    apply (service_step_inv n0 (timer_service (u32 n0))); [apply (timer_inv_init n0)|apply (StartReactor (timer_service (u32 n0)))].
  - unfold phase. cbn. repeat (split; [done || by apply not_elem_of_nil|]). done.
  - cbn. split; [lia|done].
Qed.

Lemma next_fine n s r x : ok n s r -> next_step n s x -> fine n s r x.
Proof.
  intros Hok [E|[[sp E]|[[al E]|[i E]]]].
  - left. by apply waiter_good.
  - left; left. by eapply main_good.
  - by eapply worker_good.
  - left; left. by eapply timer_good.
Qed.

Lemma driver_next n s s' : driver_step n s s' <-> next_step n s (Ret s').
Proof.
  split; [intros [s1 s2 E|s1 s2 sp E|s1 s2 al E|s1 s2 i E]; unfold next_step; eauto|].
  intros [E|[[sp E]|[[al E]|[i E]]]]; [by apply StepWaiter|by eapply StepMain|by eapply StepWorker|by eapply StepTimer].
Qed.

Lemma ok_reactor n s r r' : ok n s r -> ok n s r' -> r' = r.
Proof. intros H H'. pose proof (ok_reactors _ _ _ H). pose proof (ok_reactors _ _ _ H'). congruence. Qed.

Lemma idle_ok n s s' r : ok n s r -> idle s s' -> ok n s' r /\ measure n s' r = measure n s r.
Proof.
  intros Hok (Hw & Hh & E). destruct (worker_good n s r false _ Hok E) as [[(s1 & r' & [= <-] & Hok' & Hlt)|[? _]]|(s1 & [= <-] & _ & ?)]; [|done|done].
  exfalso. destruct (phase_worker _ _ (ok_phase _ _ _ Hok)) as [[Hc Ho]|[(_ & Hq & _)|(_ & _ & H)]];
    [| |destruct Hw as [Hw|[wo Hw]]; rewrite Hw in H; naive_solver].
  all: apply of_service_Some in E as (y & Ey & E); cbn in Ey; unfold worker_step, locked_turn, take in Ey.
  all: assert (exists w, y = Ret (set_worker w (svc s)) /\ worker_rank w = worker_rank (worker (svc s)) /\
    hand_rank w = hand_rank (worker (svc s))) as (w & -> & W1 & W2).
  1,3: destruct Hw as [Hw|[wo Hw]]; rewrite Hw in Ey |- *;
    [destruct (mutex_free (svc s)); [|done]|destruct (non_empty (svc s) || wo); [|done]; injection Ey as <-; by exists Popping].
  1,2: destruct (requests (svc s)) as [|a q] eqn:Eq; [injection Ey as <-; by exists (WaitEvent false)|].
  1: injection Ey as <-; revert E; run_bind; intros [= ->]; done.
  1: done.
  all: revert E; run_bind; intros [= ->]; pose proof (ok_reactors _ _ _ Hok) as R; pose proof (ok_reactors _ _ _ Hok') as R';
    cbn in R'; rewrite R in R'; injection R' as <-; unfold measure, request_rank in Hlt; cbn in Hlt; rewrite W1, W2 in Hlt; lia.
Qed.

(** A step that makes the measure smaller is not an idle one. *)
Lemma good_effective n s r x : ok n s r -> next_step n s x -> good n s r x -> exists s', effective n s s'.
Proof.
  intros Hok Hn (s' & r' & -> & Hok' & Hlt). exists s'. split; [by apply driver_next|].
  intros Hid. destruct (idle_ok n s s' r Hok Hid) as [Hok2 E]. rewrite (ok_reactor _ _ _ _ Hok2 Hok') in Hlt. lia.
Qed.

Lemma effective_good n s s' r : ok n s r -> effective n s s' -> exists r', ok n s' r' /\ (measure n s' r' < measure n s r)%nat.
Proof.
  intros Hok [Hs%driver_next Hni].
  destruct (next_fine n s r _ Hok Hs) as [[(s1 & r' & [= <-] & ? & ?)|[? _]]|(s1 & [= <-] & ? & _)]; [by exists r'|done|done].
Qed.

Lemma driver_reachable_ok n s : driver_reachable n0 n s -> exists r, ok n s r.
Proof.
  apply (rtc_ind_r (fun s => exists r, ok n s r)); [exists RLoad; apply init_ok|].
  intros s1 s2 _ Hs%driver_next [r Hok].
  destruct (next_fine n s1 r _ Hok Hs) as [[(s' & r' & [= <-] & ? & _)|[? _]]|(s' & [= <-] & _ & ? & _)]; [by exists r'|done|by exists r].
Qed.

Lemma idle_steps_ok n s s' r : ok n s r -> rtc idle s s' -> ok n s' r /\ measure n s' r = measure n s r.
Proof.
  intros Hok Hr. induction Hr as [|s1 s2 s3 Hid _ IH]; [done|]. destruct (idle_ok n s1 s2 r Hok Hid) as [Hok' E].
  destruct (IH Hok') as [? E']. split; [done|]. by rewrite E'.
Qed.

(** *** Somebody can go on. *)

Lemma of_service_is_Some a s : is_Some (step a (svc s)) -> is_Some (of_service a s).
Proof. intros [y E]. unfold of_service. rewrite E. by eexists. Qed.

(** [main] is blocked at the empty port only, or waiting for the thread. *)
Lemma main_blocked n s r :
  ok n s r -> main_step false s = None -> main s <> MReturned ->
  main s = MRun /\ r = RGet /\ port (svc s) = [] \/ r = RDone /\ main s = MWait /\ waiter s <> WDone.
Proof.
  intros [Hi Hu Hr Hp Hw Hm] E Hne. unfold main_step in E. destruct (main s); [left|right|done].
  - rewrite Hr in E. cbn [lookup list_lookup] in E.
    destruct r as [|st|st| |a|a| |]; try done;
      unfold of_service, step in E; unfold completion_handler in E; cbn [svc] in E; rewrite Hr in E; cbn in E; try done.
    split; [done|]. split; [done|]. unfold get_completion in E. by destruct (port (svc s)).
  - split; [done|]. split; [done|]. intros Ew. by rewrite Ew in E.
Qed.

(** The worker or a timer makes a step, perhaps after the worker has gone to look
    into the queue again. *)
Definition moving (n : nat) (s : program) : Prop :=
  races (svc s) = true \/ exists s1 s2, rtc idle s s1 /\ effective n s1 s2.

Lemma safe_moving n s r x : ok n s r -> next_step n s x -> safe n s r x -> moving n s.
Proof.
  intros Hok Hn [Hg|[-> ?]]; [right|by left].
  destruct (good_effective n s r x Hok Hn Hg) as [s' Hs]. exists s, s'. split; [apply rtc_refl|done].
Qed.

Lemma fine_moving n s r x : ok n s r -> next_step n s x -> fine n s r x -> (forall s', x = Ret s' -> ~ idle s s') -> moving n s.
Proof. intros Hok Hn [Hs|(s' & -> & Hid & _)] Hx; [by eapply safe_moving|by destruct (Hx s')]. Qed.

(** A wait that runs an APC leaves the worker elsewhere. *)
Lemma alert_not_idle s s' : of_service (Worker true) s = Some (Ret s') -> idle s s' -> False.
Proof.
  intros E (Hw & _ & E'). apply of_service_Some in E as (y & Ey & E), E' as (y' & Ey' & E').
  destruct y as [v| | |]; try done. destruct y' as [v'| | |]; try done. revert E E'. run_bind. intros [= ->] [= <-].
  cbn in Ey, Ey'. unfold worker_step, locked_turn, take, run_apc, on_timer_expiration in Ey, Ey'.
  assert (worker v = Unlocked false \/ worker v = WaitEvent true \/ worker v = Draining) as Hv.
  { destruct Hw as [Hw|[wo Hw]]; rewrite Hw in Ey; destruct (apcs (svc s)) as [|[a|] cs]; try done; injection Ey as Ey; inv_bind;
      subst; cbn; rewrite ?Hw; auto. }
  destruct Hw as [Hw|[wo Hw]]; rewrite Hw in Ey'.
  - destruct (mutex_free (svc s)); [|done]. destruct (requests (svc s)); injection Ey' as <-; naive_solver.
  - destruct (non_empty (svc s) || wo); [|done]. injection Ey' as <-. naive_solver.
Qed.

Lemma other_moving n s r x a :
  ok n s r -> of_service a s = Some x -> match a with Worker true | Timer _ => True | _ => False end -> moving n s.
Proof.
  intros Hok E Ha. destruct a as [[]|i|i|i sp|i]; try done.
  - apply (fine_moving n s r x Hok); [do 2 right; left; by exists true|by apply (worker_good n s r true)|].
    intros s' -> Hid. by apply (alert_not_idle s s').
  - apply (safe_moving n s r x Hok); [do 3 right; by exists i|left; by apply (timer_good n s r i)].
Qed.

(** The worker goes on, other than to look again. *)
Lemma worker_moving n s r x :
  ok n s r -> of_service (Worker false) s = Some x ->
  match worker (svc s) with Popping => requests (svc s) <> [] | WaitEvent _ => False | _ => True end -> moving n s.
Proof.
  intros Hok E Hw. apply (fine_moving n s r x Hok); [do 2 right; left; by exists false|by apply (worker_good n s r false)|].
  intros s' -> (Hp & Hh & _). apply of_service_Some in E as (y & Ey & E). destruct y as [v| | |]; try done. revert E. run_bind. intros [= ->].
  destruct Hp as [Hp|[wo Hp]]; rewrite Hp in Hw; [|done]. cbn in Ey. unfold worker_step, locked_turn, take in Ey. rewrite Hp in Ey.
  destruct (mutex_free (svc s)); [|done]. destruct (requests (svc s)); [done|]. by injection Ey as <-.
Qed.

(** A request that has not been handled is at a place from which it moves. *)
Lemma request_somewhere n s k :
  ok n s RGet -> port (svc s) = [] -> posters (svc s) = replicate k Posted ++ [Posted] -> k ∉ handled (svc s) ->
  requests (svc s) <> [] \/ hand (worker (svc s)) <> None \/ apcs (svc s) <> [] \/ armed (svc s) <> [].
Proof.
  intros [(Hi & _) Hu Hr Hp Hw Hm] Hport Hpo Hk.
  destruct (mem_posted _ _ _ _ _ (inv_memory _ _ Hi) k) as [?|(a & q & Ea & Eq)]; [exists Posted; by rewrite Hpo, last_poster|done|].
  destruct (requests (svc s)) as [|b l] eqn:Erq; [right|by left]. destruct (hand (worker (svc s))) as [b|] eqn:Eh; [by left|right].
  destruct (apcs (svc s)) as [|c l] eqn:Eapc; [right|by left]. destruct (armed (svc s)) as [|b l] eqn:Earm; [|done].
  exfalso. pose proof (inv_held _ _ Hi a) as Hh. unfold held, allocated in Hh. rewrite Eh, Erq, Eapc, Earm, Hport, Hr, Ea in Hh.
  assert (sum_list_with (fun p => at_addr a (poster_req p)) (posters (svc s)) = 0%nat) as Hz.
  { apply sum_list_with_zero. rewrite Hpo. intros p [[-> _]%elem_of_replicate|Hq]%elem_of_app; [done|].
    apply list_elem_of_singleton in Hq. by subst p. }
  rewrite Hz in Hh. cbn in Hh. destruct (superseded (svc s)) as [|b l] eqn:Es; [cbn in Hh; lia|].
  pose proof (inv_superseded _ _ Hi b) as Hsup. rewrite Es in Hsup.
  assert (exists q', heap (svc s) !! b = Some q') as (q' & Eb).
  { apply (held_alive n0 _ _ Hi). unfold held. rewrite Es. cbn. rewrite decide_True by done. lia. }
  specialize (Hsup q' (list_elem_of_here b l) Eb). pose proof (mem_timer _ _ _ _ _ (inv_memory _ _ Hi) b q' Eb) as Ht.
  rewrite Hsup, Hu in Ht. by apply not_elem_of_empty in Ht.
Qed.

Lemma kernel_moving n s r :
  ok n s r -> match worker (svc s) with Popping | WaitEvent _ | Unlocked _ => True | _ => False end ->
  apcs (svc s) <> [] \/ armed (svc s) <> [] -> moving n s.
Proof.
  intros Hok Hw [Ha|Ha].
  - assert (is_Some (of_service (Worker true) s)) as [x E].
    { apply of_service_is_Some. cbn. unfold worker_step, run_apc. destruct (apcs (svc s)); [done|]. destruct (worker (svc s)); try done; by eexists. }
    by apply (other_moving n s r x (Worker true)).
  - destruct (armed (svc s)) as [|b l] eqn:E; [done|].
    assert (is_Some (of_service (Timer 0) s)) as [x Ex] by (apply of_service_is_Some; cbn; unfold expire; rewrite E; by eexists).
    by apply (other_moving n s r x (Timer 0)).
Qed.

Lemma queue_moving n s r :
  ok n s r -> mutex_free (svc s) = true -> worker (svc s) = Popping -> requests (svc s) <> [] -> moving n s.
Proof.
  intros Hok Hm Ew Hq. assert (is_Some (of_service (Worker false) s)) as [x E].
  { apply of_service_is_Some. cbn. unfold worker_step. rewrite Ew, Hm. by eexists. }
  apply (worker_moving n s r x Hok E). by rewrite Ew.
Qed.

Lemma request_moves n s k :
  ok n s RGet -> port (svc s) = [] -> closers (svc s) = [] -> posters (svc s) = replicate k Posted ++ [Posted] -> k ∉ handled (svc s) ->
  moving n s.
Proof.
  intros Hok Hport Hc Hpo Hk. pose proof (request_somewhere n s k Hok Hport Hpo Hk) as Hs.
  assert (mutex_free (svc s) = true) as Hmu.
  { apply mutex_free_spec. rewrite Hpo, <- replicate_cons_app. intros i p Hq. change (Posted :: replicate k Posted) with (replicate (S k) Posted) in Hq.
    by apply lookup_replicate in Hq as [-> _]. }
  pose proof Hok as [(_ & Ht & Hev) Hu Hr Hp Hw Hm]. unfold phase in Hp. rewrite Hc in Hp. destruct Hp as (_ & _ & _ & _ & Hrun & _).
  assert (requests (svc s) <> [] \/ requests (svc s) = []) as [Hq|Hq] by (destruct (requests (svc s)); (by left) || by right).
  - destruct (worker (svc s)) as [|wo|b| | | | | |d|d] eqn:Ew; try done.
    + by apply (queue_moving n s RGet).
    + set (s1 := with_svc s (set_worker Popping (svc s))). assert (non_empty (svc s) = true) as Hne.
      { apply Hev. rewrite Hpo. apply elem_of_app. right. by left. }
      assert (idle s s1) as Hid.
      { split; [right; by exists wo|]. split; [done|]. unfold of_service. cbn. unfold worker_step. by rewrite Ew, Hne. }
      destruct (idle_ok n s s1 RGet Hok Hid) as [Hok1 _].
      destruct (queue_moving n s1 RGet Hok1 Hmu eq_refl Hq) as [Hrc|(s2 & s3 & H2 & H3)]; [done|].
      right. exists s2, s3. split; [by eapply rtc_l|done].
    + eapply (worker_moving n s RGet); [done|unfold of_service; cbn; unfold worker_step; by rewrite Ew|by rewrite Ew].
    + eapply (worker_moving n s RGet); [done|unfold of_service; cbn; unfold worker_step; by rewrite Ew|by rewrite Ew].
    + eapply (worker_moving n s RGet); [done|unfold of_service; cbn; unfold worker_step; by rewrite Ew|by rewrite Ew].
  - destruct Hs as [?|[Hh|Hk']]; [done| |].
    + destruct (worker (svc s)) eqn:Ew; try done.
      eapply (worker_moving n s RGet); [done|unfold of_service; cbn; unfold worker_step; by rewrite Ew|by rewrite Ew].
    + destruct (worker (svc s)) as [|wo|b| | | | | |d|d] eqn:Ew; try done; try (apply (kernel_moving n s RGet); [done|by rewrite Ew|done]).
      * eapply (worker_moving n s RGet); [done|unfold of_service; cbn; unfold worker_step; by rewrite Ew|by rewrite Ew].
      * by destruct (Ht d).
Qed.
(** *** The end *)

Lemma at_rest n s r :
  ok n s r -> main_step true s = None -> main_step false s = None -> waiter_step n s = None -> armed (svc s) = [] ->
  (forall al, step (Worker al) (svc s) = None) -> nf (driver_step n) s.
Proof.
  intros Hok Ht Hf Hw Ha Hwk [s' Hs]. destruct Hs as [s s' E|s s' sp E|s s' al E|s s' i E].
  - congruence.
  - destruct sp; congruence.
  - unfold of_service in E. by rewrite Hwk in E.
  - unfold of_service in E. cbn in E. unfold expire in E. by rewrite Ha in E.
Qed.

Lemma finished n s r : ok n s r -> main s = MReturned -> complete n s /\ u32 n0 = 0.
Proof.
  intros Hok Em. pose proof Hok as [Hi Hu Hr Hp Hw Hm]. rewrite Em in Hm. destruct Hm as [-> Ew]. rewrite Ew in Hw. cbn in Hw.
  destruct Hw as (Ho & Ep & Hd & Hc). unfold phase in Hp. rewrite Hc in Hp. destruct Hp as (_ & Ha & _ & [Hx Hn] & _).
  split; [|done]. do 4 (split; [done|]). split; [eapply heap_empty; [apply Hi|done|done]|]. split; [done|].
  apply (at_rest n s RDone); [done|by unfold main_step; rewrite Em..|by unfold waiter_step; rewrite Ew|done|].
  intros al. cbn. unfold worker_step. by rewrite Hx.
Qed.

(** The thread waits in [shutdown()]. *)
Lemma shutdown_moves n s r :
  ok n s r -> waiter s = WShutdown -> waiter_step n s = None -> main_step false s = None -> main s <> MReturned ->
  stranded n s /\ u32 n0 <> 0 \/ moving n s.
Proof.
  intros Hok Ew Ewt Em Hne. pose proof Hok as [Hi Hu Hr Hp Hw Hm]. pose proof (main_blocked n s r Hok Em Hne) as Hb.
  rewrite Ew in Hw. cbn in Hw. destruct Hw as (Ho & Eps & Hd & c & Hc). pose proof Ewt as Ewt'. unfold waiter_step, of_service, step in Ewt.
  rewrite Ew, Hc in Ewt. cbn in Ewt. destruct c; try done. unfold phase in Hp. rewrite Hc in Hp.
  destruct Hp as (Q1 & Q2 & P1 & P2 & [[Hl Ha]|[Ha [Hx|[Hx|[[Hx _]|[Hx Hn]]]]]]).
  - right. apply (kernel_moving n s r); [done|by destruct (worker (svc s)) as [| | | | | | | |[]|]|left; by rewrite Ha].
  - right. assert (mutex_free (svc s) = true) as Hmu.
    { apply mutex_free_spec. rewrite Eps. by intros i p [-> _]%lookup_replicate. }
    eapply (worker_moving n s r); [done|unfold of_service; cbn; unfold worker_step; by rewrite Hx, Hmu|by rewrite Hx].
  - right. eapply (worker_moving n s r); [done|unfold of_service; cbn; unfold worker_step; by rewrite Hx|by rewrite Hx].
  - by rewrite Hx in Ewt.
  - left. split; [|done]. split; [done|]. do 3 (split; [done|]). split; [eapply heap_empty; [apply Hi|done|done]|]. split; [done|].
    apply (at_rest n s r); [done| |done|done|done|].
    + destruct Hb as [(Em' & -> & Hpo)|(-> & Em' & Hwd)]; unfold main_step; rewrite Em'; [|by rewrite Ew].
      rewrite Hr. cbn. unfold of_service, step. rewrite Hr. cbn. unfold get_completion. by rewrite Hpo.
    + intros al. cbn. unfold worker_step, run_apc. rewrite Hx, Ha. by destruct al.
Qed.

Lemma driver_progress n s r :
  ok n s r -> complete n s /\ u32 n0 = 0 \/ stranded n s /\ u32 n0 <> 0 \/ moving n s.
Proof.
  intros Hok. assert (main s = MReturned \/ main s <> MReturned) as [Em|Hne] by (destruct (main s); (by left) || by right).
  { left. by eapply finished. }
  right. destruct (main_step false s) as [x|] eqn:Em.
  { right. apply (safe_moving n s r x Hok); [right; left; by exists false|left; by eapply main_good]. }
  destruct (waiter_step n s) as [x|] eqn:Ewt.
  { right. apply (safe_moving n s r x Hok); [by left|by apply waiter_good]. }
  pose proof Hok as [Hi Hu Hr Hp Hw Hm]. pose proof (main_blocked n s r Hok Em Hne) as Hb. pose proof Ewt as Ewt'. unfold waiter_step in Ewt.
  destruct (waiter s) as [k|k|k|k|k| |] eqn:Ew; cbn in Hw; try done.
  - exfalso. destruct Hw as (_ & _ & _ & p & Ep & Hpost). rewrite Ep, last_poster in Ewt.
    assert (forall a, posters (svc s) = replicate k Posted ++ [PLock a] -> mutex_free (svc s) = true) as Hmu.
    { intros a Ea. apply mutex_free_spec. rewrite Ea. intros i q [[-> _]%lookup_replicate|[_ Hq]]%lookup_app_Some; [done|].
      by apply list_lookup_singleton_Some in Hq as [_ <-]. }
    unfold of_service, step in Ewt. rewrite Ep, last_poster in Ewt.
    destruct p as [timer ns|timer ns|timer ns|a|a| | | |]; try done.
    unfold post_lock in Ewt. by rewrite (Hmu a Ep) in Ewt.
  - destruct (event s) eqn:He; [done|]. destruct Hw as (_ & _ & Hc & Ep & [[Hd _]|[_ ?]]); [|done].
    assert (r = RGet /\ port (svc s) = []) as [-> Hport].
    { destruct Hb as [(_ & ?)|[-> _]]; [done|]. unfold phase in Hp. rewrite Hc in Hp. by destruct Hp as (_ & _ & _ & _ & _ & ?). }
    right. apply (request_moves n s k Hok Hport Hc Ep). rewrite Hd, elem_of_seq. lia.
  - by apply (shutdown_moves n s r).
  - destruct Hw as (_ & _ & _ & Hc). exfalso. destruct Hb as [(_ & -> & Hport)|(_ & _ & ?)]; [|done].
    unfold phase in Hp. rewrite Hc in Hp. by destruct Hp as (_ & _ & _ & _ & [(_ & ? & _)|[?|?]]).
Qed.

(** Without interruptions the worker stays out of the buffer, unless it has the mutex. *)
Lemma orderly_driver n s : rtc (orderly n) (init n0) s -> races (svc s) = false.
Proof.
  intros Hr. assert (unlocked (worker (svc s)) = false) as Hu; [|unfold races; by rewrite Hu].
  revert Hr. apply (rtc_ind_r (fun s => unlocked (worker (svc s)) = false)); [done|]. intros s1 s2 _ [Hs Hn] IH.
  assert (forall a, (forall b, a <> Worker b) -> forall t, svc t = svc s1 -> of_service a t = Some (Ret s2) -> unlocked (worker (svc s2)) = false) as Ho.
  { intros a Ha t Et (y & Ey & E)%of_service_Some. destruct y as [v| | |]; try done. revert E. run_bind. intros [= ->].
    rewrite Et in Ey. apply others_frame in Ey as [Hw _]; [|done]. cbn. by rewrite Hw. }
  destruct Hs as [t t' E|t t' sp E|t t' al E|t t' i E].
  - unfold waiter_step in E. destruct (waiter t) as [k|k|k|k|k| |]; try done; try (by injection E as <-).
    + injection E as <-. by case_decide.
    + destruct (posters (svc t) !! k) as [[]|]; try (by injection E as <-); by apply (Ho (Poster k) ltac:(done) t).
    + destruct (event t); [|done]. by injection E as <-.
    + destruct (closers (svc t) !! 0%nat) as [[]|]; try (by injection E as <-); by apply (Ho (Closer 0) ltac:(done) t).
  - unfold main_step in E. destruct (main t); try done; [|destruct (waiter t); try done; by injection E as <-].
    destruct (reactors (svc t) !! 0%nat) as [[]|]; try (by injection E as <-);
      try (by apply (Ho (Reactor 0 sp) ltac:(done) t)); by apply (Ho (Reactor 0 sp) ltac:(done) (completion_handler t)).
  - apply of_service_Some in E as (y & Ey & E). destruct y as [v| | |]; try done. revert E. run_bind. intros [= ->].
    by eapply locked_worker.
  - by apply (Ho (Timer i) ltac:(done) t).
Qed.
End Driver.

(** C27. The program driver_vanilla.cpp, however the thread, [main], the worker and
    the timers interleave, and whatever the in-flight count starts from: no step
    of any of them faults, but for the race for the queue's buffer; and there is
    none as long as no expired timer ends a wait of the worker for the mutex. A run
    has finitely many steps other than those in which the worker looks into the
    empty queue again - which it does for ever if it is let, for the event stays
    set -, and such a step is to come until the program is over: [main] has
    returned, one line has been printed for each request, all have been handled in
    the order of the posts and destroyed, and the worker has gone. If the count
    did not start from zero, it ends with the worker asleep and [shutdown()]
    waiting for it. *)
Theorem vanilla_driver_completes n0 n s :
  driver_reachable n0 n s ->
  (complete n s /\ u32 n0 = 0 \/ stranded n s /\ u32 n0 <> 0 \/ races (svc s) = true \/
    exists s1 s2, rtc idle s s1 /\ effective n s1 s2) /\
  sn (fun s s2 => exists s1, rtc idle s s1 /\ effective n s1 s2) s /\
  (forall x, next_step n s x -> (exists s', x = Ret s') \/ x = Fault DataRace /\ races (svc s) = true) /\
  (rtc (orderly n) (init n0) s -> races (svc s) = false).
Proof.
  intros [r Hok]%driver_reachable_ok. split; [by apply (driver_progress n0 n s r)|]. split; [|split].
  - remember (measure n s r) as k eqn:Ek. revert s r Hok Ek. induction k as [k IH] using lt_wf_ind. intros s r Hok ->.
    constructor. intros s2 (s1 & Hid & He). destruct (idle_steps_ok n0 n s s1 r Hok Hid) as [Hok1 E].
    destruct (effective_good n0 n s1 s2 r Hok1 He) as (r' & Hok2 & Hlt). eapply IH; [|exact Hok2|reflexivity]. lia.
  - intros x Hn. destruct (next_fine n0 n s r x Hok Hn) as [[(s' & _ & -> & _)|?]|(s' & -> & _)]; [by left; exists s'|by right|by left; exists s'].
  - apply orderly_driver.
Qed.

(** ** Concrete runs *)

(** Who makes the next step. *)
Inductive mover := MWaiter | MMain | MWorker (alert : bool) | MTimer.

Definition move (n_reps : nat) (m : mover) (s : program) : option (outcome program) :=
  match m with
  | MWaiter => waiter_step n_reps s
  | MMain => main_step false s
  | MWorker alert => of_service (Worker alert) s
  | MTimer => of_service (Timer 0) s
  end.

Lemma move_steps n l s : rtc (driver_step n) s (Prelude.exec (move n) l s).
Proof.
  apply exec_rtc. intros [| |al|] s1 s2 E; [by apply StepWaiter|by eapply StepMain|by eapply StepWorker|by eapply StepTimer].
Qed.

(** The first timer has been set, and has expired; the worker is about to wait for
    the mutex. *)
Definition expired_moves : list mover :=
  replicate 9 MWaiter ++ replicate 2 (MWorker false) ++ [MTimer] ++ replicate 5 MMain.
Definition expired : program := Eval vm_compute in Prelude.exec (move 2) expired_moves (init 0).

(** The worker can look into the queue for ever, with the expired timer's APC queued. *)
Theorem vanilla_driver_spins :
  exists s s', driver_reachable 0 2 s /\ apcs (svc s) <> [] /\ out s = 0%nat /\ idle s s' /\ idle s' s.
Proof.
  exists expired, (with_svc expired (set_worker (WaitEvent false) (svc expired))).
  split; [exact (move_steps 2 expired_moves (init 0))|]. split; [discriminate|]. split; [reflexivity|].
  split; (split; [|split; [reflexivity|vm_compute; reflexivity]]); [left; reflexivity|right; exists false; reflexivity].
Qed.

(** If its wait for the mutex runs the APC instead, it can be in the buffer when the
    second request is pushed. *)
Definition racing_moves : list mover :=
  expired_moves ++ [MWorker true] ++ replicate 3 MMain ++ replicate 9 MWaiter.
Definition racing : program := Eval vm_compute in Prelude.exec (move 2) racing_moves (init 0).
Theorem vanilla_driver_races : exists s, driver_reachable 0 2 s /\ waiter_step 2 s = Some (Fault DataRace).
Proof.
  exists racing. split; [exact (move_steps 2 racing_moves (init 0))|]. vm_compute. reflexivity.
Qed.

(** A run, in which whoever can go on first in a fixed order does so, the worker
    with its APCs when it waits for the event. *)
Definition schedule (s : program) : list mover :=
  [MWaiter; MMain; MTimer] ++
  match worker (svc s) with Popping => [MWorker false] | _ => [MWorker true; MWorker false] end.

Fixpoint first_move (n_reps : nat) (l : list mover) (s : program) : option (outcome program) :=
  match l with
  | [] => None
  | m :: l => match move n_reps m s with Some r => Some r | None => first_move n_reps l s end
  end.

Fixpoint drive (fuel n_reps : nat) (s : program) : program :=
  match fuel with
  | O => s
  | S fuel => match first_move n_reps (schedule s) s with Some (Ret s) => drive fuel n_reps s | _ => s end
  end.

Lemma first_move_step n l s s' : first_move n l s = Some (Ret s') -> exists m, move n m s = Some (Ret s').
Proof. induction l as [|m l IH]; [done|]. cbn. destruct (move n m s) eqn:E; [intros [= ->]; by exists m|done]. Qed.

Lemma drive_steps fuel n s : rtc (driver_step n) s (drive fuel n s).
Proof.
  revert s. induction fuel as [|fuel IH]; intros s; [apply rtc_refl|]. cbn [drive].
  destruct (first_move n (schedule s) s) as [[s'| | |]|] eqn:E; try apply rtc_refl.
  apply first_move_step in E as [m E]. transitivity s'; [|apply IH].
  pose proof (move_steps n [m] s) as Hm. cbn in Hm. by rewrite E in Hm.
Qed.

Definition final : program := Eval vm_compute in drive 200 2 (init 0).
Definition stuck : program := Eval vm_compute in drive 200 2 (init 1).

(** ** Witness *)

Lemma vanilla_driver_completes_witness :
  (complete 2 final /\ out final = 2%nat) /\ (stranded 2 stuck /\ main stuck = MRun) /\
  sn (fun s s2 => exists s1, rtc idle s s1 /\ effective 2 s1 s2) (init 0).
Proof.
  assert (forall s, worker (svc s) = Exited \/ worker (svc s) = Sleeping -> armed (svc s) = [] -> apcs (svc s) = [] ->
    waiter_step 2 s = None -> main_step true s = None -> main_step false s = None ->
    (races (svc s) = true \/ exists s1 s2, rtc idle s s1 /\ effective 2 s1 s2) -> False) as Hno.
  { intros s Hw Ha Hapc H1 H2 H3 [Hr|(s1 & s2 & Hid & [Hs _])]; [unfold races in Hr; destruct Hw as [Hw|Hw]; by rewrite Hw in Hr|].
    inversion Hid as [|? ? ? (Hp & _) _]; subst; [|destruct Hw as [Hw|Hw], Hp as [Hp|[? Hp]]; congruence].
    inversion Hs as [? ? E|? ? sp E|? ? al E|? ? i E]; subst; [congruence|destruct sp; congruence| |].
    - unfold of_service in E. cbn in E. unfold worker_step, run_apc in E. rewrite Hapc in E. by destruct Hw as [Hw|Hw]; rewrite Hw in E; destruct al.
    - unfold of_service in E. cbn in E. unfold expire in E. by rewrite Ha in E. }
  split; [|split].
  - destruct (vanilla_driver_completes 0 2 final) as ([[Hc _]|[[_ H]|H]] & _); [exact (drive_steps 200 2 (init 0))|by split|by destruct H|].
    destruct (Hno final); try reflexivity; [by left|done].
  - destruct (vanilla_driver_completes 1 2 stuck) as ([[_ H]|[[Hc _]|H]] & _); [exact (drive_steps 200 2 (init 1))|done|by split|].
    destruct (Hno stuck); try reflexivity; [by right|done].
  - destruct (vanilla_driver_completes 0 2 (init 0)) as (_ & H & _); [apply rtc_refl|exact H].
Defined.
End TimerDriver.

Module AwaitableDriver.
Import TimerService.

(** ** driver_awaitable.cpp *)

(** What [main] does: the coroutine [wait_for_n_timers] - at the head of its loop,
    in [await_suspend], before [puts], in [shutdown()] -, return from it to
    whoever has called or resumed it, destroy the task that the call has
    returned, run the reactor. *)
Inductive pc :=
| CHead (i : nat) | CAwait (i : nat) | CPuts (i : nat) | CShutdown | Back | MDestroy | MRun | MReturned.

(** The coroutine's frame: suspended in the [i]-th [co_await] ([None]: running,
    or suspended in [final_suspend]), or destroyed. *)
Inductive coro_frame := Alive (at_ : option nat) | Destroyed.

(** [nested]: the request whose handler has resumed the coroutine *)
Record program := Program { svc : service; point : pc; frame : coro_frame; nested : option addr; out : nat }.

Definition two_seconds : Z := 2 * 10 ^ 9.

Definition goto (p : pc) (s : program) : program := Program (svc s) p (frame s) (nested s) (out s).
Definition with_svc (s : program) (v : service) : program := Program v (point s) (frame s) (nested s) (out s).
Definition suspend (at_ : option nat) (s : program) : program := Program (svc s) Back (Alive at_) (nested s) (out s).

Definition of_service (a : agent) (s : program) : option (outcome program) :=
  match step a (svc s) with Some r => Some (v ← r; Ret (with_svc s v)) | None => None end.

(** [awaiting_coro.resume()], the completion handler of the request [a] *)
Definition resume_awaiting_coroutine (a : addr) (s : program) : outcome program :=
  r ← or_fault Dangling (heap (svc s) !! a);
  match frame s with
  | Alive (Some i) =>
    Ret (Program (set_handled (handled (svc s) ++ [ctx r]) (svc s)) (CPuts i) (frame s) (Some a) (out s))
  | Alive None => Fault BadResume
  | Destroyed => Fault Dangling
  end.

(** The handler has returned: the request is destroyed. *)
Definition handler_returns (a : addr) (s : program) : outcome program :=
  v ← destroy_request a (svc s);
  Ret (Program (reactor_at 0 RGet v) MRun (frame s) None (out s)).

(** The next step of the thread of [main] *)
Definition main_step (n_reps : nat) (spurious : bool) (s : program) : option (outcome program) :=
  match point s with
  | CHead i =>
    Some (Ret (if decide (i < n_reps)%nat
      then goto (CAwait i) (with_svc s (set_posters (posters (svc s) ++ [PLoad null two_seconds]) (svc s)))
      else goto CShutdown (with_svc s (set_closers (closers (svc s) ++ [CFetchOr]) (svc s)))))
  | CAwait i =>
    match posters (svc s) !! i with
    | Some Posted => Some (Ret (suspend (Some i) s))
    | Some Denied => Some (Ret (goto (CPuts i) s))
    | _ => of_service (Poster i) s
    end
  | CPuts i => Some (Ret (Program (svc s) (CHead (S i)) (frame s) (nested s) (S (out s))))
  | CShutdown =>
    match closers (svc s) !! 0%nat with
    | Some CReturned => Some (Ret (suspend None s))
    | _ => of_service (Closer 0) s
    end
  | Back => Some (match nested s with None => Ret (goto MDestroy s) | Some a => handler_returns a s end)
  | MDestroy =>
    Some (Ret (Program (set_reactors (reactors (svc s) ++ [RLoad]) (svc s)) MRun Destroyed (nested s) (out s)))
  | MRun =>
    match reactors (svc s) !! 0%nat with
    | Some RDone => Some (Ret (goto MReturned s))
    | Some (RCall a) => Some (resume_awaiting_coroutine a s)
    | _ => of_service (Reactor 0 spurious) s
    end
  | MReturned => None
  end.

Inductive driver_step (n_reps : nat) : program -> program -> Prop :=
| StepMain s s' spurious : main_step n_reps spurious s = Some (Ret s') -> driver_step n_reps s s'
| StepWorker s s' alert : of_service (Worker alert) s = Some (Ret s') -> driver_step n_reps s s'
| StepTimer s s' i : of_service (Timer i) s = Some (Ret s') -> driver_step n_reps s s'.

Definition init (n0 : Z) : program := Program (timer_service (u32 n0)) (CHead 0) (Alive None) None 0.

Definition driver_reachable (n0 : Z) (n_reps : nat) (s : program) : Prop := rtc (driver_step n_reps) (init n0) s.

(** ** The coroutine is gone when its timer expires. *)

Definition posting (p : poster) : Prop :=
  match p with
  | PLoad timer ns | PAdd timer ns | PSubmit timer ns => timer = null /\ ns = two_seconds
  | Denied => False
  | _ => True
  end.

(** No one shuts the service down; the word is that of at most one reactor. *)
Definition calm (s : program) : Prop :=
  closers (svc s) = [] /\ out s = 0%nat /\ nested s = None /\
  match point s with
  | CHead i => i = 0%nat /\ posters (svc s) = [] /\ n_active_reactors (svc s) = 0
  | CAwait i => i = 0%nat /\ (exists p, posters (svc s) = [p] /\ posting p) /\ n_active_reactors (svc s) = 0
  | Back | MDestroy => True
  | MRun | MReturned => frame s = Destroyed
  | _ => False
  end.

(** What the worker and the timers leave alone. *)
Definition untouched (v v' : service) : Prop :=
  closers v' = closers v /\ posters v' = posters v /\ n_active_reactors v' = n_active_reactors v.

Lemma worker_untouched al v v' : step (Worker al) v = Some (Ret v') -> untouched v v'.
Proof. by intros (_ & _ & H & _)%worker_frame. Qed.

Lemma timer_untouched i v v' : step (Timer i) v = Some (Ret v') -> untouched v v'.
Proof. cbn. unfold expire. destruct (armed v !! i); [|done]. by intros [= <-]. Qed.

Lemma reactor_closers i sp v v' : step (Reactor i sp) v = Some (Ret v') -> closers v' = closers v.
Proof.
  unfold step. destruct (reactors v !! i) as [[]|]; try done; try (by intros [= <-]).
  - intros [= <-]. unfold enter_cas. by case_decide.
  - unfold get_completion. destruct (port v); [done|]. by intros [= <-].
  - unfold call_handler, destroy_request. destruct (heap v !! a) as [q|] eqn:Ea; [|done]. cbn [or_fault]. run_bind.
    cbn [heap set_handled]. rewrite Ea. cbn [or_fault]. run_bind.
    destruct (if owned_timer q then _ else _) as [ts| | |]; try done. run_bind. by intros [= <-].
Qed.

Lemma poster_calm v v' p : posters v = [p] -> posting p -> n_active_reactors v = 0 -> step (Poster 0) v = Some (Ret v') ->
  closers v' = closers v /\ n_active_reactors v' = 0 /\ exists p', posters v' = [p'] /\ posting p'.
Proof.
  intros Ep Hp Hw E. destruct (poster_frame 0 v v' E) as (_ & _ & _ & -> & -> & _). split; [done|]. split; [done|].
  cbn in E. rewrite Ep in E. cbn in E. destruct p as [timer ns|timer ns|timer ns|a|a| | | |]; try done; try injection E as <-.
  - unfold post_load, poster_at. cbn. rewrite Hw, Ep. by exists (PAdd timer ns).
  - cbn. rewrite Ep. by exists (PSubmit timer ns).
  - unfold post_submit, make_request. destruct timer; cbn; rewrite Ep; by eexists.
  - unfold post_lock in E. destruct (mutex_free v); [|done]. injection E as <-. cbn. rewrite Ep. by exists (PPush a).
  - unfold post_push in E. destruct (races v); [done|]. injection E as <-. cbn. rewrite Ep. by exists PRelease.
  - cbn. rewrite Ep. by exists PSet.
  - cbn. rewrite Ep. by exists Posted.
Qed.

Lemma of_service_Ret a s s' : of_service a s = Some (Ret s') -> exists v, step a (svc s) = Some (Ret v) /\ s' = with_svc s v.
Proof. unfold of_service. destruct (step a (svc s)) as [[v| | |]|]; try done. intros [= <-]. eauto. Qed.

Lemma calm_step n s s' : (0 < n)%nat -> calm s -> driver_step n s s' -> calm s'.
Proof.
  intros Hn (Hc & Ho & Hne & Hp) Hs.
  assert (forall v, untouched (svc s) v -> calm (with_svc s v)) as Hk.
  { intros v (E1 & E2 & E3). unfold calm. cbn. by rewrite E1, E2, E3. }
  destruct Hs as [s s' sp E|s s' al (v & Ev & ->)%of_service_Ret|s s' i (v & Ev & ->)%of_service_Ret].
  - unfold main_step in E. destruct (point s) as [i|i|i| | | | |] eqn:Ept; try done.
    + destruct Hp as (-> & Hps & Hw). rewrite decide_True in E by done. injection E as <-. unfold calm. cbn. rewrite Hps.
      do 4 (split; [done|]). split; [|done]. by eexists.
    + destruct Hp as (-> & (p & Eps & Hpo) & Hw). rewrite Eps in E. cbn in E.
      assert (of_service (Poster 0) s = Some (Ret s') \/ s' = suspend (Some 0%nat) s) as [(v & Ev & ->)%of_service_Ret| ->].
      { destruct p; try done; try by left. right. by injection E. }
      * destruct (poster_calm _ _ _ Eps Hpo Hw Ev) as (E1 & E2 & E3). unfold calm. cbn. by rewrite E1, E2, Ept.
      * done.
    + rewrite Hne in E. by injection E as <-.
    + by injection E as <-.
    + destruct (reactors (svc s) !! 0%nat) as [[]|] eqn:Er; try (by injection E as <-);
        try (apply of_service_Ret in E as (v & Ev & ->); unfold calm; cbn; rewrite Ept; by rewrite (reactor_closers _ _ _ _ Ev)).
      unfold resume_awaiting_coroutine in E. rewrite Hp in E. by destruct (heap (svc s) !! a).
  - by eapply Hk, worker_untouched.
  - by eapply Hk, timer_untouched.
Qed.

(** The driver with coroutines never prints a line: the task that the call
    returns is a temporary, whose destructor destroys the suspended coroutine;
    when the first timer expires, the reactor resumes a frame that is gone. *)
Theorem awaitable_driver_dangles n0 n s :
  (0 < n)%nat -> driver_reachable n0 n s ->
  out s = 0%nat /\
  forall a sp, point s = MRun -> reactors (svc s) !! 0%nat = Some (RCall a) -> main_step n sp s = Some (Fault Dangling).
Proof.
  intros Hn Hr. assert (calm s) as (_ & Ho & _ & Hp).
  { unfold driver_reachable in Hr. revert Hr. apply (rtc_ind_r calm); [done|]. intros s1 s2 _ Hs Hc. by eapply calm_step. }
  split; [done|]. intros a sp Ept Er. unfold main_step. rewrite Ept in *. rewrite Er. unfold resume_awaiting_coroutine.
  rewrite Hp. by destruct (heap (svc s) !! a).
Qed.

(** ** A run that gets there *)

Definition first {A} (l : list (option A)) : option A := foldr (fun o r => match o with Some a => Some a | None => r end) None l.

Lemma first_in {A} (l : list (option A)) a : first l = Some a -> Some a ∈ l.
Proof. induction l as [|[b|] l IH]; cbn; [done|intros [= ->]; by left|right; by apply IH]. Qed.

Definition next (n_reps : nat) (s : program) : option (outcome program) :=
  match worker (svc s) with
  | Popping => first [of_service (Timer 0) s; main_step n_reps false s; of_service (Worker false) s]
  | _ => first [of_service (Timer 0) s; of_service (Worker true) s; main_step n_reps false s; of_service (Worker false) s]
  end.

Fixpoint drive (fuel n_reps : nat) (s : program) : program :=
  match fuel with
  | O => s
  | S fuel => match next n_reps s with Some (Ret s) => drive fuel n_reps s | _ => s end
  end.

Lemma awaitable_drive_steps fuel n s : rtc (driver_step n) s (drive fuel n s).
Proof.
  revert s. induction fuel as [|fuel IH]; intros s; [apply rtc_refl|]. cbn [drive].
  destruct (next n s) as [[s'| | |]|] eqn:E; try apply rtc_refl. apply (rtc_l _ _ s'); [|apply IH]. unfold next in E.
  destruct (worker (svc s)); apply first_in in E;
    repeat (apply elem_of_cons in E as [E|E]; [symmetry in E; first [by eapply StepMain|by eapply StepWorker|by eapply StepTimer]|]);
    by apply not_elem_of_nil in E.
Qed.

Lemma awaitable_driver_dangles_witness :
  let s := drive 100 5 (init 7) in
  out s = 0%nat /\ main_step 5 false s = Some (Fault Dangling).
Proof.
  destruct (awaitable_driver_dangles 7 5 (drive 100 5 (init 7))) as [Ho Hf]; [lia|apply awaitable_drive_steps|].
  split; [exact Ho|]. eapply Hf; vm_compute; reflexivity.
Defined.
End AwaitableDriver.
