(* ===== verification/TimerLoop.v ===== *)
(** * TimerLoop: the waiting coroutine of applications/timers/

    [awaitable.cpp] of [nix-timerfd], [osx-kqueue] and [win-pool] run the same
    program on three timer types: an eager coroutine that awaits a timer [n]
    times and prints a line each time, and a reactor that resumes whoever
    awaits the timer that has fired. [TimerBackend] is what the program uses of
    a timer type, [TimerLaws] what a timer type promises; the program is
    verified against the two, and each timer type has a file of its own. *)

From S2P Require Import Prelude.

Module TimerLoop.

(** What the program uses of a timer type, over the state [W] of the timer
    objects and the system. *)
Class TimerBackend (W : Type) := {
  (* [await_suspend(awaiting_coro)] of the awaiter of the timer at an address *)
  await_suspend : addr -> addr -> W -> outcome (bool * W);
  (* one turn of the reactor: the handle that it resumes, if any *)
  next_expiration : W -> outcome (option addr * W);
  (* the timer's destructor, and what follows the loop *)
  finish : addr -> W -> outcome W;
}.

Section Program.
Context `{TimerBackend W}.

(** Where the waiting coroutine is: at its [co_await], with [k] turns of the
    loop to go after this one, or done. *)
Inductive point := Running | AtTimer (k : nat) | AtFinal.
Record frame := Frame { timer : addr; at_point : point }.
Record sys := Sys { world : W; coros : gmap addr frame; out : list string }.

Definition fired : string := "[+] timer fired".
Definition puts (s : string) (w : sys) : sys := Sys (world w) (coros w) (out w ++ [s]).

Definition set_point (c : addr) (p : point) (s : sys) : outcome sys :=
  f ← or_fault Dangling (coros s !! c);
  Ret (Sys (world s) (<[c := Frame (timer f) p]> (coros s)) (out s)).

(** [for (count = ...; count < n; ++count) { co_await timer; puts(...); }] and
    the end of the body, in the coroutine at [c]; [k] is [n - count]. When
    [await_suspend] returns false the coroutine goes on. *)
Fixpoint loop (k : nat) (c t : addr) (s : sys) : outcome sys :=
  match k with
  | O =>
    w ← finish t (world s);
    set_point c AtFinal (Sys w (coros s) (out s))
  | S k =>
    s ← set_point c (AtTimer k) s;
    '(suspended, w) ← await_suspend t c (world s);
    let s := Sys w (coros s) (out s) in
    if (suspended : bool) then Ret s
    else s ← set_point c Running s; loop k c t (puts fired s)
  end.

(** [coroutine_handle::resume()] *)
Definition resume (c : addr) (s : sys) : outcome sys :=
  f ← or_fault Dangling (coros s !! c);
  match at_point f with
  | AtTimer k => s ← set_point c Running s; loop k c (timer f) (puts fired s)
  | Running | AtFinal => Fault BadResume
  end.

(** The call of the coroutine, whose timer has been constructed at [t]. *)
Definition start (n : nat) (t : addr) (s : sys) : outcome (addr * sys) :=
  let c := fresh (dom (coros s)) in
  s ← loop n c t (Sys (world s) (<[c := Frame t Running]> (coros s)) (out s));
  Ret (c, s).

(** The call of a coroutine that begins by constructing its timer at [t]: when
    the constructor throws, the coroutine is over, and the exception is in its
    promise ([unhandled_exception]), not in the caller. *)
Definition waiter (n : nat) (t : addr) (constructed : outcome unit) (s : sys) : outcome (addr * sys) :=
  match constructed with
  | Ret _ => start n t s
  | Raise _ =>
    let c := fresh (dom (coros s)) in
    Ret (c, Sys (world s) (<[c := Frame t AtFinal]> (coros s)) (out s))
  | Fault f => Fault f
  | Diverged => Diverged
  end.

(** One turn of the reactor. *)
Definition turn (s : sys) : outcome sys :=
  '(h, w) ← next_expiration (world s);
  let s := Sys w (coros s) (out s) in
  match h with Some c => resume c s | None => Ret s end.

(** [for (count = 0; count < n; ++count) ...] *)
Fixpoint reactor (n : nat) (s : sys) : outcome sys :=
  match n with O => Ret s | S n => s ← turn s; reactor n s end.
End Program.

(** What a timer type promises: [idle] timers can be awaited, a [pending] one
    fires and resumes the coroutine that awaits it, and can then be awaited
    again or destroyed - unless the wait for it fails, with an exception. *)
Class TimerLaws {W} `{TimerBackend W} (idle : W -> addr -> Prop) (pending : W -> addr -> addr -> Prop)
    (closed : W -> addr -> Prop) (fails : W -> exn -> Prop) := {
  law_suspend w t c : idle w t -> exists w', await_suspend t c w = Ret (true, w') /\ pending w' t c;
  law_next w t c : pending w t c ->
    (exists w', next_expiration w = Ret (Some c, w') /\ idle w' t) \/
    exists x, next_expiration w = Raise x /\ fails w x;
  law_finish w t : idle w t -> exists w', finish t w = Ret w' /\ closed w' t;
}.

Section Laws.
Context {W} `{TimerBackend W} {idle pending closed fails} {L : TimerLaws idle pending closed fails}.
Implicit Types s : sys (W := W).

(** The coroutine [c] awaits the timer [t], with [k] turns to go. *)
Definition awaiting (c t : addr) (k : nat) (s : sys) : Prop :=
  pending (world s) t c /\ coros s !! c = Some (Frame t (AtTimer k)).

(** The coroutine is done and its timer destroyed. *)
Definition finished (c t : addr) (s : sys) : Prop :=
  closed (world s) t /\ coros s !! c = Some (Frame t AtFinal).

Definition after (c t : addr) (k : nat) (s : sys) : Prop :=
  match k with O => finished c t s | S k => awaiting c t k s end.

Lemma waiter_loop_spec k c t p w cs o :
  idle w t -> cs !! c = Some (Frame t p) ->
  exists s', loop k c t (Sys w cs o) = Ret s' /\ after c t k s' /\ out s' = o /\
    (forall x, x <> c -> coros s' !! x = cs !! x).
Proof.
  intros Hi Ec. destruct k as [|k]; cbn [loop].
  - destruct (law_finish w t Hi) as (w' & E & Hc). cbn [world coros out]. rewrite E. run_bind. unfold set_point.
    cbn [coros]. rewrite Ec. cbn [or_fault]. run_bind. eexists. split; [done|]. cbn. unfold finished. cbn.
    rewrite lookup_insert_eq. split; [done|]. split; [done|]. intros x Hx. by rewrite lookup_insert_ne.
  - unfold set_point. cbn [coros]. rewrite Ec. cbn [or_fault]. run_bind. cbn [world].
    destruct (law_suspend w t c Hi) as (w' & E & Hp). rewrite E. run_bind. eexists. split; [done|].
    cbn. unfold awaiting. cbn. rewrite lookup_insert_eq. split; [done|]. split; [done|].
    intros x Hx. by rewrite lookup_insert_ne.
Qed.

Lemma start_spec n t s :
  idle (world s) t ->
  exists s', start n t s = Ret (fresh (dom (coros s)), s') /\ after (fresh (dom (coros s))) t n s' /\ out s' = out s.
Proof.
  intros Hi. unfold start. set (c := fresh _).
  destruct (waiter_loop_spec n c t Running (world s) (<[c := Frame t Running]> (coros s)) (out s)) as (s' & E & Ha & Ho & _);
    [done|apply lookup_insert_eq|]. rewrite E. run_bind. by exists s'.
Qed.

(** One turn of the reactor prints one line, or its wait fails. *)
Lemma turn_spec c t k s :
  awaiting c t k s ->
  (exists s', turn s = Ret s' /\ after c t k s' /\ out s' = out s ++ [fired]) \/
  exists x, turn s = Raise x /\ next_expiration (world s) = Raise x /\ fails (world s) x.
Proof.
  destruct s as [w cs o]. intros [Hp Ec]. cbn in Hp, Ec. unfold turn. cbn [world coros out].
  destruct (law_next w t c Hp) as [(w' & E & Hi)|(x & E & Hf)]; [left|right; exists x; by rewrite E].
  rewrite E. run_bind. unfold resume. cbn [coros].
  rewrite Ec. cbn [or_fault]. run_bind. cbn [at_point timer]. unfold set_point. cbn [coros world out].
  rewrite Ec. cbn [or_fault]. run_bind. unfold puts. cbn [coros world out timer].
  destruct (waiter_loop_spec k c t Running w' (<[c := Frame t Running]> cs) (o ++ [fired])) as (s' & El & Ha & Ho & _);
    [done|apply lookup_insert_eq|]. by exists s'.
Qed.

(** The reactor has made [j] turns, and the wait of the next one fails with
    [x]. *)
Definition interrupted (c t : addr) (k j : nat) (s s' : sys) (x : exn) : Prop :=
  reactor j s = Ret s' /\ out s' = out s ++ replicate j fired /\ awaiting c t (k - 1 - j) s' /\
  next_expiration (world s') = Raise x /\ fails (world s') x.

Lemma reactor_spec c t k s :
  after c t k s ->
  (exists s', reactor k s = Ret s' /\ finished c t s' /\ out s' = out s ++ replicate k fired) \/
  exists x j s', j < k /\ reactor k s = Raise x /\ interrupted c t k j s s' x.
Proof.
  unfold interrupted. revert s. induction k as [|k IH]; intros s Ha.
  - left. exists s. cbn. by rewrite app_nil_r.
  - destruct (turn_spec c t k s Ha) as [(s1 & E1 & Ha1 & Ho1)|(x & E1 & En & Hf)].
    + cbn [reactor]. rewrite E1. run_bind. destruct (IH s1 Ha1) as [(s2 & E2 & Hf & Ho2)|(x & j & s2 & Hj & E2 & Er & Ho2 & Hw & Hn)].
      * left. exists s2. split; [done|]. split; [done|]. by rewrite Ho2, Ho1, <- app_assoc.
      * right. exists x, (S j), s2. split; [lia|]. split; [done|]. cbn [reactor]. rewrite E1. run_bind. split; [done|].
        split; [by rewrite Ho2, Ho1, <- app_assoc|]. split; [|done]. by replace (S k - 1 - S j) with (k - 1 - j) by lia.
    + right. exists x, 0, s. split; [lia|]. cbn [reactor]. rewrite E1. split; [done|]. split; [done|]. split; [by rewrite app_nil_r|].
      split; [|done]. by replace (S k - 1 - 0) with k by lia.
Qed.

(** The program: the coroutine is called, then the reactor turns [n] times. *)
Lemma program_spec n t s :
  idle (world s) t ->
  exists c s1, start n t s = Ret (c, s1) /\ out s1 = out s /\
    ((exists s', reactor n s1 = Ret s' /\ finished c t s' /\ out s' = out s ++ replicate n fired) \/
     exists x j s', j < n /\ reactor n s1 = Raise x /\ interrupted c t n j s1 s' x).
Proof.
  intros Hi. destruct (start_spec n t s Hi) as (s1 & E1 & Ha & Ho1). eexists _, s1. split; [exact E1|]. split; [done|].
  rewrite <- Ho1. by apply reactor_spec.
Qed.
End Laws.

(** A timer that cannot be armed does not suspend the coroutine. *)
Section Refused.
Context {W} `{TimerBackend W} (refuses : W -> addr -> Prop) (over : W -> Prop).
Context (refuse : forall w t c, refuses w t -> exists w', await_suspend t c w = Ret (false, w') /\ refuses w' t).
Context (refuse_finish : forall w t, refuses w t -> exists w', finish t w = Ret w' /\ over w').

Lemma loop_refused k c t p w cs o :
  refuses w t -> cs !! c = Some (Frame t p) ->
  exists s', loop k c t (Sys w cs o) = Ret s' /\ out s' = o ++ replicate k fired /\
    coros s' !! c = Some (Frame t AtFinal) /\ over (world s').
Proof.
  revert p w cs o. induction k as [|k IH]; intros p w cs o Hr Ec; cbn [loop].
  - destruct (refuse_finish w t Hr) as (w' & E & Hv). cbn [world coros out]. rewrite E. run_bind. unfold set_point.
    cbn [coros]. rewrite Ec. cbn [or_fault]. run_bind. eexists. split; [done|]. cbn. by rewrite app_nil_r, lookup_insert_eq.
  - unfold set_point. cbn [coros]. rewrite Ec. cbn [or_fault]. run_bind. cbn [world].
    destruct (refuse w t c Hr) as (w' & E & Hr'). rewrite E. run_bind. cbn [coros world out].
    rewrite lookup_insert_eq. cbn [or_fault]. run_bind. unfold puts. cbn [coros world out timer].
    destruct (IH Running w' (<[c := Frame t Running]> (<[c := Frame t (AtTimer k)]> cs)) (o ++ [fired]) Hr' (lookup_insert_eq _ _ _))
      as (s' & Es & Ho & Hc).
    exists s'. split; [done|]. split; [|done]. by rewrite Ho, <- app_assoc.
Qed.
End Refused.
End TimerLoop.
