(* ===== verification/NixTimer.v ===== *)
(** * NixTimer: applications/timers/nix-timerfd/

    [awaitable_timer.hpp] with its driver [awaitable.cpp], and [vanilla.cpp],
    the same without coroutines. The system calls are the class
    [TimerfdKernel]; [TimerfdLaws] is what their manual pages promise, stated
    over a view of the kernel: for each timer descriptor, its clock and where
    it is registered. *)

From S2P Require Import Prelude TimerLoop.
Local Open Scope Z_scope.

Module NixTimer.
Import TimerLoop.

(** ** The system calls *)

Definition EPOLLIN : Z := 1.

(** A call returns -1 for an error; [epoll_wait] with one event and no timeout
    returns, beside its result, the event and its data pointer, or blocks for
    ever. *)
Class TimerfdKernel (K : Type) := {
  epoll_create1 : K -> Z * K;
  timerfd_create : K -> Z * K;
  epoll_ctl_add : Z -> Z -> Z -> addr -> K -> Z * K;
  epoll_ctl_del : Z -> Z -> K -> Z * K;
  timerfd_settime : Z -> Z -> Z -> K -> Z * K;
  epoll_wait : Z -> K -> option (Z * Z * addr * K);
  close_fd : Z -> K -> K;
  errno : K -> Z;
}.

(** The clock of a timer: a one-shot timer that has expired stays readable,
    and is reported again, until it is set or closed. *)
Inductive clock := Disarmed | Armed | Expired.

Record fd_view := FdView { registered : gmap Z (Z * addr); state : clock }.

(** [epoll_wait] reports a timer of the instance [e] as soon as one that is
    registered for EPOLLIN has expired. *)
Definition reports (v : fd_view) (e : Z) (ptr : addr) : Prop :=
  registered v !! e = Some (EPOLLIN, ptr) /\ state v <> Disarmed.

Class TimerfdLaws {K} `{TimerfdKernel K} (view : K -> gmap Z fd_view) := {
  law_instance k e k' : epoll_create1 k = (e, k') ->
    view k' = view k /\ (e <> -1 -> view k !! e = None /\ forall fd v, view k !! fd = Some v -> registered v !! e = None);
  law_create k fd k' : timerfd_create k = (fd, k') ->
    if decide (fd = -1) then view k' = view k
    else view k !! fd = None /\ view k' = <[fd := FdView ∅ Disarmed]> (view k);
  law_add e fd ev ptr k r k' v : epoll_ctl_add e fd ev ptr k = (r, k') -> view k !! fd = Some v ->
    if decide (r = -1) then view k' = view k
    else view k' = <[fd := FdView (<[e := (ev, ptr)]> (registered v)) (state v)]> (view k);
  law_del e fd k r k' v : epoll_ctl_del e fd k = (r, k') -> view k !! fd = Some v ->
    view k' = <[fd := FdView (delete e (registered v)) (state v)]> (view k);
  law_close fd k : view (close_fd fd k) = delete fd (view k);
  (* a zero value disarms the timer *)
  law_settime fd s n k v : view k !! fd = Some v -> 0 <= s -> 0 <= n < 10 ^ 9 ->
    exists k', timerfd_settime fd s n k = (0, k') /\
      view k' = <[fd := FdView (registered v) (if decide (s = 0 /\ n = 0) then Disarmed else Armed)]> (view k);
  law_settime_bad fd s n k : view k !! fd = None -> exists k', timerfd_settime fd s n k = (-1, k') /\ view k' = view k;
  (* one event; or an error, of which EINTR is one that may come at any time *)
  law_wait e k r : epoll_wait e k = Some r ->
    (exists ptr k' fd v, r = (1, EPOLLIN, ptr, k') /\
      view k !! fd = Some v /\ reports v e ptr /\ view k' = <[fd := FdView (registered v) Expired]> (view k)) \/
    exists ev ptr k', r = (-1, ev, ptr, k') /\ view k' = view k;
  law_wait_returns e k fd v ptr : view k !! fd = Some v -> reports v e ptr -> is_Some (epoll_wait e k);
}.

Section Program.
Context {K} `{TimerfdKernel K}.

(** ** awaitable_timer.hpp *)

(** The data members. The move constructor does not initialise [ioc]; the
    address of [async_ctx] is that of the object. *)
Record awaitable_timer := Timer {
  ioc : option Z;
  fd : Z;
  sec : Z;
  ns : Z;
  awaiting_coro : ptr;
}.

Record world := World { kern : K; timers : gmap addr awaitable_timer }.

(** [duration_cast] truncates; a timeout is given in nanoseconds. *)
Definition duration_sec (timeout : Z) : Z := Z.quot timeout (10 ^ 9).
Definition duration_ns (timeout : Z) : Z := timeout - duration_sec timeout * 10 ^ 9.

(** The constructor, for an object at [t]. *)
Definition construct (t : addr) (ioc_ timeout : Z) (w : world) : outcome unit * world :=
  let '(fd, k) := timerfd_create (kern w) in
  if decide (fd = -1) then (Raise (SystemError (errno k)), World k (timers w))
  else
    let '(res, k) := epoll_ctl_add ioc_ fd EPOLLIN t k in
    if decide (res = -1) then (Raise (SystemError (errno k)), World k (timers w))
    else
      (Ret tt, World k (<[t := Timer (Some ioc_) fd (duration_sec timeout) (duration_ns timeout) null]> (timers w))).

(** [close()] *)
Definition close (t : addr) (w : world) : outcome world :=
  o ← or_fault Dangling (timers w !! t);
  if decide (fd o <> -1) then
    e ← or_fault Uninitialised (ioc o);
    let '(_, k) := epoll_ctl_del e (fd o) (kern w) in
    Ret (World (close_fd (fd o) k) (timers w))
  else Ret w.

(** [~awaitable_timer()] *)
Definition destructor (t : addr) (w : world) : outcome world :=
  w ← close t w; Ret (World (kern w) (delete t (timers w))).

Definition moved_from (o : awaitable_timer) : awaitable_timer := Timer (ioc o) (-1) 0 0 (awaiting_coro o).

(** [awaitable_timer(awaitable_timer&& at)], for a new object at [t] *)
Definition move (t at_ : addr) (w : world) : outcome world :=
  o ← or_fault Dangling (timers w !! at_);
  Ret (World (kern w) (<[at_ := moved_from o]> (<[t := Timer None (fd o) (sec o) (ns o) null]> (timers w)))).

(** [operator=(awaitable_timer&& at)] *)
Definition move_assign (t at_ : addr) (w : world) : outcome world :=
  if decide (at_ <> t) then
    w ← close t w;
    m ← or_fault Dangling (timers w !! t);
    o ← or_fault Dangling (timers w !! at_);
    Ret (World (kern w) (<[at_ := moved_from o]> (<[t := Timer (ioc m) (fd o) (sec o) (ns o) (awaiting_coro m)]> (timers w))))
  else Ret w.

(** [rearm()] *)
Definition rearm (t : addr) (w : world) : outcome (bool * world) :=
  o ← or_fault Dangling (timers w !! t);
  let '(res, k) := timerfd_settime (fd o) (sec o) (ns o) (kern w) in
  Ret (bool_decide (res <> -1), World k (timers w)).

(** The awaiter's [await_suspend]; [await_ready] is false. *)
Definition awaiter_suspend (t c : addr) (w : world) : outcome (bool * world) :=
  o ← or_fault Dangling (timers w !! t);
  rearm t (World (kern w) (<[t := Timer (ioc o) (fd o) (sec o) (ns o) (Some c)]> (timers w))).

(** [on_timer_expire(ctx)]: the handle that is resumed. *)
Definition on_timer_expire (ctx : addr) (w : world) : outcome addr :=
  o ← or_fault Dangling (timers w !! ctx);
  or_fault NullDeref (awaiting_coro o).

(** ** awaitable.cpp *)

(** The body of the loop of [reactor(ioc, n_expirations)]; blocking for ever
    is divergence. *)
Definition reactor_turn (e : Z) (w : world) : outcome (option addr * world) :=
  match epoll_wait e (kern w) with
  | None => Diverged
  | Some (n_events, events, ptr, k) =>
    if decide (n_events = -1) then Raise (SystemError (errno k))
    else if decide (Z.land events EPOLLIN <> 0) then
      h ← on_timer_expire ptr (World k (timers w)); Ret (Some h, World k (timers w))
    else Ret (None, World k (timers w))
  end.

Definition backend (e : Z) : TimerBackend world := {|
  await_suspend := awaiter_suspend;
  next_expiration := reactor_turn e;
  finish := destructor;
|}.

(** [waiter(ioc, n)] and [reactor(ioc, n)] of [main]; [r] is how the
    construction of [two_seconds] at [t] in the waiter's frame has ended, in
    [w]. *)
Definition run_timer (e : Z) (n : nat) (t : addr) (r : outcome unit) (w : world) : outcome (sys (W := world)) :=
  '(_, s) ← waiter (H := backend e) n t r (Sys w ∅ []);
  reactor (H := backend e) n s.

(** [main]: the instance, the waiter with its timer of two seconds, the
    reactor; the end of [main] closes the instance. *)
Definition awaitable_main (n : nat) (t : addr) (k : K) : outcome (sys (W := world)) :=
  let '(e, k) := epoll_create1 k in
  if decide (e = -1) then Raise (SystemError (errno k))
  else
    let '(r, w) := construct t e (2 * 10 ^ 9) (World k ∅) in
    s ← run_timer e n t r w;
    Ret (Sys (World (close_fd e (kern (TimerLoop.world s))) (timers (TimerLoop.world s))) (coros s) (out s)).

(** ** vanilla.cpp *)
Section Vanilla.

(** [expiration_ctx] objects: the descriptor; the callback is
    [on_timer_expiration]. *)
Record vanilla := Vanilla { v_kern : K; ctxs : gmap addr Z; printed : list string }.

(** [arm_timer(timer_fd, timeout)]: whole seconds only *)
Definition arm_timer (timer_fd timeout : Z) (k : K) : outcome K :=
  let secs := duration_sec timeout in
  let '(res, k) := timerfd_settime timer_fd secs 0 k in
  if decide (res = -1) then Raise (SystemError (errno k)) else Ret k.

Definition on_timer_expiration (timer_fd : Z) (v : vanilla) : outcome vanilla :=
  let v := Vanilla (v_kern v) (ctxs v) (printed v ++ [fired]) in
  k ← arm_timer timer_fd (2 * 10 ^ 9) (v_kern v);
  Ret (Vanilla k (ctxs v) (printed v)).

Fixpoint vanilla_reactor (epoller : Z) (n_expirations : nat) (v : vanilla) : outcome vanilla :=
  match n_expirations with
  | O => Ret v
  | S n =>
    match epoll_wait epoller (v_kern v) with
    | None => Diverged
    | Some (n_events, events, ptr, k) =>
      if decide (n_events = -1) then Raise (SystemError (errno k))
      else
        let v := Vanilla k (ctxs v) (printed v) in
        v ← (if decide (Z.land events EPOLLIN <> 0) then
               timer_fd ← or_fault Dangling (ctxs v !! ptr); on_timer_expiration timer_fd v
             else Ret v);
        vanilla_reactor epoller n v
    end
  end.

(** [main], with [ctx] at address [c] *)
Definition vanilla_main (n_expirations : nat) (c : addr) (k : K) : outcome vanilla :=
  let '(instance, k) := epoll_create1 k in
  if decide (instance = -1) then Raise (SystemError (errno k))
  else
    let '(timer, k) := timerfd_create k in
    if decide (timer = -1) then Raise (SystemError (errno k))
    else
      let '(res, k) := epoll_ctl_add instance timer EPOLLIN c k in
      if decide (res = -1) then Raise (SystemError (errno k))
      else
        k ← arm_timer timer (2 * 10 ^ 9) k;
        v ← vanilla_reactor instance n_expirations (Vanilla k {[ c := timer ]} []);
        Ret (Vanilla (close_fd instance (close_fd timer (v_kern v))) (ctxs v) (printed v)).
End Vanilla.
End Program.
Arguments world : clear implicits.
Arguments vanilla : clear implicits.

(** ** Theorems *)

(** The split of a timeout into seconds and nanoseconds loses nothing and is
    what [timerfd_settime] accepts. *)
Lemma duration_split timeout : 0 <= timeout ->
  0 <= duration_sec timeout /\ 0 <= duration_ns timeout < 10 ^ 9 /\
  duration_sec timeout * 10 ^ 9 + duration_ns timeout = timeout.
Proof.
  intros H. unfold duration_ns, duration_sec. rewrite Z.quot_div_nonneg by lia.
  pose proof (Z.div_mod timeout (10 ^ 9)). pose proof (Z.mod_pos_bound timeout (10 ^ 9)).
  pose proof (Z.div_pos timeout (10 ^ 9)). lia.
Qed.

Section Timerfd.
Context {K} `{L : TimerfdLaws K view}.
Implicit Types w : world K.

(** The instance, and the timers that others have open. *)
Context (e : Z) (base : gmap Z fd_view).
Context (base_clear : forall fd v, base !! fd = Some v -> registered v !! e = None).

(** The timer object at [t] owns a descriptor that is registered, alone, with
    the instance, and has a timeout that arms it. *)
Record ready w (t : addr) (o : awaitable_timer) (v : fd_view) : Prop := {
  ready_timer : timers w !! t = Some o;
  ready_ioc : ioc o = Some e;
  ready_fd : fd o <> -1;
  ready_view : view (kern w) !! fd o = Some v;
  ready_registered : registered v !! e = Some (EPOLLIN, t);
  ready_sec : 0 <= sec o;
  ready_ns : 0 <= ns o < 10 ^ 9;
  ready_alone : delete (fd o) (view (kern w)) = base;
}.

Definition nonzero (o : awaitable_timer) : Prop := ~ (sec o = 0 /\ ns o = 0).

(** [await_suspend] stores the handle and arms the timer, or disarms it when
    the timeout is zero. *)
Lemma awaiter_suspend_spec w t c o v :
  ready w t o v -> exists w' v', awaiter_suspend t c w = Ret (true, w') /\
    ready w' t (Timer (ioc o) (fd o) (sec o) (ns o) (Some c)) v' /\
    state v' = if decide (sec o = 0 /\ ns o = 0) then Disarmed else Armed.
Proof.
  intros [T I F V R S N A]. unfold awaiter_suspend. rewrite T. cbn [or_fault]. run_bind.
  unfold rearm. cbn [timers kern]. rewrite lookup_insert_eq. cbn [or_fault]. run_bind. cbn [fd sec ns].
  destruct (law_settime (fd o) (sec o) (ns o) (kern w) v V S N) as (k' & -> & Vk). cbn [bool_decide].
  eexists. exists (FdView (registered v) (if decide (sec o = 0 /\ ns o = 0) then Disarmed else Armed)).
  split; [done|]. split; [|done].
  split; cbn [timers kern ioc fd sec ns]; try done.
  - apply lookup_insert_eq.
  - rewrite Vk. apply lookup_insert_eq.
  - by rewrite Vk, delete_insert_eq.
Qed.

(** The wait fails: [epoll_wait] returns -1. *)
Definition wait_fails w (x : exn) : Prop :=
  exists ev ptr k', epoll_wait e (kern w) = Some (-1, ev, ptr, k') /\ x = SystemError (errno k').

(** The only timer of the instance is reported. *)
Lemma wait_only k y v t :
  view k !! y = Some v -> reports v e t -> delete y (view k) = base ->
  (exists k', epoll_wait e k = Some (1, EPOLLIN, t, k') /\ view k' = <[y := FdView (registered v) Expired]> (view k)) \/
  exists ev ptr k', epoll_wait e k = Some (-1, ev, ptr, k').
Proof.
  intros V Hr A. destruct (law_wait_returns e k y v t V Hr) as [r Er]. rewrite Er.
  destruct (law_wait e k r Er) as [(ptr & k' & y' & v' & -> & V' & [R' _] & Vk)|(ev & ptr & k' & -> & _)];
    [left|right; by exists ev, ptr, k'].
  assert (y' = y) as ->.
  { destruct (decide (y' = y)) as [|Hne]; [done|]. assert (base !! y' = Some v') as Hb by by rewrite <- A, lookup_delete_ne.
    by rewrite (base_clear _ _ Hb) in R'. }
  assert (v' = v) as -> by congruence. destruct Hr as [R _]. assert (ptr = t) as -> by congruence. by exists k'.
Qed.




(** A constructed timer is registered. *)
Lemma construct_ready t timeout k w :
  view k = base -> 0 <= timeout -> construct t e timeout (World k ∅) = (Ret tt, w) ->
  exists o v, ready w t o v /\ awaiting_coro o = None /\ sec o * 10 ^ 9 + ns o = timeout.
Proof.
  intros Hk Ht. unfold construct. cbn [kern timers]. destruct (timerfd_create k) as [fd k1] eqn:E1.
  pose proof (law_create k fd k1 E1) as V1. case_decide as Hfd; [done|]. destruct V1 as [Hnew V1].
  destruct (epoll_ctl_add e fd EPOLLIN t k1) as [r k2] eqn:E2.
  pose proof (law_add e fd EPOLLIN t k1 r k2 (FdView ∅ Disarmed) E2) as V2. rewrite V1, lookup_insert_eq in V2.
  specialize (V2 eq_refl). case_decide as Hr; [done|]. intros [= <-].
  destruct (duration_split timeout Ht) as (Hs & Hn & Hsum).
  exists (Timer (Some e) fd (duration_sec timeout) (duration_ns timeout) null), (FdView (<[e := (EPOLLIN, t)]> ∅) Disarmed).
  split; [|by split]. split; cbn [timers kern ioc NixTimer.fd sec ns]; try done.
  - apply lookup_insert_eq.
  - rewrite V2. apply lookup_insert_eq.
  - apply lookup_insert_eq.
  - by rewrite V2, insert_insert_eq, delete_insert_eq, delete_id.
Qed.


(** Nothing is registered with the instance: the reactor waits until its wait
    fails, or for ever. *)
Lemma reactor_hangs n (s : sys (W := world K)) :
  (forall fd v, view (kern (TimerLoop.world s)) !! fd = Some v -> state v <> Disarmed -> registered v !! e = None) ->
  reactor (H := backend e) (S n) s = Diverged \/
  exists x, reactor (H := backend e) (S n) s = Raise x /\ wait_fails (TimerLoop.world s) x.
Proof.
  intros Hn. cbn [reactor]. unfold turn. cbn [next_expiration backend]. unfold reactor_turn, wait_fails.
  destruct (epoll_wait e (kern (TimerLoop.world s))) as [r|] eqn:Ew; [|by left].
  destruct (law_wait e _ r Ew) as [(ptr & k' & fd' & x & -> & V' & [R' S'] & _)|(ev & ptr & k' & -> & _)];
    [by rewrite (Hn _ _ V' S') in R'|right]. rewrite decide_True by done. eexists. split; [done|]. by exists ev, ptr, k'.
Qed.
End Timerfd.

(** ** awaitable.cpp *)



(** A zero timeout never fires: [timerfd_settime] with a zero value disarms the
    timer and succeeds, so the coroutine suspends, and if nothing else is
    registered the reactor waits for ever, or until its wait fails. *)
Theorem zero_timeout_never_fires {K} `{L : TimerfdLaws K view} n e t k w :
  (forall fd v, view k !! fd = Some v -> registered v !! e = None) ->
  construct t e 0 (World k ∅) = (Ret tt, w) ->
  exists w', awaiter_suspend t (fresh (dom (∅ : gmap addr frame))) w = Ret (true, w') /\
    (run_timer e (S n) t (Ret tt) w = Diverged \/
     exists x, run_timer e (S n) t (Ret tt) w = Raise x /\ wait_fails e w' x).
Proof.
  intros Hclear Ec. destruct (construct_ready e (view k) t 0 k w eq_refl ltac:(lia) Ec) as (o & v & Hr & _ & Hsum).
  assert (sec o = 0 /\ ns o = 0) as Hz by (destruct Hr; lia).
  unfold run_timer, waiter, start. cbn [loop TimerLoop.world coros out]. unfold set_point. cbn [coros].
  rewrite lookup_insert_eq. cbn [or_fault]. run_bind. cbn [TimerLoop.world coros out timer].
  destruct (awaiter_suspend_spec e (view k) w t (fresh (dom (∅ : gmap addr frame))) o v Hr) as (w' & v' & E & Hr' & Hs).
  change (await_suspend t (fresh (dom ∅)) w) with (awaiter_suspend t (fresh (dom (∅ : gmap addr frame))) w).
  rewrite E. run_bind. exists w'. split; [done|].
  match goal with |- reactor _ ?s = _ \/ _ => apply (reactor_hangs e n s) end.
  cbn [TimerLoop.world]. rewrite decide_True in Hs by done.
  destruct Hr' as [_ _ _ V _ _ _ A]. cbn in V, A. intros fd' x V' S'.
  destruct (decide (fd' = fd o)) as [->|Hne]; [congruence|].
  assert (view k !! fd' = Some x) as Hb by by rewrite <- A, lookup_delete_ne. by eapply Hclear.
Qed.

(** When the timer cannot be registered the constructor throws, and as the
    object has not been constructed nothing closes the descriptor that it has
    created. *)
Theorem failed_construct_leaks {K} `{L : TimerfdLaws K view} t e timeout w w' x fd k :
  timerfd_create (kern w) = (fd, k) -> fd <> -1 -> construct t e timeout w = (Raise x, w') ->
  view (kern w') = <[fd := FdView ∅ Disarmed]> (view (kern w)) /\ view (kern w) !! fd = None /\ timers w' = timers w.
Proof.
  intros E Hfd. unfold construct. rewrite E. pose proof (law_create (kern w) fd k E) as V.
  rewrite decide_False by done. rewrite decide_False in V by done. destruct V as [Hn V].
  destruct (epoll_ctl_add e fd EPOLLIN t k) as [r k2] eqn:E2.
  pose proof (law_add e fd EPOLLIN t k r k2 (FdView ∅ Disarmed) E2) as V2. rewrite V, lookup_insert_eq in V2.
  specialize (V2 eq_refl). case_decide; [|done]. intros [= _ <-]. cbn. split; [congruence|done].
Qed.

(** A moved timer is still registered under the address of the object it was
    moved from: when the new object is awaited and fires, the reactor looks for
    the coroutine in the old one, which has none; once the old one is destroyed
    it reads a dead object - unless the wait fails. The new object cannot be destroyed
    either, because the move constructor does not initialise [ioc]. *)
Theorem moved_timer_faults {K} `{L : TimerfdLaws K view} e base a b c o v w :
  (forall fd v, base !! fd = Some v -> registered v !! e = None) ->
  ready (view := view) e base w a o v -> nonzero o -> awaiting_coro o = None -> a <> b ->
  exists w1 w2 w3, move b a w = Ret w1 /\ awaiter_suspend b c w1 = Ret (true, w2) /\
    destructor b w2 = Fault Uninitialised /\ destructor a w2 = Ret w3 /\
    (reactor_turn e w2 = Fault NullDeref /\ reactor_turn e w3 = Fault Dangling \/ exists x, wait_fails e w2 x /\ wait_fails e w3 x).
Proof.
  intros Hclear [T I F V R S N A] Hz Hc Hab. unfold move. rewrite T. cbn [or_fault]. run_bind.
  exists (World (kern w) (<[a := moved_from o]> (<[b := Timer None (fd o) (sec o) (ns o) null]> (timers w)))).
  unfold awaiter_suspend. cbn [timers kern]. rewrite (lookup_insert_ne _ a b), lookup_insert_eq by done.
  cbn [or_fault]. run_bind. unfold rearm. cbn [timers kern ioc fd sec ns]. rewrite lookup_insert_eq.
  cbn [or_fault]. run_bind. cbn [fd sec ns].
  destruct (law_settime (fd o) (sec o) (ns o) (kern w) v V S N) as (k' & -> & Vk). rewrite decide_False in Vk by done.
  eexists. eexists (World _ _). split; [done|]. split; [done|].
  unfold reactor_turn, destructor, close, on_timer_expire, wait_fails. cbn [kern timers].
  rewrite lookup_insert_eq. cbn [or_fault]. run_bind. cbn [fd ioc]. rewrite decide_True by done. split; [done|].
  rewrite !(lookup_insert_ne _ b a), lookup_insert_eq by done. cbn [or_fault]. run_bind.
  cbn [fd ioc moved_from awaiting_coro]. rewrite decide_False by auto. run_bind. cbn [kern timers]. split; [done|].
  destruct (wait_only e base Hclear k' (fd o) (FdView (registered v) Armed) a) as [(k2 & -> & _)|(ev & ptr & k2 & ->)];
    [rewrite Vk; apply lookup_insert_eq|done|by rewrite Vk, delete_insert_eq|left|right; eexists; by split; exists ev, ptr, k2].
  rewrite (decide_False (P := 1 = -1)) by done. rewrite (decide_True (P := Z.land EPOLLIN EPOLLIN <> 0)) by done.
  split; [|by rewrite lookup_delete_eq]. rewrite (lookup_insert_ne _ b a), lookup_insert_eq by done.
  cbn [or_fault]. run_bind. cbn [moved_from awaiting_coro]. by rewrite Hc.
Qed.

(** ** vanilla.cpp *)

(** [arm_timer] keeps whole seconds only: for a timeout below one second the
    value is zero, so that the call succeeds and leaves the timer disarmed. *)
Theorem arm_timer_subsecond {K} `{L : TimerfdLaws K view} fd timeout k v :
  view k !! fd = Some v -> 0 <= timeout ->
  exists k', arm_timer fd timeout k = Ret k' /\
    view k' = <[fd := FdView (registered v) (if decide (timeout < 10 ^ 9) then Disarmed else Armed)]> (view k).
Proof.
  intros V Ht. destruct (duration_split timeout Ht) as (Hs & _). unfold arm_timer.
  destruct (law_settime fd (duration_sec timeout) 0 k v V Hs) as (k' & -> & Vk); [lia|].
  rewrite decide_False by done. exists k'. split; [done|]. rewrite Vk. do 2 f_equal.
  unfold duration_sec. rewrite Z.quot_div_nonneg by lia.
  destruct (decide (timeout < 10 ^ 9)) as [H1|H1].
  - rewrite decide_True; [done|]. by rewrite Z.div_small by lia.
  - rewrite decide_False; [done|]. intros [H2 _]. apply Z.div_small_iff in H2; lia.
Qed.

Section Vanilla.
Context {K} `{L : TimerfdLaws K view}.
Context (e : Z) (base : gmap Z fd_view).
Context (base_clear : forall fd v, base !! fd = Some v -> registered v !! e = None).

(** The timer [fd] is armed, with its context at [c]. *)
Definition vanilla_armed (fd : Z) (c : addr) (s : vanilla K) : Prop :=
  ctxs s !! c = Some fd /\ view (v_kern s) !! fd = Some (FdView (<[e := (EPOLLIN, c)]> ∅) Armed) /\
  delete fd (view (v_kern s)) = base.

Lemma vanilla_reactor_spec n fd c s :
  vanilla_armed fd c s ->
  (exists s', vanilla_reactor e n s = Ret s' /\ vanilla_armed fd c s' /\ printed s' = printed s ++ replicate n fired) \/
  exists code, vanilla_reactor e n s = Raise (SystemError code).
Proof.
  revert s. induction n as [|n IH]; intros s (Hc & V & A).
  - left. exists s. split; [done|]. split; [done|]. by rewrite app_nil_r.
  - cbn [vanilla_reactor].
    destruct (wait_only (view := view) e base base_clear (v_kern s) fd _ c V) as [(k' & -> & Vk)|(ev & ptr & k' & ->)];
      [split; [apply lookup_insert_eq|done]|done| |right; rewrite decide_True by done; by eexists].
    cbn [registered] in Vk.
    rewrite decide_False by done. rewrite decide_True by done. cbn [ctxs]. rewrite Hc. cbn [or_fault]. run_bind.
    unfold on_timer_expiration. cbn [v_kern ctxs printed].
    destruct (arm_timer_subsecond (view := view) fd (2 * 10 ^ 9) k' (FdView (<[e := (EPOLLIN, c)]> ∅) Expired))
      as (k2 & -> & Vk2); [rewrite Vk; apply lookup_insert_eq|lia|].
    run_bind. destruct (IH (Vanilla k2 (ctxs s) (printed s ++ [fired]))) as [(s' & E & Ha & Ho)|He]; [|left|by right].
    { split; [done|]. cbn [v_kern registered] in *. rewrite decide_False in Vk2 by lia. split.
      - rewrite Vk2. apply lookup_insert_eq.
      - by rewrite Vk2, Vk, insert_insert_eq, delete_insert_eq. }
    exists s'. split; [done|]. split; [done|]. rewrite Ho. cbn. by rewrite <- app_assoc.
Qed.
End Vanilla.

(** The program without coroutines does the same: a line per expiration, [n] of
    them, and all descriptors closed at the end, unless a system call fails. *)
Theorem vanilla_main_prints {K} `{L : TimerfdLaws K view} n c k :
  (exists s, vanilla_main n c k = Ret s /\ printed s = replicate n fired /\ view (v_kern s) = view k) \/
  exists code, vanilla_main n c k = Raise (SystemError code).
Proof.
  unfold vanilla_main. destruct (epoll_create1 k) as [e k1] eqn:E1. case_decide as He; [right; by eexists|].
  destruct (law_instance k e k1 E1) as [V1 Hk1]. destruct (Hk1 He) as [Hek Hclear].
  destruct (timerfd_create k1) as [fd k2] eqn:E2. pose proof (law_create k1 fd k2 E2) as V2.
  case_decide as Hfd; [right; by eexists|]. destruct V2 as [Hnew V2].
  destruct (epoll_ctl_add e fd EPOLLIN c k2) as [r k3] eqn:E3.
  pose proof (law_add e fd EPOLLIN c k2 r k3 (FdView ∅ Disarmed) E3) as V3. rewrite V2, lookup_insert_eq in V3.
  specialize (V3 eq_refl). case_decide as Hr; [right; by eexists|].
  destruct (arm_timer_subsecond (view := view) fd (2 * 10 ^ 9) k3 (FdView (<[e := (EPOLLIN, c)]> ∅) Disarmed))
    as (k4 & -> & V4); [rewrite V3; apply lookup_insert_eq|lia|]. run_bind. rewrite decide_False in V4 by lia.
  destruct (vanilla_reactor_spec e (view k) Hclear n fd c (Vanilla k4 {[ c := fd ]} [])) as [(s & E & (_ & _ & Hv) & Ho)|[code E]]; [|left|right; exists code; by rewrite E].
  { split; [apply lookup_singleton_eq|]. cbn [v_kern]. split; [rewrite V4; apply lookup_insert_eq|].
    rewrite V4, V3, !insert_insert_eq, delete_insert_eq, V1. apply delete_id. by rewrite <- V1. }
  rewrite E. run_bind. eexists. split; [done|]. split; [done|]. cbn [v_kern]. by rewrite !law_close, Hv, delete_id.
Qed.

(** ** A kernel

    The witnesses use a kernel that chooses unused numbers for descriptors and
    whose timers expire at once; when [full], nothing can be registered. A signal
    interrupts the wait after so many others. *)
Record demo_kernel := Signalled { signal : option nat; full : bool; fds : gmap Z fd_view }.
Definition Demo : bool -> gmap Z fd_view -> demo_kernel := Signalled None.

Definition demo_report (e : Z) (x : Z * fd_view) : option (Z * addr) :=
  match registered (snd x) !! e with
  | Some (ev, ptr) =>
    if decide (ev = EPOLLIN) then match state (snd x) with Disarmed => None | _ => Some (fst x, ptr) end else None
  | None => None
  end.

Definition demo_set (fd : Z) (f : fd_view -> fd_view) (k : demo_kernel) : Z * demo_kernel :=
  match fds k !! fd with
  | Some v => (0, Signalled (signal k) (full k) (<[fd := f v]> (fds k)))
  | None => (-1, k)
  end.

Definition demo_instances (k : demo_kernel) : gset Z :=
  union_list (map (fun x : Z * fd_view => dom (registered (snd x))) (map_to_list (fds k))).

#[export] Instance demo_timerfd : TimerfdKernel demo_kernel := {|
  epoll_create1 k := (fresh ({[ -1 ]} ∪ dom (fds k) ∪ demo_instances k : gset Z), k);
  timerfd_create k :=
    let fd := fresh ({[ -1 ]} ∪ dom (fds k) : gset Z) in (fd, Signalled (signal k) (full k) (<[fd := FdView ∅ Disarmed]> (fds k)));
  epoll_ctl_add e fd ev ptr k :=
    if full k then (-1, k) else demo_set fd (fun v => FdView (<[e := (ev, ptr)]> (registered v)) (state v)) k;
  epoll_ctl_del e fd k := demo_set fd (fun v => FdView (delete e (registered v)) (state v)) k;
  timerfd_settime fd s n k :=
    demo_set fd (fun v => FdView (registered v) (if decide (s = 0 /\ n = 0) then Disarmed else Armed)) k;
  epoll_wait e k :=
    if decide (signal k = Some 0%nat) then Some (-1, 0, 1%positive, Signalled None (full k) (fds k))
    else
      '(fd, ptr) ← head (omap (demo_report e) (map_to_list (fds k)));
      v ← fds k !! fd;
      Some (1, EPOLLIN, ptr, Signalled (pred <$> signal k) (full k) (<[fd := FdView (registered v) Expired]> (fds k)));
  close_fd fd k := Signalled (signal k) (full k) (delete fd (fds k));
  errno _ := 28;
|}.

Lemma demo_report_Some e fd v fd' ptr :
  demo_report e (fd, v) = Some (fd', ptr) <-> fd' = fd /\ reports v e ptr.
Proof.
  unfold demo_report, reports. cbn. destruct (registered v !! e) as [[ev p]|]; [|naive_solver].
  case_decide; [|naive_solver]. destruct (state v); naive_solver.
Qed.

Lemma demo_instances_spec k fd v e : fds k !! fd = Some v -> e ∉ demo_instances k -> registered v !! e = None.
Proof.
  intros Hv He. apply not_elem_of_dom. intros Hin. apply He. unfold demo_instances. apply elem_of_union_list.
  exists (dom (registered v)). split; [|done]. apply list_elem_of_fmap. exists (fd, v). split; [done|].
  by apply elem_of_map_to_list.
Qed.

#[export] Instance demo_laws : TimerfdLaws (K := demo_kernel) fds.
Proof.
  split; cbn; intros *.
  - intros [= <- <-]. set (e := fresh _). split; [done|]. intros _.
    pose proof (is_fresh ({[ -1 ]} ∪ dom (fds k) ∪ demo_instances k)) as Hf. fold e in Hf.
    split; [apply not_elem_of_dom; set_solver|]. intros fd v Hv. apply (demo_instances_spec k fd); [done|set_solver].
  - intros [= <- <-]. set (fd := fresh _). pose proof (is_fresh ({[ -1 ]} ∪ dom (fds k) : gset Z)) as Hf. fold fd in Hf.
    rewrite decide_False by set_solver. split; [apply not_elem_of_dom; set_solver|done].
  - unfold demo_set. intros E Hv. destruct (full k); [|rewrite Hv in E]; injection E as <- <-; by case_decide.
  - unfold demo_set. intros E Hv. rewrite Hv in E. by injection E as <- <-.
  - done.
  - intros Hv _ _. unfold demo_set. rewrite Hv. by eexists.
  - intros Hv. unfold demo_set. rewrite Hv. by eexists.
  - case_decide; [intros [= <-]; right; by eexists _, _, _|].
    destruct (head _) as [[fd ptr]|] eqn:Eh; [|done]. cbn. destruct (fds k !! fd) as [v|] eqn:Ev; [|done]. intros [= <-]. left.
    eexists _, _, fd, v. split; [done|]. split; [done|]. split; [|done].
    assert ((fd, ptr) ∈ omap (demo_report e) (map_to_list (fds k))) as Hin.
    { destruct (omap _ _); [done|]. injection Eh as ->. left. }
    apply list_elem_of_omap in Hin as [[fd' v'] [Hin [-> Hr]%demo_report_Some]].
    apply elem_of_map_to_list in Hin. congruence.
  - rename fd0 into y. intros Hv Hr. assert ((y, ptr) ∈ omap (demo_report e) (map_to_list (fds k))) as Hin.
    { apply list_elem_of_omap. exists (y, v). split; [by apply elem_of_map_to_list|]. by apply demo_report_Some. }
    destruct (omap _ _) as [|[fd' ptr'] l] eqn:El; [by apply not_elem_of_nil in Hin|].
    case_decide; [by eexists|]. cbn.
    assert ((fd', ptr') ∈ omap (demo_report e) (map_to_list (fds k))) as Hin' by (rewrite El; left).
    apply list_elem_of_omap in Hin' as [[fd2 v2] [Hin2 [-> _]%demo_report_Some]].
    apply elem_of_map_to_list in Hin2. rewrite Hin2. by eexists.
Qed.

(** ** Witnesses *)

Example awaitable_main_runs :
  match awaitable_main 3 1%positive (Demo false ∅) with Ret s => out s = [fired; fired; fired] | _ => False end.
Proof. vm_compute. reflexivity. Qed.

(** When no timer can be registered the program waits for ever. *)
Example awaitable_main_waits : awaitable_main 3 1%positive (Demo true ∅) = Diverged.
Proof. vm_compute. reflexivity. Qed.


Lemma no_timers e fd v : (∅ : gmap Z fd_view) !! fd = Some v -> registered v !! e = None.
Proof. by rewrite lookup_empty. Qed.

(** A timer at address 1, registered with the instance 7. *)
Definition demo_timer (timeout : Z) : world demo_kernel :=
  snd (construct 1%positive 7 timeout (World (Demo false ∅) ∅)).

Lemma zero_timeout_never_fires_witness :
  construct 1%positive 7 0 (World (Demo false ∅) ∅) = (Ret tt, demo_timer 0) /\
  run_timer 7 3 1%positive (Ret tt) (demo_timer 0) = Diverged.
Proof.
  split; [by vm_compute|].
  destruct (zero_timeout_never_fires (view := fds) 2 7 1%positive (Demo false ∅) (demo_timer 0)) as (w & _ & [E|(x & E & _)]).
  - apply no_timers.
  - by vm_compute.
  - exact E.
  - by vm_compute in E.
Defined.

Lemma failed_construct_leaks_witness :
  exists w, construct 1%positive 7 (10 ^ 9) (World (Demo true ∅) ∅) = (Raise (SystemError 28), w) /\
    fds (kern w) = {[ 0 := FdView ∅ Disarmed ]} /\ timers w = ∅.
Proof.
  eexists. split; [by vm_compute|].
  destruct (failed_construct_leaks (view := fds) 1%positive 7 (10 ^ 9) (World (Demo true ∅) ∅)
    (World (Demo true {[ 0 := FdView ∅ Disarmed ]}) ∅) (SystemError 28) 0 (Demo true {[ 0 := FdView ∅ Disarmed ]}))
    as (Hv & _ & Ht); [by vm_compute|done|by vm_compute|]. by split.
Defined.

Lemma moved_timer_faults_witness :
  exists w1 w2 w3, move 2%positive 1%positive (demo_timer (2 * 10 ^ 9)) = Ret w1 /\
    awaiter_suspend 2%positive 9%positive w1 = Ret (true, w2) /\ reactor_turn 7 w2 = Fault NullDeref /\
    destructor 2%positive w2 = Fault Uninitialised /\ destructor 1%positive w2 = Ret w3 /\ reactor_turn 7 w3 = Fault Dangling.
Proof.
  destruct (moved_timer_faults (view := fds) 7 ∅ 1%positive 2%positive 9%positive (Timer (Some 7) 0 2 0 null)
    (FdView {[ 7 := (EPOLLIN, 1%positive) ]} Disarmed) (demo_timer (2 * 10 ^ 9))) as (w1 & w2 & w3 & E1 & E2 & E3 & E4 & Hw).
  - apply no_timers.
  - split; try (by vm_compute); cbn; lia.
  - intros [Hs _]. done.
  - done.
  - done.
  - vm_compute in E1. injection E1 as <-. vm_compute in E2. injection E2 as <-. vm_compute in E4. injection E4 as <-.
    eexists _, _, _. split; [vm_compute; reflexivity|]. split; [vm_compute; reflexivity|].
    destruct Hw as [[H1 H2]|(x & (ev & ptr & k' & E & _) & _)]; [|vm_compute in E; discriminate E].
    split; [exact H1|]. split; [exact E3|]. split; [vm_compute; reflexivity|exact H2].
Defined.

Lemma arm_timer_subsecond_witness :
  exists k', arm_timer 0 500000000 (kern (demo_timer 0)) = Ret k' /\
    fds k' !! 0 = Some (FdView {[ 7 := (EPOLLIN, 1%positive) ]} Disarmed).
Proof.
  destruct (arm_timer_subsecond (view := fds) 0 500000000 (kern (demo_timer 0))
    (FdView {[ 7 := (EPOLLIN, 1%positive) ]} Disarmed)) as (k' & E & Hk); [by vm_compute|lia|].
  exists k'. split; [done|]. by rewrite Hk, lookup_insert_eq.
Defined.

Lemma vanilla_main_prints_witness :
  exists s, vanilla_main 3 1%positive (Demo false ∅) = Ret s /\ printed s = replicate 3 fired /\ fds (v_kern s) = ∅.
Proof.
  destruct (vanilla_main_prints (view := fds) 3 1%positive (Demo false ∅)) as [Hs|[code E]]; [done|by vm_compute in E].
Defined.
End NixTimer.
