(* ===== verification/KqueueTimer.v ===== *)
(** * KqueueTimer: applications/timers/osx-kqueue/

    [awaitable_timer.hpp] with its driver [awaitable.cpp], and [vanilla.cpp],
    the same without coroutines. The system calls are the class [KqueueKernel];
    [KqueueLaws] is what the manual page of [kevent] promises for EVFILT_TIMER,
    stated over a view of the kernel: the events registered, by queue and
    identifier. *)

From S2P Require Import Prelude TimerLoop.
Local Open Scope Z_scope.

Module KqueueTimer.
Import TimerLoop.

(** ** The system calls *)

Definition EV_ADD : Z := 0x1.
Definition EV_DELETE : Z := 0x2.
Definition EV_DISABLE : Z := 0x8.
Definition EV_ONESHOT : Z := 0x10.

(** A change has the queue, identifier, flags, data (the period in
    microseconds) and user data; waiting for one event without a timeout returns,
    beside the result, its identifier and user data, or blocks for ever. *)
Class KqueueKernel (K : Type) := {
  kqueue : K -> Z * K;
  kevent_change : Z -> Z -> Z -> Z -> ptr -> K -> Z * K;
  kevent_wait : Z -> K -> option (Z * Z * ptr * K);
  close_fd : Z -> K -> K;
  errno : K -> Z;
}.

Record knote := Knote { oneshot : bool; udata : ptr }.

(** Adding an event that is registered already replaces it; a one-shot event is
    gone once it has been returned. A kernel that is [exhausted] has no memory
    for events, for as long as the program runs. The laws are those of a process
    that no signal is delivered to while it waits: a wait has no other reason to
    fail. *)
Class KqueueLaws {K} `{KqueueKernel K} (view : K -> gmap (Z * Z) knote) (exhausted : K -> Prop) := {
  law_kqueue k e k' : kqueue k = (e, k') ->
    view k' = view k /\ (exhausted k' <-> exhausted k) /\ (e <> -1 -> forall ident, view k !! (e, ident) = None);
  law_add e ident flags us p k : Z.land flags EV_DELETE = 0 -> Z.land flags EV_ADD <> 0 -> ~ exhausted k ->
    exists k', kevent_change e ident flags us p k = (0, k') /\ ~ exhausted k' /\
      view k' = <[(e, ident) := Knote (bool_decide (Z.land flags EV_ONESHOT <> 0)) p]> (view k);
  law_add_refused e ident flags us p k : Z.land flags EV_DELETE = 0 -> Z.land flags EV_ADD <> 0 -> exhausted k ->
    exists k', kevent_change e ident flags us p k = (-1, k') /\ exhausted k' /\ view k' = view k;
  law_delete e ident flags us p k : Z.land flags EV_DELETE <> 0 -> is_Some (view k !! (e, ident)) ->
    exists k', kevent_change e ident flags us p k = (0, k') /\ view k' = delete (e, ident) (view k);
  law_wait e k r : kevent_wait e k = Some r -> exists ident kn k', r = (1, ident, udata kn, k') /\
    view k !! (e, ident) = Some kn /\ (exhausted k' <-> exhausted k) /\
    view k' = (if oneshot kn then delete (e, ident) (view k) else view k);
  law_wait_returns e k ident : is_Some (view k !! (e, ident)) -> is_Some (kevent_wait e k);
  law_close e k : (forall ident, view k !! (e, ident) = None) -> view (close_fd e k) = view k;
}.

Section Program.
Context {K} `{KqueueKernel K}.

(** ** awaitable_timer.hpp *)

(** The address of [async_ctx] is that of the object. *)
Record awaitable_timer := Timer {
  ioc : Z;
  ident : Z;
  timeout : Z;
  awaiting_coro : ptr;
}.

Record world := World { kern : K; timers : gmap addr awaitable_timer }.

(** [duration_cast<microseconds>] of a duration in nanoseconds *)
Definition microseconds (timeout_ : Z) : Z := Z.quot timeout_ 1000.

(** The constructor, for an object at [t]; it cannot fail. *)
Definition construct (t : addr) (ioc_ ident_ timeout_ : Z) (w : world) : world :=
  World (kern w) (<[t := Timer ioc_ ident_ (microseconds timeout_) null]> (timers w)).

(** The implicit destructor *)
Definition destructor (t : addr) (w : world) : outcome world :=
  _ ← or_fault Dangling (timers w !! t); Ret (World (kern w) (delete t (timers w))).

Definition arm_timer (t : addr) (w : world) : outcome (bool * world) :=
  o ← or_fault Dangling (timers w !! t);
  let '(result, k) := kevent_change (ioc o) (ident o) (Z.lor EV_ADD EV_ONESHOT) (timeout o) (Some t) (kern w) in
  Ret (bool_decide (result <> -1), World k (timers w)).

(** The awaiter's [await_suspend]; [await_ready] is false. *)
Definition awaiter_suspend (t c : addr) (w : world) : outcome (bool * world) :=
  o ← or_fault Dangling (timers w !! t);
  arm_timer t (World (kern w) (<[t := Timer (ioc o) (ident o) (timeout o) (Some c)]> (timers w))).

(** [on_timer_expiration(ctx)]: the handle that is resumed. *)
Definition on_timer_expiration (ctx : ptr) (w : world) : outcome addr :=
  o ← deref (timers w) ctx;
  or_fault NullDeref (awaiting_coro o).

(** ** awaitable.cpp *)

(** One wait of the reactor; an error is thrown here and caught below. *)
Definition reactor_turn (e : Z) (w : world) : outcome (option addr * world) :=
  match kevent_wait e (kern w) with
  | None => Diverged
  | Some (n_events, _, p, k) =>
    if decide (n_events = -1) then Raise (SystemError (errno k))
    else h ← on_timer_expiration p (World k (timers w)); Ret (Some h, World k (timers w))
  end.

#[local] Instance backend (e : Z) : TimerBackend world := {|
  await_suspend := awaiter_suspend;
  next_expiration := reactor_turn e;
  finish := destructor;
|}.

(** [reactor(ioc, n_reps)]: an error of [kevent] ends the loop. *)
Fixpoint kqueue_reactor (e : Z) (n_reps : nat) (s : sys (W := world)) : outcome sys :=
  match n_reps with
  | O => Ret s
  | S n =>
    match next_expiration (TimerBackend := backend e) (TimerLoop.world s) with
    | Raise _ => Ret (puts "[-] kevent() error" s)
    | Ret (h, w) =>
      let s := Sys w (coros s) (out s) in
      s ← (match h with Some c => resume (H := backend e) c s | None => Ret s end);
      kqueue_reactor e n s
    | Fault f => Fault f
    | Diverged => Diverged
    end
  end.

(** The call of [waiter(ioc, n_reps)], with [two_seconds] at [t], and
    [reactor(ioc, n_reps)]. *)
Definition run_timer (e ident : Z) (n_reps : nat) (t : addr) (k : K) : outcome (sys (W := world)) :=
  let w := construct t e ident (3 * 10 ^ 9) (World k ∅) in
  '(_, s) ← waiter (H := backend e) n_reps t (Ret tt) (Sys w ∅ []);
  kqueue_reactor e n_reps s.

Definition awaitable_main (n_reps : nat) (t : addr) (k : K) : outcome (sys (W := world)) :=
  let '(e, k) := kqueue k in
  if decide (e = -1) then Raise (SystemError (errno k))
  else
    s ← run_timer e 0 n_reps t k;
    Ret (Sys (World (close_fd e (kern (TimerLoop.world s))) (timers (TimerLoop.world s))) (coros s) (out s)).

(** ** vanilla.cpp *)

Definition register_timer (instance ident timeout : Z) (k : K) : outcome K :=
  let '(result, k) := kevent_change instance ident EV_ADD (microseconds timeout) null k in
  if decide (result = -1) then Raise (SystemError (errno k)) else Ret k.

Definition unregister_timer (instance ident : Z) (k : K) : outcome K :=
  let '(result, k) := kevent_change instance ident (Z.lor EV_DISABLE EV_DELETE) 0 null k in
  if decide (result = -1) then Raise (SystemError (errno k)) else Ret k.

Fixpoint vanilla_reactor (instance ident : Z) (n_reps : nat) (k : K) : outcome (list string * K) :=
  match n_reps with
  | O => Ret ([], k)
  | S n =>
    match kevent_wait instance k with
    | None => Diverged
    | Some (n_events, ev_ident, _, k) =>
      if decide (n_events = -1) then Ret (["[-] kevent() error"], k)
      else
        '(l, k) ← vanilla_reactor instance ident n k;
        Ret ((if decide (ident = ev_ident) then [fired] else []) ++ l, k)
    end
  end.

(** [main]; what it prints, and the kernel at the end *)
Definition vanilla_main (n_reps : nat) (k : K) : outcome (list string * K) :=
  let '(instance, k) := kqueue k in
  if decide (instance = -1) then Raise (SystemError (errno k))
  else
    let ident := 0 in
    k ← register_timer instance ident (3 * 10 ^ 9) k;
    '(l, k) ← vanilla_reactor instance ident n_reps k;
    k ← unregister_timer instance ident k;
    Ret (l, close_fd instance k).
End Program.
Arguments world : clear implicits.

(** ** Theorems *)

Section Kqueue.
Context {K} `{L : KqueueLaws K view exhausted}.
Implicit Types w : world K.

(** The queue, and what is registered with others. *)
Context (e : Z) (base : gmap (Z * Z) knote).
Context (base_clear : forall ident, base !! (e, ident) = None).

Definition idle w t : Prop :=
  exists o, timers w !! t = Some o /\ ioc o = e /\ view (kern w) = base /\ ~ exhausted (kern w).
Definition pending w t c : Prop :=
  exists o, timers w !! t = Some o /\ ioc o = e /\ awaiting_coro o = Some c /\
    view (kern w) = <[(e, ident o) := Knote true (Some t)]> base /\ ~ exhausted (kern w).
Definition closed w t : Prop := timers w !! t = None /\ view (kern w) = base.
Definition refuses w t : Prop := is_Some (timers w !! t) /\ exhausted (kern w) /\ view (kern w) = base.

Lemma kqueue_awaiter_suspend_spec w t c o :
  timers w !! t = Some o -> ~ exhausted (kern w) ->
  exists w', awaiter_suspend t c w = Ret (true, w') /\ ~ exhausted (kern w') /\
    timers w' = <[t := Timer (ioc o) (ident o) (timeout o) (Some c)]> (timers w) /\
    view (kern w') = <[(ioc o, ident o) := Knote true (Some t)]> (view (kern w)).
Proof.
  intros T X. unfold awaiter_suspend. rewrite T. cbn [or_fault]. run_bind. unfold arm_timer. cbn [timers kern].
  rewrite lookup_insert_eq. cbn [or_fault]. run_bind. cbn [ioc ident timeout].
  destruct (law_add (ioc o) (ident o) (Z.lor EV_ADD EV_ONESHOT) (timeout o) (Some t) (kern w)) as (k' & -> & X' & V);
    [done|done|done|]. by eexists.
Qed.

(** Waiting while the only event of the queue is one-shot. *)
Lemma kevent_wait_only k i p :
  view k = <[(e, i) := Knote true p]> base -> ~ exhausted k ->
  exists k', kevent_wait e k = Some (1, i, p, k') /\ view k' = base /\ ~ exhausted k'.
Proof.
  intros V X. destruct (law_wait_returns e k i) as [r Er]; [rewrite V, lookup_insert_eq; by eexists|].
  destruct (law_wait e k r Er) as (i' & kn & k' & -> & V1 & X1 & V2).
  assert (i' = i) as ->.
  { destruct (decide (i' = i)) as [|Hne]; [done|]. rewrite V, lookup_insert_ne, base_clear in V1; [done|naive_solver]. }
  rewrite V, lookup_insert_eq in V1. injection V1 as <-. exists k'. split; [done|]. cbn [oneshot] in V2. split; [|tauto].
  by rewrite V2, V, delete_insert_id.
Qed.

Lemma kevent_wait_hangs k : view k = base -> kevent_wait e k = None.
Proof.
  intros V. destruct (kevent_wait e k) as [r|] eqn:E; [|done].
  destruct (law_wait e k r E) as (i & kn & k' & _ & V1 & _). by rewrite V, base_clear in V1.
Qed.

Global Instance kqueue_laws : TimerLaws (H := backend e) idle pending closed (fun _ _ => False).
Proof.
  split.
  - intros w t c (o & T & E & V & X). destruct (kqueue_awaiter_suspend_spec w t c o T X) as (w' & Es & X' & T' & V').
    exists w'. split; [done|]. eexists. rewrite T', lookup_insert_eq. split; [done|]. split; [done|]. split; [done|].
    split; [|done]. cbn [ident]. by rewrite V', E, V.
  - intros w t c (o & T & E & Hc & V & X). destruct (kevent_wait_only _ _ _ V X) as (k' & Ew & V' & X').
    left. exists (World k' (timers w)). split; [|by exists o]. cbn [next_expiration backend]. unfold reactor_turn. rewrite Ew.
    rewrite decide_False by done. unfold on_timer_expiration. cbn [timers deref]. rewrite T. cbn [or_fault]. run_bind.
    by rewrite Hc.
  - intros w t (o & T & E & V & X). cbn [finish backend]. unfold destructor. rewrite T. cbn [or_fault]. run_bind.
    eexists. split; [done|]. split; [apply lookup_delete_eq|done].
Qed.

(** As long as [kevent] does not fail, the reactor is that of [TimerLoop]. *)
Lemma kqueue_reactor_eq n s : kqueue_reactor e n s = reactor (H := backend e) n s.
Proof.
  revert s. induction n as [|n IH]; intros s; [done|]. cbn [kqueue_reactor reactor]. unfold turn.
  cbn [next_expiration backend]. unfold reactor_turn. destruct (kevent_wait e (kern (TimerLoop.world s))) as [r|] eqn:E; [|done].
  destruct (law_wait e _ r E) as (i & kn & k' & -> & _). rewrite decide_False by done.
  destruct (on_timer_expiration _ _) as [h|x|f|] eqn:Eh; cbn; try done.
  - destruct (resume h _); cbn; by rewrite ?IH.
  - exfalso. revert Eh. unfold on_timer_expiration. destruct (udata kn); cbn; [|done].
    destruct (timers _ !! _); cbn; [|done]. by destruct (awaiting_coro _).
Qed.

(** An [exhausted] kernel refuses the timer, and [await_suspend] returns
    false. *)
Lemma exhausted_refuses w t c :
  refuses w t -> exists w', awaiter_suspend t c w = Ret (false, w') /\ refuses w' t.
Proof.
  intros [[o T] [X V]]. unfold awaiter_suspend. rewrite T. cbn [or_fault]. run_bind. unfold arm_timer. cbn [timers kern].
  rewrite lookup_insert_eq. cbn [or_fault]. run_bind.
  match goal with |- context [kevent_change ?a ?b ?f ?d ?p ?k] => destruct (law_add_refused a b f d p k) as (k' & -> & X' & V') end;
    [done|done|done|].
  eexists. split; [done|]. split; [cbn; rewrite lookup_insert_eq; by eexists|]. split; [done|]. cbn. congruence.
Qed.
End Kqueue.

(** The program prints its line [n] times, once per expiration, and leaves
    nothing registered; unless the queue cannot be created. *)
Theorem kqueue_main_prints {K} `{L : KqueueLaws K view exhausted} n t k :
  ~ exhausted k ->
  (exists s, awaitable_main n t k = Ret s /\ out s = replicate n fired /\
     view (kern (TimerLoop.world s)) = view k /\ timers (TimerLoop.world s) !! t = None) \/
  exists k1, kqueue k = (-1, k1) /\ awaitable_main n t k = Raise (SystemError (errno k1)).
Proof.
  intros X. unfold awaitable_main. destruct (kqueue k) as [e k1] eqn:E.
  destruct (law_kqueue k e k1 E) as (V & X1 & Hclear). case_decide as He; [subst e; right; by exists k1|left].
  specialize (Hclear He). unfold run_timer. cbn [waiter].
  destruct (program_spec (H := backend e) (L := kqueue_laws e (view k) Hclear) n t
    (Sys (construct t e 0 (3 * 10 ^ 9) (World k1 ∅)) ∅ [])) as (c & s1 & E1 & _ & [(s & Es & [[Ht Hv] _] & Ho)|(x & j & s & _ & _ & _ & _ & _ & _ & [])]).
  { eexists. split; [apply lookup_insert_eq|]. split; [done|]. split; [done|]. tauto. }
  rewrite E1. run_bind. rewrite kqueue_reactor_eq, Es by done. run_bind.
  eexists. split; [done|]. split; [done|]. split; [|done]. cbn [TimerLoop.world kern].
  rewrite law_close; [done|]. by rewrite Hv.
Qed.

(** When the kernel has no room for the timer, the [false] of [await_suspend]
    is not an error but "do not suspend": the coroutine prints all its lines at
    once, without waiting, and then the reactor waits for ever. *)
Theorem exhausted_kqueue_prints_at_once {K} `{L : KqueueLaws K view exhausted} n e t k :
  exhausted k -> (forall ident, view k !! (e, ident) = None) ->
  exists c s, waiter (H := backend e) n t (Ret tt) (Sys (construct t e 0 (3 * 10 ^ 9) (World k ∅)) ∅ []) = Ret (c, s) /\
    out s = replicate n fired /\ coros s !! c = Some (Frame t AtFinal) /\
    (0 < n -> run_timer e 0 n t k = Diverged)%nat.
Proof.
  intros X Hclear. set (w := construct t e 0 (3 * 10 ^ 9) (World k ∅)). unfold waiter, start. cbn [coros TimerLoop.world out].
  set (c := fresh _).
  destruct (loop_refused (H := backend e) (refuses (view := view) (exhausted := exhausted) (view k)) (fun w => view (kern w) = view k))
    with (k := n) (c := c) (t := t) (p := Running) (w := w) (cs := <[c := Frame t Running]> (∅ : gmap addr frame)) (o := @nil string)
    as (s & E & Ho & Hc & Hv).
  - intros w0 t0 c0. by apply exhausted_refuses.
  - intros w0 t0 [[o T] [_ V]]. cbn [finish backend]. unfold destructor. rewrite T. cbn [or_fault]. run_bind. by eexists.
  - split; [|by split]. unfold w, construct. cbn. rewrite lookup_insert_eq. by eexists.
  - apply lookup_insert_eq.
  - exists c, s. rewrite E. run_bind. split; [done|]. split; [done|]. split; [done|]. intros Hn.
    unfold run_timer, waiter, start. cbn [coros TimerLoop.world out]. fold c w. rewrite E. run_bind.
    destruct n as [|n]; [lia|]. cbn [kqueue_reactor next_expiration backend]. unfold reactor_turn.
    by rewrite (kevent_wait_hangs e (view k) Hclear).
Qed.

(** The identifier is chosen by the caller, and the second timer with the same
    identifier on a queue takes the place of the first: of two coroutines that
    await them only the second is ever resumed. *)
Theorem same_ident_replaces {K} `{L : KqueueLaws K view exhausted} a b ca cb oa ob w :
  timers w !! a = Some oa -> timers w !! b = Some ob -> a <> b ->
  ioc oa = ioc ob -> ident oa = ident ob -> ~ exhausted (kern w) ->
  (forall ident, view (kern w) !! (ioc oa, ident) = None) ->
  exists w1 w2 w3, awaiter_suspend a ca w = Ret (true, w1) /\ awaiter_suspend b cb w1 = Ret (true, w2) /\
    reactor_turn (ioc oa) w2 = Ret (Some cb, w3) /\ reactor_turn (ioc oa) w3 = Diverged.
Proof.
  intros Ta Tb Hab Ei Ed X Hclear.
  destruct (kqueue_awaiter_suspend_spec w a ca oa Ta X) as (w1 & E1 & X1 & T1 & V1).
  assert (timers w1 !! b = Some ob) as Tb1 by by rewrite T1, lookup_insert_ne.
  destruct (kqueue_awaiter_suspend_spec w1 b cb ob Tb1 X1) as (w2 & E2 & X2 & T2 & V2).
  rewrite V1, <- Ei, <- Ed, insert_insert_eq in V2.
  destruct (kevent_wait_only (ioc oa) (view (kern w)) Hclear _ _ _ V2 X2) as (k3 & Ew & V3 & X3).
  exists w1, w2, (World k3 (timers w2)). split; [done|]. split; [done|]. unfold reactor_turn. cbn [kern].
  rewrite Ew, (kevent_wait_hangs _ _ Hclear k3 V3). split; [|done]. rewrite decide_False by done.
  unfold on_timer_expiration. cbn [timers deref]. rewrite T2, lookup_insert_eq. done.
Qed.

(** The destructor does not withdraw the event: when a coroutine is destroyed
    while it awaits its timer, the reactor reads the dead timer. *)
Theorem abandoned_timer_dangles {K} `{L : KqueueLaws K view exhausted} t c o w :
  timers w !! t = Some o -> ~ exhausted (kern w) -> (forall ident, view (kern w) !! (ioc o, ident) = None) ->
  exists w1 w2, awaiter_suspend t c w = Ret (true, w1) /\ destructor t w1 = Ret w2 /\
    reactor_turn (ioc o) w2 = Fault Dangling.
Proof.
  intros T X Hclear. destruct (kqueue_awaiter_suspend_spec w t c o T X) as (w1 & E1 & X1 & T1 & V1).
  destruct (kevent_wait_only (ioc o) (view (kern w)) Hclear _ _ _ V1 X1) as (k2 & Ew & _).
  exists w1, (World (kern w1) (delete t (timers w1))). split; [done|]. unfold destructor.
  rewrite T1, lookup_insert_eq. cbn [or_fault]. run_bind. split; [done|]. unfold reactor_turn. cbn [kern timers].
  rewrite Ew, decide_False by done. unfold on_timer_expiration. cbn [timers deref]. by rewrite lookup_delete_eq.
Qed.

(** *** Without coroutines *)

Lemma kqueue_vanilla_reactor_spec {K} `{L : KqueueLaws K view exhausted} e i n base k :
  (forall ident, base !! (e, ident) = None) -> view k = <[(e, i) := Knote false null]> base ->
  exists k', vanilla_reactor e i n k = Ret (replicate n fired, k') /\ view k' = <[(e, i) := Knote false null]> base.
Proof.
  intros Hb. revert k. induction n as [|n IH]; intros k V; [by exists k|]. cbn [vanilla_reactor].
  destruct (law_wait_returns e k i) as [r Er]; [rewrite V, lookup_insert_eq; by eexists|]. rewrite Er.
  destruct (law_wait e k r Er) as (i' & kn & k1 & -> & V1 & _ & V2). rewrite decide_False by done.
  assert (i' = i) as ->.
  { destruct (decide (i' = i)) as [|Hne]; [done|]. rewrite V, lookup_insert_ne, Hb in V1; [done|naive_solver]. }
  rewrite V, lookup_insert_eq in V1. injection V1 as <-. cbn [oneshot] in V2.
  destruct (IH k1) as (k' & E & V'); [congruence|]. rewrite E. run_bind. exists k'. split; [|done].
  by rewrite decide_True.
Qed.

(** The program on the bare API: the periodic timer prints the same lines and
    is unregistered at the end. *)
Theorem kqueue_vanilla_prints {K} `{L : KqueueLaws K view exhausted} n k :
  ~ exhausted k ->
  (exists k', vanilla_main n k = Ret (replicate n fired, k') /\ view k' = view k) \/
  exists k1, kqueue k = (-1, k1) /\ vanilla_main n k = Raise (SystemError (errno k1)).
Proof.
  intros X. unfold vanilla_main. destruct (kqueue k) as [e k1] eqn:E.
  destruct (law_kqueue k e k1 E) as (V & X1 & Hclear). case_decide as He; [subst e; right; by exists k1|left].
  specialize (Hclear He). unfold register_timer.
  destruct (law_add e 0 EV_ADD (microseconds (3 * 10 ^ 9)) null k1) as (k2 & -> & _ & V2); [done|done|tauto|].
  rewrite decide_False by done. run_bind. rewrite V in V2.
  destruct (kqueue_vanilla_reactor_spec e 0 n (view k) k2 Hclear V2) as (k3 & -> & V3). run_bind. unfold unregister_timer.
  destruct (law_delete e 0 (Z.lor EV_DISABLE EV_DELETE) 0 null k3) as (k4 & -> & V4);
    [done|rewrite V3, lookup_insert_eq; by eexists|].
  rewrite decide_False by done. run_bind. rewrite V3, delete_insert_id in V4 by apply Hclear.
  eexists. split; [done|]. rewrite law_close; [done|]. by rewrite V4.
Qed.

(** ** A kernel *)

(** A queue gets a number that no event is registered with. *)
Record demo_kernel := Demo { full : bool; knotes : gmap (Z * Z) knote }.

Definition demo_report (e : Z) (x : Z * Z * knote) : option (Z * knote) :=
  if decide (fst (fst x) = e) then Some (snd (fst x), snd x) else None.

Definition demo_find (e : Z) (k : demo_kernel) : option (Z * knote) :=
  head (omap (demo_report e) (map_to_list (knotes k))).

#[export] Instance demo_kqueue : KqueueKernel demo_kernel := {|
  kqueue k := (fresh ({[ -1 ]} ∪ set_map fst (dom (knotes k)) : gset Z), k);
  kevent_change e ident flags us p k :=
    if decide (Z.land flags EV_DELETE <> 0) then
      match knotes k !! (e, ident) with
      | Some _ => (0, Demo (full k) (delete (e, ident) (knotes k)))
      | None => (-1, k)
      end
    else if full k then (-1, k)
    else (0, Demo (full k) (<[(e, ident) := Knote (bool_decide (Z.land flags EV_ONESHOT <> 0)) p]> (knotes k)));
  kevent_wait e k :=
    '(ident, kn) ← demo_find e k;
    Some (1, ident, udata kn, if oneshot kn then Demo (full k) (delete (e, ident) (knotes k)) else k);
  close_fd _ k := k;
  errno _ := 24;
|}.

Lemma demo_find_Some e k i kn : demo_find e k = Some (i, kn) -> knotes k !! (e, i) = Some kn.
Proof.
  unfold demo_find. intros E. assert ((i, kn) ∈ omap (demo_report e) (map_to_list (knotes k))) as Hin.
  { destruct (omap _ _); [done|]. injection E as ->. left. }
  apply list_elem_of_omap in Hin as [[[e' i'] kn'] [Hin Hr]]. unfold demo_report in Hr. cbn in Hr. case_decide; [|done].
  simplify_eq. by apply elem_of_map_to_list in Hin.
Qed.

Lemma demo_find_is_Some e k i : is_Some (knotes k !! (e, i)) -> is_Some (demo_find e k).
Proof.
  intros [kn E]. unfold demo_find. assert ((i, kn) ∈ omap (demo_report e) (map_to_list (knotes k))) as Hin.
  { apply list_elem_of_omap. exists (e, i, kn). split; [by apply elem_of_map_to_list|]. unfold demo_report. cbn.
    by rewrite decide_True. }
  destruct (omap _ _); [by apply not_elem_of_nil in Hin|by eexists].
Qed.

#[export] Instance demo_laws : KqueueLaws (K := demo_kernel) knotes (fun k => full k = true).
Proof.
  split; cbn.
  - intros k e k' [= <- <-]. set (e := fresh _). split; [done|]. split; [done|]. intros _ i.
    pose proof (is_fresh ({[ -1 ]} ∪ set_map fst (dom (knotes k)) : gset Z)) as Hf. fold e in Hf.
    apply (not_elem_of_dom (D := gset (Z * Z))). intros Hi. apply Hf, elem_of_union_r, elem_of_map. by exists (e, i).
  - intros e i flags us p k H1 H2 H3. rewrite decide_False by (intros Hf; congruence). destruct (full k) eqn:E; [congruence|].
    eexists. split; [done|]. split; [by cbn; congruence|done].
  - intros e i flags us p k H1 H2 H3. rewrite decide_False by (intros Hf; congruence). rewrite H3. by eexists.
  - intros e i flags us p k H1 [kn E]. rewrite decide_True, E by done. by eexists.
  - intros e k r. destruct (demo_find e k) as [[i kn]|] eqn:E; [|done]. intros [= <-]. eexists i, kn, _. split; [done|].
    split; [by apply demo_find_Some|]. by destruct (oneshot kn).
  - intros e k i [[j kn] ->]%demo_find_is_Some. by eexists.
  - done.
Qed.

(** ** Witnesses *)

Example kqueue_main_runs :
  match awaitable_main 3 1%positive (Demo false ∅) with Ret s => out s = [fired; fired; fired] | _ => False end.
Proof. vm_compute. reflexivity. Qed.

Lemma kqueue_main_prints_witness :
  exists s, awaitable_main 3 1%positive (Demo false ∅) = Ret s /\ out s = replicate 3 fired /\ knotes (kern (TimerLoop.world s)) = ∅.
Proof.
  destruct (kqueue_main_prints (view := knotes) 3 1%positive (Demo false ∅)) as [(s & E & Ho & Hv & _)|(k1 & E & _)];
    [done| |by vm_compute in E].
  exists s. split; [exact E|]. split; [exact Ho|exact Hv].
Defined.

Lemma exhausted_kqueue_prints_at_once_witness : run_timer 7 0 3 1%positive (Demo true ∅) = Diverged.
Proof.
  destruct (exhausted_kqueue_prints_at_once (view := knotes) 3 7 1%positive (Demo true ∅)) as (c & s & _ & _ & _ & H);
    [done|intros i; apply lookup_empty|]. apply H. lia.
Defined.

(** Two timers of the queue 7 with the identifier 0. *)
Definition demo_pair : world demo_kernel :=
  World (Demo false ∅) {[ 1%positive := Timer 7 0 100 null; 2%positive := Timer 7 0 200 null ]}.

Lemma same_ident_replaces_witness :
  exists w1 w2 w3, awaiter_suspend 1%positive 8%positive demo_pair = Ret (true, w1) /\
    awaiter_suspend 2%positive 9%positive w1 = Ret (true, w2) /\
    reactor_turn 7 w2 = Ret (Some 9%positive, w3) /\ reactor_turn 7 w3 = Diverged.
Proof.
  apply (same_ident_replaces (view := knotes) 1%positive 2%positive 8%positive 9%positive (Timer 7 0 100 null) (Timer 7 0 200 null) demo_pair);
    done.
Defined.

Lemma abandoned_timer_dangles_witness :
  exists w1 w2, awaiter_suspend 1%positive 8%positive demo_pair = Ret (true, w1) /\ destructor 1%positive w1 = Ret w2 /\
    reactor_turn 7 w2 = Fault Dangling.
Proof.
  apply (abandoned_timer_dangles (view := knotes) 1%positive 8%positive (Timer 7 0 100 null) demo_pair); done.
Defined.

Lemma kqueue_vanilla_prints_witness :
  exists k, vanilla_main 3 (Demo false ∅) = Ret (replicate 3 fired, k) /\ knotes k = ∅.
Proof.
  destruct (kqueue_vanilla_prints (view := knotes) 3 (Demo false ∅)) as [H|(k1 & E & _)];
    [done|exact H|by vm_compute in E].
Defined.
End KqueueTimer.
