(* ===== verification/PoolTimer.v ===== *)
(** * PoolTimer: applications/timers/win-pool/

    [io_context.hpp] (a thread pool with a shutdown event),
    [awaitable_timer.hpp] with its driver [awaitable.cpp], and [vanilla.cpp].
    The pool has one thread, so callbacks run one after the other; the model
    runs them while [main] waits for the event. The system calls are the class
    [PoolKernel]; [PoolLaws] is what their documentation promises of timers and
    events.

    Here a callback runs to its end before [main] goes on. In the program [main]
    can wake as soon as the event is set, while the callback that has set it is
    still destroying its timer: PoolRace takes these operations for the steps of
    two threads. *)

From S2P Require Import Prelude TimerLoop.
Local Open Scope Z_scope.

Module PoolTimer.
Import TimerLoop.

(** ** timeout_to_filetime *)

Record FILETIME := Filetime { dwLowDateTime : Z; dwHighDateTime : Z }.

(** [ns] is the count of the duration cast to nanoseconds. *)
Definition timeout_to_filetime (ns : Z) : FILETIME :=
  let ticks := Z.quot ns 100 in
  let QuadPart := u64 (- ticks) in
  Filetime (u32 QuadPart) (Z.shiftr QuadPart 32).

(** ** The system calls *)

(** A call that creates an object returns its handle or NULL; using a handle
    that is not open is undefined ([None]). [next_callback] is the next timer
    callback that the pool's thread runs, if any timer is ever due. *)
Class PoolKernel (K : Type) := {
  CreateThreadpool : K -> ptr * K;
  CreateThreadpoolCleanupGroup : K -> ptr * K;
  CreateEventW : K -> ptr * K;
  SetThreadpoolThreadMinimum : addr -> Z -> K -> bool * K;
  CreateThreadpoolTimer : addr -> addr -> addr -> K -> ptr * K;
  SetThreadpoolTimer : addr -> FILETIME -> K -> option K;
  CloseThreadpoolTimer : addr -> K -> option K;
  SetEvent : addr -> K -> K;
  event_is_set : addr -> K -> bool;
  next_callback : K -> option (addr * addr * K);
  CloseThreadpoolCleanupGroupMembers : addr -> K -> K;
  CloseHandle : addr -> K -> option K;
  CloseThreadpoolCleanupGroup : addr -> K -> K;
  CloseThreadpool : addr -> K -> K;
  GetLastError : K -> Z;
}.

Section Program.
Context {K} `{PoolKernel K}.

(** ** Data *)

(** [environment] refers to the pool and the group; nothing uses [closed]. *)
Record io_context := IoContext { pool : addr; cleanup_group : addr; shutdown_event : ptr }.

(** [ioc] is a reference; the address of [async_ctx] is that of the object. *)
Record awaitable_timer := Timer { ioc : addr; timeout : FILETIME; timer : ptr; awaiting_coro : ptr }.

Record world := World { kern : K; contexts : gmap addr io_context; timers : gmap addr awaitable_timer }.

Definition set_kern (k : K) (w : world) : world := World k (contexts w) (timers w).

(** ** io_context *)

(** The constructor. The event is not checked; what has been created when it
    throws stays open. *)
Definition construct_context (c : addr) (concurrency : Z) (w : world) : outcome unit * world :=
  let '(pool, k) := CreateThreadpool (kern w) in
  let '(group, k) := CreateThreadpoolCleanupGroup k in
  let '(event, k) := CreateEventW k in
  match pool, group with
  | Some p, Some g =>
    let '(ok, k) := SetThreadpoolThreadMinimum p concurrency k in
    if (ok : bool) then (Ret tt, World k (<[c := IoContext p g event]> (contexts w)) (timers w))
    else (Raise (SystemError (GetLastError k)), set_kern k w)
  | _, _ => (Raise (SystemError (GetLastError k)), set_kern k w)
  end.

(** [wait_close()] *)
Definition wait_close (c : addr) (w : world) : outcome world :=
  x ← or_fault Dangling (contexts w !! c);
  Ret (set_kern (CloseThreadpoolCleanupGroupMembers (cleanup_group x) (kern w)) w).

(** [cleanup()]; closing NULL only fails. *)
Definition cleanup (c : addr) (w : world) : outcome world :=
  x ← or_fault Dangling (contexts w !! c);
  k ← (match shutdown_event x with Some e => or_fault DoubleDestroy (CloseHandle e (kern w)) | None => Ret (kern w) end);
  Ret (set_kern (CloseThreadpool (pool x) (CloseThreadpoolCleanupGroup (cleanup_group x) k)) w).

Definition destroy_context (c : addr) (w : world) : outcome world :=
  w ← wait_close c w;
  w ← cleanup c w;
  Ret (World (kern w) (delete c (contexts w)) (timers w)).

(** [shutdown()] *)
Definition shutdown (c : addr) (w : world) : outcome world :=
  x ← or_fault Dangling (contexts w !! c);
  Ret (match shutdown_event x with Some e => set_kern (SetEvent e (kern w)) w | None => w end).

(** [run()] returns: the event is set, or there is none to wait for. *)
Definition run_returns (c : addr) (w : world) : outcome bool :=
  x ← or_fault Dangling (contexts w !! c);
  Ret (match shutdown_event x with Some e => event_is_set e (kern w) | None => true end).

(** ** awaitable_timer *)

(** The constructor, for an object at [t] *)
Definition construct (t ioc_ : addr) (timeout_ : Z) (w : world) : outcome unit * world :=
  match contexts w !! ioc_ with
  | None => (Fault Dangling, w)
  | Some x =>
    let '(timer_obj, k) := CreateThreadpoolTimer t (pool x) (cleanup_group x) (kern w) in
    match timer_obj with
    | None => (Raise (SystemError (GetLastError k)), set_kern k w)
    | Some h =>
      (Ret tt, World k (contexts w) (<[t := Timer ioc_ (timeout_to_filetime timeout_) (Some h) null]> (timers w)))
    end
  end.

(** [close()], which is also what the destructor of the handle does *)
Definition close (o : awaitable_timer) (k : K) : outcome K :=
  match timer o with Some h => or_fault DoubleDestroy (CloseThreadpoolTimer h k) | None => Ret k end.

(** [~awaitable_timer()] *)
Definition destructor (t : addr) (w : world) : outcome world :=
  o ← or_fault Dangling (timers w !! t);
  k ← close o (kern w);
  Ret (World k (contexts w) (delete t (timers w))).

Definition released (o : awaitable_timer) : awaitable_timer := Timer (ioc o) (timeout o) null (awaiting_coro o).

(** The move constructor, for a new object at [t] *)
Definition move (t at_ : addr) (w : world) : outcome world :=
  o ← or_fault Dangling (timers w !! at_);
  Ret (World (kern w) (contexts w) (<[at_ := released o]> (<[t := o]> (timers w)))).

(** [operator=(awaitable_timer&&)]: [ioc] is a reference, so that its
    assignment copies one context over the other. *)
Definition move_assign (t at_ : addr) (w : world) : outcome world :=
  if decide (at_ <> t) then
    m ← or_fault Dangling (timers w !! t);
    k ← close m (kern w);
    o ← or_fault Dangling (timers w !! at_);
    x ← or_fault Dangling (contexts w !! ioc o);
    Ret (World k (<[ioc m := x]> (contexts w))
      (<[at_ := released o]> (<[t := Timer (ioc m) (timeout o) (timer o) (awaiting_coro o)]> (timers w))))
  else Ret w.

(** [timer_awaiter::await_suspend], which always suspends *)
Definition awaiter_suspend (t c : addr) (w : world) : outcome (bool * world) :=
  o ← or_fault Dangling (timers w !! t);
  h ← or_fault NullDeref (timer o);
  k ← or_fault Dangling (SetThreadpoolTimer h (timeout o) (kern w));
  Ret (true, World k (contexts w) (<[t := Timer (ioc o) (timeout o) (timer o) (Some c)]> (timers w))).

(** [on_timer_expiration]: the handle that is resumed. *)
Definition on_timer_expiration (ctx : addr) (w : world) : outcome addr :=
  o ← or_fault Dangling (timers w !! ctx);
  or_fault NullDeref (awaiting_coro o).

(** ** awaitable.cpp *)

(** The pool's thread runs a callback, or waits for ever. *)
Definition callback (w : world) : outcome (option addr * world) :=
  match next_callback (kern w) with
  | None => Diverged
  | Some (ctx, _, k) => h ← on_timer_expiration ctx (set_kern k w); Ret (Some h, set_kern k w)
  end.

(** The coroutine [start_timer] ends with [ioc.shutdown()] and the destructor
    of its timer. *)
Definition backend (c : addr) : TimerBackend world := {|
  await_suspend := awaiter_suspend;
  next_expiration := callback;
  finish t w := w ← shutdown c w; destructor t w;
|}.

(** [ioc.run()]: the pool runs callbacks until the event is set. *)
Fixpoint run (fuel : nat) (c : addr) (s : sys (W := world)) : outcome sys :=
  match fuel with
  | O => Diverged
  | S fuel =>
    b ← run_returns c (TimerLoop.world s);
    if (b : bool) then Ret s else s ← turn (H := backend c) s; run fuel c s
  end.

(** The destructor of the task: the frame is destroyed, and with it its timer
    if the coroutine is not over. *)
Definition destroy_frame (a : addr) (s : sys (W := world)) : outcome (sys (W := world)) :=
  f ← or_fault DoubleDestroy (coros s !! a);
  w ← (match at_point f with AtFinal => Ret (TimerLoop.world s) | _ => destructor (TimerLoop.timer f) (TimerLoop.world s) end);
  Ret (Sys w (delete a (coros s)) (out s)).

(** [main], with the context at [c] and the timer at [t] in its frame *)
Definition awaitable_main (fuel n_reps : nat) (c t : addr) (k : K) : outcome (sys (W := world)) :=
  let '(r, w) := construct_context c 1 (World k ∅ ∅) in
  _ ← r;
  let '(r, w) := construct t c (2 * 10 ^ 9) w in
  '(a, s) ← waiter (H := backend c) n_reps t r (Sys w ∅ []);
  s ← run fuel c s;
  w ← wait_close c (TimerLoop.world s);
  s ← destroy_frame a (Sys w (coros s) (out s));
  w ← destroy_context c (TimerLoop.world s);
  Ret (Sys w (coros s) (out s)).

(** ** vanilla.cpp *)

Record vanilla := Vanilla { v_kern : K; count : Z; printed : list string }.

(** [on_timer_expiration]: the counter is an unsigned long of 32 bits. *)
Definition vanilla_callback (max_count : Z) (shutdown_handle : ptr) (timer : addr) (v : vanilla) : outcome vanilla :=
  let n := u32 (count v + 1) in
  let printed := printed v ++ [fired] in
  if decide (max_count <= n) then
    Ret (Vanilla (match shutdown_handle with Some e => SetEvent e (v_kern v) | None => v_kern v end) n printed)
  else
    k ← or_fault Dangling (SetThreadpoolTimer timer (timeout_to_filetime (2 * 10 ^ 9)) (v_kern v));
    Ret (Vanilla k n printed).

Fixpoint vanilla_run (fuel : nat) (max_count : Z) (event : ptr) (v : vanilla) : outcome vanilla :=
  match fuel with
  | O => Diverged
  | S fuel =>
    if (match event with Some e => event_is_set e (v_kern v) | None => true end) then Ret v
    else
      match next_callback (v_kern v) with
      | None => Diverged
      | Some (_, t, k) =>
        v ← vanilla_callback max_count event t (Vanilla k (count v) (printed v)); vanilla_run fuel max_count event v
      end
  end.

Definition vanilla_main (fuel : nat) (max_count : Z) (c ctx : addr) (k : K) : outcome vanilla :=
  let '(r, w) := construct_context c 1 (World k ∅ ∅) in
  _ ← r;
  x ← or_fault Dangling (contexts w !! c);
  let '(timer_obj, k) := CreateThreadpoolTimer ctx (pool x) (cleanup_group x) (kern w) in
  match timer_obj with
  | None => Raise (SystemError (GetLastError k))
  | Some h =>
    k ← or_fault Dangling (SetThreadpoolTimer h (timeout_to_filetime (2 * 10 ^ 9)) k);
    v ← vanilla_run fuel max_count (shutdown_event x) (Vanilla k 0 []);
    w ← destroy_context c (set_kern (v_kern v) w);
    Ret (Vanilla (kern w) (count v) (printed v))
  end.
End Program.
Arguments world : clear implicits.
Arguments vanilla : clear implicits.

(** ** What the system promises *)

Record timer_view := TimerView { context : addr; group : addr; armed : bool }.

Class PoolLaws {K} `{PoolKernel K} (events : K -> gmap addr bool) (tp_timers : K -> gmap addr timer_view) := {
  law_pool k p k' : CreateThreadpool k = (p, k') -> events k' = events k /\ tp_timers k' = tp_timers k;
  law_group k g k' : CreateThreadpoolCleanupGroup k = (g, k') -> events k' = events k /\ tp_timers k' = tp_timers k /\
    forall x v, tp_timers k !! x = Some v -> Some (group v) <> g;
  law_event k e k' : CreateEventW k = (e, k') -> tp_timers k' = tp_timers k /\
    events k' = match e with Some e => <[e := false]> (events k) | None => events k end /\
    match e with Some e => events k !! e = None | None => True end;
  law_minimum p n k b k' : SetThreadpoolThreadMinimum p n k = (b, k') -> events k' = events k /\ tp_timers k' = tp_timers k;
  law_timer ctx p g k t k' : CreateThreadpoolTimer ctx p g k = (t, k') -> events k' = events k /\
    match t with
    | Some t => tp_timers k !! t = None /\ tp_timers k' = <[t := TimerView ctx g false]> (tp_timers k)
    | None => tp_timers k' = tp_timers k
    end;
  (* whatever the due time, the callback will run *)
  law_set t ft k v : tp_timers k !! t = Some v -> exists k', SetThreadpoolTimer t ft k = Some k' /\ events k' = events k /\
    tp_timers k' = <[t := TimerView (context v) (group v) true]> (tp_timers k);
  law_close_timer t k : match CloseThreadpoolTimer t k with
    | Some k' => is_Some (tp_timers k !! t) /\ events k' = events k /\ tp_timers k' = delete t (tp_timers k)
    | None => tp_timers k !! t = None
    end;
  law_set_event e k : tp_timers (SetEvent e k) = tp_timers k /\ events (SetEvent e k) = alter (fun _ => true) e (events k);
  law_is_set e k : event_is_set e k = default false (events k !! e);
  law_next k ctx t k' : next_callback k = Some (ctx, t, k') -> events k' = events k /\
    exists v, tp_timers k !! t = Some v /\ armed v = true /\ context v = ctx /\
      tp_timers k' = <[t := TimerView ctx (group v) false]> (tp_timers k);
  law_next_returns k t v : tp_timers k !! t = Some v -> armed v = true -> is_Some (next_callback k);
  (* the members of the group are released *)
  law_members g k : events (CloseThreadpoolCleanupGroupMembers g k) = events k /\
    tp_timers (CloseThreadpoolCleanupGroupMembers g k) = filter (fun x => group (snd x) <> g) (tp_timers k);
  law_close_handle e k : match CloseHandle e k with
    | Some k' => is_Some (events k !! e) /\ tp_timers k' = tp_timers k /\ events k' = delete e (events k)
    | None => events k !! e = None
    end;
  law_close_group g k : events (CloseThreadpoolCleanupGroup g k) = events k /\ tp_timers (CloseThreadpoolCleanupGroup g k) = tp_timers k;
  law_close_pool p k : events (CloseThreadpool p k) = events k /\ tp_timers (CloseThreadpool p k) = tp_timers k;
}.

(** ** Theorems *)

Section Pool.
Context {K} `{L : PoolLaws K events tp_timers}.
Implicit Types w : world K.

(** The context at [c], beside the timers and events of others. *)
Context (c : addr) (x : io_context) (base : gmap addr timer_view) (base_events : gmap addr bool).
Context (base_idle : forall y v, base !! y = Some v -> armed v = false).

Definition with_event (b : bool) : gmap addr bool :=
  match shutdown_event x with Some e => <[e := b]> base_events | None => base_events end.

(** The timer object at [t] owns a timer object of the pool, the only one that
    can be due. *)
Record ready w (t : addr) (o : awaitable_timer) (h : addr) (v : timer_view) : Prop := {
  ready_context : contexts w !! c = Some x;
  ready_timer : timers w !! t = Some o;
  ready_ioc : ioc o = c;
  ready_handle : timer o = Some h;
  ready_view : tp_timers (kern w) !! h = Some v;
  ready_address : context v = t;
  ready_alone : delete h (tp_timers (kern w)) = base;
  ready_fresh : base !! h = None;
  ready_unset : events (kern w) = with_event false;
  ready_group : group v = cleanup_group x;
}.

Definition idle w t : Prop := exists o h v, ready w t o h v.
Definition pending w t a : Prop := exists o h v, ready w t o h v /\ awaiting_coro o = Some a /\ armed v = true.
Definition closed w (t : addr) : Prop :=
  contexts w !! c = Some x /\ timers w !! t = None /\ tp_timers (kern w) = base /\
  events (kern w) = with_event true.

Lemma pool_awaiter_suspend_spec w t a : idle w t -> exists w', awaiter_suspend t a w = Ret (true, w') /\ pending w' t a.
Proof.
  intros (o & h & v & [C T I Hh V A B F U G]). unfold awaiter_suspend. rewrite T. cbn [or_fault]. run_bind.
  rewrite Hh. cbn [or_fault]. run_bind. destruct (law_set h (timeout o) (kern w) v V) as (k' & -> & Ek & Vk).
  cbn [or_fault]. run_bind. eexists. split; [done|].
  exists (Timer (ioc o) (timeout o) (timer o) (Some a)), h, (TimerView (context v) (group v) true). split; [|by split].
  split; cbn; rewrite ?Vk; try done; try congruence.
  - by rewrite Hh, lookup_insert_eq.
  - apply lookup_insert_eq.
  - by rewrite delete_insert_eq.
Qed.

Lemma callback_spec w t a : pending w t a -> exists w', callback w = Ret (Some a, w') /\ idle w' t.
Proof.
  intros (o & h & v & [C T I Hh V A B F U G] & Ha & Hv). unfold callback.
  destruct (law_next_returns (kern w) h v V Hv) as [[[ctx y] k'] En]. rewrite En.
  destruct (law_next (kern w) ctx y k' En) as (Ek & v' & Vy & Hv' & Hc & Vk).
  assert (y = h) as ->.
  { destruct (decide (y = h)) as [|Hne]; [done|]. assert (base !! y = Some v') as Hb by by rewrite <- B, lookup_delete_ne.
    by rewrite (base_idle _ _ Hb) in Hv'. }
  assert (ctx = t) as -> by congruence. unfold on_timer_expiration, set_kern. cbn [timers]. rewrite T. cbn [or_fault].
  run_bind. rewrite Ha. cbn [or_fault]. run_bind. eexists. split; [done|]. exists o, h, (TimerView t (group v') false).
  split; cbn; rewrite ?Vk; try done; try congruence.
  - apply lookup_insert_eq.
  - by rewrite delete_insert_eq.
Qed.

Lemma shutdown_spec w :
  contexts w !! c = Some x -> events (kern w) = with_event false ->
  exists w', shutdown c w = Ret w' /\ contexts w' = contexts w /\ timers w' = timers w /\
    tp_timers (kern w') = tp_timers (kern w) /\ events (kern w') = with_event true.
Proof.
  intros C U. unfold shutdown, with_event in *. rewrite C. cbn [or_fault]. run_bind. eexists. split; [done|].
  destruct (shutdown_event x) as [e|]; [|done]. cbn. destruct (law_set_event e (kern w)) as [-> ->].
  by rewrite U, alter_insert_eq.
Qed.

Lemma pool_destructor_spec w t o h :
  timers w !! t = Some o -> timer o = Some h -> is_Some (tp_timers (kern w) !! h) ->
  exists w', destructor t w = Ret w' /\ contexts w' = contexts w /\ timers w' = delete t (timers w) /\
    tp_timers (kern w') = delete h (tp_timers (kern w)) /\ events (kern w') = events (kern w).
Proof.
  intros T Hh [v V]. unfold destructor. rewrite T. cbn [or_fault]. run_bind. unfold close. rewrite Hh.
  pose proof (law_close_timer h (kern w)) as Hc. destruct (CloseThreadpoolTimer h (kern w)) as [k'|]; [|congruence].
  destruct Hc as (_ & Ek & Vk). cbn [or_fault]. run_bind. by eexists.
Qed.

Lemma pool_finish_spec w t : idle w t -> exists w', finish (TimerBackend := backend c) t w = Ret w' /\ closed w' t.
Proof.
  intros (o & h & v & [C T I Hh V A B F U G]). cbn [finish backend].
  destruct (shutdown_spec w C U) as (w1 & -> & C1 & T1 & V1 & U1). run_bind. rewrite <- T1 in T.
  destruct (pool_destructor_spec w1 t o h T Hh) as (w2 & -> & C2 & T2 & V2 & U2); [rewrite V1; by eexists|].
  eexists. split; [done|]. split; [congruence|]. rewrite T2, lookup_delete_eq. split; [done|]. split; congruence.
Qed.

Global Instance pool_timer_laws : TimerLaws (H := backend c) idle pending closed (fun _ _ => False).
Proof.
  split; [exact pool_awaiter_suspend_spec| |exact pool_finish_spec].
  intros w t a Hp. left. by apply callback_spec.
Qed.

Lemma run_returns_spec w b :
  contexts w !! c = Some x -> shutdown_event x <> None -> events (kern w) = with_event b -> run_returns c w = Ret b.
Proof.
  intros C He U. unfold run_returns, with_event in *. rewrite C. cbn [or_fault]. run_bind.
  destruct (shutdown_event x) as [e|]; [|done]. by rewrite law_is_set, U, lookup_insert_eq.
Qed.

Lemma run_unfold fuel s : run (S fuel) c s =
  (b ← run_returns c (TimerLoop.world s); if (b : bool) then Ret s else s ← turn (H := backend c) s; run fuel c s).
Proof. reflexivity. Qed.

(** [run()] lets one callback after the other run until the coroutine is over. *)
Lemma pool_run_spec a t n s :
  shutdown_event x <> None -> after (closed := closed) (pending := pending) a t n s ->
  exists s', run (S n) c s = Ret s' /\ finished (closed := closed) a t s' /\ out s' = out s ++ replicate n fired.
Proof.
  intros He. revert s. induction n as [|n IH]; intros s Ha; rewrite run_unfold.
  - destruct Ha as [Hc Ha]. exists s. destruct Hc as (C & T & V & U).
    rewrite (run_returns_spec _ true) by done. run_bind. by rewrite app_nil_r.
  - destruct (turn_spec (H := backend c) a t n s Ha) as [(s1 & E1 & Ha1 & Ho1)|(x' & _ & _ & [])].
    destruct (IH s1 Ha1) as (s2 & E2 & Hf & Ho2). exists s2. destruct Ha as [(o & h & v & Hr & _) _].
    rewrite (run_returns_spec _ false) by (done || apply Hr). run_bind. split; [done|]. split; [done|].
    by rewrite Ho2, Ho1, <- app_assoc.
Qed.

Lemma wait_close_spec w :
  contexts w !! c = Some x -> exists w', wait_close c w = Ret w' /\ contexts w' = contexts w /\ timers w' = timers w /\
    events (kern w') = events (kern w) /\
    tp_timers (kern w') = filter (fun y => group (snd y) <> cleanup_group x) (tp_timers (kern w)).
Proof.
  intros C. unfold wait_close. rewrite C. cbn [or_fault]. run_bind. eexists. split; [done|]. cbn.
  by destruct (law_members (cleanup_group x) (kern w)).
Qed.

(** [~io_context()] closes what is left of its timers, and its event. *)
Lemma destroy_context_spec w b :
  contexts w !! c = Some x -> events (kern w) = with_event b ->
  (forall e, shutdown_event x = Some e -> base_events !! e = None) ->
  exists w', destroy_context c w = Ret w' /\ contexts w' = delete c (contexts w) /\ timers w' = timers w /\ events (kern w') = base_events /\
    tp_timers (kern w') = filter (fun y => group (snd y) <> cleanup_group x) (tp_timers (kern w)).
Proof.
  intros C U Hf. unfold destroy_context. destruct (wait_close_spec w C) as (w1 & -> & C1 & T1 & U1 & V1). run_bind.
  unfold cleanup. rewrite C1, C. cbn [or_fault]. run_bind. rewrite <- U1 in U.
  assert (exists k2, (match shutdown_event x with Some e => or_fault DoubleDestroy (CloseHandle e (kern w1)) | None => Ret (kern w1) end)
    = Ret k2 /\ tp_timers k2 = tp_timers (kern w1) /\ events k2 = base_events) as (k2 & -> & V2 & U2).
  { unfold with_event in U. destruct (shutdown_event x) as [e|]; [|by eexists].
    pose proof (law_close_handle e (kern w1)) as Hc. rewrite U, lookup_insert_eq in Hc.
    destruct (CloseHandle e (kern w1)) as [k2|]; [|done]. destruct Hc as (_ & V2 & U2). exists k2.
    split; [done|]. split; [done|]. by rewrite U2, delete_insert_id by auto. }
  run_bind. eexists. split; [done|]. cbn. destruct (law_close_group (cleanup_group x) k2) as [U3 V3].
  destruct (law_close_pool (pool x) (CloseThreadpoolCleanupGroup (cleanup_group x) k2)) as [U4 V4].
  split; [by rewrite C1|]. split; [done|]. split; congruence.
Qed.

(** A context that has been constructed. *)
Lemma construct_context_spec n k w :
  construct_context c n (World k ∅ ∅) = (Ret tt, w) -> contexts w !! c = Some x -> base = tp_timers k ->
  base_events = events k ->
  timers w = ∅ /\ tp_timers (kern w) = base /\ events (kern w) = with_event false /\
  (forall e, shutdown_event x = Some e -> base_events !! e = None) /\
  filter (fun y => group (snd y) <> cleanup_group x) base = base.
Proof.
  intros Ec C Hb Hbe. unfold construct_context in Ec. cbn [kern contexts timers] in Ec.
  destruct (CreateThreadpool k) as [p k1] eqn:E1. destruct (law_pool k p k1 E1) as [U1 V1].
  destruct (CreateThreadpoolCleanupGroup k1) as [g k2] eqn:E2. destruct (law_group k1 g k2 E2) as (U2 & V2 & Hg).
  destruct (CreateEventW k2) as [ev k3] eqn:E3. destruct (law_event k2 ev k3 E3) as (V3 & U3 & Hev).
  destruct p as [p|]; [|done]. destruct g as [g|]; [|done].
  destruct (SetThreadpoolThreadMinimum p n k3) as [b k4] eqn:E4. destruct (law_minimum p n k3 b k4 E4) as [U4 V4].
  destruct b; [|done]. injection Ec as <-. cbn [contexts] in C. rewrite lookup_insert_eq in C. injection C as Hx.
  cbn [timers kern]. unfold with_event. rewrite Hb, Hbe, <- Hx. cbn [shutdown_event cleanup_group].
  split; [done|]. split; [congruence|]. split; [by rewrite U4, U3, U2, U1|]. split.
  - intros e ->. congruence.
  - apply map_filter_id. intros y v Hv. cbn. intros Heq. apply (Hg y v); congruence.
Qed.

(** A timer that has been constructed in it can be awaited, and is not set. *)
Lemma construct_unset t d w w' :
  construct t c d w = (Ret tt, w') -> contexts w !! c = Some x -> tp_timers (kern w) = base ->
  events (kern w) = with_event false -> exists o h v, ready w' t o h v /\ armed v = false.
Proof.
  intros Ec C V U. unfold construct in Ec. rewrite C in Ec.
  destruct (CreateThreadpoolTimer t (pool x) (cleanup_group x) (kern w)) as [o k] eqn:E.
  pose proof (law_timer t (pool x) (cleanup_group x) (kern w) o k E) as [Uk Vk].
  destruct o as [h|]; [|done]. destruct Vk as [Hn Vk]. injection Ec as <-.
  exists (Timer c (timeout_to_filetime d) (Some h) null), h, (TimerView t (cleanup_group x) false). split; [|done].
  split; cbn; rewrite ?Vk; try done; try congruence; try apply lookup_insert_eq.
  by rewrite delete_insert_id.
Qed.

Lemma construct_idle t d w w' :
  construct t c d w = (Ret tt, w') -> contexts w !! c = Some x -> tp_timers (kern w) = base ->
  events (kern w) = with_event false -> idle w' t.
Proof. intros Ec C V U. destruct (construct_unset t d w w' Ec C V U) as (o & h & v & Hr & _). by exists o, h, v. Qed.
End Pool.

(** The loop of vanilla.cpp, with [m + 1] callbacks to go. *)
Lemma vanilla_run_spec {K} `{L : PoolLaws K events tp_timers} max_count e h ctx g base be m (s : vanilla K) :
  (forall y v, base !! y = Some v -> armed v = false) ->
  0 <= max_count < 2 ^ 32 -> 0 <= count s -> count s + Z.of_nat (S m) = Z.max 1 max_count ->
  tp_timers (v_kern s) = <[h := TimerView ctx g true]> base -> events (v_kern s) = <[e := false]> be ->
  exists s', vanilla_run (S (S m)) max_count (Some e) s = Ret s' /\ printed s' = printed s ++ replicate (S m) fired /\
    tp_timers (v_kern s') = <[h := TimerView ctx g false]> base /\ events (v_kern s') = <[e := true]> be.
Proof.
  intros Hb Hm. revert s. induction m as [|m IH]; intros s H0 Hc V U; cbn [vanilla_run];
    rewrite law_is_set, U, lookup_insert_eq; cbn [default];
    (destruct (law_next_returns (v_kern s) h (TimerView ctx g true)) as [[[y z] k'] En];
      [rewrite V; apply lookup_insert_eq|done|]);
    rewrite En; destruct (law_next _ _ _ _ En) as (Uk & v & Hv & Ha & Hy & Vk);
    (assert (z = h /\ v = TimerView ctx g true) as [-> ->] by
      (rewrite V, lookup_insert_Some in Hv; destruct Hv as [[-> <-]|[_ Hv]]; [done|]; by rewrite (Hb _ _ Hv) in Ha));
    cbn in Hy; subst y; rewrite V, insert_insert_eq in Vk; unfold vanilla_callback; cbn [count v_kern printed];
    rewrite (u32_small (count s + 1)) by lia.
  - rewrite decide_True by lia. run_bind. cbn [v_kern]. destruct (law_set_event e k') as [Vs Es].
    rewrite law_is_set, Es, Uk, U, alter_insert_eq, lookup_insert_eq. eexists. split; [done|].
    cbn [printed v_kern]. split; [done|]. split; [by rewrite Vs, Vk|]. by rewrite Es, Uk, U, alter_insert_eq.
  - rewrite decide_False by lia.
    destruct (law_set h (timeout_to_filetime (2 * 10 ^ 9)) k' (TimerView ctx g false)) as (k2 & -> & U2 & V2);
      [rewrite Vk; apply lookup_insert_eq|]. cbn [or_fault]. run_bind.
    destruct (IH (Vanilla k2 (count s + 1) (printed s ++ [fired]))) as (s' & E & Hp & V' & U'); cbn [count v_kern]; try lia.
    + by rewrite V2, Vk, insert_insert_eq.
    + congruence.
    + exists s'. split; [done|]. split; [|done]. rewrite Hp. cbn [printed]. by rewrite <- app_assoc.
Qed.

(** ** awaitable.cpp *)

Section Main.
Context {K} `{L : PoolLaws K events tp_timers}.

(** The start of [main]: the context [x] has been constructed at [c], in [w];
    no other timer is due. *)
Context (c t : addr) (k : K) (w : world K) (x : io_context).
Context (constructed : construct_context c 1 (World k ∅ ∅) = (Ret tt, w)) (is_context : contexts w !! c = Some x).
Context (others_idle : forall y v, tp_timers k !! y = Some v -> armed v = false).

(** With an event and a timer, [main] prints [n] lines, one per expiration, and
    closes all that it has created. *)
Theorem pool_main_prints n w' :
  construct t c (2 * 10 ^ 9) w = (Ret tt, w') -> shutdown_event x <> None ->
  exists s, awaitable_main (S n) n c t k = Ret s /\ out s = replicate n fired /\
    tp_timers (kern (TimerLoop.world s)) = tp_timers k /\ events (kern (TimerLoop.world s)) = events k.
Proof.
  intros Et He. destruct (construct_context_spec c x _ _ 1 k w constructed is_context eq_refl eq_refl) as (T & V & U & Hf & Hg).
  pose proof (construct_idle c x _ _ t _ w w' Et is_context V U) as Hi.
  unfold awaitable_main. rewrite constructed. run_bind. rewrite Et. cbn [waiter].
  destruct (start_spec (H := backend c) (L := pool_timer_laws c x _ _ others_idle) n t (Sys w' ∅ []) Hi) as (s1 & -> & Ha & Ho1).
  run_bind. set (a := fresh _) in *. destruct (pool_run_spec c x _ _ others_idle _ t n s1 He Ha) as (s2 & -> & [(C2 & T2 & V2 & U2) Ec] & Ho2). run_bind.
  destruct (wait_close_spec c x _ C2) as (w3 & -> & C3 & T3 & U3 & V3). run_bind.
  unfold destroy_frame. cbn [coros TimerLoop.world out]. rewrite Ec. cbn [or_fault]. run_bind. cbn [at_point]. run_bind.
  cbn [coros TimerLoop.world out].
  destruct (destroy_context_spec c x (events k) w3 true) as (w4 & -> & _ & T4 & U4 & V4); [congruence|congruence|done|].
  run_bind. eexists. split; [done|]. split; [by rewrite Ho2, Ho1|]. cbn [TimerLoop.world]. split; [|done].
  by rewrite V4, V3, V2, !Hg.
Qed.

(** When the timer cannot be created the coroutine is over at once, with the
    exception in its promise; nobody sets the event, and [main] waits for ever. *)
Theorem pool_timer_failure_hangs fuel n code w' :
  construct t c (2 * 10 ^ 9) w = (Raise code, w') -> shutdown_event x <> None ->
  awaitable_main fuel n c t k = Diverged.
Proof.
  intros Et He. destruct (construct_context_spec c x _ _ 1 k w constructed is_context eq_refl eq_refl) as (T & V & U & Hf & Hg).
  unfold awaitable_main. rewrite constructed. run_bind. rewrite Et. cbn [waiter]. run_bind. destruct fuel as [|fuel]; [done|].
  unfold construct in Et. rewrite is_context in Et.
  destruct (CreateThreadpoolTimer t (pool x) (cleanup_group x) (kern w)) as [o k1] eqn:E.
  pose proof (law_timer t (pool x) (cleanup_group x) (kern w) o k1 E) as [Uk Vk].
  destruct o as [h|]; [done|]. injection Et as _ <-. rewrite run_unfold. cbn [TimerLoop.world].
  rewrite (run_returns_spec c x (events k) _ false); [|done|done|by rewrite <- U]. run_bind.
  unfold turn. cbn [next_expiration backend TimerLoop.world]. unfold callback. cbn [kern set_kern].
  destruct (next_callback k1) as [[[y z] k2]|] eqn:En; [|done]. exfalso.
  destruct (law_next k1 y z k2 En) as (_ & v & Hv & Ha & _). rewrite Vk, V in Hv. by rewrite (others_idle _ _ Hv) in Ha.
Qed.

(** The event is not checked: when it could not be created [run] returns at
    once, before any timer has fired, the clean-up group closes the timer, and
    then the destructor of the suspended coroutine closes it again. *)
Theorem pool_event_unchecked fuel n w' :
  construct t c (2 * 10 ^ 9) w = (Ret tt, w') -> shutdown_event x = None ->
  awaitable_main (S fuel) (S n) c t k = Fault DoubleDestroy.
Proof.
  intros Et He. destruct (construct_context_spec c x _ _ 1 k w constructed is_context eq_refl eq_refl) as (T & V & U & Hf & Hg).
  pose proof (construct_idle c x _ _ t _ w w' Et is_context V U) as Hi.
  unfold awaitable_main. rewrite constructed. run_bind. rewrite Et. cbn [waiter].
  destruct (start_spec (H := backend c) (L := pool_timer_laws c x _ _ others_idle) (S n) t (Sys w' ∅ []) Hi) as (s1 & -> & Ha & Ho1).
  run_bind. set (a := fresh _) in *. destruct Ha as [(o & h & v & [C2 T2 _ Hh V2 _ _ _ _ G] & _) Ec].
  rewrite run_unfold. unfold run_returns. rewrite C2. cbn [or_fault]. run_bind. rewrite He. run_bind.
  destruct (wait_close_spec c x _ C2) as (w3 & -> & C3 & T3 & U3 & V3). run_bind.
  unfold destroy_frame. cbn [coros TimerLoop.world out]. rewrite Ec. cbn [or_fault]. run_bind. cbn [at_point TimerLoop.timer].
  unfold destructor. rewrite T3, T2. cbn [or_fault]. run_bind. unfold close. rewrite Hh.
  pose proof (law_close_timer h (kern w3)) as Hc. destruct (CloseThreadpoolTimer h (kern w3)) as [k'|]; [|done].
  destruct Hc as ([y Hy] & _). rewrite V3, map_lookup_filter_Some in Hy. destruct Hy as [Hy Hne]. cbn in Hne. congruence.
Qed.

(** ** vanilla.cpp *)

(** The callback counts before it tests, so [main] prints [max_count] lines but
    never fewer than one. *)
Theorem pool_vanilla_prints max_count ctx h k1 :
  CreateThreadpoolTimer ctx (pool x) (cleanup_group x) (kern w) = (Some h, k1) -> shutdown_event x <> None ->
  0 <= max_count < 2 ^ 32 ->
  exists s, vanilla_main (S (Z.to_nat (Z.max 1 max_count))) max_count c ctx k = Ret s /\
    printed s = replicate (Z.to_nat (Z.max 1 max_count)) fired /\
    tp_timers (v_kern s) = tp_timers k /\ events (v_kern s) = events k.
Proof.
  intros Et He Hm. destruct (construct_context_spec c x _ _ 1 k w constructed is_context eq_refl eq_refl) as (T & V & U & Hf & Hg).
  unfold vanilla_main. rewrite constructed. run_bind. rewrite is_context. cbn [or_fault]. run_bind. rewrite Et.
  destruct (law_timer ctx (pool x) (cleanup_group x) (kern w) (Some h) k1 Et) as (U1 & Hn & V1).
  destruct (law_set h (timeout_to_filetime (2 * 10 ^ 9)) k1 (TimerView ctx (cleanup_group x) false)) as (k2 & -> & U2 & V2);
    [rewrite V1; apply lookup_insert_eq|]. cbn [or_fault]. run_bind.
  destruct (shutdown_event x) as [e|] eqn:Ee; [|done].
  destruct (Z.to_nat (Z.max 1 max_count)) as [|m] eqn:Em; [lia|].
  destruct (vanilla_run_spec max_count e h ctx (cleanup_group x) (tp_timers k) (events k) m (Vanilla k2 0 []))
    as (s & -> & Hp & V3 & U3); cbn [count v_kern]; try done; try lia.
  { by rewrite V2, V1, insert_insert_eq, V. }
  { rewrite U2, U1, U. unfold with_event. by rewrite Ee. }
  run_bind. destruct (destroy_context_spec c x (events k) (set_kern (v_kern s) w) true) as (w4 & -> & _ & T4 & U4 & V4).
  { done. }
  { unfold with_event. cbn [set_kern kern]. by rewrite Ee. }
  { by rewrite Ee. }
  run_bind. eexists. split; [done|]. split; [done|]. cbn [v_kern]. split; [|done].
  rewrite V4. cbn [set_kern kern]. rewrite V3, map_filter_insert_False by (intros []; done).
  rewrite delete_id; [done|]. by rewrite <- V.
Qed.
End Main.

(** ** Moving a timer *)

(** The callback keeps the address of the object that was moved from: when the
    new object is awaited and its timer fires, the callback looks for the
    coroutine in the old one, which has none; once the old one is destroyed it
    reads a dead object. *)
Theorem pool_moved_timer_faults {K} `{L : PoolLaws K events tp_timers} c x base be a b i o h v w :
  (forall y v, base !! y = Some v -> armed v = false) ->
  ready (events := events) (tp_timers := tp_timers) c x base be w a o h v -> awaiting_coro o = None -> a <> b ->
  exists w1 w2 w3, move b a w = Ret w1 /\ awaiter_suspend b i w1 = Ret (true, w2) /\
    callback w2 = Fault NullDeref /\ destructor a w2 = Ret w3 /\ callback w3 = Fault Dangling.
Proof.
  intros Hb [C T I Hh V A B F U G] Ha Hab. unfold move. rewrite T. cbn [or_fault]. run_bind.
  exists (World (kern w) (contexts w) (<[a := released o]> (<[b := o]> (timers w)))).
  unfold awaiter_suspend. cbn [timers kern contexts].
  rewrite (lookup_insert_ne _ a b), lookup_insert_eq by done. cbn [or_fault]. run_bind. rewrite Hh. cbn [or_fault]. run_bind.
  destruct (law_set h (timeout o) (kern w) v V) as (k' & -> & Ek & Vk). cbn [or_fault]. run_bind.
  assert (exists k2, next_callback k' = Some (a, h, k2)) as [k2 En].
  { destruct (law_next_returns k' h (TimerView (context v) (group v) true)) as [[[y z] k2] En];
      [rewrite Vk; apply lookup_insert_eq|done|]. destruct (law_next _ _ _ _ En) as (_ & v' & Hv & Hv' & Hy & _).
    rewrite Vk, lookup_insert_Some in Hv. destruct Hv as [[-> <-]|[Hne Hv]]; [cbn in Hy; exists k2; congruence|].
    assert (base !! z = Some v') as Hz by by rewrite <- B, lookup_delete_ne. by rewrite (Hb _ _ Hz) in Hv'. }
  eexists _, (World _ _ _). split; [done|]. split; [done|].
  unfold callback, on_timer_expiration, destructor, close. cbn [kern set_kern timers]. rewrite En.
  rewrite (lookup_insert_ne _ b a), lookup_insert_eq by done. cbn [or_fault]. run_bind. cbn [awaiting_coro released].
  rewrite Ha. split; [done|]. cbn [or_fault]. run_bind. cbn [timer released]. run_bind.
  cbn [kern set_kern timers]. split; [done|]. rewrite En. by rewrite lookup_delete_eq.
Qed.

(** Assigning a timer of one context to a timer of another copies the whole
    context: both contexts then own the same pool and event, and destroying
    both closes them twice, while what the first one owned stays open. *)
Theorem move_assign_copies_context {K} `{L : PoolLaws K events tp_timers} (c1 c2 a b e : addr) m o x1 x2 (w : world K) :
  c1 <> c2 -> a <> b -> timers w !! a = Some m -> timers w !! b = Some o -> ioc m = c1 -> ioc o = c2 ->
  contexts w !! c1 = Some x1 -> contexts w !! c2 = Some x2 -> shutdown_event x2 = Some e ->
  is_Some (events (kern w) !! e) -> (forall h, timer m = Some h -> is_Some (tp_timers (kern w) !! h)) ->
  exists w1 w2, move_assign a b w = Ret w1 /\ contexts w1 !! c1 = Some x2 /\ contexts w1 !! c2 = Some x2 /\
    destroy_context c1 w1 = Ret w2 /\ destroy_context c2 w2 = Fault DoubleDestroy.
Proof.
  intros Hc Hab Ta Tb I1 I2 C1 C2 He Hev Hm. unfold move_assign. rewrite decide_True by done. rewrite Ta, Tb.
  cbn [or_fault]. run_bind.
  assert (exists k, close m (kern w) = Ret k /\ events k = events (kern w)) as (k & -> & Ek).
  { unfold close. destruct (timer m) as [h|]; [|by eexists]. pose proof (law_close_timer h (kern w)) as Hl.
    destruct (Hm h eq_refl) as [y Hy]. destruct (CloseThreadpoolTimer h (kern w)) as [k|]; [|congruence].
    exists k. split; [done|]. tauto. }
  run_bind. rewrite I1, I2, C2. cbn [or_fault]. run_bind.
  destruct Hev as [bv Hev]. rewrite <- Ek in Hev.
  destruct (destroy_context_spec (events := events) (tp_timers := tp_timers) c1 x2 (delete e (events k))
    (World k (<[c1 := x2]> (contexts w)) (<[b := released o]> (<[a := Timer c1 (timeout o) (timer o) (awaiting_coro o)]> (timers w)))) bv)
    as (w2 & E2 & D2 & _ & U2 & _).
  { apply lookup_insert_eq. }
  { unfold with_event. rewrite He. cbn [kern]. by rewrite insert_delete_id. }
  { intros e' Ee. rewrite He in Ee. injection Ee as <-. apply lookup_delete_eq. }
  eexists _, w2. split; [done|]. cbn [contexts]. rewrite lookup_insert_eq, lookup_insert_ne by done.
  split; [done|]. split; [done|]. split; [done|].
  assert (contexts w2 !! c2 = Some x2) as Cw by by rewrite D2; cbn [contexts]; lookup_cases.
  unfold destroy_context. destruct (wait_close_spec (events := events) c2 x2 w2 Cw) as (w3 & -> & C3 & _ & U3 & _). run_bind.
  unfold cleanup. rewrite C3, Cw. cbn [or_fault]. run_bind. rewrite He.
  pose proof (law_close_handle e (kern w3)) as Hl. destruct (CloseHandle e (kern w3)); [|done].
  destruct Hl as [[y Hy] _]. by rewrite U3, U2, lookup_delete_eq in Hy.
Qed.

(** ** A kernel

    The witnesses use a kernel whose timers expire at once; [no_event] and
    [no_timer] make the creation of events and timers fail. *)
Record demo_pool := Demo { no_event : bool; no_timer : bool; evs : gmap addr bool; tps : gmap addr timer_view }.

Definition demo_due (y : addr * timer_view) : option (addr * addr) :=
  if armed (snd y) then Some (context (snd y), fst y) else None.

Definition demo_groups (k : demo_pool) : gset addr :=
  list_to_set (map (fun y : addr * timer_view => group (snd y)) (map_to_list (tps k))).

#[export] Instance demo_pool_kernel : PoolKernel demo_pool := {|
  CreateThreadpool k := (Some 1%positive, k);
  CreateThreadpoolCleanupGroup k := (Some (fresh (demo_groups k)), k);
  CreateEventW k :=
    if no_event k then (null, k)
    else let e := fresh (dom (evs k)) in (Some e, Demo (no_event k) (no_timer k) (<[e := false]> (evs k)) (tps k));
  SetThreadpoolThreadMinimum _ _ k := (true, k);
  CreateThreadpoolTimer ctx _ g k :=
    if no_timer k then (null, k)
    else let t := fresh (dom (tps k)) in (Some t, Demo (no_event k) (no_timer k) (evs k) (<[t := TimerView ctx g false]> (tps k)));
  SetThreadpoolTimer t _ k :=
    v ← tps k !! t; Some (Demo (no_event k) (no_timer k) (evs k) (<[t := TimerView (context v) (group v) true]> (tps k)));
  CloseThreadpoolTimer t k := _ ← tps k !! t; Some (Demo (no_event k) (no_timer k) (evs k) (delete t (tps k)));
  SetEvent e k := Demo (no_event k) (no_timer k) (alter (fun _ => true) e (evs k)) (tps k);
  event_is_set e k := default false (evs k !! e);
  next_callback k :=
    '(ctx, t) ← head (omap demo_due (map_to_list (tps k)));
    v ← tps k !! t;
    Some (ctx, t, Demo (no_event k) (no_timer k) (evs k) (<[t := TimerView ctx (group v) false]> (tps k)));
  CloseThreadpoolCleanupGroupMembers g k :=
    Demo (no_event k) (no_timer k) (evs k) (filter (fun y => group (snd y) <> g) (tps k));
  CloseHandle e k := _ ← evs k !! e; Some (Demo (no_event k) (no_timer k) (delete e (evs k)) (tps k));
  CloseThreadpoolCleanupGroup _ k := k;
  CloseThreadpool _ k := k;
  GetLastError _ := 8;
|}.

Lemma demo_due_Some t v ctx t' : demo_due (t, v) = Some (ctx, t') <-> armed v = true /\ context v = ctx /\ t' = t.
Proof. unfold demo_due. cbn. destruct (armed v); naive_solver. Qed.

#[export] Instance demo_pool_laws : PoolLaws (K := demo_pool) evs tps.
Proof.
  split; cbn.
  - by intros k p k' [= _ <-].
  - intros k g k' [= <- <-]. split; [done|]. split; [done|]. intros y v Hv [= Heq].
    apply (is_fresh (demo_groups k)). rewrite <- Heq. unfold demo_groups. apply elem_of_list_to_set, list_elem_of_fmap.
    exists (y, v). split; [done|]. by apply elem_of_map_to_list.
  - intros k e k'. destruct (no_event k); intros [= <- <-]; [done|]. split; [done|]. split; [done|].
    apply not_elem_of_dom, is_fresh.
  - by intros p n k b k' [= _ <-].
  - intros ctx p g k t k'. destruct (no_timer k); intros [= <- <-]; [done|]. split; [done|]. split; [|done].
    apply not_elem_of_dom, is_fresh.
  - intros t ft k v Hv. rewrite Hv. by eexists.
  - intros t k. destruct (tps k !! t) eqn:E; cbn; [by split; [eexists|]|done].
  - done.
  - done.
  - intros k ctx t k'. destruct (head _) as [[c' t']|] eqn:Eh; [|done]. cbn. destruct (tps k !! t') as [v|] eqn:Ev; [|done].
    intros [= <- <- <-]. split; [done|]. exists v.
    assert ((c', t') ∈ omap demo_due (map_to_list (tps k))) as Hin.
    { destruct (omap _ _); [done|]. injection Eh as ->. left. }
    apply list_elem_of_omap in Hin as [[t2 v2] [Hin (Ha & Hc & ->)%demo_due_Some]].
    apply elem_of_map_to_list in Hin. rewrite Ev in Hin. by injection Hin as <-.
  - intros k t v Hv Ha.
    assert ((context v, t) ∈ omap demo_due (map_to_list (tps k))) as Hin.
    { apply list_elem_of_omap. exists (t, v). split; [by apply elem_of_map_to_list|]. by apply demo_due_Some. }
    destruct (omap _ _) as [|[c' t'] l] eqn:El; [by apply not_elem_of_nil in Hin|]. cbn.
    assert ((c', t') ∈ omap demo_due (map_to_list (tps k))) as Hin' by (rewrite El; left).
    apply list_elem_of_omap in Hin' as [[t2 v2] [Hin2 (_ & _ & ->)%demo_due_Some]].
    apply elem_of_map_to_list in Hin2. rewrite Hin2. by eexists.
  - done.
  - intros e k. destruct (evs k !! e) eqn:E; cbn; [by split; [eexists|]|done].
  - done.
  - done.
Qed.

(** ** Witnesses *)

Definition demo0 (no_event no_timer : bool) : demo_pool := Demo no_event no_timer ∅ ∅.
Definition demo_context (k : demo_pool) : world demo_pool := snd (construct_context 1%positive 1 (World k ∅ ∅)).
Definition demo_timer (k : demo_pool) : world demo_pool :=
  snd (construct 2%positive 1%positive (2 * 10 ^ 9) (demo_context k)).

Example pool_main_runs :
  match awaitable_main 4 3 1%positive 2%positive (demo0 false false) with
  | Ret s => out s = [fired; fired; fired] | _ => False end.
Proof. vm_compute. reflexivity. Qed.

Lemma pool_main_prints_witness :
  exists s, awaitable_main 4 3 1%positive 2%positive (demo0 false false) = Ret s /\ out s = replicate 3 fired /\
    tps (kern (TimerLoop.world s)) = ∅ /\ evs (kern (TimerLoop.world s)) = ∅.
Proof.
  apply (pool_main_prints (events := evs) (tp_timers := tps) 1%positive 2%positive (demo0 false false)
    (demo_context (demo0 false false)) (IoContext 1%positive 1%positive (Some 1%positive)))
    with (w' := demo_timer (demo0 false false)); try (by vm_compute); done.
Defined.

Lemma pool_timer_failure_hangs_witness :
  construct 2%positive 1%positive (2 * 10 ^ 9) (demo_context (demo0 false true)) =
    (Raise (SystemError 8), demo_timer (demo0 false true)) /\
  awaitable_main 100 3 1%positive 2%positive (demo0 false true) = Diverged.
Proof.
  split; [by vm_compute|].
  apply (pool_timer_failure_hangs (events := evs) (tp_timers := tps) 1%positive 2%positive (demo0 false true)
    (demo_context (demo0 false true)) (IoContext 1%positive 1%positive (Some 1%positive)))
    with (code := SystemError 8) (w' := demo_timer (demo0 false true)); try (by vm_compute); done.
Defined.

Lemma pool_event_unchecked_witness :
  awaitable_main 4 3 1%positive 2%positive (demo0 true false) = Fault DoubleDestroy.
Proof.
  apply (pool_event_unchecked (events := evs) (tp_timers := tps) 1%positive 2%positive (demo0 true false)
    (demo_context (demo0 true false)) (IoContext 1%positive 1%positive null))
    with (w' := demo_timer (demo0 true false)); try (by vm_compute); done.
Defined.

Lemma pool_vanilla_prints_witness :
  exists s, vanilla_main 2 0 1%positive 2%positive (demo0 false false) = Ret s /\ printed s = [fired] /\
    tps (v_kern s) = ∅ /\ evs (v_kern s) = ∅.
Proof.
  apply (pool_vanilla_prints (events := evs) (tp_timers := tps) 1%positive (demo0 false false)
    (demo_context (demo0 false false)) (IoContext 1%positive 1%positive (Some 1%positive)))
    with (h := 1%positive) (max_count := 0) (k1 := Demo false false {[ 1%positive := false ]}
      {[ 1%positive := TimerView 2%positive 1%positive false ]}); try (by vm_compute); done.
Defined.

Lemma pool_moved_timer_faults_witness :
  exists w1 w2 w3, move 3%positive 2%positive (demo_timer (demo0 false false)) = Ret w1 /\
    awaiter_suspend 3%positive 9%positive w1 = Ret (true, w2) /\ callback w2 = Fault NullDeref /\
    destructor 2%positive w2 = Ret w3 /\ callback w3 = Fault Dangling.
Proof.
  apply (pool_moved_timer_faults (events := evs) (tp_timers := tps) 1%positive
    (IoContext 1%positive 1%positive (Some 1%positive)) ∅ ∅ 2%positive 3%positive 9%positive
    (Timer 1%positive (timeout_to_filetime (2 * 10 ^ 9)) (Some 1%positive) null) 1%positive
    (TimerView 2%positive 1%positive false)); done.
Defined.

(** Two contexts at 1 and 3, a timer of each at 2 and 4. *)
Definition demo_two : world demo_pool :=
  snd (construct 4%positive 3%positive 1 (snd (construct_context 3%positive 1 (demo_timer (demo0 false false))))).

Lemma move_assign_copies_context_witness :
  exists w1 w2, move_assign 2%positive 4%positive demo_two = Ret w1 /\
    contexts w1 !! 1%positive = Some (IoContext 1%positive 2%positive (Some 2%positive)) /\
    contexts w1 !! 3%positive = Some (IoContext 1%positive 2%positive (Some 2%positive)) /\
    destroy_context 1%positive w1 = Ret w2 /\ destroy_context 3%positive w2 = Fault DoubleDestroy.
Proof.
  apply (move_assign_copies_context (events := evs) (tp_timers := tps) 1%positive 3%positive 2%positive 4%positive
    2%positive (Timer 1%positive (timeout_to_filetime (2 * 10 ^ 9)) (Some 1%positive) null)
    (Timer 3%positive (timeout_to_filetime 1) (Some 2%positive) null)
    (IoContext 1%positive 1%positive (Some 1%positive)) (IoContext 1%positive 2%positive (Some 2%positive)) demo_two);
    try (by vm_compute); try done.
  intros h [= <-]. by eexists.
Defined.
End PoolTimer.
