(* ===== verification/PoolRace.v ===== *)
(** * PoolRace: the programs of applications/timers/win-pool/ by the steps of their threads

    PoolTimer runs every callback to its end before [main] goes on. Here the
    thread of [main] and the thread of the pool interleave: the event wakes
    [main] while the callback that has set it is still in its coroutine, which
    has its timer to destroy and its frame to leave. The steps are those of
    PoolTimer's operations; waiting for the members of the clean-up group
    returns when no callback runs. *)

From S2P Require Import Prelude TimerLoop PoolTimer.
Local Open Scope Z_scope.

Module PoolRace.
Import TimerLoop PoolTimer.

(** ** awaitable.cpp *)

(** Where the body of [start_timer] is when a thread executes it: at the head
    of the loop, behind the [co_await], in [ioc.shutdown()], at the end of the
    timer's scope. *)
Inductive code := Head (i : nat) | Fired (i : nat) | Over | Scope.

(** The coroutine's frame: a thread is in it, it is suspended at the [co_await]
    of the [i]-th turn or in [final_suspend], or it is destroyed. *)
Inductive frame_state := Running | AtAwait (i : nat) | AtFinal | Destroyed.

(** [main] in [start_timer], in [ioc.run()], in [ioc.wait_close()], in the
    destructors of [t] and of [ioc]. *)
Inductive main_pc := InStart (p : code) | Waiting | Closing | DestroyTask | DestroyContext | Returned.

(** The pool's thread: no callback, [on_timer_expiration], the coroutine *)
Inductive pool_pc := Idle | Calling (ctx : addr) | Resumed (p : code).

Inductive agent := Main | Pool.

Section Program.
Context {K} `{PoolKernel K}.

(** The context is at [c], the timer at [t], in the frame at [co]. *)
Context (c t co : addr) (n_reps : nat).

Record state := State { w : PoolTimer.world K; main : main_pc; pool : pool_pc; frame : frame_state; out : nat }.

(** One step of the body of the coroutine, by the thread that is in it;
    [None]: the coroutine returns to whoever has called or resumed it. *)
Definition code_step (p : code) (s : state) : outcome (option code * state) :=
  match p with
  | Head i =>
    if decide (i < n_reps)%nat then
      '(_, w') ← awaiter_suspend t co (w s);
      Ret (None, State w' (main s) (pool s) (AtAwait i) (out s))
    else Ret (Some Over, s)
  | Fired i => Ret (Some (Head (S i)), State (w s) (main s) (pool s) (frame s) (S (out s)))
  | Over => w' ← shutdown c (w s); Ret (Some Scope, State w' (main s) (pool s) (frame s) (out s))
  | Scope => w' ← destructor t (w s); Ret (None, State w' (main s) (pool s) AtFinal (out s))
  end.

Definition set_main (m : main_pc) (s : state) : state := State (w s) m (pool s) (frame s) (out s).
Definition set_pool (p : pool_pc) (s : state) : state := State (w s) (main s) p (frame s) (out s).
Definition set_w (w' : PoolTimer.world K) (s : state) : state := State w' (main s) (pool s) (frame s) (out s).

(** [awaiting_coro.resume()] *)
Definition resume_coroutine (h : addr) (s : state) : outcome state :=
  if decide (h = co) then
    match frame s with
    | AtAwait i => Ret (State (w s) (main s) (Resumed (Fired i)) Running (out s))
    | Running | AtFinal => Fault BadResume
    | Destroyed => Fault Dangling
    end
  else Fault Dangling.

(** [~eager_task()]: the frame is destroyed, with its timer unless the
    coroutine is over; destroying a coroutine that runs is undefined. *)
Definition destroy_task (s : state) : outcome state :=
  match frame s with
  | AtFinal => Ret (State (w s) (main s) (pool s) Destroyed (out s))
  | AtAwait _ => w' ← destructor t (w s); Ret (State w' (main s) (pool s) Destroyed (out s))
  | Running => Fault BadDestroy
  | Destroyed => Fault DoubleDestroy
  end.

(** The next step of [main]; [None]: it waits, or it is over. *)
Definition main_step (s : state) : option (outcome state) :=
  match main s with
  | InStart p =>
    Some ('(next, s) ← code_step p s; Ret (set_main (match next with Some p => InStart p | None => Waiting end) s))
  | Waiting =>
    match run_returns c (w s) with
    | Ret false => None
    | r => Some (_ ← r; Ret (set_main Closing s))
    end
  | Closing => match pool s with Idle => Some (w' ← wait_close c (w s); Ret (set_main DestroyTask (set_w w' s))) | _ => None end
  | DestroyTask => Some (s ← destroy_task s; Ret (set_main DestroyContext s))
  | DestroyContext => match pool s with Idle => Some (w' ← destroy_context c (w s); Ret (set_main Returned (set_w w' s))) | _ => None end
  | Returned => None
  end.

Definition pool_step (s : state) : option (outcome state) :=
  match pool s with
  | Idle =>
    match next_callback (kern (w s)) with
    | None => None
    | Some (ctx, _, k) => Some (Ret (set_pool (Calling ctx) (set_w (set_kern k (w s)) s)))
    end
  | Calling ctx => Some (h ← on_timer_expiration ctx (w s); resume_coroutine h s)
  | Resumed p =>
    Some ('(next, s) ← code_step p s; Ret (set_pool (match next with Some p => Resumed p | None => Idle end) s))
  end.

Definition step (a : agent) : state -> option (outcome state) := match a with Main => main_step | Pool => pool_step end.

Inductive program_step (s s' : state) : Prop :=
| program_step_intro a : step a s = Some (Ret s') -> program_step s s'.

(** The coroutine has been called and its timer constructed, in [w]. *)
Definition init (w : PoolTimer.world K) : state := State w (InStart (Head 0)) Idle Running 0.
End Program.
Arguments state : clear implicits.

(** ** Every interleaving ends, and none touches what is gone. *)

Section Safe.
Context {K} `{L : PoolLaws K events tp_timers}.
Implicit Types w : PoolTimer.world K.
Implicit Types s : state K.

(** A context [x] at [c], beside the timers and the events of others *)
Context (c t co : addr) (n : nat) (x : io_context) (base : gmap addr timer_view) (base_events : gmap addr bool).
Context (base_idle : forall y v, base !! y = Some v -> armed v = false).
Context (has_event : shutdown_event x <> None).
Context (fresh_event : forall e, shutdown_event x = Some e -> base_events !! e = None).
Context (other_groups : filter (fun y => group (snd y) <> cleanup_group x) base = base).

Abbreviation ready := (ready (events := events) (tp_timers := tp_timers) c x base base_events).
Abbreviation pending := (pending (events := events) (tp_timers := tp_timers) c x base base_events).
Abbreviation closed := (closed (events := events) (tp_timers := tp_timers) c x base base_events).
Abbreviation with_event := (with_event x base_events).

(** The timer is not set; its callback is on its way to the coroutine; the
    event is set while the timer exists. *)
Definition calm w : Prop := exists o h v, ready w t o h v /\ armed v = false.
Definition called w : Prop := exists o h v, ready w t o h v /\ armed v = false /\ awaiting_coro o = Some co.
Definition unwinding w : Prop := exists o h,
  contexts w !! c = Some x /\ timers w !! t = Some o /\ timer o = Some h /\ is_Some (tp_timers (kern w) !! h) /\
  delete h (tp_timers (kern w)) = base /\ (forall y v, tp_timers (kern w) !! y = Some v -> armed v = false) /\
  events (kern w) = with_event true.

Definition code_inv (p : code) w (o : nat) : Prop :=
  match p with
  | Head i => (i <= n)%nat /\ o = i /\ calm w
  | Fired i => (i < n)%nat /\ o = i /\ calm w
  | Over => o = n /\ calm w
  | Scope => o = n /\ unwinding w
  end.

Definition clean w : Prop := tp_timers (kern w) = base /\ events (kern w) = base_events /\ timers w !! t = None /\ contexts w !! c = None.

(** Who is in the coroutine, and what it is waiting for *)
Inductive inv : state K -> Prop :=
| InvStart w p o : code_inv p w o -> inv (State w (InStart p) Idle Running o)
| InvPending w i : (i < n)%nat -> pending w t co -> inv (State w Waiting Idle (AtAwait i) i)
| InvCalling w i : (i < n)%nat -> called w -> inv (State w Waiting (Calling t) (AtAwait i) i)
| InvResumed w m p o : m = Waiting \/ m = Closing /\ p = Scope -> code_inv p w o -> inv (State w m (Resumed p) Running o)
| InvOver w m : m = Waiting \/ m = Closing \/ m = DestroyTask -> closed w t -> inv (State w m Idle AtFinal n)
| InvDestroyed w : closed w t -> inv (State w DestroyContext Idle Destroyed n)
| InvReturned w : clean w -> inv (State w Returned Idle Destroyed n).

(** *** The measure *)

Definition code_rank (p : code) : nat :=
  match p with Head i => 4 * (n - i) + 3 | Fired i => 4 * (n - i) | Over => 2 | Scope => 1 end.
Definition main_rank (m : main_pc) : nat :=
  match m with InStart _ => 5 | Waiting => 4 | Closing => 3 | DestroyTask => 2 | DestroyContext => 1 | Returned => 0 end.
Definition measure (s : state K) : nat :=
  main_rank (main s) +
  match pool s, main s, frame s with
  | Resumed p, _, _ => code_rank p
  | Calling _, _, AtAwait i => 4 * (n - i) + 1
  | Idle, InStart p, _ => code_rank p
  | Idle, _, AtAwait i => 4 * (n - i) + 2
  | _, _, _ => 0
  end.

(** *** What the operations do in each phase *)

Lemma silent k : (forall y v, tp_timers k !! y = Some v -> armed v = false) -> next_callback k = None.
Proof.
  intros Hk. destruct (next_callback k) as [[[ctx y] k']|] eqn:E; [|done].
  destruct (law_next k ctx y k' E) as (_ & v & Hv & Ha & _). by rewrite (Hk y v Hv) in Ha.
Qed.

Lemma ready_unarmed w o h v y u : ready w t o h v -> armed v = false -> tp_timers (kern w) !! y = Some u -> armed u = false.
Proof.
  intros [C T I Hh V A B F U G] Ha Hy. destruct (decide (y = h)) as [->|Hne]; [congruence|].
  apply (base_idle y u). by rewrite <- B, lookup_delete_ne.
Qed.

Lemma calm_silent w : calm w -> next_callback (kern w) = None.
Proof. intros (o & h & v & Hr & Ha). apply silent. intros y u. by eapply ready_unarmed. Qed.

Lemma closed_silent w : closed w t -> next_callback (kern w) = None.
Proof. intros (_ & _ & V & _). apply silent. rewrite V. exact base_idle. Qed.

Lemma called_calm w : called w -> calm w.
Proof. intros (o & h & v & Hr & Ha & _). by exists o, h, v. Qed.

Lemma suspends w : calm w -> exists w', awaiter_suspend t co w = Ret (true, w') /\ pending w' t co.
Proof. intros (o & h & v & Hr & _). apply (pool_awaiter_suspend_spec c x base base_events). by exists o, h, v. Qed.

Lemma pending_fires w : pending w t co -> exists h k, next_callback (kern w) = Some (t, h, k) /\ called (set_kern k w).
Proof.
  intros (o & h & v & [C T I Hh V A B F U G] & Ha & Hv).
  destruct (law_next_returns (kern w) h v V Hv) as [[[ctx y] k'] En].
  destruct (law_next (kern w) ctx y k' En) as (Ek & v' & Vy & Hv' & Hc & Vk).
  assert (y = h) as ->.
  { destruct (decide (y = h)) as [|Hne]; [done|]. assert (base !! y = Some v') as Hb by by rewrite <- B, lookup_delete_ne.
    by rewrite (base_idle _ _ Hb) in Hv'. }
  assert (ctx = t) as -> by congruence. exists h, k'. split; [done|]. exists o, h, (TimerView t (group v') false).
  split; [|done]. split; cbn; rewrite ?Vk; try done; try congruence.
  - apply lookup_insert_eq.
  - by rewrite delete_insert_eq.
Qed.

Lemma called_finds w : called w -> on_timer_expiration t w = Ret co.
Proof.
  intros (o & h & v & Hr & _ & Ha). unfold on_timer_expiration. rewrite (ready_timer _ _ _ _ _ _ _ _ _ Hr). cbn [or_fault].
  run_bind. by rewrite Ha.
Qed.

Lemma calm_shutdown w : calm w -> exists w', shutdown c w = Ret w' /\ unwinding w'.
Proof.
  intros (o & h & v & Hr & Hv). pose proof Hr as [C T I Hh V A B F U G].
  destruct (shutdown_spec (events := events) (tp_timers := tp_timers) c x base_events w C U) as (w' & E & C' & T' & V' & U').
  exists w'. split; [done|]. exists o, h. rewrite C', T', V'. do 3 (split; [done|]). split; [by eexists|].
  split; [done|]. split; [|done]. intros y u. by eapply ready_unarmed.
Qed.

Lemma unwinding_scope w : unwinding w -> exists w', destructor t w = Ret w' /\ closed w' t.
Proof.
  intros (o & h & C & T & Hh & V & B & _ & U).
  destruct (pool_destructor_spec (events := events) (tp_timers := tp_timers) w t o h T Hh V) as (w' & E & C' & T' & V' & U').
  exists w'. split; [done|]. unfold closed. rewrite C', T', V', U', lookup_delete_eq. done.
Qed.

Lemma closed_wait w : closed w t -> exists w', wait_close c w = Ret w' /\ closed w' t.
Proof.
  intros (C & T & V & U).
  destruct (wait_close_spec (events := events) (tp_timers := tp_timers) c x w C) as (w' & E & C' & T' & U' & V').
  exists w'. split; [done|]. unfold closed. rewrite C', T', V', U', V. done.
Qed.

Lemma closed_destroy w : closed w t -> exists w', destroy_context c w = Ret w' /\ clean w'.
Proof.
  intros (C & T & V & U).
  destruct (destroy_context_spec (events := events) (tp_timers := tp_timers) c x base_events w true C U fresh_event)
    as (w' & E & C' & T' & U' & V').
  exists w'. split; [done|]. unfold clean. rewrite C', T', V', U', V, lookup_delete_eq. done.
Qed.

Lemma unwinding_silent w : unwinding w -> next_callback (kern w) = None.
Proof. intros (o & h & _ & _ & _ & _ & _ & Hu & _). by apply silent. Qed.

Lemma code_silent p w o : code_inv p w o -> next_callback (kern w) = None.
Proof. destruct p; cbn; [intros (_ & _ & Hc)|intros (_ & _ & Hc)|intros (_ & Hc)|intros (_ & Hc)]; eauto using calm_silent, unwinding_silent. Qed.

(** What a step of the coroutine leaves behind, when a thread goes on in it or
    leaves it. *)
Definition code_post (p : code) (next : option code) (s : state K) : Prop :=
  match next with
  | Some p' => frame s = Running /\ code_inv p' (w s) (out s) /\ (code_rank p' < code_rank p)%nat /\ p <> Scope
  | None =>
    (exists i, frame s = AtAwait i /\ (i < n)%nat /\ out s = i /\ pending (w s) t co /\ (4 * (n - i) + 2 < code_rank p)%nat /\ p <> Scope) \/
    (frame s = AtFinal /\ out s = n /\ closed (w s) t /\ (0 < code_rank p)%nat)
  end.

Lemma code_step_spec p w m po o : code_inv p w o ->
  exists next s', code_step c t co n p (State w m po Running o) = Ret (next, s') /\ main s' = m /\ pool s' = po /\ code_post p next s'.
Proof.
  intros Hi. destruct p as [i|i| |]; unfold code_step; cbn [PoolRace.w main pool frame out].
  - destruct Hi as (Hi & -> & Hc). case_decide as Hlt.
    + destruct (suspends w Hc) as (w' & -> & Hp). run_bind. eexists None, _. do 3 (split; [done|]). left. exists i. cbn.
      repeat split; try done. lia.
    + eexists (Some Over), _. do 3 (split; [done|]). cbn. repeat split; try done; lia.
  - destruct Hi as (Hi & -> & Hc). eexists (Some (Head (S i))), _. do 3 (split; [done|]). cbn. repeat split; try done; lia.
  - destruct Hi as (-> & Hc). destruct (calm_shutdown w Hc) as (w' & -> & Hu). run_bind.
    eexists (Some Scope), _. do 3 (split; [done|]). cbn. repeat split; try done; lia.
  - destruct Hi as (-> & Hu). destruct (unwinding_scope w Hu) as (w' & -> & Hc). run_bind.
    eexists None, _. do 3 (split; [done|]). right. cbn. repeat split; try done; try lia; apply Hc.
Qed.

Lemma run_waits w b : contexts w !! c = Some x -> events (kern w) = with_event b -> run_returns c w = Ret b.
Proof. intros C U. by eapply run_returns_spec. Qed.

Lemma called_unset w : calm w -> run_returns c w = Ret false.
Proof. intros (o & h & v & [C T I Hh V A B F U G] & _). by apply run_waits. Qed.
Lemma pending_unset w : pending w t co -> run_returns c w = Ret false.
Proof. intros (o & h & v & [C T I Hh V A B F U G] & _). by apply run_waits. Qed.
Lemma closed_set w : closed w t -> run_returns c w = Ret true.
Proof. intros (C & _ & _ & U). by apply run_waits. Qed.
Lemma unwinding_set w : unwinding w -> run_returns c w = Ret true.
Proof. intros (o & h & C & _ & _ & _ & _ & _ & U). by apply run_waits. Qed.

(** *** The steps keep the invariant *)

Definition good (s : state K) (r : outcome (state K)) : Prop := exists s', r = Ret s' /\ inv s' /\ (measure s' < measure s)%nat.

Lemma start_good p w o r : code_inv p w o -> main_step c t co n (State w (InStart p) Idle Running o) = Some r ->
  good (State w (InStart p) Idle Running o) r.
Proof.
  intros Hi [= <-]. destruct (code_step_spec p w (InStart p) Idle o Hi) as (next & [w1 m1 p1 f1 o1] & E & Em & Ep & Hpost).
  cbn in Em, Ep. subst m1 p1. rewrite E. run_bind. eexists. split; [done|]. destruct next as [p'|]; cbn in Hpost.
  - destruct Hpost as (-> & Hi' & Hlt & _). split; [by apply InvStart|]. cbn. lia.
  - destruct Hpost as [(i & -> & Hin & -> & Hp & Hlt & _)|(-> & -> & Hc & Hlt)].
    + split; [by apply InvPending|]. cbn. lia.
    + split; [apply InvOver; auto|]. cbn. lia.
Qed.

Lemma resumed_good p w m o r : m = Waiting \/ m = Closing /\ p = Scope -> code_inv p w o ->
  pool_step c t co n (State w m (Resumed p) Running o) = Some r -> good (State w m (Resumed p) Running o) r.
Proof.
  intros Hm Hi [= <-]. destruct (code_step_spec p w m (Resumed p) o Hi) as (next & [w1 m1 p1 f1 o1] & E & Em & Ep & Hpost).
  cbn in Em, Ep. subst m1 p1. rewrite E. run_bind. eexists. split; [done|]. destruct next as [p'|]; cbn in Hpost.
  - destruct Hpost as (-> & Hi' & Hlt & Hne). destruct Hm as [->|[_ Hm]]; [|done]. split; [apply InvResumed; auto|]. cbn. lia.
  - destruct Hpost as [(i & -> & Hin & -> & Hp & Hlt & Hne)|(-> & -> & Hc & Hlt)].
    + destruct Hm as [->|[_ Hm]]; [|done]. split; [by apply InvPending|]. cbn. lia.
    + split; [apply InvOver; naive_solver|]. cbn. destruct Hm as [->|[-> _]]; cbn; lia.
Qed.

Lemma code_returns p w o : code_inv p w o -> exists b, run_returns c w = Ret b /\ (b = true -> p = Scope).
Proof.
  destruct p; cbn; [intros (_ & _ & Hc)|intros (_ & _ & Hc)|intros (_ & Hc)|intros (_ & Hc)].
  1-3: exists false; split; [by apply called_unset|done].
  exists true. split; [by apply unwinding_set|done].
Qed.

Lemma race_step_good a s r : inv s -> step c t co n a s = Some r -> good s r.
Proof.
  intros Hs E. destruct a; cbn [step] in E.
  - destruct Hs as [w p o Hi|w i Hlt Hp|w i Hlt Hc|w m p o Hm Hi|w m Hm Hc|w Hc|w Hc]; [by apply start_good| | | | | |done];
      unfold main_step in E; cbn [main pool frame out PoolRace.w] in E.
    + by rewrite (pending_unset w Hp) in E.
    + by rewrite (called_unset w (called_calm w Hc)) in E.
    + destruct Hm as [->|[-> _]]; [|done]. destruct (code_returns p w o Hi) as ([] & Er & Hb); rewrite Er in E; [|done].
      injection E as <-. run_bind. eexists. split; [done|]. split; [apply InvResumed; auto|cbn; lia].
    + destruct Hm as [->|[->| ->]]; cbn in E.
      * rewrite (closed_set w Hc) in E. injection E as <-. run_bind. eexists. split; [done|]. split; [apply InvOver; auto|cbn; lia].
      * injection E as <-. destruct (closed_wait w Hc) as (w' & -> & Hc'). run_bind. eexists. split; [done|].
        split; [apply InvOver; auto|cbn; lia].
      * injection E as <-. eexists. split; [done|]. split; [by apply InvDestroyed|cbn; lia].
    + injection E as <-. destruct (closed_destroy w Hc) as (w' & -> & Hc'). run_bind. eexists. split; [done|].
      split; [by apply InvReturned|cbn; lia].
  - destruct Hs as [w p o Hi|w i Hlt Hp|w i Hlt Hc|w m p o Hm Hi|w m Hm Hc|w Hc|w Hc]; [..|by apply resumed_good| | |];
      unfold pool_step in E; cbn [main pool frame out PoolRace.w] in E.
    + by rewrite (code_silent p w o Hi) in E.
    + destruct (pending_fires w Hp) as (h & k & En & Hc). rewrite En in E. injection E as <-. eexists. split; [done|].
      split; [by apply InvCalling|cbn; lia].
    + injection E as <-. rewrite (called_finds w Hc). run_bind. unfold resume_coroutine. rewrite decide_True by done.
      cbn. eexists. split; [done|]. split; [|cbn; lia]. apply InvResumed; [auto|]. cbn. eauto using called_calm.
    + by rewrite (closed_silent w Hc) in E.
    + by rewrite (closed_silent w Hc) in E.
    + destruct Hc as (V & _). rewrite (silent (kern w)) in E; [done|]. rewrite V. exact base_idle.
Qed.

(** Someone can go on until [main] returns. *)
Lemma race_progress s : inv s -> main s <> Returned -> exists a r, step c t co n a s = Some r.
Proof.
  intros [w p o Hi|w i Hlt Hp|w i Hlt Hc|w m p o Hm Hi|w m Hm Hc|w Hc|w Hc] Hne.
  - by exists Main; eexists.
  - exists Pool. destruct (pending_fires w Hp) as (h & k & En & _). cbn. unfold pool_step. cbn. rewrite En. by eexists.
  - by exists Pool; eexists.
  - by exists Pool; eexists.
  - exists Main. destruct Hm as [->|[->| ->]]; cbn; unfold main_step; cbn; [|by eexists..].
    rewrite (closed_set w Hc). by eexists.
  - by exists Main; eexists.
  - done.
Qed.

Lemma reachable_inv w s : calm w -> rtc (program_step c t co n) (init w) s -> inv s.
Proof.
  intros Hc. apply (rtc_invariant _ inv).
  - intros s1 s2 Hs [a E]. destruct (race_step_good a s1 _ Hs E) as (s' & [= <-] & Hs' & _). done.
  - apply InvStart. cbn. repeat split; [lia|done].
Qed.

Lemma race_ends s : inv s ->
  (forall a r, step c t co n a s = Some r -> exists s', r = Ret s') /\
  sn (program_step c t co n) s /\
  (nf (program_step c t co n) s -> main s = Returned /\ out s = n /\ clean (w s)).
Proof.
  intros Hs. split; [|split].
  - intros a r E. destruct (race_step_good a s r Hs E) as (s' & -> & _). by exists s'.
  - revert s Hs. apply (sn_measure _ _ measure). intros s1 s2 Hs [a E].
    by destruct (race_step_good a s1 _ Hs E) as (s' & [= <-] & Hs' & Hlt).
  - intros Hnf. assert (main s = Returned) as Em.
    { destruct (main s) eqn:Em; try done; exfalso; (destruct (race_progress s Hs) as (a & r & E); [by rewrite Em|]);
        destruct (race_step_good a s r Hs E) as (s' & -> & _); apply Hnf; exists s'; by exists a. }
    destruct Hs; cbn in Em; try done; destruct_or!; naive_solver.
Qed.
End Safe.

(** ** From the start of [main] *)

Section Main.
Context {K} `{L : PoolLaws K events tp_timers}.

(** [main] has constructed its context, and [start_timer] its timer; no other
    timer of the system is due. *)
Context (c t co : addr) (k : K) (w0 w1 : PoolTimer.world K) (x : io_context).
Context (constructed : construct_context c 1 (World k ∅ ∅) = (Ret tt, w0)) (is_context : contexts w0 !! c = Some x).
Context (timer_constructed : construct t c (2 * 10 ^ 9) w0 = (Ret tt, w1)).
Context (others_idle : forall y v, tp_timers k !! y = Some v -> armed v = false).

(** C30. However the two threads interleave, no step of them touches a timer, a
    context or a frame that is gone; the program ends, after [n_reps] lines,
    and leaves nothing behind: [wait_close()] keeps [main] from destroying the
    task while the last callback is in it. *)
Theorem pool_race_safe n_reps s :
  shutdown_event x <> None -> rtc (program_step c t co n_reps) (init w1) s ->
  (forall a r, step c t co n_reps a s = Some r -> exists s', r = Ret s') /\
  sn (program_step c t co n_reps) s /\
  (nf (program_step c t co n_reps) s ->
    main s = Returned /\ out s = n_reps /\ tp_timers (kern (w s)) = tp_timers k /\ events (kern (w s)) = events k /\
    timers (w s) !! t = None /\ contexts (w s) !! c = None).
Proof.
  intros He Hr. destruct (construct_context_spec c x _ _ 1 k w0 constructed is_context eq_refl eq_refl) as (T & V & U & Hf & Hg).
  pose proof (construct_unset c x _ _ t _ w0 w1 timer_constructed is_context V U) as Hc.
  destruct (race_ends c t co n_reps x _ _ others_idle He Hf Hg s) as (Hok & Hsn & Hnf); [by eapply reachable_inv|].
  split; [done|]. split; [done|]. intros (Em & Eo & Hclean)%Hnf. unfold clean in Hclean. tauto.
Qed.
End Main.

(** *** Witness: the threads take turns. *)

Lemma exec_steps {K} `{PoolKernel K} c t co n_reps l (s : state K) :
  rtc (program_step c t co n_reps) s (exec (step c t co n_reps) l s).
Proof. apply exec_rtc. intros a s1 s2 E. by exists a. Qed.

Lemma halted_nf {K} `{PoolKernel K} c t co n_reps (s : state K) :
  (forall a, step c t co n_reps a s = None) -> nf (program_step c t co n_reps) s.
Proof. intros Hs [s' [a E]]. by rewrite Hs in E. Qed.

Definition demo_start : state demo_pool := init (demo_timer (demo0 false false)).
Definition turns (m : nat) : list agent := concat (replicate m [Main; Pool]).

(** [main] is past [ioc.run()] while the callback has its timer to destroy. *)
Example pool_race_overlap :
  let s := exec (step 1%positive 2%positive 3%positive 3) (turns 13 ++ [Main]) demo_start in main s = Closing /\ pool s = Resumed Scope.
Proof. split; vm_compute; reflexivity. Qed.

Lemma pool_race_safe_witness :
  let s := exec (step 1%positive 2%positive 3%positive 3) (turns 30) demo_start in
  main s = Returned /\ out s = 3%nat /\ tps (kern (w s)) = ∅ /\ evs (kern (w s)) = ∅.
Proof.
  set (s := exec (step 1%positive 2%positive 3%positive 3) (turns 30) demo_start).
  assert (nf (program_step 1%positive 2%positive 3%positive 3) s ->
    main s = Returned /\ out s = 3%nat /\ tps (kern (w s)) = ∅ /\ evs (kern (w s)) = ∅ /\
    timers (w s) !! 2%positive = None /\ contexts (w s) !! 1%positive = None) as Hnf.
  { eapply (pool_race_safe (events := evs) (tp_timers := tps) 1%positive 2%positive 3%positive (demo0 false false)
      (demo_context (demo0 false false)) (demo_timer (demo0 false false)) (IoContext 1%positive 1%positive (Some 1%positive)));
      [by vm_compute..|done|done|apply exec_steps]. }
  destruct Hnf as (Hm & Ho & Ht & He & _); [apply halted_nf; intros []; vm_compute; reflexivity|].
  exact (conj Hm (conj Ho (conj Ht He))).
Defined.
End PoolRace.

Module VanillaRace.
Import TimerLoop PoolTimer.

(** ** vanilla.cpp *)

Record timer_context := TimerContext { count : Z; max_count : Z; shutdown_handle : ptr }.

(** [main] in [ioc.run()], in the destructor of [ioc] *)
Inductive main_pc := Waiting | DestroyContext | Returned.

(** The pool's thread: no callback; [on_timer_expiration] for the timer [t],
    before [puts], before the counter, before [SetEvent] or
    [SetThreadpoolTimer], before its return. *)
Inductive pool_pc := Idle | Puts (t : addr) | Count (t : addr) | SignalEvent | SetTimer (t : addr) | Leaving.

Section Program.
Context {K} `{PoolKernel K} (c ctx : addr).

(** [timer_ctx] is the object at [ctx], on [main]'s stack. *)
Record state := State { w : PoolTimer.world K; main : main_pc; pool : pool_pc; timer_ctx : option timer_context; out : nat }.

Definition set_main (m : main_pc) (s : state) : state := State (w s) m (pool s) (timer_ctx s) (out s).
Definition set_pool (p : pool_pc) (s : state) : state := State (w s) (main s) p (timer_ctx s) (out s).
Definition set_w (w' : PoolTimer.world K) (s : state) : state := State w' (main s) (pool s) (timer_ctx s) (out s).

(** [main] behind the setting of the timer: [ctx] goes out of scope before
    [ioc]. *)
Definition main_step (s : state) : option (outcome state) :=
  match main s with
  | Waiting =>
    match run_returns c (w s) with
    | Ret false => None
    | r => Some (_ ← r; Ret (State (w s) DestroyContext (pool s) None (out s)))
    end
  | DestroyContext =>
    match pool s with Idle => Some (w' ← destroy_context c (w s); Ret (set_main Returned (set_w w' s))) | _ => None end
  | Returned => None
  end.

(** [on_timer_expiration(_, p, t)]; the counter has 32 bits. *)
Definition pool_step (s : state) : option (outcome state) :=
  match pool s with
  | Idle =>
    match next_callback (kern (w s)) with
    | None => None
    | Some (p, t, k) =>
      Some (if decide (p = ctx) then Ret (set_pool (Puts t) (set_w (set_kern k (w s)) s)) else Fault WildPointer)
    end
  | Puts t => Some (Ret (State (w s) (main s) (Count t) (timer_ctx s) (S (out s))))
  | Count t => Some (
      x ← or_fault Dangling (timer_ctx s);
      let n := u32 (count x + 1) in
      Ret (State (w s) (main s) (if decide (max_count x <= n) then SignalEvent else SetTimer t)
        (Some (TimerContext n (max_count x) (shutdown_handle x))) (out s)))
  | SignalEvent => Some (
      x ← or_fault Dangling (timer_ctx s);
      Ret (set_pool Leaving (match shutdown_handle x with
        | Some e => set_w (set_kern (SetEvent e (kern (w s))) (w s)) s | None => s end)))
  | SetTimer t => Some (
      k ← or_fault Dangling (SetThreadpoolTimer t (timeout_to_filetime (2 * 10 ^ 9)) (kern (w s)));
      Ret (set_pool Leaving (set_w (set_kern k (w s)) s)))
  | Leaving => Some (Ret (set_pool Idle s))
  end.

Inductive agent := Main | Pool.
Definition step (a : agent) : state -> option (outcome state) := match a with Main => main_step | Pool => pool_step end.

Inductive program_step (s s' : state) : Prop :=
| program_step_intro a : step a s = Some (Ret s') -> program_step s s'.

(** [main] up to [ioc.run()] *)
Definition start (max : Z) (k : K) : outcome state :=
  let '(r, w) := construct_context c 1 (World k ∅ ∅) in
  _ ← r;
  x ← or_fault Dangling (contexts w !! c);
  let '(timer_obj, k) := CreateThreadpoolTimer ctx (PoolTimer.pool x) (cleanup_group x) (kern w) in
  match timer_obj with
  | None => Raise (SystemError (GetLastError k))
  | Some h =>
    k ← or_fault Dangling (SetThreadpoolTimer h (timeout_to_filetime (2 * 10 ^ 9)) k);
    Ret (State (set_kern k w) Waiting Idle (Some (TimerContext 0 max (shutdown_event x))) 0)
  end.
End Program.
Arguments state : clear implicits.

Section Safe.
Context {K} `{L : PoolLaws K events tp_timers}.
Implicit Types w : PoolTimer.world K.
Implicit Types s : state K.

Context (c ctx h e : addr) (max : Z) (x : io_context) (base : gmap addr timer_view) (base_events : gmap addr bool).
Context (base_idle : forall y v, base !! y = Some v -> armed v = false).
Context (max_range : 0 <= max < 2 ^ 32).
Context (is_event : shutdown_event x = Some e) (fresh_event : base_events !! e = None) (fresh_timer : base !! h = None).
Context (other_groups : filter (fun y => group (snd y) <> cleanup_group x) base = base).

(** The number of expirations: the callback counts before it compares. *)
Definition total : nat := Z.to_nat (Z.max 1 max).

(** The pool's timer is set or not, the event is set or not. *)
Record holds (a b : bool) w : Prop := {
  holds_context : contexts w !! c = Some x;
  holds_timers : tp_timers (kern w) = <[h := TimerView ctx (cleanup_group x) a]> base;
  holds_events : events (kern w) = <[e := b]> base_events;
}.

Definition counted (j : nat) : option timer_context := Some (TimerContext (Z.of_nat j) max (Some e)).
Definition clean w : Prop := tp_timers (kern w) = base /\ events (kern w) = base_events /\ contexts w !! c = None.

Inductive inv : state K -> Prop :=
| InvArmed w p j : p = Idle \/ p = Leaving -> (j < total)%nat -> holds true false w -> inv (State w Waiting p (counted j) j)
| InvPuts w j : (j < total)%nat -> holds false false w -> inv (State w Waiting (Puts h) (counted j) j)
| InvCount w j : (j < total)%nat -> holds false false w -> inv (State w Waiting (Count h) (counted j) (S j))
| InvSetTimer w j : (j < total)%nat -> holds false false w -> inv (State w Waiting (SetTimer h) (counted j) j)
| InvSignal w : holds false false w -> inv (State w Waiting SignalEvent (counted total) total)
| InvOver w m p o : (m = Waiting /\ o = counted total) \/ (m = DestroyContext /\ o = None) -> p = Idle \/ p = Leaving ->
    holds false true w -> inv (State w m p o total)
| InvReturned w : clean w -> inv (State w Returned Idle None total).

Definition left (s : state K) : nat := match timer_ctx s with Some y => total - Z.to_nat (count y) | None => 0 end.
Definition measure (s : state K) : nat :=
  match main s with Waiting => 2 | DestroyContext => 1 | Returned => 0 end +
  match pool s with
  | Idle => 6 * left s | Leaving => 6 * left s + 1 | SetTimer _ | SignalEvent => 6 * left s + 2
  | Count _ => 6 * left s - 2 | Puts _ => 6 * left s - 1
  end.

Definition good (s : state K) (r : outcome (state K)) : Prop := exists s', r = Ret s' /\ inv s' /\ (measure s' < measure s)%nat.

Lemma left_counted w m p j o : left (State w m p (counted j) o) = (total - j)%nat.
Proof. unfold left, counted. cbn. by rewrite Nat2Z.id. Qed.

Lemma total_pos : (0 < total)%nat.
Proof. unfold total. lia. Qed.

Lemma holds_returns a b w : holds a b w -> run_returns c w = Ret b.
Proof.
  intros [C V U]. apply (run_returns_spec (events := events) (tp_timers := tp_timers) c x base_events); [done|congruence|].
  unfold with_event. by rewrite is_event.
Qed.

Lemma armed_fires w : holds true false w ->
  exists k, next_callback (kern w) = Some (ctx, h, k) /\ holds false false (set_kern k w).
Proof.
  intros [C V U]. destruct (law_next_returns (kern w) h (TimerView ctx (cleanup_group x) true)) as [[[y z] k] En];
    [rewrite V; apply lookup_insert_eq|done|]. destruct (law_next _ _ _ _ En) as (Uk & v & Hv & Ha & Hy & Vk).
  assert (z = h /\ v = TimerView ctx (cleanup_group x) true) as [-> ->].
  { rewrite V, lookup_insert_Some in Hv. destruct Hv as [[-> <-]|[_ Hv]]; [done|]. by rewrite (base_idle _ _ Hv) in Ha. }
  cbn in Hy. subst y. exists k. split; [done|]. split; cbn; [done| |congruence]. by rewrite Vk, V, insert_insert_eq.
Qed.

Lemma unarmed_silent b w : holds false b w -> next_callback (kern w) = None.
Proof.
  intros [C V U]. destruct (next_callback (kern w)) as [[[p y] k']|] eqn:E; [|done].
  destruct (law_next (kern w) p y k' E) as (_ & v & Hv & Ha & _).
  rewrite V, lookup_insert_Some in Hv. destruct Hv as [[_ <-]|[_ Hv]]; [done|]. by rewrite (base_idle y v Hv) in Ha.
Qed.

Lemma sets_timer w : holds false false w ->
  exists k, SetThreadpoolTimer h (timeout_to_filetime (2 * 10 ^ 9)) (kern w) = Some k /\ holds true false (set_kern k w).
Proof.
  intros [C V U]. destruct (law_set h (timeout_to_filetime (2 * 10 ^ 9)) (kern w) (TimerView ctx (cleanup_group x) false)) as (k & E & U2 & V2);
    [rewrite V; apply lookup_insert_eq|]. exists k. split; [done|]. split; cbn; [done| |congruence]. by rewrite V2, V, insert_insert_eq.
Qed.

Lemma sets_event w : holds false false w -> holds false true (set_kern (SetEvent e (kern w)) w).
Proof. intros [C V U]. destruct (law_set_event e (kern w)) as [V2 U2]. split; cbn; [done|congruence|]. by rewrite U2, U, alter_insert_eq. Qed.

Lemma destroys w : holds false true w -> exists w', destroy_context c w = Ret w' /\ clean w'.
Proof.
  intros [C V U]. destruct (destroy_context_spec (events := events) (tp_timers := tp_timers) c x base_events w true C)
    as (w' & E & C' & T' & U' & V').
  { unfold with_event. by rewrite is_event. }
  { intros e' Ee. congruence. }
  exists w'. split; [done|]. unfold clean. rewrite C', U', V', V, lookup_delete_eq.
  rewrite map_filter_insert_False by (intros []; done). by rewrite delete_id, other_groups.
Qed.

Lemma counts w j : (j < total)%nat -> holds false false w ->
  good (State w Waiting (Count h) (counted j) (S j))
    (Ret (State w Waiting (if decide (max <= u32 (Z.of_nat j + 1)) then SignalEvent else SetTimer h)
      (Some (TimerContext (u32 (Z.of_nat j + 1)) max (Some e))) (S j))).
Proof.
  intros Hlt Hh. pose proof Hlt as Hlt'. unfold total in Hlt'. rewrite u32_small by lia.
  replace (Z.of_nat j + 1) with (Z.of_nat (S j)) by lia. fold (counted (S j)). eexists. split; [done|].
  unfold measure. rewrite !left_counted. cbn [main pool]. case_decide.
  - assert (S j = total) as -> by (unfold total; lia). split; [by apply InvSignal|lia].
  - split; [|lia]. apply InvSetTimer; [unfold total; lia|done].
Qed.

Lemma vanilla_main_good s r : inv s -> main_step c s = Some r -> good s r.
Proof.
  intros Hs E. unfold main_step in E.
  destruct Hs as [w p j Hp Hlt Hh|w j Hlt Hh|w j Hlt Hh|w j Hlt Hh|w Hh|w m p o Hm Hp Hh|w Hc];
    cbn [main pool VanillaRace.w timer_ctx out] in E; try done; try (by rewrite (holds_returns _ _ w Hh) in E).
  destruct Hm as [[-> ->]|[-> ->]]; cbn in E.
  - rewrite (holds_returns _ _ w Hh) in E. injection E as <-. eexists. split; [done|]. split; [apply InvOver; auto|].
    unfold measure. rewrite left_counted. unfold left. cbn. destruct Hp as [->| ->]; lia.
  - destruct Hp as [->| ->]; [|done]. injection E as <-. destruct (destroys w Hh) as (w' & -> & Hc). run_bind.
    eexists. split; [done|]. split; [by apply InvReturned|cbn; lia].
Qed.

Lemma vanilla_pool_good s r : inv s -> pool_step ctx s = Some r -> good s r.
Proof.
  intros Hs E. unfold pool_step in E.
  destruct Hs as [w p j Hp Hlt Hh|w j Hlt Hh|w j Hlt Hh|w j Hlt Hh|w Hh|w m p o Hm Hp Hh|w (V & U & C)];
    cbn [main pool VanillaRace.w timer_ctx out] in E.
  - destruct Hp as [->| ->].
    + destruct (armed_fires w Hh) as (k & En & Hk). rewrite En, decide_True in E by done. injection E as <-.
      eexists. split; [done|]. split; [by apply InvPuts|]. unfold measure, set_pool, set_w. cbn [main pool timer_ctx VanillaRace.w out].
      rewrite !left_counted. lia.
    + injection E as <-. eexists. split; [done|]. split; [apply InvArmed; auto|]. unfold measure, set_pool. cbn [main pool timer_ctx VanillaRace.w out].
      rewrite !left_counted. lia.
  - injection E as <-. eexists. split; [done|]. split; [by apply InvCount|]. unfold measure. rewrite !left_counted. cbn [main pool]. lia.
  - injection E as <-. by apply counts.
  - destruct (sets_timer w Hh) as (k & Ek & Hk). rewrite Ek in E. injection E as <-. eexists. split; [done|].
    split; [apply InvArmed; auto|]. unfold measure, set_pool, set_w. cbn [main pool timer_ctx VanillaRace.w out].
    rewrite !left_counted. lia.
  - injection E as <-. eexists. split; [done|]. split; [apply InvOver; [by left|by right|by apply sets_event]|].
    unfold measure, set_pool, set_w. cbn [main pool timer_ctx VanillaRace.w out]. rewrite !left_counted. lia.
  - destruct Hp as [->| ->]; cbn in E.
    + by rewrite (unarmed_silent _ w Hh) in E.
    + injection E as <-. eexists. split; [done|]. split; [apply InvOver; auto|].
      unfold measure, left, set_pool. cbn. lia.
  - destruct (next_callback (kern w)) as [[[y z] k]|] eqn:En; [|done].
    destruct (law_next _ _ _ _ En) as (_ & v & Hv & Ha & _). rewrite V in Hv. by rewrite (base_idle _ _ Hv) in Ha.
Qed.

Lemma vanilla_step_good a s r : inv s -> step c ctx a s = Some r -> good s r.
Proof. destruct a; [apply vanilla_main_good|apply vanilla_pool_good]. Qed.

Lemma vanilla_progress s : inv s -> main s <> Returned -> exists a r, step c ctx a s = Some r.
Proof.
  intros [w p j Hp Hlt Hh|w j Hlt Hh|w j Hlt Hh|w j Hlt Hh|w Hh|w m p o Hm Hp Hh|w Hc] Hne; try done; try (by exists Pool; eexists).
  - exists Pool. cbn. unfold pool_step. cbn. destruct Hp as [->| ->]; [|by eexists].
    destruct (armed_fires w Hh) as (k & -> & _). by eexists.
  - destruct Hp as [->| ->]; [|by exists Pool; eexists]. exists Main. cbn. unfold main_step. cbn.
    destruct Hm as [[-> _]|[-> _]]; [rewrite (holds_returns _ _ w Hh)|]; by eexists.
Qed.

Lemma vanilla_reachable_inv s1 s2 : inv s1 -> rtc (program_step c ctx) s1 s2 -> inv s2.
Proof.
  apply (rtc_invariant _ inv). intros s s' Hs [a E]. by destruct (vanilla_step_good a s _ Hs E) as (s'' & [= <-] & Hs' & _).
Qed.

Lemma vanilla_ends s : inv s ->
  (forall a r, step c ctx a s = Some r -> exists s', r = Ret s') /\
  sn (program_step c ctx) s /\
  (nf (program_step c ctx) s -> main s = Returned /\ out s = total /\ clean (w s)).
Proof.
  intros Hs. split; [|split].
  - intros a r E. destruct (vanilla_step_good a s r Hs E) as (s' & -> & _). by exists s'.
  - revert s Hs. apply (sn_measure _ _ measure). intros s1 s2 Hs [a E].
    by destruct (vanilla_step_good a s1 _ Hs E) as (s' & [= <-] & Hs' & Hlt).
  - intros Hnf. assert (main s = Returned) as Em.
    { destruct (main s) eqn:Em; try done; exfalso; (destruct (vanilla_progress s Hs) as (a & r & E); [by rewrite Em|]);
        destruct (vanilla_step_good a s r Hs E) as (s' & -> & _); apply Hnf; exists s'; by exists a. }
    destruct Hs; cbn in Em; try done; naive_solver.
Qed.
End Safe.

(** However the two threads interleave, [vanilla.cpp] ends after
    [max(1, max_count)] lines - the callback counts before it compares -, no
    callback looks at [ctx] after its scope, and nothing is left behind: the
    destructor of [ioc] waits for the callback that has set the event. *)
Theorem pool_vanilla_race_safe {K} `{L : PoolLaws K events tp_timers} c ctx max (k : K) s0 s :
  0 <= max < 2 ^ 32 -> (forall y v, tp_timers k !! y = Some v -> armed v = false) ->
  start c ctx max k = Ret s0 -> (forall y, timer_ctx s0 = Some y -> shutdown_handle y <> None) ->
  rtc (program_step c ctx) s0 s ->
  (forall a r, step c ctx a s = Some r -> exists s', r = Ret s') /\
  sn (program_step c ctx) s /\
  (nf (program_step c ctx) s ->
    main s = Returned /\ out s = Z.to_nat (Z.max 1 max) /\ tp_timers (kern (w s)) = tp_timers k /\
    events (kern (w s)) = events k /\ contexts (w s) !! c = None).
Proof.
  intros Hm Hidle E He Hr. unfold start in E. destruct (construct_context c 1 (World k ∅ ∅)) as [[[]| | |] w0] eqn:Ec; [|discriminate E..].
  revert E. run_bind. destruct (contexts w0 !! c) as [x|] eqn:Ex; [|done]. cbn [or_fault]. run_bind.
  destruct (construct_context_spec c x _ _ 1 k w0 Ec Ex eq_refl eq_refl) as (T & V & U & Hf & Hg).
  destruct (CreateThreadpoolTimer ctx (PoolTimer.pool x) (cleanup_group x) (kern w0)) as [[h|] k1] eqn:Et; [|done].
  destruct (law_timer ctx (PoolTimer.pool x) (cleanup_group x) (kern w0) (Some h) k1 Et) as (U1 & Hn & V1).
  destruct (law_set h (timeout_to_filetime (2 * 10 ^ 9)) k1 (TimerView ctx (cleanup_group x) false)) as (k2 & -> & U2 & V2);
    [rewrite V1; apply lookup_insert_eq|]. cbn [or_fault]. run_bind. intros [= <-].
  destruct (shutdown_event x) as [e|] eqn:Ee; [|by destruct (He _ eq_refl)].
  assert (inv (events := events) (tp_timers := tp_timers) c ctx h e max x (tp_timers k) (events k) s) as Hs.
  { eapply (vanilla_reachable_inv (L := L)); [exact Hidle|exact Hm|exact Ee|by apply Hf|congruence|done| |exact Hr].
    apply (InvArmed _ _ _ _ _ _ _ _ _ Idle 0%nat); [by left|apply total_pos|]. split; cbn; [done| |].
    - by rewrite V2, V1, insert_insert_eq, V.
    - rewrite U2, U1, U. unfold with_event. by rewrite Ee. }
  destruct (vanilla_ends (L := L) c ctx h e max x (tp_timers k) (events k) Hidle Hm Ee) with (s := s) as (Hok & Hsn & Hnf);
    [by apply Hf|congruence|done|done|].
  split; [done|]. split; [done|]. intros (Em & Eo & Hc1 & Hc2 & Hc3)%Hnf. done.
Qed.

(** *** Witness *)

Definition demo_start : state demo_pool :=
  match start 1%positive 2%positive 3 (demo0 false false) with Ret s => s | _ => State (World (demo0 false false) ∅ ∅) Returned Idle None 0 end.
Definition turns (m : nat) : list agent := concat (replicate m [Main; Pool]).

Example vanilla_race_overlap :
  let s := exec (step 1%positive 2%positive) (turns 14 ++ [Main]) demo_start in
  main s = DestroyContext /\ pool s = Leaving /\ timer_ctx s = None.
Proof. repeat split; vm_compute; reflexivity. Qed.

Lemma pool_vanilla_race_safe_witness :
  let s := exec (step 1%positive 2%positive) (turns 30) demo_start in
  main s = Returned /\ out s = 3%nat /\ tps (kern (w s)) = ∅ /\ evs (kern (w s)) = ∅.
Proof.
  set (s := exec (step 1%positive 2%positive) (turns 30) demo_start).
  destruct (pool_vanilla_race_safe (events := evs) (tp_timers := tps) 1%positive 2%positive 3 (demo0 false false) demo_start s)
    as (_ & _ & Hnf).
  - lia.
  - done.
  - vm_compute. reflexivity.
  - intros y. vm_compute. by intros [= <-].
  - apply exec_rtc. intros a s1 s2 E. by exists a.
  - destruct Hnf as (Hm & Ho & Ht & He & _); [intros [s' [[] E]]; vm_compute in E; discriminate E|].
    exact (conj Hm (conj Ho (conj Ht He))).
Defined.
End VanillaRace.
