(* ===== verification/NixPipe.v ===== *)
(** * NixPipe: applications/pipes/nix-pipe/

    [io_context.hpp] (the epoll reactor), [ioc_awaiter_base.hpp],
    [readable_pipe.hpp], [writeable_pipe.hpp] and [pipe.hpp]. The system calls
    are the class [PipeKernel]; [PipeLaws] is what their manual pages promise,
    over a view of the kernel: the open epoll instances, and for each open
    descriptor the instances it is registered with. Coroutines are the clients':
    the reactor is a function of what resuming a handle does. *)

From S2P Require Import Prelude.
Local Open Scope Z_scope.

Module NixPipe.

(** ** The system calls *)

Definition EPOLLIN : Z := 0x1.
Definition EPOLLOUT : Z := 0x4.
Definition EPOLLERR : Z := 0x8.
Definition EPOLLHUP : Z := 0x10.
Definition EAGAIN : Z := 11.
Definition ENOENT : Z := 2.
Definition EBADF : Z := 9.

(** [epoll_wait] returns the events that it has stored, or blocks for ever;
    what other threads do to the descriptors happens inside it. *)
Class PipeKernel (K : Type) := {
  epoll_create1 : K -> Z * K;
  pipe2 : K -> Z * (Z * Z) * K;
  epoll_ctl_add : Z -> Z -> Z -> ptr -> K -> Z * K;
  epoll_ctl_mod : Z -> Z -> Z -> ptr -> K -> Z * K;
  epoll_ctl_del : Z -> Z -> K -> Z * K;
  epoll_wait : Z -> Z -> K -> option (Z * list (Z * ptr) * K);
  read : Z -> Z -> K -> Z * K;
  write : Z -> Z -> K -> Z * K;
  close_fd : Z -> K -> K;
  errno : K -> Z;
}.

Section Program.
Context {K} `{PipeKernel K}.

(** ** Data *)

Inductive io_interest := interest_read | interest_write.

Record io_context := IoContext { max_events : Z; instance : Z }.

(** [readable_pipe] and [writeable_pipe] have the same members but for a
    pointer of the latter that nothing uses; [ioc] is the address of the
    context. *)
Record pipe_end := Pipe { interest : io_interest; fd : Z; ioc : addr }.

(** The awaiter of [read_some] or [write_some], with its base; [None] is a
    member that has not been initialised. Its context is that of the pipe: it is
    awaited in the expression that makes it. *)
Record awaiter := Awaiter {
  me : addr;
  len : option Z;
  bytes_xfer : option Z;
  awaiting_coro : ptr;
  error_code : option Z;
}.

Record world := World {
  kern : K;
  contexts : gmap addr io_context;
  pipes : gmap addr pipe_end;
  awaiters : gmap addr awaiter;
}.

Definition set_kern (k : K) (w : world) : world := World k (contexts w) (pipes w) (awaiters w).
Definition set_context (a : addr) (c : io_context) (w : world) : world :=
  World (kern w) (<[a := c]> (contexts w)) (pipes w) (awaiters w).
Definition set_pipe (a : addr) (p : pipe_end) (w : world) : world :=
  World (kern w) (contexts w) (<[a := p]> (pipes w)) (awaiters w).
Definition set_awaiter_at (a : addr) (x : awaiter) (w : world) : world :=
  World (kern w) (contexts w) (pipes w) (<[a := x]> (awaiters w)).

(** An operation that may throw part of the way keeps the state it has
    reached. *)
Abbreviation result A := (outcome A * world)%type.

(** A destructor is noexcept: an exception that leaves it ends the program. *)
Definition noexcept {A} (r : outcome A) : outcome A :=
  match r with Raise _ => Fault Terminated | _ => r end.

(** ** io_context *)

Definition construct_context (a : addr) (max_events_ : Z) (w : world) : result unit :=
  if decide (max_events_ < 1) then (Raise (RuntimeError "invalid max_events count specified"), w)
  else
    let '(epoll_instance, k) := epoll_create1 (kern w) in
    let w := set_kern k w in
    if decide (epoll_instance = -1) then (Raise (SystemError (errno k)), w)
    else (Ret tt, set_context a (IoContext max_events_ epoll_instance) w).

Definition destroy_context (a : addr) (w : world) : outcome world :=
  c ← or_fault DoubleDestroy (contexts w !! a);
  let k := if decide (instance c <> -1) then close_fd (instance c) (kern w) else kern w in
  Ret (World k (delete a (contexts w)) (pipes w) (awaiters w)).

(** The move constructor, for a new object at [a] *)
Definition move_context (a src : addr) (w : world) : outcome world :=
  c ← or_fault Dangling (contexts w !! src);
  Ret (set_context src (IoContext (max_events c) (-1)) (set_context a c w)).

Definition move_assign_context (a src : addr) (w : world) : outcome world :=
  if decide (src <> a) then
    m ← or_fault Dangling (contexts w !! a);
    c ← or_fault Dangling (contexts w !! src);
    Ret (set_context src (IoContext (max_events c) (-1)) (set_context a (IoContext (max_events m) (instance c)) w))
  else Ret w.

Definition event_flags (i : io_interest) : Z :=
  match i with interest_read => EPOLLIN | interest_write => EPOLLOUT end.

Definition register_handle (c : io_context) (fd : Z) (i : io_interest) (w : world) : result unit :=
  let '(res, k) := epoll_ctl_add (instance c) fd (event_flags i) null (kern w) in
  (if decide (res = -1) then Raise (SystemError (errno k)) else Ret tt, set_kern k w).

Definition unregister_handle (c : io_context) (fd : Z) (w : world) : result unit :=
  let '(res, k) := epoll_ctl_del (instance c) fd (kern w) in
  (if decide (res = -1 /\ errno k <> ENOENT) then Raise (SystemError (errno k)) else Ret tt, set_kern k w).

(** [ev] is value-initialised and only its pointer is set. *)
Definition set_awaiter (c : io_context) (fd : Z) (awaiter : addr) (w : world) : result unit :=
  let '(res, k) := epoll_ctl_mod (instance c) fd 0 (Some awaiter) (kern w) in
  (if decide (res = -1) then Raise (SystemError (errno k)) else Ret tt, set_kern k w).

(** ** ioc_awaiter_base *)

(** [io_ready_callback], up to the handle that it resumes *)
Definition io_ready_callback (awaiter_base : ptr) (error_code : Z) (w : world) : outcome (addr * world) :=
  x ← deref (awaiters w) awaiter_base;
  a ← or_fault NullDeref awaiter_base;
  h ← or_fault NullDeref (awaiting_coro x);
  Ret (h, set_awaiter_at a (Awaiter (me x) (len x) (bytes_xfer x) (awaiting_coro x) (Some error_code)) w).

(** ** The reactor *)
Section Reactor.
Context (resume : addr -> world -> outcome world).

Definition process_event (event : Z * ptr) (w : world) : outcome world :=
  let '(events, p) := event in
  if decide (Z.land events EPOLLIN <> 0 \/ Z.land events EPOLLOUT <> 0) then
    '(h, w) ← io_ready_callback p 0 w; resume h w
  else if decide (Z.land events (Z.lor EPOLLHUP EPOLLERR) <> 0) then
    '(h, w) ← io_ready_callback p 1 w; resume h w
  else Ret w.

Fixpoint process_n_events (events : list (Z * ptr)) (w : world) : outcome world :=
  match events with
  | [] => Ret w
  | event :: events => w ← process_event event w; process_n_events events w
  end.

(** The body of the loop of [process_events]; blocking for ever is
    divergence. *)
Definition process_turn (a : addr) (w : world) : outcome world :=
  c ← or_fault Dangling (contexts w !! a);
  match epoll_wait (instance c) (max_events c) (kern w) with
  | None => Diverged
  | Some (n_ready, events, k) =>
    if decide (n_ready = -1) then Raise (SystemError (errno k))
    else process_n_events events (set_kern k w)
  end.

(** [process_events] has no exit: it ends with an exception or not at all. *)
Fixpoint process_events (fuel : nat) (a : addr) (w : world) : outcome world :=
  match fuel with O => Diverged | S fuel => w ← process_turn a w; process_events fuel a w end.
End Reactor.

(** ** The pipes *)

(** A constructor; when it throws there is no object, and nobody closes the
    descriptor. *)
Definition construct_pipe (i : io_interest) (a : addr) (fd_ : Z) (ioc_ : addr) (w : world) : result unit :=
  match contexts w !! ioc_ with
  | None => (Fault Dangling, w)
  | Some c =>
    let '(r, w) := register_handle c fd_ i w in
    match r with Ret _ => (Ret tt, set_pipe a (Pipe i fd_ ioc_) w) | _ => (r, w) end
  end.

(** [close()]; that of [readable_pipe] also resets [fd]. *)
Definition close (a : addr) (w : world) : result unit :=
  match pipes w !! a with
  | None => (Fault Dangling, w)
  | Some p =>
    match contexts w !! ioc p with
    | None => (Fault Dangling, w)
    | Some c =>
      let '(r, w) := unregister_handle c (fd p) w in
      match r with
      | Ret _ =>
        let w := set_kern (close_fd (fd p) (kern w)) w in
        (Ret tt, match interest p with
                 | interest_read => set_pipe a (Pipe (interest p) (-1) (ioc p)) w
                 | interest_write => w
                 end)
      | _ => (r, w)
      end
    end
  end.

Definition close_if_open (a : addr) (w : world) : result unit :=
  match pipes w !! a with
  | None => (Fault Dangling, w)
  | Some p => if decide (fd p <> -1) then close a w else (Ret tt, w)
  end.

Definition destroy_pipe (a : addr) (w : world) : outcome world :=
  let '(r, w) := close_if_open a w in
  _ ← noexcept r; Ret (World (kern w) (contexts w) (delete a (pipes w)) (awaiters w)).

Definition release (p : pipe_end) : pipe_end := Pipe (interest p) (-1) (ioc p).

(** The move constructor, for a new object at [a] *)
Definition move_pipe (a src : addr) (w : world) : outcome world :=
  p ← or_fault Dangling (pipes w !! src);
  Ret (set_pipe src (release p) (set_pipe a p w)).

Definition move_assign_pipe (a src : addr) (w : world) : result unit :=
  if decide (src <> a) then
    let '(r, w) := close_if_open a w in
    match r with
    | Ret _ =>
      match pipes w !! src with
      | None => (Fault Dangling, w)
      | Some p => (Ret tt, set_pipe src (release p) (set_pipe a p w))
      end
    | _ => (r, w)
    end
  else (Ret tt, w).

(** [make_pipe(ioc)]: the temporaries at [r0] and [w0], made in this order (the
    language leaves it open), are moved into the pair at [r] and [wr] and destroyed. When the second constructor throws the first
    temporary is destroyed. *)
Definition make_pipe (ioc_ r0 w0 r wr : addr) (w : world) : result unit :=
  let '(res, (fd0, fd1), k) := pipe2 (kern w) in
  let w := set_kern k w in
  if decide (res = -1) then (Raise (SystemError (errno k)), w)
  else
    let '(x, w) := construct_pipe interest_read r0 fd0 ioc_ w in
    match x with
    | Ret _ =>
      let '(x, w) := construct_pipe interest_write w0 fd1 ioc_ w in
      match x with
      | Ret _ =>
        match (w ← move_pipe r r0 w; w ← move_pipe wr w0 w; w ← destroy_pipe w0 w; destroy_pipe r0 w) with
        | Ret w => (Ret tt, w)
        | y => ((fun _ => tt) <$> y, w)
        end
      | Raise e =>
        match destroy_pipe r0 w with Ret w => (Raise e, w) | y => ((fun _ => tt) <$> y, w) end
      | _ => (x, w)
      end
    | _ => (x, w)
    end.

(** ** read_some and write_some *)

(** [read_some(buffer, len)] and [write_some(buffer, len)], the awaiter at
    [x]: its constructor initialises [len] with itself and not with the
    argument, so the length stays indeterminate. *)
Definition read_some (a x : addr) (len_ : Z) (w : world) : world :=
  set_awaiter_at x (Awaiter a None None null None) w.
Definition write_some (a x : addr) (len_ : Z) (w : world) : world :=
  set_awaiter_at x (Awaiter a None None null None) w.

(** What both [await_suspend] begin with *)
Definition enlist (x h : addr) (w : world) : result unit :=
  match awaiters w !! x with
  | None => (Fault Dangling, w)
  | Some y =>
    let w := set_awaiter_at x (Awaiter (me y) (len y) (bytes_xfer y) (Some h) (error_code y)) w in
    match pipes w !! me y with
    | None => (Fault Dangling, w)
    | Some p =>
      match contexts w !! ioc p with
      | None => (Fault Dangling, w)
      | Some c => set_awaiter c (fd p) x w
      end
    end
  end.

Definition read_await_suspend (x h : addr) (w : world) : result bool :=
  let '(r, w) := enlist x h w in
  ((fun _ => true) <$> r, w).

Definition write_await_suspend (x h : addr) (w : world) : result bool :=
  let '(r, w) := enlist x h w in
  match r with
  | Ret _ =>
    match (y ← or_fault Dangling (awaiters w !! x);
           p ← or_fault Dangling (pipes w !! me y);
           n ← or_fault Uninitialised (len y);
           Ret (y, p, n)) with
    | Ret (y, p, n) =>
      let '(n_bytes, k) := write (fd p) n (kern w) in
      let w := set_kern k w in
      if decide (n_bytes = -1) then
        if decide (errno k = EAGAIN) then (Ret true, w) else (Raise (SystemError (errno k)), w)
      else (Ret false, set_awaiter_at x (Awaiter (me y) (len y) (Some n_bytes) (awaiting_coro y) (error_code y)) w)
    | Raise e => (Raise e, w)
    | Fault f => (Fault f, w)
    | Diverged => (Diverged, w)
    end
  | Raise e => (Raise e, w)
  | Fault f => (Fault f, w)
  | Diverged => (Diverged, w)
  end.

(** Both [await_resume]; [io] is the system call. *)
Definition await_resume (io : Z -> Z -> K -> Z * K) (x : addr) (w : world) : outcome (Z * world) :=
  y ← or_fault Dangling (awaiters w !! x);
  n ← or_fault Uninitialised (bytes_xfer y);
  if decide (0 < n) then Ret (n, w)
  else
    p ← or_fault Dangling (pipes w !! me y);
    l ← or_fault Uninitialised (len y);
    let '(n_bytes, k) := io (fd p) l (kern w) in
    if decide (n_bytes = -1) then Raise (SystemError (errno k)) else Ret (n_bytes, set_kern k w).

Definition read_await_resume (x : addr) (w : world) : outcome (Z * world) := await_resume read x w.
Definition write_await_resume (x : addr) (w : world) : outcome (Z * world) := await_resume write x w.
End Program.
Arguments world : clear implicits.

(** ** What the kernel promises *)

Class PipeLaws {K} `{PipeKernel K} (insts : K -> gset Z) (view : K -> gmap Z (gmap Z (Z * ptr))) (ready : K -> Z -> Z) := {
  law_create k e k' : epoll_create1 k = (e, k') -> view k' = view k /\
    if decide (e = -1) then insts k' = insts k
    else e ∉ insts k /\ insts k' = {[e]} ∪ insts k /\ forall fd v, view k !! fd = Some v -> v !! e = None;
  law_pipe2 k r a b k' : pipe2 k = (r, (a, b), k') -> insts k' = insts k /\
    if decide (r = -1) then view k' = view k
    else a <> -1 /\ b <> -1 /\ a <> b /\ a ∉ insts k /\ b ∉ insts k /\ view k !! a = None /\ view k !! b = None /\ view k' = <[a := ∅]> (<[b := ∅]> (view k));
  law_add e fd m p k r k' : epoll_ctl_add e fd m p k = (r, k') -> insts k' = insts k /\
    if decide (r = -1) then view k' = view k
    else e ∈ insts k /\ exists v, view k !! fd = Some v /\ view k' = <[fd := <[e := (m, p)]> v]> (view k);
  law_mod e fd m p k r k' v : epoll_ctl_mod e fd m p k = (r, k') -> e ∈ insts k -> view k !! fd = Some v -> is_Some (v !! e) ->
    r = 0 /\ insts k' = insts k /\ view k' = <[fd := <[e := (m, p)]> v]> (view k);
  law_del e fd k r k' v : epoll_ctl_del e fd k = (r, k') -> e ∈ insts k -> view k !! fd = Some v ->
    (r = -1 -> errno k' = ENOENT) /\ insts k' = insts k /\ view k' = <[fd := delete e v]> (view k);
  law_del_bad e fd k r k' : epoll_ctl_del e fd k = (r, k') -> e ∉ insts k ->
    r = -1 /\ errno k' = EBADF /\ insts k' = insts k /\ view k' = view k;
  law_close fd k : fd ∉ insts k -> insts (close_fd fd k) = insts k /\ view (close_fd fd k) = delete fd (view k);
  (* an event is reported if what is ready is asked for, or is an error; the wait
     itself may fail, with EINTR at any time *)
  law_wait e n k r evs k' : epoll_wait e n k = Some (r, evs, k') -> insts k' = insts k /\ view k' = view k /\
    (r = -1 \/ r = Z.of_nat (length evs) /\ (0 < length evs)%nat /\
      Forall (fun ev => exists fd v m, view k !! fd = Some v /\ v !! e = Some (m, snd ev) /\
        fst ev = Z.land (ready k' fd) (Z.lor m (Z.lor EPOLLHUP EPOLLERR)) /\ fst ev <> 0) evs);
}.

Section Pipes.
Context {K} `{L : PipeLaws K insts view ready}.
Implicit Types w : world K.

(** ** Ownership *)

Definition owned w (f : Z) : Prop := f <> -1 /\ exists a p, pipes w !! a = Some p /\ fd p = f.

(** A pipe that holds a descriptor has it registered with a live context, and
    nobody else holds it. *)
Record wf w : Prop := {
  wf_pipe a p : pipes w !! a = Some p -> fd p <> -1 -> exists c v,
    contexts w !! ioc p = Some c /\ instance c ∈ insts (kern w) /\ fd p ∉ insts (kern w) /\
    view (kern w) !! fd p = Some v /\ is_Some (v !! instance c);
  wf_unique a b p q : pipes w !! a = Some p -> pipes w !! b = Some q -> fd p = fd q -> fd p <> -1 -> a = b;
}.

(** The descriptors that are open and not in a pipe. *)
Definition unowned w (f : Z) : Prop := is_Some (view (kern w) !! f) /\ ~ owned w f.

(** [close] of a pipe that holds a descriptor. *)
Lemma close_spec w a p :
  wf w -> pipes w !! a = Some p -> fd p <> -1 ->
  exists k, close a w = (Ret tt, match interest p with
      | interest_read => set_pipe a (release p) (set_kern k w)
      | interest_write => set_kern k w end) /\
    insts k = insts (kern w) /\ view k = delete (fd p) (view (kern w)).
Proof.
  intros Hw Ep Hf. destruct (wf_pipe w Hw a p Ep Hf) as (c & v & Ec & Hi & Hn & Hv & Hr).
  unfold close. rewrite Ep, Ec. unfold unregister_handle.
  destruct (epoll_ctl_del (instance c) (fd p) (kern w)) as [r k] eqn:Ed.
  destruct (law_del _ _ _ _ _ _ Ed Hi Hv) as (He & Hi' & Hv'). rewrite decide_False by naive_solver.
  destruct (law_close (fd p) k) as [Hi2 Hv2]; [by rewrite Hi'|].
  exists (close_fd (fd p) k). split; [unfold release; by destruct (interest p)|]. split; [congruence|].
  by rewrite Hv2, Hv', delete_insert_eq.
Qed.

(** The world after the object at [a] has given up its descriptor in favour of
    [q], if anything. *)
Definition retire w (a : addr) (k : K) (q : option pipe_end) : world K :=
  World k (contexts w) (match q with Some q => <[a := q]> (pipes w) | None => delete a (pipes w) end) (awaiters w).

Lemma retire_wf w a p k q :
  wf w -> pipes w !! a = Some p ->
  insts k = insts (kern w) -> view k = (if decide (fd p = -1) then view (kern w) else delete (fd p) (view (kern w))) ->
  match q with Some q => fd q = -1 | None => True end ->
  wf (retire w a k q) /\ forall f, unowned (retire w a k q) f <-> unowned w f.
Proof.
  intros Hw Ep Hi Hv Hq.
  assert (forall b r, pipes (retire w a k q) !! b = Some r -> fd r <> -1 -> b <> a /\ pipes w !! b = Some r) as Hsub.
  { intros b r. cbn. destruct q as [q|]; [rewrite lookup_insert_Some|rewrite lookup_delete_Some]; naive_solver. }
  assert (forall b r, b <> a -> pipes w !! b = Some r -> pipes (retire w a k q) !! b = Some r) as Hsup.
  { intros b r Hb. cbn. destruct q as [q|]; [by rewrite lookup_insert_ne|by rewrite lookup_delete_ne]. }
  split.
  - split.
    + intros b r Er Hf. destruct (Hsub b r Er Hf) as [Hb Er']. cbn [kern contexts retire].
      destruct (wf_pipe w Hw b r Er' Hf) as (c & v & Ec & H1 & H2 & H3 & H4).
      exists c, v. rewrite Hi. split; [done|]. split; [done|]. split; [done|]. split; [|done]. rewrite Hv.
      case_decide as Hp; [done|]. rewrite lookup_delete_ne; [done|]. intros E. apply Hb. symmetry. by eapply (wf_unique w Hw).
    + intros b1 b2 r1 r2 E1 E2 Ef Hf. destruct (Hsub b1 r1 E1 Hf) as [_ E1'].
      destruct (Hsub b2 r2 E2 ltac:(congruence)) as [_ E2']. by eapply (wf_unique w Hw).
  - intros f. unfold unowned. cbn [kern retire]. split.
    + intros [[v Ev] Hno]. split.
      * rewrite Hv in Ev. case_decide; [by eexists|]. apply lookup_delete_Some in Ev as [_ Ev]. by eexists.
      * intros [Hf (b & r & Er & Efr)]. apply Hno. split; [done|]. exists b, r. split; [|done]. apply Hsup; [|done].
        intros ->. assert (r = p) as -> by congruence. rewrite Hv, decide_False in Ev by congruence.
        apply lookup_delete_Some in Ev as [Hne _]. congruence.
    + intros [[v Ev] Hno]. split.
      * rewrite Hv. case_decide; [by eexists|]. rewrite lookup_delete_ne; [by eexists|]. intros Ef. apply Hno. subst f.
        split; [done|]. by exists a, p.
      * intros [Hf (b & r & Er & Efr)]. apply Hno. split; [done|]. exists b, r. split; [|done]. apply Hsub; [done|congruence].
Qed.

(** The descriptor of [src] moves to [a]. *)
Definition transfer w (a src : addr) (p : pipe_end) : world K := set_pipe src (release p) (set_pipe a p w).

Lemma transfer_wf w a src p :
  wf w -> a <> src -> pipes w !! src = Some p -> (forall q, pipes w !! a = Some q -> fd q = -1) ->
  wf (transfer w a src p) /\ forall f, unowned (transfer w a src p) f <-> unowned w f.
Proof.
  intros Hw Has Ep Ha.
  assert (forall b r, pipes (transfer w a src p) !! b = Some r -> fd r <> -1 ->
    (b = a /\ r = p) \/ (b <> a /\ b <> src /\ pipes w !! b = Some r)) as Hsub.
  { intros b r. cbn. rewrite !lookup_insert_Some. unfold release. intros [[<- <-]|[Hb [[<- <-]|[Hb' E]]]] Hf; auto.
    by destruct Hf. }
  split.
  - split.
    + intros b r Er Hf. destruct (Hsub b r Er Hf) as [[-> ->]|(_ & _ & Er')];
        [apply (wf_pipe w Hw src p Ep Hf)|apply (wf_pipe w Hw b r Er' Hf)].
    + intros b1 b2 r1 r2 E1 E2 Ef Hf. destruct (Hsub b1 r1 E1 Hf) as [[-> ->]|(N1 & S1 & E1')],
        (Hsub b2 r2 E2 ltac:(congruence)) as [[-> ->]|(N2 & S2 & E2')]; [done| | |by eapply (wf_unique w Hw)].
      * destruct S2. symmetry. by eapply (wf_unique w Hw).
      * destruct S1. by eapply (wf_unique w Hw).
  - intros f. unfold unowned. cbn [kern transfer set_pipe].
    assert (owned (transfer w a src p) f <-> owned w f) as Ho; [|tauto]. split.
    + intros [Hf (b & r & Er & Efr)]. split; [done|]. destruct (Hsub b r Er ltac:(congruence)) as [[-> ->]|(_ & _ & Er')];
        [by exists src, p|by exists b, r].
    + intros [Hf (b & r & Er & Efr)]. split; [done|]. destruct (decide (b = src)) as [->|Hb].
      * exists a, p. split; [|congruence]. cbn. by rewrite lookup_insert_ne, lookup_insert_eq.
      * exists b, r. split; [|done]. cbn. rewrite lookup_insert_ne by done. rewrite lookup_insert_ne; [done|].
        intros <-. specialize (Ha r Er). congruence.
Qed.

(** What [close_if_open] leaves at [a] is overwritten by its callers. *)
Lemma close_if_open_spec w a p :
  wf w -> pipes w !! a = Some p ->
  exists k q, close_if_open a w = (Ret tt, World k (contexts w) (<[a := q]> (pipes w)) (awaiters w)) /\
    insts k = insts (kern w) /\ view k = (if decide (fd p = -1) then view (kern w) else delete (fd p) (view (kern w))).
Proof.
  intros Hw Ep. unfold close_if_open. rewrite Ep. case_decide as Hf.
  - destruct (close_spec w a p Hw Ep Hf) as (k & -> & Hi & Hv).
    exists k, (match interest p with interest_read => release p | interest_write => p end).
    rewrite decide_False by done. split; [|done]. destruct (interest p); [done|].
    unfold set_kern. by rewrite insert_id by done.
  - exists (kern w), p. rewrite decide_True by lia. rewrite insert_id by done. by destruct w.
Qed.

(** A pipe's destructor closes what it holds; it throws nothing. *)
Lemma destroy_pipe_spec w a p :
  wf w -> pipes w !! a = Some p ->
  exists w', destroy_pipe a w = Ret w' /\ wf w' /\ (forall f, unowned w' f <-> unowned w f) /\
    pipes w' = delete a (pipes w) /\ contexts w' = contexts w /\ insts (kern w') = insts (kern w) /\
    view (kern w') = (if decide (fd p = -1) then view (kern w) else delete (fd p) (view (kern w))).
Proof.
  intros Hw Ep. destruct (close_if_open_spec w a p Hw Ep) as (k & q & E & Hi & Hv). unfold destroy_pipe. rewrite E.
  cbn [noexcept]. run_bind. cbn [kern contexts pipes awaiters]. rewrite delete_insert_eq.
  destruct (retire_wf w a p k None Hw Ep Hi Hv I) as [H1 H2]. by exists (retire w a k None).
Qed.

Lemma move_pipe_spec w a src p :
  wf w -> pipes w !! src = Some p -> pipes w !! a = None ->
  move_pipe a src w = Ret (transfer w a src p) /\ wf (transfer w a src p) /\ forall f, unowned (transfer w a src p) f <-> unowned w f.
Proof.
  intros Hw Ep Ea. unfold move_pipe. rewrite Ep. cbn [or_fault]. run_bind. split; [done|].
  apply transfer_wf; [done|congruence|done|congruence].
Qed.

Lemma move_assign_pipe_spec w a src p ps :
  wf w -> pipes w !! a = Some p -> pipes w !! src = Some ps ->
  exists w', move_assign_pipe a src w = (Ret tt, w') /\ wf w' /\ (forall f, unowned w' f <-> unowned w f) /\
    (src <> a -> pipes w' = <[src := release ps]> (<[a := ps]> (pipes w))).
Proof.
  intros Hw Ep Es. unfold move_assign_pipe. case_decide as Hne; [|by exists w].
  destruct (close_if_open_spec w a p Hw Ep) as (k & q & -> & Hi & Hv). cbn [pipes]. rewrite lookup_insert_ne, Es by done.
  destruct (retire_wf w a p k (Some (release p)) Hw Ep Hi Hv eq_refl) as [Hw1 Hu1].
  destruct (transfer_wf (retire w a k (Some (release p))) a src ps Hw1) as [Hw2 Hu2]; [done|cbn; by rewrite lookup_insert_ne| |].
  { intros r. cbn. rewrite lookup_insert_eq. by intros [= <-]. }
  exists (transfer (retire w a k (Some (release p))) a src ps).
  split; [|split; [done|split; [|]]].
  - unfold transfer, retire, set_pipe. cbn. by rewrite !insert_insert_eq.
  - intros f. by rewrite Hu2.
  - intros _. cbn. by rewrite insert_insert_eq.
Qed.

(** Wrapping an open descriptor that nobody holds. *)
Lemma construct_pipe_spec w i a f ioc_ r w' :
  wf w -> unowned w f -> f <> -1 -> f ∉ insts (kern w) -> pipes w !! a = None -> is_Some (contexts w !! ioc_) ->
  construct_pipe i a f ioc_ w = (r, w') ->
  insts (kern w') = insts (kern w) /\ contexts w' = contexts w /\ dom (view (kern w')) = dom (view (kern w)) /\
  ((r = Ret tt /\ wf w' /\ pipes w' = <[a := Pipe i f ioc_]> (pipes w)) \/
   (exists e, r = Raise e /\ wf w' /\ pipes w' = pipes w)).
Proof.
  intros Hw [[v Hv] Ho] Hf Hi Ea [c Ec]. unfold construct_pipe. rewrite Ec. unfold register_handle.
  destruct (epoll_ctl_add (instance c) f (event_flags i) null (kern w)) as [x k] eqn:E.
  destruct (law_add _ _ _ _ _ _ _ E) as [Hi' V]. case_decide as Hx; intros [= <- <-].
  - cbn. rewrite V. split; [done|]. split; [done|]. split; [done|]. right. eexists. split; [done|]. split; [|done].
    split; [|apply (wf_unique w Hw)]. intros b p E1 E2. cbn. rewrite V, Hi'. exact (wf_pipe w Hw b p E1 E2).
  - destruct V as (He & v' & Ev & V). assert (v' = v) as -> by congruence. cbn. split; [done|]. split; [done|].
    split; [rewrite V, dom_insert_lookup_L; [done|by eexists]|].
    left. split; [done|]. split; [|done]. split; cbn.
    + intros b p. rewrite lookup_insert_Some. intros [[<- <-]|[Hb Eb]] Hp; cbn.
      * exists c, (<[instance c := (event_flags i, null)]> v). rewrite Hi', V, !lookup_insert_eq. eauto 10.
      * destruct (wf_pipe w Hw b p Eb Hp) as (c' & v' & H1 & H2 & H3 & H4 & H5). exists c', v'. rewrite Hi', V.
        rewrite lookup_insert_ne; [done|]. intros Ef. apply Ho. split; [done|]. by exists b, p.
    + intros b1 b2 p q. rewrite !lookup_insert_Some.
      intros [[<- <-]|[N1 E1]] [[<- <-]|[N2 E2]] Ef Hp; cbn in *; [done| | |by eapply (wf_unique w Hw)].
      * destruct Ho. split; [done|]. by exists b2, q.
      * destruct Ho. split; [done|]. exists b1, p. by split.
Qed.

(** Registering an awaiter changes what the descriptor is registered for, not
    who holds it. *)
Lemma enlist_spec w x h y p :
  wf w -> awaiters w !! x = Some y -> pipes w !! me y = Some p -> fd p <> -1 ->
  exists k c v, enlist x h w = (Ret tt, World k (contexts w) (pipes w)
      (<[x := Awaiter (me y) (len y) (bytes_xfer y) (Some h) (error_code y)]> (awaiters w))) /\
    contexts w !! ioc p = Some c /\ insts k = insts (kern w) /\ view (kern w) !! fd p = Some v /\
    view k = <[fd p := <[instance c := (0, Some x)]> v]> (view (kern w)).
Proof.
  intros Hw Ey Ep Hf. destruct (wf_pipe w Hw _ p Ep Hf) as (c & v & Ec & Hi & Hn & Hv & Hr).
  unfold enlist. rewrite Ey. cbn [pipes set_awaiter_at contexts]. rewrite Ep, Ec. unfold set_awaiter. cbn [kern set_awaiter_at].
  destruct (epoll_ctl_mod (instance c) (fd p) 0 (Some x) (kern w)) as [r k] eqn:E.
  destruct (law_mod _ _ _ _ _ _ _ _ E Hi Hv Hr) as (-> & Hi' & Hv'). rewrite decide_False by done.
  exists k, c, v. by split.
Qed.

Lemma enlist_wf w x h y p :
  wf w -> awaiters w !! x = Some y -> pipes w !! me y = Some p -> fd p <> -1 ->
  exists w', enlist x h w = (Ret tt, w') /\ wf w' /\ (forall f, unowned w' f <-> unowned w f).
Proof.
  intros Hw Ey Ep Hf. destruct (enlist_spec w x h y p Hw Ey Ep Hf) as (k & c & v & E & Ec & Hi & Hv & V).
  eexists. split; [exact E|]. split.
  - split; [|apply (wf_unique w Hw)]. intros b q Eb Hb. cbn in *. rewrite Hi, V.
    destruct (wf_pipe w Hw b q Eb Hb) as (c' & v' & H1 & H2 & H3 & H4 & H5).
    destruct (decide (fd q = fd p)) as [Efd|Efd]; [|exists c', v'; by rewrite lookup_insert_ne].
    exists c', (<[instance c := (0, Some x)]> v). rewrite Efd in *. rewrite lookup_insert_eq.
    assert (v' = v) as -> by congruence. split; [done|]. split; [done|]. split; [done|]. split; [done|].
    rewrite lookup_insert_is_Some. destruct (decide (instance c = instance c')); [by left|by right].
  - intros f. unfold unowned, owned. cbn. rewrite V, lookup_insert_is_Some. split; [|naive_solver].
    intros [[<-|[_ H1]] H2]; [split; [by eexists|done]|done].
Qed.

(** [co_await p.read_some(buffer, n)] at a reading end that holds a descriptor:
    the coroutine is registered and suspended. *)
Lemma read_await_spec w a x n h p :
  wf w -> pipes w !! a = Some p -> fd p <> -1 ->
  exists w', read_await_suspend x h (read_some a x n w) = (Ret true, w') /\ wf w' /\ (forall f, unowned w' f <-> unowned w f) /\
    awaiters w' !! x = Some (Awaiter a None None (Some h) None) /\
    exists c v, contexts w !! ioc p = Some c /\ view (kern w') !! fd p = Some v /\ v !! instance c = Some (0, Some x).
Proof.
  intros Hw Ep Hf. unfold read_await_suspend, read_some. set (w0 := set_awaiter_at x _ w).
  assert (wf w0) as Hw0 by (split; [apply (wf_pipe w Hw)|apply (wf_unique w Hw)]).
  assert (awaiters w0 !! x = Some (Awaiter a None None null None)) as Ex by apply lookup_insert_eq.
  destruct (enlist_wf w0 x h _ p Hw0 Ex Ep Hf) as (w1 & E & H1 & H2).
  destruct (enlist_spec w0 x h _ p Hw0 Ex Ep Hf) as (k & c & v & E' & Ec & Hi & Hv & V). rewrite E' in E. injection E as <-.
  rewrite E'. cbn [fmap outcome_fmap]. eexists. split; [done|]. split; [done|]. split; [done|]. split; [apply lookup_insert_eq|].
  exists c, (<[instance c := (0, Some x)]> v). split; [done|]. cbn [kern]. rewrite V. split; apply lookup_insert_eq.
Qed.

Definition returned {A} (r : outcome A * world K) : outcome (world K) := (fun _ => snd r) <$> fst r.

(** What clients do with pipes that exist. *)
Inductive pipe_op :=
| OMove (a src : addr)
| OAssign (a src : addr)
| ODestroy (a : addr)
| OAwaitRead (a x h : addr) (n : Z)
| OAwaitWrite (a x h : addr) (n : Z).

Definition run_op (o : pipe_op) w : outcome (world K) :=
  match o with
  | OMove a src => move_pipe a src w
  | OAssign a src => returned (move_assign_pipe a src w)
  | ODestroy a => destroy_pipe a w
  | OAwaitRead a x h n => returned (read_await_suspend x h (read_some a x n w))
  | OAwaitWrite a x h n => returned (write_await_suspend x h (write_some a x n w))
  end.

Definition open_end (i : io_interest) (a : addr) w : Prop :=
  exists p, pipes w !! a = Some p /\ interest p = i /\ fd p <> -1.

Definition allowed (o : pipe_op) w : Prop :=
  match o with
  | OMove a src => is_Some (pipes w !! src) /\ pipes w !! a = None
  | OAssign a src => is_Some (pipes w !! src) /\ is_Some (pipes w !! a)
  | ODestroy a => is_Some (pipes w !! a)
  | OAwaitRead a x h n => open_end interest_read a w
  | OAwaitWrite a x h n => open_end interest_write a w
  end.

Definition writes (o : pipe_op) : bool := match o with OAwaitWrite _ _ _ _ => true | _ => false end.

Definition pipe_step w w' : Prop := exists o, allowed o w /\ run_op o w = Ret w'.

(** A write uses the indeterminate length at once. *)
Lemma write_uninitialised a x n h w :
  wf w -> (exists p, pipes w !! a = Some p /\ fd p <> -1) ->
  exists w', write_await_suspend x h (write_some a x n w) = (Fault Uninitialised, w').
Proof.
  intros Hw (p & Ep & Hf). unfold write_await_suspend, write_some. set (w0 := set_awaiter_at x _ w).
  assert (wf w0) as Hw0 by (split; [apply (wf_pipe w Hw)|apply (wf_unique w Hw)]).
  destruct (enlist_spec w0 x h (Awaiter a None None null None) p Hw0) as (k & c & v & -> & _);
    [apply lookup_insert_eq|done|done|]. cbn [me awaiters pipes len]. rewrite lookup_insert_eq. cbn [or_fault]. run_bind.
  unfold w0. cbn [me pipes set_awaiter_at len]. rewrite Ep. cbn [or_fault]. run_bind. by eexists.
Qed.

Lemma run_op_spec o w :
  wf w -> allowed o w ->
  if writes o then run_op o w = Fault Uninitialised
  else exists w', run_op o w = Ret w' /\ wf w' /\ forall f, unowned w' f <-> unowned w f.
Proof.
  intros Hw. destruct o as [a src|a src|a|a x h n|a x h n]; cbn.
  - intros [[p Ep] Ea]. destruct (move_pipe_spec w a src p Hw Ep Ea) as (E & H1 & H2). by eexists.
  - intros [[ps Es] [p Ep]]. destruct (move_assign_pipe_spec w a src p ps Hw Ep Es) as (w' & -> & H1 & H2 & _). by exists w'.
  - intros [p Ep]. destruct (destroy_pipe_spec w a p Hw Ep) as (w' & E & H1 & H2 & _). by exists w'.
  - intros (p & Ep & _ & Hf). destruct (read_await_spec w a x n h p Hw Ep Hf) as (w' & -> & H1 & H2 & _). by exists w'.
  - intros (p & Ep & _ & Hf). destruct (write_uninitialised a x n h w Hw) as [w' ->]; [by exists p|done].
Qed.

(** C36. As long as the contexts stay where they are, pipes own their descriptors:
    from a well-formed state every move, assignment, destruction and awaiting of a
    read returns without a fault or an exception, and the states they lead to are
    well-formed, with the same open descriptors outside the pipes - none is
    leaked, and none closed twice. A read that is awaited leaves its awaiter, with
    the coroutine, registered for the descriptor. Awaiting a write never gets
    that far: it uses an indeterminate length. *)
Theorem pipes_own_descriptors w w' :
  wf w -> rtc pipe_step w w' ->
  wf w' /\ (forall f, unowned w' f <-> unowned w f) /\
  (forall o, allowed o w' -> if writes o then run_op o w' = Fault Uninitialised else exists w'', run_op o w' = Ret w'') /\
  forall a x h n w'', allowed (OAwaitRead a x h n) w' -> run_op (OAwaitRead a x h n) w' = Ret w'' ->
    exists p c v, pipes w' !! a = Some p /\ contexts w' !! ioc p = Some c /\
      view (kern w'') !! fd p = Some v /\ v !! instance c = Some (0, Some x) /\
      awaiters w'' !! x = Some (Awaiter a None None (Some h) None).
Proof.
  intros Hw Hr. assert (wf w' /\ forall f, unowned w' f <-> unowned w f) as [H1 H2].
  { induction Hr as [w|w w1 w2 (o & Ha & Eo) _ IH]; [done|].
    pose proof (run_op_spec o w Hw Ha) as Hs. destruct (writes o); [congruence|]. destruct Hs as (w1' & Eo' & H1 & H2).
    assert (w1' = w1) as -> by congruence. destruct (IH H1) as [H3 H4]. split; [done|]. intros f. by rewrite H4. }
  split; [done|]. split; [done|]. split.
  - intros o Ho. pose proof (run_op_spec o w' H1 Ho) as Hs. destruct (writes o); [done|]. destruct Hs as (w'' & E & _). by exists w''.
  - intros a x h n w'' (p & Ep & _ & Hf). cbn. destruct (read_await_spec w' a x n h p H1 Ep Hf) as (w1 & -> & _ & _ & Hx & c & v & Ec & Hv & Hc).
    intros [= <-]. by exists p, c, v.
Qed.

(** ** make_pipe *)

(** Two new descriptors. *)
Lemma pipe2_wf w k f0 f1 :
  wf w -> insts k = insts (kern w) -> f0 <> -1 -> f1 <> -1 -> view (kern w) !! f0 = None -> view (kern w) !! f1 = None ->
  view k = <[f0 := ∅]> (<[f1 := ∅]> (view (kern w))) ->
  wf (set_kern k w) /\ forall f, unowned (set_kern k w) f <-> unowned w f \/ f = f0 \/ f = f1.
Proof.
  intros Hw Hi N0 N1 E0 E1 V.
  assert (forall a p, pipes w !! a = Some p -> fd p <> -1 -> fd p <> f0 /\ fd p <> f1) as Hne.
  { intros a p Ea Hf. destruct (wf_pipe w Hw a p Ea Hf) as (c & v & _ & _ & _ & Hv & _). split; congruence. }
  split.
  - split; [|apply (wf_unique w Hw)]. intros a p Ea Hf. destruct (wf_pipe w Hw a p Ea Hf) as (c & v & H1 & H2 & H3 & H4 & H5).
    destruct (Hne a p Ea Hf). exists c, v. cbn. by rewrite Hi, V, !lookup_insert_ne.
  - intros f. unfold unowned. assert (owned (set_kern k w) f <-> owned w f) as -> by done. cbn [kern set_kern].
    rewrite V, !lookup_insert_is_Some. split; [destruct (decide (f = f0)), (decide (f = f1)); naive_solver|].
    assert (forall g, view (kern w) !! g = None -> g <> -1 -> ~ owned w g) as Hno.
    { intros g Hg Hg1 [_ (a & p & Ea & <-)]. by destruct (wf_pipe w Hw a p Ea Hg1) as (c & v & _ & _ & _ & Hv & _); simplify_eq. }
    destruct (decide (f0 = f)), (decide (f1 = f)); naive_solver.
Qed.

Lemma unowned_construct w w' a f p :
  dom (view (kern w')) = dom (view (kern w)) -> pipes w !! a = None -> pipes w' = <[a := p]> (pipes w) -> fd p = f -> f <> -1 ->
  forall g, unowned w' g <-> unowned w g /\ g <> f.
Proof.
  intros Hd Ea Hp <- Hf g. unfold unowned. rewrite <- !elem_of_dom, Hd.
  assert (owned w' g <-> owned w g \/ g = fd p) as ->; [|naive_solver]. unfold owned. rewrite Hp. split.
  - intros [Hg (b & q & E & Eq)]. apply lookup_insert_Some in E as [[<- <-]|[Hb E]]; [by right|left; eauto].
  - intros [[Hg (b & q & E & Eq)]| ->]; split; try done; [exists b, q|exists a, p]; [|by rewrite lookup_insert_eq].
    rewrite lookup_insert_ne; [done|congruence].
Qed.

Lemma unowned_failed w w' :
  dom (view (kern w')) = dom (view (kern w)) -> pipes w' = pipes w -> forall g, unowned w' g <-> unowned w g.
Proof. intros Hd Hp g. unfold unowned, owned. by rewrite <- !elem_of_dom, Hd, Hp. Qed.

(** The temporaries move into the pair and are destroyed. *)
Lemma make_pair_spec w t0 t1 a0 a1 p q :
  wf w -> pipes w !! t0 = Some p -> pipes w !! t1 = Some q -> pipes w !! a0 = None -> pipes w !! a1 = None ->
  t0 <> t1 -> a0 <> a1 ->
  exists w', (w ← move_pipe a0 t0 w; w ← move_pipe a1 t1 w; w ← destroy_pipe t1 w; destroy_pipe t0 w) = Ret w' /\ wf w' /\
    (forall f, unowned w' f <-> unowned w f) /\ pipes w' = <[a1 := q]> (<[a0 := p]> (delete t1 (delete t0 (pipes w)))).
Proof.
  intros Hw P0 P1 A0 A1 Ht Ha.
  assert (t0 <> a0 /\ t0 <> a1 /\ t1 <> a0 /\ t1 <> a1) as (D1 & D2 & D3 & D4) by (repeat split; congruence).
  destruct (move_pipe_spec w a0 t0 p Hw P0 A0) as (E4 & Hw4 & U4). set (w4 := transfer w a0 t0 p) in *.
  destruct (move_pipe_spec w4 a1 t1 q Hw4) as (E5 & Hw5 & U5); [cbn; lookup_cases|cbn; lookup_cases|].
  set (w5 := transfer w4 a1 t1 q) in *.
  destruct (destroy_pipe_spec w5 t1 (release q) Hw5) as (w6 & E6 & Hw6 & U6 & Hp6 & _); [cbn; lookup_cases|].
  destruct (destroy_pipe_spec w6 t0 (release p) Hw6) as (w7 & E7 & Hw7 & U7 & Hp7 & _); [rewrite Hp6; cbn; lookup_cases|].
  run_bind. exists w7. split; [done|]. split; [done|]. split.
  - intros f. by rewrite U7, U6, U5, U4.
  - rewrite Hp7, Hp6. cbn. apply map_eq. intros i. lookup_cases.
Qed.

(** [make_pipe] wraps the two ends of a new pipe, or throws and leaves no
    object; but unless it was the system's [pipe2] that failed, it then leaks
    descriptors: the ends that had not been wrapped. *)
Theorem make_pipe_correct w ioc_ t0 t1 a0 a1 :
  wf w -> is_Some (contexts w !! ioc_) -> NoDup [t0; t1; a0; a1] -> Forall (fun a => pipes w !! a = None) [t0; t1; a0; a1] ->
  exists res w', make_pipe ioc_ t0 t1 a0 a1 w = (res, w') /\ wf w' /\
    match res with
    | Ret _ => (forall f, unowned w' f <-> unowned w f) /\
        exists f0 f1, f0 <> f1 /\ pipes w' = <[a1 := Pipe interest_write f1 ioc_]> (<[a0 := Pipe interest_read f0 ioc_]> (pipes w))
    | Raise _ => pipes w' = pipes w /\ exists l, (forall f, unowned w' f <-> unowned w f \/ f ∈ l) /\
        (l = [] <-> fst (fst (pipe2 (kern w))) = -1)
    | _ => False
    end.
Proof.
  intros Hw Hc Hnd Hfresh. rewrite !Forall_cons in Hfresh. destruct Hfresh as (F1 & F2 & F3 & F4 & _).
  assert (t0 <> t1 /\ t0 <> a0 /\ t0 <> a1 /\ t1 <> a0 /\ t1 <> a1 /\ a0 <> a1) as (D1 & D2 & D3 & D4 & D5 & D6).
  { rewrite !NoDup_cons in Hnd. set_solver. }
  unfold make_pipe. destruct (pipe2 (kern w)) as [[res [f0 f1]] k] eqn:E2. cbn [fst].
  destruct (law_pipe2 _ _ _ _ _ E2) as [Hi V]. case_decide as Hr.
  { eexists _, (set_kern k w). split; [done|]. split.
    - split; [|apply (wf_unique w Hw)]. intros a p. cbn. rewrite Hi, V. apply (wf_pipe w Hw).
    - split; [done|]. exists []. split; [|done]. intros f. unfold unowned, owned. cbn. rewrite V. set_solver. }
  assert (Hout : forall f, unowned w f -> f <> f0 /\ f <> f1).
  { destruct V as (_ & _ & _ & _ & _ & V0 & V1 & _). intros f [[v Ev] _]. split; congruence. }
  destruct V as (N0 & N1 & N01 & I0 & I1 & V0 & V1 & V).
  destruct (pipe2_wf w k f0 f1 Hw Hi N0 N1 V0 V1 V) as [Hw1 U1]. set (w1 := set_kern k w) in *.
  change (pipes w) with (pipes w1) in F1, F2, F3, F4 |- *.
  destruct (construct_pipe interest_read t0 f0 ioc_ w1) as [x w2] eqn:C1.
  destruct (construct_pipe_spec w1 interest_read t0 f0 ioc_ x w2 Hw1) as (Hi2 & Hc2 & Hd2 & [(-> & Hw2 & Hp2)|(e & -> & Hw2 & Hp2)]);
    try done; [by rewrite U1; auto|by cbn; rewrite Hi| |].
  2: { exists (Raise e), w2. split; [done|]. split; [done|]. split; [done|]. exists [f0; f1]. split; [|done].
       intros f. rewrite (unowned_failed w1 w2 Hd2 Hp2), U1. set_solver. }
  pose proof (unowned_construct w1 w2 t0 f0 (Pipe interest_read f0 ioc_) Hd2 F1 Hp2 eq_refl N0) as U2.
  destruct (construct_pipe interest_write t1 f1 ioc_ w2) as [x w3] eqn:C2.
  assert (pipes w2 !! t1 = None) as F2' by (rewrite Hp2, lookup_insert_ne by done; done).
  destruct (construct_pipe_spec w2 interest_write t1 f1 ioc_ x w3 Hw2) as (Hi3 & Hc3 & Hd3 & [(-> & Hw3 & Hp3)|(e & -> & Hw3 & Hp3)]);
    try done; [rewrite U2, U1; auto|by rewrite Hi2; cbn; rewrite Hi|by rewrite Hc2| |].
  - pose proof (unowned_construct w2 w3 t1 f1 (Pipe interest_write f1 ioc_) Hd3 F2' Hp3 eq_refl N1) as U3.
    destruct (make_pair_spec w3 t0 t1 a0 a1 (Pipe interest_read f0 ioc_) (Pipe interest_write f1 ioc_) Hw3)
      as (w4 & -> & Hw4 & U4 & Hp4); try done; try (rewrite Hp3, Hp2; lookup_cases).
    exists (Ret tt), w4. split; [done|]. split; [done|]. split.
    + intros f. rewrite U4, U3, U2, U1. specialize (Hout f). naive_solver.
    + exists f0, f1. split; [done|]. rewrite Hp4, Hp3, Hp2.
      change (pipes w) with (pipes w1). apply map_eq. intros i. lookup_cases.
  - destruct (destroy_pipe_spec w3 t0 (Pipe interest_read f0 ioc_) Hw3) as (w4 & -> & Hw4 & U4 & Hp4 & _);
      [by rewrite Hp3, Hp2, lookup_insert_eq|].
    exists (Raise e), w4. split; [done|]. split; [done|]. split.
    + by rewrite Hp4, Hp3, Hp2, delete_insert_id.
    + exists [f1]. split; [|done]. intros f. rewrite U4, (unowned_failed w2 w3 Hd3 Hp3), U2, U1. specialize (Hout f).
      rewrite list_elem_of_singleton. naive_solver.
Qed.

(** ** Where the code fails *)

(** C37. A read never completes: [set_awaiter] replaces the event that the pipe was
    registered for by none, so that the arrival of data is not reported. As long
    as the writing end is open - no hang-up, no error - the reactor waits for
    ever, whatever is written, or until its wait fails and it throws. *)
Theorem read_never_resumed resume w x h y p c w' :
  wf w -> awaiters w !! x = Some y -> pipes w !! me y = Some p -> fd p <> -1 -> contexts w !! ioc p = Some c ->
  (forall f v, view (kern w) !! f = Some v -> f <> fd p -> v !! instance c = None) ->
  read_await_suspend x h w = (Ret true, w') ->
  (forall r, epoll_wait (instance c) (max_events c) (kern w') = Some r ->
     Z.land (ready (snd r) (fd p)) (Z.lor EPOLLHUP EPOLLERR) = 0) ->
  process_turn resume (ioc p) w' = Diverged \/
  exists evs k, epoll_wait (instance c) (max_events c) (kern w') = Some (-1, evs, k) /\
    process_turn resume (ioc p) w' = Raise (SystemError (errno k)).
Proof.
  intros Hw Ey Ep Hf Ec Hclear. unfold read_await_suspend.
  destruct (enlist_spec w x h y p Hw Ey Ep Hf) as (k & c' & v & -> & Ec' & Hi & Hv & V).
  assert (c' = c) as -> by congruence. cbn [fmap outcome_fmap]. intros [= <-] Hopen. cbn [kern] in Hopen.
  unfold process_turn. cbn [contexts kern]. rewrite Ec. cbn [or_fault]. run_bind.
  destruct (epoll_wait (instance c) (max_events c) k) as [[[n evs] k']|] eqn:Ew; [|by left].
  specialize (Hopen _ eq_refl). destruct (law_wait _ _ _ _ _ _ Ew) as (_ & _ & [->|(-> & Hl & Hev)]);
    [right; exists evs, k'; by rewrite decide_True|exfalso].
  destruct evs as [|[ev pt] evs]; [cbn in Hl; lia|]. apply Forall_inv in Hev as (f & v' & m & Hv' & Hm & He & Hne).
  cbn in Hm, He, Hne. rewrite V in Hv'. destruct (decide (f = fd p)) as [->|Hfd].
  - rewrite lookup_insert_eq in Hv'. injection Hv' as <-. rewrite lookup_insert_eq in Hm. injection Hm as <- <-.
    apply Hne. by rewrite He.
  - rewrite lookup_insert_ne in Hv' by done. by rewrite (Hclear f v' Hv' Hfd) in Hm.
Qed.

(** When the writing end is closed at last, the coroutine is resumed and reads
    [bytes_xfer], which the read path never sets. *)
Theorem resumed_read_uninitialised a x n h w w1 resume ev (body : Z * world K -> outcome (world K)) :
  wf w -> (exists p, pipes w !! a = Some p /\ fd p <> -1) ->
  read_await_suspend x h (read_some a x n w) = (Ret true, w1) ->
  Z.land ev EPOLLIN <> 0 \/ Z.land ev (Z.lor EPOLLHUP EPOLLERR) <> 0 ->
  (forall w0, awaiters w0 !! x <> None -> resume h w0 = (r ← read_await_resume x w0; body r)) ->
  process_event resume (ev, Some x) w1 = Fault Uninitialised.
Proof.
  intros Hw (p & Ep & Hf). unfold read_await_suspend, read_some.
  set (w0 := set_awaiter_at x _ w).
  assert (wf w0) as Hw0 by (split; [apply (wf_pipe w Hw)|apply (wf_unique w Hw)]).
  destruct (enlist_spec w0 x h (Awaiter a None None null None) p Hw0) as (k & c & v & -> & _);
    [apply lookup_insert_eq|done|done|]. cbn [fmap outcome_fmap]. intros [= <-] Hev Hres.
  assert (forall code, ('(h, w) ← io_ready_callback (Some x) code (World k (contexts w0) (pipes w0)
      (<[x := Awaiter a None None (Some h) None]> (awaiters w0))); resume h w) = Fault Uninitialised) as Hcb.
  { intros code. unfold io_ready_callback. cbn [deref awaiters]. rewrite lookup_insert_eq. cbn [or_fault]. run_bind.
    cbn [awaiting_coro or_fault]. run_bind. rewrite Hres by (cbn; by rewrite lookup_insert_eq).
    unfold read_await_resume, await_resume, set_awaiter_at. cbn [awaiters]. by rewrite lookup_insert_eq. }
  unfold process_event. cbn [me len bytes_xfer error_code]. case_decide; [apply Hcb|].
  rewrite decide_True by tauto. apply Hcb.
Qed.

Lemma reported_events R m :
  m = EPOLLIN \/ m = EPOLLOUT -> let ev := Z.land R (Z.lor m (Z.lor EPOLLHUP EPOLLERR)) in ev <> 0 ->
  (Z.land ev EPOLLIN <> 0 \/ Z.land ev EPOLLOUT <> 0) \/ Z.land ev (Z.lor EPOLLHUP EPOLLERR) <> 0.
Proof.
  intros Hm ev Hne. assert (ev = Z.lor (Z.land ev m) (Z.land ev (Z.lor EPOLLHUP EPOLLERR))) as Hev.
  { unfold ev. by rewrite <- Z.land_lor_distr_r, <- Z.land_assoc, Z.land_diag. }
  destruct (decide (Z.land ev (Z.lor EPOLLHUP EPOLLERR) = 0)) as [E2|]; [|by right].
  left. rewrite E2, Z.lor_0_r in Hev. destruct Hm as [-> | ->]; [left|right]; congruence.
Qed.

(** A pipe that is registered but not yet awaited has no awaiter: if the
    reactor runs first - a new pipe can be written to at once - it dereferences
    a null pointer. *)
Theorem unawaited_pipe_faults resume w a c r :
  contexts w !! a = Some c ->
  (forall f v m q, view (kern w) !! f = Some v -> v !! instance c = Some (m, q) -> q = null /\ exists i, m = event_flags i) ->
  epoll_wait (instance c) (max_events c) (kern w) = Some r -> fst (fst r) <> -1 ->
  process_turn resume a w = Fault NullDeref.
Proof.
  intros Ec Hnull Ew Hr. destruct r as [[n evs] k]. unfold process_turn. rewrite Ec. cbn [or_fault]. run_bind. rewrite Ew.
  destruct (law_wait _ _ _ _ _ _ Ew) as (_ & _ & [->|(-> & Hl & Hev)]); [done|]. rewrite decide_False by lia.
  destruct evs as [|[ev q] evs]; [cbn in Hl; lia|]. apply Forall_inv in Hev as (f & v & m & Hv & Hm & He & Hne).
  cbn in Hm, He, Hne. destruct (Hnull f v m q Hv Hm) as [-> [i ->]]. subst ev. cbn [process_n_events process_event].
  destruct (reported_events (ready k f) (event_flags i)) as [H1|H1]; [by destruct i; [left|right]|done| |].
  - rewrite decide_True by done. done.
  - case_decide; [done|]. by rewrite decide_True.
Qed.

(** A pipe points to its context: when the context is moved, the pipe is left
    with a context without an instance. Its destructor cannot unregister the
    descriptor, and the exception that it throws ends the program. *)
Theorem moved_context_terminates w a b p pa c :
  wf w -> (-1) ∉ insts (kern w) -> pipes w !! pa = Some p -> fd p <> -1 -> ioc p = a -> a <> b -> contexts w !! a = Some c ->
  exists w', move_context b a w = Ret w' /\ destroy_pipe pa w' = Fault Terminated.
Proof.
  intros Hw Hi Ep Hf Ea Hab Ec. unfold move_context. rewrite Ec. cbn [or_fault]. run_bind. eexists. split; [done|].
  unfold destroy_pipe, close_if_open, close. cbn [pipes set_context contexts]. rewrite Ep, decide_True, Ea, lookup_insert_eq by done.
  unfold unregister_handle. cbn [instance kern].
  match goal with |- context [epoll_ctl_del (-1) (fd p) ?k] => destruct (epoll_ctl_del (-1) (fd p) k) as [r k'] eqn:E end.
  destruct (law_del_bad _ _ _ _ _ E Hi) as (-> & He & _). rewrite decide_True by (split; [done|]; by rewrite He). done.
Qed.

(** Assigning to a context forgets the instance it had: it stays open. *)
Theorem context_assign_leaks w a b c d :
  contexts w !! a = Some c -> contexts w !! b = Some d -> a <> b -> instance c <> instance d ->
  (forall x y, contexts w !! x = Some y -> instance y = instance c -> x = a) -> instance c <> -1 ->
  exists w', move_assign_context a b w = Ret w' /\ kern w' = kern w /\
    forall x y, contexts w' !! x = Some y -> instance y <> instance c.
Proof.
  intros Ec Ed Hab Hne Hu Hm. unfold move_assign_context. rewrite decide_True, Ec, Ed by done. cbn [or_fault]. run_bind.
  eexists. split; [done|]. split; [done|]. intros x y. cbn. rewrite !lookup_insert_Some.
  intros [[<- <-]|[H1 [[<- <-]|[H2 E]]]] He; cbn in *; [congruence|congruence|]. by destruct H2, (Hu x y E He).
Qed.
End Pipes.

(** ** A kernel

    The witnesses use a kernel that chooses unused numbers for descriptors and
    reports one event at a time; when [full], nothing can be registered. *)
Record demo_kernel := Demo {
  full : bool;
  d_insts : gset Z;
  d_view : gmap Z (gmap Z (Z * ptr));
  d_ready : gmap Z Z;
  d_errno : Z;
}.

Definition demo_view (v : gmap Z (gmap Z (Z * ptr))) (k : demo_kernel) : demo_kernel :=
  Demo (full k) (d_insts k) v (d_ready k) (d_errno k).
Definition demo_error (code : Z) (k : demo_kernel) : demo_kernel :=
  Demo (full k) (d_insts k) (d_view k) (d_ready k) code.

Definition used (k : demo_kernel) : gset Z :=
  {[ -1 ]} ∪ d_insts k ∪ dom (d_view k) ∪ union_list (map (fun x : Z * gmap Z (Z * ptr) => dom (snd x)) (map_to_list (d_view k))).

Definition demo_is_ready (k : demo_kernel) (fd : Z) : Z := default 0 (d_ready k !! fd).

Definition demo_report (e : Z) (k : demo_kernel) (x : Z * gmap Z (Z * ptr)) : option (Z * ptr) :=
  '(m, p) ← snd x !! e;
  let ev := Z.land (demo_is_ready k (fst x)) (Z.lor m (Z.lor EPOLLHUP EPOLLERR)) in
  if decide (ev = 0) then None else Some (ev, p).

Definition demo_register (e fd m : Z) (p : ptr) (k : demo_kernel) : Z * demo_kernel :=
  match d_view k !! fd with
  | Some v => if decide (e ∈ d_insts k) then (0, demo_view (<[fd := <[e := (m, p)]> v]> (d_view k)) k) else (-1, demo_error EBADF k)
  | None => (-1, demo_error EBADF k)
  end.

#[export] Instance demo_pipes : PipeKernel demo_kernel := {|
  epoll_create1 k := let e := fresh (used k) in (e, Demo (full k) ({[e]} ∪ d_insts k) (d_view k) (d_ready k) (d_errno k));
  pipe2 k :=
    let a := fresh (used k) in let b := fresh ({[a]} ∪ used k) in
    (0, (a, b), demo_view (<[a := ∅]> (<[b := ∅]> (d_view k))) k);
  epoll_ctl_add e fd m p k := if full k then (-1, demo_error 28 k) else demo_register e fd m p k;
  epoll_ctl_mod e fd m p k := demo_register e fd m p k;
  epoll_ctl_del e fd k :=
    if decide (e ∈ d_insts k) then
      match d_view k !! fd with
      | Some v =>
        (if decide (is_Some (v !! e)) then 0 else -1, demo_error ENOENT (demo_view (<[fd := delete e v]> (d_view k)) k))
      | None => (-1, demo_error ENOENT k)
      end
    else (-1, demo_error EBADF k);
  epoll_wait e n k :=
    event ← head (omap (demo_report e k) (map_to_list (d_view k))); Some (1, [event], k);
  read _ n k := (n, k);
  write _ n k := (n, k);
  close_fd fd k := Demo (full k) (d_insts k ∖ {[fd]}) (delete fd (d_view k)) (d_ready k) (d_errno k);
  errno := d_errno;
|}.

Lemma used_spec k f : f ∉ used k -> f <> -1 /\ f ∉ d_insts k /\ d_view k !! f = None /\ forall fd v, d_view k !! fd = Some v -> v !! f = None.
Proof.
  unfold used. rewrite !not_elem_of_union, not_elem_of_singleton, (not_elem_of_dom (D := gset Z)). intros [[[H1 H2] H3] H4].
  split; [done|]. split; [done|]. split; [done|]. intros fd v Hv. apply (not_elem_of_dom (D := gset Z)). intros Hin.
  apply H4, elem_of_union_list. exists (dom v). split; [|done]. apply list_elem_of_fmap. exists (fd, v). split; [done|].
  by apply elem_of_map_to_list.
Qed.

#[export] Instance demo_laws : PipeLaws (K := demo_kernel) d_insts d_view demo_is_ready.
Proof.
  split; cbn.
  - intros k e k' [= <- <-]. split; [done|]. destruct (used_spec k _ (is_fresh (used k))) as (H1 & H2 & H3 & H4).
    rewrite decide_False by done. done.
  - intros k r a b k' [= <- <- <- <-]. split; [done|]. rewrite decide_False by done.
    destruct (used_spec k _ (is_fresh (used k))) as (A1 & A2 & A3 & _). set (a := fresh (used k)) in *.
    pose proof (is_fresh ({[a]} ∪ used k)) as Hb. set (b := fresh ({[a]} ∪ used k)) in *.
    apply not_elem_of_union in Hb as [Hab%not_elem_of_singleton Hb]. destruct (used_spec k b Hb) as (B1 & B2 & B3 & _). by auto 10.
  - intros e fd m p k r k'. unfold demo_register. destruct (full k); [intros [= <- <-]; done|].
    destruct (d_view k !! fd) as [v|]; [case_decide|]; intros [= <- <-]; [|done|done]. split; [done|].
    rewrite decide_False by done. split; [done|]. by exists v.
  - intros e fd m p k r k' v. unfold demo_register. intros E He Hv _. rewrite Hv, decide_True in E by done.
    by injection E as <- <-.
  - intros e fd k r k' v E He Hv. rewrite decide_True, Hv in E by done. by injection E as <- <-.
  - intros e fd k r k' E He. rewrite decide_False in E by done. by injection E as <- <-.
  - intros fd k Hf. split; [|done]. cbn. set_solver.
  - intros e n k r evs k'. destruct (head _) as [ev|] eqn:E; [|done]. intros [= <- <- <-].
    split; [done|]. split; [done|]. right. split; [done|]. split; [cbn; lia|]. constructor; [|done].
    assert (ev ∈ omap (demo_report e k) (map_to_list (d_view k))) as Hin.
    { destruct (omap _ _); [done|]. injection E as ->. left. }
    apply list_elem_of_omap in Hin as [[fd v] [Hin Hr]]. apply elem_of_map_to_list in Hin. unfold demo_report in Hr. cbn in Hr.
    destruct (v !! e) as [[m p]|] eqn:Em; [|done]. cbn in Hr. case_decide; [done|]. injection Hr as <-. by exists fd, v, m.
Qed.

(** ** Witnesses *)

(** The instance 3 at address 1, with a pipe whose ends are 4 (at 2) and 5
    (at 3); the writing end is ready. *)
Definition demo_world : world demo_kernel := {|
  kern := Demo false {[ 3 ]} {[ 4 := {[ 3 := (EPOLLIN, null) ]}; 5 := {[ 3 := (EPOLLOUT, null) ]} ]} {[ 5 := EPOLLOUT ]} 0;
  contexts := {[ 1%positive := IoContext 8 3 ]};
  pipes := {[ 2%positive := Pipe interest_read 4 1; 3%positive := Pipe interest_write 5 1 ]};
  awaiters := ∅;
|}.

Lemma demo_world_wf : wf (insts := d_insts) (view := d_view) demo_world.
Proof.
  split.
  - intros a p. cbn. rewrite lookup_insert_Some. intros [[_ <-]|[_ [_ <-]%lookup_singleton_Some]] _; cbn;
      eexists (IoContext 8 3), _; (split; [done|split; [set_solver|split; [set_solver|split; [done|by eexists]]]]).
  - intros a b p q. cbn. rewrite !lookup_insert_Some, !lookup_singleton_Some. naive_solver.
Qed.

(** The reading end is awaited, then both ends are destroyed. *)
Lemma pipes_own_descriptors_witness :
  (exists w, rtc (pipe_step (K := demo_kernel)) demo_world w /\ pipes w = ∅ /\
    wf (insts := d_insts) (view := d_view) w /\ forall f, unowned (view := d_view) w f <-> unowned (view := d_view) demo_world f) /\
  (exists w, run_op (OAwaitRead 2 9 8 64) demo_world = Ret w /\ awaiters w !! 9%positive = Some (Awaiter 2 None None (Some 8%positive) None)) /\
  run_op (OAwaitWrite 3 9 8 64) demo_world = Fault Uninitialised.
Proof.
  split.
  - eexists. match goal with |- ?P /\ _ => assert (Hr : P) end.
    + eapply rtc_l; [exists (OAwaitRead 2 9 8 64); split; [by eexists|vm_compute; reflexivity]|].
      eapply rtc_l; [exists (ODestroy 2%positive); split; [by eexists|vm_compute; reflexivity]|].
      eapply rtc_l; [exists (ODestroy 3%positive); split; [by eexists|vm_compute; reflexivity]|]. apply rtc_refl.
    + split; [exact Hr|]. split; [by vm_compute|].
      destruct (pipes_own_descriptors (ready := demo_is_ready) _ _ demo_world_wf Hr) as (H1 & H2 & _). by split.
  - destruct (pipes_own_descriptors (ready := demo_is_ready) _ _ demo_world_wf (rtc_refl _ _)) as (_ & _ & H1 & H2). split.
    + destruct (H1 (OAwaitRead 2 9 8 64)) as [w E]; [by exists (Pipe interest_read 4 1)|]. exists w. split; [exact E|].
      destruct (H2 2%positive 9%positive 8%positive 64 w) as (p & c & v & _ & _ & _ & _ & Hx); [by exists (Pipe interest_read 4 1)|exact E|exact Hx].
    + apply (H1 (OAwaitWrite 3 9 8 64)). by exists (Pipe interest_write 5 1).
Defined.

Lemma make_pipe_correct_witness :
  exists w', make_pipe 1 4 5 6 7 demo_world = (Ret tt, w') /\
    (forall f, unowned (view := d_view) w' f <-> unowned (view := d_view) demo_world f) /\ is_Some (pipes w' !! 7%positive).
Proof.
  destruct (make_pipe_correct (insts := d_insts) (view := d_view) (ready := demo_is_ready) demo_world 1 4 5 6 7 demo_world_wf)
    as (res & w' & E & _ & H).
  - by eexists.
  - by apply (bool_decide_unpack _).
  - by apply (bool_decide_unpack _).
  - assert (fst (make_pipe 1 4 5 6 7 demo_world) = Ret tt) as Er by (vm_compute; reflexivity).
    rewrite E in Er. cbn in Er. subst res. exists w'. split; [done|]. destruct H as (Hu & f0 & f1 & _ & ->). split; [done|].
    by eexists.
Defined.

(** The reading end alone, with data to read, and an awaiter at 9. *)
Definition demo_reader : world demo_kernel := {|
  kern := Demo false {[ 3 ]} {[ 4 := {[ 3 := (EPOLLIN, null) ]} ]} {[ 4 := EPOLLIN ]} 0;
  contexts := {[ 1%positive := IoContext 8 3 ]};
  pipes := {[ 2%positive := Pipe interest_read 4 1 ]};
  awaiters := {[ 9%positive := Awaiter 2 None None null None ]};
|}.

Lemma demo_reader_wf : wf (insts := d_insts) (view := d_view) demo_reader.
Proof.
  split.
  - intros a p. cbn. rewrite lookup_singleton_Some. intros [_ <-] _; cbn;
      eexists (IoContext 8 3), _; (split; [done|split; [set_solver|split; [set_solver|split; [done|by eexists]]]]).
  - intros a b p q. cbn. rewrite !lookup_singleton_Some. naive_solver.
Qed.

Lemma read_never_resumed_witness :
  exists w', read_await_suspend 9 8 demo_reader = (Ret true, w') /\ process_turn (fun _ => Ret) 1 w' = Diverged.
Proof.
  eexists. split; [vm_compute; reflexivity|].
  edestruct (read_never_resumed (insts := d_insts) (view := d_view) (ready := demo_is_ready) (fun _ => Ret) demo_reader 9 8
    (Awaiter 2 None None null None) (Pipe interest_read 4 1) (IoContext 8 3)) as [H|(evs & k & E & _)].
  - exact demo_reader_wf.
  - vm_compute; reflexivity.
  - vm_compute; reflexivity.
  - done.
  - vm_compute; reflexivity.
  - intros f v. cbn. rewrite lookup_singleton_Some. intros [<- _]. done.
  - vm_compute; reflexivity.
  - intros r E. vm_compute in E. discriminate E.
  - exact H.
  - vm_compute in E. discriminate E.
Defined.

Lemma resumed_read_uninitialised_witness :
  exists w1, read_await_suspend 9 8 (read_some 2 9 64 demo_world) = (Ret true, w1) /\
    process_event (fun _ w => r ← read_await_resume 9 w; Ret (snd r)) (EPOLLHUP, Some 9%positive) w1 = Fault Uninitialised.
Proof.
  eexists. split; [vm_compute; reflexivity|].
  eapply (resumed_read_uninitialised (insts := d_insts) (view := d_view) (ready := demo_is_ready) 2 9 64 8 demo_world _ _ EPOLLHUP
    (fun r => Ret (snd r)) demo_world_wf).
  - by eexists (Pipe interest_read 4 1).
  - vm_compute. reflexivity.
  - by right.
  - done.
Defined.

Lemma write_uninitialised_witness :
  exists w', write_await_suspend 9 8 (write_some 3 9 64 demo_world) = (Fault Uninitialised, w').
Proof.
  apply (write_uninitialised (insts := d_insts) (view := d_view) (ready := demo_is_ready) 3 9 64 8 demo_world demo_world_wf).
  by eexists (Pipe interest_write 5 1).
Defined.

Lemma unawaited_pipe_faults_witness : process_turn (fun _ => Ret) 1 demo_world = Fault NullDeref.
Proof.
  apply (unawaited_pipe_faults (insts := d_insts) (view := d_view) (ready := demo_is_ready) (fun _ => Ret) demo_world 1
    (IoContext 8 3) (1, [(EPOLLOUT, null)], kern demo_world)); [done| |vm_compute; reflexivity|done].
  intros f v m q. cbn. rewrite lookup_insert_Some, lookup_singleton_Some.
  intros [[_ <-]|[_ [_ <-]]] [_ E]%lookup_singleton_Some; injection E as <- <-; (split; [done|]);
    [by exists interest_read|by exists interest_write].
Defined.

Lemma moved_context_terminates_witness :
  exists w', move_context 8 1 demo_world = Ret w' /\ destroy_pipe 2 w' = Fault Terminated.
Proof.
  apply (moved_context_terminates (insts := d_insts) (view := d_view) (ready := demo_is_ready) demo_world 1 8
    (Pipe interest_read 4 1) 2 (IoContext 8 3) demo_world_wf); done.
Defined.

(** A second context, with the instance 6. *)
Definition demo_contexts : world demo_kernel :=
  World (kern demo_world) {[ 1%positive := IoContext 8 3; 8%positive := IoContext 4 6 ]} ∅ ∅.

Lemma context_assign_leaks_witness :
  exists w', move_assign_context 1 8 demo_contexts = Ret w' /\ kern w' = kern demo_contexts /\
    forall x y, contexts w' !! x = Some y -> instance y <> 3.
Proof.
  apply (context_assign_leaks demo_contexts 1 8 (IoContext 8 3) (IoContext 4 6)); try done.
  intros x y. cbn. rewrite lookup_insert_Some, lookup_singleton_Some. intros [[<- _]|[_ [_ <-]]]; done.
Defined.
End NixPipe.
