(* ===== verification/WinPipe.v ===== *)
(** * WinPipe: applications/pipes/win-pipe/

    [io_context.hpp] (a completion port), [ioc_awaiter_base.hpp],
    [readable_pipe.hpp], [writeable_pipe.hpp] and [pipe.hpp]. The system calls
    are the class [WinKernel]; [WinLaws] is what their documentation promises of
    the handles that are open. [PipeTest] is [test.cpp]: two threads on a pipe
    whose calls block. *)

From S2P Require Import Prelude.
From Stdlib Require Import Ascii String.
Local Open Scope Z_scope.

Module WinPipe.

(** ** The system calls *)

Definition INVALID_HANDLE_VALUE : Z := -1.
Definition NULL : Z := 0.
Definition ERROR_SUCCESS : Z := 0.
Definition ERROR_IO_PENDING : Z := 997.

(** A BOOL is 0 for failure and not 0 for success. [ReadFile] and [WriteFile]
    take the address of the OVERLAPPED object and return the status and the
    number of bytes that they store; [GetQueuedCompletionStatus] blocks for ever
    or returns the status, the number of bytes and the OVERLAPPED object.
    [CreateNamedPipeA] has a name, an open mode and the greatest number of
    instances, [CreateFileA] a name, an access and flags. *)
Class WinKernel (K : Type) := {
  CreateIoCompletionPort : Z -> Z -> Z -> Z -> K -> Z * K;
  CloseHandle : Z -> K -> K;
  CreateNamedPipeA : string -> Z -> Z -> K -> Z * K;
  CreateFileA : string -> Z -> Z -> K -> Z * K;
  ReadFile : Z -> Z -> addr -> K -> Z * Z * K;
  WriteFile : Z -> Z -> addr -> K -> Z * Z * K;
  GetQueuedCompletionStatus : Z -> K -> option (Z * Z * addr * K);
  GetLastError : K -> Z;
  GetCurrentProcessId : K -> Z;
}.

Section Program.
Context {K} `{WinKernel K}.

(** ** Data *)

(** The move constructor of [io_context] does not initialise [key]. *)
Record io_context := IoContext { port : Z; key : option Z }.

(** [readable_pipe] and [writeable_pipe] have the same members. *)
Record pipe_end := Pipe { ioc : addr; handle : Z }.

(** The awaiters of [read_some] and [write_some], with their base; [None] is a
    member that has not been initialised. *)
Record awaiter := Awaiter {
  me : addr;
  len : Z;
  error : Z;
  awaiting_coro : ptr;
  bytes_xfer : option Z;
}.

Record world := World {
  kern : K;
  PIPE_SERIAL_NO : Z;
  contexts : gmap addr io_context;
  pipes : gmap addr pipe_end;
  awaiters : gmap addr awaiter;
  out : list string;
}.

Definition set_kern (k : K) (w : world) : world :=
  World k (PIPE_SERIAL_NO w) (contexts w) (pipes w) (awaiters w) (out w).
Definition set_context (a : addr) (c : io_context) (w : world) : world :=
  World (kern w) (PIPE_SERIAL_NO w) (<[a := c]> (contexts w)) (pipes w) (awaiters w) (out w).
Definition set_pipe (a : addr) (p : pipe_end) (w : world) : world :=
  World (kern w) (PIPE_SERIAL_NO w) (contexts w) (<[a := p]> (pipes w)) (awaiters w) (out w).
Definition set_awaiter (a : addr) (x : awaiter) (w : world) : world :=
  World (kern w) (PIPE_SERIAL_NO w) (contexts w) (pipes w) (<[a := x]> (awaiters w)) (out w).
Definition print (s : string) (w : world) : world :=
  World (kern w) (PIPE_SERIAL_NO w) (contexts w) (pipes w) (awaiters w) (out w ++ [s]).

(** An operation that may throw part of the way keeps the state it has
    reached. *)
Abbreviation result A := (outcome A * world)%type.

(** ** io_context *)

Definition construct_context (a : addr) (max_threads : Z) (w : world) : result unit :=
  let '(port, k) := CreateIoCompletionPort INVALID_HANDLE_VALUE NULL 0 max_threads (kern w) in
  let w := set_kern k w in
  if decide (port = NULL) then (Raise (SystemError (GetLastError k)), w)
  else (Ret tt, set_context a (IoContext port (Some 0)) w).

Definition destroy_context (a : addr) (w : world) : outcome world :=
  c ← or_fault DoubleDestroy (contexts w !! a);
  Ret (World (CloseHandle (port c) (kern w)) (PIPE_SERIAL_NO w) (delete a (contexts w)) (pipes w) (awaiters w) (out w)).

(** The move constructor, for a new object at [a] *)
Definition move_context (a src : addr) (w : world) : outcome world :=
  c ← or_fault Dangling (contexts w !! src);
  Ret (set_context src (IoContext NULL (key c)) (set_context a (IoContext (port c) None) w)).

Definition move_assign_context (a src : addr) (w : world) : outcome world :=
  if decide (src <> a) then
    m ← or_fault Dangling (contexts w !! a);
    let w := set_kern (CloseHandle (port m) (kern w)) w in
    c ← or_fault Dangling (contexts w !! src);
    Ret (set_context src (IoContext NULL (key c)) (set_context a (IoContext (port c) (key m)) w))
  else Ret w.

Definition i64 (z : Z) : Z := (z + 2 ^ 63) mod 2 ^ 64 - 2 ^ 63.

(** [register_handle(handle)] of the context at [a]; the key is counted up. *)
Definition register_handle (a : addr) (handle : Z) (w : world) : result unit :=
  match (c ← or_fault Dangling (contexts w !! a); n ← or_fault Uninitialised (key c); Ret (c, i64 (n + 1))) with
  | Ret (c, n) =>
    let w := set_context a (IoContext (port c) (Some n)) w in
    let '(res, k) := CreateIoCompletionPort handle (port c) (u64 n) 0 (kern w) in
    (if decide (res = NULL) then Raise (SystemError (GetLastError k)) else Ret tt, set_kern k w)
  | Raise e => (Raise e, w)
  | Fault f => (Fault f, w)
  | Diverged => (Diverged, w)
  end.

(** The body of the loop of [process_events]; blocking for ever is
    divergence. *)
Definition process_turn (a : addr) (w : world) : outcome world :=
  c ← or_fault Dangling (contexts w !! a);
  match GetQueuedCompletionStatus (port c) (kern w) with
  | None => Diverged
  | Some (status, bytes_xfer, pov, k) =>
    let w := set_kern k w in
    Ret (if decide (status <> 0) then print "got completion" w else w)
  end.

(** [process_events] for the first [n] returns of the system call *)
Fixpoint process_events (n : nat) (a : addr) (w : world) : outcome world :=
  match n with O => Ret w | S n => w ← process_turn a w; process_events n a w end.

(** [ioc_awaiter_base::on_io_complete]: the handle that is resumed; nothing
    calls it. *)
Definition on_io_complete (ctx : addr) (n : Z) (w : world) : outcome (addr * world) :=
  x ← or_fault Dangling (awaiters w !! ctx);
  h ← or_fault NullDeref (awaiting_coro x);
  Ret (h, set_awaiter ctx (Awaiter (me x) (len x) (error x) (awaiting_coro x) (Some n)) w).

(** ** The pipes *)

(** The constructors *)
Definition construct_pipe (a ioc_ : addr) (handle_ : Z) (w : world) : result unit :=
  let '(r, w) := register_handle ioc_ handle_ w in
  match r with Ret _ => (Ret tt, set_pipe a (Pipe ioc_ handle_) w) | _ => (r, w) end.

Definition remove_pipe (a : addr) (w : world) : world :=
  World (kern w) (PIPE_SERIAL_NO w) (contexts w) (delete a (pipes w)) (awaiters w) (out w).

(** [~readable_pipe()] *)
Definition destroy_readable (a : addr) (w : world) : outcome world :=
  p ← or_fault DoubleDestroy (pipes w !! a);
  let w := if decide (INVALID_HANDLE_VALUE <> handle p) then set_kern (CloseHandle (handle p) (kern w)) w else w in
  Ret (remove_pipe a w).

(** [~writeable_pipe()]: without the test *)
Definition destroy_writeable (a : addr) (w : world) : outcome world :=
  p ← or_fault DoubleDestroy (pipes w !! a);
  Ret (remove_pipe a (set_kern (CloseHandle (handle p) (kern w)) w)).

(** The move constructors, for a new object at [a] *)
Definition move_pipe (a src : addr) (w : world) : outcome world :=
  p ← or_fault Dangling (pipes w !! src);
  Ret (set_pipe src (Pipe (ioc p) INVALID_HANDLE_VALUE) (set_pipe a p w)).

(** [readable_pipe::read] on a caller's OVERLAPPED *)
Definition read (a : addr) (len_ : Z) (ov : addr) (w : world) : outcome world :=
  p ← or_fault Dangling (pipes w !! a);
  let w := print "handle" w in
  let '(status, n_read, k) := ReadFile (handle p) (u32 len_) ov (kern w) in
  let w := set_kern k w in
  Ret (print (if decide (status = 0 /\ GetLastError k = ERROR_IO_PENDING) then "pending" else "err") w).

(** *** read_some *)

Definition read_some (a x : addr) (len_ : Z) (w : world) : world := set_awaiter x (Awaiter a len_ 0 null None) w.

Definition read_await_suspend (x h : addr) (w : world) : outcome (bool * world) :=
  y ← or_fault Dangling (awaiters w !! x);
  p ← or_fault Dangling (pipes w !! me y);
  let '(status, n, k) := ReadFile (handle p) (u32 (len y)) x (kern w) in
  let w := set_kern k w in
  let err := GetLastError k in
  if decide (status = 0 /\ err = ERROR_IO_PENDING) then
    Ret (true, set_awaiter x (Awaiter (me y) (len y) (error y) (Some h) (Some n)) w)
  else Ret (false, print "err" (set_awaiter x (Awaiter (me y) (len y) err (Some h) (Some n)) w)).

Definition await_resume (x : addr) (w : world) : outcome Z :=
  y ← or_fault Dangling (awaiters w !! x); or_fault Uninitialised (bytes_xfer y).

(** *** write_some *)

Definition write_some (a x : addr) (len_ : Z) (w : world) : world := set_awaiter x (Awaiter a len_ 0 null None) w.

(** The number of bytes goes to a local variable, and the handle of the
    coroutine nowhere. *)
Definition write_await_suspend (x h : addr) (w : world) : result bool :=
  match (y ← or_fault Dangling (awaiters w !! x); p ← or_fault Dangling (pipes w !! me y); Ret (y, p)) with
  | Ret (y, p) =>
    let '(status, bytes_written, k) := WriteFile (handle p) (u32 (len y)) x (kern w) in
    let w := set_kern k w in
    if decide (ERROR_IO_PENDING = status) then (Ret true, w)
    else if decide (status <> ERROR_SUCCESS) then (Raise (SystemError (GetLastError k)), w)
    else (Ret false, w)
  | Raise e => (Raise e, w)
  | Fault f => (Fault f, w)
  | Diverged => (Diverged, w)
  end.

(** [co_await] on either awaiter, up to the value or the suspension *)
Definition co_await_read (x h : addr) (w : world) : result (option Z) :=
  match read_await_suspend x h w with
  | Ret (true, w) => (Ret None, w)
  | Ret (false, w) => (Some <$> await_resume x w, w)
  | Raise e => (Raise e, w)
  | Fault f => (Fault f, w)
  | Diverged => (Diverged, w)
  end.

Definition co_await_write (x h : addr) (w : world) : result (option Z) :=
  let '(r, w) := write_await_suspend x h w in
  match r with
  | Ret true => (Ret None, w)
  | Ret false => (Some <$> await_resume x w, w)
  | Raise e => (Raise e, w)
  | Fault f => (Fault f, w)
  | Diverged => (Diverged, w)
  end.

(** ** pipe.hpp *)

Definition hex_digit (d : Z) : ascii := ascii_of_N (Z.to_N (if decide (d < 10) then 48 + d else 55 + d)).

(** [n] digits of %X, and %08X of a 32-bit number *)
Fixpoint hex (n : nat) (z : Z) : string :=
  match n with
  | O => ""
  | S n => String (hex_digit (z / 16 ^ Z.of_nat n mod 16)) (hex n z)
  end.
Definition hex08 (z : Z) : string := hex 8 (u32 z).

Definition pipe_name (pid serial : Z) : string := "\\.\Pipe\LOCAL." ++ hex08 pid ++ "." ++ hex08 serial.

Definition PIPE_ACCESS_INBOUND : Z := 1.
Definition GENERIC_WRITE : Z := 0x40000000.
Definition FILE_ATTRIBUTE_NORMAL : Z := 0x80.

(** [create_pipe_ex(...)]: the two handles, or [None] for false *)
Definition create_pipe_ex (read_mode write_mode : Z) (w : world) : option (Z * Z) * world :=
  let serial := u32 (PIPE_SERIAL_NO w + 1) in
  let w := World (kern w) serial (contexts w) (pipes w) (awaiters w) (out w) in
  let pipe_name_buffer := pipe_name (GetCurrentProcessId (kern w)) serial in
  let '(read_handle, k) := CreateNamedPipeA pipe_name_buffer (Z.lor PIPE_ACCESS_INBOUND read_mode) 1 (kern w) in
  if decide (INVALID_HANDLE_VALUE = read_handle) then (None, set_kern k w)
  else
    let '(write_handle, k) := CreateFileA pipe_name_buffer GENERIC_WRITE (Z.lor FILE_ATTRIBUTE_NORMAL write_mode) k in
    if decide (INVALID_HANDLE_VALUE = write_handle) then (None, set_kern (CloseHandle read_handle k) w)
    else (Some (read_handle, write_handle), set_kern k w).

Definition FILE_FLAG_OVERLAPPED : Z := 0x40000000.

(** [pipe(ioc)]: the temporaries at [t0], that reads, and [t1], that writes, are
    made in one order or the other, moved into the pair at [a0] and [a1], and
    destroyed in the reverse order. When the second constructor throws the
    temporary that there is is destroyed. *)
Definition destroy_one (readable : bool) (a : addr) (w : world) : outcome world :=
  if readable then destroy_readable a w else destroy_writeable a w.

Definition pipe (reader_first : bool) (ioc_ t0 t1 a0 a1 : addr) (w : world) : result unit :=
  let '(r, w) := create_pipe_ex FILE_FLAG_OVERLAPPED FILE_FLAG_OVERLAPPED w in
  match r with
  | None => (Raise (SystemError (GetLastError (kern w))), w)
  | Some (reader, writer) =>
    let '(t, h, t', h') := if reader_first then (t0, reader, t1, writer) else (t1, writer, t0, reader) in
    let '(x, w) := construct_pipe t ioc_ h w in
    match x with
    | Ret _ =>
      let '(x, w) := construct_pipe t' ioc_ h' w in
      match x with
      | Ret _ =>
        match (w ← move_pipe a0 t0 w; w ← move_pipe a1 t1 w;
               w ← destroy_one (negb reader_first) t' w; destroy_one reader_first t w) with
        | Ret w => (Ret tt, w)
        | y => ((fun _ => tt) <$> y, w)
        end
      | Raise e => match destroy_one reader_first t w with Ret w => (Raise e, w) | y => ((fun _ => tt) <$> y, w) end
      | _ => (x, w)
      end
    | _ => (x, w)
    end
  end.
End Program.
Arguments world : clear implicits.

(** ** Names of pipes *)

Lemma hex_digit_inj a b : 0 <= a < 16 -> 0 <= b < 16 -> hex_digit a = hex_digit b -> a = b.
Proof.
  unfold hex_digit. intros Ha Hb E. apply (f_equal N_of_ascii) in E.
  rewrite N_ascii_embedding in E by (repeat case_decide; lia). rewrite N_ascii_embedding in E by (repeat case_decide; lia).
  repeat case_decide; lia.
Qed.

Lemma hex_inj n a b : hex n a = hex n b -> a mod 16 ^ Z.of_nat n = b mod 16 ^ Z.of_nat n.
Proof.
  induction n as [|n IH]; cbn [hex].
  - intros _. by rewrite !Z.mod_1_r.
  - intros [= Ed Er]. apply hex_digit_inj in Ed; [|apply Z.mod_pos_bound; lia|apply Z.mod_pos_bound; lia].
    rewrite Nat2Z.inj_succ, Z.pow_succ_r, Z.mul_comm by lia.
    assert (0 < 16 ^ Z.of_nat n) by (apply Z.pow_pos_nonneg; lia).
    rewrite !Z.rem_mul_r by lia. rewrite Ed, (IH Er). done.
Qed.

Lemma append_cancel (s a b : string) : (s ++ a = s ++ b)%string -> a = b.
Proof. induction s as [|c s IH]; cbn; [done|]. intros [= E]. by apply IH. Qed.

Lemma pipe_name_inj pid a b : 0 <= a < 2 ^ 32 -> 0 <= b < 2 ^ 32 -> pipe_name pid a = pipe_name pid b -> a = b.
Proof.
  intros Ha Hb E. unfold pipe_name in E. do 3 apply append_cancel in E. apply hex_inj in E.
  rewrite !u32_small in E by done. by rewrite !Z.mod_small in E by done.
Qed.

(** ** What the system promises *)

Inductive side := ReadEnd | WriteEnd.

#[export] Instance side_eq_dec : EqDecision side.
Proof. solve_decision. Defined.

(** The handles that are open are [open], and those of them that are the ends of
    a named pipe [ends], each with its side and the name. A pipe that data only
    comes in by is read by who has created it; where it may have one instance,
    none of its ends exists before. A file that is opened to write, with the name
    of a pipe, is the other end of a pipe of that name that has none yet. *)
Class WinLaws {K} `{WinKernel K} (open : K -> gset Z) (ends : K -> gmap Z (side * string)) := {
  law_pid k k' : GetCurrentProcessId k = GetCurrentProcessId k';
  law_ends k : dom (ends k) ⊆ open k;
  law_port h p key n k r k' : CreateIoCompletionPort h p key n k = (r, k') ->
    open k' = (if decide (h = INVALID_HANDLE_VALUE /\ r <> NULL) then {[r]} ∪ open k else open k) /\ ends k' = ends k;
  law_close h k : h ∈ open k ->
    open (CloseHandle h k) = open k ∖ {[h]} /\ ends (CloseHandle h k) = delete h (ends k);
  law_close_invalid k :
    open (CloseHandle INVALID_HANDLE_VALUE k) = open k /\ ends (CloseHandle INVALID_HANDLE_VALUE k) = ends k;
  law_named name m k h k' : CreateNamedPipeA name m 1 k = (h, k') -> Z.land m 3 = PIPE_ACCESS_INBOUND ->
    if decide (INVALID_HANDLE_VALUE = h) then open k' = open k /\ ends k' = ends k
    else h ∉ open k /\ open k' = {[h]} ∪ open k /\ ends k' = <[h := (ReadEnd, name)]> (ends k) /\
      forall x s, ends k !! x <> Some (s, name);
  law_file name m k h k' : CreateFileA name GENERIC_WRITE m k = (h, k') ->
    if decide (INVALID_HANDLE_VALUE = h) then open k' = open k /\ ends k' = ends k
    else h ∉ open k /\ open k' = {[h]} ∪ open k /\
      ((exists x, ends k !! x = Some (ReadEnd, name)) -> ends k' = <[h := (WriteEnd, name)]> (ends k) /\
        forall x, ends k !! x <> Some (WriteEnd, name));
}.

Section Pipes.
Context {K} `{L : WinLaws K open ends}.
Implicit Types w : world K.

(** The pipe [name] has two ends: [r] reads from it and [h] writes to it. *)
Definition is_pipe (name : string) (r h : Z) (k : K) : Prop :=
  forall x s, ends k !! x = Some (s, name) <-> x = r /\ s = ReadEnd \/ x = h /\ s = WriteEnd.

(** *** create_pipe_ex and pipe *)

(** The modes that the callers pass *)
Definition pipe_mode (m : Z) : Prop := m = 0 \/ m = FILE_FLAG_OVERLAPPED.

Definition next_name w : string := pipe_name (GetCurrentProcessId (kern w)) (u32 (PIPE_SERIAL_NO w + 1)).

Lemma inbound m : pipe_mode m -> Z.land (Z.lor PIPE_ACCESS_INBOUND m) 3 = PIPE_ACCESS_INBOUND.
Proof. by intros [->| ->]. Qed.

(** The ends of a new pipe with the next name, or nothing has changed. *)
Lemma create_pipe_ex_spec m1 m2 w : pipe_mode m1 ->
  PIPE_SERIAL_NO (snd (create_pipe_ex m1 m2 w)) = u32 (PIPE_SERIAL_NO w + 1) /\
  match create_pipe_ex m1 m2 w with
  | (None, w') => open (kern w') = open (kern w) /\ ends (kern w') = ends (kern w)
  | (Some (r, h), w') => r <> INVALID_HANDLE_VALUE /\ h <> INVALID_HANDLE_VALUE /\ r <> h /\
      r ∉ open (kern w) /\ h ∉ open (kern w) /\ open (kern w') = {[r; h]} ∪ open (kern w) /\
      ends (kern w') = <[h := (WriteEnd, next_name w)]> (<[r := (ReadEnd, next_name w)]> (ends (kern w))) /\
      is_pipe (next_name w) r h (kern w') /\ contexts w' = contexts w /\ pipes w' = pipes w
  end.
Proof.
  intros Hm. unfold create_pipe_ex. cbn [kern]. fold (next_name w).
  destruct (CreateNamedPipeA (next_name w) _ 1 (kern w)) as [r k1] eqn:E1. pose proof (law_named _ _ _ _ _ E1 (inbound m1 Hm)) as O1.
  case_decide as H1; [done|]. destruct O1 as (N1 & O1 & P1 & F1).
  destruct (CreateFileA (next_name w) _ _ k1) as [h k2] eqn:E2. pose proof (law_file _ _ _ _ _ E2) as O2.
  case_decide as H2; cbn; (split; [done|]); destruct O2 as [O2 P2].
  - destruct (law_close r k2) as [-> ->]; [set_solver|]. rewrite O2, O1, P2, P1. split; [set_solver|].
    apply delete_insert_id, not_elem_of_dom. intros Hin. by apply N1, (law_ends (kern w)).
  - rename O2 into N2. destruct P2 as (O2 & P2). destruct P2 as [P2 F2]; [exists r; rewrite P1; lookup_cases|].
    rewrite O1 in N2. assert (r <> h) as Hrh by set_solver. rewrite O2, O1, P2, P1.
    repeat split; [done|done|done|done|set_solver|set_solver|..|intros H3; revert H3].
    + intros H3. rewrite P2, P1 in H3. apply lookup_insert_Some in H3 as [[<- [= <-]]|[_ H3]]; [by right|].
      apply lookup_insert_Some in H3 as [[<- [= <-]]|[_ H3]]; [by left|]. by destruct (F1 x s).
    + rewrite P2, P1. intros [[-> ->]|[-> ->]]; lookup_cases.
Qed.

Lemma construct_win_pipe_spec a ioc_ h w r w' :
  construct_pipe a ioc_ h w = (r, w') -> h <> INVALID_HANDLE_VALUE -> is_Some (contexts w !! ioc_ ≫= key) ->
  open (kern w') = open (kern w) /\ ends (kern w') = ends (kern w) /\ is_Some (contexts w' !! ioc_ ≫= key) /\
  ((r = Ret tt /\ pipes w' = <[a := Pipe ioc_ h]> (pipes w)) \/ (exists e, r = Raise e /\ pipes w' = pipes w)).
Proof.
  intros E Hh [n Hn]. destruct (contexts w !! ioc_) as [c|] eqn:Ec; cbn in Hn; [|done].
  revert E. unfold construct_pipe, register_handle. rewrite Ec. cbn [or_fault]. run_bind. rewrite Hn. cbn [or_fault]. run_bind.
  cbn [kern set_context].
  destruct (CreateIoCompletionPort h (port c) (u64 (i64 (n + 1))) 0 (kern w)) as [x k] eqn:Ek.
  destruct (law_port _ _ _ _ _ _ _ Ek) as [O P]. rewrite decide_False in O by (by intros [? _]).
  case_decide; intros [= <- <-]; cbn; rewrite lookup_insert_eq; (split; [done|split; [done|split; [by eexists|]]]); [right; by eexists|by left].
Qed.

(** A temporary that has been moved from is destroyed. *)
Lemma destroy_moved readable a w c :
  pipes w !! a = Some (Pipe c INVALID_HANDLE_VALUE) ->
  exists w', destroy_one readable a w = Ret w' /\ open (kern w') = open (kern w) /\ ends (kern w') = ends (kern w) /\
    pipes w' = delete a (pipes w).
Proof.
  intros Ep. destruct (law_close_invalid (kern w)) as [O P].
  destruct readable; cbn [destroy_one]; unfold destroy_readable, destroy_writeable; rewrite Ep; cbn [or_fault]; run_bind; by eexists.
Qed.

(** The temporaries move into the pair and are destroyed. *)
Lemma make_win_pair_spec (d : bool) w t0 t1 a0 a1 p q :
  pipes w !! t0 = Some p -> pipes w !! t1 = Some q -> NoDup [t0; t1; a0; a1] ->
  let '(t, t') := if d then (t0, t1) else (t1, t0) in
  exists w', (w ← move_pipe a0 t0 w; w ← move_pipe a1 t1 w; w ← destroy_one (negb d) t' w; destroy_one d t w) = Ret w' /\
    open (kern w') = open (kern w) /\ ends (kern w') = ends (kern w) /\ pipes w' !! a0 = Some p /\ pipes w' !! a1 = Some q.
Proof.
  intros P0 P1 Hnd. assert (t0 <> t1 /\ t0 <> a0 /\ t0 <> a1 /\ t1 <> a0 /\ t1 <> a1 /\ a0 <> a1) as (D1 & D2 & D3 & D4 & D5 & D6).
  { rewrite !NoDup_cons in Hnd. set_solver. }
  destruct (if d then _ else _) as [t t'] eqn:Et.
  unfold move_pipe. rewrite P0. cbn [or_fault]. run_bind. cbn [pipes set_pipe].
  assert (forall (m : gmap addr pipe_end) x, <[t0 := x]> (<[a0 := p]> m) !! t1 = m !! t1) as -> by (intros; lookup_cases).
  rewrite P1. cbn [or_fault]. run_bind. set (w1 := set_pipe t1 _ _).
  assert (pipes w1 !! t0 = Some (Pipe (ioc p) INVALID_HANDLE_VALUE) /\ pipes w1 !! t1 = Some (Pipe (ioc q) INVALID_HANDLE_VALUE) /\
    pipes w1 !! a0 = Some p /\ pipes w1 !! a1 = Some q) as (T0 & T1 & A0 & A1) by (cbn [w1 set_pipe pipes]; split_and!; lookup_cases).
  assert (open (kern w1) = open (kern w) /\ ends (kern w1) = ends (kern w)) as [<- <-] by done. clearbody w1.
  destruct d; injection Et as <- <-; cbn [negb].
  - destruct (destroy_moved false t1 w1 _ T1) as (w2 & -> & <- & <- & Q2). run_bind.
    destruct (destroy_moved true t0 w2 (ioc p)) as (w3 & -> & O3 & P3 & Q3); [rewrite Q2; lookup_cases|].
    exists w3. rewrite O3, P3, Q3, Q2. split_and!; [done|done|done|lookup_cases|lookup_cases].
  - destruct (destroy_moved true t0 w1 _ T0) as (w2 & -> & <- & <- & Q2). run_bind.
    destruct (destroy_moved false t1 w2 (ioc q)) as (w3 & -> & O3 & P3 & Q3); [rewrite Q2; lookup_cases|].
    exists w3. rewrite O3, P3, Q3, Q2. split_and!; [done|done|done|lookup_cases|lookup_cases].
Qed.

Lemma destroy_one_spec readable w a p :
  pipes w !! a = Some p -> handle p <> INVALID_HANDLE_VALUE -> handle p ∈ open (kern w) ->
  exists w', destroy_one readable a w = Ret w' /\ open (kern w') = open (kern w) ∖ {[handle p]} /\
    ends (kern w') = delete (handle p) (ends (kern w)) /\ pipes w' = delete a (pipes w).
Proof.
  intros Ep Hh Ho. destruct (law_close _ _ Ho) as [O P].
  destruct readable; cbn [destroy_one]; unfold destroy_readable, destroy_writeable; rewrite Ep; cbn [or_fault]; run_bind;
    rewrite ?decide_True by auto; by eexists.
Qed.

Lemma two_handles (r h : Z) (S : gset Z) :
  r ∉ S -> h ∉ S -> r <> h -> ({[r; h]} ∪ S) ∖ {[r]} = {[h]} ∪ S /\ ({[h]} ∪ S) ∖ {[h]} = S.
Proof. intros Hr Hh Hne. split; set_solver. Qed.

(** The pair is destroyed. *)
Lemma destroy_pair ioc_ a0 a1 r h w w1 x y :
  a0 <> a1 -> r <> INVALID_HANDLE_VALUE -> h <> INVALID_HANDLE_VALUE -> r <> h -> r ∉ open (kern w) -> h ∉ open (kern w) ->
  open (kern w1) = {[r; h]} ∪ open (kern w) -> ends (kern w1) = <[h := x]> (<[r := y]> (ends (kern w))) ->
  pipes w1 !! a0 = Some (Pipe ioc_ r) -> pipes w1 !! a1 = Some (Pipe ioc_ h) ->
  exists w2 w3, destroy_readable a0 w1 = Ret w2 /\ open (kern w2) = {[h]} ∪ open (kern w) /\
    destroy_writeable a1 w2 = Ret w3 /\ open (kern w3) = open (kern w) /\ ends (kern w3) = ends (kern w).
Proof.
  intros D Nr Nh Nrh Fr Fh O P A0 A1.
  destruct (destroy_one_spec true w1 a0 _ A0) as (w2 & E2 & O2 & P2 & Q2); [done|cbn; set_solver|].
  destruct (destroy_one_spec false w2 a1 (Pipe ioc_ h)) as (w3 & E3 & O3 & P3 & Q3); [rewrite Q2; lookup_cases|done|cbn in *; set_solver|].
  cbn [destroy_one handle] in *. destruct (two_handles r h (open (kern w))) as [S1 S2]; [done..|].
  rewrite O, S1 in O2. rewrite O2, S2 in O3. exists w2, w3. split_and!; [done..|]. rewrite P3, P2, P.
  assert (forall z, z ∉ open (kern w) -> ends (kern w) !! z = None) as Hf.
  { intros z Hz. apply not_elem_of_dom. intros Hin. by apply Hz, law_ends. }
  apply map_eq. intros z. pose proof (Hf r Fr). pose proof (Hf h Fh). lookup_cases.
Qed.

(** C38. [pipe] opens two handles that are the ends of a new pipe, with no other
    end: the first object that it returns has the one that reads and the second
    the one that writes, whichever the compiler makes first; destroying them closes
    exactly these two handles. It throws when the system does not make the pipe,
    with nothing open; and when one of them cannot be registered with the context:
    then both handles stay open, or, if it was the second, that one. *)
Theorem pipe_round_trip (reader_first : bool) ioc_ t0 t1 a0 a1 w r w1 :
  NoDup [t0; t1; a0; a1] -> is_Some (contexts w !! ioc_ ≫= key) -> pipe reader_first ioc_ t0 t1 a0 a1 w = (r, w1) ->
  match r, create_pipe_ex FILE_FLAG_OVERLAPPED FILE_FLAG_OVERLAPPED w with
  | Ret _, (Some (rd, wr), _) =>
      rd ∉ open (kern w) /\ wr ∉ open (kern w) /\ open (kern w1) = {[rd; wr]} ∪ open (kern w) /\
      is_pipe (next_name w) rd wr (kern w1) /\
      pipes w1 !! a0 = Some (Pipe ioc_ rd) /\ pipes w1 !! a1 = Some (Pipe ioc_ wr) /\
      exists w2 w3, destroy_readable a0 w1 = Ret w2 /\ open (kern w2) = {[wr]} ∪ open (kern w) /\
        destroy_writeable a1 w2 = Ret w3 /\ open (kern w3) = open (kern w) /\ ends (kern w3) = ends (kern w)
  | Raise e, (None, _) => e = SystemError (GetLastError (kern w1)) /\ open (kern w1) = open (kern w)
  | Raise e, (Some (rd, wr), w') =>
      let '(t, h, h') := if reader_first then (t0, rd, wr) else (t1, wr, rd) in
      rd ∉ open (kern w) /\ wr ∉ open (kern w) /\
      open (kern w1) = match construct_pipe t ioc_ h w' with (Ret _, _) => {[h']} | _ => {[h; h']} end ∪ open (kern w)
  | _, _ => False
  end.
Proof.
  intros Hnd Hc. assert (t0 <> t1 /\ a0 <> a1) as [D1 D2] by (rewrite !NoDup_cons in Hnd; set_solver).
  unfold pipe. pose proof (proj2 (create_pipe_ex_spec FILE_FLAG_OVERLAPPED FILE_FLAG_OVERLAPPED w ltac:(by right))) as Hs.
  destruct (create_pipe_ex _ _ w) as [[[rd wr]|] w'] eqn:E0; [|intros [= <- <-]; by destruct Hs].
  destruct Hs as (Nr & Nh & Nrh & Fr & Fh & O & P & Hp & Hcs & Hps).
  destruct (if reader_first then (t0, rd, t1, wr) else (t1, wr, t0, rd)) as [[[t h] t'] h'] eqn:Eo.
  assert (h <> INVALID_HANDLE_VALUE /\ h' <> INVALID_HANDLE_VALUE /\ {[h; h']} =@{gset Z} {[rd; wr]} /\ t <> t' /\ h <> h') as (Nx & Ny & Hset & Dt & Dh)
    by (destruct reader_first; injection Eo as <- <- <- <-; split_and!; (done || set_solver)).
  assert ((if reader_first then (t0, rd, wr) else (t1, wr, rd)) = (t, h, h')) as -> by (destruct reader_first; by injection Eo as <- <- <- <-).
  destruct (construct_pipe t ioc_ h w') as [x w4] eqn:E1.
  destruct (construct_win_pipe_spec _ _ _ _ _ _ E1 Nx) as (O1 & P1 & Hc1 & [[-> Q1]|(e & -> & Q1)]);
    [by rewrite Hcs| |intros [= <- <-]; rewrite O1, O, Hset; done].
  destruct (construct_pipe t' ioc_ h' w4) as [x w5] eqn:E2.
  destruct (construct_win_pipe_spec _ _ _ _ _ _ E2 Ny Hc1) as (O2 & P2 & Hc2 & [[-> Q2]|(e & -> & Q2)]); rewrite O1, O in O2.
  - assert (pipes w5 !! t0 = Some (Pipe ioc_ rd) /\ pipes w5 !! t1 = Some (Pipe ioc_ wr)) as [T0 T1]
      by (rewrite Q2, Q1; destruct reader_first; injection Eo as <- <- <- <-; split; lookup_cases).
    pose proof (make_win_pair_spec reader_first w5 t0 t1 a0 a1 _ _ T0 T1 Hnd) as Hm.
    assert ((if reader_first then (t0, t1) else (t1, t0)) = (t, t')) as Et by (destruct reader_first; by injection Eo as <- <- <- <-).
    rewrite Et in Hm. destruct Hm as (w6 & -> & O6 & P6 & A0 & A1). rewrite O2 in O6. rewrite P2, P1 in P6.
    intros [= <- <-]. split_and!; [done|done|done|by unfold is_pipe; rewrite P6|done|done|].
    rewrite P in P6. by apply (destroy_pair ioc_ a0 a1 rd wr w w6 _ _ D2 Nr Nh Nrh Fr Fh O6 P6 A0 A1).
  - assert (pipes w5 !! t = Some (Pipe ioc_ h)) as A by (rewrite Q2, Q1; lookup_cases).
    destruct (destroy_one_spec reader_first w5 t _ A) as (w6 & -> & O6 & _); [done|cbn; rewrite O2, <- Hset; clear; set_solver|]. cbn [handle] in O6.
    intros [= <- <-]. split_and!; [done|done|]. rewrite O6, O2, <- Hset.
    assert (h ∉ open (kern w)) as H1 by (destruct reader_first; by injection Eo as <- <- <- <-). clear -Dh H1. set_solver.
Qed.

(** A run in which the program calls [create_pipe_ex], with the results of the
    calls and the states in which they return; in between anything may happen, but
    only [create_pipe_ex] counts. *)
Inductive creations (w0 : world K) : list (option (Z * Z) * world K) -> Z -> Prop :=
| creations_nil : creations w0 [] (PIPE_SERIAL_NO w0)
| creations_snoc l w m1 m2 : creations w0 l (PIPE_SERIAL_NO w) -> pipe_mode m1 ->
    creations w0 (l ++ [create_pipe_ex m1 m2 w])%list (PIPE_SERIAL_NO (snd (create_pipe_ex m1 m2 w))).

Lemma creations_serial w0 l n : creations w0 l n -> u32 n = u32 (PIPE_SERIAL_NO w0 + Z.of_nat (List.length l)).
Proof.
  induction 1 as [|l w m1 m2 _ IH Hm]; [cbn; by rewrite Z.add_0_r|]. rewrite (proj1 (create_pipe_ex_spec m1 m2 w Hm)), length_app.
  cbn. unfold u32 in *. rewrite Z.mod_mod by lia. rewrite <- Z.add_mod_idemp_l, IH, Z.add_mod_idemp_l by lia. f_equal. lia.
Qed.

Lemma creations_ends w0 l n i r h w :
  creations w0 l n -> l !! i = Some (Some (r, h), w) ->
  is_pipe (pipe_name (GetCurrentProcessId (kern w0)) (u32 (PIPE_SERIAL_NO w0 + 1 + Z.of_nat i))) r h (kern w).
Proof.
  induction 1 as [|l w1 m1 m2 Hl IH Hm]; intros Hi; [done|]. apply lookup_app_Some in Hi as [Hi|[Hlen Hi]]; [by apply IH|].
  apply list_lookup_singleton_Some in Hi as [Hi E]. apply creations_serial in Hl.
  pose proof (proj2 (create_pipe_ex_spec m1 m2 w1 Hm)) as Hs. rewrite E in Hs. destruct Hs as (_ & _ & _ & _ & _ & _ & _ & Hp & _).
  assert (i = List.length l) as -> by lia. unfold next_name in Hp. rewrite (law_pid (kern w1) (kern w0)) in Hp.
  replace (u32 (PIPE_SERIAL_NO w0 + 1 + Z.of_nat (List.length l))) with (u32 (PIPE_SERIAL_NO w1 + 1)); [done|].
  unfold u32 in *. rewrite <- (Z.add_mod_idemp_l (PIPE_SERIAL_NO w1)), Hl, Z.add_mod_idemp_l by lia. f_equal. lia.
Qed.

Lemma serials_distinct pid serial i j :
  0 <= i < 2 ^ 32 -> 0 <= j < 2 ^ 32 -> pipe_name pid (u32 (serial + i)) = pipe_name pid (u32 (serial + j)) -> i = j.
Proof.
  intros Hi Hj E. apply pipe_name_inj in E; [|apply u32_range|apply u32_range]. unfold u32 in E.
  pose proof (Z.div_mod (serial + i) (2 ^ 32) ltac:(lia)). pose proof (Z.div_mod (serial + j) (2 ^ 32) ltac:(lia)). lia.
Qed.

(** C39. Calls of [create_pipe_ex] make pipes with names of their own, until the
    32-bit counter is back where it started: each call that succeeds returns the two
    ends of one pipe, and two calls those of pipes with different names; so the writer
    of one of them is an end of no other, however long it stays open. *)
Theorem pipe_names_distinct w0 l n :
  creations w0 l n -> Z.of_nat (List.length l) <= 2 ^ 32 ->
  exists names : nat -> string,
    (forall i r h w, l !! i = Some (Some (r, h), w) -> is_pipe (names i) r h (kern w)) /\
    (forall i j, (i < List.length l)%nat -> (j < List.length l)%nat -> names i = names j -> i = j) /\
    forall i j r h w r' h' w', l !! i = Some (Some (r, h), w) -> l !! j = Some (Some (r', h'), w') -> i <> j ->
      ends (kern w') !! h = ends (kern w) !! h -> h <> r' /\ h <> h'.
Proof.
  intros Hl Hlen. set (names i := pipe_name (GetCurrentProcessId (kern w0)) (u32 (PIPE_SERIAL_NO w0 + 1 + Z.of_nat i))).
  assert (forall i r h w, l !! i = Some (Some (r, h), w) -> is_pipe (names i) r h (kern w)) as Hp by (intros i r h w; by apply (creations_ends w0 l n)).
  assert (forall i j, (i < List.length l)%nat -> (j < List.length l)%nat -> names i = names j -> i = j) as Hn.
  { intros i j Hi Hj E. apply serials_distinct in E; lia. }
  exists names. split; [done|]. split; [done|]. intros i j r h w r' h' w' Ei Ej Hij Hh.
  assert (ends (kern w) !! h = Some (WriteEnd, names i)) as Ew by (apply (Hp i r h w Ei); by right). rewrite Ew in Hh.
  assert (names i <> names j) as Hne by (intros E; apply Hij, Hn, E; by eapply lookup_lt_Some).
  split; intros ->; [assert (ends (kern w') !! r' = Some (ReadEnd, names j)) as E' by (apply (Hp j r' h' w' Ej); by left)
    |assert (ends (kern w') !! h' = Some (WriteEnd, names j)) as E' by (apply (Hp j r' h' w' Ej); by right)]; congruence.
Qed.
End Pipes.

(** ** Where the code fails *)

Section Faults.
Context {K} `{WinKernel K}.
Implicit Types w : world K.

(** C40. [WriteFile] returns a BOOL, and [await_suspend] compares it with error
    codes: a write that succeeds throws; one that fails or is pending is taken
    for complete, and the coroutine goes on to read a count that nobody has
    set. No [co_await] of a write ever returns a value. (The third case, a BOOL
    of 997, would suspend a coroutine whose handle nobody has kept.) *)
Theorem write_never_returns a x h n p w :
  pipes w !! a = Some p ->
  let '(status, _, k) := WriteFile (handle p) (u32 n) x (kern w) in
  match co_await_write x h (write_some a x n w) with
  | (Raise e, _) => status <> 0 /\ status <> ERROR_IO_PENDING /\ e = SystemError (GetLastError k)
  | (Fault f, _) => status = 0 /\ f = Uninitialised
  | (Ret v, w') => status = ERROR_IO_PENDING /\ v = None /\ forall b, on_io_complete x b w' = Fault NullDeref
  | (Diverged, _) => False
  end.
Proof.
  intros Ep. destruct (WriteFile (handle p) (u32 n) x (kern w)) as [[status b] k] eqn:E.
  unfold co_await_write, write_await_suspend, write_some. cbn [awaiters set_awaiter]. rewrite lookup_insert_eq.
  cbn [or_fault]. run_bind. cbn [me pipes set_awaiter]. rewrite Ep. cbn [or_fault]. run_bind. cbn [len].
  change (kern (set_awaiter x (Awaiter a n 0 null None) w)) with (kern w). rewrite E.
  case_decide as H1; [|case_decide as H2].
  - split; [done|]. split; [done|]. intros b'. unfold on_io_complete. cbn. by rewrite lookup_insert_eq.
  - done.
  - unfold await_resume. cbn [awaiters set_kern set_awaiter]. rewrite lookup_insert_eq. cbn [or_fault]. run_bind. cbn.
    split; [|done]. exact H2.
Qed.

(** The reactor touches no awaiter. *)
Lemma process_events_spec n c w w' :
  process_events n c w = Ret w' ->
  awaiters w' = awaiters w /\ exists j, out w' = out w ++ replicate j "got completion"%string.
Proof.
  revert w. induction n as [|n IH]; intros w; cbn [process_events].
  - intros [= ->]. split; [done|]. exists 0%nat. by rewrite app_nil_r.
  - intros E. apply bind_Ret_inv in E as (w1 & E1 & E2). destruct (IH w1 E2) as (-> & j & ->). revert E1. unfold process_turn.
    destruct (contexts w !! c); [|done]. cbn [or_fault]. run_bind.
    destruct (GetQueuedCompletionStatus _ _) as [[[[st bs] pov] k]|]; [|done]. intros [= <-].
    case_decide; (split; [done|]); cbn; [exists (S j)|by exists j]. by rewrite <- app_assoc.
Qed.

(** A read that is pending suspends the coroutine for good: the reactor prints
    a line for each completion, and leaves every awaiter, and so every handle,
    alone. A read that fails at once is not an error either: the code is stored
    and the count returned. *)
Theorem read_outcomes a x h n p w :
  pipes w !! a = Some p ->
  let '(status, b, k) := ReadFile (handle p) (u32 n) x (kern w) in
  match co_await_read x h (read_some a x n w) with
  | (Ret None, w') => status = 0 /\ GetLastError k = ERROR_IO_PENDING /\
      forall m c w'', process_events m c w' = Ret w'' ->
        awaiters w'' = awaiters w' /\ exists j, out w'' = out w' ++ replicate j "got completion"%string
  | (Ret (Some v), w') => (status <> 0 \/ GetLastError k <> ERROR_IO_PENDING) /\ v = b /\
      error <$> awaiters w' !! x = Some (GetLastError k)
  | _ => False
  end.
Proof.
  intros Ep. destruct (ReadFile (handle p) (u32 n) x (kern w)) as [[status b] k] eqn:E.
  unfold co_await_read, read_await_suspend, read_some. cbn [awaiters set_awaiter]. rewrite lookup_insert_eq.
  cbn [or_fault]. run_bind. cbn [me pipes set_awaiter]. rewrite Ep. cbn [or_fault]. run_bind. cbn [len].
  change (kern (set_awaiter x (Awaiter a n 0 null None) w)) with (kern w). rewrite E.
  case_decide as H1.
  - destruct H1 as [-> He]. split; [done|]. split; [done|]. intros m c w''. apply process_events_spec.
  - unfold await_resume, set_awaiter, print, set_kern. cbn [awaiters].
    rewrite lookup_insert_eq. cbn [or_fault]. run_bind. cbn [bytes_xfer or_fault fmap outcome_fmap awaiters].
    split; [|done]. destruct (decide (status = 0)); [right|by left]. intros He. by destruct H1.
Qed.

(** A context that was moved to has no key: the first pipe that is created with
    it reads an uninitialised member. *)
Theorem moved_context_faults a b c h w pa :
  contexts w !! a = Some c -> a <> b ->
  exists w', move_context b a w = Ret w' /\ construct_pipe pa b h w' = (Fault Uninitialised, w').
Proof.
  intros Ec Hab. unfold move_context. rewrite Ec. cbn [or_fault]. run_bind. eexists. split; [done|].
  unfold construct_pipe, register_handle. cbn [contexts set_context].
  rewrite lookup_insert_ne, lookup_insert_eq by done. done.
Qed.
End Faults.

(** ** A system for the witnesses

    Handles are numbers that are not in use; pipes are known by their names; a
    handle cannot be registered when the error is ERROR_INVALID_HANDLE; reads and
    writes end with the status and error given. *)
Definition ERROR_INVALID_HANDLE : Z := 6.

Record demo_kernel := Demo { others : gset Z; pipe_ends : gmap Z (side * string); io_status : Z; last_error : Z }.

(** The handles that are open, none of them invalid *)
Definition live_ends (k : demo_kernel) : gmap Z (side * string) := delete NULL (delete INVALID_HANDLE_VALUE (pipe_ends k)).
Definition valid_handles (k : demo_kernel) : gset Z := (others k ∖ {[ INVALID_HANDLE_VALUE; NULL ]}) ∪ dom (live_ends k).

Definition new_handle (k : demo_kernel) : Z := fresh ({[ INVALID_HANDLE_VALUE; NULL ]} ∪ valid_handles k).

Definition has_end (s : side) (name : string) (k : demo_kernel) : bool :=
  bool_decide ((s, name) ∈ (map_to_list (live_ends k)).*2).
Definition open_end (s : side) (name : string) (k : demo_kernel) : Z * demo_kernel :=
  (new_handle k, Demo (others k) (<[new_handle k := (s, name)]> (pipe_ends k)) (io_status k) (last_error k)).

#[export] Instance demo_win : WinKernel demo_kernel := {|
  CreateIoCompletionPort h _ _ _ k :=
    if decide (h = INVALID_HANDLE_VALUE) then
      (new_handle k, Demo ({[new_handle k]} ∪ others k) (pipe_ends k) (io_status k) (last_error k))
    else (if decide (last_error k = ERROR_INVALID_HANDLE) then NULL else h, k);
  CloseHandle h k := Demo (others k ∖ {[h]}) (delete h (pipe_ends k)) (io_status k) (last_error k);
  CreateNamedPipeA name _ _ k :=
    if has_end ReadEnd name k || has_end WriteEnd name k then (INVALID_HANDLE_VALUE, k) else open_end ReadEnd name k;
  CreateFileA name _ _ k :=
    if has_end ReadEnd name k && negb (has_end WriteEnd name k) then open_end WriteEnd name k else (INVALID_HANDLE_VALUE, k);
  ReadFile _ _ _ k := (io_status k, 0, k);
  WriteFile _ n _ k := (io_status k, n, k);
  GetQueuedCompletionStatus _ k := Some (1, 0, 1%positive, k);
  GetLastError := last_error;
  GetCurrentProcessId _ := 77;
|}.

Lemma new_handle_spec k : new_handle k <> INVALID_HANDLE_VALUE /\ new_handle k <> NULL /\ new_handle k ∉ valid_handles k.
Proof. unfold new_handle. pose proof (is_fresh ({[ INVALID_HANDLE_VALUE; NULL ]} ∪ valid_handles k)). set_solver. Qed.

Lemma has_end_false s name k : has_end s name k = false -> forall x, live_ends k !! x <> Some (s, name).
Proof.
  intros Hn%bool_decide_eq_false x Hx. apply Hn, list_elem_of_fmap. exists (x, (s, name)). split; [done|].
  by apply elem_of_map_to_list.
Qed.

Lemma open_end_spec s name k h k' :
  open_end s name k = (h, k') -> INVALID_HANDLE_VALUE <> h /\ h ∉ valid_handles k /\
  valid_handles k' = {[h]} ∪ valid_handles k /\ live_ends k' = <[h := (s, name)]> (live_ends k).
Proof.
  destruct (new_handle_spec k) as (H1 & H2 & H3). unfold open_end. intros [= <- <-]. split; [done|]. split; [done|].
  assert (live_ends (Demo (others k) (<[new_handle k := (s, name)]> (pipe_ends k)) (io_status k) (last_error k)) =
    <[new_handle k := (s, name)]> (live_ends k)) as E by (unfold live_ends; cbn; by rewrite !delete_insert_ne).
  split; [|done]. unfold valid_handles. rewrite E, dom_insert_L. cbn. set_solver.
Qed.

Lemma demo_close h k : valid_handles (CloseHandle h k) = valid_handles k ∖ {[h]} /\ live_ends (CloseHandle h k) = delete h (live_ends k).
Proof.
  assert (live_ends (CloseHandle h k) = delete h (live_ends k)) as E by (unfold live_ends; cbn; by rewrite !(delete_delete _ h)).
  split; [|done]. unfold valid_handles. rewrite E, dom_delete_L. cbn. set_solver.
Qed.

#[export] Instance demo_laws : WinLaws (K := demo_kernel) valid_handles live_ends.
Proof.
  split.
  - done.
  - intros k. unfold valid_handles. set_solver.
  - intros h p key n k r k'. cbn. destruct (new_handle_spec k) as (H1 & H2 & H3). case_decide as Hh; intros [= <- <-].
    + rewrite decide_True by done. split; [|done]. unfold valid_handles, live_ends in *. cbn. set_solver.
    + rewrite decide_False; [done|]. by intros [? _].
  - intros h k _. apply demo_close.
  - intros k. destruct (demo_close INVALID_HANDLE_VALUE k) as [-> ->].
    assert (live_ends k !! INVALID_HANDLE_VALUE = None) as Hn by (unfold live_ends; lookup_cases). split; [|by apply delete_id].
    apply not_elem_of_dom in Hn. unfold valid_handles. set_solver.
  - intros name m k h k'. cbn. destruct (_ || _) eqn:E; [by intros [= <- <-] _; rewrite decide_True|].
    apply orb_false_iff in E as [E1 E2]. intros (H1 & H2 & H3 & H4)%open_end_spec _. rewrite decide_False by done.
    split_and!; [done|done|done|]. intros x []; by apply has_end_false.
  - intros name m k h k'. cbn. destruct (_ && _) eqn:E; [|by intros [= <- <-]; rewrite decide_True].
    apply andb_true_iff in E as [_ E2%negb_true_iff]. intros (H1 & H2 & H3 & H4)%open_end_spec. rewrite decide_False by done.
    split_and!; [done|done|]. intros _. split; [done|]. by apply has_end_false.
Qed.

(** ** Witnesses *)

Example first_pipe_name : pipe_name 77 1 = "\\.\Pipe\LOCAL.0000004D.00000001"%string.
Proof. vm_compute. reflexivity. Qed.

(** A context with the port 3 at address 1, and one end of a pipe at 2. *)
Definition demo_world (status err : Z) : world demo_kernel := {|
  kern := Demo {[ 3; 4 ]} ∅ status err;
  PIPE_SERIAL_NO := 0;
  contexts := {[ 1%positive := IoContext 3 (Some 0) ]};
  pipes := {[ 2%positive := Pipe 1 4 ]};
  awaiters := ∅;
  out := [];
|}.

(** Two pipes are made, one after the other. *)
Definition first_creation : option (Z * Z) * world demo_kernel := create_pipe_ex 0 0 (demo_world 0 0).
Definition second_creation : option (Z * Z) * world demo_kernel := create_pipe_ex 0 0 (snd first_creation).

Lemma pipe_names_distinct_witness :
  exists r h r' h', fst first_creation = Some (r, h) /\ fst second_creation = Some (r', h') /\ h <> r' /\ h <> h'.
Proof.
  assert (creations (demo_world 0 0) [first_creation; second_creation] (PIPE_SERIAL_NO (snd second_creation))) as Hc.
  { apply (creations_snoc _ [first_creation] (snd first_creation) 0 0); [|by left].
    apply (creations_snoc _ [] (demo_world 0 0) 0 0); [apply creations_nil|by left]. }
  destruct (pipe_names_distinct (open := valid_handles) (ends := live_ends) _ _ _ Hc) as (names & _ & _ & Hd); [by vm_compute|].
  destruct first_creation as [[[r h]|] w] eqn:E1; [|by vm_compute in E1].
  destruct second_creation as [[[r' h']|] w'] eqn:E2; [|by vm_compute in E2].
  exists r, h, r', h'. split; [done|]. split; [done|]. apply (Hd 0%nat 1%nat r h w r' h' w'); [done|done|done|].
  vm_compute in E1, E2. injection E1 as <- <- <-. injection E2 as <- <- <-. by vm_compute.
Defined.

Lemma pipe_round_trip_witness :
  (exists w1 w2 w3, pipe true 1 4 5 6 7 (demo_world 0 0) = (Ret tt, w1) /\
    destroy_readable 6 w1 = Ret w2 /\ destroy_writeable 7 w2 = Ret w3 /\ valid_handles (kern w3) = {[ 3; 4 ]}) /\
  exists e w1 r h, pipe false 1 4 5 6 7 (demo_world 0 ERROR_INVALID_HANDLE) = (Raise e, w1) /\
    valid_handles (kern w1) = {[ r; h; 3; 4 ]}.
Proof.
  split.
  - destruct (pipe true 1 4 5 6 7 (demo_world 0 0)) as [r w1] eqn:E.
    assert (fst (pipe true 1 4 5 6 7 (demo_world 0 0)) = Ret tt) as Er by (vm_compute; reflexivity). rewrite E in Er. cbn in Er. subst r.
    pose proof (pipe_round_trip (open := valid_handles) (ends := live_ends) true 1 4 5 6 7 (demo_world 0 0) (Ret tt) w1
      ltac:(by apply (bool_decide_unpack _)) ltac:(by eexists) E) as H.
    destruct (create_pipe_ex _ _ _) as [[[rd wr]|] w'] eqn:Ec; [|done]. destruct H as (_ & _ & _ & _ & _ & _ & w2 & w3 & E2 & _ & E3 & O & _).
    exists w1, w2, w3. split; [done|]. split; [done|]. split; [done|]. rewrite O. by vm_compute.
  - destruct (pipe false 1 4 5 6 7 (demo_world 0 ERROR_INVALID_HANDLE)) as [r w1] eqn:E.
    assert (fst (pipe false 1 4 5 6 7 (demo_world 0 ERROR_INVALID_HANDLE)) = Raise (SystemError ERROR_INVALID_HANDLE)) as Er by (vm_compute; reflexivity).
    rewrite E in Er. cbn in Er. subst r.
    pose proof (pipe_round_trip (open := valid_handles) (ends := live_ends) false 1 4 5 6 7 (demo_world 0 ERROR_INVALID_HANDLE) _ w1
      ltac:(by apply (bool_decide_unpack _)) ltac:(by eexists) E) as H.
    destruct (create_pipe_ex _ _ _) as [[[rd wr]|] w'] eqn:Ec; [|by vm_compute in Ec]. destruct H as (_ & _ & O).
    destruct (construct_pipe 5 1 wr w') as [[] w2] eqn:Ep; try (vm_compute in Ec; injection Ec as <- <- <-; by vm_compute in Ep).
    exists (SystemError ERROR_INVALID_HANDLE), w1, wr, rd. split; [done|]. rewrite O.
    assert (valid_handles (kern (demo_world 0 ERROR_INVALID_HANDLE)) = {[3; 4]}) as -> by (by vm_compute). set_solver.
Defined.

Lemma write_never_returns_witness :
  fst (co_await_write 9 8 (write_some 2 9 64 (demo_world 1 5))) = Raise (SystemError 5) /\
  match co_await_write 9 8 (write_some 2 9 64 (demo_world 1 5)) with (Raise e, _) => e = SystemError 5 | _ => False end.
Proof.
  split; [by vm_compute|].
  pose proof (write_never_returns 2 9 8 64 (Pipe 1 4) (demo_world 1 5) eq_refl) as H.
  destruct (WriteFile _ _ _ _) as [[st b] k] eqn:E. injection E as <- <- <-.
  destruct (co_await_write _ _ _) as [[v|e|f|] w']; [by destruct H|by destruct H as (_ & _ & ->)|by destruct H|done].
Defined.

Lemma read_outcomes_witness :
  exists w', co_await_read 9 8 (read_some 2 9 64 (demo_world 0 109)) = (Ret (Some 0), w') /\ error <$> awaiters w' !! 9%positive = Some 109.
Proof.
  pose proof (read_outcomes 2 9 8 64 (Pipe 1 4) (demo_world 0 109) eq_refl) as H.
  destruct (ReadFile _ _ _ _) as [[st b] k] eqn:E. injection E as <- <- <-.
  destruct (co_await_read _ _ _) as [[[v|]|e|f|] w']; [|by destruct H as (_ & H & _)|done..].
  destruct H as (_ & -> & He). by exists w'.
Defined.

Lemma moved_context_faults_witness :
  exists w', move_context 8 1 (demo_world 0 0) = Ret w' /\ construct_pipe 9 8 4 w' = (Fault Uninitialised, w').
Proof. by apply (moved_context_faults 1 8 (IoContext 3 (Some 0)) 4 (demo_world 0 0) 9). Defined.
End WinPipe.

(** * test.cpp: a producer and a consumer on a pipe without OVERLAPPED objects *)

Module PipeTest.
Import WinPipe.

(** [WriteFile] and [ReadFile] with a null OVERLAPPED, on a handle and for a
    number of bytes: the call blocks ([None]), fails, or transfers so many
    bytes. *)
Class SyncKernel (K : Type) := {
  WriteFile : Z -> Z -> K -> option (option Z * K);
  ReadFile : Z -> Z -> K -> option (option Z * K);
}.

Section Program.
Context {K} `{WinKernel K} `{SyncKernel K}.

Definition BUFFER_SIZE : Z := 64.

(** A line that is printed. *)
Inductive line := Wrote (n : Z) | ReadBytes (n : Z) | ProducerError | ConsumerError.

(** A thread in its system call, about to print, or over; [main] waits for the
    futures. *)
Inductive thread := Transferring | Transferred (n : Z) | Failed | Over.
Inductive main_pc := WaitProducer | WaitConsumer | Returned.

(** The two threads take the handles by value. *)
Record program := Program {
  kern : K;
  writer : Z;
  reader : Z;
  prod : thread;
  cons : thread;
  main : main_pc;
  out : list line;
}.

Definition producer_step (s : program) : option program :=
  match prod s with
  | Transferring =>
    match WriteFile (writer s) BUFFER_SIZE (kern s) with
    | None => None
    | Some (r, k) =>
      Some (Program k (writer s) (reader s) (match r with Some n => Transferred n | None => Failed end) (cons s) (main s) (out s))
    end
  | Transferred n => Some (Program (kern s) (writer s) (reader s) Transferring (cons s) (main s) (out s ++ [Wrote n]))
  | Failed => Some (Program (kern s) (writer s) (reader s) Over (cons s) (main s) (out s ++ [ProducerError]))
  | Over => None
  end.

Definition consumer_step (s : program) : option program :=
  match cons s with
  | Transferring =>
    match ReadFile (reader s) BUFFER_SIZE (kern s) with
    | None => None
    | Some (r, k) =>
      Some (Program k (writer s) (reader s) (prod s) (match r with Some n => Transferred n | None => Failed end) (main s) (out s))
    end
  | Transferred n => Some (Program (kern s) (writer s) (reader s) (prod s) Transferring (main s) (out s ++ [ReadBytes n]))
  | Failed => Some (Program (kern s) (writer s) (reader s) (prod s) Over (main s) (out s ++ [ConsumerError]))
  | Over => None
  end.

Definition main_step (s : program) : option program :=
  let goto m := Program (kern s) (writer s) (reader s) (prod s) (cons s) m (out s) in
  match main s, prod s, cons s with
  | WaitProducer, Over, _ => Some (goto WaitConsumer)
  | WaitConsumer, _, Over => Some (goto Returned)
  | _, _, _ => None
  end.

Inductive program_step (s s' : program) : Prop :=
| StepProducer : producer_step s = Some s' -> program_step s s'
| StepConsumer : consumer_step s = Some s' -> program_step s s'
| StepMain : main_step s = Some s' -> program_step s s'.

(** [main] up to its first wait; [None]: it returns EXIT_FAILURE. *)
Definition start (w : world K) : option program :=
  let '(r, w) := create_pipe_ex 0 0 w in
  '(reader, writer) ← r;
  Some (Program (WinPipe.kern w) writer reader Transferring Transferring WaitProducer []).
End Program.
Arguments program : clear implicits.

(** What the system promises of the two ends of a pipe in byte mode: a read
    waits while the pipe is empty and its write end open, and takes some of the
    bytes otherwise; a write waits for a reader to make room. *)
Class SyncLaws {K} `{SyncKernel K} (connected : K -> Z -> Z -> Prop) (in_flight : K -> Z -> Z) := {
  law_write k r h len : connected k r h -> 0 < len ->
    match WriteFile h len k with
    | None => 0 < in_flight k r
    | Some (x, k') => connected k' r h /\ in_flight k' r = in_flight k r + default 0 x
    end;
  law_read k r h len : connected k r h -> 0 < len ->
    match ReadFile r len k with
    | None => in_flight k r = 0
    | Some (Some n, k') => connected k' r h /\ 0 < n <= len /\ n <= in_flight k r /\ in_flight k' r = in_flight k r - n
    | Some (None, _) => False
    end;
}.

Section Safe.
Context {K} `{L : SyncLaws K connected in_flight}.
Implicit Types s : program K.

Definition bytes (f : line -> Z) (t : thread) (ls : list line) : Z :=
  foldr (fun l z => f l + z) 0 ls + match t with Transferred n => n | _ => 0 end.

(** The bytes written, and those read: printed, or about to be. *)
Definition written s : Z := bytes (fun l => match l with Wrote n => n | _ => 0 end) (prod s) (out s).
Definition consumed s : Z := bytes (fun l => match l with ReadBytes n => n | _ => 0 end) (cons s) (out s).

Lemma bytes_snoc f t ls l : bytes f t (ls ++ [l]) = bytes f t ls + f l.
Proof. unfold bytes. induction ls as [|x ls IH]; cbn in *; lia. Qed.

Lemma bytes_thread f t t' ls :
  match t, t' with Transferred _, _ | _, Transferred _ => False | _, _ => True end -> bytes f t ls = bytes f t' ls.
Proof. unfold bytes. by destruct t, t'. Qed.

Record inv s : Prop := {
  inv_connected : connected (kern s) (reader s) (writer s);
  inv_bytes : written s = consumed s + in_flight (kern s) (reader s);
  inv_cons : cons s = Transferring \/ exists n, cons s = Transferred n;
  inv_main : main s <> Returned;
}.

Lemma pipe_step_inv s s' : inv s -> program_step s s' -> inv s'.
Proof.
  intros [C B O M] Hs. unfold written, consumed in B. destruct Hs as [E|E|E].
  - unfold producer_step in E. destruct (prod s) as [|n| |] eqn:Ep; [|injection E as <-..|done].
    + pose proof (law_write (kern s) (reader s) (writer s) BUFFER_SIZE C eq_refl) as Hw.
      destruct (WriteFile (writer s) BUFFER_SIZE (kern s)) as [[x k]|]; [|done]. injection E as <-. destruct Hw as [C' F'].
      split; [done| |done|done]. unfold written, consumed. cbn. rewrite F'. unfold bytes in *. destruct x; cbn; lia.
    + split; [done| |done|done]. unfold written, consumed. cbn. rewrite !bytes_snoc. unfold bytes in *. lia.
    + split; [done| |done|done]. unfold written, consumed. cbn. rewrite !bytes_snoc. unfold bytes in *. lia.
  - unfold consumer_step in E. destruct O as [Ec|[n Ec]]; rewrite Ec in E, B.
    + pose proof (law_read (kern s) (reader s) (writer s) BUFFER_SIZE C eq_refl) as Hr.
      destruct (ReadFile (reader s) BUFFER_SIZE (kern s)) as [[[n|] k]|]; [|done..]. injection E as <-. destruct Hr as (C' & _ & _ & F').
      split; [done| |by right; exists n|done]. unfold written, consumed. cbn. rewrite F'. unfold bytes in *. lia.
    + injection E as <-. split; [done| |by left|done]. unfold written, consumed. cbn. rewrite !bytes_snoc. unfold bytes in *. lia.
  - unfold main_step in E. destruct (main s), (prod s), (cons s) eqn:Ec; try done; try (by injection E as <-);
      try (by destruct O as [?|[? ?]]).
Qed.

Lemma pipe_reachable_inv s s' : inv s -> rtc program_step s s' -> inv s'.
Proof. apply (rtc_invariant _ inv pipe_step_inv). Qed.

(** *** Who can go on *)

Lemma consumer_stuck s : inv s -> consumer_step s = None -> cons s = Transferring /\ in_flight (kern s) (reader s) = 0.
Proof.
  intros [C B O M] E. unfold consumer_step in E. destruct O as [Ec|[n Ec]]; rewrite Ec in E; [|done]. split; [done|].
  pose proof (law_read (kern s) (reader s) (writer s) BUFFER_SIZE C eq_refl) as Hr.
  by destruct (ReadFile (reader s) BUFFER_SIZE (kern s)) as [[[n|] k]|].
Qed.

Lemma stuck_over s : inv s -> nf program_step s ->
  prod s = Over /\ main s = WaitConsumer /\ cons s = Transferring /\ in_flight (kern s) (reader s) = 0.
Proof.
  intros I Hn.
  destruct (consumer_step s) eqn:Ec; [exfalso; apply Hn; eexists; by apply StepConsumer|].
  destruct (producer_step s) eqn:Ep; [exfalso; apply Hn; eexists; by apply StepProducer|].
  destruct (main_step s) eqn:Em; [exfalso; apply Hn; eexists; by apply StepMain|].
  destruct (consumer_stuck s I Ec) as [Eco Ef]. destruct I as [C B O M].
  unfold producer_step in Ep. destruct (prod s) eqn:Epr; try done.
  - pose proof (law_write (kern s) (reader s) (writer s) BUFFER_SIZE C eq_refl) as Hw.
    destruct (WriteFile (writer s) BUFFER_SIZE (kern s)) as [[x k]|]; [done|lia].
  - unfold main_step in Em. rewrite Epr, Eco in Em. by destruct (main s).
Qed.

Definition measure s : nat :=
  2 * Z.to_nat (in_flight (kern s) (reader s)) + match cons s with Transferred _ => 1 | _ => 0 end +
  match main s with WaitProducer => 1 | _ => 0 end.

Lemma over_step s s' : inv s /\ prod s = Over -> program_step s s' -> (inv s' /\ prod s' = Over) /\ (measure s' < measure s)%nat.
Proof.
  intros [I Hp] Hs. pose proof (pipe_step_inv s s' I Hs) as I'. destruct I as [C B O M]. unfold measure. destruct Hs as [E|E|E].
  - unfold producer_step in E. by rewrite Hp in E.
  - unfold consumer_step in E. destruct O as [Ec|[n Ec]]; rewrite Ec in E |- *.
    + pose proof (law_read (kern s) (reader s) (writer s) BUFFER_SIZE C eq_refl) as Hr.
      destruct (ReadFile (reader s) BUFFER_SIZE (kern s)) as [[[n|] k]|]; [|done..]. injection E as <-. destruct Hr as (C' & Hn & Hle & F').
      split; [done|]. cbn. rewrite F'. lia.
    + injection E as <-. split; [done|]. cbn. lia.
  - unfold main_step in E. destruct (main s) eqn:Em, (prod s) eqn:Epr, (cons s) eqn:Ec; try done; injection E as <-; cbn; try lia; try done;
      try (split; [done|lia]); by destruct O as [?|[? ?]].
Qed.

(** The consumer reads what the producer writes, byte for byte, and nobody
    waits without a reason - until a write fails. As the writer's handle is
    never closed, the consumer then waits for bytes that nobody will write:
    once the producer is over, every run ends in a state in which [main] waits
    for the consumer, and it never returns. *)
Theorem pipe_test_hangs `{WinKernel K} w s0 s :
  start w = Some s0 -> connected (kern s0) (reader s0) (writer s0) -> in_flight (kern s0) (reader s0) = 0 ->
  rtc program_step s0 s ->
  main s <> Returned /\ written s = consumed s + in_flight (kern s) (reader s) /\
  (prod s = Over -> sn program_step s) /\
  (nf program_step s -> prod s = Over /\ main s = WaitConsumer /\ cons s = Transferring /\ written s = consumed s).
Proof.
  intros E C F Hr. assert (inv s) as I.
  { apply (pipe_reachable_inv s0); [|done]. unfold start in E. destruct (create_pipe_ex 0 0 w) as [[[h1 h2]|] w']; [|done].
    injection E as <-. split; [done| |by left|done]. unfold written, consumed, bytes. cbn in *. lia. }
  split; [apply I|]. split; [apply I|]. split.
  - intros Hp. apply (sn_measure _ (fun s => inv s /\ prod s = Over) measure); [|done]. intros s1 s2. apply over_step.
  - intros Hn. destruct (stuck_over s I Hn) as (Hp & Hm & Hc & Hf). split; [done|]. split; [done|]. split; [done|].
    pose proof (inv_bytes _ I) as B. rewrite Hf in B. lia.
Qed.
End Safe.

(** *** Witness: a pipe on which two writes succeed *)

Record demo_sync := DemoSync { writes_left : nat; buffered : Z }.

#[export] Instance demo_sync_win : WinKernel demo_sync := {|
  CreateIoCompletionPort _ _ _ _ k := (3, k);
  CloseHandle _ k := k;
  CreateNamedPipeA _ _ _ k := (1, k);
  CreateFileA _ _ _ k := (2, k);
  WinPipe.ReadFile _ _ _ k := (0, 0, k);
  WinPipe.WriteFile _ _ _ k := (0, 0, k);
  GetQueuedCompletionStatus _ k := None;
  GetLastError k := 0;
  GetCurrentProcessId k := 77;
|}.

#[export] Instance demo_sync_kernel : SyncKernel demo_sync := {|
  WriteFile _ len k :=
    match writes_left k with
    | O => Some (None, k)
    | S n => if decide (0 < buffered k) then None else Some (Some len, DemoSync n (buffered k + len))
    end;
  ReadFile _ len k :=
    if decide (0 < buffered k) then Some (Some (Z.min len (buffered k)), DemoSync (writes_left k) (buffered k - Z.min len (buffered k)))
    else None;
|}.

#[export] Instance demo_sync_laws : SyncLaws (K := demo_sync) (fun k _ _ => 0 <= buffered k) (fun k _ => buffered k).
Proof.
  split.
  - intros k r h len. cbn. destruct (writes_left k); [cbn; lia|]. case_decide; cbn; lia.
  - intros k r h len Hk Hl. cbn. case_decide; cbn; lia.
Qed.

(** One step of the first thread that has one *)
Definition next (s : program demo_sync) : option (program demo_sync) :=
  match consumer_step s, producer_step s with
  | Some s', _ | None, Some s' => Some s'
  | None, None => main_step s
  end.

Fixpoint drive (fuel : nat) (s : program demo_sync) : program demo_sync :=
  match fuel with O => s | S fuel => match next s with Some s => drive fuel s | None => s end end.

Lemma pipe_drive_steps fuel s : rtc program_step s (drive fuel s).
Proof.
  revert s. induction fuel as [|fuel IH]; intros s; [apply rtc_refl|]. cbn [drive].
  destruct (next s) as [s'|] eqn:E; [|apply rtc_refl]. apply (rtc_l _ _ s'); [|apply IH]. unfold next in E.
  destruct (consumer_step s) eqn:E1; [injection E as ->; by apply StepConsumer|].
  destruct (producer_step s) eqn:E2; [injection E as ->; by apply StepProducer|by apply StepMain].
Qed.

Definition demo_start : program demo_sync :=
  Program (DemoSync 2 0) 2 1 Transferring Transferring WaitProducer [].

Example pipe_test_output : out (drive 20 demo_start) = [ReadBytes 64; Wrote 64; ReadBytes 64; Wrote 64; ProducerError].
Proof. vm_compute. reflexivity. Qed.

Lemma pipe_test_hangs_witness : let s := drive 20 demo_start in
  main s = WaitConsumer /\ cons s = Transferring /\ written s = consumed s /\ written s = 128.
Proof.
  set (s := drive 20 demo_start).
  destruct (pipe_test_hangs (connected := fun k _ _ => 0 <= buffered k) (in_flight := fun k _ => buffered k)
    (World (DemoSync 2 0) 0 ∅ ∅ ∅ []) demo_start s) as (_ & _ & _ & Hn); [reflexivity|by cbn|reflexivity|apply pipe_drive_steps|].
  destruct Hn as (_ & Hm & Hc & Hw); [intros [s' [E|E|E]]; vm_compute in E; discriminate E|].
  split; [exact Hm|]. split; [exact Hc|]. split; [exact Hw|]. vm_compute. reflexivity.
Defined.
End PipeTest.
