(* ===== verification/Lazy.v ===== *)
(** * Lazy: primitives/lazy/lazy.hpp

    A lazily evaluated result: a coroutine suspended initially that the first
    [get()] resumes. Frames live in a heap; [final_suspend] never suspends, so
    that the frame is destroyed when the computation is done. *)

From S2P Require Import Prelude.

Module Lazy.
Section Lazy.
Context {T : Type}.

(** What the coroutine's body computes: its [co_return] value, an exception,
    undefined behaviour, or nothing for ever. *)
Abbreviation body := (outcome T).

Record lazy_promise := Promise { promise_value : option T }.

Record frame := Frame { code : body; promise : lazy_promise }.

Record lazy := Object { value : option T; handle : ptr }.

Abbreviation heap := (gmap addr frame).

(** Whether [final_suspend] suspends: it returns [suspend_never]. *)
Definition final_suspend : bool := false.

Definition return_value (val : T) (p : lazy_promise) : lazy_promise := Promise (Some val).

(** Call of the coroutine: [get_return_object], suspended initially. *)
Definition call (b : body) (h : heap) : lazy * heap :=
  let a := fresh (dom h) in
  (Object None (Some a), <[a := Frame b (Promise None)]> h).

(** [handle.resume()]: the body runs to its end; an exception terminates the program. *)
Definition resume (a : addr) (h : heap) : outcome heap :=
  f ← or_fault Dangling (h !! a);
  match code f with
  | Ret v =>
    let f := Frame (code f) (return_value v (promise f)) in
    Ret (if final_suspend then <[a := f]> h else delete a h)
  | Raise _ => Fault AssertionFailed
  | Fault e => Fault e
  | Diverged => Diverged
  end.

Definition destroy (a : addr) (h : heap) : outcome heap :=
  _ ← or_fault DoubleDestroy (h !! a); Ret (delete a h).

Definition get (l : lazy) (h : heap) : outcome (T * lazy * heap) :=
  '(l, h) ← (match handle l with
             | Some a =>
               h ← resume a h;
               f ← or_fault Dangling (h !! a);
               v ← or_fault Uninitialised (promise_value (promise f));
               h ← destroy a h;
               Ret (Object (Some v) null, h)
             | None => Ret (l, h)
             end);
  match value l with
  | Some v => Ret (v, l, h)
  | None => Raise (RuntimeError "bad optional access")
  end.

Definition destructor (l : lazy) (h : heap) : outcome heap :=
  match handle l with Some a => destroy a h | None => Ret h end.

(** The first [get()] of a lazy value reads the promise of
    a frame that no longer exists: resuming the coroutine runs it through
    [final_suspend], which does not suspend, and the frame is destroyed before
    [get] moves the value out of it. This holds for every computation that
    returns a value; a [lazy] whose value is never asked for is destroyed
    properly. *)
Theorem lazy_get_dangles (v : T) h l h' :
  call (Ret v) h = (l, h') ->
  get l h' = Fault Dangling /\ destructor l h' = Ret h.
Proof.
  intros [= <- <-]. unfold get, destructor, destroy, resume. cbn [handle]. rewrite lookup_insert_eq.
  cbn [or_fault]. run_bind. cbn [code final_suspend]. run_bind. rewrite lookup_delete_eq. split; [done|].
  rewrite delete_insert_id; [done|]. apply not_elem_of_dom, is_fresh.
Qed.
End Lazy.

Lemma lazy_get_dangles_witness :
  let '(l, h) := call (Ret 42) (∅ : gmap addr (frame (T := nat))) in
  get l h = Fault Dangling /\ destructor l h = Ret ∅.
Proof. apply (lazy_get_dangles 42 ∅). reflexivity. Defined.

(** ** lazy.cpp *)

(** [massive_computation]: it prints two lines, three seconds apart, and returns
    42; [main(argc, argv)] asks for the value if there is an argument. *)
Definition massive_computation : outcome Z := Ret 42%Z.

Definition main (argc : Z) : outcome (gmap addr (frame (T := Z))) :=
  let '(l, h) := call massive_computation ∅ in
  '(l, h) ← (if bool_decide (1 < argc)%Z then '(_, l, h) ← get l h; Ret (l, h) else Ret (l, h));
  destructor l h.

(** The program ends properly only if it does not ask for the value. *)
Theorem lazy_main_dangles argc : main argc = if bool_decide (1 < argc)%Z then Fault Dangling else Ret ∅.
Proof. unfold main. by case_bool_decide. Qed.
End Lazy.
