(* ===== verification/LockGuard.v ===== *)
(** * LockGuard: async_lock_guard of primitives/async-lock/async_lock.hpp

    The guard that [co_await lock.acquire()] yields: a movable object that
    releases the lock when it is destroyed or assigned over. What [release]
    does to the lock is the subject of AsyncLock; here the calls are recorded. *)

From S2P Require Import Prelude.

Module LockGuard.

(** The guard objects, each with its [lock] member, and the locks released so far. *)
Record store := Store { guards : gmap addr ptr; released : list addr }.

Definition lock (a : addr) (s : store) : outcome ptr := or_fault Dangling (guards s !! a).
Definition set_lock (a : addr) (l : ptr) (s : store) : store := Store (<[a := l]> (guards s)) (released s).

(** [if (lock != nullptr) lock->release();] *)
Definition release_if_held (l : ptr) (s : store) : store :=
  match l with Some l => Store (guards s) (released s ++ [l]) | None => s end.

(** [async_lock_guard(async_lock* lock_)], by [await_resume] *)
Definition async_lock_guard (a : addr) (lock_ : addr) (s : store) : store := set_lock a (Some lock_) s.

Definition destructor (a : addr) (s : store) : outcome store :=
  l ← lock a s;
  let s := release_if_held l s in
  Ret (Store (delete a (guards s)) (released s)).

Definition move (a alg : addr) (s : store) : outcome store :=
  l ← lock alg s;
  Ret (set_lock alg null (set_lock a l s)).

Definition move_assign (a alg : addr) (s : store) : outcome store :=
  if decide (alg <> a) then
    l ← lock a s;
    let s := release_if_held l s in
    l' ← lock alg s;
    Ret (set_lock alg null (set_lock a l' s))
  else Ret s.

(** What a program does with guards: locks are acquired into new guards. *)
Inductive guard_op := Acquire (a l : addr) | Destroy (a : addr) | Move (a b : addr) | Assign (a b : addr).

Definition execute (op : guard_op) (s : store) : outcome store :=
  match op with
  | Acquire a l => Ret (async_lock_guard a l s)
  | Destroy a => destructor a s
  | Move a b => move a b s
  | Assign a b => move_assign a b s
  end.

(** Lifetimes: objects are created where there is none and used while they live. *)
Definition allowed (op : guard_op) (s : store) : Prop :=
  match op with
  | Acquire a _ => guards s !! a = None
  | Destroy a => is_Some (guards s !! a)
  | Move a b => guards s !! a = None /\ is_Some (guards s !! b)
  | Assign a b => is_Some (guards s !! a) /\ is_Some (guards s !! b)
  end.

Definition acquired_by (op : guard_op) : list addr := match op with Acquire _ l => [l] | _ => [] end.

(** [trace s ops s']: the allowed operations [ops] lead from [s] to [s']. *)
Inductive trace : store -> list guard_op -> store -> Prop :=
| trace_nil s : trace s [] s
| trace_cons s op s1 ops s2 : allowed op s -> execute op s = Ret s1 -> trace s1 ops s2 -> trace s (op :: ops) s2.

(** The locks that guards hold. *)
Definition held (s : store) : list addr := omap snd (map_to_list (guards s)).

Lemma held_insert_None a l s :
  guards s !! a = None -> held (set_lock a l s) ≡ₚ option_list l ++ held s.
Proof.
  intros E. unfold held, set_lock. cbn [guards]. rewrite map_to_list_insert by done. cbn. by destruct l.
Qed.

Lemma held_delete a l s :
  guards s !! a = Some l -> held s ≡ₚ option_list l ++ held (Store (delete a (guards s)) (released s)).
Proof.
  intros E. unfold held. cbn [guards]. rewrite <- (map_to_list_delete _ a l) by done. cbn. by destruct l.
Qed.

Lemma held_insert a l l' s :
  guards s !! a = Some l -> option_list l ++ held (set_lock a l' s) ≡ₚ option_list l' ++ held s.
Proof.
  intros E. rewrite (held_delete a l s E).
  assert (set_lock a l' s = set_lock a l' (Store (delete a (guards s)) (released s))) as ->.
  { unfold set_lock. cbn. by rewrite insert_delete_eq. }
  rewrite held_insert_None by (cbn; apply lookup_delete_eq). by rewrite Permutation_app_swap_app.
Qed.

Lemma held_release l s : held (release_if_held l s) = held s.
Proof. by destruct l. Qed.

Lemma released_release l s : released (release_if_held l s) ≡ₚ option_list l ++ released s.
Proof. destruct l as [l|]; cbn; [|done]. by rewrite Permutation_app_comm. Qed.

Lemma release_guards l s : guards (release_if_held l s) = guards s.
Proof. by destruct l. Qed.

(** Each operation keeps the locks in guards and the locks released together. *)
Lemma execute_balance op s s' :
  allowed op s -> execute op s = Ret s' ->
  held s' ++ released s' ≡ₚ acquired_by op ++ held s ++ released s.
Proof.
  intros Ha E. destruct op as [a l|a|a b|a b]; cbn [execute acquired_by allowed] in *.
  - injection E as <-. unfold async_lock_guard. by rewrite held_insert_None.
  - destruct Ha as [l El]. unfold destructor, lock in E. rewrite El in E. cbn [or_fault] in E. rewrite bind_ret in E. injection E as <-.
    rewrite release_guards. cbn [released guards app].
    change (held (Store ?g (released (release_if_held l s)))) with (held (Store g (released s))).
    rewrite (held_delete a l s El), (released_release l s).
    by rewrite <- app_assoc, Permutation_app_swap_app.
  - destruct Ha as [Ea [l El]]. unfold move, lock in E. rewrite El in E. cbn [or_fault] in E. rewrite bind_ret in E. injection E as <-.
    cbn [app released set_lock]. apply Permutation_app; [|done].
    apply (Permutation_app_inv_l (option_list l)). rewrite held_insert.
    + cbn [option_list app]. by apply held_insert_None.
    + cbn. rewrite lookup_insert_ne by congruence. done.
  - destruct Ha as [[l El] [m Em]]. unfold move_assign in E. case_decide as Hab; [|by inv_bind].
    unfold lock in E. rewrite El in E. cbn [or_fault] in E. rewrite bind_ret, release_guards, Em in E.
    cbn [or_fault] in E. rewrite bind_ret in E. injection E as <-. cbn [app released set_lock].
    change (released (set_lock b null (set_lock a m (release_if_held l s)))) with (released (release_if_held l s)).
    rewrite released_release, Permutation_app_swap_app, app_assoc. apply Permutation_app; [|done].
    apply (Permutation_app_inv_l (option_list m)). rewrite Permutation_app_swap_app, held_insert.
    + change (option_list null) with (@nil addr). rewrite app_nil_l. rewrite (held_insert a l m) by (rewrite release_guards; done). by rewrite held_release.
    + cbn. rewrite lookup_insert_ne by congruence. by rewrite release_guards.
Qed.

Lemma guard_execute_ok op s : allowed op s -> exists s', execute op s = Ret s'.
Proof.
  intros Ha. destruct op as [a l|a|a b|a b]; cbn in *; [eauto|..].
  - destruct Ha as [l El]. unfold destructor, lock. rewrite El. cbn. eauto.
  - destruct Ha as [_ [l El]]. unfold move, lock. rewrite El. cbn. eauto.
  - destruct Ha as [[l El] [m Em]]. unfold move_assign, lock. case_decide; [|eauto].
    rewrite El. cbn [or_fault]. rewrite bind_ret, release_guards, Em. cbn. eauto.
Qed.

Definition empty : store := Store ∅ [].

Lemma trace_balance s ops s' :
  trace s ops s' -> held s' ++ released s' ≡ₚ (ops ≫= acquired_by) ++ held s ++ released s.
Proof.
  induction 1 as [|s op s1 ops s2 Ha E _ IH]; [done|]. rewrite IH, (execute_balance op s s1 Ha E). cbn.
  by rewrite Permutation_app_swap_app, app_assoc.
Qed.

(** However guards are moved and assigned (to
    themselves included), no operation on live guards faults, and the
    acquisitions are at any time exactly the locks still in guards together with
    the locks released: every acquisition is released at most once, and exactly
    once as soon as no guard is left. *)
Theorem guard_releases_once ops s :
  trace empty ops s ->
  (forall op, allowed op s -> exists s', execute op s = Ret s') /\
  held s ++ released s ≡ₚ ops ≫= acquired_by /\
  (guards s = ∅ -> released s ≡ₚ ops ≫= acquired_by).
Proof.
  intros Ht. split; [intros op Ha; by apply guard_execute_ok|].
  pose proof (trace_balance _ _ _ Ht) as Hb. rewrite app_nil_r in Hb. split; [done|].
  intros E. unfold held in Hb. rewrite E in Hb. exact Hb.
Qed.

Lemma guard_releases_once_witness :
  let s := Store ∅ [7; 8]%positive in
  trace empty [Acquire 1 7; Acquire 2 8; Assign 1 2; Assign 1 1; Move 3 1; Destroy 3; Destroy 2; Destroy 1] s /\
  released s ≡ₚ ([Acquire 1 7; Acquire 2 8; Assign 1 2; Assign 1 1; Move 3 1; Destroy 3; Destroy 2; Destroy 1] ≫= acquired_by).
Proof.
  set (ops := [Acquire 1 7; Acquire 2 8; Assign 1 2; Assign 1 1; Move 3 1; Destroy 3; Destroy 2; Destroy 1]).
  assert (trace empty ops (Store ∅ [7; 8]%positive)) as Ht.
  { unfold ops. repeat (eapply trace_cons; [cbn; repeat split; try reflexivity; eexists; reflexivity|vm_compute; reflexivity|]).
    apply trace_nil. }
  split; [exact Ht|]. by apply (guard_releases_once ops (Store ∅ [7; 8]%positive) Ht).
Defined.
End LockGuard.
