(* ===== verification/PrimitiveDrivers.v ===== *)
(** * PrimitiveDrivers: the driver.cpp of primitives/manual-reset-event/, async-latch/ and async-lock/

    Programs with one thread on top of [ManualResetEvent], [AsyncLatch] and
    [AsyncLock]: coroutines that wait, and a [main] that resumes them. What they
    print is part of the state. *)

From S2P Require Import Prelude ManualResetEvent AsyncLatch AsyncLock.

(** ** primitives/manual-reset-event/driver.cpp *)
Module EventDriver.
Import ManualResetEvent.

(** The coroutine [id] has its frame, with its awaiter, at [frame id]. *)
Definition frame (id : nat) : addr := Pos.of_succ_nat id.
Definition id_of (c : addr) : nat := pred (Pos.to_nat c).

Inductive line := Enter (id : nat) | SettingEvent | Exit (id : nat).

Record program := Program { event : sys; out : list line }.

(** [consumer(event, id)]: it runs until it is suspended or over. The task that
    is returned owns nothing; the frame is destroyed when the coroutine ends. *)
Definition consumer (id : nat) (s : program) : outcome program :=
  e ← run_thread 5 (frame id) (co_await (frame id) (event s));
  Ret (Program e (out s ++ Enter id :: (if decide (threads e !! frame id = Some Resumed) then [Exit id] else []))).

(** The line of the coroutine that a step of [set()] resumes. *)
Definition resumed_line (t : addr) (e : sys) : list line :=
  match threads e !! t with
  | Some (SetWalk (Some w)) => match heap e !! w with Some a => [Exit (id_of (awaiting_coro a))] | None => [] end
  | _ => []
  end.

Fixpoint set_loop (fuel : nat) (t : addr) (s : program) : outcome program :=
  match fuel with
  | O => Diverged
  | S fuel =>
    match step t false (event s) with
    | None => Ret s
    | Some r => e ← r; set_loop fuel t (Program e (out s ++ resumed_line t (event s)))
    end
  end.

(** [producer(event)], in the thread [t] *)
Definition producer (fuel : nat) (t : addr) (s : program) : outcome program :=
  set_loop fuel t (Program (goto t SetExchange (event s)) (out s ++ [SettingEvent])).

(** [for (size_t i = 0; i < N_CONSUMERS; ++i) consumer(event, i);], with [k] to go *)
Fixpoint launch (k i : nat) (s : program) : outcome program :=
  match k with O => Ret s | S k => s ← consumer i s; launch k (S i) s end.

Definition N_CONSUMERS : nat := 5.

Definition main (n_consumers : nat) : outcome program :=
  s ← launch n_consumers 0 (Program (manual_reset_event false) []);
  producer (n_consumers + 3) (frame n_consumers) s.

(** ** What it prints *)

Lemma frame_ne i j : i <> j -> frame i <> frame j.
Proof. unfold frame. lia. Qed.

Lemma id_of_frame i : id_of (frame i) = i.
Proof. unfold id_of, frame. by rewrite SuccNat2Pos.id_succ. Qed.

(** The awaiter that was linked before the [k]-th. *)
Definition top (k : nat) : ptr := match k with O => null | S k => Some (frame k) end.

(** The first [k] coroutines are linked, the last one on top. *)
Definition linked (k : nat) (e : sys) : Prop :=
  (forall i, i < k -> heap e !! frame i = Some (Awaiter (frame i) (top i)) /\ threads e !! frame i = Some Suspended) /\
  (forall a, is_Some (heap e !! a) -> exists i, i < k /\ a = frame i).

Lemma consumer_spec k s :
  linked k (event s) -> state (event s) = Waiters (top k) ->
  exists s', consumer k s = Ret s' /\ linked (S k) (event s') /\ state (event s') = Waiters (top (S k)) /\
    out s' = out s ++ [Enter k].
Proof.
  destruct s as [[st h ts] o]. cbn. intros [H1 H2] ->. unfold consumer. cbn [event out run_thread].
  unfold step, co_await. cbn [threads]. rewrite lookup_insert_eq. unfold await_ready, is_set, goto. cbn [state heap threads].
  run_bind. rewrite bool_decide_false by done. cbn [threads]. rewrite lookup_insert_eq. unfold suspend_load, goto.
  cbn [state heap threads]. run_bind. cbn [threads]. rewrite lookup_insert_eq. cbn [suspend_test]. cbn [heap deref].
  rewrite lookup_insert_eq. cbn [or_fault]. run_bind. cbn [threads]. rewrite lookup_insert_eq. unfold suspend_cas.
  cbn [state heap threads]. rewrite decide_True by done. run_bind. cbn [threads]. rewrite lookup_insert_eq. run_bind.
  cbn [threads]. rewrite lookup_insert_eq, decide_False by done. eexists. split; [done|]. cbn [event out state].
  split; [|done]. split; cbn [heap threads].
  - intros i Hi. destruct (decide (i = k)) as [->|Hne]; [rewrite !lookup_insert_eq; split; reflexivity|].
    pose proof (frame_ne k i ltac:(lia)). rewrite !lookup_insert_ne by done. apply H1. lia.
  - intros a. destruct (decide (a = frame k)) as [->|Hne]; [intros _; exists k; split; [lia|done]|].
    rewrite !lookup_insert_ne by done. intros Ha. destruct (H2 a Ha) as (i & Hi & ->). exists i. split; [lia|done].
Qed.

Lemma launch_spec n k s :
  linked k (event s) -> state (event s) = Waiters (top k) ->
  exists s', launch n k s = Ret s' /\ linked (k + n) (event s') /\ state (event s') = Waiters (top (k + n)) /\
    out s' = out s ++ map Enter (seq k n).
Proof.
  revert k s. induction n as [|n IH]; intros k s Hl Hs.
  - exists s. rewrite Nat.add_0_r, app_nil_r. done.
  - destruct (consumer_spec k s Hl Hs) as (s1 & E1 & Hl1 & Hs1 & Ho1).
    destruct (IH (S k) s1 Hl1 Hs1) as (s2 & E2 & Hl2 & Hs2 & Ho2). exists s2. cbn [launch]. rewrite E1. run_bind.
    rewrite Nat.add_succ_r, <- Nat.add_succ_l. split; [done|]. split; [done|]. split; [done|].
    rewrite Ho2, Ho1, <- app_assoc. done.
Qed.

(** [set()] walks down the stack and resumes the coroutines, the last one first. *)
Lemma set_loop_spec k n s :
  k <= n -> linked k (event s) -> state (event s) = IsSet -> threads (event s) !! frame n = Some (SetWalk (top k)) ->
  exists s', set_loop (k + 2) (frame n) s = Ret s' /\ heap (event s') = ∅ /\ state (event s') = IsSet /\
    out s' = out s ++ rev (map Exit (seq 0 k)).
Proof.
  revert s. induction k as [|k IH]; intros [[st h ts] o] Hk [H1 H2] Hs Ht; cbn [event state threads heap] in *.
  - cbn [Nat.add set_loop event]. unfold step. cbn [threads]. rewrite Ht. cbn [top set_walk]. run_bind. unfold goto.
    cbn [threads event]. rewrite lookup_insert_eq. eexists. split; [done|]. cbn [event heap state out].
    split; [|split; [done|]]. { apply map_empty. intros a. apply eq_None_not_Some. intros (i & Hi & _)%H2. lia. }
    unfold resumed_line. cbn [threads]. rewrite Ht. cbn. by rewrite app_nil_r.
  - cbn [Nat.add set_loop event]. unfold step. cbn [threads]. rewrite Ht. cbn [top set_walk deref heap].
    destruct (H1 k ltac:(lia)) as [Hh Hth]. rewrite Hh. cbn [or_fault]. run_bind. cbn [awaiting_coro next_awaiter].
    unfold resume. cbn [threads]. rewrite decide_True by done. run_bind. unfold await_resume, goto. cbn [state heap threads].
    edestruct (IH (Program (Sys st (delete (frame k) h) (<[frame n := SetWalk (top k)]> (<[frame k := Resumed]> ts)))
      (o ++ resumed_line (frame n) (Sys st h ts)))) as (s' & E & Hh' & Hs' & Ho); [lia| |done|apply lookup_insert_eq|].
    + split; cbn [event heap threads].
      * intros i Hi. destruct (H1 i ltac:(lia)) as [Hi1 Hi2]. pose proof (frame_ne k i ltac:(lia)).
        pose proof (frame_ne n i ltac:(lia)). by rewrite lookup_delete_ne, !lookup_insert_ne by done.
      * intros a [x [Hne Hx]%lookup_delete_Some]. destruct (H2 a ltac:(by eexists)) as (i & Hi & ->). exists i. split; [|done].
        assert (i <> k) by by intros ->. lia.
    + exists s'. split; [exact E|]. split; [done|]. split; [done|]. rewrite Ho. cbn [out]. unfold resumed_line. cbn [threads heap].
      rewrite Ht. cbn [top]. rewrite Hh. cbn [awaiting_coro]. rewrite id_of_frame, <- app_assoc. f_equal.
      rewrite seq_S, map_app, rev_app_distr. done.
Qed.

(** The driver, with any number of consumers: they all enter and wait, and when
    the event is set they leave in the reverse order, each once; no awaiter is
    left. *)
Theorem event_driver_prints n :
  exists s, main n = Ret s /\ heap (event s) = ∅ /\ is_set (event s) = true /\
    out s = map Enter (seq 0 n) ++ SettingEvent :: rev (map Exit (seq 0 n)).
Proof.
  unfold main. destruct (launch_spec n 0 (Program (manual_reset_event false) [])) as (s & -> & Hl & Hs & Ho).
  { split; cbn; [lia|]. intros a. rewrite lookup_empty. by intros [? ?]. }
  { done. }
  run_bind. cbn [Nat.add] in Hl, Hs. destruct s as [[st h ts] o]. cbn in Hs, Ho. subst st o. unfold producer.
  rewrite Nat.add_succ_r. cbn [set_loop event]. unfold step, goto. cbn [threads]. rewrite lookup_insert_eq.
  unfold set_exchange. cbn [state threads heap]. run_bind.
  match goal with |- context [set_loop _ _ ?p] => destruct (set_loop_spec n n p) as (s' & E & Hh & Hs & Ho) end.
  { done. }
  { destruct Hl as [H1 H2]. split; cbn [event heap threads]; [|done]. intros i Hi.
    pose proof (frame_ne n i ltac:(lia)). rewrite !lookup_insert_ne by done. by apply H1. }
  { done. }
  { apply lookup_insert_eq. }
  exists s'. split; [exact E|]. split; [done|]. split; [unfold is_set; by rewrite Hs|].
  rewrite Ho. cbn [out]. unfold resumed_line. cbn [threads]. by rewrite lookup_insert_eq, app_nil_r, <- app_assoc.
Qed.
End EventDriver.

(** ** primitives/async-latch/driver.cpp *)
Module LatchDriver.
Import AsyncLatch.

Inductive line := Enter | Exit.
#[export] Instance line_eq_dec : EqDecision line.
Proof. solve_decision. Defined.

Record program := Program { latch : sys; out : list line }.

(** The frame of the coroutine [waiter], and the thread of [main]. *)
Definition waiter_frame : addr := 1%positive.
Definition main_thread : addr := 2%positive.

(** A thread running alone; the coroutine prints when it goes on after its
    [co_await]. *)
Fixpoint run (fuel : nat) (t : addr) (s : program) : outcome program :=
  match fuel with
  | O => Diverged
  | S fuel =>
    match step t false (latch s) with
    | None => Ret s
    | Some r =>
      l ← r;
      let resumed := bool_decide (threads (latch s) !! waiter_frame <> Some Resumed /\ threads l !! waiter_frame = Some Resumed) in
      run fuel t (Program l (out s ++ (if resumed then [Exit] else [])))
    end
  end.

(** [waiter(latch)], until it is suspended or over *)
Definition waiter (s : program) : outcome program :=
  run 5 waiter_frame (Program (co_await waiter_frame (latch s)) (out s ++ [Enter])).

(** [latch.count_down()] *)
Definition count_down (s : program) : outcome program :=
  run 10 main_thread (Program (goto main_thread (CountLoad 1) (latch s)) (out s)).

Definition main : outcome program :=
  l ← async_latch 1;
  s ← waiter (Program l []);
  count_down s.

(** The coroutine waits for the latch and is resumed, once, by [main]; it leaves
    no awaiter. *)
Theorem latch_driver_prints :
  exists s, main = Ret s /\ out s = [Enter; Exit] /\ heap (latch s) = ∅ /\ count (latch s) = 0%Z /\
    threads (latch s) = {[ waiter_frame := Resumed; main_thread := CountDone ]}.
Proof.
  exists (match main with Ret s => s | _ => Program (Sys 0 null ∅ ∅) [] end).
  split; [vm_compute; reflexivity|]. split; [vm_compute; reflexivity|]. split; [vm_compute; reflexivity|].
  split; vm_compute; reflexivity.
Qed.
End LatchDriver.

(** ** primitives/async-lock/driver.cpp *)
Module LockDriver.
Import AsyncLock.

Inductive line := Enter | Exit.

Record program := Program { lock : sys; out : list line }.

(** The coroutine [uncontended(lock)]: it acquires the lock, holds it to the end
    of the block and releases it there. *)
Definition uncontended (c : addr) (s : program) : outcome program :=
  l ← run_thread 6 c (acquire c (lock s));
  Ret (Program l (out s ++ Enter :: (if decide (threads l !! c = Some Released) then [Exit] else []))).

Definition main (c : addr) : outcome program := uncontended c (Program async_lock []).

(** The lock is free again at the end and the coroutine is over. *)
Theorem lock_driver_prints c :
  exists s, main c = Ret s /\ out s = [Enter; Exit] /\ state (lock s) = NOT_LOCKED /\ heap (lock s) = ∅.
Proof.
  unfold main, uncontended, async_lock. cbn [lock out run_thread].
  unfold step, acquire, goto, suspend_loop, acquire_cas, await_resume, release, release_cas.
  do 6 (cbn [threads state awaiters heap goto]; rewrite ?lookup_insert_eq; rewrite ?decide_True by done; run_bind).
  eexists. split; [done|]. cbn. rewrite lookup_insert_eq, decide_True by done. split; [done|]. split; [done|].
  by rewrite delete_insert_eq.
Qed.
End LockDriver.
