(* ===== verification/MapPrograms.v ===== *)
(** * MapPrograms: the programs around applications/map/map.hpp

    The stress tests [stress_sequential.cpp] and [stress_interleaved.cpp], the
    statistics of [stats.cpp] and the unit tests of [test.cpp], all on
    [Map<int, int>] with any hash function. They compose the map with the
    generator that feeds the lookups and with the interleaved runtime. A failed
    [assert] or [REQUIRE] is a fault; output is left out but for what it shows. *)

From S2P Require Import Prelude Words LinkedList Schedulers Allocators Interleave.
From S2P Require Import HashMap HashMapWf HashMapSpec HashMapProps MultiLookup.
From S2P Require Generator.
Local Open Scope Z_scope.

Module MapPrograms.

Definition assert (b : bool) : outcome unit := if b then Ret tt else Fault AssertionFailed.

(** [static_cast<int>(i)] *)
Definition to_int (i : Z) : Z := (i + 2 ^ 31) mod 2 ^ 32 - 2 ^ 31.

(** [for (i = 0; i < n; ++i) ... static_cast<int>(i)] *)
Definition int_keys (n : Z) : list Z := to_int <$> seqZ 0 n.

Definition MAP_MAX_CAPACITY : Z := Z.shiftl 1 16.

(** The body of the generator [make_lookup_range(n)]; its state is [i]. *)
Definition make_lookup_range (n i : Z) : Generator.Generator.action Z Z :=
  if decide (i < n) then Generator.Generator.Yield (to_int i) (u64 (i + 1)) else Generator.Generator.Finish.

Section Programs.
Context (hasher : Z -> Z).
Implicit Types (m : Map Z Z).

(** The insertions; [asserted]: whether each result is checked. *)
Fixpoint insert_keys (asserted : bool) m (keys : list Z) : outcome (Map Z Z) :=
  match keys with
  | [] => Ret m
  | as_int :: keys =>
    '(m, r) ← insert hasher m as_int as_int;
    _ ← assert (negb asserted || inserted r);
    insert_keys asserted m keys
  end.

(** [for (auto& lookup_result : results) ...] *)
Fixpoint check_results m (results : list LookupKVResult) : outcome unit :=
  match results with
  | [] => Ret tt
  | r :: results =>
    _ ← assert (lookup_found r);
    k ← lookup_get_key (heap m) r;
    v ← lookup_get_value (heap m) r;
    _ ← assert (bool_decide (k = v));
    check_results m results
  end.

(** [stress_sequential_multilookup(n_inserts, n_lookups)]; the statistics that
    it prints *)
Definition stress_sequential (n_inserts n_lookups : Z) : outcome StatsResult :=
  m ← Map_new MAP_MAX_CAPACITY;
  m ← insert_keys true m (int_keys n_inserts);
  _ ← assert (bool_decide (count m = n_inserts));
  results ← sequential_multilookup hasher m (int_keys n_lookups) [];
  _ ← assert (bool_decide (Z.of_nat (length results) = n_lookups));
  _ ← check_results m results;
  stats m.

(** [stress_interleaved_multilookup(n_inserts, n_lookups)]: four streams on a
    scheduler of depth 32 *)
Definition stress_interleaved `{Malloc} (frame_size : Z) (n_inserts n_lookups : Z) : outcome StatsResult :=
  m ← Map_new MAP_MAX_CAPACITY;
  let scheduler := StaticQueueScheduler.init 32 in
  m ← insert_keys false m (int_keys n_inserts);
  _ ← assert (bool_decide (count m = n_inserts));
  rt ← interleaved_multilookup hasher frame_size 32 (multilookup_fuel m (int_keys n_lookups)) m (int_keys n_lookups) []
         scheduler 4 RecyclingAllocator.init;
  let results := rt_world rt in
  _ ← assert (bool_decide (Z.of_nat (length results) = n_lookups));
  _ ← check_results m results;
  stats m.

(** ** stats.cpp *)

Definition MIN_N_ITEMS : Z := Z.shiftl 1 16.
Definition MAX_N_ITEMS : Z := Z.shiftl 1 25.

(** [perform_inserts_and_dump_stats(n_items)]: the statistics and the total
    footprint in MB *)
Definition perform_inserts_and_dump_stats (n_items : Z) : outcome (StatsResult * Z) :=
  m ← Map_new MAP_MAX_CAPACITY;
  m ← insert_keys false m (int_keys n_items);
  s ← stats m;
  let total_item_bytes := u64 (st_count s * (4 * 2 + 8)) in
  Ret (s, total_item_bytes / Z.shiftl 1 20).

(** [for (i = MIN_N_ITEMS; i <= MAX_N_ITEMS; i <<= 1)] *)
Fixpoint stats_loop (fuel : nat) (i : Z) : outcome (list (StatsResult * Z)) :=
  match fuel with
  | O => Diverged
  | S fuel =>
    if decide (i <= MAX_N_ITEMS) then
      s ← perform_inserts_and_dump_stats i;
      l ← stats_loop fuel (u64 (Z.shiftl i 1));
      Ret (s :: l)
    else Ret []
  end.

Definition stats_main (fuel : nat) : outcome (list (StatsResult * Z)) := stats_loop fuel MIN_N_ITEMS.

(** ** test.cpp *)

Definition REQUIRE : bool -> outcome unit := assert.

Definition test_construction : outcome unit :=
  m ← Map_default (K := Z) (V := Z);
  _ ← REQUIRE (bool_decide (count m = 0));
  s ← stats m;
  _ ← REQUIRE (bool_decide (st_max_capacity s = size_max));
  m ← Map_new (K := Z) (V := Z) 32;
  _ ← REQUIRE (bool_decide (count m = 0));
  s ← stats m;
  REQUIRE (bool_decide (st_max_capacity s = 32)).

(** [REQUIRE_THROWS_AS(..., std::runtime_error)] *)
Definition test_construction_throws : outcome unit :=
  match Map_new (K := Z) (V := Z) 0 with
  | Raise (RuntimeError _) => Ret tt
  | Fault f => Fault f
  | Diverged => Diverged
  | _ => Fault AssertionFailed
  end.

(** The beginning of the tests that follow: one insertion *)
Definition test_insertion : outcome (Map Z Z) :=
  m ← Map_default;
  _ ← REQUIRE (bool_decide (count m = 0));
  '(m, result) ← insert hasher m 1 1;
  _ ← REQUIRE (inserted result);
  _ ← REQUIRE (bool_decide (count m = 1));
  Ret m.

Definition test_lookup : outcome (Map Z Z) :=
  m ← test_insertion;
  r2 ← lookup hasher m 1;
  _ ← REQUIRE (lookup_found r2);
  k ← lookup_get_key (heap m) r2;
  _ ← REQUIRE (bool_decide (k = 1));
  v ← lookup_get_value (heap m) r2;
  _ ← REQUIRE (bool_decide (v = 1));
  Ret m.

Definition test_update : outcome unit :=
  m ← test_lookup;
  '(m, r3) ← update hasher m 1 2;
  _ ← REQUIRE (inserted r3);
  k ← insert_get_key (heap m) 1 r3;
  _ ← REQUIRE (bool_decide (k = 1));
  v ← insert_get_value (heap m) r3;
  _ ← REQUIRE (bool_decide (v = 2));
  REQUIRE (bool_decide (count m = 1)).

(** [get_key] and [take_key] read the same optional. *)
Definition test_removal : outcome unit :=
  m ← test_insertion;
  '(m, r2) ← remove hasher m 1;
  _ ← REQUIRE (remove_found r2);
  _ ← REQUIRE (bool_decide (count m = 0));
  k ← remove_get_key r2;
  _ ← REQUIRE (bool_decide (k = 1));
  v ← remove_get_value r2;
  REQUIRE (bool_decide (v = 1)).

Fixpoint lookup_keys m (keys : list Z) : outcome unit :=
  match keys with
  | [] => Ret tt
  | i :: keys => r ← lookup hasher m i; _ ← REQUIRE (lookup_found r); lookup_keys m keys
  end.

Definition test_resize : outcome unit :=
  m ← Map_default;
  _ ← REQUIRE (bool_decide (count m = 0));
  m ← insert_keys true m (seqZ 0 6);
  lookup_keys m (seqZ 0 6).

Definition test_main : outcome unit :=
  _ ← test_construction; _ ← test_construction_throws; _ ← test_insertion; _ ← test_lookup;
  _ ← test_update; _ ← test_removal; test_resize.
End Programs.

(** ** The keys *)

Lemma forallb_perm {A} (f : A -> bool) l k : l ≡ₚ k -> forallb f l = forallb f k.
Proof. induction 1; cbn; [done|congruence| |congruence]. by destruct (f x), (f y). Qed.

Lemma to_int_inj i j : 0 <= i < 2 ^ 32 -> 0 <= j < 2 ^ 32 -> to_int i = to_int j -> i = j.
Proof.
  unfold to_int. intros Hi Hj E. assert ((i + 2 ^ 31) mod 2 ^ 32 = (j + 2 ^ 31) mod 2 ^ 32) as E' by lia.
  pose proof (Z.div_mod (i + 2 ^ 31) (2 ^ 32) ltac:(lia)). pose proof (Z.div_mod (j + 2 ^ 31) (2 ^ 32) ltac:(lia)). lia.
Qed.

Lemma elem_of_int_keys n k : k ∈ int_keys n <-> exists i, 0 <= i < n /\ k = to_int i.
Proof.
  unfold int_keys. rewrite list_elem_of_fmap. split.
  - intros (i & -> & Hi%elem_of_seqZ). exists i. split; [lia|done].
  - intros (i & Hi & ->). exists i. split; [done|]. apply elem_of_seqZ. lia.
Qed.

Lemma length_int_keys n : 0 <= n -> Z.of_nat (length (int_keys n)) = n.
Proof. intros Hn. unfold int_keys. rewrite length_fmap, length_seqZ. lia. Qed.

Lemma NoDup_int_keys n : n <= 2 ^ 32 -> NoDup (int_keys n).
Proof.
  intros Hn. unfold int_keys. apply NoDup_fmap_2_strong; [|apply NoDup_seqZ].
  intros i j Hi%elem_of_seqZ Hj%elem_of_seqZ. apply to_int_inj; lia.
Qed.

(** The generator produces the keys of the loop. *)
Lemma make_lookup_range_produces n i :
  0 <= i <= n -> n < 2 ^ 64 ->
  Generator.Generator.produces (make_lookup_range n) i (to_int <$> seqZ i (n - i)) Generator.Generator.Finished.
Proof.
  intros Hi Hn. remember (Z.to_nat (n - i)) as k eqn:Ek. revert i Hi Ek. induction k as [|k IH]; intros i Hi Ek.
  - replace (n - i) with 0 by lia. apply Generator.Generator.produces_finish. unfold make_lookup_range.
    by rewrite decide_False by lia.
  - rewrite seqZ_cons by lia. cbn [fmap list_fmap]. eapply Generator.Generator.produces_yield.
    + unfold make_lookup_range. by rewrite decide_True, u64_small by lia.
    + replace (Z.pred (n - i)) with (n - (i + 1)) by lia. replace (Z.succ i) with (i + 1) by lia. apply IH; lia.
Qed.

(** ** The insertions *)

Section Specs.
Context (hasher : Z -> Z).
Implicit Types (m : Map Z Z) (M : gmap Z Z).

Definition bounded m : Prop := capacity m <= max_capacity m.

Lemma resize_bounded m m' : perform_resize_if_required hasher m = Ret m' -> bounded m -> bounded m'.
Proof.
  unfold perform_resize_if_required, resize_required. destruct (_ && _) eqn:E; cbn [negb]; [|by intros [= <-]].
  intros Er _. apply bind_Ret_inv in Er as ([nb h] & _ & [= <-]). apply andb_true_iff in E as [_ E%Z.leb_le]. done.
Qed.

Lemma insert_bounded m k v m' r : insert hasher m k v = Ret (m', r) -> bounded m -> bounded m'.
Proof.
  unfold insert, insert_empty, insert_at_end, new_entry. intros E Hb. apply bind_Ret_inv in E as (b & _ & E). case_decide.
  - apply bind_Ret_inv in E as (bs & _ & E). apply bind_Ret_inv in E as (m1 & Em & [= <- _]). by eapply resize_bounded.
  - apply bind_Ret_inv in E as ([a|a] & _ & E); [by injection E as <- _|].
    apply bind_Ret_inv in E as (h & _ & E). apply bind_Ret_inv in E as (bs & _ & E).
    apply bind_Ret_inv in E as (m1 & Em & [= <- _]). by eapply resize_bounded.
Qed.

(** What the keys of a loop make of a finite map. *)
Definition with_keys M (keys : list Z) : gmap Z Z := foldl (fun M k => <[k := k]> M) M keys.

Lemma with_keys_lookup M keys k : with_keys M keys !! k = if decide (k ∈ keys) then Some k else M !! k.
Proof.
  revert M. induction keys as [|x keys IH]; intros M; cbn; [by rewrite decide_False by apply not_elem_of_nil|].
  unfold with_keys in IH. rewrite IH, lookup_insert.
  destruct (decide (k ∈ x :: keys)) as [Hk|Hk]; rewrite elem_of_cons in Hk;
    destruct (decide (k ∈ keys)), (decide (x = k)); naive_solver.
Qed.

Lemma with_keys_size M keys :
  NoDup keys -> (forall k, k ∈ keys -> M !! k = None) -> size (with_keys M keys) = (size M + length keys)%nat.
Proof.
  intros Hnd. revert M. induction Hnd as [|x keys Hx Hnd IH]; intros M Hf; cbn; [lia|].
  unfold with_keys in IH. rewrite IH, map_size_insert_None; [lia|apply Hf; by left|].
  intros k Hk. rewrite lookup_insert_ne; [apply Hf; by right|by intros ->].
Qed.

Lemma insert_keys_spec asserted keys : forall m M,
  represents hasher m M -> bounded m -> Z.of_nat (size M) + Z.of_nat (length keys) < 2 ^ 62 ->
  NoDup keys -> (forall k, k ∈ keys -> M !! k = None) ->
  exists m', insert_keys hasher asserted m keys = Ret m' /\ represents hasher m' (with_keys M keys) /\ bounded m' /\
    max_capacity m' = max_capacity m.
Proof.
  induction keys as [|k keys IH]; intros m M Hm Hb Hsz Hnd Hf; [by exists m|]. cbn [insert_keys].
  apply NoDup_cons in Hnd as [Hk Hnd]. cbn [length] in Hsz.
  pose proof (insert_represents hasher m M k k Hm) as Hi. unfold insert_spec in Hi. rewrite Hf in Hi by by left.
  destruct Hi as (m1 & E & Hm1 & Hmax).
  { pose proof (represents_count _ _ _ Hm) as Hc. unfold count in Hc. lia. }
  rewrite E. run_bind. cbn [inserted]. rewrite orb_true_r. cbn [assert]. run_bind.
  destruct (IH m1 (<[k := k]> M)) as (m2 & E2 & Hm2 & Hb2 & Hmax2); try done.
  - by eapply insert_bounded.
  - rewrite map_size_insert_None by (apply Hf; by left). lia.
  - intros j Hj. rewrite lookup_insert_ne; [apply Hf; by right|by intros ->].
  - exists m2. by rewrite Hmax2.
Qed.

(** A new map of the programs with [n] keys inserted. *)
Lemma insert_range_spec asserted n :
  0 <= n <= 2 ^ 32 ->
  exists m0 m, Map_new MAP_MAX_CAPACITY = Ret m0 /\ insert_keys hasher asserted m0 (int_keys n) = Ret m /\
    represents hasher m (with_keys ∅ (int_keys n)) /\ count m = n /\
    Z.of_nat (size (with_keys ∅ (int_keys n))) = n /\ capacity m <= MAP_MAX_CAPACITY.
Proof.
  intros Hn. destruct (Map_new_represents (V := Z) hasher MAP_MAX_CAPACITY) as (m0 & E0 & H0 & Hmax0); [done|].
  assert (Hk : Z.of_nat (size (with_keys ∅ (int_keys n))) = n).
  { rewrite with_keys_size, map_size_empty; [|apply NoDup_int_keys; lia|done]. apply length_int_keys. lia. }
  destruct (insert_keys_spec asserted (int_keys n) m0 ∅ H0) as (m & E & Hm & Hb & Hmax).
  - unfold bounded. rewrite Hmax0. injection E0 as <-. by vm_compute.
  - rewrite map_size_empty, length_int_keys by lia. lia.
  - apply NoDup_int_keys. lia.
  - done.
  - exists m0, m. rewrite (represents_count _ _ _ Hm), Hk. unfold bounded in Hb. rewrite Hmax, Hmax0 in Hb. done.
Qed.

(** ** The results *)

(** Results of lookups, checked: keys and values agree, so the check depends on
    what was found only. *)
Lemma check_results_eq m M rs :
  represents hasher m M -> (forall k v, M !! k = Some v -> v = k) ->
  Forall (fun r => exists k, lookup hasher m k = Ret r) rs ->
  check_results m rs = if forallb lookup_found rs then Ret tt else Fault AssertionFailed.
Proof.
  intros Hm Hkv Hrs. induction Hrs as [|r rs (k & Ek) _ IH]; [done|]. cbn [check_results forallb].
  destruct (lookup_represents hasher m M k Hm) as (r' & Er & Hr). assert (r' = r) as -> by congruence.
  destruct (M !! k) as [v|] eqn:EM.
  - destruct Hr as (-> & -> & ->). cbn [assert]. run_bind. rewrite (Hkv k v EM), bool_decide_true by done.
    cbn [assert andb]. by run_bind.
  - subst r. done.
Qed.

Lemma looked_up m keys rs :
  Forall2 (fun k r => lookup hasher m k = Ret r) keys rs -> Forall (fun r => exists k, lookup hasher m k = Ret r) rs.
Proof. induction 1; constructor; [by eexists|done]. Qed.

Lemma found_iff m M keys rs :
  represents hasher m M -> Forall2 (fun k r => lookup hasher m k = Ret r) keys rs ->
  forallb lookup_found rs = bool_decide (Forall (fun k => is_Some (M !! k)) keys).
Proof.
  intros Hm Hrs. induction Hrs as [|k r keys rs Ek _ IH]; cbn [forallb]; [by rewrite bool_decide_true by constructor|].
  destruct (lookup_represents hasher m M k Hm) as (r' & Er & Hr). assert (r' = r) as -> by congruence.
  rewrite IH. destruct (M !! k) as [v|] eqn:EM.
  - destruct Hr as (-> & _). cbn [andb]. apply bool_decide_ext. rewrite Forall_cons, EM. naive_solver.
  - subst r. cbn. rewrite bool_decide_false; [done|]. rewrite Forall_cons, EM. by intros [[v Ev] _].
Qed.

(** Of the first [n] keys inserted, exactly the first [n] are found. *)
Lemma range_found n l :
  0 <= n <= 2 ^ 32 -> 0 <= l <= 2 ^ 32 ->
  bool_decide (Forall (fun k => is_Some (with_keys ∅ (int_keys n) !! k)) (int_keys l)) = bool_decide (l <= n).
Proof.
  intros Hn Hl. apply bool_decide_ext. rewrite Forall_forall. split.
  - intros Ha. destruct (decide (l <= n)); [done|]. exfalso.
    destruct (Ha (to_int n)) as [v Ev]; [apply elem_of_int_keys; exists n; split; [lia|done]|].
    rewrite with_keys_lookup in Ev. case_decide as Hk; [|by rewrite lookup_empty in Ev].
    apply elem_of_int_keys in Hk as (i & Hi & E). apply to_int_inj in E; lia.
  - intros Hle k Hk%elem_of_int_keys. destruct Hk as (i & Hi & ->). rewrite with_keys_lookup, decide_True; [by eexists|].
    apply elem_of_int_keys. exists i. split; [lia|done].
Qed.

Lemma with_keys_same n k v : with_keys ∅ (int_keys n) !! k = Some v -> v = k.
Proof. rewrite with_keys_lookup. case_decide; [by intros [= <-]|by rewrite lookup_empty]. Qed.
End Specs.

(** ** Theorems *)

Section Theorems.
Context (hasher : Z -> Z).

(** The sequential stress test, for any hash function: it passes if and only if
    it looks up no more keys than it inserts; it then reports exactly the keys
    inserted, and otherwise stops at its assertion. *)
Theorem stress_sequential_passes n_inserts n_lookups :
  0 <= n_inserts <= 2 ^ 32 -> 0 <= n_lookups <= 2 ^ 32 ->
  if decide (n_lookups <= n_inserts) then
    exists s, stress_sequential hasher n_inserts n_lookups = Ret s /\ st_count s = n_inserts
  else stress_sequential hasher n_inserts n_lookups = Fault AssertionFailed.
Proof.
  intros Hi Hl. destruct (insert_range_spec hasher true n_inserts Hi) as (m0 & m & E0 & E1 & Hm & Hc & Hsz & Hcap).
  unfold stress_sequential. rewrite E0. run_bind. rewrite bool_decide_true by done. cbn [assert]. run_bind.
  destruct (represents_lookups hasher m _ (int_keys n_lookups) Hm) as (rs & Hrs).
  rewrite (sequential_multilookup_Ret hasher m _ [] rs Hrs). run_bind. cbn [app].
  rewrite bool_decide_true by (rewrite <- (Forall2_length _ _ _ Hrs); apply length_int_keys; lia). cbn [assert]. run_bind.
  rewrite (check_results_eq hasher m _ rs Hm (with_keys_same hasher n_inserts) (looked_up _ _ _ _ Hrs)), (found_iff hasher m _ _ rs Hm Hrs), (range_found hasher n_inserts n_lookups Hi Hl).
  case_decide as Hd; [rewrite bool_decide_true by done|by rewrite bool_decide_false by done]. run_bind.
  destruct (stats_correct hasher m _ Hm) as (s & Es & Hs & _); [lia|by change MAP_MAX_CAPACITY with 65536 in Hcap; lia|].
  exists s. rewrite Hs. done.
Qed.

Context `{Malloc} `{!MallocTotal} (frame_size : Z).

(** The interleaved stress test has the same verdict: composing the map with
    the scheduler, the throttler and the frame allocator changes nothing. *)
Theorem stress_interleaved_agrees n_inserts n_lookups :
  sizeof_header <= frame_size -> 0 <= n_inserts <= 2 ^ 32 -> 0 <= n_lookups <= 2 ^ 32 ->
  stress_interleaved hasher frame_size n_inserts n_lookups = stress_sequential hasher n_inserts n_lookups.
Proof.
  intros Hf Hi Hl. destruct (insert_range_spec hasher true n_inserts Hi) as (m0 & m & E0 & E1 & Hm & Hc & Hsz & Hcap).
  destruct (insert_range_spec hasher false n_inserts Hi) as (m0' & m' & E0' & E1' & _).
  assert (m0' = m0) as -> by congruence.
  assert (m' = m) as ->.
  { clear -E1 E1'. revert m0 E1 E1'. generalize (int_keys n_inserts). induction l as [|k l IH]; intros m0; cbn [insert_keys]; [congruence|].
    intros E E'. apply bind_Ret_inv in E as ([m1 r] & Ei & E). rewrite Ei in E'. revert E'. run_bind. cbn [negb orb assert].
    apply bind_Ret_inv in E as ([] & _ & E). run_bind. by apply IH. }
  unfold stress_sequential, stress_interleaved. run_bind.
  rewrite bool_decide_true by done. cbn [assert]. run_bind.
  destruct (interleaved_multilookup_spec hasher frame_size 32 m _ (int_keys n_lookups) [] (StaticQueueScheduler.init 32)
    RecyclingAllocator.init 4 (multilookup_fuel m (int_keys n_lookups)) Hm) as (rt & rs & rs' & Er & Es & Hw & Hp & _);
    [apply StaticQueueScheduler.static_init_repr; lia|by apply RecyclingAllocator.recycling_init_inv|lia|lia|done|].
  change (Z.of_nat 4) with 4 in Er. rewrite Er, Es. run_bind. rewrite Hw. cbn [app]. rewrite (Permutation.Permutation_length Hp).
  case_bool_decide as Hlen; [|done]. cbn [assert]. run_bind.
  destruct (represents_lookups hasher m _ (int_keys n_lookups) Hm) as (rs0 & Hrs).
  rewrite (sequential_multilookup_Ret hasher m _ [] rs0 Hrs) in Es. injection Es as <-.
  pose proof (looked_up _ _ _ _ Hrs) as Hrs0.
  rewrite (check_results_eq hasher m _ rs0 Hm (with_keys_same hasher n_inserts) Hrs0).
  rewrite (check_results_eq hasher m _ rs' Hm (with_keys_same hasher n_inserts)) by (eapply Permutation.Permutation_Forall; [symmetry; exact Hp|exact Hrs0]).
  by rewrite (forallb_perm _ _ _ Hp).
Qed.
End Theorems.

Section Tests.
Context (hasher : Z -> Z).
Implicit Types (m : Map Z Z).

(** *** stats.cpp *)

Lemma perform_inserts_spec n :
  0 <= n <= 2 ^ 32 -> exists s, perform_inserts_and_dump_stats hasher n = Ret (s, n / 2 ^ 16) /\ st_count s = n.
Proof.
  intros Hn. destruct (insert_range_spec hasher false n Hn) as (m0 & m & E0 & E1 & Hm & Hc & Hsz & Hcap).
  unfold perform_inserts_and_dump_stats. run_bind.
  destruct (stats_correct hasher m _ Hm) as (s & Es & Hs & _); [lia|by change MAP_MAX_CAPACITY with 65536 in Hcap; lia|].
  run_bind. exists s. rewrite Hs, Hsz. split; [|done]. rewrite u64_small by lia. do 2 f_equal.
  change (4 * 2 + 8) with (2 ^ 4). change (Z.shiftl 1 20) with (2 ^ 16 * 2 ^ 4).
  by rewrite Z.div_mul_cancel_r.
Qed.

Lemma stats_loop_spec k j :
  (k = Z.to_nat (10 - j)) -> 0 <= j <= 10 ->
  exists l, stats_loop hasher (S k) (2 ^ (16 + j)) = Ret l /\
    (fun x => (st_count (fst x), snd x)) <$> l = (fun j => (2 ^ (16 + j), 2 ^ j)) <$> seqZ j (10 - j).
Proof.
  revert j. induction k as [|k IH]; intros j Hk Hj.
  - assert (j = 10) as -> by lia. exists []. by split.
  - cbn [stats_loop]. assert (Hle : 2 ^ (16 + j) <= MAX_N_ITEMS) by (change MAX_N_ITEMS with (2 ^ 25); apply Z.pow_le_mono_r; lia).
    assert (0 < 2 ^ (16 + j)) by (apply Z.pow_pos_nonneg; lia).
    rewrite decide_True by exact Hle. change MAX_N_ITEMS with (2 ^ 25) in Hle.
    destruct (perform_inserts_spec (2 ^ (16 + j))) as (s & E & Hs); [lia|]. rewrite E. run_bind.
    assert (2 ^ (16 + j + 1) <= 2 ^ 26) by (apply Z.pow_le_mono_r; lia). pose proof (Z.pow_nonneg 2 (16 + j + 1)).
    rewrite Z.shiftl_mul_pow2, <- Z.pow_add_r, u64_small by lia.
    destruct (IH (j + 1)) as (l & El & Hl); [lia|lia|]. replace (16 + j + 1) with (16 + (j + 1)) by lia.
    cbn [stats_loop] in El |- *. rewrite El. run_bind. exists ((s, 2 ^ (16 + j) / 2 ^ 16) :: l). split; [done|].
    rewrite (seqZ_cons j) by lia. cbn [fmap list_fmap fst snd]. rewrite Hs. f_equal.
    + f_equal. rewrite Z.pow_add_r, Z.mul_comm by lia. by rewrite Z.div_mul.
    + replace (Z.pred (10 - j)) with (10 - (j + 1)) by lia.
      replace (Z.succ j) with (j + 1) by lia. exact Hl.
Qed.

(** [stats.cpp] terminates and reports, for each of the ten sizes from 2^16 to
    2^25, all of the keys inserted and a footprint of 16 bytes per key. *)
Theorem stats_main_reports :
  exists l, stats_main hasher 11 = Ret l /\
    (fun x => (st_count (fst x), snd x)) <$> l = (fun j => (2 ^ (16 + j), 2 ^ j)) <$> seqZ 0 10.
Proof. apply (stats_loop_spec 10 0); done || lia. Qed.

(** *** test.cpp *)

Lemma Map_default_spec :
  exists m, Map_default = Ret m /\ represents hasher m ∅ /\ count m = 0 /\ bounded m.
Proof.
  destruct (Map_new_represents (V := Z) hasher DEFAULT_MAX_CAPACITY) as (m & E & Hm & _); [done|].
  exists m. split; [done|]. split; [done|]. injection E as <-. split; [done|]. by vm_compute.
Qed.

Lemma test_insertion_spec :
  exists m, test_insertion hasher = Ret m /\ represents hasher m {[ 1 := 1 ]}.
Proof.
  destruct Map_default_spec as (m0 & E0 & H0 & Hc & _). unfold test_insertion. rewrite E0. run_bind. rewrite Hc.
  cbn [REQUIRE assert bool_decide]. run_bind.
  pose proof (insert_represents hasher m0 ∅ 1 1 H0) as Hi. unfold insert_spec in Hi. rewrite lookup_empty in Hi.
  unfold count in Hc. destruct Hi as (m & -> & Hm & _); [lia|]. run_bind. cbn [inserted REQUIRE assert]. run_bind.
  rewrite (represents_count _ _ _ Hm). change (size (<[1 := 1]> (∅ : gmap Z Z))) with 1%nat. cbn. by exists m.
Qed.

Lemma test_lookup_spec : exists m, test_lookup hasher = Ret m /\ represents hasher m {[ 1 := 1 ]}.
Proof.
  destruct test_insertion_spec as (m & E & Hm). unfold test_lookup. rewrite E. run_bind.
  destruct (lookup_represents hasher m _ 1 Hm) as (r & -> & Hr). rewrite lookup_singleton_eq in Hr. destruct Hr as (Hf & Hk & Hv).
  run_bind. rewrite Hf. cbn [REQUIRE assert]. run_bind. cbn. by exists m.
Qed.

Lemma test_update_passes : test_update hasher = Ret tt.
Proof.
  destruct test_lookup_spec as (m & E & Hm). unfold test_update. rewrite E. run_bind.
  pose proof (represents_count _ _ _ Hm) as Hc. rewrite map_size_singleton in Hc. unfold count in Hc.
  pose proof (update_represents hasher m _ 1 2 Hm) as Hu. unfold update_spec in Hu. rewrite lookup_singleton_eq in Hu.
  destruct Hu as (a & m' & -> & Hm' & _ & Hk & Hv); [lia|]. run_bind. cbn [inserted REQUIRE assert]. run_bind. cbn.
  run_bind. cbn. rewrite (represents_count _ _ _ Hm'), insert_singleton_eq, map_size_singleton. done.
Qed.

Lemma test_removal_passes : test_removal hasher = Ret tt.
Proof.
  destruct test_insertion_spec as (m & E & Hm). unfold test_removal. rewrite E. run_bind.
  pose proof (represents_count _ _ _ Hm) as Hc. rewrite map_size_singleton in Hc. unfold count in Hc.
  destruct Hm as (cs & Hwf & HM).
  destruct (located_hit hasher m cs 1 Hwf) as (i & b & l1 & x & l2 & Hi & Eb & Ec & Hb & Hk & Hl & Ev & _);
    [rewrite <- HM, lookup_singleton_eq; by eexists|].
  destruct (wf_cell hasher m cs i b l1 x l2 Hwf Eb Ec) as (_ & _ & Hn & _). rewrite length_app in Hn.
  assert (l1 = []) as -> by (destruct l1; [done|cbn in Hn; lia]).
  rewrite <- HM, <- Hk, lookup_singleton_eq in Ev.
  destruct (remove_hit hasher m cs i b [] x l2) as (n & _ & _ & Er);
    [exact Hwf|exact Eb|exact Ec|exact Hb|by rewrite Hk|apply not_elem_of_nil|]. rewrite Hk in Er. run_bind.
  injection Ev as Ev. rewrite <- Ev, Hk. unfold remove_found, remove_get_key, remove_get_value. cbn [remove_key remove_value]. rewrite (bool_decide_true (is_Some _)) by by eexists.
  cbn [REQUIRE assert]. run_bind. change (count (removed m i b x n)) with (u64 (n_items m - 1)). by rewrite Hc.
Qed.

Lemma lookup_keys_spec m (M : gmap Z Z) keys :
  represents hasher m M -> (forall k, k ∈ keys -> is_Some (M !! k)) -> lookup_keys hasher m keys = Ret tt.
Proof.
  intros Hm. induction keys as [|k keys IH]; intros Hk; [done|]. cbn [lookup_keys].
  destruct (lookup_represents hasher m M k Hm) as (r & -> & Hr). destruct (Hk k) as [v Ev]; [by left|].
  rewrite Ev in Hr. run_bind. destruct Hr as (-> & _). cbn [REQUIRE assert]. run_bind. apply IH. intros j Hj. apply Hk. by right.
Qed.

Lemma test_resize_passes : test_resize hasher = Ret tt.
Proof.
  destruct Map_default_spec as (m0 & E0 & H0 & Hc & Hb). unfold test_resize. rewrite E0. run_bind. rewrite Hc.
  cbn [REQUIRE assert bool_decide]. run_bind.
  destruct (insert_keys_spec hasher true (seqZ 0 6) m0 ∅ H0 Hb) as (m & E & Hm & _); [done|apply NoDup_seqZ|done|].
  rewrite E. run_bind. apply (lookup_keys_spec m _ _ Hm). intros k Hk. rewrite with_keys_lookup, decide_True by done. by eexists.
Qed.

(** The unit tests pass, whatever [std::hash] is. *)
Theorem unit_tests_pass : test_main hasher = Ret tt.
Proof.
  unfold test_main. change test_construction with (Ret tt). change test_construction_throws with (Ret tt).
  destruct test_insertion_spec as (m1 & -> & _), test_lookup_spec as (m2 & -> & _). run_bind.
  rewrite test_update_passes, test_removal_passes, test_resize_passes. done.
Qed.
End Tests.

(** ** Witnesses *)

Lemma stress_sequential_passes_witness :
  (exists s, stress_sequential demo_hasher 3 2 = Ret s /\ st_count s = 3) /\
  stress_sequential demo_hasher 3 4 = Fault AssertionFailed.
Proof.
  split; [apply (stress_sequential_passes demo_hasher 3 2); lia|apply (stress_sequential_passes demo_hasher 3 4); lia].
Defined.

#[local] Existing Instance bump_malloc.

Lemma stress_interleaved_agrees_witness :
  stress_interleaved demo_hasher 32 3 2 = stress_sequential demo_hasher 3 2.
Proof. apply (stress_interleaved_agrees (H0 := bump_malloc_total) demo_hasher 32 3 2); unfold sizeof_header; lia. Defined.
End MapPrograms.
