(* ===== verification/Benches.v ===== *)
(** * Benches: the benchmark programs

    [bench.cpp] of applications/binary-search/, and [bench_sequential.cpp] and
    [bench_interleaved.cpp] of applications/map/ with the output iterator that
    discards ([dev_null_iterator.hpp]). The benchmark library chooses the sizes and the
    number of iterations: they are arguments, as are the random engine and the
    measured times. *)

From S2P Require Import Prelude Words LinkedList Schedulers Allocators Interleave Rng BinarySearch Manual.
From S2P Require Import HashMap HashMapWf HashMapSpec HashMapProps MultiLookup MapPrograms.
Local Open Scope Z_scope.

(** ** applications/binary-search/bench.cpp *)
Module SearchBench.
Import Rng.

Definition RNG_SEED : Z := 1.
Definition N_LOOKUPS : Z := 1024 * 1024.
Definition MIN_DATASET_SIZE : Z := 512 * Z.shiftl 1 10.
Definition MAX_DATASET_SIZE : Z := 16 * Z.shiftl 1 20.
Definition MIN_N_STREAMS : Z := 1.
Definition MAX_N_STREAMS : Z := 32.

(** [static_cast<int>] *)
Definition to_int (z : Z) : Z := Manual.to_int z.

(** [for (i = 0ul; i < dataset_size; ++i) dataset.push_back(static_cast<int>(i + i));] *)
Definition generate_dataset (dataset_size : Z) : list Z :=
  (fun i => to_int (u64 (i + i))) <$> seqZ 0 dataset_size.

Section Engine.
Context `{Engine G}.

Definition generate_lookups (dataset_size n_lookups seed : Z) : outcome (list Z) :=
  let r := rng_new seed 0 (to_int (u64 (dataset_size * 2))) n_lookups in
  draw (S (Z.to_nat n_lookups)) (begin r) r [].

(** The searches for each key; their results are discarded. *)
Fixpoint test_vanilla (dataset lookups : list Z) : outcome (list bool) :=
  match lookups with
  | [] => Ret []
  | key :: lookups =>
    b ← Vanilla.vanilla_binary_search dataset 0 (Z.of_nat (length dataset)) key;
    bs ← test_vanilla dataset lookups; Ret (b :: bs)
  end.

Definition test_state_machine (fuel : nat) (dataset lookups : list Z) (n_streams : Z) : outcome Z :=
  StateMachine.state_machine_multi_lookup fuel dataset lookups n_streams.

Definition test_coroutine `{Malloc} (frame_size : Z) (fuel : nat) (dataset lookups : list Z) (n_streams : Z)
    (g : Coro.globals) : outcome (Z * Coro.globals) :=
  Coro.coro_multi_lookup frame_size fuel dataset lookups n_streams g.

(** [for (auto _ : state) { ... }], [k] iterations, with what each one discards *)
Fixpoint iterations {A S} (k : nat) (body : S -> outcome (A * S)) (s : S) : outcome (list A) :=
  match k with
  | O => Ret []
  | Datatypes.S k => '(a, s) ← body s; l ← iterations k body s; Ret (a :: l)
  end.

Definition BM_vanilla (k : nat) (dataset_size : Z) : outcome (list (list bool)) :=
  let dataset := generate_dataset dataset_size in
  lookups ← generate_lookups dataset_size N_LOOKUPS RNG_SEED;
  iterations k (fun _ => bs ← test_vanilla dataset lookups; Ret (bs, tt)) tt.

Definition BM_state_machine (fuel k : nat) (dataset_size n_streams : Z) : outcome (list Z) :=
  let dataset := generate_dataset dataset_size in
  lookups ← generate_lookups dataset_size N_LOOKUPS RNG_SEED;
  iterations k (fun _ => r ← test_state_machine fuel dataset lookups n_streams; Ret (r, tt)) tt.

Definition BM_coroutine `{Malloc} (frame_size : Z) (fuel k : nat) (dataset_size n_streams : Z) : outcome (list Z) :=
  let dataset := generate_dataset dataset_size in
  lookups ← generate_lookups dataset_size N_LOOKUPS RNG_SEED;
  iterations k (test_coroutine frame_size fuel dataset lookups n_streams) Coro.init_globals.
End Engine.

Lemma iterations_const {A S} k (body : S -> outcome (A * S)) (I : S -> Prop) a s :
  (forall s, I s -> exists s', body s = Ret (a, s') /\ I s') -> I s -> iterations k body s = Ret (replicate k a).
Proof.
  intros Hb. revert s. induction k as [|k IH]; intros s Hs; [done|]. cbn [iterations replicate].
  destruct (Hb s Hs) as (s' & -> & Hs'). run_bind. rewrite IH by done. by run_bind.
Qed.

Lemma generate_dataset_eq n : 0 <= n -> generate_dataset n = Manual.make_dataset (4 * n).
Proof.
  intros Hn. unfold generate_dataset, Manual.make_dataset, to_int. rewrite (Z.mul_comm 4), Z.div_mul by lia.
  unfold seqZ. rewrite <- list_fmap_compose. apply list_fmap_ext. intros i x _. cbn. do 2 f_equal. lia.
Qed.

Lemma searches_spec dataset lookups :
  Sorted Z.le dataset -> test_vanilla dataset lookups = Ret ((fun key => bool_decide (key ∈ dataset)) <$> lookups).
Proof.
  intros Hs. induction lookups as [|key lookups IH]; [done|]. cbn [test_vanilla].
  rewrite Vanilla.vanilla_spec by done. by run_bind.
Qed.

Lemma generate_lookups_spec `{EngineLaws G} size n seed :
  0 <= size -> size * 2 < 2 ^ 31 -> 0 <= n < 2 ^ 64 ->
  exists l, generate_lookups (G := G) size n seed = Ret l /\ Z.of_nat (length l) = n /\
    Forall (fun x => 0 <= x <= size * 2) l.
Proof.
  intros Hs Hs2 Hn. unfold generate_lookups.
  assert (to_int (u64 (size * 2)) = size * 2) as Hi.
  { unfold to_int, Manual.to_int. rewrite u64_small, Z.mod_small by lia. lia. }
  rewrite Hi. unfold begin. cbn [count rng_new].
  pose proof (draw_spec (Z.to_nat n) (rng_new (G := G) seed 0 (size * 2) n) []) as E. rewrite Z2Nat.id in E by lia.
  rewrite E by lia. eexists. split; [done|]. cbn [app]. rewrite numbers_length. split; [lia|].
  apply (numbers_range _ 0 (size * 2)). lia.
Qed.

(** One dataset of even numbers, the keys, and the three ways of searching. *)
Lemma bench_iterations `{Malloc} `{!MallocTotal} frame_size k size lookups n fuel :
  sizeof_header <= frame_size -> 0 < size <= 2 ^ 30 -> 1 <= n <= 32 -> Z.of_nat (length lookups) + 1 < 2 ^ 64 ->
  ((Z.to_nat n + length lookups) * Datatypes.S (Z.to_nat size) < fuel)%nat ->
  let dataset := generate_dataset size in
  let bs := (fun key => bool_decide (key ∈ dataset)) <$> lookups in
  iterations k (fun _ => bs ← test_vanilla dataset lookups; Ret (bs, tt)) tt = Ret (replicate k bs) /\
  iterations k (fun _ => r ← test_state_machine fuel dataset lookups n; Ret (r, tt)) tt
    = Ret (replicate k (Z.of_nat (count_if id bs))) /\
  iterations k (test_coroutine frame_size fuel dataset lookups n) Coro.init_globals
    = Ret (replicate k (Z.of_nat (count_if id bs))).
Proof.
  intros Hfs Hsize Hn Hlen Hfuel dataset bs.
  assert (Sorted Z.le dataset) as Hs.
  { unfold dataset. rewrite generate_dataset_eq by lia. apply Manual.make_dataset_sorted. rewrite Z.mul_comm, Z.div_mul; lia. }
  assert (length dataset = Z.to_nat size) as Hl.
  { unfold dataset. rewrite generate_dataset_eq, Manual.make_dataset_length by lia. by rewrite Z.mul_comm, Z.div_mul. }
  assert (dataset <> []) as Hne by (intros E; rewrite E in Hl; cbn in Hl; lia).
  assert (count_if id bs = count_if (fun key => bool_decide (key ∈ dataset)) lookups) as Hc
    by (unfold bs; by rewrite Coro.count_if_fmap).
  repeat split.
  - apply (iterations_const _ _ (fun _ => True)); [|done]. intros [] _. exists tt.
    cbn beta. rewrite searches_spec by done. by run_bind.
  - apply (iterations_const _ _ (fun _ => True)); [|done]. intros [] _. exists tt. unfold test_state_machine. cbn beta.
    rewrite (StateMachine.multi_lookup_spec dataset Hs), Hc by (done || lia). by run_bind.
  - apply (iterations_const _ _ (Coro.ready frame_size)); [|by apply Coro.init_ready].
    intros g Hg. unfold test_coroutine. rewrite Hc.
    destruct (Coro.coro_multi_lookup_spec frame_size fuel dataset lookups (Z.to_nat n) g) as (g' & E & Hg');
      [done|done|lia|lia|lia|].
    rewrite Z2Nat.id in E by lia. eauto.
Qed.

(** The three benchmarks do the same work: whatever the random engine, the size
    of the dataset and the number of streams within the registered bounds, every
    iteration of each of them returns - no fault, no failed assertion. The
    searches of the first one answer which of the [N_LOOKUPS] keys are in the
    dataset, and the two others count those. *)
Theorem benches_agree `{EngineLaws G} `{Malloc} `{!MallocTotal} frame_size k size n :
  sizeof_header <= frame_size -> MIN_DATASET_SIZE <= size <= MAX_DATASET_SIZE -> MIN_N_STREAMS <= n <= MAX_N_STREAMS ->
  exists keys fuel, Z.of_nat (length keys) = N_LOOKUPS /\ Forall (fun key => 0 <= key <= size * 2) keys /\
    let bs := (fun key => bool_decide (key ∈ generate_dataset size)) <$> keys in
    BM_vanilla (G := G) k size = Ret (replicate k bs) /\
    BM_state_machine (G := G) fuel k size n = Ret (replicate k (Z.of_nat (count_if id bs))) /\
    BM_coroutine (G := G) frame_size fuel k size n = Ret (replicate k (Z.of_nat (count_if id bs))).
Proof.
  intros Hfs Hsize Hn.
  assert (0 < size <= 2 ^ 24) as Hsz by (change MIN_DATASET_SIZE with (2 ^ 19) in Hsize; change MAX_DATASET_SIZE with (2 ^ 24) in Hsize; lia).
  assert (1 <= n <= 32) as Hn' by exact Hn.
  assert (0 <= N_LOOKUPS < 2 ^ 32) as HN by (split; [discriminate|reflexivity]).
  unfold BM_vanilla, BM_state_machine, BM_coroutine. generalize dependent N_LOOKUPS. intros N HN.
  destruct (generate_lookups_spec (G := G) size N RNG_SEED) as (l & -> & Hl & Hr); [lia..|]. run_bind.
  destruct (bench_iterations frame_size k size l n (S ((Z.to_nat n + length l) * Datatypes.S (Z.to_nat size))))
    as (E1 & E2 & E3); [done|lia..|].
  exists l. eexists. split; [exact Hl|]. split; [exact Hr|]. split; [exact E1|]. split; [exact E2|exact E3].
Qed.

(** An engine that draws the bounds in turn. *)
Definition toggle : Engine bool := {|
  seeded _ := false;
  distribution from to g := (if g then to else from, negb g);
|}.

Lemma toggle_laws : @EngineLaws bool toggle.
Proof. constructor. intros from to [] ?; cbn; lia. Qed.

Lemma benches_agree_witness :
  exists keys fuel, Z.of_nat (length keys) = N_LOOKUPS /\ Forall (fun key => 0 <= key <= MIN_DATASET_SIZE * 2) keys /\
    let bs := (fun key => bool_decide (key ∈ generate_dataset MIN_DATASET_SIZE)) <$> keys in
    @BM_vanilla bool toggle 3 MIN_DATASET_SIZE = Ret (replicate 3 bs) /\
    @BM_state_machine bool toggle fuel 3 MIN_DATASET_SIZE 32 = Ret (replicate 3 (Z.of_nat (count_if id bs))) /\
    @BM_coroutine bool toggle bump_malloc 64 fuel 3 MIN_DATASET_SIZE 32 = Ret (replicate 3 (Z.of_nat (count_if id bs))).
Proof.
  apply (@benches_agree bool toggle toggle_laws bump_malloc bump_malloc_total 64 3 MIN_DATASET_SIZE 32);
    (discriminate || (split; discriminate)).
Defined.
End SearchBench.

(** ** applications/map/bench_sequential.cpp and bench_interleaved.cpp *)
Module MapBench.
Import MapPrograms.

Definition N_STREAMS : Z := 10.

(** The body of the generator [make_range<int>(begin, end)]; its state is [i]. *)
Definition make_range (end_ i : Z) : Generator.Generator.action Z Z :=
  if decide (i < end_) then Generator.Generator.Yield i (i + 1) else Generator.Generator.Finish.

(** The keys that [make_range<int>(0, static_cast<int>(n_items))] yields *)
Definition range (n_items : Z) : list Z := seqZ 0 (to_int n_items).

Lemma bench_range_produces end_ i :
  i <= end_ ->
  Generator.Generator.produces (make_range end_) i (seqZ i (end_ - i)) Generator.Generator.Finished.
Proof.
  intros Hi. remember (Z.to_nat (end_ - i)) as k eqn:Ek. revert i Hi Ek. induction k as [|k IH]; intros i Hi Ek.
  - replace (end_ - i) with 0 by lia. apply Generator.Generator.produces_finish. unfold make_range.
    by rewrite decide_False by lia.
  - rewrite seqZ_cons by lia. eapply Generator.Generator.produces_yield.
    + unfold make_range. by rewrite decide_True by lia.
    + replace (Z.pred (end_ - i)) with (end_ - (i + 1)) by lia. apply IH; lia.
Qed.

(** The message of the label: the items and the nanoseconds per lookup *)
Definition label (n_items as_ns : Z) : Z * Z := (n_items, u64 (Z.quot as_ns n_items)).

(** [for (auto _ : state)]: an iteration for each measured time; what it writes
    to the output iterator (which discards it), and its label *)
Fixpoint timed {A S} (body : Z -> S -> outcome (A * S)) (times : list Z) (s : S) : outcome (list A) :=
  match times with
  | [] => Ret []
  | t :: times => '(a, s) ← body t s; l ← timed body times s; Ret (a :: l)
  end.

Section Programs.
Context (hasher : Z -> Z).

Definition sequential_iteration (n_items as_ns : Z) : outcome (list (LookupKVResult) * (Z * Z)) :=
  m ← Map_new MAP_MAX_CAPACITY;
  m ← insert_keys hasher false m (range n_items);
  results ← sequential_multilookup hasher m (range n_items) [];
  Ret (results, label n_items as_ns).

Definition BM_sequential_multilookup (n_items : Z) (times : list Z) :=
  timed (fun as_ns _ => r ← sequential_iteration n_items as_ns; Ret (r, tt)) times tt.

Section Interleaved.
Context `{Malloc} (frame_size : Z).

(** The scheduler is fresh in every iteration; the allocator is global. *)
Definition interleaved_iteration (n_items as_ns : Z) (allocator : RecyclingAllocator.RecyclingAllocator) :
    outcome (list (LookupKVResult) * (Z * Z) * RecyclingAllocator.RecyclingAllocator) :=
  let scheduler := StaticQueueScheduler.init 32 in
  m ← Map_new MAP_MAX_CAPACITY;
  m ← insert_keys hasher false m (range n_items);
  rt ← interleaved_multilookup hasher frame_size 32 (multilookup_fuel m (range n_items)) m (range n_items) []
         scheduler N_STREAMS allocator;
  Ret (rt_world rt, label n_items as_ns, rt_alloc rt).

Definition BM_interleaved_multilookup (n_items : Z) (times : list Z) :=
  timed (interleaved_iteration n_items) times RecyclingAllocator.init.
End Interleaved.
End Programs.

Lemma range_int_keys n : 0 <= n < 2 ^ 31 -> range n = int_keys n.
Proof.
  intros Hn. unfold range, int_keys. assert (forall i, 0 <= i < 2 ^ 31 -> to_int i = i) as Hi.
  { intros i Hi. unfold to_int. rewrite Z.mod_small; lia. }
  rewrite Hi by done. rewrite <- (list_fmap_id (seqZ 0 n)) at 1. apply list_fmap_ext.
  intros j x Hx%list_elem_of_lookup_2%elem_of_seqZ. cbn. rewrite Hi; [done|lia].
Qed.

Lemma timed_spec {A S} (body : Z -> S -> outcome (A * S)) (I : S -> Prop) (P : Z -> A -> Prop) times :
  (forall t s, I s -> exists a s', body t s = Ret (a, s') /\ P t a /\ I s') ->
  forall s, I s -> exists l, timed body times s = Ret l /\ Forall2 P times l.
Proof.
  intros Hb. induction times as [|t times IH]; intros s Hs; [by exists []|]. cbn [timed].
  destruct (Hb t s Hs) as (a & s' & -> & Ha & Hs'). run_bind.
  destruct (IH s' Hs') as (l & -> & Hl). run_bind. exists (a :: l). by split; [|constructor].
Qed.

Section Theorems.
Context (hasher : Z -> Z) `{Malloc} `{!MallocTotal} (frame_size : Z).

(** Both benchmarks, for any hash function, number of items within the
    registered bounds and measured times: each iteration returns, labelled with
    the number of items and its own time per lookup; the lookups of the
    sequential one find every item, and those of the interleaved one - which
    shares a recycling allocator among its iterations - are a permutation. *)
Theorem map_benches_find n times :
  sizeof_header <= frame_size -> Z.shiftl 1 16 <= n <= Z.shiftl 1 25 ->
  exists rs, Z.of_nat (length rs) = n /\ Forall lookup_found rs /\
    (exists l, BM_sequential_multilookup hasher n times = Ret l /\
      Forall2 (fun t a => a = (rs, label n t)) times l) /\
    (exists l, BM_interleaved_multilookup hasher frame_size n times = Ret l /\
      Forall2 (fun t a => a.1 ≡ₚ rs /\ a.2 = label n t) times l).
Proof.
  intros Hfs Hn. assert (0 < n <= 2 ^ 25) as Hn' by (change (Z.shiftl 1 16) with (2 ^ 16) in Hn; change (Z.shiftl 1 25) with (2 ^ 25) in Hn; lia).
  destruct (insert_range_spec hasher false n) as (m0 & m & E0 & E1 & Hm & Hc & Hsz & Hcap); [lia|].
  destruct (represents_lookups hasher m _ (int_keys n) Hm) as (rs & Hrs).
  pose proof (sequential_multilookup_Ret hasher m _ [] rs Hrs) as Es. cbn [app] in Es.
  pose proof (found_iff hasher m _ _ rs Hm Hrs) as Hf. rewrite (range_found hasher n n), bool_decide_true in Hf by lia.
  exists rs. split; [rewrite <- (Forall2_length _ _ _ Hrs); apply length_int_keys; lia|].
  split; [by apply Is_true_true, forallb_True in Hf|]. split.
  - apply (timed_spec _ (fun _ => True)); [|done]. intros t [] _. exists (rs, label n t), tt.
    unfold sequential_iteration. rewrite range_int_keys, E0 by lia. run_bind. done.
  - apply (timed_spec _ (fun a => RecyclingAllocator.inv frame_size a ∅)); [|by apply RecyclingAllocator.recycling_init_inv].
    intros t a Ha.
    destruct (interleaved_multilookup_spec hasher frame_size 32 m _ (int_keys n) [] (StaticQueueScheduler.init 32) a 10
      (multilookup_fuel m (int_keys n)) Hm) as (rt & rs1 & rs' & Er & Es' & Hw & Hp & _ & Ha' & _);
      [apply StaticQueueScheduler.static_init_repr; lia|done|lia|lia|done|].
    rewrite Es in Es'. injection Es' as <-. exists (rt_world rt, label n t), (rt_alloc rt).
    unfold interleaved_iteration. rewrite range_int_keys, E0 by lia. run_bind.
    change N_STREAMS with (Z.of_nat 10). run_bind. cbn [fst snd]. by rewrite Hw.
Qed.
End Theorems.

Lemma map_benches_find_witness :
  exists rs, Z.of_nat (length rs) = 65536 /\ Forall lookup_found rs /\
    (exists l, BM_sequential_multilookup demo_hasher 65536 [131072; 70000] = Ret l /\
      Forall2 (fun t a => a = (rs, label 65536 t)) [131072; 70000] l) /\
    (exists l, @BM_interleaved_multilookup demo_hasher bump_malloc 32 65536 [131072; 70000] = Ret l /\
      Forall2 (fun t a => a.1 ≡ₚ rs /\ a.2 = label 65536 t) [131072; 70000] l).
Proof.
  apply (@map_benches_find demo_hasher bump_malloc bump_malloc_total 32 65536 [131072; 70000]);
    [discriminate|split; discriminate].
Defined.
End MapBench.
